(* ===== verification/_CoqProject ===== *)
-Q . S2P
Prelude.v
Types.v
RaftCore.v
CoreLog.v
CoreFrame.v
CoreElection.v
Cluster.v
CoreReplication.v
CoreInvariant.v
CoreCommit.v
CoreTotal.v
CoreTiming.v
CoreHandlers.v
ReplicationSafety.v
CatchUp.v
CoreEffects.v
CorePersists.v
CoreTyped.v
CoreExamples.v
ElectionSafety.v
RaftSpec.v
RaftSpecSafety.v
RaftSpecInv.v
RaftSpecSteps.v
Replicas.v
Refinement.v
NodeSim.v
SimElection.v
SimReplication.v
SimAppend.v
ClusterSafety.v
ClusterCommits.v
ReplicaRuns.v
SafetyWitnesses.v
TestHarness.v
ElectionTests.v
ReplicationTests.v
SnapshotTests.v
Codec.v
Storage.v
FileStorage.v
FileStorageSpec.v
MemStorage.v
StorageTheorems.v
CoreLeader.v
EventLoop.v
EventLoopFrame.v
EventLoopTheorems.v
NodeHandle.v
EventLoopReplies.v
EventLoopDurable.v
Limits.v
Service.v
ServiceSim.v
ServiceSafety.v
ServiceRuns.v
Transport.v
ServiceTransports.v
TcpNetwork.v
Kv.v
KvTheorems.v
ServiceKv.v
ExampleCodec.v
TransportTests.v
IntegrationTests.v
StorageTests.v
Tests.v
SystemExamples.v
SystemWitnesses.v
ServiceWitnesses.v
