(* ===== verification/Prelude.v ===== *)
(** * ferris-ferry: a Raft library and a replicated key-value store

    ** The program

    crates/raftcore is the consensus core.  It does no I/O: an input (a tick, a
    message, a proposal, a read request) maps its state to a new state and a
    list of [Action]s to execute in order.  crates/raft-event-loop drives it:
    [RaftDriver] waits for a tick, a client or a message, calls the core and
    executes the actions on a [Storage], a [Transport] and the application,
    and takes a snapshot when enough entries were applied.
    crates/raft-file-storage and crates/raft-test-utils implement [Storage] on
    files and in memory, crates/raft-tcp-transport and crates/raft-test-utils
    implement [Transport], and crates/raft-kv is the application: an HTTP
    service over a map of strings.

    ** The files and the code they model

    - [Prelude]: panics as values ([exec]), wrapping u64 arithmetic, record
      update, vector operations, shared lemmas and tactics.
    - [Types], [RaftCore]: raftcore/src/types.rs and the methods of [RaftCore]
      in raftcore/src/lib.rs, one definition each; [boot_core] and
      [handle_message] are the parts of the driver that only call the core.
    - [CoreLog], [CoreFrame], [CoreReplication], [CoreElection],
      [CoreInvariant], [CoreCommit], [CoreLeader]: the lemmas on the core: log
      indices, footprints, the append loop against a reference merge, terms and
      votes, the invariant [core_wf] and the contract [input_ok] of inputs, the
      commit rule, a leader's own log.
    - [CoreTotal], [CoreTiming], [CoreHandlers], [ReplicationSafety],
      [CatchUp], [CoreEffects], [CoreTyped]: the theorems on one node;
      [CorePersists]: how often an input writes the log, and that the commit
      index does not fall; [CoreExamples] applies them to concrete nodes.
    - [Cluster], [ElectionSafety]: nodes over a network that loses, delays,
      duplicates and reorders messages, crashing between any two actions; the
      election theorems, for nodes that may take and install snapshots.
    - [RaftSpec], [RaftSpecSafety], [RaftSpecInv], [RaftSpecSteps]: an abstract
      specification of Raft, replicas with a history of terms, votes and logs,
      and its safety.  [Replicas]: nodes with the disks their actions write.
      [Refinement], [NodeSim], [SimElection], [SimReplication], [SimAppend]:
      every handler of the core simulates steps of the specification.
      [ClusterSafety]: the refinement and what follows from it;
      [ClusterCommits]: committed logs agree and stay with later leaders;
      [SafetyWitnesses] applies it.  [ReplicaRuns]: executable runs of the
      cluster.
    - [TestHarness], [ElectionTests], [ReplicationTests], [SnapshotTests]: the
      test module of raftcore/src/lib.rs, one definition per test and helper;
      [StorageTests]: the tests of the two storages and of raft-kv;
      [TransportTests]: those of raft-tcp-transport; [IntegrationTests]:
      raft-event-loop/tests/cluster.rs; [Tests]: a run of all of them.
    - [Codec], [Storage], [FileStorage], [FileStorageSpec], [MemStorage],
      [StorageTheorems]: the [Storage] trait as a class with its laws against
      an abstract view, and its two implementations
      (raft-file-storage/src/lib.rs, raft-test-utils/src/lib.rs).
    - [EventLoop], [EventLoopFrame], [EventLoopTheorems], [EventLoopReplies],
      [EventLoopDurable]: [RaftDriver] of raft-event-loop/src/lib.rs, and
      types.rs; the driver is proved against the storage class, for any
      transport and application.  [NodeHandle]: [RaftNode] of the same file,
      the handle with its channels and the task behind it.  [Limits]: what the
      conditions of the theorems on clusters and services leave out, on any
      node.
    - [Service]: a cluster of whole drivers, over any transport and storage
      that keep the laws of their classes ([TransportLaws], [StorageLaws]), with
      an adversarial network and processes that die between any two actions.
      [ServiceSim]: it implements the cluster of [Replicas]; [ServiceSafety]:
      what follows for applications and clients; [ServiceRuns]: executable runs.
    - [Transport]: the sender task and the handle of
      raft-tcp-transport/src/lib.rs, and the in-memory transport;
      [ServiceTransports]: both keep the laws.  [TcpNetwork]: the TCP transports
      of all nodes with all their tasks.
    - [Kv], [KvTheorems]: raft-kv/src/main.rs, with the task that applies what
      its channel carries; [ServiceKv]: what its [main] starts, as a service, and
      its requests.
    - [ExampleCodec], [SystemExamples], [SystemWitnesses], [ServiceWitnesses]: a
      serialization with the assumed round trip, whole nodes and a whole service
      run on it, and the theorems of the outer layers at concrete inputs.

    ** What is shown

    - Clusters (C1, C5 to C9): every state that a cluster of these nodes
      reaches under the conditions below is one of the abstract specification,
      and so commands applied at an index agree, leaders hold what was
      committed, and logs match; one leader per term, which needs only that
      votes of past terms are dropped, and one vote per node and term, which
      needs no condition on the network.
    - The service (C2 to C4, C11, C12, C28, C29): under the same conditions a
      cluster of whole drivers with their storages, transports and applications
      implements the cluster of nodes and disks; so what is handed to the
      applications of all nodes, at all times, is one sequence of commands, an
      acknowledged write is kept and can be read where the apply task has come
      as far, and no turn panics.  The TCP transports carry only what was sent,
      and the processes that [main] starts are such a service.
    - The conditions of C1 to C7, C11 and C12.  Terms, indices and read ids stay
      within 64 bits; nodes stay below the snapshot threshold, so that none is
      taken or sent; a process dies between two actions, not inside a write; the
      storage can write what it is given.  Of the responses, [guarded] in
      [Replicas] admits votes that are not of an earlier term, and append
      responses that reach a leader, are not of an earlier term and, if they
      reject, name a conflict; rejections of a newer term name none, and are
      not admitted.  Neither the handlers nor the transports ensure this: C39
      shows that none of the four checks can be left out, and that crashes
      inside a write break the same property; C40 shows what snapshots do.
    - Replication (C10, C17 to C19, C31 to C34): what AppendEntries, its
      response, RequestVote and InstallSnapshot do on every branch, what a
      leader commits, that catching up ends, when elections happen, when a read
      is confirmed.
    - Robustness (C15, C16, C30): inputs within the contract never panic and
      keep the invariant; all numbers stay u64 whatever arrives; snapshots are
      invisible above their index.
    - Durability (C13, C14, C23 to C26): apart from the driver's own snapshots
      the actions persist all of the durable state; the storages implement the
      abstract view for the calls they can serve, and agree up to how an empty
      log is restored; what a crash during a call on files leaves; a crash
      between two actions leaves a state the node boots from, if no snapshot is
      stored or entries lie above it.
    - Clients (C20 to C22, C36, C37): each request is answered once and none
      waits on a follower or on a dead task; the store is the replay of the
      commands; redirections go to the leader.
    - Transport (C27, C28, C35): order, no duplicates, the round trip of a
      connection, also when processes restart; backoff.
    - Limits (C38 to C40, [Limits], [SystemExamples]): on any node, a write that
      is interrupted forgets stored entries above its start (C38), a snapshot
      that falls due inside a batch carries the wrong data, drops entries and is
      not handed to the application at the next boot (C40), a node without a log
      file cannot install one, and a rejection that names no conflict lets the
      peer commit what it holds.  Runs of the code show clusters that diverge
      (C39), an old answer that confirms a read, and an overwritten write that
      is reported as done.  A confirmed read may miss a confirmed write, because
      the apply task may be behind ([ServiceKv.confirmed_get_any]).
    - The repository's tests, translated, run to their end in [Tests], on fixed
      draws and schedules: a check of the model against the code's own
      expectations.

    ** Modelling choices

    - u64 and usize are [Z]; [+!] and [-!] wrap modulo 2^64 as in the release
      build that is deployed.  The invariant and the contract keep the values
      of correct runs below the bound, so that nothing wraps there.
    - A panic (failed [unwrap] or [expect], index or slice out of range, empty
      random range) is the value [Panic], which ends the task.
    - HashMap and HashSet are [gmap] and [gset].  Where the code iterates over
      a map, the model uses the map's list, and the theorems do not depend on
      its order.
    - The random election timeout is a parameter [g : Rng] of the definitions;
      the theorems hold for whatever values it draws.
    - postcard is the class [Postcard] with the round trip as its law
      [Postcard_ok]; [ExampleCodec] shows that the law can hold.
    - Recursions that are not structural have fuel.  Log scans get one more
      than the number of bytes, and every round consumes at least one byte;
      [catch_up] gets [next_index + 1], and every round lowers the next index.
      The conflict search runs over the index as a natural number.  Results
      are proved to be reached within these bounds.
    - The network of [Cluster] keeps every message ever sent; delivery takes
      any of them that the predicate [deliverable] allows.  The file system of
      [FileStorage] is a map of files with a list of steps per call; a crash
      falls between two steps or inside an append.  A rename is atomic, and
      completed steps survive the crash of the process.

    - A test of the repository is a program in a state monad over [exec]; an
      assertion that fails is a panic.
    - The cluster of [Replicas] steps one input of one node at a time, or a
      prefix of that input's actions and a reboot from the disk.  Its inputs
      keep terms and log indices below 2^64 ([within_bounds], [disk_fits]).
      A service step is a turn of the event loop, a part of a turn and a reboot
      with the application as new, or any change of what a transport holds to
      other messages that were sent ([turn_ok] says which turns).
    - The channel to the application: the driver's [app] is the application
      once it has handled everything sent so far; [apply_task] says how far the
      task has come, which may be anywhere behind.
    - TCP: an event is one iteration of one task; connects, failed sends, the
      arrival of frames, the end of a stream and the restart of a process are
      events, so every timing is covered.  Frames of one stream arrive in order.
    - Waits of the integration tests have a bound of 200 rounds; a wait that
      reached it would be a panic, and none does.

    ** Not modelled

    The bytes on a socket (a stream carries frames), axum's parsing of requests
    and serving, clap, the shutdown signal, [FileStorage::new], I/O errors other
    than a missing file, the bound on the channel to the application (it only
    delays the driver), log lines, and deployment files.  The refinements of C2
    and C5 cover nodes below their snapshot threshold: a node of [Replicas]
    takes no snapshot, so none is sent; the election theorems and those on one
    node cover snapshots.  A process of the service dies between two actions;
    its death inside a storage call is covered for the storage alone (C24, C25,
    C38), and C39 shows that a cluster is not safe under it.  Reads are not
    linearizable, so no theorem says that a read sees every write that was
    acknowledged before it: C11 speaks of nodes that have applied as far, and of
    apply tasks that have come as far. *)

From stdpp Require Export base gmap list sorting strings pretty.
From Stdlib Require Export ZArith Lia.
From Stdlib Require Import Strings.Byte.

#[global] Open Scope Z_scope.

(** ** Panics

    A Rust function that may panic returns [exec A]: the panic ends the task
    that runs it, so no value and no state survives it. *)
Inductive exec (A : Type) : Type :=
| Done (a : A)
| Panic.
Arguments Done {A} a.
Arguments Panic {A}.

#[export] Instance exec_ret : MRet exec := fun A a => Done a.
#[export] Instance exec_bind : MBind exec := fun A B f m =>
  match m with Done a => f a | Panic => Panic end.
#[export] Instance exec_fmap : FMap exec := fun A B f m =>
  match m with Done a => Done (f a) | Panic => Panic end.

(** [Option::unwrap] and [Option::expect]. *)
Definition unwrap {A} (o : option A) : exec A :=
  match o with Some a => Done a | None => Panic end.

(** The call returns, and its result satisfies [P]. *)
Definition returns {A} (m : exec A) (P : A -> Prop) : Prop :=
  match m with Done a => P a | Panic => False end.

Lemma exec_bind_Done {A B} (m : exec A) (f : A -> exec B) b :
  m ≫= f = Done b <-> exists a, m = Done a /\ f a = Done b.
Proof. destruct m; cbn; split; naive_solver. Qed.

Lemma unwrap_Done {A} (o : option A) a : unwrap o = Done a <-> o = Some a.
Proof. destruct o; cbn; naive_solver. Qed.

Lemma returns_bind {A B} (m : exec A) (f : A -> exec B) P Q :
  returns m P -> (forall a, P a -> returns (f a) Q) -> returns (m ≫= f) Q.
Proof. destruct m; cbn; naive_solver. Qed.

(** ** Record update: [s <| field := v |>]

    [Eta R] names the eta expansion of a record, from which [solve_field]
    derives the update function of one projection. *)
Class Eta (R : Type) := eta : R -> R.
Class Field {R A : Type} (proj : R -> A) := modify : (A -> A) -> R -> R.
Arguments modify {R A} proj {_} _ _.

Ltac solve_field :=
  lazymatch goal with
  | |- @Field ?R ?A ?p =>
      let g := fresh "g" in
      let r := fresh "r" in
      intros g r;
      let body := eval hnf in (@eta R _ r) in
      lazymatch eval pattern (p r) in body with
      | ?F _ => let t := eval cbv beta in (F (g (p r))) in exact t
      end
  end.

Notation "s <| f := v |>" := (modify f (fun _ => v) s)
  (at level 12, left associativity, f at level 9, v at level 200,
   format "s  <| f  :=  v |>").

(** ** u64 and usize

    Values are [Z]; the deployed binary is a release build, where [+] and [-]
    wrap around modulo 2^64.  The conversions between u64 and usize are the
    identity on the 64-bit targets the project is built for. *)
Declare Scope u64_scope.
Delimit Scope u64_scope with u64.

Notation U64 := 18446744073709551616.
Definition wrap64 (z : Z) : Z := z mod U64.
Definition u64_add (a b : Z) : Z := wrap64 (a + b).
Definition u64_sub (a b : Z) : Z := wrap64 (a - b).
Definition is_u64 (z : Z) : Prop := 0 <= z < U64.

Infix "+!" := u64_add (at level 50, left associativity) : u64_scope.
Infix "-!" := u64_sub (at level 50, left associativity) : u64_scope.
#[global] Open Scope u64_scope.

(** [v.len() as u64] *)
Definition len {A} (l : list A) : Z := Z.of_nat (length l).

(** [&v[from..to]]: panics unless [from <= to <= v.len()]. *)
Definition vec_slice {A} (l : list A) (from to : Z) : exec (list A) :=
  if (from <=? to) && (to <=? len l)
  then Done (take (Z.to_nat (to - from)) (drop (Z.to_nat from) l))
  else Panic.

(** [v[i]]: panics out of range. *)
Definition vec_index {A} (l : list A) (i : Z) : exec A :=
  if i <? len l then unwrap (l !! Z.to_nat i) else Panic.

(** [v.truncate(n)]: no effect when [n >= v.len()]. *)
Definition vec_truncate {A} (l : list A) (n : Z) : list A :=
  if n <? len l then take (Z.to_nat n) l else l.

(** [v.drain(..n)]: panics when [n > v.len()]. *)
Definition vec_drain_to {A} (l : list A) (n : Z) : exec (list A) :=
  if n <=? len l then Done (drop (Z.to_nat n) l) else Panic.

Lemma wrap64_small z : 0 <= z < U64 -> wrap64 z = z.
Proof. intros; unfold wrap64; by rewrite Z.mod_small by lia. Qed.

Lemma u64_add_small a b : 0 <= a + b < U64 -> a +! b = a + b.
Proof. apply wrap64_small. Qed.

Lemma u64_sub_small a b : 0 <= a - b < U64 -> a -! b = a - b.
Proof. apply wrap64_small. Qed.

Lemma u64_add_range a b : is_u64 (a +! b).
Proof. unfold is_u64, u64_add, wrap64; apply Z.mod_pos_bound; lia. Qed.

Lemma u64_sub_range a b : is_u64 (a -! b).
Proof. unfold is_u64, u64_sub, wrap64; apply Z.mod_pos_bound; lia. Qed.

Lemma len_nonneg {A} (l : list A) : 0 <= len l.
Proof. unfold len; lia. Qed.

Lemma len_app {A} (l k : list A) : len (l ++ k) = len l + len k.
Proof. unfold len; rewrite length_app; lia. Qed.

Lemma len_cons {A} x (l : list A) : len (x :: l) = 1 + len l.
Proof. unfold len; cbn [length]; lia. Qed.

Lemma len_nil {A} : len (@nil A) = 0.
Proof. reflexivity. Qed.

Lemma len_take {A} (l : list A) n : 0 <= n <= len l -> len (take (Z.to_nat n) l) = n.
Proof. unfold len; intros; rewrite length_take; lia. Qed.

Lemma len_drop {A} (l : list A) n : 0 <= n <= len l -> len (drop (Z.to_nat n) l) = len l - n.
Proof. unfold len; intros; rewrite length_drop; lia. Qed.

Lemma lookup_len_Some {A} (l : list A) i :
  0 <= i < len l -> exists x, l !! Z.to_nat i = Some x.
Proof. unfold len; intros; apply lookup_lt_is_Some_2; lia. Qed.

Lemma vec_slice_Done {A} (l : list A) from to k :
  vec_slice l from to = Done k <->
  from <= to <= len l /\ k = take (Z.to_nat (to - from)) (drop (Z.to_nat from) l).
Proof.
  unfold vec_slice; destruct (Z.leb_spec from to), (Z.leb_spec to (len l)); cbn; naive_solver lia.
Qed.

Lemma vec_truncate_spec {A} (l : list A) n :
  0 <= n <= len l -> vec_truncate l n = take (Z.to_nat n) l.
Proof.
  unfold vec_truncate; destruct (Z.ltb_spec n (len l)); intros; [done|].
  rewrite take_ge; [done|]; unfold len in *; lia.
Qed.

(** ** Sets of node ids *)
Lemma size_list_to_set_le (all : list Z) : (size (list_to_set (C := gset Z) all) <= length all)%nat.
Proof.
  induction all as [|x l IH]; [done|]. cbn [list_to_set length].
  rewrite size_union_alt, size_singleton.
  assert (size (list_to_set (C := gset Z) l ∖ {[x]}) <= size (list_to_set (C := gset Z) l))%nat
    by (apply subseteq_size; set_solver). lia.
Qed.

(** The peers of a member are all the others. *)
Lemma peers_length (n : Z) (l : list Z) :
  NoDup l -> n ∈ l -> length l = S (length (filter (fun x => x ≠ n) l)).
Proof.
  intros Hnd Hin. apply list_elem_of_split in Hin as (l1 & l2 & ->).
  apply NoDup_app in Hnd as (_ & Hdisj & [Hn2 _]%NoDup_cons).
  rewrite filter_app, filter_cons_False by auto.
  rewrite !length_app. cbn.
  assert (forall k : list Z, n ∉ k -> filter (fun x => x ≠ n) k = k) as Hid.
  { induction k as [|x k IH]; [done|]. intros [Hx Hk]%not_elem_of_cons.
    rewrite filter_cons_True by auto. by rewrite IH. }
  rewrite (Hid l1), (Hid l2) by set_solver. lia.
Qed.

(** Two sets of nodes that together count more than the cluster meet. *)
Lemma sets_meet (all : list Z) (Q1 Q2 : gset Z) :
  (forall v, v ∈ Q1 -> v ∈ all) -> (forall v, v ∈ Q2 -> v ∈ all) ->
  len all < Z.of_nat (size Q1) + Z.of_nat (size Q2) -> exists v, v ∈ Q1 /\ v ∈ Q2.
Proof.
  intros H1 H2 Hs. destruct (decide (Q1 ∩ Q2 = ∅)) as [He|He].
  - exfalso. assert (size (Q1 ∪ Q2) = size Q1 + size Q2)%nat as Hsz
      by (apply size_union; set_solver).
    assert (size (Q1 ∪ Q2) <= size (list_to_set (C := gset Z) all))%nat as Hle
      by (apply subseteq_size; set_solver).
    pose proof (size_list_to_set_le all). unfold len in *. lia.
  - apply set_choose_L in He as [v Hv]. exists v. set_solver.
Qed.

Create HintDb u64.
#[export] Hint Resolve len_nonneg u64_add_range u64_sub_range : u64.
#[export] Hint Rewrite @len_app @len_cons @len_nil : len.

(** Arithmetic on lengths: every [len] in sight is nonnegative. *)
Ltac len_lia :=
  autorewrite with len in *;
  repeat match goal with
    | |- context [len ?l] =>
        lazymatch goal with _ : 0 <= len l |- _ => fail | _ => pose proof (len_nonneg l) end
    | _ : context [len ?l] |- _ =>
        lazymatch goal with _ : 0 <= len l |- _ => fail | _ => pose proof (len_nonneg l) end
    end; lia.

(** Case analysis on the boolean comparisons of the code. *)
Ltac case_cmp :=
  match goal with
  | |- context [?a <=? ?b] => destruct (Z.leb_spec a b)
  | |- context [?a <? ?b] => destruct (Z.ltb_spec a b)
  | |- context [?a =? ?b] => destruct (Z.eqb_spec a b)
  end.

(** Splits a hypothesis [m = Done r] along the binds of [m]. *)
Ltac exec_inv :=
  repeat match goal with
    | H : Panic = Done _ |- _ => discriminate H
    | H : Done _ = Done _ |- _ => injection H as H; subst
    | H : mret ?a = Done ?b |- _ => change (Done a = Done b) in H
    | H : (_ ≫= _) = Done _ |- _ =>
        let x := fresh "x" in let Hx := fresh "Hx" in
        apply exec_bind_Done in H as (x & Hx & H)
    | H : unwrap _ = Done _ |- _ => apply unwrap_Done in H
    | H : (_, _) = (_, _) |- _ => injection H as H; subst
    | x : (_ * _)%type |- _ => destruct x
    end.
