(* ===== verification/Types.v ===== *)
(** Data types of the consensus core: crates/raftcore/src/types.rs.

    Struct fields are prefixed by an abbreviation of the struct's name, since
    the structs share field names; u64 fields are [Z], [Vec<u8>] is
    [list byte]. *)

From S2P Require Import Prelude.
From Stdlib Require Export Strings.Byte.

Inductive RaftState : Type := Leader | Follower | Candidate.

Abbreviation NodeId := Z.

Abbreviation bytes := (list byte).

Record RequestVoteRPC := mkRequestVoteRPC {
  rv_term : Z;
  rv_candidate_id : Z;
  rv_last_log_index : Z;
  rv_last_log_term : Z;
}.

Record RequestVoteResponseRPC := mkRequestVoteResponseRPC {
  rvr_id : Z;
  rvr_term : Z;
  rvr_vote_granted : bool;
}.

Record LogEntry := mkLogEntry {
  e_term : Z;
  e_command : bytes;
}.

Record AppendEntriesRPC := mkAppendEntriesRPC {
  ae_term : Z;
  ae_leader_id : NodeId;
  ae_prev_log_index : Z;
  ae_prev_log_term : Z;
  ae_entries : list LogEntry;
  ae_leader_commit : Z;
}.

Record AppendEntriesResponseRPC := mkAppendEntriesResponseRPC {
  aer_id : Z;
  aer_term : Z;
  aer_match_index : Z;
  aer_success : bool;
  aer_first_conflicting_index : option Z;
  aer_first_conflicting_term : option Z;
}.

Record SnapshotMetadata := mkSnapshotMetadata {
  sm_last_applied : Z;
  sm_last_applied_term : Z;
}.

Record InstallSnapshotRPC := mkInstallSnapshotRPC {
  is_term : Z;
  is_leader_id : NodeId;
  is_last_included_index : Z;
  is_last_included_term : Z;
  is_data : bytes;
}.

Record InstallSnapshotResponseRPC := mkInstallSnapshotResponseRPC {
  isr_id : NodeId;
  isr_term : Z;
  isr_last_included_index : Z;
}.

Inductive Message : Type :=
| RequestVote (req : RequestVoteRPC)
| RequestVoteResponse (resp : RequestVoteResponseRPC)
| AppendEntries (req : AppendEntriesRPC)
| AppendEntriesResponse (resp : AppendEntriesResponseRPC)
| InstallSnapshotMsg (req : InstallSnapshotRPC)
| InstallSnapshotResponse (resp : InstallSnapshotResponseRPC).

(** [Action::InstallSnapshot] is [ActInstallSnapshot] here: [Message] has a
    variant of the same name. *)
Inductive Action : Type :=
| SendMessage (target : NodeId) (message : Message)
| ApplyToStateMachine (index : Z) (command : bytes)
| PersistMetadata (term : Z) (voted_for : option NodeId)
| PersistLogEntries (start_index : Z) (entries : list LogEntry)
| SendInstallSnapshot (target : NodeId) (term last_included_index last_included_term : Z)
| ActInstallSnapshot (last_included_index last_included_term : Z) (data : bytes)
| ReadBarrierReady (id : Z).

#[export] Instance byte_eq_decision : EqDecision byte := Byte.byte_eq_dec.
#[export] Instance RaftState_eq_decision : EqDecision RaftState.
Proof. solve_decision. Defined.
#[export] Instance LogEntry_eq_decision : EqDecision LogEntry.
Proof. solve_decision. Defined.
#[export] Instance RequestVoteRPC_eq_decision : EqDecision RequestVoteRPC.
Proof. solve_decision. Defined.
#[export] Instance RequestVoteResponseRPC_eq_decision : EqDecision RequestVoteResponseRPC.
Proof. solve_decision. Defined.
#[export] Instance AppendEntriesRPC_eq_decision : EqDecision AppendEntriesRPC.
Proof. solve_decision. Defined.
#[export] Instance AppendEntriesResponseRPC_eq_decision : EqDecision AppendEntriesResponseRPC.
Proof. solve_decision. Defined.
#[export] Instance InstallSnapshotRPC_eq_decision : EqDecision InstallSnapshotRPC.
Proof. solve_decision. Defined.
#[export] Instance InstallSnapshotResponseRPC_eq_decision : EqDecision InstallSnapshotResponseRPC.
Proof. solve_decision. Defined.
#[export] Instance Message_eq_decision : EqDecision Message.
Proof. solve_decision. Defined.
#[export] Instance Action_eq_decision : EqDecision Action.
Proof. solve_decision. Defined.

(** The term every RPC carries. *)
Definition message_term (m : Message) : Z :=
  match m with
  | RequestVote req => rv_term req
  | RequestVoteResponse resp => rvr_term resp
  | AppendEntries req => ae_term req
  | AppendEntriesResponse resp => aer_term resp
  | InstallSnapshotMsg req => is_term req
  | InstallSnapshotResponse resp => isr_term resp
  end.

(** [Display for Message] prints u64 fields in decimal and bools as words. *)
Definition show_bool (b : bool) : string := if b then "true" else "false".

Definition Message_fmt (m : Message) : string :=
  match m with
  | RequestVote req =>
      "RequestVote(candidate=" +:+ pretty (rv_candidate_id req) +:+ ", term="
        +:+ pretty (rv_term req) +:+ ")"
  | RequestVoteResponse resp =>
      "RequestVoteResponse(id=" +:+ pretty (rvr_id resp) +:+ ",term="
        +:+ pretty (rvr_term resp) +:+ ",vote=" +:+ show_bool (rvr_vote_granted resp) +:+ ")"
  | AppendEntries req =>
      "AppendEntries(leader=" +:+ pretty (ae_leader_id req) +:+ ",term="
        +:+ pretty (ae_term req) +:+ ",num_entries=" +:+ pretty (len (ae_entries req)) +:+ ")"
  | AppendEntriesResponse resp =>
      "AppendEntriesResponse(id=" +:+ pretty (aer_id resp) +:+ ",success="
        +:+ show_bool (aer_success resp) +:+ ")"
  | InstallSnapshotMsg req =>
      "InstallSnapshot(leader_id=" +:+ pretty (is_leader_id req) +:+ ")"
  | InstallSnapshotResponse resp =>
      "InstallSnapshotResponse(id=" +:+ pretty (isr_id resp) +:+ ")"
  end%string.

Example Message_fmt_vote :
  Message_fmt (RequestVote (mkRequestVoteRPC 12 3 0 0)) = "RequestVote(candidate=3, term=12)".
Proof. vm_compute. reflexivity. Qed.
