(* ===== verification/RaftCore.v ===== *)
(** The sans-I/O consensus core: crates/raftcore/src/lib.rs.

    One definition per method of [RaftCore], as state passing: a [&mut self]
    method maps the state to the new state and its result, in [exec] when the
    method can panic (an unwrap, an out-of-range slice, an empty random
    range).  [tracing] calls are left out. *)

From S2P Require Import Prelude Types.

(** ** State *)
Record RaftCore := mkRaftCore {
  id : NodeId;
  peers : list NodeId;
  state : RaftState;
  current_term : Z;
  voted_for : option NodeId;
  log : list LogEntry;
  commit_index : Z;
  last_applied : Z;
  current_leader : option NodeId;
  next_index : gmap Z Z;
  match_index : gmap Z Z;
  votes_received : gset Z;
  last_included_index : Z;
  last_included_term : Z;
  ticks_since_last_heartbeat : Z;
  election_timeout_range : Z * Z;
  election_timeout : Z;
  heartbeat_interval : Z;
  append_entries_count : Z;
  next_read_barrier_id : Z;
  read_barriers : gmap Z Z;
}.

#[export] Instance eta_RaftCore : Eta RaftCore := fun s =>
  mkRaftCore (id s) (peers s) (state s) (current_term s) (voted_for s) (log s)
    (commit_index s) (last_applied s) (current_leader s) (next_index s) (match_index s)
    (votes_received s) (last_included_index s) (last_included_term s)
    (ticks_since_last_heartbeat s) (election_timeout_range s) (election_timeout s)
    (heartbeat_interval s) (append_entries_count s) (next_read_barrier_id s) (read_barriers s).
#[export] Instance field_state : Field state := ltac:(solve_field).
#[export] Instance field_current_term : Field current_term := ltac:(solve_field).
#[export] Instance field_voted_for : Field voted_for := ltac:(solve_field).
#[export] Instance field_log : Field log := ltac:(solve_field).
#[export] Instance field_commit_index : Field commit_index := ltac:(solve_field).
#[export] Instance field_last_applied : Field last_applied := ltac:(solve_field).
#[export] Instance field_current_leader : Field current_leader := ltac:(solve_field).
#[export] Instance field_next_index : Field next_index := ltac:(solve_field).
#[export] Instance field_match_index : Field match_index := ltac:(solve_field).
#[export] Instance field_votes_received : Field votes_received := ltac:(solve_field).
#[export] Instance field_last_included_index : Field last_included_index := ltac:(solve_field).
#[export] Instance field_last_included_term : Field last_included_term := ltac:(solve_field).
#[export] Instance field_ticks : Field ticks_since_last_heartbeat := ltac:(solve_field).
#[export] Instance field_election_timeout : Field election_timeout := ltac:(solve_field).
#[export] Instance field_append_entries_count : Field append_entries_count := ltac:(solve_field).
#[export] Instance field_next_read_barrier_id : Field next_read_barrier_id := ltac:(solve_field).
#[export] Instance field_read_barriers : Field read_barriers := ltac:(solve_field).

(** ** Randomness

    [rand::rng().random_range(lo..hi)] is a call into the rand crate: the
    [k]-th call a method makes returns [g k lo hi], any value at all, so that
    nothing proved here depends on the draw; an empty range panics. *)
Definition Rng : Type := nat -> Z -> Z -> Z.

Definition random_range (g : Rng) (k : nat) (r : Z * Z) : exec Z :=
  if r.1 <? r.2 then Done (g k r.1 r.2) else Panic.

(** ** Construction *)
Definition DEFAULT_HEARTBEAT : Z := 5.

Definition new (g : Rng) (node : NodeId) (nodes : list NodeId) (heartbeat : option Z)
    (election_range : Z * Z) : exec RaftCore :=
  timeout ← random_range g 0 election_range;
  mret {| id := node;
          peers := filter (fun x => x ≠ node) nodes;
          state := Follower;
          current_term := 0;
          voted_for := None;
          log := [];
          commit_index := 0;
          last_applied := 0;
          current_leader := None;
          next_index := ∅;
          match_index := ∅;
          votes_received := ∅;
          last_included_index := 0;
          last_included_term := 0;
          ticks_since_last_heartbeat := 0;
          election_timeout_range := election_range;
          election_timeout := timeout;
          heartbeat_interval := default DEFAULT_HEARTBEAT heartbeat;
          append_entries_count := 0;
          next_read_barrier_id := 0;
          read_barriers := ∅ |}.

Definition restore (g : Rng) (node : NodeId) (nodes : list NodeId) (heartbeat : option Z)
    (election_range : Z * Z) (term : Z) (vote : option NodeId) (entries : list LogEntry)
    : exec RaftCore :=
  s ← new g node nodes heartbeat election_range;
  mret (s <| current_term := term |> <| voted_for := vote |> <| log := entries |>).

Definition restore_with_snapshot (g : Rng) (node : NodeId) (nodes : list NodeId)
    (heartbeat : option Z) (election_range : Z * Z) (term : Z) (vote : option NodeId)
    (entries : list LogEntry) (snap_index snap_term : Z) : exec RaftCore :=
  s ← restore g node nodes heartbeat election_range term vote entries;
  mret (s <| last_included_index := snap_index |> <| last_included_term := snap_term |>
          <| commit_index := snap_index |> <| last_applied := snap_index |>).

Definition is_leader (s : RaftCore) : bool := bool_decide (state s = Leader).

(** ** Log accessors: logical indices over the in-memory log and the snapshot *)
Definition last_log_index (s : RaftCore) : Z := last_included_index s +! len (log s).

Definition log_entry_at (s : RaftCore) (index : Z) : option LogEntry :=
  if index <=? last_included_index s then None
  else
    let adjusted_index := index -! last_included_index s -! 1 in
    if len (log s) <=? adjusted_index then None
    else log s !! Z.to_nat adjusted_index.

Definition log_term_at (s : RaftCore) (index : Z) : option Z :=
  if index <? last_included_index s then None
  else if index =? last_included_index s then Some (last_included_term s)
  else e_term <$> log_entry_at s index.

Definition last_log_term (s : RaftCore) : exec Z := unwrap (log_term_at s (last_log_index s)).

Definition log_slice (s : RaftCore) (from to : Z) : exec (list LogEntry) :=
  if from <=? last_included_index s then Done []
  else
    let from := from -! last_included_index s -! 1 in
    let to := Z.min (to -! last_included_index s -! 1) (len (log s)) in
    vec_slice (log s) from to.

(** ** Leader: sending the log *)
Definition install_snapshot_for_peer (s : RaftCore) (peer : NodeId) : Action :=
  SendInstallSnapshot peer (current_term s) (last_included_index s) (last_included_term s).

Definition build_append_entries_for_peer (s : RaftCore) (peer : NodeId) : exec Action :=
  let peer_next_index := default (last_log_index s) (next_index s !! peer) in
  let prev_log_index := if 0 <? peer_next_index then peer_next_index -! 1 else 0 in
  match log_term_at s prev_log_index with
  | None => Done (install_snapshot_for_peer s peer)
  | Some prev_log_term =>
      entries ← log_slice s peer_next_index (last_log_index s +! 1);
      Done (SendMessage peer (AppendEntries
        {| ae_term := current_term s; ae_leader_id := id s;
           ae_prev_log_index := prev_log_index; ae_prev_log_term := prev_log_term;
           ae_entries := entries; ae_leader_commit := commit_index s |}))
  end.

Definition append_entries (s : RaftCore) : exec (list Action) :=
  mapM (build_append_entries_for_peer s) (peers s).

Definition propose (s : RaftCore) (command : bytes) : exec (RaftCore * option (list Action)) :=
  if bool_decide (state s ≠ Leader) then Done (s, None)
  else
    let s := s <| log := log s ++ [mkLogEntry (current_term s) command] |> in
    let s := s <| ticks_since_last_heartbeat := 0 |> in
    let last := last_log_index s in
    entries ← log_slice s last (last +! 1);
    appends ← append_entries s;
    Done (s, Some (PersistLogEntries last entries :: appends)).

Definition heartbeat (s : RaftCore) : exec (RaftCore * list Action) :=
  if heartbeat_interval s <=? ticks_since_last_heartbeat s then
    actions ← append_entries s;
    Done (s <| ticks_since_last_heartbeat := 0 |>, actions)
  else Done (s, []).

(** ** Elections *)
Definition reset_election_timeout (g : Rng) (k : nat) (s : RaftCore) : exec RaftCore :=
  let s := s <| ticks_since_last_heartbeat := 0 |> in
  timeout ← random_range g k (election_timeout_range s);
  Done (s <| election_timeout := timeout |>).

(** The method [election_timeout] (a field has the same name). *)
Definition on_election_timeout (g : Rng) (s : RaftCore) : exec (RaftCore * list Action) :=
  if election_timeout s <=? ticks_since_last_heartbeat s then
    let s := s <| current_term := current_term s +! 1 |> <| state := Candidate |>
               <| current_leader := None |>
               <| votes_received := ∅ |> <| voted_for := Some (id s) |>
               <| votes_received := {[id s]} |> in
    s ← reset_election_timeout g 0 s;
    last_term ← last_log_term s;
    let msg := RequestVote {| rv_term := current_term s; rv_candidate_id := id s;
                              rv_last_log_index := last_log_index s;
                              rv_last_log_term := last_term |} in
    Done (s, PersistMetadata (current_term s) (voted_for s)
               :: ((fun peer => SendMessage peer msg) <$> peers s))
  else Done (s, []).

Definition tick (g : Rng) (s : RaftCore) : exec (RaftCore * list Action) :=
  let s := s <| ticks_since_last_heartbeat := ticks_since_last_heartbeat s +! 1 |> in
  match state s with
  | Leader => heartbeat s
  | Candidate => on_election_timeout g s
  | Follower => on_election_timeout g s
  end.

Definition check_msg_term (g : Rng) (s : RaftCore) (msg_term : Z)
    : exec (RaftCore * option (list Action)) :=
  if current_term s <? msg_term then
    let s := s <| current_term := msg_term |> <| state := Follower |> <| voted_for := None |> in
    s ← reset_election_timeout g 0 s;
    let s := s <| read_barriers := ∅ |> <| current_leader := None |> in
    Done (s, Some [PersistMetadata (current_term s) (voted_for s)])
  else Done (s, None).

Definition can_vote (s : RaftCore) (candidate : NodeId) : bool :=
  match voted_for s with
  | None => true
  | Some v => v =? candidate
  end.

Definition vote_response (s : RaftCore) (candidate : NodeId) (granted : bool) : Action :=
  SendMessage candidate (RequestVoteResponse
    {| rvr_id := id s; rvr_term := current_term s; rvr_vote_granted := granted |}).

Definition handle_request_vote (g : Rng) (s : RaftCore) (req : RequestVoteRPC)
    : exec (RaftCore * list Action) :=
  '(s, persist_action) ← check_msg_term g s (rv_term req);
  let actions := default [] persist_action in
  let false_response := vote_response s (rv_candidate_id req) false in
  if rv_term req <? current_term s then Done (s, actions ++ [false_response])
  else
    let can := can_vote s (rv_candidate_id req) in
    let last_index := last_log_index s in
    last_term ← last_log_term s;
    let log_check := (last_term <? rv_last_log_term req)
      || ((rv_last_log_term req =? last_term) && (last_index <=? rv_last_log_index req)) in
    if can && log_check then
      s ← reset_election_timeout g 1 s;
      let s := s <| voted_for := Some (rv_candidate_id req) |> in
      Done (s, actions ++ [PersistMetadata (current_term s) (voted_for s);
                           vote_response s (rv_candidate_id req) true])
    else Done (s, actions ++ [false_response]).

Definition initialize_leader_state (s : RaftCore) : exec (RaftCore * Action) :=
  let s := s <| log := log s ++ [mkLogEntry (current_term s) []] |> in
  let s := foldl (fun s peer =>
    s <| next_index := <[peer := last_log_index s +! 1]> (next_index s) |>
      <| match_index := <[peer := 0]> (match_index s) |>) s (peers s) in
  entries ← log_slice s (last_log_index s) (last_log_index s +! 1);
  Done (s, PersistLogEntries (last_log_index s) entries).

Definition handle_request_vote_response (g : Rng) (s : RaftCore) (resp : RequestVoteResponseRPC)
    : exec (RaftCore * list Action) :=
  '(s, persist_actions) ← check_msg_term g s (rvr_term resp);
  let actions := default [] persist_actions in
  if bool_decide (state s ≠ Candidate) then Done (s, actions)
  else if rvr_vote_granted resp then
    let s := s <| votes_received := {[rvr_id resp]} ∪ votes_received s |> in
    if (len (peers s) +! 1) / 2 <? Z.of_nat (size (votes_received s)) then
      let s := s <| state := Leader |> <| current_leader := Some (id s) |> in
      '(s, persist) ← initialize_leader_state s;
      s ← reset_election_timeout g 1 s;
      appends ← append_entries s;
      Done (s, actions ++ persist :: appends)
    else Done (s, actions)
  else Done (s, actions).

(** ** Follower: appending the leader's entries *)

(** [for i in (0..prev_log_index).rev()]: the index after the nearest entry
    below [n] whose term is not [conflicting_term]. *)
Fixpoint find_conflicting_index (s : RaftCore) (conflicting_term : Z) (n : nat) : option Z :=
  match n with
  | O => None
  | S i =>
      let entry_term := default 0 (log_term_at s (Z.of_nat i)) in
      if entry_term =? conflicting_term
      then find_conflicting_index s conflicting_term i
      else Some (Z.of_nat i +! 1)
  end.

(** The loop that writes [entries] at index [i] onwards. *)
Fixpoint append_loop (s : RaftCore) (i : Z) (entries : list LogEntry) : exec RaftCore :=
  match entries with
  | [] => Done s
  | new_entry :: rest =>
      if i <=? last_log_index s then
        term ← unwrap (log_term_at s i);
        if term =? e_term new_entry then append_loop s (i +! 1) rest
        else
          let s := s <| log := vec_truncate (log s) (i -! last_included_index s -! 1) |> in
          append_loop (s <| log := log s ++ [new_entry] |>) (i +! 1) rest
      else append_loop (s <| log := log s ++ [new_entry] |>) (i +! 1) rest
  end.

(** [entries.iter().enumerate()] into apply actions, from index [base + 1]. *)
Definition apply_actions (base : Z) (entries : list LogEntry) : list Action :=
  imap (fun k e => ApplyToStateMachine (Z.of_nat k +! base +! 1) (e_command e)) entries.

(** The commit update at the end of [handle_append_entries]. *)
Definition follower_commit (s : RaftCore) (leader_commit : Z) : exec (RaftCore * list Action) :=
  if commit_index s <? leader_commit then
    let old_commit := commit_index s in
    let s := s <| commit_index := Z.min leader_commit (last_log_index s) |> in
    apply_entries ← log_slice s (old_commit +! 1) (commit_index s +! 1);
    Done (s <| last_applied := commit_index s |>, apply_actions old_commit apply_entries)
  else Done (s, []).

Definition prev_log_valid (s : RaftCore) (req : AppendEntriesRPC) : bool :=
  (ae_prev_log_index req =? 0)
  || ((ae_prev_log_index req <=? last_log_index s)
      && bool_decide (log_term_at s (ae_prev_log_index req) = Some (ae_prev_log_term req))).

Definition append_response (req : AppendEntriesRPC) (resp : AppendEntriesResponseRPC) : Action :=
  SendMessage (ae_leader_id req) (AppendEntriesResponse resp).

(** The response of [handle_append_entries] that reports a failure. *)
Definition false_append_response (s : RaftCore) (index term : option Z) : AppendEntriesResponseRPC :=
  {| aer_id := id s; aer_term := current_term s; aer_match_index := last_log_index s;
     aer_success := false;
     aer_first_conflicting_index := index; aer_first_conflicting_term := term |}.

(** [handle_append_entries] from the log check on; [response] is the failure
    response the method has prepared. *)
Definition append_checked (s : RaftCore) (req : AppendEntriesRPC) (actions : list Action)
    (response : option Z -> option Z -> AppendEntriesResponseRPC)
    : exec (RaftCore * list Action) :=
  if negb (prev_log_valid s req) then
    if last_log_index s <? ae_prev_log_index req then
      Done (s, actions ++ [append_response req (response (Some (last_log_index s +! 1)) None)])
    else
      let conflicting_term := default 0 (log_term_at s (ae_prev_log_index req)) in
      let conflicting_index :=
        find_conflicting_index s conflicting_term (Z.to_nat (ae_prev_log_index req)) in
      Done (s, actions ++ [append_response req (response conflicting_index (Some conflicting_term))])
  else
    let next := ae_prev_log_index req +! 1 in
    let stop := next +! len (ae_entries req) in
    s ← append_loop s next (if stop <? next then [] else ae_entries req);
    persist ← (match ae_entries req with
               | [] => Done []
               | _ => persist_entries ← log_slice s next (last_log_index s +! 1);
                      Done [PersistLogEntries next persist_entries]
               end);
    '(s, applies) ← follower_commit s (ae_leader_commit req);
    Done (s, actions ++ persist ++ applies ++
      [append_response req
        {| aer_id := id s; aer_term := current_term s; aer_match_index := last_log_index s;
           aer_success := true;
           aer_first_conflicting_index := None; aer_first_conflicting_term := None |}]).

Definition handle_append_entries (g : Rng) (s : RaftCore) (req : AppendEntriesRPC)
    : exec (RaftCore * list Action) :=
  '(s, persist_actions) ← check_msg_term g s (ae_term req);
  let actions := default [] persist_actions in
  let response := false_append_response s in
  let false_response := append_response req (response None None) in
  let s := if (ae_term req =? current_term s) && bool_decide (state s = Candidate)
           then s <| state := Follower |> else s in
  if bool_decide (state s ≠ Follower) then Done (s, actions ++ [false_response])
  else if ae_term req <? current_term s then Done (s, actions ++ [false_response])
  else
    s ← reset_election_timeout g 1 s;
    let s := s <| current_leader := Some (ae_leader_id req) |> in
    append_checked s req actions response.

(** ** Leader: follower responses and the commit rule *)

(** The majority-replicated index: the middle of the sorted match indices and
    the leader's own last index. *)
Definition replicated_index (s : RaftCore) : exec Z :=
  let peer_indices := merge_sort Z.le ((map_to_list (match_index s)).*2 ++ [last_log_index s]) in
  vec_index peer_indices (len peer_indices / 2).

(** [for index in index..]: the last of [n] indices from [index] that carries
    an entry of the current term, [new_commit] if there is none. *)
Fixpoint advance_commit (s : RaftCore) (index : Z) (n : nat) (new_commit : Z) : exec Z :=
  match n with
  | O => Done new_commit
  | S n =>
      term ← unwrap (log_term_at s index);
      advance_commit s (index +! 1) n (if term =? current_term s then index else new_commit)
  end.

Definition leader_commit (s : RaftCore) : exec (RaftCore * list Action) :=
  replicated ← replicated_index s;
  let prev_commit_index := commit_index s in
  let first := prev_commit_index +! 1 in
  new_commit ← advance_commit s first (Z.to_nat (replicated +! 1 - first)) prev_commit_index;
  let s := s <| commit_index := new_commit |> in
  entries ← log_slice s (last_applied s +! 1) (commit_index s +! 1);
  let applies := apply_actions (last_applied s) entries in
  Done (s <| last_applied := commit_index s |>, applies).

(** The read barriers that enough successful responses have confirmed. *)
Definition ready_barriers (s : RaftCore) : RaftCore * list Action :=
  let majority := (len (peers s) + 1) / 2 in
  let ready := filter (fun kv => kv.2 +! majority <= append_entries_count s) (read_barriers s) in
  (s <| read_barriers := filter (fun kv => ~ kv.2 +! majority <= append_entries_count s)
                           (read_barriers s) |>,
   (fun kv => ReadBarrierReady kv.1) <$> map_to_list ready).

Definition handle_append_entries_response (g : Rng) (s : RaftCore)
    (resp : AppendEntriesResponseRPC) : exec (RaftCore * list Action) :=
  '(s, persist_actions) ← check_msg_term g s (aer_term resp);
  let actions := default [] persist_actions in
  if aer_success resp then
    let s := s <| match_index := <[aer_id resp := aer_match_index resp]> (match_index s) |>
               <| next_index := <[aer_id resp := aer_match_index resp +! 1]> (next_index s) |>
               <| append_entries_count := append_entries_count s +! 1 |> in
    '(s, applies) ← leader_commit s;
    let '(s, ready) := ready_barriers s in
    Done (s, actions ++ applies ++ ready)
  else
    let s := match aer_first_conflicting_index resp with
             | Some ind => s <| next_index := alter (fun _ => ind) (aer_id resp) (next_index s) |>
             | None => s <| next_index := alter (fun _ => 0) (aer_id resp) (next_index s) |>
             end in
    action ← build_append_entries_for_peer s (aer_id resp);
    Done (s, actions ++ [action]).

Definition request_read_barrier (s : RaftCore) : RaftCore * option Z :=
  if bool_decide (state s ≠ Leader) then (s, None)
  else
    let s := s <| next_read_barrier_id := next_read_barrier_id s +! 1 |> in
    let s := s <| read_barriers :=
                 <[next_read_barrier_id s := append_entries_count s]> (read_barriers s) |> in
    (s, Some (next_read_barrier_id s)).

(** ** Snapshots *)
Definition prepare_snapshot (s : RaftCore) : exec SnapshotMetadata :=
  term ← unwrap (log_term_at s (last_applied s));
  Done {| sm_last_applied := last_applied s; sm_last_applied_term := term |}.

Definition complete_snapshot (s : RaftCore) (metadata : SnapshotMetadata) : exec RaftCore :=
  if sm_last_applied metadata <=? last_included_index s then Done s
  else
    rest ← vec_drain_to (log s) (sm_last_applied metadata -! last_included_index s);
    Done (s <| log := rest |> <| last_included_index := sm_last_applied metadata |>
            <| last_included_term := sm_last_applied_term metadata |>).

Definition snapshot_response (s : RaftCore) (leader : NodeId) (index : Z) : Action :=
  SendMessage leader (InstallSnapshotResponse
    {| isr_id := id s; isr_term := current_term s; isr_last_included_index := index |}).

Definition handle_install_snapshot (g : Rng) (s : RaftCore) (req : InstallSnapshotRPC)
    : exec (RaftCore * list Action) :=
  '(s, persist_actions) ← check_msg_term g s (is_term req);
  let actions := default [] persist_actions in
  let bail_response := snapshot_response s (is_leader_id req) (last_included_index s) in
  if is_term req <? current_term s then Done (s, actions ++ [bail_response])
  else
    let s := if (is_term req =? current_term s) && bool_decide (state s = Candidate)
             then s <| state := Follower |> else s in
    s ← reset_election_timeout g 1 s;
    let s := s <| current_leader := Some (is_leader_id req) |> in
    if is_last_included_index req <=? last_included_index s then
      Done (s, actions ++ [bail_response])
    else if bool_decide (log_term_at s (is_last_included_index req)
                         = Some (is_last_included_term req)) then
      Done (s, actions ++
        [snapshot_response s (is_leader_id req) (is_last_included_index req)])
    else
      let s := s <| log := [] |>
                 <| last_included_index := is_last_included_index req |>
                 <| last_included_term := is_last_included_term req |>
                 <| last_applied := is_last_included_index req |>
                 <| commit_index := is_last_included_index req |> in
      Done (s, actions ++
        [ActInstallSnapshot (is_last_included_index req) (is_last_included_term req) (is_data req);
         snapshot_response s (is_leader_id req) (last_included_index s)]).

Definition handle_install_snapshot_response (g : Rng) (s : RaftCore)
    (resp : InstallSnapshotResponseRPC) : exec (RaftCore * list Action) :=
  '(s, persist_actions) ← check_msg_term g s (isr_term resp);
  let actions := default [] persist_actions in
  if bool_decide (state s ≠ Leader) then Done (s, actions)
  else
    Done (s <| next_index := <[isr_id resp := isr_last_included_index resp +! 1]> (next_index s) |>
            <| match_index := <[isr_id resp := isr_last_included_index resp]> (match_index s) |>,
          actions).

(** The core a driver starts from, given what the storage holds. *)
Definition boot_core (g : Rng) (node : NodeId) (nodes : list NodeId) (heartbeat : option Z)
    (election_range : Z * Z) (snapshot : option (Z * Z)) (metadata : option (Z * option NodeId))
    (entries : option (list LogEntry)) : exec RaftCore :=
  match snapshot with
  | Some (snap_index, snap_term) =>
      '(term, vote) ← unwrap metadata;
      entries ← unwrap entries;
      restore_with_snapshot g node nodes heartbeat election_range term vote entries
        snap_index snap_term
  | None =>
      match metadata with
      | Some (term, vote) =>
          restore g node nodes heartbeat election_range term vote (default [] entries)
      | None => new g node nodes heartbeat election_range
      end
  end.

(** The dispatch of [RaftDriver::handle_message] on the message's variant. *)
Definition handle_message (g : Rng) (s : RaftCore) (m : Message) : exec (RaftCore * list Action) :=
  match m with
  | RequestVote req => handle_request_vote g s req
  | RequestVoteResponse resp => handle_request_vote_response g s resp
  | AppendEntries req => handle_append_entries g s req
  | AppendEntriesResponse resp => handle_append_entries_response g s resp
  | InstallSnapshotMsg req => handle_install_snapshot g s req
  | InstallSnapshotResponse resp => handle_install_snapshot_response g s resp
  end.
