(* ===== verification/CoreLog.v ===== *)
(** The log of the core: logical indices, slices and the bounds under which
    the wrapping arithmetic of the accessors is plain arithmetic. *)

From S2P Require Import Prelude Types RaftCore.

#[global] Arguments u64_add : simpl never.
#[global] Arguments u64_sub : simpl never.
#[global] Arguments len : simpl never.
#[global] Arguments last_log_index : simpl never.
#[global] Arguments log_entry_at : simpl never.
#[global] Arguments log_term_at : simpl never.
#[global] Arguments last_log_term : simpl never.
#[global] Arguments log_slice : simpl never.
#[global] Arguments build_append_entries_for_peer : simpl never.
#[global] Arguments append_entries : simpl never.
#[global] Arguments apply_actions : simpl never.
#[global] Arguments reset_election_timeout : simpl never.
#[global] Arguments check_msg_term : simpl never.

(** The log fits the index space, with room for one more entry. *)
Definition log_fits (s : RaftCore) : Prop :=
  0 <= last_included_index s /\ last_included_index s + len (log s) + 2 < U64.

(** ** States with the same log

    The accessors read three fields only: rewriting with [same_log] replaces
    the state by any other one with the same log. *)
Definition same_log (s s' : RaftCore) : Prop :=
  log s = log s' /\ last_included_index s = last_included_index s'
  /\ last_included_term s = last_included_term s'.

#[export] Instance same_log_equivalence : Equivalence same_log.
Proof. split; red; unfold same_log; naive_solver congruence. Qed.

#[export] Instance last_log_index_proper : Proper (same_log ==> eq) last_log_index.
Proof. intros s s' (H1 & H2 & H3). unfold last_log_index; congruence. Qed.

#[export] Instance log_entry_at_proper : Proper (same_log ==> eq ==> eq) log_entry_at.
Proof. intros s s' (H1 & H2 & H3) i ? <-. unfold log_entry_at. by rewrite H1, H2. Qed.

#[export] Instance log_term_at_proper : Proper (same_log ==> eq ==> eq) log_term_at.
Proof.
  intros s s' H i ? <-. unfold log_term_at. rewrite (log_entry_at_proper s s' H i i eq_refl).
  destruct H as (H1 & H2 & H3). by rewrite H2, H3.
Qed.

#[export] Instance last_log_term_proper : Proper (same_log ==> eq) last_log_term.
Proof. intros s s' H. unfold last_log_term. by rewrite H. Qed.

#[export] Instance log_slice_proper : Proper (same_log ==> eq ==> eq ==> eq) log_slice.
Proof. intros s s' (H1 & H2 & H3) i ? <- j ? <-. unfold log_slice. by rewrite H1, H2. Qed.

#[export] Instance log_fits_proper : Proper (same_log ==> iff) log_fits.
Proof. intros s s' (H1 & H2 & H3). unfold log_fits. by rewrite H1, H2. Qed.

(** ** Accessors on a log that fits *)
Section accessors.
Context (s : RaftCore) (Hfits : log_fits s).

Lemma last_log_index_eq : last_log_index s = last_included_index s + len (log s).
Proof. destruct Hfits. unfold last_log_index. rewrite u64_add_small; len_lia. Qed.

Lemma adjusted_index i :
  last_included_index s < i < U64 ->
  i -! last_included_index s -! 1 = i - last_included_index s - 1.
Proof. intros. destruct Hfits. rewrite (u64_sub_small i) by lia. apply u64_sub_small; lia. Qed.

Lemma log_entry_at_above i :
  last_included_index s < i < U64 ->
  log_entry_at s i = log s !! Z.to_nat (i - last_included_index s - 1).
Proof.
  intros. unfold log_entry_at. rewrite adjusted_index by lia.
  destruct (Z.leb_spec i (last_included_index s)); [lia|].
  destruct (Z.leb_spec (len (log s)) (i - last_included_index s - 1)); [|done].
  symmetry. apply lookup_ge_None. unfold len in *; lia.
Qed.

Lemma log_term_at_above i :
  last_included_index s < i < U64 ->
  log_term_at s i = e_term <$> log s !! Z.to_nat (i - last_included_index s - 1).
Proof.
  intros. unfold log_term_at. rewrite log_entry_at_above by lia.
  destruct (Z.ltb_spec i (last_included_index s)), (Z.eqb_spec i (last_included_index s)); lia || done.
Qed.

Lemma log_term_at_snapshot : log_term_at s (last_included_index s) = Some (last_included_term s).
Proof. unfold log_term_at. by rewrite Z.ltb_irrefl, Z.eqb_refl. Qed.

Lemma log_term_at_below i : i < last_included_index s -> log_term_at s i = None.
Proof. intros. unfold log_term_at. by destruct (Z.ltb_spec i (last_included_index s)); [|lia]. Qed.

(** A term is known exactly for the indices from the snapshot to the end. *)
Lemma log_term_at_is_Some i :
  i < U64 -> is_Some (log_term_at s i) <-> last_included_index s <= i <= last_log_index s.
Proof.
  intros Hi. rewrite last_log_index_eq.
  destruct (Z.lt_trichotomy i (last_included_index s)) as [Hlt | [-> | Hgt]].
  - rewrite log_term_at_below by done. split; [intros [? [=]] | lia].
  - rewrite log_term_at_snapshot. split; [len_lia | naive_solver].
  - rewrite log_term_at_above by lia. rewrite fmap_is_Some, lookup_lt_is_Some.
    unfold len; lia.
Qed.

Lemma last_log_term_Done : exists t, last_log_term s = Done t.
Proof.
  unfold last_log_term.
  destruct (proj2 (log_term_at_is_Some (last_log_index s) ltac:(rewrite last_log_index_eq; destruct Hfits; len_lia)))
    as [t Ht]; [rewrite last_log_index_eq; len_lia|].
  exists t. by rewrite Ht.
Qed.

Lemma log_slice_eq from to :
  last_included_index s < from <= to -> to <= last_log_index s + 1 ->
  log_slice s from to =
  Done (take (Z.to_nat (to - from)) (drop (Z.to_nat (from - last_included_index s - 1)) (log s))).
Proof.
  rewrite last_log_index_eq. intros H1 H2. destruct Hfits. unfold log_slice.
  destruct (Z.leb_spec from (last_included_index s)); [lia|].
  rewrite !adjusted_index by len_lia. apply vec_slice_Done. split; [lia|].
  rewrite Z.min_l by lia. do 2 f_equal. lia.
Qed.

Lemma log_slice_below from to : from <= last_included_index s -> log_slice s from to = Done [].
Proof. intros. unfold log_slice. by destruct (Z.leb_spec from (last_included_index s)); [|lia]. Qed.

(** The slice that runs to the end of the log. *)
Lemma log_slice_suffix from :
  last_included_index s < from <= last_log_index s + 1 ->
  log_slice s from (last_log_index s +! 1) =
  Done (drop (Z.to_nat (from - last_included_index s - 1)) (log s)).
Proof.
  intros H. rewrite last_log_index_eq in H. destruct Hfits.
  rewrite u64_add_small by (rewrite last_log_index_eq; len_lia).
  rewrite log_slice_eq by (rewrite ?last_log_index_eq; lia).
  rewrite take_ge; [done|]. rewrite length_drop, last_log_index_eq. unfold len in *. lia.
Qed.
End accessors.

(** The log after [Vec::push]. *)
Lemma log_slice_pushed s e :
  log_fits (s <| log := log s ++ [e] |>) ->
  let s' := s <| log := log s ++ [e] |> in
  log_slice s' (last_log_index s') (last_log_index s' +! 1) = Done [e].
Proof.
  intros Hf s'. pose proof (last_log_index_eq s' Hf) as Hl. cbn in Hl.
  rewrite log_slice_suffix by (done || (rewrite Hl; cbn; len_lia)). rewrite Hl. cbn.
  replace (Z.to_nat _) with (length (log s)) by (rewrite len_app; unfold len; cbn; lia).
  by rewrite drop_app_length.
Qed.
