(* ===== verification/CoreFrame.v ===== *)
(** Footprints: which fields each internal method of the core changes.  Every
    lemma exhibits the new state as a record update of the old one, so that a
    handler's effect on the other fields follows by computation. *)

From S2P Require Import Prelude Types RaftCore CoreLog.

Lemma reset_election_timeout_Done g k s s' :
  reset_election_timeout g k s = Done s' ->
  s' = s <| ticks_since_last_heartbeat := 0 |>
         <| election_timeout :=
              g k (election_timeout_range s).1 (election_timeout_range s).2 |>
  /\ (election_timeout_range s).1 < (election_timeout_range s).2.
Proof.
  unfold reset_election_timeout, random_range. cbn.
  destruct (Z.ltb_spec (election_timeout_range s).1 (election_timeout_range s).2); cbn;
    intros [=]; subst; auto.
Qed.

(** The state after stepping down to the newer term [t]. *)
Definition stepped_down (s : RaftCore) (t timeout : Z) : RaftCore :=
  s <| current_term := t |> <| state := Follower |> <| voted_for := None |>
    <| ticks_since_last_heartbeat := 0 |> <| election_timeout := timeout |>
    <| read_barriers := ∅ |> <| current_leader := None |>.

Lemma check_msg_term_Done g s t s' o :
  check_msg_term g s t = Done (s', o) ->
  (t <= current_term s /\ s' = s /\ o = None)
  \/ (current_term s < t /\ o = Some [PersistMetadata t None]
      /\ exists timeout, s' = stepped_down s t timeout).
Proof.
  unfold check_msg_term. destruct (Z.ltb_spec (current_term s) t); intros H'.
  - right. apply exec_bind_Done in H' as (s1 & H1 & H2).
    apply reset_election_timeout_Done in H1 as [-> _]. injection H2 as <- <-.
    split_and!; [done..|]. by eexists.
  - left. by injection H' as <- <-.
Qed.

Lemma append_loop_Done s i entries s' :
  append_loop s i entries = Done s' -> exists l, s' = s <| log := l |>.
Proof.
  revert s i. induction entries as [|e rest IH]; intros s i H; cbn [append_loop] in H.
  - injection H as <-. by exists (log s); destruct s.
  - repeat case_match; exec_inv; repeat case_match;
      match goal with H : append_loop _ _ _ = Done _ |- _ => apply IH in H as [l ->] end;
      by exists l; destruct s.
Qed.

Lemma follower_commit_Done s c s' acts :
  follower_commit s c = Done (s', acts) ->
  (c <= commit_index s /\ s' = s /\ acts = [])
  \/ (exists entries, let c' := Z.min c (last_log_index s) in
       commit_index s < c
       /\ log_slice s (commit_index s +! 1) (c' +! 1) = Done entries
       /\ s' = s <| commit_index := c' |> <| last_applied := c' |>
       /\ acts = apply_actions (commit_index s) entries).
Proof.
  unfold follower_commit. destruct (Z.ltb_spec (commit_index s) c); intros H'.
  - right. apply exec_bind_Done in H' as (entries & H1 & H2). injection H2 as <- <-.
    by exists entries.
  - left. by injection H' as <- <-.
Qed.

Lemma leader_commit_Done s s' acts :
  leader_commit s = Done (s', acts) ->
  exists r n entries, replicated_index s = Done r
    /\ advance_commit s (commit_index s +! 1)
         (Z.to_nat (r +! 1 - (commit_index s +! 1))) (commit_index s) = Done n
    /\ log_slice s (last_applied s +! 1) (n +! 1) = Done entries
    /\ s' = s <| commit_index := n |> <| last_applied := n |>
    /\ acts = apply_actions (last_applied s) entries.
Proof.
  unfold leader_commit. intros H.
  apply exec_bind_Done in H as (r & H1 & H). apply exec_bind_Done in H as (n & H2 & H).
  apply exec_bind_Done in H as (entries & H3 & H). injection H as <- <-.
  by exists r, n, entries.
Qed.

Lemma initialize_leader_state_Done s s' a :
  initialize_leader_state s = Done (s', a) ->
  exists ni mi entries,
    s' = s <| log := log s ++ [mkLogEntry (current_term s) []] |>
           <| next_index := ni |> <| match_index := mi |>
    /\ a = PersistLogEntries (last_log_index s') entries.
Proof.
  unfold initialize_leader_state. intros H. apply exec_bind_Done in H as (entries & H1 & H).
  injection H as <- <-. cbn.
  set (s0 := s <| log := _ |>). clear H1.
  assert (forall ps s1, exists ni mi,
    foldl (fun s peer =>
      s <| next_index := <[peer:=last_log_index s +! 1]> (next_index s) |>
        <| match_index := <[peer:=0]> (match_index s) |>) s1 ps
    = s1 <| next_index := ni |> <| match_index := mi |>) as Hfold.
  { induction ps as [|p ps IH]; intros s1; cbn [foldl].
    - by exists (next_index s1), (match_index s1); destruct s1.
    - destruct (IH (s1 <| next_index := <[p:=last_log_index s1 +! 1]> (next_index s1) |>
                       <| match_index := <[p:=0]> (match_index s1) |>)) as (ni & mi & ->).
      by exists ni, mi; destruct s1. }
  destruct (Hfold (peers s0) s0) as (ni & mi & Heq). exists ni, mi, entries.
  split; [exact Heq|]. reflexivity.
Qed.

(** [log_slice] and the messages built from it change nothing: a leader's
    batch of appends is made of sends only. *)
Definition is_append_action (a : Action) : Prop :=
  match a with
  | SendMessage _ (AppendEntries _) => True
  | SendInstallSnapshot _ _ _ _ => True
  | _ => False
  end.

Lemma build_append_entries_shape s p a :
  build_append_entries_for_peer s p = Done a -> is_append_action a.
Proof.
  unfold build_append_entries_for_peer. case_match; intros H'; exec_inv; done.
Qed.

Lemma append_entries_shape s acts :
  append_entries s = Done acts -> Forall is_append_action acts.
Proof.
  unfold append_entries. revert acts. generalize (peers s).
  induction l as [|p ps IH]; intros acts H; cbn in H; exec_inv; constructor.
  - by eapply build_append_entries_shape.
  - eauto.
Qed.
