(* ===== verification/CoreElection.v ===== *)
(** Terms, votes and roles: what every input does to the election state of one
    node, and in which order it persists and sends. *)

From S2P Require Import Prelude Types RaftCore CoreLog CoreFrame.

(** ** Inputs

    What the driver can ask of the core: the arms of its [select!] loop and
    the snapshot it takes between two applied entries. *)
Inductive Input : Type :=
| InTick
| InMessage (m : Message)
| InPropose (command : bytes)
| InRead
| InSnapshot.

Definition core_input (g : Rng) (s : RaftCore) (i : Input) : exec (RaftCore * list Action) :=
  match i with
  | InTick => tick g s
  | InMessage m => handle_message g s m
  | InPropose command =>
      '(s, actions) ← propose s command; Done (s, default [] actions)
  | InRead => let '(s, _) := request_read_barrier s in Done (s, [])
  | InSnapshot =>
      metadata ← prepare_snapshot s;
      s ← complete_snapshot s metadata;
      Done (s, [])
  end.

(** ** Metadata: the durable part of the election state *)
Definition metadata : Type := Z * option NodeId.

Definition meta (s : RaftCore) : metadata := (current_term s, voted_for s).

(** Terms only grow, and a vote is not changed within its term. *)
Definition meta_le (d d' : metadata) : Prop :=
  d.1 <= d'.1 /\ (d.1 = d'.1 -> forall c, d.2 = Some c -> d'.2 = Some c).

#[export] Instance meta_le_preorder : PreOrder meta_le.
Proof.
  split; [by intros []|]. intros [t v] [t' v'] [t'' v'']. unfold meta_le; cbn.
  intros [H1 H2] [H3 H4]. split; [lia|]. intros Heq c Hc.
  assert (t = t') by lia. assert (t' = t'') by lia. auto.
Qed.

Definition is_persist_metadata (a : Action) : bool :=
  match a with PersistMetadata _ _ => true | _ => false end.

(** Executing the metadata writes of a list of actions. *)
Definition write_metadata (d : metadata) (a : Action) : metadata :=
  match a with PersistMetadata t v => (t, v) | _ => d end.

(** A run of metadata writes that only moves forward, from [d] to [d']. *)
Inductive meta_chain : metadata -> list Action -> metadata -> Prop :=
| meta_chain_nil d : meta_chain d [] d
| meta_chain_cons d t v l d' :
    meta_le d (t, v) -> meta_chain (t, v) l d' ->
    meta_chain d (PersistMetadata t v :: l) d'.

#[export] Hint Constructors meta_chain : election.

Lemma meta_chain_le d l d' : meta_chain d l d' -> meta_le d d'.
Proof. induction 1; [done|]. by etrans. Qed.

Lemma meta_chain_write d l d' : meta_chain d l d' -> foldl write_metadata d l = d'.
Proof. by induction 1. Qed.

Lemma write_metadata_none d l :
  Forall (fun a => is_persist_metadata a = false) l -> foldl write_metadata d l = d.
Proof. induction 1 as [|[] l Ha Hl IH]; done. Qed.

Lemma meta_chain_prefix d l d' k :
  meta_chain d l d' -> k `prefix_of` l -> meta_le d (foldl write_metadata d k).
Proof.
  intros Hc. revert k. induction Hc as [|d t v l d' Hle Hc IH]; intros k Hk.
  - apply prefix_nil_inv in Hk as ->. done.
  - destruct k as [|a k]; [done|]. apply prefix_cons_inv_1 in Hk as Ha.
    apply prefix_cons_inv_2 in Hk. subst a. cbn. etrans; [done|]. by apply IH.
Qed.

(** ** One step of a node, seen from the election *)

(** A granted vote of [voter] to [candidate] at term [t], as a sent action. *)
Definition grant_action (voter t candidate : Z) : Action :=
  SendMessage candidate (RequestVoteResponse (mkRequestVoteResponseRPC voter t true)).

Definition is_request_vote (a : Action) : Prop :=
  match a with SendMessage _ (RequestVote _) => True | _ => False end.

Definition is_grant (a : Action) : Prop :=
  match a with
  | SendMessage _ (RequestVoteResponse resp) => rvr_vote_granted resp = true
  | _ => False
  end.

Definition has_quorum (s : RaftCore) : Prop :=
  (len (peers s) +! 1) / 2 < Z.of_nat (size (votes_received s)).

(** How the role and the votes move. *)
Inductive role_step (s : RaftCore) (i : Input) (s' : RaftCore) (acts : list Action) : Prop :=
| role_follower : state s' = Follower -> role_step s i s' acts
| role_same :
    state s' = state s -> current_term s' = current_term s ->
    votes_received s' = votes_received s -> role_step s i s' acts
| role_timeout :
    i = InTick -> state s' = Candidate -> current_term s' = current_term s +! 1 ->
    votes_received s' = {[id s]} -> voted_for s' = Some (id s) ->
    (forall p, p ∈ peers s -> exists req, SendMessage p (RequestVote req) ∈ acts
       /\ rv_term req = current_term s' /\ rv_candidate_id req = id s) ->
    role_step s i s' acts
| role_vote resp :
    i = InMessage (RequestVoteResponse resp) -> rvr_vote_granted resp = true ->
    rvr_term resp <= current_term s -> state s = Candidate -> current_term s' = current_term s ->
    votes_received s' = {[rvr_id resp]} ∪ votes_received s ->
    state s' = Candidate \/ (state s' = Leader /\ has_quorum s') -> role_step s i s' acts.

Record election_step (s : RaftCore) (i : Input) (s' : RaftCore) (acts : list Action) : Prop := {
  es_id : id s' = id s;
  es_peers : peers s' = peers s;
  (* metadata writes first, each moving forward, then everything else *)
  es_shape : exists writes rest, acts = writes ++ rest
    /\ meta_chain (meta s) writes (meta s')
    /\ Forall (fun a => is_persist_metadata a = false) rest;
  es_grant : forall a, a ∈ acts -> is_grant a ->
    exists c, a = grant_action (id s) (current_term s') c /\ voted_for s' = Some c;
  es_request : forall a, a ∈ acts -> is_request_vote a ->
    state s' = Candidate /\ voted_for s' = Some (id s)
    /\ exists target req, a = SendMessage target (RequestVote req)
         /\ rv_term req = current_term s' /\ rv_candidate_id req = id s;
  es_role : role_step s i s' acts;
}.

(** Actions that say nothing about the election. *)
Definition quiet (a : Action) : Prop :=
  match a with
  | PersistMetadata _ _ => False
  | SendMessage _ (RequestVote _) => False
  | SendMessage _ (RequestVoteResponse resp) => rvr_vote_granted resp = false
  | _ => True
  end.

Lemma quiet_spec a : quiet a -> is_persist_metadata a = false /\ ~ is_grant a /\ ~ is_request_vote a.
Proof. destruct a as [? [] | | | | | |]; cbn; intuition congruence. Qed.

Lemma append_action_quiet a : is_append_action a -> quiet a.
Proof. by destruct a as [? [] | | | | | |]. Qed.

Lemma apply_actions_quiet base entries : Forall quiet (apply_actions base entries).
Proof.
  unfold apply_actions. apply Forall_forall. intros a Ha.
  apply elem_of_lookup_imap in Ha as (k & e & -> & _). done.
Qed.

Lemma append_entries_quiet s acts : append_entries s = Done acts -> Forall quiet acts.
Proof.
  intros H. eapply Forall_impl; [by eapply append_entries_shape|]. apply append_action_quiet.
Qed.

Lemma ready_barriers_quiet s s' acts :
  ready_barriers s = (s', acts) ->
  (exists rb, s' = s <| read_barriers := rb |>) /\ Forall quiet acts.
Proof.
  unfold ready_barriers. intros [= <- <-]. split; [by eexists|].
  apply Forall_fmap, Forall_true. done.
Qed.

#[export] Hint Resolve append_action_quiet apply_actions_quiet append_entries_quiet
  build_append_entries_shape : election.

(** A step that leaves term, vote and votes alone. *)
Lemma election_step_quiet s i s' acts :
  id s' = id s -> peers s' = peers s -> meta s' = meta s ->
  (state s' = Follower \/ state s' = state s) -> votes_received s' = votes_received s ->
  Forall quiet acts -> election_step s i s' acts.
Proof.
  intros Hid Hpeers Hmeta Hstate Hvotes Hq. rewrite Forall_forall in Hq.
  split; try done.
  - exists [], acts. split_and!; [done| rewrite Hmeta; constructor |].
    apply Forall_forall. intros a Ha. by apply quiet_spec, Hq.
  - intros a Ha Hg. by destruct (quiet_spec a (Hq a Ha)) as (_ & Hn & _).
  - intros a Ha Hg. by destruct (quiet_spec a (Hq a Ha)) as (_ & _ & Hn).
  - destruct Hstate; [by apply role_follower|]. injection Hmeta as Ht _. by apply role_same.
Qed.

(** [check_msg_term] in front of a handler. *)
Lemma election_step_check g s t s1 o m s' acts :
  check_msg_term g s t = Done (s1, o) ->
  election_step s1 (InMessage m) s' acts ->
  election_step s (InMessage m) s' (default [] o ++ acts).
Proof.
  intros Hc Hs. apply check_msg_term_Done in Hc as [(Ht & -> & ->) | (Ht & -> & timeout & ->)];
    [done|]. destruct Hs as [Hid Hpeers (w & r & -> & Hw & Hr) Hgrant Hreq Hrole].
  cbn in *. split; try done.
  - exists (PersistMetadata t None :: w), r. split_and!; [done| |done].
    constructor; [|done]. split; cbn; [lia|]. intros; exfalso; lia.
  - intros a [->|Ha]%elem_of_cons Hg; [done|]. by apply Hgrant.
  - intros a [->|Ha]%elem_of_cons Hg; [done|]. by apply Hreq.
  - destruct Hrole as [|Hst| |]; cbn in *; try done; by apply role_follower.
Qed.

Ltac quiet_list := repeat first [apply Forall_app; split | apply Forall_cons; split
                                | apply Forall_nil; exact I]; try done; eauto with election.

Ltac quiet_step := apply election_step_quiet; cbn; auto; quiet_list.

(** ** The handlers *)
Lemma tick_election g s s' acts :
  current_term s + 1 < U64 -> 0 <= current_term s ->
  tick g s = Done (s', acts) -> election_step s InTick s' acts.
Proof.
  intros Hroom Hnn H. unfold tick in H. cbn in H.
  assert (on_election_timeout g
      (s <| ticks_since_last_heartbeat := ticks_since_last_heartbeat s +! 1 |>) = Done (s', acts) ->
    election_step s InTick s' acts) as Htimeout.
  { clear H. unfold on_election_timeout. cbn. case_match; [|intros [=]; subst; quiet_step].
    intros H'. apply exec_bind_Done in H' as (s1 & H1 & H'). apply exec_bind_Done in H' as (lt & _ & H').
    apply reset_election_timeout_Done in H1 as [-> _]. injection H' as <- <-. cbn.
    split; try done.
    - eexists [_], _. split_and!; [done| |].
      + constructor; [|constructor]. split; cbn; rewrite u64_add_small by lia; [lia|]. intros; exfalso; lia.
      + apply Forall_fmap, Forall_true. done.
    - intros a [->|Ha]%elem_of_cons Hg; [done|]. by apply list_elem_of_fmap in Ha as (p & -> & _).
    - intros a [->|Ha]%elem_of_cons Hg; [done|]. apply list_elem_of_fmap in Ha as (p & -> & _).
      cbn. split_and!; [done..|]. by do 2 eexists.
    - apply role_timeout; try done. intros p Hp. eexists. split.
      + apply elem_of_cons. right. apply list_elem_of_fmap. by exists p.
      + done. }
  destruct (state s) eqn:Est; [|by auto..]. clear Htimeout.
  unfold heartbeat in H. cbn in H. case_match; exec_inv; quiet_step.
Qed.

Lemma request_vote_election g s req s' acts :
  handle_request_vote g s req = Done (s', acts) ->
  election_step s (InMessage (RequestVote req)) s' acts.
Proof.
  unfold handle_request_vote. intros H. apply exec_bind_Done in H as ([s1 o] & Hc & H).
  case_match; [injection H as <- <-; eapply election_step_check; [done|];
    quiet_step|].
  apply exec_bind_Done in H as (lt & _ & H).
  case_match; [|injection H as <- <-; eapply election_step_check; [done|];
    quiet_step].
  apply exec_bind_Done in H as (s2 & Hr & H). apply reset_election_timeout_Done in Hr as [-> _].
  injection H as <- <-. eapply election_step_check; [done|]. cbn.
  match goal with Hv : can_vote _ _ && _ = true |- _ => apply andb_prop in Hv as [Hv _] end.
  split; try done.
  - eexists [_], _. split_and!; [done| |by quiet_list].
    constructor; [|constructor]. split; cbn; [done|]. intros _ c Hc'. unfold can_vote in *.
    rewrite Hc' in *. f_equal. symmetry. by apply Z.eqb_eq.
  - intros a Ha Hg. cbn in *. assert (a = grant_action (id s1) (current_term s1) (rv_candidate_id req)) as ->.
    { set_solver. } by eexists.
  - intros a Ha Hg. cbn in *. set_solver.
  - by apply role_same.
Qed.

Lemma vote_response_election g s resp s' acts :
  handle_request_vote_response g s resp = Done (s', acts) ->
  election_step s (InMessage (RequestVoteResponse resp)) s' acts.
Proof.
  unfold handle_request_vote_response. intros H. apply exec_bind_Done in H as ([s1 o] & Hc & H).
  assert (forall s2, s2 = s1 -> election_step s (InMessage (RequestVoteResponse resp)) s2 (default [] o))
    as Hquiet.
  { intros s2 ->. rewrite <- (app_nil_r (default [] o)). eapply election_step_check; [done|]. quiet_step. }
  case_bool_decide as Hst; [injection H as <- <-; by apply Hquiet|].
  destruct (rvr_vote_granted resp) eqn:Hg; [|injection H as <- <-; by apply Hquiet].
  clear Hquiet. cbn in H.
  assert (rvr_term resp <= current_term s1) as Hterm.
  { apply check_msg_term_Done in Hc as [(? & -> & _) | (_ & _ & to & ->)]; done. }
  case_match.
  - apply exec_bind_Done in H as ([s2 a] & Hi & H).
    apply initialize_leader_state_Done in Hi as (ni & mi & entries & -> & ->).
    apply exec_bind_Done in H as (s3 & Hr & H). apply reset_election_timeout_Done in Hr as [-> _].
    apply exec_bind_Done in H as (appends & Ha & H). injection H as <- <-.
    eapply election_step_check; [done|]. split; try done.
    + exists [], (PersistLogEntries (last_log_index
        ((s1 <| votes_received := {[rvr_id resp]} ∪ votes_received s1 |> <| state := Leader |>
            <| current_leader := Some (id s1) |>)
           <| log := log s1 ++ [mkLogEntry (current_term s1) []] |>
           <| next_index := ni |> <| match_index := mi |>)) entries :: appends).
      split_and!; [done|constructor|].
      constructor; [done|]. eapply Forall_impl; [by eapply append_entries_quiet|].
      intros a Hq. by apply quiet_spec.
    + intros a [->|Hin]%elem_of_cons Hga; [done|].
      apply append_entries_quiet in Ha. rewrite Forall_forall in Ha.
      by destruct (quiet_spec a (Ha a Hin)) as (_ & ? & _).
    + intros a [->|Hin]%elem_of_cons Hga; [done|].
      apply append_entries_quiet in Ha. rewrite Forall_forall in Ha.
      by destruct (quiet_spec a (Ha a Hin)) as (_ & _ & ?).
    + apply (role_vote _ _ _ _ resp); cbn; try done.
      right. split; [done|]. unfold has_quorum. cbn. by apply Z.ltb_lt.
  - injection H as <- <-. rewrite <- (app_nil_r (default [] o)).
    eapply election_step_check; [done|]. split; try done.
    + exists [], []. by split_and!; [|constructor|].
    + set_solver.
    + set_solver.
    + apply (role_vote _ _ _ _ resp); cbn; try done. by left.
Qed.

Lemma append_checked_Done s req actions response s' acts :
  append_checked s req actions response = Done (s', acts) ->
  exists l c a rest, s' = s <| log := l |> <| commit_index := c |> <| last_applied := a |>
    /\ acts = actions ++ rest /\ Forall quiet rest.
Proof.
  unfold append_checked. intros H. case_match.
  { exists (log s), (commit_index s), (last_applied s).
    case_match; injection H as <- <-; eexists; (split_and!; [by destruct s|done|]); by quiet_list. }
  apply exec_bind_Done in H as (s4 & Hl & H). apply append_loop_Done in Hl as [l ->].
  apply exec_bind_Done in H as (persist & Hp & H).
  apply exec_bind_Done in H as ([s5 applies] & Hf & H). injection H as <- <-.
  assert (Forall quiet persist).
  { clear -Hp. destruct (ae_entries req); exec_inv; repeat constructor. }
  apply follower_commit_Done in Hf as [(_ & -> & ->) | (entries & _ & _ & -> & ->)].
  - exists l, (commit_index s), (last_applied s). eexists. split_and!; [by destruct s|done|]. by quiet_list.
  - do 3 eexists. eexists. split_and!; [reflexivity|reflexivity|]. by quiet_list.
Qed.

Lemma append_entries_election g s req s' acts :
  handle_append_entries g s req = Done (s', acts) ->
  election_step s (InMessage (AppendEntries req)) s' acts.
Proof.
  unfold handle_append_entries. intros H. apply exec_bind_Done in H as ([s1 o] & Hc & H).
  set (s2 := if (ae_term req =? current_term s1) && bool_decide (state s1 = Candidate)
             then s1 <| state := Follower |> else s1) in *.
  assert (id s2 = id s1 /\ peers s2 = peers s1 /\ meta s2 = meta s1
    /\ (state s2 = Follower \/ state s2 = state s1) /\ votes_received s2 = votes_received s1)
    as (Hid & Hpeers & Hmeta & Hstate & Hvotes).
  { unfold s2. destruct ((ae_term req =? _) && _); cbn; by auto 10. }
  clearbody s2.
  case_match; [injection H as <- <-; eapply election_step_check; [done|]; by quiet_step|].
  case_match; [injection H as <- <-; eapply election_step_check; [done|]; by quiet_step|].
  apply exec_bind_Done in H as (s3 & Hr & H). apply reset_election_timeout_Done in Hr as [-> _].
  apply append_checked_Done in H as (l & c & a & rest & -> & -> & Hq).
  eapply election_step_check; [done|]. by quiet_step.
Qed.

Lemma append_response_election g s resp s' acts :
  handle_append_entries_response g s resp = Done (s', acts) ->
  election_step s (InMessage (AppendEntriesResponse resp)) s' acts.
Proof.
  unfold handle_append_entries_response. intros H. apply exec_bind_Done in H as ([s1 o] & Hc & H).
  case_match.
  - apply exec_bind_Done in H as ([s2 applies] & Hl & H).
    apply leader_commit_Done in Hl as (r & n & entries & _ & _ & _ & -> & ->).
    destruct (ready_barriers _) as [s3 ready] eqn:Hrb. injection H as <- <-.
    apply ready_barriers_quiet in Hrb as [[rb ->] Hready].
    eapply election_step_check; [done|]. quiet_step.
  - apply exec_bind_Done in H as (a & Hb & H). injection H as <- <-.
    eapply election_step_check; [done|]. apply build_append_entries_shape, append_action_quiet in Hb.
    case_match; by quiet_step.
Qed.

Lemma install_snapshot_election g s req s' acts :
  handle_install_snapshot g s req = Done (s', acts) ->
  election_step s (InMessage (InstallSnapshotMsg req)) s' acts.
Proof.
  unfold handle_install_snapshot. intros H. apply exec_bind_Done in H as ([s1 o] & Hc & H).
  case_match; [injection H as <- <-; eapply election_step_check; [done|]; by quiet_step|].
  apply exec_bind_Done in H as (s3 & Hr & H). apply reset_election_timeout_Done in Hr as [-> _].
  repeat case_match; injection H as <- <-; (eapply election_step_check; [done|]); by quiet_step.
Qed.

Lemma install_snapshot_response_election g s resp s' acts :
  handle_install_snapshot_response g s resp = Done (s', acts) ->
  election_step s (InMessage (InstallSnapshotResponse resp)) s' acts.
Proof.
  unfold handle_install_snapshot_response. intros H.
  apply exec_bind_Done in H as ([s1 o] & Hc & H).
  case_match; injection H as <- <-; rewrite <- (app_nil_r (default [] o));
    (eapply election_step_check; [done|]); by quiet_step.
Qed.

Lemma propose_Done s cmd s' o :
  propose s cmd = Done (s', o) ->
  (state s <> Leader /\ s' = s /\ o = None)
  \/ (state s = Leader
      /\ s' = s <| log := log s ++ [mkLogEntry (current_term s) cmd] |>
                <| ticks_since_last_heartbeat := 0 |>
      /\ exists entries appends, append_entries s' = Done appends
           /\ log_slice s' (last_log_index s') (last_log_index s' +! 1) = Done entries
           /\ o = Some (PersistLogEntries (last_log_index s') entries :: appends)).
Proof.
  unfold propose. case_bool_decide as Hst; intros H; [left; by injection H as <- <-|].
  right. apply exec_bind_Done in H as (entries & H1 & H).
  apply exec_bind_Done in H as (appends & H2 & H). injection H as <- <-.
  split_and!; [by destruct (state s)|done|]. by exists entries, appends.
Qed.

Lemma complete_snapshot_Done s md s' :
  complete_snapshot s md = Done s' ->
  exists l i t, s' = s <| log := l |> <| last_included_index := i |> <| last_included_term := t |>.
Proof.
  unfold complete_snapshot. case_match; intros H'; exec_inv.
  - exists (log s'), (last_included_index s'), (last_included_term s'). by destruct s'.
  - by do 3 eexists.
Qed.

(** Every input, under the bound that the 2^64 terms are not used up. *)
Lemma core_input_election g s i s' acts :
  0 <= current_term s -> current_term s + 1 < U64 ->
  core_input g s i = Done (s', acts) -> election_step s i s' acts.
Proof.
  intros Hnn Hroom H. destruct i as [|m|cmd| |]; cbn in H.
  - by eapply tick_election.
  - destruct m; cbn in H;
      eauto using request_vote_election, vote_response_election, append_entries_election,
        append_response_election, install_snapshot_election, install_snapshot_response_election.
  - apply exec_bind_Done in H as ([s1 o] & Hp & H). injection H as <- <-.
    apply propose_Done in Hp as [(_ & -> & ->) | (_ & -> & entries & appends & Ha & _ & ->)]; quiet_step.
  - unfold request_read_barrier in H. destruct (bool_decide (state s ≠ Leader)); injection H as <- <-; quiet_step.
  - apply exec_bind_Done in H as (md & _ & H). apply exec_bind_Done in H as (s1 & Hc & H).
    injection H as <- <-. apply complete_snapshot_Done in Hc as (l & k & t & ->). quiet_step.
Qed.

Lemma election_step_meta_le s i s' acts : election_step s i s' acts -> meta_le (meta s) (meta s').
Proof. intros [_ _ (w & r & _ & Hw & _) _ _ _]. by eapply meta_chain_le. Qed.

(** What is on disk after any prefix of the actions: it never goes back, and
    once something was sent it is the node's new metadata. *)
Lemma election_step_prefix s i s' acts pre :
  election_step s i s' acts -> pre `prefix_of` acts ->
  meta_le (meta s) (foldl write_metadata (meta s) pre)
  /\ (Exists (fun a => is_persist_metadata a = false) pre ->
      foldl write_metadata (meta s) pre = meta s').
Proof.
  intros [_ _ (w & r & -> & Hw & Hr) _ _ _] Hpre.
  assert (pre `prefix_of` w \/ exists r', pre = w ++ r' /\ r' `prefix_of` r) as [Hp|(r' & -> & Hp)].
  { destruct Hpre as [k Hk]. symmetry in Hk. apply app_eq_inv in Hk as [(l & -> & Hl)|(l & -> & Hl)].
    - right. exists l. split; [done|]. by exists k.
    - left. by exists l. }
  - split; [by eapply meta_chain_prefix|]. intros Hex. exfalso.
    assert (Forall (fun a => is_persist_metadata a = true) w) as Hall by (clear -Hw; induction Hw; by constructor).
    destruct Hp as [k ->]. apply Forall_app in Hall as [Hall _].
    apply Exists_exists in Hex as (a & Ha & Hf). rewrite Forall_forall in Hall. specialize (Hall a Ha). congruence.
  - rewrite foldl_app, (meta_chain_write _ _ _ Hw), write_metadata_none.
    + split; [by eapply meta_chain_le|done].
    + destruct Hp as [k ->]. by apply Forall_app in Hr as [Hr _].
Qed.
