(* ===== verification/Cluster.v ===== *)
(** A cluster of nodes over an unreliable network, with crashes.

    The network keeps every message ever sent: delivery picks any of them, so
    messages can be lost, duplicated, delayed and reordered.  A node runs one
    input at a time and executes its actions in order; a crash can fall between
    any two of these actions, after which the node boots from what its disk
    holds. *)

From S2P Require Import Prelude Types RaftCore CoreLog CoreFrame CoreElection.

Record Config := mkConfig {
  cfg_nodes : list NodeId;
  cfg_heartbeat : option Z;
  cfg_range : Z * Z;
}.

Record Cluster := mkCluster {
  nodes : gmap Z RaftCore;
  disks : gmap Z metadata;
  network : list (NodeId * Message);
}.

(** The messages an action puts on the network; [data] is what
    [retrieve_snapshot_bytes] reads from the sender's storage. *)
Definition sent (n : NodeId) (data : bytes) (a : Action) : list (NodeId * Message) :=
  match a with
  | SendMessage target m => [(target, m)]
  | SendInstallSnapshot target term index iterm =>
      [(target, InstallSnapshotMsg (mkInstallSnapshotRPC term n index iterm data))]
  | _ => []
  end.

(** The metadata file after an action. *)
Definition write_disk (d : option metadata) (a : Action) : option metadata :=
  match a with PersistMetadata t v => Some (t, v) | _ => d end.

(** Node [n] is now [s], after the actions [acts] took effect. *)
Definition perform (w : Cluster) (n : NodeId) (s : RaftCore) (data : bytes) (acts : list Action)
    : Cluster :=
  {| nodes := <[n := s]> (nodes w);
     disks := partial_alter (fun d => foldl write_disk d acts) n (disks w);
     network := network w ++ (acts ≫= sent n data) |}.

(** ** Votes on the network *)

(** [v] voted for [c] at term [t]: it granted a request, or asked for votes
    itself. *)
Definition voted (net : list (NodeId * Message)) (v t c : Z) : Prop :=
  (c, RequestVoteResponse (mkRequestVoteResponseRPC v t true)) ∈ net
  \/ (c = v /\ exists p req, (p, RequestVote req) ∈ net
        /\ rv_term req = t /\ rv_candidate_id req = v).

Lemma voted_app net net' v t c :
  voted (net ++ net') v t c <-> voted net v t c \/ voted net' v t c.
Proof. unfold voted. setoid_rewrite elem_of_app. naive_solver. Qed.

Definition disk_meta (d : option metadata) : metadata := default (0, None) d.

Lemma disk_meta_write d acts :
  disk_meta (foldl write_disk d acts) = foldl write_metadata (disk_meta d) acts.
Proof. revert d. induction acts as [|a acts IH]; intros d; [done|]. cbn. rewrite IH. by destruct a. Qed.

(** Evidence of a vote among the messages a step sends is the node's own, at
    its new term, for the candidate its new metadata names. *)
Lemma sent_votes n s i s' acts pre data v t c :
  election_step s i s' acts -> id s = n -> pre `prefix_of` acts ->
  voted (pre ≫= sent n data) v t c ->
  v = n /\ t = current_term s' /\ voted_for s' = Some c
  /\ Exists (fun a => is_persist_metadata a = false) pre.
Proof.
  intros Hs Hid Hpre Hv. assert (forall a, a ∈ pre -> a ∈ acts) as Hsub.
  { intros a Ha. destruct Hpre as [k ->]. apply elem_of_app. by left. }
  destruct Hv as [Hin | (-> & p & req & Hin & Ht & Hc)];
    apply list_elem_of_bind in Hin as (a & Hsent & Ha);
    destruct a as [target m | | | | ? ? ? ? | |]; cbn in Hsent; try set_solver.
  - apply list_elem_of_singleton in Hsent as [= <- <-].
    destruct (es_grant _ _ _ _ Hs _ (Hsub _ Ha) eq_refl) as (c' & [= -> -> ->] & Hvf).
    split_and!; try done. apply Exists_exists. by eexists.
  - apply list_elem_of_singleton in Hsent as [= <- <-].
    destruct (es_request _ _ _ _ Hs _ (Hsub _ Ha) I) as (_ & Hvf & tg & rq & [= -> ->] & Ht' & Hc').
    subst. split_and!; try congruence. apply Exists_exists. by eexists.
Qed.

Lemma perform_nodes w n s data acts n' s' :
  nodes (perform w n s data acts) !! n' = Some s' ->
  (n' = n /\ s' = s) \/ (n' <> n /\ nodes w !! n' = Some s').
Proof. cbn. rewrite lookup_insert_Some. naive_solver. Qed.

(** No node has used up the 2^64 terms. *)
Definition term_room (s : RaftCore) : Prop := current_term s + 1 < U64.

Section cluster.
Context (cfg : Config).

Definition booted (n : NodeId) (d : option metadata) (s : RaftCore) : Prop :=
  exists g snapshot entries,
    boot_core g n (cfg_nodes cfg) (cfg_heartbeat cfg) (cfg_range cfg) snapshot d entries = Done s.

Definition initial (w : Cluster) : Prop :=
  disks w = ∅ /\ network w = []
  /\ forall n s, nodes w !! n = Some s -> n ∈ cfg_nodes cfg /\ booted n None s.

Record node_ok (w : Cluster) (n : NodeId) (s : RaftCore) : Prop := {
  no_id : id s = n;
  no_member : n ∈ cfg_nodes cfg;
  no_peers : peers s = filter (fun x => x ≠ n) (cfg_nodes cfg);
  no_term : 0 <= current_term s;
  no_disk : disk_meta (disks w !! n) = meta s;
}.

(** Votes recorded on the network: one per node and term, and the voter
    remembers it. *)
Record votes_ok (w : Cluster) : Prop := {
  vo_voter : forall v t c, voted (network w) v t c ->
    exists s, nodes w !! v = Some s /\ meta_le (t, Some c) (meta s);
  vo_unique : forall v t c c',
    voted (network w) v t c -> voted (network w) v t c' -> c = c';
}.

Definition cluster_ok (w : Cluster) : Prop :=
  (forall n s, nodes w !! n = Some s -> node_ok w n s) /\ votes_ok w.

Lemma booted_meta n d s :
  booted n d s -> id s = n /\ peers s = filter (fun x => x ≠ n) (cfg_nodes cfg)
    /\ meta s = disk_meta d /\ state s = Follower.
Proof.
  intros (g & snap & entries & H). unfold boot_core in H.
  destruct snap as [[si st]|].
  - apply exec_bind_Done in H as ([t v] & Hd & H). apply unwrap_Done in Hd as ->.
    apply exec_bind_Done in H as (es & _ & H).
    unfold restore_with_snapshot, restore, new in H. by exec_inv.
  - destruct d as [[t v]|]; unfold restore, new in H; by exec_inv.
Qed.

(** ** The vote invariant *)

Lemma perform_ok w n s s1 data acts :
  cluster_ok w -> nodes w !! n = Some s ->
  id s1 = n -> peers s1 = filter (fun x => x ≠ n) (cfg_nodes cfg) ->
  meta_le (meta s) (meta s1) -> foldl write_metadata (meta s) acts = meta s1 ->
  (forall v t c, voted (acts ≫= sent n data) v t c ->
     v = n /\ t = current_term s1 /\ voted_for s1 = Some c) ->
  cluster_ok (perform w n s1 data acts).
Proof.
  intros [Hnodes [Hvoter Huniq]] Hn Hid Hpeers Hle Hdisk Hnew. split.
  { intros n' s' [[-> ->]|[Hne Hn']]%perform_nodes.
    - destruct (Hnodes n s Hn) as [_ Hmem _ Hterm Hd]. split; try done.
      + destruct Hle as [Hle _]. cbn in Hle. lia.
      + cbn. rewrite lookup_partial_alter_eq, disk_meta_write, Hd. done.
    - destruct (Hnodes n' s' Hn') as [? ? ? ? Hd]. split; try done.
      cbn. by rewrite lookup_partial_alter_ne by done. }
  assert (forall v t c, voted (network w) v t c ->
    exists s, nodes (perform w n s1 data acts) !! v = Some s /\ meta_le (t, Some c) (meta s)) as Hold.
  { intros v t c Hv. destruct (Hvoter v t c Hv) as (sv & Hsv & Hmle). cbn.
    destruct (decide (v = n)) as [->|Hne].
    - exists s1. rewrite lookup_insert_eq. split; [done|]. simplify_eq. by etrans.
    - exists sv. by rewrite lookup_insert_ne. }
  split.
  - intros v t c [Hv|Hv]%voted_app; [by apply Hold|].
    destruct (Hnew v t c Hv) as (-> & -> & Hc). exists s1. cbn. rewrite lookup_insert_eq.
    split; [done|]. split; cbn; [lia|]. intros _ c' [= <-]. done.
  - assert (forall v t c c', voted (network w) v t c -> voted (acts ≫= sent n data) v t c' -> c = c')
      as Hmix.
    { intros v t c c' Hv Hv'. destruct (Hnew v t c' Hv') as (-> & -> & Hc').
      destruct (Hold n _ c Hv) as (s2 & Hs2 & [_ Heq]). cbn in Hs2.
      rewrite lookup_insert_eq in Hs2. injection Hs2 as <-.
      specialize (Heq eq_refl c eq_refl). cbn in Heq. congruence. }
    intros v t c c' [Hv|Hv]%voted_app [Hv'|Hv']%voted_app; eauto.
    + symmetry; eauto.
    + destruct (Hnew v t c Hv) as (_ & _ & H1), (Hnew v t c' Hv') as (_ & _ & H2). congruence.
Qed.

Lemma initial_ok w : initial w -> cluster_ok w.
Proof.
  intros (Hdisks & Hnet & Hnodes). split.
  - intros n s Hn. destruct (Hnodes n s Hn) as [Hmem Hb].
    destruct (booted_meta _ _ _ Hb) as (? & ? & Hm & _). split; try done.
    + injection Hm as -> _. done.
    + rewrite Hdisks, lookup_empty. by rewrite Hm.
  - split; rewrite Hnet; unfold voted; set_solver.
Qed.

(** ** Steps *)

(** Which messages the network may deliver to a node in which state. *)
Context (deliverable : RaftCore -> Message -> Prop).


Definition admissible (w : Cluster) (n : NodeId) (s : RaftCore) (i : Input) : Prop :=
  match i with
  | InMessage m => (n, m) ∈ network w /\ deliverable s m
  | _ => True
  end.

Inductive cluster_step (w : Cluster) : Cluster -> Prop :=
| step_input n s i g data s' acts :
    nodes w !! n = Some s -> admissible w n s i -> term_room s ->
    core_input g s i = Done (s', acts) ->
    cluster_step w (perform w n s' data acts)
| step_crash n s i g data s' acts done_acts s0 :
    nodes w !! n = Some s -> admissible w n s i -> term_room s ->
    core_input g s i = Done (s', acts) -> done_acts `prefix_of` acts ->
    booted n (foldl write_disk (disks w !! n) done_acts) s0 ->
    cluster_step w (perform w n s0 data done_acts).

Definition steps : Cluster -> Cluster -> Prop := rtc cluster_step.

Definition reachable (w : Cluster) : Prop := exists w0, initial w0 /\ steps w0 w.

Lemma cluster_step_ok w w' : cluster_ok w -> cluster_step w w' -> cluster_ok w'.
Proof.
  intros Hok [n s i g data s' acts Hn _ Hroom Hi
             |n s i g data s' acts pre s0 Hn _ Hroom Hi Hpre Hboot];
    destruct (proj1 Hok n s Hn) as [Hid Hmem Hpeers Hterm Hd];
    (apply core_input_election in Hi as Hs; [|assumption..]).
  - eapply perform_ok; try done.
    + by rewrite (es_id _ _ _ _ Hs).
    + by rewrite (es_peers _ _ _ _ Hs).
    + by eapply election_step_meta_le.
    + destruct (es_shape _ _ _ _ Hs) as (wr & r & -> & Hw & Hr).
      by rewrite foldl_app, (meta_chain_write _ _ _ Hw), write_metadata_none.
    + intros v t c Hv. eapply sent_votes in Hv; naive_solver.
  - destruct (booted_meta _ _ _ Hboot) as (Hid0 & Hpeers0 & Hm0 & _).
    rewrite disk_meta_write, Hd in Hm0.
    destruct (election_step_prefix _ _ _ _ pre Hs Hpre) as [Hle Hsent].
    eapply perform_ok; try done.
    + by rewrite Hm0.
    + intros v t c Hv. eapply sent_votes in Hv as (-> & -> & Hvf & Hex); [|done..].
      specialize (Hsent Hex). rewrite Hsent in Hm0. injection Hm0 as Ht Hv0.
      split_and!; congruence.
Qed.

Lemma steps_ok w w' : cluster_ok w -> steps w w' -> cluster_ok w'.
Proof. intros Hok Hs. induction Hs; eauto using cluster_step_ok. Qed.

Lemma reachable_ok w : reachable w -> cluster_ok w.
Proof. intros (w0 & Hi & Hs). eauto using initial_ok, steps_ok. Qed.

Lemma cluster_step_network w w' : cluster_step w w' -> network w `prefix_of` network w'.
Proof. intros []; cbn; by eexists. Qed.

Lemma steps_network w w' : steps w w' -> network w `prefix_of` network w'.
Proof. induction 1; [done|]. etrans; [by eapply cluster_step_network|done]. Qed.
End cluster.

(** ** The role invariant

    A candidate has announced itself at its term, and every vote it counted
    was cast for it at that term. *)
Definition announced (net : list (NodeId * Message)) (s : RaftCore) : Prop :=
  forall p, p ∈ peers s -> exists req, (p, RequestVote req) ∈ net
    /\ rv_term req = current_term s /\ rv_candidate_id req = id s.

Definition counted (net : list (NodeId * Message)) (s : RaftCore) : Prop :=
  forall v, v ∈ votes_received s ->
    v = id s \/ (id s, RequestVoteResponse (mkRequestVoteResponseRPC v (current_term s) true)) ∈ net.

Record role_ok (net : list (NodeId * Message)) (s : RaftCore) : Prop := {
  ro_vote : state s <> Follower -> voted_for s = Some (id s);
  ro_announced : state s <> Follower -> announced net s;
  ro_counted : state s <> Follower -> counted net s;
  ro_quorum : state s = Leader -> has_quorum s;
}.

Lemma role_ok_follower net s : state s = Follower -> role_ok net s.
Proof. intros H. split; rewrite H; done. Qed.

Lemma role_ok_mono net net' s : net `prefix_of` net' -> role_ok net s -> role_ok net' s.
Proof.
  intros [k ->] [H1 H2 H3 H4]. split; auto.
  - intros Hs p Hp. destruct (H2 Hs p Hp) as (req & ? & ?). exists req. set_solver.
  - intros Hs v Hv. destruct (H3 Hs v Hv); set_solver.
Qed.
(** ** Networks that do not deliver stale votes

    [handle_request_vote_response] does not compare the response's term with
    its own, so a vote of an earlier term would be counted; on a network that
    drops responses of past terms the count is right. *)
Definition fresh_votes (s : RaftCore) (m : Message) : Prop :=
  match m with
  | RequestVoteResponse resp => current_term s <= rvr_term resp
  | _ => True
  end.

Section election_safety.
Context (cfg : Config).

Definition safe (w : Cluster) : Prop :=
  cluster_ok cfg w /\ forall n s, nodes w !! n = Some s -> role_ok (network w) s.

Lemma role_ok_step net net' s i s' acts :
  election_step s i s' acts -> role_ok net s -> net `prefix_of` net' ->
  (forall p req, SendMessage p (RequestVote req) ∈ acts -> (p, RequestVote req) ∈ net') ->
  (forall m, i = InMessage m -> (id s, m) ∈ net /\ fresh_votes s m) ->
  role_ok net' s'.
Proof.
  intros Hs Hok Hpre Hsend Hmsg. pose proof (role_ok_mono _ _ _ Hpre Hok) as [Hv Ha Hc Hq].
  pose proof (es_id _ _ _ _ Hs) as Hid. pose proof (es_peers _ _ _ _ Hs) as Hpeers.
  destruct (election_step_meta_le _ _ _ _ Hs) as [_ Hvote]. cbn in Hvote.
  unfold announced, counted, has_quorum in *.
  destruct (es_role _ _ _ _ Hs) as [Hst | Hst Ht Hvr | Hi Hst Ht Hvr Hvf Hreq | resp -> Hg Hle Hcand Ht Hvr Hst'].
  - by apply role_ok_follower.
  - unfold announced, counted, has_quorum in *.
    split; unfold announced, counted, has_quorum; rewrite ?Hst, ?Hid, ?Hpeers, ?Ht, ?Hvr; auto.
  - split; unfold announced, counted, has_quorum; rewrite ?Hid, ?Hpeers, ?Hvr; auto.
    + intros _ p Hp. destruct (Hreq p Hp) as (req & Hin & ? & ?). exists req. auto.
    + set_solver.
    + congruence.
  - assert (state s <> Follower) as Hnf by congruence.
    destruct (Hmsg _ eq_refl) as [Hin Hfresh]. cbn in Hfresh.
    assert (resp = mkRequestVoteResponseRPC (rvr_id resp) (current_term s) true) as Hresp.
    { destruct resp as [v t b]; cbn in *. f_equal; [lia|done]. }
    split; unfold announced, counted; rewrite ?Hid, ?Hpeers, ?Ht, ?Hvr; auto.
    + intros _ v [->%elem_of_singleton|Hv']%elem_of_union; [|by apply Hc].
      right. rewrite <- Hresp. destruct Hpre as [k ->]. set_solver.
    + intros Hl. destruct Hst' as [|[_ ?]]; [congruence|done].
Qed.

Lemma cluster_step_safe w w' :
  safe w -> cluster_step cfg fresh_votes w w' -> safe w'.
Proof.
  intros [Hok Hrole] Hstep. pose proof (cluster_step_ok _ _ _ _ Hok Hstep) as Hok'.
  pose proof (cluster_step_network _ _ _ _ Hstep) as Hpre. split; [done|].
  destruct Hstep as [n s i g data s' acts Hn Hadm Hroom Hi
                    |n s i g data s' acts pre s0 Hn _ Hroom Hi _ Hboot];
    intros n' s1 [[-> ->]|[Hne Hn']]%perform_nodes; try (eapply role_ok_mono; eauto; fail).
  - destruct (proj1 Hok n s Hn) as [Hid _ _ Hterm _].
    apply core_input_election in Hi as Hs; [|assumption..].
    eapply role_ok_step; [done|by eapply Hrole|done| |].
    + intros p req Hin. cbn. apply elem_of_app. right.
      apply list_elem_of_bind. exists (SendMessage p (RequestVote req)). set_solver.
    + intros m ->. by rewrite Hid.
  - apply role_ok_follower. by destruct (booted_meta _ _ _ _ Hboot) as (_ & _ & _ & ?).
Qed.

Lemma steps_safe w w' : safe w -> steps cfg fresh_votes w w' -> safe w'.
Proof. intros Hok Hs. induction Hs; eauto using cluster_step_safe. Qed.

Lemma initial_safe w : initial cfg w -> safe w.
Proof.
  intros Hi. split; [by apply initial_ok|]. destruct Hi as (_ & _ & Hn). intros n s Hs.
  destruct (Hn n s Hs) as [_ Hb]. apply role_ok_follower.
  by destruct (booted_meta _ _ _ _ Hb) as (_ & _ & _ & ?).
Qed.

Lemma reachable_safe w : reachable cfg fresh_votes w -> safe w.
Proof. intros (w0 & Hi & Hs). eauto using initial_safe, steps_safe. Qed.
End election_safety.
