(* ===== verification/CoreReplication.v ===== *)
(** Log replication on the follower: the append loop against a reference
    merge, and the conflict search. *)

From S2P Require Import Prelude Types RaftCore CoreLog CoreFrame.

(** ** The reference merge

    Entries that agree on their terms are kept as they are; from the first
    disagreement on, the follower's log is the leader's. *)
Fixpoint merge_entries (old new : list LogEntry) : list LogEntry :=
  match new, old with
  | [], _ => old
  | _, [] => new
  | e :: new', o :: old' =>
      if e_term o =? e_term e then o :: merge_entries old' new' else e :: new'
  end.

Lemma merge_entries_nil_l new : merge_entries [] new = new.
Proof. by destruct new. Qed.

Lemma merge_entries_nil_r old : merge_entries old [] = old.
Proof. by destruct old. Qed.

Lemma merge_entries_length old new :
  (length new <= length (merge_entries old new) <= length old + length new)%nat.
Proof.
  revert old. induction new as [|e new IH]; intros [|o old]; cbn; try lia.
  case_match; cbn; [|lia]. specialize (IH old). lia.
Qed.

Lemma len_merge_entries old new :
  len new <= len (merge_entries old new) <= len old + len new.
Proof. pose proof (merge_entries_length old new). unfold len. lia. Qed.

(** The merged log carries the leader's terms. *)
Lemma merge_entries_terms old new j e :
  new !! j = Some e ->
  exists o, merge_entries old new !! j = Some o /\ e_term o = e_term e.
Proof.
  revert old j. induction new as [|e' new IH]; intros [|o old] j Hj; try done.
  - rewrite merge_entries_nil_l. by exists e.
  - cbn [merge_entries]. destruct (Z.eqb_spec (e_term o) (e_term e')) as [Heq|].
    + destruct j as [|j]; cbn in *; [exists o; naive_solver|]. by apply IH.
    + by exists e.
Qed.

(** A prefix of the follower's log on which the leader agrees survives. *)
Lemma merge_entries_agree m old new :
  (forall j o e, (j < m)%nat -> old !! j = Some o -> new !! j = Some e -> e_term o = e_term e) ->
  (m <= length old)%nat ->
  take m (merge_entries old new) = take m old.
Proof.
  revert old new. induction m as [|m IH]; intros old new Hag Hm; [by rewrite !take_0|].
  destruct old as [|o old]; cbn in Hm; [lia|]. destruct new as [|e new]; [done|].
  cbn [merge_entries]. rewrite (Hag 0%nat o e), Z.eqb_refl by (done || len_lia). cbn. f_equal.
  apply IH; [|lia]. intros j o' e' Hj Ho He. apply (Hag (S j)); [lia|done..].
Qed.

(** Where equal terms mean equal entries, the leader's entries are a prefix. *)
Lemma merge_entries_matching old new :
  (forall j o e, old !! j = Some o -> new !! j = Some e -> e_term o = e_term e -> o = e) ->
  new `prefix_of` merge_entries old new.
Proof.
  revert old. induction new as [|e new IH]; intros [|o old] Hm; try done.
  - apply prefix_nil.
  - cbn [merge_entries]. destruct (Z.eqb_spec (e_term o) (e_term e)) as [Heq|]; [|done].
    rewrite (Hm 0%nat o e) by done. apply prefix_cons, IH.
    intros j o' e' Ho He. by apply (Hm (S j)).
Qed.

Lemma merge_entries_whole old new :
  (forall j o e, old !! j = Some o -> new !! j = Some e -> e_term o = e_term e -> o = e) ->
  merge_entries old new = if decide (new `prefix_of` old) then old else new.
Proof.
  revert old. induction new as [|e new IH]; intros old Hm.
  { rewrite merge_entries_nil_r. by rewrite decide_True by apply prefix_nil. }
  destruct old as [|o old]; cbn [merge_entries].
  { rewrite decide_False; [done|]. by intros ?%prefix_nil_inv. }
  destruct (Z.eqb_spec (e_term o) (e_term e)) as [Heq|Hne].
  - rewrite (Hm 0%nat o e), IH by (done || (intros j o' e' ? ?; by apply (Hm (S j)))).
    destruct (decide (new `prefix_of` old)).
    + by rewrite decide_True by (by apply prefix_cons).
    + rewrite decide_False; [done|]. by intros ?%prefix_cons_inv_2.
  - rewrite decide_False; [done|]. intros ->%prefix_cons_inv_1. done.
Qed.

(** The loop computes the merge. *)
Lemma append_loop_merge entries s i :
  0 <= last_included_index s ->
  last_included_index s + len (log s) + len entries + 2 < U64 ->
  last_included_index s < i <= last_included_index s + len (log s) + 1 ->
  append_loop s i entries =
  Done (s <| log := take (Z.to_nat (i - last_included_index s - 1)) (log s)
               ++ merge_entries (drop (Z.to_nat (i - last_included_index s - 1)) (log s)) entries |>).
Proof.
  revert s i. induction entries as [|e entries IH]; intros s i Hnn Hfit Hi; cbn [append_loop].
  { rewrite merge_entries_nil_r, take_drop. by destruct s. }
  assert (log_fits s) as Hf by (split; len_lia).
  rewrite last_log_index_eq by done. set (k := Z.to_nat (i - last_included_index s - 1)).
  autorewrite with len in Hfit.
  rewrite (u64_add_small i 1) by len_lia.
  destruct (Z.leb_spec i (last_included_index s + len (log s))) as [Hle|Hgt].
  - rewrite log_term_at_above by (done || len_lia). fold k.
    destruct (lookup_lt_is_Some_2 (log s) k) as [o Ho]; [unfold k, len in *; lia|].
    rewrite Ho. cbn [fmap option_fmap option_map unwrap mbind exec_bind].
    rewrite (drop_S _ _ _ Ho). cbn [merge_entries].
    destruct (Z.eqb_spec (e_term o) (e_term e)) as [Heq|Hne].
    + rewrite IH by len_lia.
      replace (Z.to_nat (i + 1 - last_included_index s - 1)) with (S k) by (unfold k; lia).
      by rewrite (take_S_r _ _ _ Ho), <- app_assoc.
    + rewrite adjusted_index by (done || len_lia). cbn [log modify field_log].
      assert (len (take k (log s)) = i - last_included_index s - 1) as Htk
        by (unfold len, k in *; rewrite length_take; lia).
      rewrite vec_truncate_spec by (unfold len in *; lia). fold k.
      rewrite IH; cbn [log last_included_index modify field_log]; try (autorewrite with len; lia).
      rewrite take_ge, drop_ge by (unfold len in *; rewrite length_app, length_take in *; cbn; lia).
      rewrite merge_entries_nil_l, <- app_assoc. cbn. by destruct s.
  - rewrite IH; cbn [log last_included_index modify field_log]; try (autorewrite with len; lia).
    assert (k = length (log s)) as -> by (unfold k, len in *; lia).
    rewrite take_ge, drop_ge by (rewrite length_app; unfold len in *; cbn; lia).
    rewrite take_ge, drop_ge by lia. rewrite !merge_entries_nil_l, <- app_assoc. cbn. by destruct s.
Qed.

(** ** The conflict search *)

(** The term the search sees at an index. *)
Definition term_or_0 (s : RaftCore) (i : Z) : Z := default 0 (log_term_at s i).

Lemma find_conflicting_index_spec s ct n :
  Z.of_nat n < U64 ->
  match find_conflicting_index s ct n with
  | Some i => 0 < i <= Z.of_nat n /\ term_or_0 s (i - 1) <> ct
              /\ (forall j, i <= j < Z.of_nat n -> term_or_0 s j = ct)
  | None => forall j, 0 <= j < Z.of_nat n -> term_or_0 s j = ct
  end.
Proof.
  induction n as [|n IH]; intros Hn; cbn [find_conflicting_index]; [lia|].
  fold (term_or_0 s (Z.of_nat n)). destruct (Z.eqb_spec (term_or_0 s (Z.of_nat n)) ct) as [Heq|Hne].
  - specialize (IH ltac:(lia)). destruct (find_conflicting_index s ct n).
    + destruct IH as (H1 & H2 & H3). split_and!; [lia..|done|].
      intros j Hj. destruct (Z.eq_dec j (Z.of_nat n)) as [->|]; [done|]. apply H3; lia.
    + intros j Hj. destruct (Z.eq_dec j (Z.of_nat n)) as [->|]; [done|]. apply IH; lia.
  - rewrite u64_add_small by lia. split_and!; [lia..| |lia].
    by replace (Z.of_nat n + 1 - 1) with (Z.of_nat n) by lia.
Qed.
