(* ===== verification/CoreInvariant.v ===== *)
(** The well-formedness invariant of a node and the contract of its inputs:
    under both, every input of the core returns (no unwrap fails, no slice is
    out of range, nothing wraps) and re-establishes the invariant. *)

From S2P Require Import Prelude Types RaftCore CoreLog CoreFrame CoreReplication CoreElection.

(** [n] more entries keep the log within the index space. *)
Definition room (s : RaftCore) (n : Z) : Prop :=
  last_included_index s + len (log s) + n + 2 < U64.

Record core_wf (s : RaftCore) : Prop := {
  wf_fits : log_fits s;
  wf_range : (election_timeout_range s).1 < (election_timeout_range s).2;
  wf_term : 0 <= current_term s;
  wf_applied : last_applied s = commit_index s;
  wf_commit : last_included_index s <= commit_index s <= last_included_index s + len (log s);
  wf_next : map_Forall (fun _ v => is_u64 v) (next_index s);
  wf_match_dom : forall n v, match_index s !! n = Some v -> n ∈ peers s;
  wf_match : state s = Leader ->
    map_Forall (fun _ v => 0 <= v <= last_included_index s + len (log s)) (match_index s);
}.

(** ** The contract *)

(** The node takes the entries of [req]. *)
Definition accepts (s : RaftCore) (req : AppendEntriesRPC) : Prop :=
  (current_term s < ae_term req \/ (ae_term req = current_term s /\ state s <> Leader))
  /\ prev_log_valid s req = true.

(** The leader's entries agree with what this node has committed. *)
Definition committed_agrees (s : RaftCore) (req : AppendEntriesRPC) : Prop :=
  forall j e, ae_entries req !! j = Some e ->
    ae_prev_log_index req + 1 + Z.of_nat j <= commit_index s ->
    log_term_at s (ae_prev_log_index req + 1 + Z.of_nat j) = Some (e_term e).

Definition append_ok (s : RaftCore) (req : AppendEntriesRPC) : Prop :=
  0 <= ae_prev_log_index req /\ ae_prev_log_index req + len (ae_entries req) + 2 < U64
  /\ room s (len (ae_entries req)) /\ is_u64 (ae_leader_commit req)
  /\ (accepts s req -> last_included_index s <= ae_prev_log_index req /\ committed_agrees s req).

Definition append_response_ok (s : RaftCore) (resp : AppendEntriesResponseRPC) : Prop :=
  if aer_success resp then
    state s = Leader /\ aer_term resp <= current_term s /\ aer_id resp ∈ peers s
    /\ 0 <= aer_match_index resp <= last_log_index s
  else forall i, aer_first_conflicting_index resp = Some i -> is_u64 i.

Definition snapshot_ok (s : RaftCore) (req : InstallSnapshotRPC) : Prop :=
  0 <= is_last_included_index req /\ is_last_included_index req + 2 < U64
  /\ (is_term req = current_term s -> state s <> Leader)
  /\ (last_included_index s < is_last_included_index req <= commit_index s ->
      log_term_at s (is_last_included_index req) = Some (is_last_included_term req)).

Definition input_ok (s : RaftCore) (i : Input) : Prop :=
  match i with
  | InPropose _ => room s 1
  | InMessage (RequestVoteResponse _) => room s 1
  | InMessage (AppendEntries req) => append_ok s req
  | InMessage (AppendEntriesResponse resp) => append_response_ok s resp
  | InMessage (InstallSnapshotMsg req) => snapshot_ok s req
  | InMessage (InstallSnapshotResponse resp) =>
      isr_id resp ∈ peers s /\ 0 <= isr_last_included_index resp <= last_log_index s
  | _ => True
  end.

(** ** Transport of the invariant *)

(** Same log, indices and bookkeeping; leadership is not gained. *)
Record same_data (s s' : RaftCore) : Prop := {
  sd_log : same_log s s';
  sd_commit : commit_index s' = commit_index s;
  sd_applied : last_applied s' = last_applied s;
  sd_range : election_timeout_range s' = election_timeout_range s;
  sd_next : next_index s' = next_index s;
  sd_match : match_index s' = match_index s;
  sd_peers : peers s' = peers s;
  sd_leader : state s' = Leader -> state s = Leader;
  sd_term : 0 <= current_term s';
}.

Lemma same_data_trans s s1 s2 : same_data s s1 -> same_data s1 s2 -> same_data s s2.
Proof.
  intros [A1 A2 A3 A4 A5 A6 A7 A8 A9] [B1 B2 B3 B4 B5 B6 B7 B8 B9].
  split; try congruence; [by etrans|auto].
Qed.

Lemma core_wf_same_data s s' : same_data s s' -> core_wf s -> core_wf s'.
Proof.
  intros [Hl Hc Ha Hr Hn Hm Hp Hst Ht] [W1 W2 W3 W4 W5 W6 W7 W8].
  pose proof Hl as (Hlog & Hlii & _). split.
  - by rewrite <- Hl.
  - by rewrite Hr.
  - lia.
  - by rewrite Ha, Hc.
  - by rewrite Hc, <- Hlog, <- Hlii.
  - by rewrite Hn.
  - by rewrite Hm, Hp.
  - intros Hs. rewrite Hm, <- Hlog, <- Hlii. auto.
Qed.

Lemma reset_returns g k s :
  core_wf s -> exists timeout,
    reset_election_timeout g k s =
    Done (s <| ticks_since_last_heartbeat := 0 |> <| election_timeout := timeout |>).
Proof.
  intros [_ Hr _ _ _ _ _ _]. unfold reset_election_timeout, random_range. cbn.
  destruct (Z.ltb_spec (election_timeout_range s).1 (election_timeout_range s).2); [|lia].
  by eexists.
Qed.

Lemma check_returns g s t :
  core_wf s -> exists s1 o, check_msg_term g s t = Done (s1, o) /\ core_wf s1 /\ same_data s s1
    /\ ((t <= current_term s /\ s1 = s /\ o = None)
        \/ (current_term s < t /\ o = Some [PersistMetadata t None]
            /\ exists timeout, s1 = stepped_down s t timeout)).
Proof.
  intros Hwf. unfold check_msg_term. destruct (Z.ltb_spec (current_term s) t).
  - pose proof (wf_range _ Hwf). pose proof (wf_term _ Hwf).
    unfold reset_election_timeout, random_range. cbn.
    destruct (Z.ltb_spec (election_timeout_range s).1 (election_timeout_range s).2); [|lia].
    cbn. do 2 eexists. split; [reflexivity|].
    assert (same_data s (stepped_down s t
      (g 0%nat (election_timeout_range s).1 (election_timeout_range s).2))) as Hsd.
    { split; cbn; try done; lia. }
    split_and!; [by eapply core_wf_same_data|done|]. right. split_and!; [done..|]. by eexists.
  - exists s, None. split_and!; [done..| |by left]. split; try done. apply Hwf.
Qed.

Ltac same_data_tac := split; cbn; try done; try lia.

(** ** Reading the log never fails *)
Lemma last_log_term_returns s : core_wf s -> exists t, last_log_term s = Done t.
Proof. intros Hwf. apply last_log_term_Done, Hwf. Qed.

Lemma build_append_entries_returns s p :
  log_fits s -> map_Forall (fun _ v => is_u64 v) (next_index s) ->
  exists a, build_append_entries_for_peer s p = Done a.
Proof.
  intros Hf Hnext. unfold build_append_entries_for_peer.
  set (nx := default (last_log_index s) (next_index s !! p)).
  assert (is_u64 nx) as Hnx.
  { unfold nx. destruct (next_index s !! p) as [v|] eqn:Hv; cbn; [by eapply Hnext|].
    rewrite last_log_index_eq by done. destruct Hf. unfold is_u64. len_lia. }
  set (prev := if 0 <? nx then nx -! 1 else 0).
  assert (prev = Z.max 0 (nx - 1)) as Hprev.
  { unfold prev, is_u64 in *. destruct (Z.ltb_spec 0 nx); [rewrite u64_sub_small|]; lia. }
  destruct (log_term_at s prev) as [t|] eqn:Ht; [|by eexists].
  assert (last_included_index s <= prev <= last_log_index s) as Hrange.
  { apply log_term_at_is_Some; [done|unfold is_u64 in *; lia|by eexists]. }
  destruct (Z.leb_spec nx (last_included_index s)) as [Hle|Hgt].
  - rewrite log_slice_below by done. by eexists.
  - rewrite log_slice_suffix by (done || (unfold is_u64 in *; lia)). by eexists.
Qed.

Lemma append_entries_returns s :
  log_fits s -> map_Forall (fun _ v => is_u64 v) (next_index s) ->
  exists acts, append_entries s = Done acts.
Proof.
  intros Hf Hn. unfold append_entries. generalize (peers s).
  induction l as [|p ps [acts IH]]; [by eexists|]. cbn.
  destruct (build_append_entries_returns s p Hf Hn) as [a ->]. cbn. rewrite IH. by eexists.
Qed.

(** ** The handlers *)
Lemma tick_wf g s : core_wf s -> returns (tick g s) (fun r => core_wf r.1).
Proof.
  intros Hwf. unfold tick. cbn.
  set (s1 := s <| ticks_since_last_heartbeat := ticks_since_last_heartbeat s +! 1 |>).
  assert (core_wf s1) as Hwf1 by (eapply core_wf_same_data; [|done]; same_data_tac; apply Hwf).
  assert (returns (on_election_timeout g s1) (fun r => core_wf r.1)) as Htimeout.
  { unfold on_election_timeout. case_match; [|done].
    set (s2 := s1 <| current_term := _ |> <| state := Candidate |> <| current_leader := None |>
      <| votes_received := ∅ |> <| voted_for := _ |> <| votes_received := _ |>).
    assert (core_wf s2) as Hwf2.
    { eapply core_wf_same_data; [|exact Hwf1]. same_data_tac. apply u64_add_range. }
    destruct (reset_returns g 0 s2 Hwf2) as [to ->]. cbn [mbind exec_bind].
    set (s3 := s2 <| ticks_since_last_heartbeat := 0 |> <| election_timeout := to |>).
    assert (core_wf s3) as Hwf3 by (eapply core_wf_same_data; [|exact Hwf2]; same_data_tac; apply Hwf2).
    destruct (last_log_term_returns s3 Hwf3) as [lt ->]. done. }
  destruct (state s); [|done..]. unfold heartbeat. case_match; [|done].
  destruct (append_entries_returns s1 (wf_fits _ Hwf1) (wf_next _ Hwf1)) as [acts ->]. cbn.
  eapply core_wf_same_data; [|exact Hwf1]. same_data_tac. apply Hwf.
Qed.

Lemma request_vote_wf g s req :
  core_wf s -> returns (handle_request_vote g s req) (fun r => core_wf r.1).
Proof.
  intros Hwf. unfold handle_request_vote.
  destruct (check_returns g s (rv_term req) Hwf) as (s1 & o & -> & Hwf1 & _ & _). cbn.
  case_match; [done|]. destruct (last_log_term_returns s1 Hwf1) as [lt ->]. cbn.
  case_match; [|done]. destruct (reset_returns g 1 s1 Hwf1) as [to ->]. cbn.
  eapply core_wf_same_data; [|exact Hwf1]. same_data_tac. apply Hwf1.
Qed.

(** The log grows at its end; the bookkeeping is [ni] and [mi]. *)
Lemma core_wf_push s e ni mi :
  core_wf s -> room s 1 ->
  map_Forall (fun _ v => is_u64 v) ni ->
  (forall n v, mi !! n = Some v -> n ∈ peers s) ->
  (state s = Leader -> map_Forall (fun _ v => 0 <= v <= last_included_index s + len (log s)) mi) ->
  core_wf (s <| log := log s ++ [e] |> <| next_index := ni |> <| match_index := mi |>).
Proof.
  intros [W1 W2 W3 W4 W5 W6 W7 W8] Hroom Hni Hdom Hmi. unfold room in Hroom. destruct W1.
  split; cbn; try done; [split; cbn; len_lia|len_lia|].
  intros Hs n v Hv. specialize (Hmi Hs n v Hv). cbn in Hmi. len_lia.
Qed.

Lemma leader_maps ps s :
  exists ni mi,
    foldl (fun s peer =>
      s <| next_index := <[peer:=last_log_index s +! 1]> (next_index s) |>
        <| match_index := <[peer:=0]> (match_index s) |>) s ps
    = s <| next_index := ni |> <| match_index := mi |>
    /\ (forall q, ni !! q = if decide (q ∈ ps) then Some (last_log_index s +! 1) else next_index s !! q)
    /\ (forall q, mi !! q = if decide (q ∈ ps) then Some 0 else match_index s !! q).
Proof.
  revert s. induction ps as [|p ps IH]; intros s; cbn [foldl].
  { exists (next_index s), (match_index s). split_and!; [by destruct s|..];
      intros q; by rewrite decide_False by apply not_elem_of_nil. }
  edestruct (IH (s <| next_index := <[p:=last_log_index s +! 1]> (next_index s) |>
                 <| match_index := <[p:=0]> (match_index s) |>)) as (ni & mi & -> & Hni & Hmi).
  exists ni, mi. split_and!; [by destruct s|..]; intros q; rewrite ?Hni, ?Hmi; cbn;
    (destruct (decide (q = p)) as [->|];
      [rewrite (decide_True (P := p ∈ p :: ps)) by left; rewrite lookup_insert_eq; by case_decide|]);
    rewrite lookup_insert_ne by done; do 2 case_decide; done || set_solver.
Qed.

Lemma initialize_leader_returns s :
  log_fits s -> room s 1 -> (forall n v, match_index s !! n = Some v -> n ∈ peers s) ->
  exists ni mi, let s' := s <| log := log s ++ [mkLogEntry (current_term s) []] |>
                            <| next_index := ni |> <| match_index := mi |> in
    initialize_leader_state s =
      Done (s', PersistLogEntries (last_log_index s') [mkLogEntry (current_term s) []])
    /\ (forall q, ni !! q = if decide (q ∈ peers s) then Some (last_log_index s' +! 1) else next_index s !! q)
    /\ (forall q, mi !! q = if decide (q ∈ peers s) then Some 0 else None).
Proof.
  intros Hf Hroom Hdom. unfold initialize_leader_state.
  set (s1 := s <| log := log s ++ [mkLogEntry (current_term s) []] |>).
  destruct (leader_maps (peers s1) s1) as (ni & mi & -> & Hni & Hmi).
  exists ni, mi. cbn. split_and!; [|done|].
  - change (log_slice _ _ _) with (log_slice s1 (last_log_index s1) (last_log_index s1 +! 1)).
    unfold s1. rewrite log_slice_pushed; [done|]. destruct Hf.
    unfold room in Hroom. split; cbn; len_lia.
  - intros q. rewrite Hmi. change (peers s1) with (peers s). case_decide as Hq; [done|].
    destruct (match_index s1 !! q) eqn:Hm; [|done].
    destruct Hq. by eapply Hdom.
Qed.

Lemma vote_response_wf g s resp :
  core_wf s -> room s 1 -> returns (handle_request_vote_response g s resp) (fun r => core_wf r.1).
Proof.
  intros Hwf Hroom. unfold handle_request_vote_response.
  destruct (check_returns g s (rvr_term resp) Hwf) as (s1 & o & -> & Hwf1 & Hsd & _).
  cbn [mbind exec_bind]. case_bool_decide; [done|]. case_match; [|done]. cbv zeta.
  assert (room s1 1) as Hroom1.
  { destruct Hsd as [(Hlog & Hlii & _) _ _ _ _ _ _ _ _]. unfold room in *. by rewrite <- Hlog, <- Hlii. }
  assert (core_wf (s1 <| votes_received := {[rvr_id resp]} ∪ votes_received s1 |>)) as Hwf2
    by (eapply core_wf_same_data; [|exact Hwf1]; same_data_tac; apply Hwf1).
  case_match; [|done].
  set (s3 := s1 <| votes_received := {[rvr_id resp]} ∪ votes_received s1 |> <| state := Leader |>
                <| current_leader := _ |>).
  destruct (initialize_leader_returns s3) as (ni & mi & -> & Hni & Hmi);
    [apply Hwf1|done|apply Hwf1|]. cbn [mbind exec_bind].
  set (s4 := s3 <| log := _ |> <| next_index := ni |> <| match_index := mi |>).
  assert (core_wf s4) as Hwf4.
  { destruct Hwf1 as [[] W2 W3 W4 W5 W6 W7 W8]. unfold room in Hroom1.
    split; cbn; try done; [split; cbn; len_lia|len_lia|..].
    - intros q v. rewrite Hni. case_decide; [intros [= <-]; apply u64_add_range|apply W6].
    - intros q v. rewrite Hmi. by case_decide.
    - intros _ q v. rewrite Hmi. case_decide; [intros [= <-]; len_lia|done]. }
  destruct (reset_returns g 1 s4 Hwf4) as [to ->]. cbn [mbind exec_bind].
  destruct (append_entries_returns (s4 <| ticks_since_last_heartbeat := 0 |>
    <| election_timeout := to |>)) as [acts ->]; [apply Hwf4|apply Hwf4|].
  cbn -[s4]. eapply core_wf_same_data; [|exact Hwf4]. same_data_tac. apply Hwf4.
Qed.

(** The result of the append loop. *)
Lemma append_loop_wf s i entries :
  core_wf s -> room s (len entries) ->
  last_included_index s < i <= last_included_index s + len (log s) + 1 -> state s <> Leader ->
  (forall j e, entries !! j = Some e -> i + Z.of_nat j <= commit_index s ->
     log_term_at s (i + Z.of_nat j) = Some (e_term e)) ->
  exists l, append_loop s i entries = Done (s <| log := l |>)
    /\ i + len entries <= last_included_index s + len l + 1
    /\ core_wf (s <| log := l |>).
Proof.
  intros [W1 W2 W3 W4 W5 W6 W7 W8] Hroom Hi Hst Hagree. pose proof W1 as [Hnn Hfit].
  unfold room in Hroom. eexists. split; [apply append_loop_merge; len_lia|].
  set (k := Z.to_nat (i - last_included_index s - 1)).
  assert (len (take k (log s)) = i - last_included_index s - 1) as Hk by (apply len_take; lia).
  assert (len (drop k (log s)) = len (log s) - (i - last_included_index s - 1)) as Hd
    by (apply len_drop; lia).
  pose proof (len_merge_entries (drop k (log s)) entries) as Hm.
  split; [len_lia|]. split; cbn; try done; [split; cbn; len_lia|].
  split; [lia|]. rewrite len_app, Hk.
  destruct (Z.leb_spec i (commit_index s)) as [Hlt|Hlt]; [|len_lia].
  set (m := Z.to_nat (commit_index s - i + 1)).
  assert (take m (merge_entries (drop k (log s)) entries) = take m (drop k (log s))) as Htake.
  { apply merge_entries_agree; [|unfold len, m in *; lia]. intros j o e Hj Ho He.
    specialize (Hagree j e He ltac:(unfold m in *; lia)).
    rewrite log_term_at_above in Hagree by (done || lia). rewrite lookup_drop in Ho.
    replace (k + j)%nat with (Z.to_nat (i + Z.of_nat j - last_included_index s - 1)) in Ho
      by (unfold k; lia).
    rewrite Ho in Hagree. by injection Hagree. }
  apply (f_equal length) in Htake. rewrite !length_take in Htake. unfold len, m in *. lia.
Qed.

#[export] Instance prev_log_valid_proper : Proper (same_log ==> eq ==> eq) prev_log_valid.
Proof.
  intros s s' H req ? <-. unfold prev_log_valid.
  by rewrite (last_log_index_proper _ _ H), (log_term_at_proper _ _ H _ _ eq_refl).
Qed.

Lemma prev_log_valid_range s req :
  log_fits s -> 0 <= ae_prev_log_index req < U64 ->
  prev_log_valid s req = true -> last_included_index s <= ae_prev_log_index req ->
  ae_prev_log_index req <= last_included_index s + len (log s).
Proof.
  intros Hf Hu Hv Hlii. pose proof Hf as []. unfold prev_log_valid in Hv.
  apply orb_prop in Hv as [Hv%Z.eqb_eq|[Hv%Z.leb_le _]%andb_prop]; [len_lia|].
  by rewrite last_log_index_eq in Hv.
Qed.

Lemma follower_commit_wf s c :
  core_wf s -> is_u64 c -> state s <> Leader ->
  returns (follower_commit s c) (fun r => core_wf r.1).
Proof.
  intros Hwf Hc Hst. pose proof Hwf as [W1 W2 W3 W4 W5 W6 W7 W8]. pose proof W1 as [Hnn Hfit].
  unfold follower_commit. destruct (Z.ltb_spec (commit_index s) c); [|done].
  cbn -[Z.min]. rewrite last_log_index_eq by done.
  set (c' := Z.min c (last_included_index s + len (log s))).
  change (log_slice (s <| commit_index := c' |>)) with (log_slice s).
  assert (commit_index s <= c' <= last_included_index s + len (log s)) by (unfold c'; lia).
  rewrite !u64_add_small by len_lia.
  rewrite log_slice_eq by (done || (rewrite ?last_log_index_eq by done; lia)). cbn -[c'].
  split; cbn -[c']; try done. lia.
Qed.

(** The state after stepping down from a candidacy at the message's term. *)
Lemma step_down_candidate_wf (b : bool) s : core_wf s ->
  let s' := if b && bool_decide (state s = Candidate) then s <| state := Follower |> else s in
  core_wf s' /\ same_data s s'.
Proof.
  intros Hwf. assert (same_data s s) as Hs by (same_data_tac; apply Hwf).
  cbn. case_match; [|done].
  assert (same_data s (s <| state := Follower |>)) as Hsd by (same_data_tac; apply Hwf).
  split; [by eapply core_wf_same_data|done].
Qed.

(** The node's log is open to [req]: its term is current and it is no leader
    of that term. *)
Definition term_accepted (s : RaftCore) (req : AppendEntriesRPC) : Prop :=
  current_term s < ae_term req \/ (ae_term req = current_term s /\ state s <> Leader).

(** The metadata write of a step down. *)
Definition step_down_write (s : RaftCore) (t : Z) : list Action :=
  if current_term s <? t then [PersistMetadata t None] else [].

(** The metadata after the term check of a message of term [t]. *)
Definition stepped_meta (s : RaftCore) (t : Z) : metadata :=
  if current_term s <? t then (t, None) else meta s.

Lemma false_append_response_eq s s' :
  id s = id s' -> current_term s = current_term s' -> same_log s s' ->
  false_append_response s = false_append_response s'.
Proof.
  intros H1 H2 H3. unfold false_append_response.
  by rewrite H1, H2, (last_log_index_proper _ _ H3).
Qed.

#[export] Instance term_accepted_dec s req : Decision (term_accepted s req).
Proof. unfold term_accepted. apply _. Defined.

(** An append of an earlier term, or one that reaches a leader of its term. *)
Lemma append_entries_stale g s req :
  core_wf s -> ~ term_accepted s req ->
  handle_append_entries g s req = Done (s, [append_response req (false_append_response s None None)]).
Proof.
  intros Hwf Hn. unfold handle_append_entries, term_accepted in *.
  destruct (check_returns g s (ae_term req) Hwf) as (s1 & o & -> & _ & _ & [(Hle & -> & ->)|(Hlt & _)]); [|lia].
  cbn [mbind exec_bind default]. cbv zeta.
  assert ((ae_term req =? current_term s) && bool_decide (state s = Candidate) = false) as ->.
  { apply not_true_iff_false. intros [?%Z.eqb_eq Hc%bool_decide_eq_true]%andb_true_iff.
    apply Hn. right. by rewrite Hc. }
  case_bool_decide as Hst; [done|]. destruct (Z.ltb_spec (ae_term req) (current_term s)); [done|].
  destruct Hn. right. split; [lia|]. by rewrite Hst.
Qed.

(** The part of [handle_append_entries] before the log is looked at. *)
Lemma append_entries_prologue g s req :
  core_wf s ->
  (~ term_accepted s req /\ handle_append_entries g s req =
     Done (s, [append_response req (false_append_response s None None)]))
  \/ (exists s3, term_accepted s req /\ core_wf s3 /\ same_data s s3
       /\ meta s3 = stepped_meta s (ae_term req)
       /\ state s3 = Follower /\ current_term s3 = ae_term req
       /\ current_leader s3 = Some (ae_leader_id req) /\ id s3 = id s
       /\ handle_append_entries g s req =
          append_checked s3 req (step_down_write s (ae_term req)) (false_append_response s3)).
Proof.
  intros Hwf. destruct (decide (term_accepted s req)) as [Hacc|Hn];
    [right|left; split; [done|by apply append_entries_stale]].
  unfold handle_append_entries, term_accepted in *.
  destruct (check_returns g s (ae_term req) Hwf) as (s1 & o & -> & Hwf1 & Hsd1 & Hcase).
  cbn [mbind exec_bind]. cbv zeta.
  destruct (step_down_candidate_wf (ae_term req =? current_term s1) s1 Hwf1) as [Hwf2 Hsd2].
  assert (Hfields : forall b : bool, let s2 := if b && bool_decide (state s1 = Candidate)
      then s1 <| state := Follower |> else s1 in
    id s2 = id s1 /\ current_term s2 = current_term s1 /\ voted_for s2 = voted_for s1
    /\ (state s2 = Leader <-> state s1 = Leader) /\ (b = true -> state s2 <> Candidate)).
  { intros []; cbn; [case_bool_decide; cbn|]; intuition congruence. }
  destruct (Hfields (ae_term req =? current_term s1)) as (Hid2 & Ht2 & Hv2 & Hl2 & Hc2).
  set (s2 := if (ae_term req =? current_term s1) && bool_decide (state s1 = Candidate)
             then s1 <| state := Follower |> else s1) in *. clearbody s2. clear Hfields.
  assert (id s1 = id s /\ (current_term s1 = Z.max (current_term s) (ae_term req))
    /\ (state s1 = Leader <-> state s = Leader /\ ae_term req <= current_term s)
    /\ meta s1 = stepped_meta s (ae_term req)
    /\ default [] o = step_down_write s (ae_term req)) as (Hid1 & Ht1 & Hl1 & Hm1 & ->).
  { unfold step_down_write, stepped_meta. destruct Hcase as [(? & -> & ->)|(? & -> & to & ->)]; cbn.
    - destruct (Z.ltb_spec (current_term s) (ae_term req)); [lia|]. split_and!; [done|lia|naive_solver|done..].
    - destruct (Z.ltb_spec (current_term s) (ae_term req)); [|lia].
      split_and!; [done|lia|split; [done|intros [_ ?]; lia]|done..]. }
  assert (meta s2 = stepped_meta s (ae_term req)) as Hm2 by (unfold meta in *; congruence).
  assert (same_data s s2) as Hsd by (by eapply same_data_trans).
  case_bool_decide as Hst.
  { exfalso. destruct (state s2) eqn:Es2; [|done|].
    - destruct (proj1 Hl1 (proj1 Hl2 eq_refl)) as [Hl Hle]. destruct Hacc as [|[_ ?]]; [lia|done].
    - apply Hc2; [apply Z.eqb_eq; lia|done]. }
  destruct (Z.ltb_spec (ae_term req) (current_term s2)); [lia|].
  destruct (reset_returns g 1 s2 Hwf2) as [to ->]. cbn [mbind exec_bind].
  set (s3 := s2 <| ticks_since_last_heartbeat := 0 |> <| election_timeout := to |>
                <| current_leader := Some (ae_leader_id req) |>).
  assert (same_data s s3) as Hsd3.
  { eapply same_data_trans; [exact Hsd|]. same_data_tac. apply Hwf2. }
  assert (state s2 = Follower) as Hf2 by (destruct (state s2); naive_solver).
  exists s3. split_and!; try done; [by eapply core_wf_same_data|cbn; lia|cbn; congruence|].
  f_equal. apply false_append_response_eq; [done..|]. apply Hsd2.
Qed.

(** ** Accepting entries *)

(** The follower's log after it took the entries of [req]. *)
Definition merged_log (s : RaftCore) (req : AppendEntriesRPC) : list LogEntry :=
  let k := Z.to_nat (ae_prev_log_index req - last_included_index s) in
  take k (log s) ++ merge_entries (drop k (log s)) (ae_entries req).

(** The entries it writes to disk, and those it newly applies. *)
Definition merged_write (s : RaftCore) (req : AppendEntriesRPC) : list Action :=
  match ae_entries req with
  | [] => []
  | _ => [PersistLogEntries (ae_prev_log_index req + 1)
           (drop (Z.to_nat (ae_prev_log_index req - last_included_index s)) (merged_log s req))]
  end.

Definition newly_committed (s s' : RaftCore) : list LogEntry :=
  take (Z.to_nat (commit_index s' - commit_index s))
    (drop (Z.to_nat (commit_index s - last_included_index s)) (log s')).

Record append_accepted (s : RaftCore) (req : AppendEntriesRPC) (s' : RaftCore)
    (acts : list Action) : Prop := {
  aa_log : log s' = merged_log s req;
  aa_snapshot : last_included_index s' = last_included_index s
                /\ last_included_term s' = last_included_term s;
  aa_commit : commit_index s' =
    Z.max (commit_index s) (Z.min (ae_leader_commit req) (last_log_index s'));
  aa_applied : last_applied s' = commit_index s';
  aa_same : id s' = id s /\ peers s' = peers s /\ state s' = state s
            /\ current_term s' = current_term s /\ voted_for s' = voted_for s
            /\ current_leader s' = current_leader s;
  aa_acts : acts = merged_write s req ++ apply_actions (commit_index s) (newly_committed s s')
    ++ [append_response req (mkAppendEntriesResponseRPC (id s) (current_term s)
          (last_log_index s') true None None)];
}.

Lemma follower_commit_eq s c :
  core_wf s -> is_u64 c ->
  let c' := Z.max (commit_index s) (Z.min c (last_log_index s)) in
  let s' := s <| commit_index := c' |> <| last_applied := c' |> in
  follower_commit s c = Done (s', apply_actions (commit_index s) (newly_committed s s')).
Proof.
  intros Hwf Hc. pose proof Hwf as [W1 W2 W3 W4 W5 W6 W7 W8]. pose proof W1 as [Hnn Hfit].
  rewrite last_log_index_eq by done. unfold follower_commit, newly_committed. cbn -[Z.min Z.max].
  destruct (Z.ltb_spec (commit_index s) c).
  - rewrite last_log_index_eq by done. rewrite Z.max_r by lia.
    set (c' := Z.min c (last_included_index s + len (log s))).
    change (log_slice (s <| commit_index := c' |>)) with (log_slice s).
    rewrite !u64_add_small by lia.
    rewrite log_slice_eq by (done || (rewrite ?last_log_index_eq by done; lia)). cbn -[c'].
    do 5 f_equal; lia.
  - rewrite Z.max_l by lia. rewrite Z.sub_diag. clear -W4. destruct s; cbn in *. by subst.
Qed.

Lemma append_checked_accepts s req acts0 response :
  core_wf s -> state s <> Leader -> 0 <= ae_prev_log_index req ->
  ae_prev_log_index req + len (ae_entries req) + 2 < U64 ->
  room s (len (ae_entries req)) -> is_u64 (ae_leader_commit req) ->
  prev_log_valid s req = true -> last_included_index s <= ae_prev_log_index req ->
  committed_agrees s req ->
  exists s' acts, append_checked s req acts0 response = Done (s', acts0 ++ acts)
    /\ append_accepted s req s' acts /\ core_wf s'.
Proof.
  intros Hwf Hst Hprev Hend Hroom Hlc Hvalid Hlii Hagree. unfold append_checked. rewrite Hvalid.
  assert (ae_prev_log_index req <= last_included_index s + len (log s)) as Hpr
    by (apply prev_log_valid_range; [apply Hwf|len_lia|done..]).
  pose proof (wf_fits _ Hwf) as [Hnn Hfit].
  cbn [negb]. cbv zeta. rewrite (u64_add_small (ae_prev_log_index req) 1) by len_lia.
  rewrite (u64_add_small (ae_prev_log_index req + 1)) by len_lia.
  destruct (Z.ltb_spec (ae_prev_log_index req + 1 + len (ae_entries req)) (ae_prev_log_index req + 1));
    [len_lia|].
  destruct (append_loop_wf s (ae_prev_log_index req + 1) (ae_entries req)) as (l & Hloop & Hlen & Hwf4);
    [done|done|lia|done|exact Hagree|].
  rewrite Hloop. rewrite append_loop_merge in Hloop by (unfold room in *; len_lia).
  injection Hloop as Hl.
  replace (ae_prev_log_index req + 1 - last_included_index s - 1)
    with (ae_prev_log_index req - last_included_index s) in Hl by lia.
  change (merged_log s req = l) in Hl. subst l.
  cbn [mbind exec_bind]. set (s4 := s <| log := merged_log s req |>) in *.
  assert ((match ae_entries req with
     | [] => Done []
     | _ :: _ => persist_entries ← log_slice s4 (ae_prev_log_index req + 1) (last_log_index s4 +! 1);
            Done [PersistLogEntries (ae_prev_log_index req + 1) persist_entries]
     end) = Done (merged_write s req)) as ->.
  { unfold merged_write. destruct (ae_entries req) as [|e es] eqn:He; [done|].
    rewrite log_slice_suffix; [|apply Hwf4|].
    - cbn. do 4 f_equal. lia.
    - rewrite last_log_index_eq by apply Hwf4. cbn in *. len_lia. }
  cbn [mbind exec_bind]. pose proof (follower_commit_wf s4 _ Hwf4 Hlc Hst) as Hwf5.
  rewrite follower_commit_eq in * by done. cbn in Hwf5. cbn [mbind exec_bind].
  do 2 eexists. split; [reflexivity|]. split; [|exact Hwf5]. by split.
Qed.

Lemma append_checked_rejects s req acts0 response :
  prev_log_valid s req = false ->
  exists i t, append_checked s req acts0 response
              = Done (s, acts0 ++ [append_response req (response i t)]).
Proof. intros Hv. unfold append_checked. rewrite Hv. cbn. case_match; by do 2 eexists. Qed.

Lemma append_entries_wf g s req :
  core_wf s -> append_ok s req -> returns (handle_append_entries g s req) (fun r => core_wf r.1).
Proof.
  intros Hwf (Hprev & Hend & Hroom & Hlc & Hacc).
  destruct (append_entries_prologue g s req Hwf)
    as [[_ ->]|(s3 & Hta & Hwf3 & Hsd & _ & Hst & _ & _ & _ & ->)]; [done|].
  destruct (prev_log_valid s3 req) eqn:Hvalid.
  - pose proof (sd_log _ _ Hsd) as Hsl. pose proof Hsl as (Hlog & Hlii & _).
    destruct Hacc as [Hle Hagree]; [split; [done|by rewrite Hsl]|].
    destruct (append_checked_accepts s3 req (step_down_write s (ae_term req)) (false_append_response s3))
      as (s' & acts & -> & _ & Hwf'); try done.
    + by rewrite Hst.
    + unfold room in *. by rewrite <- Hlog, <- Hlii.
    + by rewrite <- Hlii.
    + intros j e He Hj. rewrite <- Hsl. apply Hagree; [done|]. by rewrite <- (sd_commit _ _ Hsd).
  - destruct (append_checked_rejects s3 req (step_down_write s (ae_term req))
      (false_append_response s3) Hvalid) as (i & t & ->). done.
Qed.
