(* ===== verification/CoreCommit.v ===== *)
(** The leader's commit rule: the majority-replicated index and the entries it
    commits. *)

From S2P Require Import Prelude Types RaftCore CoreLog CoreFrame CoreReplication CoreElection.
From S2P Require Import CoreInvariant.

(** ** The replicated index *)

(** The indices the leader sorts. *)
Definition peer_indices (s : RaftCore) : list Z :=
  (map_to_list (match_index s)).*2 ++ [last_log_index s].

(** How many nodes, the leader included, have stored index [i]. *)
Definition replicas (s : RaftCore) (i : Z) : nat :=
  length (filter (fun v => i <= v) (peer_indices s)).

Lemma sorted_upper_half (l : list Z) i r :
  Sorted Z.le l -> l !! i = Some r -> (length l - i <= length (filter (fun v => (r <= v)%Z) l))%nat.
Proof.
  intros Hs Hi. pose proof (Sorted_StronglySorted _ _ Hs) as Hss.
  rewrite <- (take_drop i l) at 2. rewrite filter_app, length_app.
  enough (filter (fun v => r <= v) (drop i l) = drop i l) as ->.
  { rewrite length_drop. lia. }
  rewrite <- (take_drop i l) in Hss. apply StronglySorted_app_1_r in Hss.
  rewrite (drop_S _ _ _ Hi) in *. inversion Hss as [|? ? _ Hall]; subst.
  rewrite filter_cons_True by lia. f_equal. clear -Hall.
  induction Hall; [done|]. rewrite filter_cons_True by done. by f_equal.
Qed.

Lemma sorted_lower_half (l : list Z) i r :
  Sorted Z.le l -> l !! i = Some r -> (length (filter (fun v => (r < v)%Z) l) <= length l - S i)%nat.
Proof.
  intros Hs Hi. pose proof (Sorted_StronglySorted _ _ Hs) as Hss.
  rewrite <- (take_drop (S i) l) at 1. rewrite filter_app, length_app.
  rewrite (take_S_r _ _ _ Hi).
  enough (filter (fun v => r < v) (take i l ++ [r]) = []) as ->.
  { cbn. etrans; [apply length_filter|]. by rewrite length_drop. }
  rewrite filter_app, filter_cons_False, app_nil_r by lia.
  rewrite <- (take_drop_middle l i r Hi) in Hss.
  assert (Forall (fun v => v <= r) (take i l)) as Hall.
  { apply Forall_forall. intros v Hv. by eapply StronglySorted_app_1_elem_of; [exact Hss| |left]. }
  clear -Hall. induction Hall; [done|]. rewrite filter_cons_False by lia. done.
Qed.

Lemma replicated_index_Done s : exists r,
  replicated_index s = Done r /\ r ∈ peer_indices s
  /\ (length (peer_indices s) - length (peer_indices s) / 2 <= replicas s r)%nat
  /\ (forall i, (r < i)%Z -> replicas s i <= length (peer_indices s) - S (length (peer_indices s) / 2))%nat.
Proof.
  unfold replicated_index. fold (peer_indices s).
  set (l := merge_sort Z.le (peer_indices s)).
  assert (l ≡ₚ peer_indices s) as Hp by apply merge_sort_Permutation.
  assert (Sorted Z.le l) as Hs by apply Sorted_merge_sort, _.
  pose proof (Permutation_length Hp) as Hlen. rewrite <- Hlen.
  assert (0 < length l)%nat as Hpos.
  { rewrite Hlen. unfold peer_indices. rewrite length_app. cbn. lia. }
  assert (length l / 2 < length l)%nat as Hhalf by (apply Nat.div_lt; lia).
  destruct (lookup_lt_is_Some_2 l (length l / 2)) as [r Hr]; [done|].
  exists r. split_and!.
  - unfold vec_index, len. change 2 with (Z.of_nat 2). rewrite <- Nat2Z.inj_div.
    destruct (Z.ltb_spec (Z.of_nat (length l / 2)) (Z.of_nat (length l))); [|lia].
    by rewrite Nat2Z.id, Hr.
  - rewrite <- Hp. by apply list_elem_of_lookup_2 in Hr.
  - unfold replicas. rewrite <- Hp. by apply sorted_upper_half.
  - intros i Hi. unfold replicas. rewrite <- Hp.
    etrans; [|by apply (sorted_lower_half l)].
    clear -Hi. induction l as [|v l IH]; [done|].
    destruct (decide (i <= v)).
    + rewrite !filter_cons_True by lia. cbn. lia.
    + rewrite filter_cons_False by lia. destruct (decide (r < v)).
      * rewrite filter_cons_True by lia. cbn. lia.
      * rewrite filter_cons_False by lia. done.
Qed.

(** ** The commit loop *)
Lemma advance_commit_Done s n index c0 :
  log_fits s -> last_included_index s < index -> c0 < index ->
  index + Z.of_nat n <= last_log_index s + 1 ->
  exists c, advance_commit s index n c0 = Done c
    /\ (c = c0 \/ (index <= c < index + Z.of_nat n /\ log_term_at s c = Some (current_term s)))
    /\ (forall j, index <= j < index + Z.of_nat n -> c < j -> log_term_at s j <> Some (current_term s)).
Proof.
  intros Hf Hlii. revert index c0 Hlii. pose proof Hf as [Hnn Hfit].
  induction n as [|n IH]; intros index c0 Hlii Hc0 Hend; cbn [advance_commit].
  { exists c0. split_and!; [done|by left|lia]. }
  rewrite last_log_index_eq in Hend by done.
  destruct (proj2 (log_term_at_is_Some s Hf index ltac:(lia))) as [t Ht];
    [rewrite last_log_index_eq by done; lia|].
  rewrite Ht. cbn [unwrap mbind exec_bind]. rewrite u64_add_small by lia.
  destruct (IH (index + 1) (if t =? current_term s then index else c0)) as (c & -> & Hc & Hmax);
    [lia|case_match; lia|rewrite last_log_index_eq by done; lia|].
  exists c. destruct (Z.eqb_spec t (current_term s)) as [->|Hne].
  - split_and!; [done| |].
    + right. destruct Hc as [->|[? ?]]; [by split; [lia|]|split; [lia|done]].
    + intros j Hj Hlt. destruct (Z.eq_dec j index) as [->|]; [|apply Hmax; lia].
      destruct Hc as [->|[? _]]; lia.
  - split_and!; [done| |].
    + destruct Hc as [->|[? ?]]; [by left|right; split; [lia|done]].
    + intros j Hj Hlt. destruct (Z.eq_dec j index) as [->|]; [congruence|apply Hmax; lia].
Qed.

(** What the leader commits, given the replicated index [r]. *)
Record commit_result (s : RaftCore) (r c : Z) : Prop := {
  cr_grows : commit_index s <= c;
  cr_bound : c = commit_index s \/ c <= r;
  cr_current : c = commit_index s \/ log_term_at s c = Some (current_term s);
  cr_maximal : forall j, c < j <= r -> log_term_at s j <> Some (current_term s);
}.

Lemma leader_commit_returns s :
  core_wf s -> state s = Leader ->
  exists r c entries, replicated_index s = Done r /\ commit_result s r c
    /\ log_slice s (last_applied s +! 1) (c +! 1) = Done entries
    /\ leader_commit s = Done (s <| commit_index := c |> <| last_applied := c |>,
                               apply_actions (last_applied s) entries)
    /\ core_wf (s <| commit_index := c |> <| last_applied := c |>).
Proof.
  intros Hwf Hst. pose proof Hwf as [W1 W2 W3 W4 W5 W6 W7 W8]. pose proof W1 as [Hnn Hfit].
  destruct (replicated_index_Done s) as (r & Hr & Hin & _).
  assert (0 <= r <= last_included_index s + len (log s)) as Hrb.
  { unfold peer_indices in Hin. apply elem_of_app in Hin as [Hin| ->%list_elem_of_singleton].
    - apply list_elem_of_fmap in Hin as ([k v] & -> & Hkv%elem_of_map_to_list).
      apply (W8 Hst k v Hkv).
    - rewrite last_log_index_eq by done. len_lia. }
  set (first := commit_index s + 1). set (n := Z.to_nat (r + 1 - first)).
  destruct (advance_commit_Done s n first (commit_index s)) as (c & Hadv & Hc & Hmax);
    [done|unfold first; lia|unfold first; lia|rewrite last_log_index_eq by done; unfold n, first; lia|].
  assert (commit_result s r c) as Hcr.
  { unfold n, first in *. split.
    - destruct Hc as [->|[? _]]; lia.
    - destruct Hc as [->|[? _]]; lia.
    - destruct Hc as [->|[_ ?]]; auto.
    - intros j Hj. apply Hmax; [|lia]. destruct Hc as [->|[? _]]; lia. }
  destruct Hcr as [Hg Hb Hcur Hmx].
  assert (c <= last_included_index s + len (log s)) by lia.
  assert (log_slice s (last_applied s +! 1) (c +! 1) =
    Done (take (Z.to_nat (c - last_applied s))
            (drop (Z.to_nat (last_applied s - last_included_index s)) (log s)))) as Hslice.
  { rewrite !u64_add_small by lia. rewrite log_slice_eq by (done || (rewrite ?last_log_index_eq by done; lia)).
    do 3 f_equal; lia. }
  exists r, c. eexists. split_and!; [done|by split|exact Hslice| |].
  - unfold leader_commit. rewrite Hr. cbn [mbind exec_bind].
    rewrite !u64_add_small by lia. fold first n. rewrite Hadv. cbn [mbind exec_bind].
    change (log_slice (s <| commit_index := c |>) _ _) with
      (log_slice s (last_applied s +! 1) (c +! 1)).
    rewrite Hslice. done.
  - split; cbn; try done. lia.
Qed.

Lemma append_response_wf g s resp :
  core_wf s -> append_response_ok s resp ->
  returns (handle_append_entries_response g s resp) (fun r => core_wf r.1).
Proof.
  intros Hwf Hok. unfold handle_append_entries_response, append_response_ok in *.
  destruct (check_returns g s (aer_term resp) Hwf) as (s1 & o & -> & Hwf1 & _ & Hcase).
  cbn [mbind exec_bind]. destruct (aer_success resp).
  - destruct Hok as (Hst & Hterm & Hpeer & Hm).
    destruct Hcase as [(_ & -> & ->)|(Hlt & _)]; [|lia].
    set (s2 := s <| match_index := _ |> <| next_index := _ |> <| append_entries_count := _ |>).
    assert (core_wf s2) as Hwf2.
    { rewrite last_log_index_eq in Hm by apply Hwf. destruct Hwf as [W1 W2 W3 W4 W5 W6 W7 W8].
      split; cbn; try done.
      - apply map_Forall_insert_2; [apply u64_add_range|done].
      - intros n v [[<- _]|[_ ?]]%lookup_insert_Some; eauto.
      - intros _. apply map_Forall_insert_2; auto. }
    destruct (leader_commit_returns s2 Hwf2 Hst) as (r & c & entries & _ & _ & _ & -> & Hwf3).
    cbn [mbind exec_bind]. destruct (ready_barriers _) as [s3 ready] eqn:Hrb.
    apply ready_barriers_quiet in Hrb as [[rb ->] _]. cbn -[s2].
    eapply core_wf_same_data; [|exact Hwf3]. same_data_tac. apply Hwf.
  - set (s2 := match aer_first_conflicting_index resp with Some _ => _ | None => _ end).
    assert (exists ni, s2 = s1 <| next_index := ni |> /\ map_Forall (fun _ v => is_u64 v) ni)
      as (ni & -> & Hni).
    { assert (forall i, is_u64 i -> map_Forall (fun _ v => is_u64 v)
        (alter (fun _ => i) (aer_id resp) (next_index s1))) as Halter.
      { intros i Hi n v. rewrite lookup_alter_Some. intros [(_ & ? & _ & ->)|[_ Hv]]; [done|].
        by eapply (wf_next _ Hwf1). }
      unfold s2. destruct (aer_first_conflicting_index resp) as [i|]; eexists; (split; [done|]);
        apply Halter; [by apply Hok|done]. }
    destruct (build_append_entries_returns (s1 <| next_index := ni |>) (aer_id resp)) as [a ->];
      [apply Hwf1|done|]. cbn.
    destruct Hwf1 as [W1 W2 W3 W4 W5 W6 W7 W8]. by split.
Qed.
