(* ===== verification/CoreTotal.v ===== *)
(** Totality of the core: every input that respects the contract returns and
    keeps the node well formed.  Snapshots are invisible above their index. *)

From S2P Require Import Prelude Types RaftCore CoreLog CoreFrame CoreReplication CoreElection.
From S2P Require Import CoreInvariant CoreCommit.

Lemma propose_wf s cmd :
  core_wf s -> room s 1 -> returns (propose s cmd) (fun r => core_wf r.1).
Proof.
  intros Hwf Hroom. unfold propose. case_bool_decide; [done|].
  set (s1 := s <| log := log s ++ [mkLogEntry (current_term s) cmd] |>).
  assert (core_wf s1) as Hwf1.
  { pose proof (core_wf_push s (mkLogEntry (current_term s) cmd) (next_index s) (match_index s) Hwf Hroom
      (wf_next _ Hwf) (wf_match_dom _ Hwf) (wf_match _ Hwf)) as Hp.
    eapply core_wf_same_data; [|exact Hp]. same_data_tac. apply Hwf. }
  cbv zeta. change (log_slice _ _ _) with (log_slice s1 (last_log_index s1) (last_log_index s1 +! 1)).
  pose proof (log_slice_pushed s _ (wf_fits _ Hwf1)) as Hslice. cbv zeta in Hslice.
  fold s1 in Hslice. rewrite Hslice. cbn [mbind exec_bind].
  assert (core_wf (s1 <| ticks_since_last_heartbeat := 0 |>)) as Hwf2
    by (eapply core_wf_same_data; [|exact Hwf1]; same_data_tac; apply Hwf).
  destruct (append_entries_returns (s1 <| ticks_since_last_heartbeat := 0 |>)) as [acts ->];
    [apply Hwf2..|]. done.
Qed.

Lemma install_snapshot_wf g s req :
  core_wf s -> snapshot_ok s req -> returns (handle_install_snapshot g s req) (fun r => core_wf r.1).
Proof.
  intros Hwf (Hnn & Hfit & Hlead & Hagree). unfold handle_install_snapshot.
  destruct (check_returns g s (is_term req) Hwf) as (s1 & o & -> & Hwf1 & Hsd1 & Hcase).
  cbn [mbind exec_bind]. cbv zeta.
  destruct (Z.ltb_spec (is_term req) (current_term s1)) as [|Hterm]; [done|].
  destruct (step_down_candidate_wf (is_term req =? current_term s1) s1 Hwf1) as [Hwf2 Hsd2].
  set (s2 := if (is_term req =? current_term s1) && bool_decide (state s1 = Candidate)
             then s1 <| state := Follower |> else s1) in *.
  destruct (reset_returns g 1 s2 Hwf2) as [to ->]. cbn [mbind exec_bind].
  set (s3 := s2 <| ticks_since_last_heartbeat := 0 |> <| election_timeout := to |>
                <| current_leader := Some (is_leader_id req) |>).
  assert (core_wf s3) as Hwf3 by (eapply core_wf_same_data; [|exact Hwf2]; same_data_tac; apply Hwf2).
  case_match; [done|]. case_bool_decide; [done|].
  assert (state s3 <> Leader) as Hst3.
  { intros Hl%(sd_leader _ _ Hsd2). destruct Hcase as [(? & -> & _)|(_ & _ & ? & ->)]; [|done].
    apply Hlead; [lia|done]. }
  destruct Hwf3 as [W1 W2 W3 W4 W5 W6 W7 W8].
  split; cbn -[s3]; try done.
  - split; cbn -[s3]; [done|]. autorewrite with len. lia.
  - rewrite len_nil. lia.
Qed.

Lemma install_snapshot_response_wf g s resp :
  core_wf s -> isr_id resp ∈ peers s /\ 0 <= isr_last_included_index resp <= last_log_index s ->
  returns (handle_install_snapshot_response g s resp) (fun r => core_wf r.1).
Proof.
  intros Hwf [Hp Hi]. unfold handle_install_snapshot_response.
  destruct (check_returns g s (isr_term resp) Hwf) as (s1 & o & -> & Hwf1 & Hsd1 & _).
  cbn [mbind exec_bind]. case_bool_decide; [done|].
  rewrite (sd_log _ _ Hsd1), last_log_index_eq in Hi by apply Hwf1.
  rewrite <- (sd_peers _ _ Hsd1) in Hp.
  destruct Hwf1 as [W1 W2 W3 W4 W5 W6 W7 W8]. split; cbn; try done.
  - apply map_Forall_insert_2; [apply u64_add_range|done].
  - intros n v [[<- _]|[_ ?]]%lookup_insert_Some; eauto.
  - intros Hst. apply map_Forall_insert_2; auto.
Qed.

(** ** Snapshots *)

(** [prepare_snapshot] then [complete_snapshot]: the log loses its applied
    prefix. *)
Lemma snapshot_returns g s :
  core_wf s -> exists t, log_term_at s (last_applied s) = Some t
    /\ core_input g s InSnapshot =
       Done (if last_applied s <=? last_included_index s then s else
             s <| log := drop (Z.to_nat (last_applied s - last_included_index s)) (log s) |>
               <| last_included_index := last_applied s |> <| last_included_term := t |>, []).
Proof.
  intros [W1 W2 W3 W4 W5 W6 W7 W8]. pose proof W1 as [Hnn Hfit].
  destruct (proj2 (log_term_at_is_Some s W1 (last_applied s) ltac:(lia))) as [t Ht];
    [rewrite last_log_index_eq by done; lia|].
  exists t. split; [done|]. cbn. unfold prepare_snapshot. rewrite Ht. cbn.
  unfold complete_snapshot. cbn. case_match eqn:Hle; [done|]. apply Z.leb_gt in Hle.
  rewrite u64_sub_small by lia. unfold vec_drain_to.
  destruct (Z.leb_spec (last_applied s - last_included_index s) (len (log s))); [done|lia].
Qed.

Lemma snapshot_wf g s : core_wf s -> returns (core_input g s InSnapshot) (fun r => core_wf r.1).
Proof.
  intros Hwf. destruct (snapshot_returns g s Hwf) as (t & _ & ->). cbn.
  destruct (Z.leb_spec (last_applied s) (last_included_index s)); [done|].
  destruct Hwf as [[] W2 W3 W4 W5 W6 W7 W8].
  assert (len (drop (Z.to_nat (last_applied s - last_included_index s)) (log s))
    = len (log s) - (last_applied s - last_included_index s)) as Hd by (apply len_drop; lia).
  split; cbn; try done; rewrite ?Hd; try lia.
  - split; cbn; lia.
  - intros Hst n v Hv. specialize (W8 Hst n v Hv). cbn in W8. lia.
Qed.

(** A run of inputs, and their contract along it. *)
Fixpoint core_inputs (s : RaftCore) (run : list (Rng * Input)) : exec RaftCore :=
  match run with
  | [] => Done s
  | (g, i) :: run => '(s, _) ← core_input g s i; core_inputs s run
  end.

Fixpoint inputs_ok (s : RaftCore) (run : list (Rng * Input)) : Prop :=
  match run with
  | [] => True
  | (g, i) :: run =>
      input_ok s i /\
      match core_input g s i with Done (s, _) => inputs_ok s run | Panic => True end
  end.

(** Every input, under its contract. *)
Lemma core_input_wf g s i :
  core_wf s -> input_ok s i -> returns (core_input g s i) (fun r => core_wf r.1).
Proof.
  intros Hwf Hok. destruct i as [|m|cmd| |]; cbn [core_input].
  - by apply tick_wf.
  - destruct m; cbn in Hok |- *.
    + by apply request_vote_wf.
    + by apply vote_response_wf.
    + by apply append_entries_wf.
    + by apply append_response_wf.
    + by apply install_snapshot_wf.
    + by apply install_snapshot_response_wf.
  - pose proof (propose_wf s cmd Hwf Hok) as Hp. by destruct (propose s cmd) as [[s' o]|].
  - unfold request_read_barrier. case_bool_decide; cbn; [done|].
    eapply core_wf_same_data; [|exact Hwf]. same_data_tac. apply Hwf.
  - by apply snapshot_wf.
Qed.

(** ** Theorems *)

(** C15: no input panics.  From a well-formed state, every sequence of inputs
    that respects the contract returns (no failed unwrap, no slice or index out
    of range, no empty random range) and leaves a well-formed state. *)
Theorem core_input_total (run : list (Rng * Input)) (s : RaftCore) :
  core_wf s -> inputs_ok s run -> returns (core_inputs s run) core_wf.
Proof.
  revert s. induction run as [|[g i] run IH]; intros s Hwf Hok; [done|]. cbn.
  destruct Hok as [Hi Hrest]. pose proof (core_input_wf g s i Hwf Hi) as Hr.
  destruct (core_input g s i) as [[s1 acts]|]; [|done]. cbn in *. by apply IH.
Qed.

(** C30: taking a snapshot is invisible above the applied index: the last index
    is the same, and so are every entry above and every term from the snapshot
    index on. *)
Theorem snapshot_transparent g s s' acts :
  core_wf s -> core_input g s InSnapshot = Done (s', acts) ->
  acts = [] /\ last_log_index s' = last_log_index s
  /\ (forall i, last_applied s <= i < U64 -> log_term_at s' i = log_term_at s i)
  /\ (forall i, last_applied s < i < U64 -> log_entry_at s' i = log_entry_at s i).
Proof.
  intros Hwf H. pose proof (snapshot_wf g s Hwf) as Hwf'. rewrite H in Hwf'. cbn in Hwf'.
  destruct (snapshot_returns g s Hwf) as (t & Ht & Heq). rewrite H in Heq. injection Heq as -> ->.
  destruct (Z.leb_spec (last_applied s) (last_included_index s)); [done|].
  set (k := Z.to_nat (last_applied s - last_included_index s)) in *.
  pose proof (wf_fits _ Hwf) as Hf. pose proof (wf_fits _ Hwf') as Hf'. destruct (wf_commit _ Hwf).
  pose proof (wf_applied _ Hwf).
  assert (len (drop k (log s)) = len (log s) - (last_applied s - last_included_index s)) as Hd
    by (apply len_drop; lia).
  assert (forall i, last_applied s < i ->
    drop k (log s) !! Z.to_nat (i - last_applied s - 1)
    = log s !! Z.to_nat (i - last_included_index s - 1)) as Hlook.
  { intros i Hi. rewrite lookup_drop. f_equal. unfold k. lia. }
  split_and!; [done|rewrite !last_log_index_eq by done; cbn; lia| |].
  - intros i Hi. destruct (Z.eq_dec i (last_applied s)) as [->|].
    + rewrite Ht. apply log_term_at_snapshot.
    + rewrite !log_term_at_above by (done || (cbn; lia)). cbn. by rewrite Hlook by lia.
  - intros i Hi. rewrite !log_entry_at_above by (done || (cbn; lia)). cbn. by rewrite Hlook by lia.
Qed.
