(* ===== verification/CoreTiming.v ===== *)
(** Time: a node that hears nothing starts an election when its timeout is
    over, and a leader reaches every peer at every heartbeat interval.  What a
    leader sends is its own log. *)

From S2P Require Import Prelude Types RaftCore CoreLog CoreFrame CoreReplication CoreElection.
From S2P Require Import CoreInvariant CoreCommit CoreTotal.

(** [n] ticks with nothing in between. *)
Fixpoint ticks (g : Rng) (n : nat) (s : RaftCore) : exec (RaftCore * list Action) :=
  match n with
  | O => Done (s, [])
  | S n =>
      '(s, acts) ← tick g s;
      '(s, acts') ← ticks g n s;
      Done (s, acts ++ acts')
  end.

Lemma ticks_S g n s :
  ticks g (S n) s = '(s, acts) ← tick g s; '(s, acts') ← ticks g n s; Done (s, acts ++ acts').
Proof. done. Qed.

(** The last tick of an interval of length [n + 1]; the others do nothing. *)
Lemma ticks_quiet g n s limit :
  0 <= ticks_since_last_heartbeat s -> limit < U64 ->
  ticks_since_last_heartbeat s + Z.of_nat (S n) = limit ->
  limit = (if bool_decide (state s = Leader) then heartbeat_interval s else election_timeout s) ->
  ticks g (S n) s =
  '(s', acts) ← tick g (s <| ticks_since_last_heartbeat := limit - 1 |>); Done (s', acts).
Proof.
  revert s. induction n as [|n IH]; intros s H0 Hu Hn Hlim.
  - assert (s <| ticks_since_last_heartbeat := limit - 1 |> = s) as ->.
    { replace (limit - 1) with (ticks_since_last_heartbeat s) by lia. by destruct s. }
    cbn [ticks]. destruct (tick g s) as [[s1 a1]|]; [|done]. cbn. by rewrite app_nil_r.
  - rewrite ticks_S. assert (tick g s = Done (s <| ticks_since_last_heartbeat :=
      ticks_since_last_heartbeat s + 1 |>, [])) as ->.
    { unfold tick. rewrite u64_add_small by lia.
      set (s1 := s <| ticks_since_last_heartbeat := _ |>).
      assert (ticks_since_last_heartbeat s1 < limit) as Hlt by (cbn; lia).
      assert (state s1 = state s /\ heartbeat_interval s1 = heartbeat_interval s
        /\ election_timeout s1 = election_timeout s) as (E1 & E2 & E3) by done.
      clearbody s1. rewrite <- E1 in Hlim. unfold heartbeat, on_election_timeout.
      destruct (state s1); [rewrite bool_decide_true in Hlim by done|
        rewrite bool_decide_false in Hlim by done..]; rewrite ?E2, ?E3, <- ?Hlim;
        destruct (Z.leb_spec limit (ticks_since_last_heartbeat s1)); (lia || done). }
    cbn [mbind exec_bind]. rewrite IH; [|cbn in *; try lia..|done]. cbn [mbind exec_bind].
    change (s <| ticks_since_last_heartbeat := ticks_since_last_heartbeat s + 1 |>
              <| ticks_since_last_heartbeat := limit - 1 |>)
      with (s <| ticks_since_last_heartbeat := limit - 1 |>).
    destruct (tick g (s <| ticks_since_last_heartbeat := limit - 1 |>)) as [[s1 a1]|]; done.
Qed.

(** The election that starts when the timeout is reached. *)
Lemma election_timeout_fires g s :
  core_wf s -> election_timeout s <= ticks_since_last_heartbeat s ->
  exists s' t, on_election_timeout g s =
      Done (s', PersistMetadata (current_term s +! 1) (Some (id s))
                :: ((fun p => SendMessage p (RequestVote
                      (mkRequestVoteRPC (current_term s +! 1) (id s) (last_log_index s) t))) <$> peers s))
    /\ log_term_at s (last_log_index s) = Some t
    /\ state s' = Candidate /\ current_term s' = current_term s +! 1
    /\ voted_for s' = Some (id s) /\ votes_received s' = {[id s]}
    /\ ticks_since_last_heartbeat s' = 0.
Proof.
  intros Hwf Hle. destruct (last_log_term_returns s Hwf) as [t Hlt].
  unfold on_election_timeout. destruct (Z.leb_spec (election_timeout s) (ticks_since_last_heartbeat s)); [|lia].
  set (s1 := s <| current_term := _ |> <| state := _ |> <| current_leader := _ |>
               <| votes_received := _ |> <| voted_for := _ |> <| votes_received := _ |>).
  assert (id s1 = id s /\ peers s1 = peers s /\ state s1 = Candidate
    /\ current_term s1 = current_term s +! 1 /\ voted_for s1 = Some (id s)
    /\ votes_received s1 = {[id s]} /\ same_log s s1
    /\ election_timeout_range s1 = election_timeout_range s)
    as (E1 & E2 & E3 & E4 & E5 & E6 & E7 & E8) by done. clearbody s1.
  unfold reset_election_timeout, random_range. pose proof (wf_range _ Hwf) as Hr. rewrite <- E8 in Hr.
  change (election_timeout_range (s1 <| ticks_since_last_heartbeat := 0 |>)) with (election_timeout_range s1).
  destruct (Z.ltb_spec (election_timeout_range s1).1 (election_timeout_range s1).2); [|lia].
  cbn [mbind exec_bind]. set (s2 := s1 <| ticks_since_last_heartbeat := 0 |> <| election_timeout := _ |>).
  assert (same_log s s2) as E9 by exact E7.
  assert (id s2 = id s1 /\ peers s2 = peers s1 /\ state s2 = state s1 /\ current_term s2 = current_term s1
    /\ voted_for s2 = voted_for s1 /\ votes_received s2 = votes_received s1
    /\ ticks_since_last_heartbeat s2 = 0) as (F1 & F2 & F3 & F4 & F5 & F6 & F7) by done. clearbody s2.
  assert (last_log_term s2 = Done t) as -> by (rewrite <- Hlt; unfold last_log_term; by rewrite <- E9).
  cbn [mbind exec_bind]. exists s2, t. unfold last_log_term in Hlt. apply unwrap_Done in Hlt.
  rewrite <- (last_log_index_proper _ _ E9), F1, F2, F4, F5, E1, E2, E4, E5. split_and!; congruence || done.
Qed.

(** ** Theorems *)

(** C33: elections start.  A follower or candidate that hears nothing stays
    quiet until its timeout and then, at exactly that tick, opens a new term as
    candidate with its own vote, persists it and asks every peer for its vote,
    naming its last log index and term. *)
Theorem election_starts g s n :
  core_wf s -> state s <> Leader -> 0 <= ticks_since_last_heartbeat s -> election_timeout s < U64 ->
  ticks_since_last_heartbeat s + Z.of_nat (S n) = election_timeout s ->
  exists s' t, ticks g (S n) s =
      Done (s', PersistMetadata (current_term s +! 1) (Some (id s))
                :: ((fun p => SendMessage p (RequestVote
                      (mkRequestVoteRPC (current_term s +! 1) (id s) (last_log_index s) t))) <$> peers s))
    /\ log_term_at s (last_log_index s) = Some t
    /\ state s' = Candidate /\ current_term s' = current_term s +! 1
    /\ voted_for s' = Some (id s) /\ votes_received s' = {[id s]}
    /\ ticks_since_last_heartbeat s' = 0.
Proof.
  intros Hwf Hst H0 Hu Hn.
  rewrite (ticks_quiet g n s (election_timeout s)); [|done..|by rewrite bool_decide_false].
  set (s1 := s <| ticks_since_last_heartbeat := election_timeout s |>).
  assert (core_wf s1) as Hwf1 by (eapply core_wf_same_data; [|exact Hwf]; same_data_tac; apply Hwf).
  destruct (election_timeout_fires g s1 Hwf1 ltac:(cbn; lia)) as (s' & t & Heq & H1 & H2 & H3 & H4 & H5 & H6).
  exists s', t. split; [|by split_and!].
  assert (tick g (s <| ticks_since_last_heartbeat := election_timeout s - 1 |>) = on_election_timeout g s1)
    as ->; [|by rewrite Heq].
  unfold tick. cbn [ticks_since_last_heartbeat modify field_ticks]. rewrite u64_add_small by lia.
  replace (election_timeout s - 1 + 1) with (election_timeout s) by lia. cbn [state modify field_ticks].
  by destruct (state s).
Qed.

(** Heartbeats.  A leader that gets no input sends, at the tick where its
    heartbeat interval ends and not before, one append (or snapshot) to every
    peer in turn. *)
Theorem heartbeats_sent g s n :
  core_wf s -> state s = Leader -> 0 <= ticks_since_last_heartbeat s -> heartbeat_interval s < U64 ->
  ticks_since_last_heartbeat s + Z.of_nat (S n) = heartbeat_interval s ->
  exists acts, ticks g (S n) s = Done (s <| ticks_since_last_heartbeat := 0 |>, acts)
    /\ Forall2 (fun p a => build_append_entries_for_peer s p = Done a) (peers s) acts.
Proof.
  intros Hwf Hst H0 Hu Hn.
  rewrite (ticks_quiet g n s (heartbeat_interval s)); [|done..|by rewrite bool_decide_true].
  unfold tick. cbn [ticks_since_last_heartbeat modify field_ticks state].
  rewrite u64_add_small by lia. replace (heartbeat_interval s - 1 + 1) with (heartbeat_interval s) by lia.
  rewrite Hst. unfold heartbeat. cbn [ticks_since_last_heartbeat heartbeat_interval modify field_ticks].
  rewrite Z.leb_refl. change (append_entries _) with (append_entries s).
  destruct (append_entries_returns s (wf_fits _ Hwf) (wf_next _ Hwf)) as [acts Ha].
  rewrite Ha. exists acts. split; [done|]. unfold append_entries in Ha. clear -Ha.
  revert acts Ha. induction (peers s) as [|p ps IH]; intros acts Ha; cbn in Ha; exec_inv; [done|].
  constructor; eauto.
Qed.

(** What a leader sends is its log.  An append built for a peer whose next
    index is at least 1 carries the leader's term and commit index, the index
    and term of the entry before the peer's next index, and every entry of the
    leader's log from there to its end; if the snapshot has swallowed that
    point, the leader sends the snapshot's index and term instead. *)
Theorem append_request_faithful s p nx :
  core_wf s -> next_index s !! p = Some nx -> 1 <= nx <= last_log_index s + 1 ->
  (last_included_index s < nx /\
   exists req, build_append_entries_for_peer s p = Done (SendMessage p (AppendEntries req))
    /\ ae_term req = current_term s /\ ae_leader_id req = id s /\ ae_leader_commit req = commit_index s
    /\ ae_prev_log_index req = nx - 1 /\ log_term_at s (nx - 1) = Some (ae_prev_log_term req)
    /\ len (ae_entries req) = last_log_index s + 1 - nx
    /\ forall j e, ae_entries req !! j = Some e -> log_entry_at s (nx + Z.of_nat j) = Some e)
  \/ (nx <= last_included_index s /\
      build_append_entries_for_peer s p =
      Done (SendInstallSnapshot p (current_term s) (last_included_index s) (last_included_term s))).
Proof.
  intros Hwf Hnx Hr. pose proof (wf_fits _ Hwf) as Hf. pose proof Hf as [Hnn Hfit].
  unfold build_append_entries_for_peer. rewrite Hnx.
  change (default (last_log_index s) (Some nx)) with nx. cbv zeta.
  pose proof (last_log_index_eq s Hf) as Hl. pose proof (len_nonneg (log s)).
  destruct (Z.ltb_spec 0 nx); [|lia]. rewrite (u64_sub_small nx 1) by lia.
  destruct (Z.le_gt_cases nx (last_included_index s)) as [Hle|Hgt].
  - right. split; [done|]. rewrite log_term_at_below by lia. done.
  - left. split; [done|].
    destruct (proj2 (log_term_at_is_Some s Hf (nx - 1) ltac:(lia))) as [t Ht];
      [lia|].
    rewrite Ht, log_slice_suffix by (done || lia).
    cbn [mbind exec_bind]. eexists. split; [reflexivity|]. cbn [ae_term ae_leader_id ae_leader_commit
      ae_prev_log_index ae_prev_log_term ae_entries].
    split_and!; try done.
    + rewrite len_drop by lia. lia.
    + intros j e He. rewrite lookup_drop in He. pose proof (lookup_lt_Some _ _ _ He) as Hlt.
      rewrite log_entry_at_above by (done || (unfold len in *; lia)). rewrite <- He. f_equal. lia.
Qed.
