(* ===== verification/CoreHandlers.v ===== *)
(** The vote and the snapshot handlers, branch by branch. *)

From S2P Require Import Prelude Types RaftCore CoreLog CoreFrame CoreReplication CoreElection.
From S2P Require Import CoreInvariant CoreCommit CoreTotal.

(** The candidate's log is at least as up to date as the node's. *)
Definition up_to_date (s : RaftCore) (req : RequestVoteRPC) : Prop :=
  exists t, log_term_at s (last_log_index s) = Some t
    /\ (t < rv_last_log_term req
        \/ (t = rv_last_log_term req /\ last_log_index s <= rv_last_log_index req)).

(** When the node grants its vote. *)
Definition grants (s : RaftCore) (req : RequestVoteRPC) : Prop :=
  (current_term s < rv_term req
   \/ (rv_term req = current_term s
       /\ (voted_for s = None \/ voted_for s = Some (rv_candidate_id req))))
  /\ up_to_date s req.

(** The state after the term check, for a message of term [t]. *)
Lemma check_spec g s t :
  core_wf s -> exists s1 o, check_msg_term g s t = Done (s1, o) /\ core_wf s1 /\ same_data s s1
    /\ default [] o = step_down_write s t /\ current_term s1 = Z.max (current_term s) t
    /\ id s1 = id s /\ meta s1 = stepped_meta s t
    /\ state s1 = (if current_term s <? t then Follower else state s).
Proof.
  intros Hwf. destruct (check_returns g s t Hwf) as (s1 & o & H & Hwf1 & Hsd & Hcase).
  exists s1, o. unfold step_down_write, stepped_meta.
  destruct Hcase as [(Hle & -> & ->)|(Hlt & -> & to & ->)];
    (destruct (Z.ltb_spec (current_term s) t); [lia || idtac|lia || idtac]);
    split_and!; try done; cbn; lia.
Qed.

Lemma can_vote_spec s c : can_vote s c = true <-> voted_for s = None \/ voted_for s = Some c.
Proof.
  unfold can_vote. destruct (voted_for s) as [v|]; [|naive_solver].
  rewrite Z.eqb_eq. split; [intros ->; by right|intros [|[= ->]]; done].
Qed.

(** C31: the vote.  A node grants a vote exactly when the request's term is
    newer, or current and not promised to another candidate, and the
    candidate's log is at least as up to date as its own.  A grant is preceded
    by the write of the vote; a refusal changes neither vote nor log; either
    answer carries the newer of the two terms. *)
Theorem request_vote_spec g s req :
  core_wf s -> exists s' (granted : bool),
    handle_request_vote g s req = Done (s', step_down_write s (rv_term req) ++
      (if granted then [PersistMetadata (rv_term req) (Some (rv_candidate_id req))] else []) ++
      [SendMessage (rv_candidate_id req) (RequestVoteResponse (mkRequestVoteResponseRPC (id s)
         (Z.max (current_term s) (rv_term req)) granted))])
    /\ (granted = true <-> grants s req)
    /\ same_data s s'
    /\ meta s' = (if granted then (rv_term req, Some (rv_candidate_id req))
                  else stepped_meta s (rv_term req)).
Proof.
  intros Hwf. unfold handle_request_vote.
  destruct (check_spec g s (rv_term req) Hwf) as (s1 & o & -> & Hwf1 & Hsd & Ho & Ht & Hid & Hm & _).
  cbn [mbind exec_bind]. cbv zeta. rewrite Ho. pose proof (sd_log _ _ Hsd) as Hsl.
  unfold vote_response. rewrite Hid.
  destruct (Z.ltb_spec (rv_term req) (current_term s1)) as [Hlt|Hge].
  { exists s1, false. rewrite Ht. split_and!; try done. split; [done|]. intros [[|[? _]] _]; lia. }
  destruct (last_log_term_returns s1 Hwf1) as [t Hlt]. rewrite Hlt. cbn [mbind exec_bind].
  unfold last_log_term in Hlt. apply unwrap_Done in Hlt.
  assert (can_vote s1 (rv_candidate_id req) = true <->
    current_term s < rv_term req \/ (rv_term req = current_term s
      /\ (voted_for s = None \/ voted_for s = Some (rv_candidate_id req)))) as Hcan.
  { rewrite can_vote_spec. unfold stepped_meta, meta in Hm.
    destruct (Z.ltb_spec (current_term s) (rv_term req)); injection Hm as _ ->; [naive_solver|].
    split; [intros ?; right; split; [lia|done]|intros [|[_ ?]]; [lia|done]]. }
  set (log_check := (t <? rv_last_log_term req) || _).
  assert (log_check = true <-> up_to_date s req) as Hlog.
  { unfold log_check, up_to_date. rewrite orb_true_iff, andb_true_iff, Z.ltb_lt, Z.eqb_eq, Z.leb_le.
    rewrite <- (log_term_at_proper _ _ Hsl _ _ eq_refl), <- (last_log_index_proper _ _ Hsl) in Hlt.
    rewrite <- (last_log_index_proper _ _ Hsl). rewrite Hlt. split.
    - intros Hc. exists t. split; [done|]. destruct Hc as [|[-> ?]]; [by left|by right].
    - intros (t' & [= <-] & [|[-> ?]]); [by left|by right]. }
  assert (can_vote s1 (rv_candidate_id req) && log_check = true <-> grants s req) as Hgr.
  { rewrite andb_true_iff. unfold grants. by rewrite Hcan, Hlog. }
  destruct (can_vote s1 (rv_candidate_id req) && log_check).
  - destruct (reset_returns g 1 s1 Hwf1) as [to ->]. cbn [mbind exec_bind].
    eexists _, true. split; [|split; [exact Hgr|split]].
    + cbn -[app]. rewrite Ht, Z.max_r by lia. rewrite Hid. reflexivity.
    + eapply same_data_trans; [exact Hsd|]. same_data_tac. apply Hwf1.
    + unfold meta. cbn. f_equal. lia.
  - exists s1, false. rewrite Ht. split_and!; done.
Qed.

(** C32: installing a snapshot, branch by branch.  A stale term is refused; a
    snapshot the node already covers, or whose last entry its log holds, is
    only acknowledged; any other snapshot replaces the log, moves the applied
    and commit indices to its own, and is handed to storage and application
    before it is acknowledged. *)
Theorem install_snapshot_spec g s req :
  core_wf s -> exists s' acts, handle_install_snapshot g s req = Done (s', acts) /\
    let si := is_last_included_index req in
    let st := is_last_included_term req in
    let ack i := snapshot_response s' (is_leader_id req) i in
    let writes := step_down_write s (is_term req) in
    if is_term req <? current_term s then s' = s /\ acts = writes ++ [ack (last_included_index s)]
    else current_term s' = is_term req /\ current_leader s' = Some (is_leader_id req) /\
      if si <=? last_included_index s then
        same_log s s' /\ acts = writes ++ [ack (last_included_index s)]
      else if bool_decide (log_term_at s si = Some st) then same_log s s' /\ acts = writes ++ [ack si]
      else log s' = [] /\ last_included_index s' = si /\ last_included_term s' = st
        /\ commit_index s' = si /\ last_applied s' = si
        /\ acts = writes ++ [ActInstallSnapshot si st (is_data req); ack si].
Proof.
  intros Hwf. unfold handle_install_snapshot.
  destruct (check_spec g s (is_term req) Hwf) as (s1 & o & Hc & Hwf1 & Hsd & Ho & Ht & Hid & Hm & _).
  rewrite Hc. cbn [mbind exec_bind]. cbv zeta. rewrite Ho.
  pose proof (sd_log _ _ Hsd) as Hsl. pose proof Hsl as (Hlog & Hlii & Hlit).
  destruct (Z.ltb_spec (is_term req) (current_term s)) as [Hlt|Hge].
  { assert (s1 = s) as ->.
    { apply check_msg_term_Done in Hc as [(_ & -> & _)|(? & _)]; [done|lia]. }
    destruct (Z.ltb_spec (is_term req) (current_term s)); [|lia]. do 2 eexists. split; [reflexivity|]. done. }
  destruct (Z.ltb_spec (is_term req) (current_term s1)); [lia|].
  destruct (step_down_candidate_wf (is_term req =? current_term s1) s1 Hwf1) as [Hwf2 Hsd2].
  set (s2 := if (is_term req =? current_term s1) && bool_decide (state s1 = Candidate)
             then s1 <| state := Follower |> else s1) in *.
  assert (id s2 = id s1 /\ current_term s2 = current_term s1) as [Hid2 Ht2]
    by (unfold s2; by destruct (_ && _)). clearbody s2.
  pose proof (sd_log _ _ Hsd2) as Hsl2. pose proof Hsl2 as (Hlog2 & Hlii2 & Hlit2).
  destruct (reset_returns g 1 s2 Hwf2) as [to ->]. cbn [mbind exec_bind].
  set (s3 := s2 <| ticks_since_last_heartbeat := 0 |> <| election_timeout := to |>
                <| current_leader := Some (is_leader_id req) |>).
  assert (same_log s s3) as Hsl3 by (etrans; [exact Hsl|exact Hsl2]).
  assert (current_term s3 = is_term req /\ id s3 = id s1 /\ current_leader s3 = Some (is_leader_id req)
    /\ current_term s1 = current_term s3) as (E1 & E2 & E3 & E4) by (split_and!; cbn; congruence || lia).
  clearbody s3. pose proof Hsl3 as (_ & <- & _). rewrite <- Hlii.
  rewrite <- (log_term_at_proper _ _ Hsl3 _ _ eq_refl).
  unfold snapshot_response. rewrite E4.
  destruct (is_last_included_index req <=? last_included_index s); [|case_bool_decide];
    do 2 eexists; (split; [reflexivity|]); cbn; rewrite ?E1, ?E2; split_and!; try done.
Qed.
