(* ===== verification/ReplicationSafety.v ===== *)
(** Theorems about log replication on one node: what a follower does with the
    leader's entries, what a leader commits, and what is applied. *)

From S2P Require Import Prelude Types RaftCore CoreLog CoreFrame CoreReplication CoreElection.
From S2P Require Import CoreInvariant CoreCommit CoreTotal.

(** ** The follower *)
Lemma merged_log_agree s req :
  core_wf s -> 0 <= ae_prev_log_index req < U64 -> prev_log_valid s req = true ->
  last_included_index s <= ae_prev_log_index req -> committed_agrees s req ->
  let m := Z.to_nat (Z.max (commit_index s) (ae_prev_log_index req) - last_included_index s) in
  take m (merged_log s req) = take m (log s).
Proof.
  intros Hwf Hprev Hv Hlii Hag m. pose proof (wf_fits _ Hwf) as Hf. pose proof Hf as [Hnn Hfit].
  assert (ae_prev_log_index req <= last_included_index s + len (log s)) as Hpr
    by (by apply prev_log_valid_range).
  pose proof (wf_commit _ Hwf) as Hc. unfold merged_log.
  set (k := Z.to_nat (ae_prev_log_index req - last_included_index s)).
  assert (length (take k (log s)) = k) as Hk by (rewrite length_take; unfold k, len in *; lia).
  replace m with (k + (m - k))%nat by (unfold m, k; lia).
  rewrite take_app_add' by done. transitivity (take (k + (m - k)) (take k (log s) ++ drop k (log s)));
    [|by rewrite take_drop]. rewrite take_app_add' by done. f_equal.
  apply merge_entries_agree; [|rewrite length_drop; unfold m, k, len in *; lia].
  intros j o e Hj Ho He. specialize (Hag j e He ltac:(unfold m, k in *; lia)).
  rewrite log_term_at_above in Hag by (done || (unfold m, k, len in *; lia)).
  rewrite lookup_drop in Ho.
  replace (k + j)%nat with (Z.to_nat (ae_prev_log_index req + 1 + Z.of_nat j - last_included_index s - 1))
    in Ho by (unfold k; lia).
  rewrite Ho in Hag. by injection Hag.
Qed.

Lemma log_entry_at_take s s' m i :
  log_fits s -> log_fits s' -> last_included_index s' = last_included_index s ->
  take m (log s') = take m (log s) -> i <= last_included_index s + Z.of_nat m -> i < U64 ->
  log_entry_at s' i = log_entry_at s i.
Proof.
  intros Hf Hf' Hlii Ht Hi Hu. destruct (Z.le_gt_cases i (last_included_index s)) as [Hle|Hgt].
  - unfold log_entry_at. rewrite Hlii. by destruct (Z.leb_spec i (last_included_index s)); [|lia].
  - rewrite !log_entry_at_above by (done || lia). rewrite Hlii.
    rewrite <- (lookup_take_lt _ m) by lia. rewrite Ht. by rewrite lookup_take_lt by lia.
Qed.

Lemma lookup_merged s req j :
  ae_prev_log_index req <= last_included_index s + len (log s) ->
  last_included_index s <= ae_prev_log_index req ->
  merged_log s req !! Z.to_nat (ae_prev_log_index req + 1 + Z.of_nat j - last_included_index s - 1)
  = merge_entries (drop (Z.to_nat (ae_prev_log_index req - last_included_index s)) (log s))
      (ae_entries req) !! j.
Proof.
  intros H1 H2. unfold merged_log.
  set (k := Z.to_nat (ae_prev_log_index req - last_included_index s)).
  assert (length (take k (log s)) = k) as Hk by (rewrite length_take; unfold k, len in *; lia).
  rewrite lookup_app_r by (rewrite Hk; unfold k; lia). f_equal. rewrite Hk. unfold k. lia.
Qed.

Lemma log_term_entry s i :
  last_included_index s < i -> log_term_at s i = e_term <$> log_entry_at s i.
Proof.
  intros Hi. unfold log_term_at. destruct (Z.ltb_spec i (last_included_index s)); [lia|].
  by destruct (Z.eqb_spec i (last_included_index s)); [lia|].
Qed.

(** The log after an accepted AppendEntries, and everything it commits and
    sends; [s'] and [acts] are the results of the handler. *)
Lemma append_entries_accepted g s req :
  core_wf s -> append_ok s req -> accepts s req ->
  exists s', core_wf s' /\ (id s' = id s /\ peers s' = peers s) /\ log s' = merged_log s req
    /\ last_included_index s' = last_included_index s
    /\ last_included_term s' = last_included_term s
    /\ meta s' = stepped_meta s (ae_term req)
    /\ current_term s' = ae_term req /\ state s' = Follower
    /\ current_leader s' = Some (ae_leader_id req)
    /\ commit_index s' = Z.max (commit_index s) (Z.min (ae_leader_commit req) (last_log_index s'))
    /\ handle_append_entries g s req =
       Done (s', step_down_write s (ae_term req) ++ merged_write s req
         ++ apply_actions (commit_index s) (newly_committed s s')
         ++ [append_response req (mkAppendEntriesResponseRPC (id s) (ae_term req)
               (last_log_index s') true None None)]).
Proof.
  intros Hwf (Hprev & Hend & Hroom & Hlc & Hacc) Hac. destruct (Hacc Hac) as [Hle Hagree].
  destruct (append_entries_prologue g s req Hwf)
    as [[Hn _]|(s3 & Hta & Hwf3 & Hsd & Hmeta & Hst & Hterm & Hlead & Hid & Heq)];
    [by destruct Hn; apply Hac|].
  pose proof (sd_log _ _ Hsd) as Hsl. pose proof Hsl as (Hlog & Hlii & Hlit).
  pose proof (sd_commit _ _ Hsd) as Hci.
  destruct (append_checked_accepts s3 req (step_down_write s (ae_term req)) (false_append_response s3))
    as (s' & acts & Hdone & [A1 [A2 A2'] A3 A4 (I1 & I2 & I3 & I4 & I5 & I6) A6] & Hwf'); try done.
  - by rewrite Hst.
  - unfold room in *. by rewrite <- Hlog, <- Hlii.
  - rewrite <- (prev_log_valid_proper _ _ Hsl _ _ eq_refl). apply Hac.
  - by rewrite <- Hlii.
  - intros j e He Hj. rewrite <- Hsl. apply Hagree; [done|]. by rewrite <- Hci.
  - assert (merged_log s3 req = merged_log s req) as Hml
      by (unfold merged_log; by rewrite <- Hlog, <- Hlii).
    exists s'. rewrite Heq, Hdone, A6. unfold merged_write, newly_committed in *.
    pose proof (sd_peers _ _ Hsd).
    rewrite Hml, <- ?Hlii, ?Hci, ?Hid, ?Hterm in *. unfold meta in *. split_and!; congruence.
Qed.

(** ** Theorems on the follower *)

(** C17: the whole effect of an accepted AppendEntries.  The log becomes the
    reference merge of the leader's entries after [prev_log_index], the node
    follows the leader at its term, the commit index moves to the leader's (cut
    at the end of the log, never back), and the actions are, in this order: the
    metadata of a newer term, the merged entries to persist, the newly
    committed entries to apply, and the success response with the last index. *)
Theorem append_entries_accept g s req :
  core_wf s -> append_ok s req -> accepts s req ->
  exists s', log s' = merged_log s req
    /\ current_term s' = ae_term req /\ state s' = Follower
    /\ current_leader s' = Some (ae_leader_id req)
    /\ commit_index s' = Z.max (commit_index s) (Z.min (ae_leader_commit req) (last_log_index s'))
    /\ last_applied s' = commit_index s'
    /\ handle_append_entries g s req =
       Done (s', step_down_write s (ae_term req) ++ merged_write s req
         ++ apply_actions (commit_index s) (newly_committed s s')
         ++ [append_response req (mkAppendEntriesResponseRPC (id s) (ae_term req)
               (last_log_index s') true None None)]).
Proof.
  intros Hwf Hok Hac.
  destruct (append_entries_accepted g s req Hwf Hok Hac) as (s' & Hwf' & H). exists s'.
  destruct H as (_ & ? & _ & _ & _ & ? & ? & ? & ? & ?). split_and!; try done. apply Hwf'.
Qed.

(** Log matching.  After an accepted AppendEntries the committed entries
    and everything up to [prev_log_index] are the ones the node had, each index
    the leader sent carries the leader's term, and where equal terms mean equal
    entries the node's log holds exactly the leader's entries there. *)
Theorem append_entries_matching g s req s' acts :
  core_wf s -> append_ok s req -> accepts s req ->
  handle_append_entries g s req = Done (s', acts) ->
  (forall i, i <= Z.max (commit_index s) (ae_prev_log_index req) ->
     log_entry_at s' i = log_entry_at s i)
  /\ (forall j e, ae_entries req !! j = Some e ->
        log_term_at s' (ae_prev_log_index req + 1 + Z.of_nat j) = Some (e_term e))
  /\ ((forall j o e, ae_entries req !! j = Some e ->
         log_entry_at s (ae_prev_log_index req + 1 + Z.of_nat j) = Some o ->
         e_term o = e_term e -> o = e) ->
      forall j e, ae_entries req !! j = Some e ->
        log_entry_at s' (ae_prev_log_index req + 1 + Z.of_nat j) = Some e).
Proof.
  intros Hwf Hok Hac H. pose proof Hok as (Hprev & Hend & Hroom & _ & Hacc).
  destruct (Hacc Hac) as [Hle Hagree].
  destruct (append_entries_accepted g s req Hwf Hok Hac)
    as (s1 & Hwf' & _ & Hlog & Hlii & _ & _ & _ & _ & _ & _ & Heq).
  rewrite H in Heq. injection Heq as <- _. pose proof (wf_commit _ Hwf) as Hc.
  pose proof (wf_fits _ Hwf) as Hf. pose proof (wf_fits _ Hwf') as Hf'. pose proof Hf as [Hnn Hfit].
  assert (ae_prev_log_index req <= last_included_index s + len (log s)) as Hpr
    by (apply prev_log_valid_range; [done|len_lia|apply Hac|done]).
  assert (forall j e, ae_entries req !! j = Some e -> Z.of_nat j < len (ae_entries req)) as Hj.
  { intros j e He%lookup_lt_Some. unfold len. lia. }
  assert (forall j, Z.of_nat j < len (ae_entries req) ->
    log_entry_at s' (ae_prev_log_index req + 1 + Z.of_nat j) =
    merge_entries (drop (Z.to_nat (ae_prev_log_index req - last_included_index s)) (log s))
      (ae_entries req) !! j) as Hat.
  { intros j ?. rewrite log_entry_at_above by (done || lia). rewrite Hlog, Hlii. by apply lookup_merged. }
  split_and!.
  - intros i Hi. eapply log_entry_at_take; [done..| | |lia].
    + rewrite Hlog. apply merged_log_agree; try done; [lia|apply Hac].
    + lia.
  - intros j e He. destruct (merge_entries_terms
      (drop (Z.to_nat (ae_prev_log_index req - last_included_index s)) (log s)) _ _ _ He) as (o & Ho & Ht).
    pose proof (Hj j e He) as Hlt. rewrite log_term_entry by (done || lia). rewrite Hat, Ho by done.
    cbn. by rewrite Ht.
  - intros Hm j e He. rewrite Hat by eauto. eapply prefix_lookup_Some; [done|].
    apply merge_entries_matching. intros j' o e' Ho He'. apply (Hm j'); [done|].
    pose proof (Hj _ _ He'). rewrite log_entry_at_above by (done || lia).
    rewrite lookup_drop in Ho. rewrite <- Ho. f_equal. lia.
Qed.

(** The answer of a follower whose log does not match. *)
Lemma append_entries_rejected g s req :
  core_wf s -> is_u64 (ae_prev_log_index req) -> term_accepted s req ->
  prev_log_valid s req = false ->
  exists s' i t, handle_append_entries g s req =
      Done (s', step_down_write s (ae_term req)
                ++ [append_response req (false_append_response s' i t)])
    /\ same_data s s' /\ current_term s' = ae_term req /\ state s' = Follower /\ id s' = id s
    /\ meta s' = stepped_meta s (ae_term req)
    /\ match t with
       | None => last_log_index s < ae_prev_log_index req /\ i = Some (last_log_index s + 1)
       | Some ct => ae_prev_log_index req <= last_log_index s
           /\ ct = term_or_0 s (ae_prev_log_index req)
           /\ log_term_at s (ae_prev_log_index req) <> Some (ae_prev_log_term req)
       end
    /\ match i with
       | Some k => 0 < k <= ae_prev_log_index req
           /\ (forall j ct, t = Some ct -> k <= j < ae_prev_log_index req -> term_or_0 s j = ct)
           /\ (forall ct, t = Some ct -> term_or_0 s (k - 1) <> ct)
       | None => forall j, 0 <= j < ae_prev_log_index req ->
           Some (term_or_0 s j) = t
       end.
Proof.
  intros Hwf Hprev Hta Hv. destruct (append_entries_prologue g s req Hwf)
    as [[Hn _]|(s3 & _ & Hwf3 & Hsd & Hmeta & Hst3 & Hterm & _ & Hid3 & Heq)]; [done|].
  pose proof (sd_log _ _ Hsd) as Hsl. pose proof (wf_fits _ Hwf) as [Hnn Hfit].
  assert (forall j, term_or_0 s3 j = term_or_0 s j) as Hto by (intros; unfold term_or_0; by rewrite Hsl).
  rewrite Heq. unfold append_checked. rewrite <- (prev_log_valid_proper _ _ Hsl _ _ eq_refl), Hv.
  cbn [negb]. rewrite <- (last_log_index_proper _ _ Hsl). unfold prev_log_valid in Hv. apply orb_false_iff in Hv as [Hz Hv].
  apply Z.eqb_neq in Hz. unfold is_u64 in Hprev.
  destruct (Z.ltb_spec (last_log_index s) (ae_prev_log_index req)) as [Hlt|Hge].
  - pose proof Hlt as Hlt'. rewrite last_log_index_eq in Hlt' by apply Hwf.
    assert (last_log_index s +! 1 = last_log_index s + 1) as ->
      by (rewrite last_log_index_eq by apply Hwf; apply u64_add_small; len_lia).
    do 3 eexists. split; [reflexivity|]. split_and!; try done.
    all: try (rewrite last_log_index_eq by apply Hwf; len_lia).
  - fold (term_or_0 s3 (ae_prev_log_index req)). rewrite Hto.
    pose proof (find_conflicting_index_spec s3 (term_or_0 s (ae_prev_log_index req))
      (Z.to_nat (ae_prev_log_index req)) ltac:(lia)) as Hf.
    do 3 eexists. split; [reflexivity|]. split_and!; try done.
    + intros Hct. rewrite bool_decide_true, andb_true_r in Hv by done.
      apply Z.leb_gt in Hv. lia.
    + case_match; setoid_rewrite Hto in Hf.
      * destruct Hf as (H1 & H2 & H3). split_and!; [lia..| |].
        -- intros j ct [= <-] Hj. apply H3. lia.
        -- by intros ct [= <-].
      * intros j Hj. f_equal. apply Hf. lia.
Qed.


(** ** The leader *)

(** The nodes that hold index [i]: the leader, and the peers whose match index
    has reached it. *)
Definition holders (s : RaftCore) (i : Z) : gset Z :=
  {[id s]} ∪ dom (filter (fun kv => i <= kv.2) (match_index s)).

Lemma length_filter_snd (l : list (Z * Z)) i :
  length (filter (fun v => i <= v) l.*2) = length (filter (fun kv => i <= kv.2) l).
Proof.
  induction l as [|[k v] l IH]; [done|]. cbn [fmap list_fmap snd].
  destruct (decide (i <= v)).
  - rewrite !filter_cons_True by done. cbn. by rewrite IH.
  - rewrite !filter_cons_False by done. done.
Qed.

(** A map filter keeps as many bindings as the filter of its list. *)
Lemma size_map_filter (m : gmap Z Z) i :
  size (filter (fun kv => i <= kv.2) m) = length (filter (fun kv => i <= kv.2) (map_to_list m)).
Proof.
  rewrite map_filter_alt, <- length_map_to_list. rewrite map_to_list_to_map; [done|].
  eapply sublist_NoDup; [apply (NoDup_fst_map_to_list m)|]. apply fmap_sublist, sublist_filter.
Qed.

(** Counting holders is counting the leader's indices. *)
Lemma holders_size s i :
  match_index s !! id s = None -> i <= last_log_index s ->
  size (holders s i) = replicas s i.
Proof.
  intros Hid Hi. unfold holders, replicas, peer_indices.
  rewrite filter_app, length_app, length_filter_snd, <- size_map_filter.
  rewrite filter_cons_True by done. cbn. rewrite size_union, size_singleton, size_dom; [lia|].
  apply disjoint_singleton_l. intros (v & Hv)%elem_of_dom. apply map_lookup_filter_Some in Hv as [Hv _].
  congruence.
Qed.

Lemma holders_members s i (all : list Z) :
  id s ∈ all -> (forall n, n ∈ dom (match_index s) -> n ∈ all) -> forall v, v ∈ holders s i -> v ∈ all.
Proof.
  unfold holders. intros Hid Hd v [->%elem_of_singleton|Hv]%elem_of_union; [done|].
  apply Hd. by apply dom_filter_subseteq in Hv.
Qed.

Lemma replicas_mono s i j : i <= j -> (replicas s j <= replicas s i)%nat.
Proof.
  intros Hij. unfold replicas. induction (peer_indices s) as [|v l IH]; [done|].
  destruct (decide (j <= v)).
  - rewrite !filter_cons_True by lia. cbn. lia.
  - rewrite filter_cons_False by lia. destruct (decide (i <= v)).
    + rewrite filter_cons_True by lia. cbn. lia.
    + by rewrite filter_cons_False by lia.
Qed.

(** A successful response is recorded before the commit rule runs. *)
Definition record_match (s : RaftCore) (resp : AppendEntriesResponseRPC) : RaftCore :=
  s <| match_index := <[aer_id resp := aer_match_index resp]> (match_index s) |>
    <| next_index := <[aer_id resp := aer_match_index resp +! 1]> (next_index s) |>
    <| append_entries_count := append_entries_count s +! 1 |>.

Lemma record_match_wf s resp :
  core_wf s -> append_response_ok s resp -> aer_success resp = true -> core_wf (record_match s resp).
Proof.
  intros Hwf Hok Hs. unfold append_response_ok in Hok. rewrite Hs in Hok.
  destruct Hok as (Hst & _ & Hp & Hm).
  rewrite last_log_index_eq in Hm by apply Hwf. destruct Hwf as [W1 W2 W3 W4 W5 W6 W7 W8].
  split; cbn; try done.
  - apply map_Forall_insert_2; [apply u64_add_range|done].
  - intros n v [[<- _]|[_ ?]]%lookup_insert_Some; eauto.
  - intros _. apply map_Forall_insert_2; auto.
Qed.

Lemma append_success g s resp :
  core_wf s -> append_response_ok s resp -> aer_success resp = true ->
  exists r c rb ready, let s1 := record_match s resp in
    replicated_index s1 = Done r /\ commit_result s1 r c
    /\ c <= last_included_index s + len (log s)
    /\ handle_append_entries_response g s resp =
       Done (s1 <| commit_index := c |> <| last_applied := c |> <| read_barriers := rb |>,
             apply_actions (commit_index s) (newly_committed s (s1 <| commit_index := c |>)) ++ ready)
    /\ ready_barriers (s1 <| commit_index := c |> <| last_applied := c |>)
       = (s1 <| commit_index := c |> <| last_applied := c |> <| read_barriers := rb |>, ready).
Proof.
  intros Hwf Hok Hs. pose proof (record_match_wf s resp Hwf Hok Hs) as Hwf1.
  unfold append_response_ok in Hok. rewrite Hs in Hok. destruct Hok as (Hst & Ht & _).
  destruct (leader_commit_returns _ Hwf1 Hst) as (r & c & entries & Hr & Hcr & Hsl & Hlc & Hwf2).
  unfold handle_append_entries_response. destruct (check_returns g s (aer_term resp) Hwf)
    as (s1 & o & -> & _ & _ & [(_ & -> & ->)|(Hlt & _)]); [|lia].
  cbn [mbind exec_bind]. rewrite Hs. fold (record_match s resp). rewrite Hlc. cbn [mbind exec_bind].
  destruct (ready_barriers _) as [s3 ready] eqn:Hrb.
  pose proof Hrb as [[rb ->] _]%ready_barriers_quiet.
  pose proof (wf_commit _ Hwf2) as Hc2. cbn -[record_match] in Hc2.
  exists r, c, rb, ready. cbv zeta. split_and!; try done; [apply Hc2|].
  pose proof (wf_applied _ Hwf) as Ha. pose proof (wf_commit _ Hwf) as Hc.
  pose proof (wf_fits _ Hwf) as [Hnn Hfit]. pose proof (cr_grows _ _ _ Hcr) as Hg. cbn in Hg, Hc2.
  change (last_applied (record_match s resp)) with (last_applied s) in *.
  rewrite !u64_add_small in Hsl by lia. rewrite log_slice_eq in Hsl; [|apply Hwf1|..];
    rewrite ?last_log_index_eq by apply Hwf1; cbn in *; try lia.
  injection Hsl as <-.
  unfold newly_committed. cbn -[record_match]. rewrite Ha.
  replace (Z.to_nat (c + 1 - (commit_index s + 1))) with (Z.to_nat (c - commit_index s)) by lia.
  replace (Z.to_nat (commit_index s + 1 - last_included_index s - 1))
    with (Z.to_nat (commit_index s - last_included_index s)) by lia. done.
Qed.

(** The commit rule, with the state and the actions of the handler. *)
Lemma commit_rule g s resp :
  core_wf s -> append_response_ok s resp -> aer_success resp = true ->
  NoDup (id s :: peers s) -> dom (match_index s) = list_to_set (peers s) ->
  exists c rb ready, let s1 := record_match s resp in
    handle_append_entries_response g s resp =
      Done (s1 <| commit_index := c |> <| last_applied := c |> <| read_barriers := rb |>,
            apply_actions (commit_index s) (newly_committed s (s1 <| commit_index := c |>))
              ++ (ReadBarrierReady <$> ready))
    /\ commit_index s <= c <= last_log_index s
    /\ (commit_index s < c -> log_term_at s c = Some (current_term s)
        /\ forall Q : gset Z, (forall v, v ∈ Q -> v ∈ id s :: peers s) ->
             len (id s :: peers s) / 2 < Z.of_nat (size Q) -> exists v, v ∈ Q /\ v ∈ holders s1 c)
    /\ (forall j, c < j <= last_log_index s -> log_term_at s j = Some (current_term s) ->
          2 * Z.of_nat (size (holders s1 j)) < len (id s :: peers s)).
Proof.
  intros Hwf Hok Hs [Hid Hnd]%NoDup_cons Hdom.
  destruct (append_success g s resp Hwf Hok Hs) as (r & c & rb & ready & Hr & [Hg Hb Hcur Hmax] & Hcl & Heq & Hrb).
  set (s1 := record_match s resp) in *. pose proof (wf_fits _ Hwf) as Hf.
  assert (aer_id resp ∈ peers s) as Hpeer.
  { unfold append_response_ok in Hok. rewrite Hs in Hok. apply Hok. }
  assert (dom (match_index s1) = list_to_set (peers s)) as Hdom1
    by (cbn; rewrite dom_insert_L, Hdom; set_solver).
  assert (match_index s1 !! id s = None) as Hself
    by (apply not_elem_of_dom; rewrite Hdom1; set_solver).
  assert (length (peer_indices s1) = S (length (peers s))) as Hn.
  { unfold peer_indices. rewrite length_app, length_fmap, length_map_to_list, <- size_dom, Hdom1.
    rewrite size_list_to_set by done. cbn. lia. }
  destruct (replicated_index_Done s1) as (r' & Hr' & _ & Hhalf & Hless).
  assert (r' = r) as -> by congruence. rewrite Hn in Hhalf, Hless.
  unfold ready_barriers in Hrb. injection Hrb as _ <-.
  exists c, rb, ((map_to_list (filter (fun kv => kv.2 +! (len (peers s) + 1) / 2 <= append_entries_count s1)
    (read_barriers s))).*1). split; [rewrite Heq, <- list_fmap_compose; reflexivity|].
  rewrite last_log_index_eq by done. unfold len in *. cbn in Hg.
  pose proof (Nat.div_mod_eq (S (length (peers s))) 2).
  pose proof (Nat.mod_upper_bound (S (length (peers s))) 2).
  split_and!; [done..| |].
  - intros Hlt. destruct Hcur as [|Hcur]; [cbn in *; lia|]. split; [exact Hcur|]. intros Q HQ Hmaj.
    destruct Hb as [|Hb]; [cbn in *; lia|].
    assert (size (holders s1 c) = replicas s1 c) as Hsz
      by (apply holders_size; [done|rewrite last_log_index_eq; done]).
    apply (sets_meet (id s :: peers s));
      [exact HQ|apply holders_members; [left|rewrite Hdom1; set_solver]|]. rewrite Hsz. cbn [length] in *.
    pose proof (replicas_mono s1 c r Hb). unfold len. cbn [length]. Z.div_mod_to_equations. lia.
  - intros j Hj Hterm.
    assert (r < j) as Hrj by (destruct (Z.lt_ge_cases r j); [done|]; destruct (Hmax j); [lia|done]).
    rewrite holders_size by (done || (rewrite last_log_index_eq by done; cbn; unfold len; lia)).
    specialize (Hless j Hrj). cbn [length]. lia.
Qed.

(** ** Theorem on the leader *)


(** C34: read barriers.  A successful response confirms exactly the reads that
    have waited for a majority of responses (counting the leader itself), and
    drops them, so that each read is confirmed once; the others keep waiting. *)
Theorem read_barriers_confirmed g s resp :
  core_wf s -> append_response_ok s resp -> aer_success resp = true ->
  exists s' acts, handle_append_entries_response g s resp = Done (s', acts)
    /\ (forall b, ReadBarrierReady b ∈ acts <-> exists c, read_barriers s !! b = Some c
          /\ c +! (len (peers s) + 1) / 2 <= append_entries_count s +! 1)
    /\ (forall b c, read_barriers s' !! b = Some c <-> read_barriers s !! b = Some c
          /\ append_entries_count s +! 1 < c +! (len (peers s) + 1) / 2).
Proof.
  intros Hwf Hok Hs.
  destruct (append_success g s resp Hwf Hok Hs) as (r & c & rb & ready & _ & _ & _ & Heq & Hrb).
  do 2 eexists. split; [exact Heq|]. unfold ready_barriers in Hrb. injection Hrb as Hrb Hready.
  split.
  - intros b. rewrite elem_of_app, <- Hready. setoid_rewrite list_elem_of_fmap. split.
    + intros [Hin|([b' c'] & [= ->] & Hin)].
      * unfold apply_actions in Hin. apply list_elem_of_lookup in Hin as (k & Hk).
        rewrite list_lookup_imap in Hk. apply fmap_Some in Hk as (e & _ & [=]).
      * apply elem_of_map_to_list, map_lookup_filter_Some in Hin as [Hin Hle]. by exists c'.
    + intros (c' & Hc & Hle). right. exists (b, c'). split; [done|].
      apply elem_of_map_to_list, map_lookup_filter_Some. done.
  - intros b c'. cbn. rewrite <- Hrb, map_lookup_filter_Some. cbn. split; intros [? ?]; (split; [done|]); lia.
Qed.
