(* ===== verification/CatchUp.v ===== *)
(** Bringing a follower up to date: the exchange of appends and rejections
    between a leader and one follower ends. *)

From S2P Require Import Prelude Types RaftCore CoreLog CoreFrame CoreReplication CoreElection.
From S2P Require Import CoreInvariant CoreCommit CoreTotal CoreTiming ReplicationSafety.

(** How an exchange ends for this round. *)
Inductive Round : Type :=
| Accepted (f : RaftCore)
| NeedsSnapshot
| Retry (l f : RaftCore).

(** The leader builds an append for [f]; [f] answers; a rejection goes back to
    the leader. *)
Definition exchange (g : Rng) (l f : RaftCore) : exec Round :=
  a ← build_append_entries_for_peer l (id f);
  match a with
  | SendMessage _ (AppendEntries req) =>
      '(f, acts) ← handle_append_entries g f req;
      match last acts with
      | Some (SendMessage _ (AppendEntriesResponse resp)) =>
          if aer_success resp then Done (Accepted f)
          else '(l, _) ← handle_append_entries_response g l resp; Done (Retry l f)
      | _ => Panic
      end
  | _ => Done NeedsSnapshot
  end.

(** At most [fuel] rounds. *)
Fixpoint catch_up (g : Rng) (fuel : nat) (l f : RaftCore) : exec (option Round) :=
  match fuel with
  | O => Done None
  | S fuel =>
      r ← exchange g l f;
      match r with
      | Retry l f => catch_up g fuel l f
      | r => Done (Some r)
      end
  end.

(** The leader's next index for peer [p] is [nx]. *)
Definition aim (l : RaftCore) (p : NodeId) (nx : Z) : RaftCore :=
  l <| next_index := <[p := nx]> (next_index l) |>.

(** Whatever the leader sends from an index up to [nx], the follower can take. *)
Definition serves (l f : RaftCore) (nx : Z) : Prop :=
  forall nx' req, 0 <= nx' <= nx ->
    build_append_entries_for_peer (aim l (id f) nx') (id f) = Done (SendMessage (id f) (AppendEntries req)) ->
    append_ok f req.

Lemma append_ok_same f f' req :
  same_data f f' -> current_term f' = current_term f -> state f <> Leader -> state f' <> Leader ->
  append_ok f req -> append_ok f' req.
Proof.
  intros Hsd Ht Hs Hs' (H1 & H2 & H3 & H4 & H5). pose proof (sd_log _ _ Hsd) as Hsl.
  pose proof Hsl as (Hlog & Hlii & _). unfold append_ok, room in *. rewrite <- Hlog, <- Hlii.
  split_and!; try done; [apply H4..|]. intros [Hta Hv].
  destruct H5 as [Hle Hag].
  { split; [|by rewrite (prev_log_valid_proper _ _ Hsl _ _ eq_refl)].
    rewrite Ht in Hta. destruct Hta as [|[? _]]; [by left|by right]. }
  split; [done|]. intros j e He Hj. rewrite <- Hsl. apply Hag; [done|].
  by rewrite <- (sd_commit _ _ Hsd).
Qed.

(** A rejection of the leader's own term moves its next index to the hint. *)
Lemma rejection_retries g l p nx i t m :
  core_wf l -> next_index l !! p = Some nx -> (forall k, i = Some k -> is_u64 k) ->
  exists acts, handle_append_entries_response g l
      (mkAppendEntriesResponseRPC p (current_term l) m false i t)
    = Done (aim l p (default 0 i), acts) /\ core_wf (aim l p (default 0 i)).
Proof.
  intros Hwf Hnx Hi. unfold handle_append_entries_response. cbn [aer_term aer_success aer_id
    aer_first_conflicting_index].
  assert (check_msg_term g l (current_term l) = Done (l, None)) as ->
    by (unfold check_msg_term; by rewrite Z.ltb_irrefl).
  cbn [mbind exec_bind].
  assert (forall k, alter (fun _ => k) p (next_index l) = <[p := k]> (next_index l)) as Halter.
  { intros k. apply map_eq. intros q. destruct (decide (q = p)) as [->|].
    - by rewrite lookup_alter_eq, lookup_insert_eq, Hnx.
    - by rewrite lookup_alter_ne, lookup_insert_ne. }
  assert (core_wf (aim l p (default 0 i))) as Hwf'.
  { destruct Hwf as [W1 W2 W3 W4 W5 W6 W7 W8]. split; try done. cbn.
    apply map_Forall_insert_2; [|done]. destruct i as [k|]; [by apply Hi|done]. }
  assert ((match i with
    | Some ind => l <| next_index := alter (fun _ => ind) p (next_index l) |>
    | None => l <| next_index := alter (fun _ => 0) p (next_index l) |>
    end) = aim l p (default 0 i)) as -> by (unfold aim; destruct i; by rewrite Halter).
  destruct (build_append_entries_returns (aim l p (default 0 i)) p) as [a ->]; [apply Hwf'..|].
  by eexists.
Qed.

(** What the leader builds. *)
Lemma build_append_shape s p a :
  build_append_entries_for_peer s p = Done a ->
  (exists req, a = SendMessage p (AppendEntries req))
  \/ (exists t i it, a = SendInstallSnapshot p t i it).
Proof.
  unfold build_append_entries_for_peer, install_snapshot_for_peer. case_match; intros H'; exec_inv.
  - left. by eexists.
  - right. by do 3 eexists.
Qed.

Lemma build_append_fields s p req nx :
  build_append_entries_for_peer s p = Done (SendMessage p (AppendEntries req)) ->
  next_index s !! p = Some nx -> is_u64 nx ->
  ae_term req = current_term s /\ ae_prev_log_index req = Z.max 0 (nx - 1).
Proof.
  intros H Hnx Hu. unfold build_append_entries_for_peer in H. rewrite Hnx in H.
  change (default (last_log_index s) (Some nx)) with nx in H. unfold is_u64 in Hu.
  case_match; [|done]. apply exec_bind_Done in H as (entries & _ & H). injection H as <-. cbn. split; [done|].
  destruct (Z.ltb_spec 0 nx); [rewrite u64_sub_small|]; lia.
Qed.

(** More fuel does not change a result. *)
Lemma catch_up_mono g n m l f r :
  catch_up g n l f = Done (Some r) -> catch_up g (n + m) l f = Done (Some r).
Proof.
  revert l f. induction n as [|n IH]; intros l f H; [done|]. cbn in H |- *.
  destruct (exchange g l f) as [[]|]; cbn in *; auto.
Qed.

(** One round: over, or the next index went down. *)
Lemma exchange_progress g l f nx :
  core_wf l -> core_wf f -> current_term f = current_term l -> state f <> Leader ->
  next_index l !! id f = Some nx -> 0 <= nx <= last_log_index l + 1 -> serves l f nx ->
  exists r, exchange g l f = Done r /\
    match r with
    | Accepted f' => core_wf f'
    | NeedsSnapshot => True
    | Retry l' f' => exists k, 0 <= k < nx /\ l' = aim l (id f) k /\ core_wf l' /\ core_wf f'
        /\ same_data f f' /\ current_term f' = current_term f /\ state f' <> Leader /\ id f' = id f
    end.
Proof.
  intros Hl Hf Hterm Hst Hnx Hr Hsv. unfold exchange.
  destruct (build_append_entries_returns l (id f) (wf_fits _ Hl) (wf_next _ Hl)) as [a Ha].
  rewrite Ha. cbn [mbind exec_bind]. destruct (build_append_shape _ _ _ Ha) as [(req & ->)|(t & i & it & ->)];
    [|by eexists].
  assert (aim l (id f) nx = l) as Haim.
  { unfold aim. rewrite insert_id by done. by destruct l. }
  assert (append_ok f req) as Hok by (apply (Hsv nx); [lia|]; by rewrite Haim).
  destruct (build_append_fields _ _ _ _ Ha Hnx ltac:(rewrite last_log_index_eq in Hr by apply Hl;
    destruct (wf_fits _ Hl); unfold is_u64; lia)) as [Hreqt Hprev].
  assert (term_accepted f req) as Hta by (right; split; [congruence|done]).
  destruct (prev_log_valid f req) eqn:Hv.
  - destruct (append_entries_accepted g f req Hf Hok (conj Hta Hv))
      as (f' & Hwf' & _ & _ & _ & _ & _ & _ & _ & _ & _ & ->). cbn [mbind exec_bind].
    rewrite !app_assoc, last_snoc. cbn. by eexists.
  - assert (is_u64 (ae_prev_log_index req)) as Hu.
    { rewrite Hprev. rewrite last_log_index_eq in Hr by apply Hl. destruct (wf_fits _ Hl).
      unfold is_u64. len_lia. }
    destruct (append_entries_rejected g f req Hf Hu Hta Hv)
      as (f' & i & t & -> & Hsd & Ht & Hs' & Hid' & _ & _ & Hi).
    cbn [mbind exec_bind]. rewrite last_snoc. cbn [append_response false_append_response aer_success].
    assert (1 < nx) as Hnx1.
    { destruct (Z.lt_ge_cases 1 nx); [done|]. unfold prev_log_valid in Hv.
      replace (ae_prev_log_index req) with 0 in Hv by lia. done. }
    unfold false_append_response. rewrite Hid', Ht, Hreqt.
    destruct (rejection_retries g l (id f) nx i t (last_log_index f') Hl Hnx) as (acts & -> & Hwfl).
    { intros k ->. unfold is_u64 in *. destruct Hi as [? _]. lia. }
    cbn [mbind exec_bind]. eexists. split; [reflexivity|]. exists (default 0 i).
    assert (0 <= default 0 i < nx) as Hk by (destruct i as [k|]; cbn; [destruct Hi as [? _]|]; lia).
    split_and!; try done; try congruence; try lia; by eapply core_wf_same_data.
Qed.

(** C19: catching up ends.  Between a leader and a follower of its term, the
    loop of append, rejection with a hint and retry ends after at most
    [next_index + 1] rounds: the follower accepts an append, or the leader
    finds that the follower needs its snapshot.  Nothing panics on the way. *)
Theorem catch_up_terminates g l f nx :
  core_wf l -> core_wf f -> current_term f = current_term l -> state f <> Leader ->
  next_index l !! id f = Some nx -> 0 <= nx <= last_log_index l + 1 -> serves l f nx ->
  exists r, catch_up g (Z.to_nat nx + 1) l f = Done (Some r)
    /\ match r with Retry _ _ => False | Accepted f' => core_wf f' | NeedsSnapshot => True end.
Proof.
  remember (Z.to_nat nx) as n eqn:Hn. revert l f nx Hn.
  induction (lt_wf n) as [n _ IH]. intros l f nx -> Hl Hf Ht Hs Hnx Hr Hsv.
  destruct (exchange_progress g l f nx Hl Hf Ht Hs Hnx Hr Hsv) as (r & He & Hcase).
  rewrite Nat.add_1_r. cbn [catch_up]. rewrite He. cbn [mbind exec_bind].
  destruct r as [f'| |l' f']; [by eexists..|].
  destruct Hcase as (k & Hk & -> & Hl' & Hf' & Hsd & Ht' & Hs' & Hid).
  destruct (IH (Z.to_nat k) ltac:(lia) (aim l (id f) k) f' k eq_refl) as (r & Hc & Hr'); try done.
  - cbn; congruence.
  - cbn. rewrite Hid. apply lookup_insert_eq.
  - change (last_log_index (aim l (id f) k)) with (last_log_index l). lia.
  - intros nx' req Hn' Hb. rewrite Hid in Hb. eapply append_ok_same; [exact Hsd|done..|].
    apply (Hsv nx'); [lia|]. rewrite <- Hb. unfold aim. cbn. by rewrite insert_insert_eq.
  - exists r. split; [|done].
    replace (Z.to_nat nx) with ((Z.to_nat k + 1) + (Z.to_nat nx - Z.to_nat k - 1))%nat by lia.
    by apply catch_up_mono.
Qed.
