(* ===== verification/CoreEffects.v ===== *)
(** What the core's actions amount to: executing them on the durable state of
    a node gives the durable part of its new state, and the entries they apply
    are the newly committed ones, each once and in order. *)

From S2P Require Import Prelude Types RaftCore CoreLog CoreFrame CoreReplication CoreElection.
From S2P Require Import CoreInvariant CoreCommit CoreTotal ReplicationSafety.

(** ** The durable state

    An abstract disk: metadata, the snapshot's index and term, and the log
    entries above the snapshot. *)
Record Durable := mkDurable {
  du_meta : metadata;
  du_base : Z * Z;
  du_log : list LogEntry;
}.

(** Writing entries from [start] on replaces everything from there. *)
Definition write_entries (base : Z) (l : list LogEntry) (start : Z) (entries : list LogEntry)
    : list LogEntry :=
  take (Z.to_nat (start - base - 1)) l ++ entries.

(** One action; a write that would leave a gap, or reach below the snapshot,
    has no meaning. *)
Definition exec_durable (d : Durable) (a : Action) : option Durable :=
  match a with
  | PersistMetadata t v => Some (mkDurable (t, v) (du_base d) (du_log d))
  | PersistLogEntries start entries =>
      let base := (du_base d).1 in
      if (base <? start) && (start <=? base + len (du_log d) + 1) then
        Some (mkDurable (du_meta d) (du_base d) (write_entries base (du_log d) start entries))
      else None
  | ActInstallSnapshot index term _ => Some (mkDurable (du_meta d) (index, term) [])
  | _ => Some d
  end.

Fixpoint exec_durables (d : Durable) (acts : list Action) : option Durable :=
  match acts with
  | [] => Some d
  | a :: acts => d ← exec_durable d a; exec_durables d acts
  end.

Definition durable_of (s : RaftCore) : Durable :=
  mkDurable (meta s) (last_included_index s, last_included_term s) (log s).

Definition durable_step (s : RaftCore) (acts : list Action) (s' : RaftCore) : Prop :=
  exec_durables (durable_of s) acts = Some (durable_of s').

(** ** Applied commands *)
Definition apply_of (a : Action) : option (Z * bytes) :=
  match a with ApplyToStateMachine i c => Some (i, c) | _ => None end.

(** The commands of the log at the indices above [lo], up to [hi]. *)
Definition commands (s : RaftCore) (lo hi : Z) : list (Z * bytes) :=
  imap (fun k e => (lo + 1 + Z.of_nat k, e_command e))
    (take (Z.to_nat (hi - lo)) (drop (Z.to_nat (lo - last_included_index s)) (log s))).

(** ** Composition *)

(** An action that touches neither the disk nor the state machine. *)
Definition transient (a : Action) : Prop :=
  match a with
  | SendMessage _ _ | SendInstallSnapshot _ _ _ _ | ReadBarrierReady _ => True
  | _ => False
  end.

Lemma exec_durables_app d a b :
  exec_durables d (a ++ b) = exec_durables d a ≫= fun d => exec_durables d b.
Proof.
  revert d. induction a as [|x a IH]; intros d; [done|]. cbn. destruct (exec_durable d x); [|done].
  apply IH.
Qed.

Lemma durable_step_app s s1 s2 a b :
  durable_step s a s1 -> durable_step s1 b s2 -> durable_step s (a ++ b) s2.
Proof. unfold durable_step. intros H1 H2. by rewrite exec_durables_app, H1. Qed.

Lemma durable_step_transient s s' acts :
  Forall transient acts -> durable_of s' = durable_of s -> durable_step s acts s'.
Proof.
  unfold durable_step. intros Ht ->. generalize (durable_of s).
  induction Ht as [|a acts Ha Ht IH]; intros d; [done|]. destruct a; done || apply IH.
Qed.

Lemma transient_applies acts : Forall transient acts -> omap apply_of acts = [].
Proof. induction 1 as [|[] acts Ha Hacts IH]; done. Qed.

Lemma append_actions_transient acts : Forall is_append_action acts -> Forall transient acts.
Proof. intros H. eapply Forall_impl; [exact H|]. by intros []. Qed.

Lemma commands_none s a : commands s a a = [].
Proof. unfold commands. by rewrite Z.sub_diag. Qed.

Lemma omap_imap_apply (f h : nat -> Z) (l : list LogEntry) :
  (forall k, (k < length l)%nat -> f k = h k) ->
  omap apply_of (imap (fun k e => ApplyToStateMachine (f k) (e_command e)) l)
  = imap (fun k e => (h k, e_command e)) l.
Proof.
  revert f h. induction l as [|e l IH]; intros f h Hk; [done|].
  cbn. rewrite (Hk 0%nat) by (cbn; lia). f_equal.
  apply (IH (f ∘ S) (h ∘ S)). intros k Hlt. apply Hk. cbn. lia.
Qed.

Lemma applied_commands base (l : list LogEntry) :
  0 <= base -> base + len l < U64 ->
  omap apply_of (apply_actions base l) =
  imap (fun k e => (base + 1 + Z.of_nat k, e_command e)) l.
Proof.
  intros H0 H1. apply (omap_imap_apply (fun k => Z.of_nat k +! base +! 1)). intros k Hk.
  unfold len in H1. rewrite !u64_add_small; rewrite ?u64_add_small; lia.
Qed.

Lemma imap_apply_durable (f : nat -> Z) (l : list LogEntry) d :
  exec_durables d (imap (fun k e => ApplyToStateMachine (f k) (e_command e)) l) = Some d.
Proof. revert f d. induction l as [|e l IH]; intros f d; [done|]. apply (IH (f ∘ S)). Qed.

Lemma apply_durable d base l : exec_durables d (apply_actions base l) = Some d.
Proof. apply (imap_apply_durable (fun k => Z.of_nat k +! base +! 1)). Qed.

(** What the term check of a message contributes. *)
Lemma check_effects g s t s1 o :
  check_msg_term g s t = Done (s1, o) ->
  durable_step s (default [] o) s1 /\ omap apply_of (default [] o) = []
  /\ last_applied s1 = last_applied s.
Proof.
  intros [(_ & -> & ->)|(_ & -> & to & ->)]%check_msg_term_Done; [done|]. split_and!; done.
Qed.

(** The effect of one input. *)
Definition effects (s : RaftCore) (acts : list Action) (s' : RaftCore) : Prop :=
  durable_step s acts s'
  /\ omap apply_of acts = commands s' (last_applied s) (last_applied s').

(** Stages that apply nothing. *)
Lemma effects_silent s acts s' :
  durable_step s acts s' -> omap apply_of acts = [] -> last_applied s' = last_applied s ->
  effects s acts s'.
Proof. intros H1 H2 H3. split; [done|]. by rewrite H2, H3, commands_none. Qed.

Lemma effects_checked g s t s1 o s' rest :
  check_msg_term g s t = Done (s1, o) -> effects s1 rest s' -> effects s (default [] o ++ rest) s'.
Proof.
  intros (Hd & Ha & Hl)%check_effects [Hr Hap]. split; [by eapply durable_step_app|].
  by rewrite omap_app, Ha, Hap, Hl.
Qed.

Lemma effects_transient s acts s' :
  Forall transient acts -> durable_of s' = durable_of s -> last_applied s' = last_applied s ->
  effects s acts s'.
Proof.
  intros Ht Hd Hl. apply effects_silent; [by apply durable_step_transient| |done].
  by apply transient_applies.
Qed.

Lemma effects_ext s s1 acts s' :
  durable_of s1 = durable_of s -> last_applied s1 = last_applied s -> effects s1 acts s' ->
  effects s acts s'.
Proof. unfold effects, durable_step. by intros -> ->. Qed.

(** One write, then sends. *)
Lemma effects_write s a rest s' :
  exec_durable (durable_of s) a = Some (durable_of s') -> apply_of a = None -> Forall transient rest ->
  last_applied s' = last_applied s -> effects s (a :: rest) s'.
Proof.
  intros Hd Ha Ht Hl. apply effects_silent; [|cbn; by rewrite Ha, transient_applies|done].
  unfold durable_step. cbn [exec_durables]. rewrite Hd. by apply durable_step_transient.
Qed.

(** Appending one entry and persisting it. *)
Lemma write_pushed d e :
  exec_durable d (PersistLogEntries ((du_base d).1 + len (du_log d) + 1) [e])
  = Some (mkDurable (du_meta d) (du_base d) (du_log d ++ [e])).
Proof.
  cbn. destruct (Z.ltb_spec (du_base d).1 ((du_base d).1 + len (du_log d) + 1)); [|len_lia].
  destruct (Z.leb_spec ((du_base d).1 + len (du_log d) + 1) ((du_base d).1 + len (du_log d) + 1)); [|lia].
  cbn. do 2 f_equal. unfold write_entries, len. by rewrite take_ge by lia.
Qed.

(** ** The handlers *)
Lemma heartbeat_effects s s' acts : heartbeat s = Done (s', acts) -> effects s acts s'.
Proof.
  unfold heartbeat. intros H. case_match; exec_inv; [|by apply effects_transient].
  apply append_entries_shape, append_actions_transient in Hx. by apply effects_transient.
Qed.

Lemma election_timeout_effects g s s' acts :
  on_election_timeout g s = Done (s', acts) -> effects s acts s'.
Proof.
  unfold on_election_timeout. intros H. case_match; [|exec_inv; by apply effects_transient].
  set (s1 := s <| current_term := _ |> <| state := _ |> <| current_leader := _ |>
               <| votes_received := _ |> <| voted_for := _ |> <| votes_received := _ |>) in H.
  assert (log s1 = log s /\ last_included_index s1 = last_included_index s
    /\ last_included_term s1 = last_included_term s /\ last_applied s1 = last_applied s)
    as (H1 & H2 & H3 & H4) by done. clearbody s1.
  apply exec_bind_Done in H as (s2 & [-> _]%reset_election_timeout_Done & H).
  apply exec_bind_Done in H as (lt & _ & H). injection H as <- <-.
  apply effects_write; [|done|apply Forall_fmap, Forall_true; done|done].
  unfold durable_of. cbn. by rewrite H1, H2, H3.
Qed.

Lemma tick_effects g s s' acts : tick g s = Done (s', acts) -> effects s acts s'.
Proof.
  unfold tick. intros H. set (s1 := s <| ticks_since_last_heartbeat := _ |>) in H.
  assert (durable_of s1 = durable_of s /\ last_applied s1 = last_applied s) as [H1 H2] by done.
  clearbody s1. apply (effects_ext _ s1); [done..|].
  destruct (state s1); eauto using heartbeat_effects, election_timeout_effects.
Qed.

Lemma request_vote_effects g s req s' acts :
  handle_request_vote g s req = Done (s', acts) -> effects s acts s'.
Proof.
  unfold handle_request_vote. intros H. apply exec_bind_Done in H as ([s1 o] & Hc & H).
  case_match; [injection H as <- <-; eapply effects_checked; [done|];
               apply effects_transient; [by repeat constructor|done..]|].
  apply exec_bind_Done in H as (lt & _ & H).
  case_match; [|injection H as <- <-; eapply effects_checked; [done|];
               apply effects_transient; [by repeat constructor|done..]].
  apply exec_bind_Done in H as (s2 & [-> _]%reset_election_timeout_Done & H). injection H as <- <-.
  eapply effects_checked; [done|]. by apply effects_silent.
Qed.

Lemma install_snapshot_effects g s req s' acts :
  handle_install_snapshot g s req = Done (s', acts) ->
  effects s acts s'
  \/ (durable_step s acts s' /\ omap apply_of acts = []
      /\ last_applied s' = is_last_included_index req
      /\ ActInstallSnapshot (is_last_included_index req) (is_last_included_term req) (is_data req) ∈ acts).
Proof.
  unfold handle_install_snapshot. intros H. apply exec_bind_Done in H as ([s1 o] & Hc & H).
  case_match; [left; injection H as <- <-; eapply effects_checked; [done|];
               apply effects_transient; [by repeat constructor|done..]|].
  apply exec_bind_Done in H as (s3 & [-> _]%reset_election_timeout_Done & H).
  set (s2 := if (is_term req =? current_term s1) && bool_decide (state s1 = Candidate)
             then s1 <| state := Follower |> else s1) in *.
  assert (durable_of s2 = durable_of s1 /\ last_applied s2 = last_applied s1) as [Hd Hl]
    by (unfold s2; by destruct (_ && _)).
  clearbody s2.
  case_match; [left|case_match; [left|right]]; injection H as <- <-.
  - eapply effects_checked; [done|]. apply effects_transient; [by repeat constructor|done..].
  - eapply effects_checked; [done|]. apply effects_transient; [by repeat constructor|done..].
  - destruct (check_effects _ _ _ _ _ Hc) as (Hd1 & Ha1 & _). split_and!; try done.
    + eapply durable_step_app; [done|]. unfold durable_step. rewrite <- Hd. done.
    + by rewrite omap_app, Ha1.
    + apply elem_of_app. right. left.
Qed.

Lemma install_snapshot_response_effects g s resp s' acts :
  handle_install_snapshot_response g s resp = Done (s', acts) -> effects s acts s'.
Proof.
  unfold handle_install_snapshot_response. intros H.
  apply exec_bind_Done in H as ([s1 o] & Hc & H).
  case_match; injection H as <- <-; rewrite <- (app_nil_r (default [] o));
    (eapply effects_checked; [done|]); by apply effects_transient.
Qed.

Lemma vote_response_effects g s resp s' acts :
  core_wf s -> room s 1 ->
  handle_request_vote_response g s resp = Done (s', acts) -> effects s acts s'.
Proof.
  intros Hwf Hroom. unfold handle_request_vote_response. intros H.
  apply exec_bind_Done in H as ([s1 o] & Hc & H).
  assert (core_wf s1 /\ room s1 1) as [Hwf1 Hroom1].
  { destruct (check_returns g s (rvr_term resp) Hwf) as (s1' & o' & Heq & Hw & Hsd & _).
    rewrite Hc in Heq. injection Heq as <- <-. split; [done|].
    unfold room in *. by destruct (sd_log _ _ Hsd) as (<- & <- & _). }
  assert (forall s2, durable_of s2 = durable_of s1 -> last_applied s2 = last_applied s1 ->
    effects s (default [] o) s2) as Hquiet.
  { intros s2 ? ?. rewrite <- (app_nil_r (default [] o)). eapply effects_checked; [done|].
    by apply effects_transient. }
  case_bool_decide as Hst; [injection H as <- <-; by apply Hquiet|].
  destruct (rvr_vote_granted resp); [|injection H as <- <-; by apply Hquiet].
  case_match; [|injection H as <- <-; by apply Hquiet].
  set (s2 := s1 <| votes_received := _ |> <| state := Leader |> <| current_leader := _ |>) in H.
  assert (exists ni mi, initialize_leader_state s2 =
    Done (s2 <| log := log s2 ++ [mkLogEntry (current_term s2) []] |>
             <| next_index := ni |> <| match_index := mi |>,
          PersistLogEntries (last_included_index s2 + len (log s2) + 1)
            [mkLogEntry (current_term s2) []])) as (ni & mi & Hinit).
  { destruct (initialize_leader_returns s2) as (ni & mi & -> & _);
      [apply Hwf1|exact Hroom1|apply Hwf1..|].
    exists ni, mi. do 3 f_equal. unfold last_log_index. cbn [log last_included_index modify
      field_match_index field_next_index field_log]. autorewrite with len.
    destruct (wf_fits _ Hwf1). unfold room in Hroom1. rewrite u64_add_small; cbn; len_lia. }
  assert (durable_of s2 = durable_of s1 /\ last_applied s2 = last_applied s1) as (Hd & Hl) by done.
  clearbody s2.
  rewrite Hinit in H. cbn [mbind exec_bind] in H.
  apply exec_bind_Done in H as (s4 & [-> _]%reset_election_timeout_Done & H).
  apply exec_bind_Done in H as (appends & Ha & H). injection H as <- <-.
  eapply effects_checked; [done|]. eapply effects_ext; [exact Hd|exact Hl|].
  apply effects_write; [|done|by eapply append_actions_transient, append_entries_shape|done].
  apply (write_pushed (durable_of s2)).
Qed.

Lemma propose_effects s cmd s' o :
  core_wf s -> room s 1 -> propose s cmd = Done (s', o) -> effects s (default [] o) s'.
Proof.
  intros Hwf Hroom H. destruct (propose_Done _ _ _ _ H)
    as [(_ & -> & ->)|(_ & Hs' & entries & appends & Ha & Hsl & ->)]; [by apply effects_transient|].
  assert (log_fits s') as Hf.
  { destruct (wf_fits _ Hwf). unfold room in Hroom. rewrite Hs'. split; cbn; len_lia. }
  pose proof (log_slice_pushed s (mkLogEntry (current_term s) cmd)) as Hp. cbv zeta in Hp.
  assert (entries = [mkLogEntry (current_term s) cmd]) as ->.
  { rewrite Hs' in Hsl, Hf. specialize (Hp Hf). change (log_slice _ _ _) with
      (log_slice (s <| log := log s ++ [mkLogEntry (current_term s) cmd] |>)
        (last_log_index (s <| log := log s ++ [mkLogEntry (current_term s) cmd] |>))
        (last_log_index (s <| log := log s ++ [mkLogEntry (current_term s) cmd] |>) +! 1)) in Hsl.
    congruence. }
  apply append_entries_shape, append_actions_transient in Ha. cbn [default].
  apply effects_write; [|done|done|by rewrite Hs'].
  rewrite last_log_index_eq by done. rewrite Hs'. cbn [log last_included_index modify field_log field_ticks].
  autorewrite with len. replace (last_included_index s + (len (log s) + (1 + 0)))
    with (last_included_index s + len (log s) + 1) by lia. apply (write_pushed (durable_of s)).
Qed.

Lemma merged_take s req :
  last_included_index s <= ae_prev_log_index req <= last_included_index s + len (log s) ->
  let k := Z.to_nat (ae_prev_log_index req - last_included_index s) in
  take k (log s) ++ drop k (merged_log s req) = merged_log s req.
Proof.
  intros H k. unfold merged_log. fold k.
  assert (length (take k (log s)) = k) as Hk by (rewrite length_take; unfold k, len in *; lia).
  f_equal. by rewrite drop_app_length' by done.
Qed.

Lemma accepted_effects s req s1 resp :
  core_wf s -> append_ok s req -> accepts s req -> core_wf s1 -> log s1 = merged_log s req ->
  last_included_index s1 = last_included_index s -> last_included_term s1 = last_included_term s ->
  meta s1 = stepped_meta s (ae_term req) ->
  commit_index s1 = Z.max (commit_index s) (Z.min (ae_leader_commit req) (last_log_index s1)) ->
  effects s (step_down_write s (ae_term req) ++ merged_write s req
    ++ apply_actions (commit_index s) (newly_committed s s1) ++ [append_response req resp]) s1.
Proof.
  intros Hwf (Hprev & Hend & _ & _ & Hacc) Hac Hwf1 Hlog Hlii Hlit Hm Hc.
  destruct (Hacc Hac) as [Hle _]. pose proof (wf_fits _ Hwf) as Hf. pose proof (wf_fits _ Hwf1) as [Hnn Hfit].
  assert (ae_prev_log_index req <= last_included_index s + len (log s)) as Hpr
    by (apply prev_log_valid_range; [done|len_lia|apply Hac|done]).
  pose proof (wf_commit _ Hwf) as Hci. pose proof (wf_commit _ Hwf1) as Hci1.
  split.
  - unfold durable_step. rewrite !exec_durables_app.
    assert (exec_durables (durable_of s) (step_down_write s (ae_term req))
      = Some (mkDurable (stepped_meta s (ae_term req)) (last_included_index s, last_included_term s) (log s)))
      as -> by (unfold step_down_write, stepped_meta; by destruct (_ <? _)).
    cbn [mbind option_bind]. rewrite exec_durables_app.
    assert (forall d, exec_durables d (apply_actions (commit_index s) (newly_committed s s1)
      ++ [append_response req resp]) = Some d) as Happ
      by (intros d; by rewrite exec_durables_app, apply_durable).
    unfold merged_write, durable_of. rewrite Hm, Hlii, Hlit, Hlog. destruct (ae_entries req) as [|e es] eqn:He.
    + cbn [exec_durables mbind option_bind]. rewrite Happ.
      unfold merged_log. rewrite He, merge_entries_nil_r. by rewrite take_drop.
    + cbn [exec_durables exec_durable du_base du_log fst].
      destruct (Z.ltb_spec (last_included_index s) (ae_prev_log_index req + 1)); [|lia].
      destruct (Z.leb_spec (ae_prev_log_index req + 1) (last_included_index s + len (log s) + 1)); [|lia].
      cbn [andb mbind option_bind]. rewrite Happ. do 2 f_equal. unfold write_entries.
      replace (ae_prev_log_index req + 1 - last_included_index s - 1)
        with (ae_prev_log_index req - last_included_index s) by lia.
      apply (merged_take s req); lia.
  - rewrite !omap_app. assert (omap apply_of (step_down_write s (ae_term req)) = []) as ->
      by (unfold step_down_write; by destruct (_ <? _)).
    assert (omap apply_of (merged_write s req) = []) as -> by (unfold merged_write; by destruct (ae_entries req)).
    cbn. rewrite app_nil_r. rewrite (wf_applied _ Hwf), (wf_applied _ Hwf1).
    unfold commands, newly_committed. rewrite Hlii. apply applied_commands; [lia|].
    unfold len in *. rewrite length_take. lia.
Qed.

Lemma append_entries_effects g s req s' acts :
  core_wf s -> append_ok s req ->
  handle_append_entries g s req = Done (s', acts) -> effects s acts s'.
Proof.
  intros Hwf Hok H.
  assert (forall s1 rest, same_data s s1 -> meta s1 = stepped_meta s (ae_term req) ->
    Forall transient rest -> effects s (step_down_write s (ae_term req) ++ rest) s1) as Hquiet.
  { intros s1 rest Hsd Hm Hrest. pose proof (sd_log _ _ Hsd) as (Hlog & Hlii & Hlit).
    pose proof (sd_applied _ _ Hsd) as Hla. unfold step_down_write, stepped_meta in *.
    destruct (current_term s <? ae_term req); cbn [app].
    - apply effects_write; try done. unfold durable_of. cbn. by rewrite Hm, Hlog, Hlii, Hlit.
    - apply effects_transient; try done. unfold durable_of. by rewrite Hm, Hlog, Hlii, Hlit. }
  destruct (append_entries_prologue g s req Hwf)
    as [[Hn Heq]|(s3 & Hta & Hwf3 & Hsd & Hm & _ & _ & _ & _ & Heq)].
  { rewrite H in Heq. injection Heq as -> ->. apply effects_transient; [by repeat constructor|done..]. }
  destruct (prev_log_valid s req) eqn:Hv.
  - destruct (append_entries_accepted g s req Hwf Hok) as (s1 & Hwf1 & _ & Hlog & Hlii & Hlit & Hm1 & _ & _ & _ & Hc & Heq');
      [by split|]. clear Heq. rewrite H in Heq'. injection Heq' as -> ->.
    by apply accepted_effects.
  - rewrite (prev_log_valid_proper _ _ (sd_log _ _ Hsd) _ _ eq_refl) in Hv.
    destruct (append_checked_rejects s3 req (step_down_write s (ae_term req))
      (false_append_response s3) Hv) as (i & t & Hrej).
    rewrite H, Hrej in Heq. injection Heq as -> ->. apply Hquiet; [done..|]. by repeat constructor.
Qed.

Lemma append_response_effects g s resp s' acts :
  core_wf s -> append_response_ok s resp ->
  handle_append_entries_response g s resp = Done (s', acts) -> effects s acts s'.
Proof.
  intros Hwf Hok H. destruct (aer_success resp) eqn:Hs.
  - destruct (append_success g s resp Hwf Hok Hs) as (r & c & rb & ready & _ & Hcr & Hcl & Heq & Hrb).
    rewrite H in Heq. injection Heq as -> ->.
    assert (Forall transient ready) as Hready.
    { unfold ready_barriers in Hrb. injection Hrb as _ <-. apply Forall_fmap, Forall_true. done. }
    pose proof (wf_commit _ Hwf). pose proof (wf_fits _ Hwf) as [Hnn Hfit]. split.
    + unfold durable_step. rewrite exec_durables_app, apply_durable. by apply durable_step_transient.
    + rewrite omap_app, (transient_applies ready), app_nil_r, applied_commands by first
        [done|lia|unfold newly_committed, len in *; rewrite length_take; cbn; lia].
      unfold newly_committed, commands. cbn. by rewrite (wf_applied _ Hwf).
  - unfold handle_append_entries_response in H. apply exec_bind_Done in H as ([s1 o] & Hc & H).
    rewrite Hs in H. apply exec_bind_Done in H as (a & Ha%build_append_entries_shape & H).
    injection H as <- <-. eapply effects_checked; [done|]. apply effects_transient.
    + by apply append_actions_transient, Forall_singleton.
    + by destruct (aer_first_conflicting_index resp).
    + by destruct (aer_first_conflicting_index resp).
Qed.

(** The input is not the driver's snapshot, whose disk effects are the
    driver's own. *)
Definition is_snapshot_input (i : Input) : bool :=
  match i with InSnapshot => true | _ => false end.

(** A run of inputs with the actions they ask for. *)
Fixpoint core_trace (s : RaftCore) (run : list (Rng * Input)) : exec (RaftCore * list Action) :=
  match run with
  | [] => Done (s, [])
  | (g, i) :: run =>
      '(s, acts) ← core_input g s i;
      '(s, acts') ← core_trace s run;
      Done (s, acts ++ acts')
  end.

(** The durable effect of every input but the driver's snapshot. *)
Lemma core_input_durable g s i s' acts :
  core_wf s -> input_ok s i -> is_snapshot_input i = false ->
  core_input g s i = Done (s', acts) -> durable_step s acts s'.
Proof.
  intros Hwf Hok Hi H. destruct i as [|m|cmd| |]; cbn in Hok, Hi, H; try done.
  - by eapply tick_effects.
  - destruct m; cbn in H.
    + by eapply request_vote_effects.
    + by eapply vote_response_effects.
    + by eapply append_entries_effects.
    + by eapply append_response_effects.
    + by destruct (install_snapshot_effects _ _ _ _ _ H) as [[? _]|[? _]].
    + by eapply install_snapshot_response_effects.
  - exec_inv. by eapply propose_effects.
  - unfold request_read_barrier in H. case_bool_decide; by injection H as <- <-.
Qed.

(** What an input applies. *)
Lemma core_input_applies g s i s' acts :
  core_wf s -> input_ok s i -> core_input g s i = Done (s', acts) ->
  omap apply_of acts = commands s' (last_applied s) (last_applied s')
  \/ exists req, i = InMessage (InstallSnapshotMsg req) /\ omap apply_of acts = []
       /\ last_applied s' = is_last_included_index req
       /\ ActInstallSnapshot (is_last_included_index req) (is_last_included_term req) (is_data req) ∈ acts.
Proof.
  intros Hwf Hok H. destruct i as [|m|cmd| |]; cbn in Hok, H.
  - left. by eapply tick_effects.
  - destruct m; cbn in H.
    + left. by eapply request_vote_effects.
    + left. by eapply vote_response_effects.
    + left. by eapply append_entries_effects.
    + left. by eapply append_response_effects.
    + destruct (install_snapshot_effects _ _ _ _ _ H) as [[_ ?]|(_ & ? & ? & ?)]; [by left|right]. by eexists.
    + left. by eapply install_snapshot_response_effects.
  - left. exec_inv. by eapply propose_effects.
  - left. unfold request_read_barrier in H. case_bool_decide; injection H as <- <-; by rewrite commands_none.
  - left. destruct (snapshot_returns g s Hwf) as (t & _ & Heq). change (core_input g s InSnapshot = Done (s', acts)) in H.
    rewrite H in Heq. injection Heq as -> ->. case_match; by rewrite commands_none.
Qed.

(** ** Theorems *)

(** C14: the actions persist everything. Through any run of inputs within the
    contract, none of them the driver's own snapshot (whose writes the driver
    makes itself), executing the actions in order on the durable state of the
    node (metadata, snapshot index and term, log) gives exactly the durable
    part of the node's state at the end, and no write leaves a gap in the log
    or reaches below the snapshot. *)
Theorem actions_durable run s s' acts :
  core_wf s -> inputs_ok s run -> Forall (fun gi => is_snapshot_input gi.2 = false) run ->
  core_trace s run = Done (s', acts) ->
  exec_durables (durable_of s) acts = Some (durable_of s').
Proof.
  revert s acts. induction run as [|[g i] run IH]; intros s acts Hwf Hok Hi H; cbn in H.
  - by injection H as <- <-.
  - apply Forall_cons in Hi as [Hi Hall]. destruct Hok as [Hok Hrest].
    pose proof (core_input_wf g s i Hwf Hok) as Hwf1.
    destruct (core_input g s i) as [[s1 acts1]|] eqn:H1; [|done]. cbn in H, Hwf1.
    apply exec_bind_Done in H as ([s2 acts2] & H2 & H). injection H as <- <-.
    eapply durable_step_app; [by eapply core_input_durable|]. by eapply IH.
Qed.

(** Exactly once, in order.  The entries an input applies are the log's
    commands from just above the old applied index up to the new one, each at
    its own index; an installed snapshot applies nothing and moves the applied
    index to its own. *)
Theorem applies_in_order g s i s' acts :
  core_wf s -> input_ok s i -> core_input g s i = Done (s', acts) ->
  omap apply_of acts = commands s' (last_applied s) (last_applied s')
  \/ exists req, i = InMessage (InstallSnapshotMsg req) /\ omap apply_of acts = []
       /\ last_applied s' = is_last_included_index req
       /\ ActInstallSnapshot (is_last_included_index req) (is_last_included_term req) (is_data req) ∈ acts.
Proof. apply core_input_applies. Qed.
