(* ===== verification/CorePersists.v ===== *)
(** An input writes the log at most once, and never lowers the commit index
    unless it installs a snapshot. *)

From S2P Require Import Prelude Types RaftCore CoreLog CoreFrame CoreReplication CoreElection.
From S2P Require Import CoreInvariant CoreCommit CoreTotal ReplicationSafety.

Definition is_log_write (a : Action) : bool :=
  match a with PersistLogEntries _ _ => true | _ => false end.

Definition log_writes (acts : list Action) : nat := length (List.filter is_log_write acts).

Lemma log_writes_cons a l : log_writes (a :: l) = ((if is_log_write a then 1 else 0) + log_writes l)%nat.
Proof. unfold log_writes. cbn. by destruct (is_log_write a). Qed.

Lemma log_writes_app l k : log_writes (l ++ k) = (log_writes l + log_writes k)%nat.
Proof. unfold log_writes. by rewrite List.filter_app, length_app. Qed.

Lemma log_writes_none acts : Forall (fun a => is_log_write a = false) acts -> log_writes acts = 0%nat.
Proof. unfold log_writes. induction 1 as [|a acts Ha _ IH]; cbn; [done|]. by rewrite Ha. Qed.

Lemma log_writes_prefix pre acts : pre `prefix_of` acts -> (log_writes pre <= log_writes acts)%nat.
Proof. intros [k ->]. rewrite log_writes_app. lia. Qed.

Lemma appends_write_none acts : Forall is_append_action acts -> log_writes acts = 0%nat.
Proof. intros H. apply log_writes_none. eapply Forall_impl; [exact H|]. by intros []. Qed.

Lemma sends_write_none (ps : list NodeId) m : log_writes ((fun p => SendMessage p m) <$> ps) = 0%nat.
Proof. apply log_writes_none, Forall_fmap, Forall_true. done. Qed.

Lemma applies_write_none base entries : log_writes (apply_actions base entries) = 0%nat.
Proof.
  apply log_writes_none, Forall_forall. unfold apply_actions. intros a Ha.
  apply elem_of_lookup_imap in Ha as (k & e & -> & _). done.
Qed.

Lemma check_write_none g s t s' o : check_msg_term g s t = Done (s', o) -> log_writes (default [] o) = 0%nat.
Proof. intros [(_ & _ & ->)|(_ & -> & _)]%check_msg_term_Done; done. Qed.

(** The actions of a handler, one part after the other. *)
Ltac writes_tac :=
  rewrite ?log_writes_app;
  repeat match goal with
    | H : append_entries _ = Done _ |- _ => apply append_entries_shape, appends_write_none in H
    | H : build_append_entries_for_peer _ _ = Done _ |- _ => apply build_append_entries_shape in H
    | H : check_msg_term _ _ _ = Done _ |- _ => apply check_write_none in H
    end;
  rewrite ?log_writes_cons, ?sends_write_none, ?applies_write_none; 
  cbn [is_log_write append_response vote_response snapshot_response];
  change (log_writes []) with 0%nat; try lia.

Lemma append_checked_writes s req actions response s' acts :
  append_checked s req actions response = Done (s', acts) ->
  (log_writes acts <= log_writes actions + 1)%nat.
Proof.
  unfold append_checked. intros H. case_match; [case_match; exec_inv; writes_tac|].
  apply exec_bind_Done in H as (s1 & _ & H). apply exec_bind_Done in H as (persist & Hp & H).
  apply exec_bind_Done in H as ([s2 applies] & Hf & H). injection H as <- <-.
  assert (log_writes persist <= 1)%nat by (destruct (ae_entries req); exec_inv; cbn; lia).
  apply follower_commit_Done in Hf as [(_ & _ & ->)|(es & _ & _ & _ & ->)]; writes_tac.
Qed.

Lemma message_writes g s m s' acts :
  handle_message g s m = Done (s', acts) -> (log_writes acts <= 1)%nat.
Proof.
  destruct m as [req|resp|req|resp|req|resp]; cbn [handle_message]; intros H;
    apply exec_bind_Done in H as ([s1 o] & Hc%check_write_none & H); cbv zeta in H.
  - repeat case_match; exec_inv; repeat case_match; exec_inv; writes_tac.
  - repeat case_match; exec_inv; try (writes_tac; lia).
    apply initialize_leader_state_Done in Hx as (ni & mi & es & _ & ->). writes_tac.
  - destruct (bool_decide _); [exec_inv; writes_tac|]. case_match; exec_inv; [writes_tac|].
    apply append_checked_writes in H. lia.
  - case_match.
    + apply exec_bind_Done in H as ([s2 applies] & Hl & H).
      apply leader_commit_Done in Hl as (r & n & entries & _ & _ & _ & -> & ->).
      destruct (ready_barriers _) as [s3 ready] eqn:Hrb. injection H as <- <-.
      assert (log_writes ready = 0%nat) as Hready.
      { unfold ready_barriers in Hrb. injection Hrb as _ <-. apply log_writes_none, Forall_fmap, Forall_true. done. }
      writes_tac.
    + exec_inv. writes_tac. by destruct x; cbn in *; lia.
  - repeat case_match; exec_inv; repeat case_match; exec_inv; writes_tac.
  - repeat case_match; exec_inv; writes_tac.
Qed.

Lemma core_input_writes g s i s' acts : core_input g s i = Done (s', acts) -> (log_writes acts <= 1)%nat.
Proof.
  destruct i as [|m|cmd| |]; cbn [core_input]; intros H.
  - unfold tick, heartbeat, on_election_timeout in H. repeat case_match; exec_inv; writes_tac.
  - by eapply message_writes.
  - apply exec_bind_Done in H as ([s1 o] & Hp & H). injection H as <- <-.
    apply propose_Done in Hp as [(_ & -> & ->)|(_ & -> & es & aps & Ha & _ & ->)]; cbn [default from_option Datatypes.id]; writes_tac.
  - destruct (request_read_barrier s). injection H as <- <-. cbn. lia.
  - exec_inv. cbn. lia.
Qed.

(** ** The commit index *)
Lemma check_commit g s t s1 o : check_msg_term g s t = Done (s1, o) -> commit_index s1 = commit_index s.
Proof. by intros [(_ & -> & _)|(_ & _ & to & ->)]%check_msg_term_Done. Qed.

Ltac commit_tac :=
  repeat match goal with
    | H : reset_election_timeout _ _ _ = Done _ |- _ => apply reset_election_timeout_Done in H as [-> _]
    | H : check_msg_term _ _ _ = Done _ |- _ => apply check_commit in H
    end; cbn; lia.

Lemma append_entries_commit g s req s' acts :
  core_wf s -> append_ok s req -> handle_append_entries g s req = Done (s', acts) ->
  commit_index s <= commit_index s'.
Proof.
  intros Hwf Hok H. destruct (append_entries_prologue g s req Hwf)
    as [[_ Heq]|(s3 & Hta & Hwf3 & Hsd & _ & _ & _ & _ & _ & Heq)].
  { rewrite H in Heq. injection Heq as -> _. lia. }
  destruct (prev_log_valid s req) eqn:Hv.
  - destruct (append_entries_accepted g s req Hwf Hok)
      as (s1 & _ & _ & _ & _ & _ & _ & _ & _ & _ & Hc & Heq'); [by split|].
    rewrite H in Heq'. injection Heq' as -> _. lia.
  - rewrite (prev_log_valid_proper _ _ (sd_log _ _ Hsd) _ _ eq_refl) in Hv.
    destruct (append_checked_rejects s3 req (step_down_write s (ae_term req))
      (false_append_response s3) Hv) as (i & t & Hrej).
    rewrite H, Hrej in Heq. injection Heq as -> _. rewrite (sd_commit _ _ Hsd). lia.
Qed.

Lemma append_response_commit g s resp s' acts :
  core_wf s -> append_response_ok s resp -> handle_append_entries_response g s resp = Done (s', acts) ->
  commit_index s <= commit_index s'.
Proof.
  intros Hwf Hok H. destruct (aer_success resp) eqn:Hs.
  - destruct (append_success g s resp Hwf Hok Hs) as (r & c & rb & ready & _ & Hcr & _ & Heq & _).
    rewrite H in Heq. injection Heq as -> _. apply Hcr.
  - unfold handle_append_entries_response in H. rewrite Hs in H. exec_inv. case_match; commit_tac.
Qed.

Lemma core_input_commit g s i s' acts :
  core_wf s -> input_ok s i -> (forall req, i <> InMessage (InstallSnapshotMsg req)) ->
  core_input g s i = Done (s', acts) -> commit_index s <= commit_index s'.
Proof.
  intros Hwf Hok Hi H. destruct i as [|m|cmd| |]; cbn [core_input] in H.
  - unfold tick, heartbeat, on_election_timeout in H. repeat case_match; exec_inv; commit_tac.
  - destruct m as [req|resp|req|resp|req|resp]; cbn [handle_message] in H.
    + unfold handle_request_vote in H. exec_inv. repeat case_match; exec_inv; repeat case_match; exec_inv; commit_tac.
    + unfold handle_request_vote_response in H. exec_inv. repeat case_match; exec_inv; try commit_tac.
      apply initialize_leader_state_Done in Hx0 as (ni & mi & es & -> & _). commit_tac.
    + by eapply append_entries_commit.
    + by eapply append_response_commit.
    + by destruct (Hi req).
    + unfold handle_install_snapshot_response in H. exec_inv. case_match; exec_inv; commit_tac.
  - exec_inv. apply propose_Done in Hx as [(_ & -> & _)|(_ & -> & _)]; cbn; lia.
  - unfold request_read_barrier in H. destruct (bool_decide _); exec_inv; cbn; lia.
  - exec_inv. apply complete_snapshot_Done in Hx0 as (l & k & t & ->). cbn. lia.
Qed.
