(* ===== verification/CoreTyped.v ===== *)
(** The core's integers stay u64: nodes, messages and actions whose numbers fit
    64 bits, and that every input keeps them so. *)

From S2P Require Import Prelude Types RaftCore CoreLog CoreFrame CoreElection.

(** ** Types of data *)
Definition opt_typed (o : option Z) : Prop := forall x, o = Some x -> is_u64 x.
Definition entry_typed (e : LogEntry) : Prop := is_u64 (e_term e).

Definition message_typed (m : Message) : Prop :=
  match m with
  | RequestVote r => is_u64 (rv_term r) /\ is_u64 (rv_candidate_id r)
      /\ is_u64 (rv_last_log_index r) /\ is_u64 (rv_last_log_term r)
  | RequestVoteResponse r => is_u64 (rvr_id r) /\ is_u64 (rvr_term r)
  | AppendEntries r => is_u64 (ae_term r) /\ is_u64 (ae_leader_id r) /\ is_u64 (ae_prev_log_index r)
      /\ is_u64 (ae_prev_log_term r) /\ Forall entry_typed (ae_entries r) /\ is_u64 (ae_leader_commit r)
  | AppendEntriesResponse r => is_u64 (aer_id r) /\ is_u64 (aer_term r) /\ is_u64 (aer_match_index r)
      /\ opt_typed (aer_first_conflicting_index r) /\ opt_typed (aer_first_conflicting_term r)
  | InstallSnapshotMsg r => is_u64 (is_term r) /\ is_u64 (is_leader_id r)
      /\ is_u64 (is_last_included_index r) /\ is_u64 (is_last_included_term r)
  | InstallSnapshotResponse r => is_u64 (isr_id r) /\ is_u64 (isr_term r)
      /\ is_u64 (isr_last_included_index r)
  end.

Definition action_typed (a : Action) : Prop :=
  match a with
  | SendMessage target m => is_u64 target /\ message_typed m
  | ApplyToStateMachine index _ => is_u64 index
  | PersistMetadata term vote => is_u64 term /\ opt_typed vote
  | PersistLogEntries start entries => is_u64 start /\ Forall entry_typed entries
  | SendInstallSnapshot target term index iterm =>
      is_u64 target /\ is_u64 term /\ is_u64 index /\ is_u64 iterm
  | ActInstallSnapshot index term _ => is_u64 index /\ is_u64 term
  | ReadBarrierReady b => is_u64 b
  end.

Definition input_typed (i : Input) : Prop :=
  match i with InMessage m => message_typed m | _ => True end.

Definition map_typed (m : gmap Z Z) : Prop := map_Forall (fun k v => is_u64 k /\ is_u64 v) m.

Record core_typed (s : RaftCore) : Prop := {
  ct_id : is_u64 (id s);
  ct_peers : Forall is_u64 (peers s);
  ct_term : is_u64 (current_term s);
  ct_vote : opt_typed (voted_for s);
  ct_log : Forall entry_typed (log s);
  ct_commit : is_u64 (commit_index s);
  ct_applied : is_u64 (last_applied s);
  ct_leader : opt_typed (current_leader s);
  ct_next : map_typed (next_index s);
  ct_match : map_typed (match_index s);
  ct_votes : set_Forall is_u64 (votes_received s);
  ct_index : is_u64 (last_included_index s);
  ct_iterm : is_u64 (last_included_term s);
  ct_ticks : is_u64 (ticks_since_last_heartbeat s);
  ct_timeout : is_u64 (election_timeout s);
  ct_count : is_u64 (append_entries_count s);
  ct_barrier : is_u64 (next_read_barrier_id s);
  ct_barriers : map_typed (read_barriers s);
}.

(** The result of a handler. *)
Definition result_typed (r : RaftCore * list Action) : Prop :=
  core_typed r.1 /\ Forall action_typed r.2.

Create HintDb typed.
#[export] Hint Resolve u64_add_range u64_sub_range : typed.
#[export] Hint Resolve ct_id ct_peers ct_term ct_vote ct_log ct_commit ct_applied ct_leader ct_next : typed.
#[export] Hint Resolve ct_match ct_votes ct_index ct_iterm ct_ticks ct_timeout ct_count : typed.
#[export] Hint Resolve ct_barrier ct_barriers : typed.
#[export] Hint Constructors Forall : typed.

Lemma u64_0 : is_u64 0.
Proof. done. Qed.

Lemma opt_typed_None : opt_typed None.
Proof. by intros x. Qed.

Lemma opt_typed_Some x : is_u64 x -> opt_typed (Some x).
Proof. by intros Hx y [= <-]. Qed.

Lemma map_typed_empty : map_typed ∅.
Proof. apply map_Forall_empty. Qed.

Lemma map_typed_insert m k v : is_u64 k -> is_u64 v -> map_typed m -> map_typed (<[k := v]> m).
Proof. intros. by apply map_Forall_insert_2. Qed.

Lemma map_typed_alter m k v : is_u64 v -> map_typed m -> map_typed (alter (fun _ => v) k m).
Proof.
  intros Hv Hm i x. rewrite lookup_alter_Some. intros [(-> & y & Hy & ->)|[_ Hx]]; [|by apply Hm].
  split; [by apply (Hm i y)|done].
Qed.

Lemma map_typed_filter m (P : Z * Z -> Prop) `{forall x, Decision (P x)} :
  map_typed m -> map_typed (filter P m).
Proof. intros Hm k v [Hk _]%map_lookup_filter_Some. by apply Hm. Qed.

Lemma votes_typed_singleton x : is_u64 x -> set_Forall is_u64 ({[x]} : gset Z).
Proof. by intros Hx y ->%elem_of_singleton. Qed.

Lemma votes_typed_union x (V : gset Z) : is_u64 x -> set_Forall is_u64 V -> set_Forall is_u64 ({[x]} ∪ V).
Proof. intros Hx HV y [->%elem_of_singleton|Hy]%elem_of_union; [done|by apply HV]. Qed.

Lemma foldl_typed {A} (f : A -> Z -> A) (P : A -> Prop) (l : list Z) (a : A) :
  (forall a x, P a -> is_u64 x -> P (f a x)) -> Forall is_u64 l -> P a -> P (foldl f a l).
Proof. intros Hf Hl. revert a. induction Hl; cbn; auto. Qed.

Lemma last_log_index_typed s : is_u64 (last_log_index s).
Proof. apply u64_add_range. Qed.

#[export] Hint Resolve u64_0 opt_typed_None opt_typed_Some map_typed_empty map_typed_insert : typed.
#[export] Hint Resolve votes_typed_singleton votes_typed_union : typed.
#[export] Hint Resolve map_typed_alter map_typed_filter last_log_index_typed : typed.

Ltac typed_tac :=
  repeat match goal with
    | |- result_typed (_, _) => split; cbn [fst snd]
    | |- core_typed _ => split; cbn
    | |- Forall _ (_ ++ _) => apply Forall_app
    | |- Forall _ (_ :: _) => apply Forall_cons
    | |- Forall _ [] => apply Forall_nil
    | |- action_typed _ => cbn
    | |- _ /\ _ => split
    end; eauto with typed.

(** ** Accessors *)
Lemma log_entry_typed s i e : core_typed s -> log_entry_at s i = Some e -> entry_typed e.
Proof.
  intros Hs H. unfold log_entry_at in H. repeat case_match; try done.
  apply list_elem_of_lookup_2 in H. pose proof (ct_log _ Hs) as Hl. rewrite Forall_forall in Hl. by apply Hl.
Qed.

Lemma log_term_typed s i t : core_typed s -> log_term_at s i = Some t -> is_u64 t.
Proof.
  intros Hs H. unfold log_term_at in H. repeat case_match; try done.
  - injection H as <-. by apply ct_iterm.
  - apply fmap_Some in H as (e & He & ->). by apply (log_entry_typed s i).
Qed.

Lemma default_term_typed s i : core_typed s -> is_u64 (default 0 (log_term_at s i)).
Proof. intros Hs. destruct (log_term_at s i) eqn:E; [by eapply log_term_typed|done]. Qed.

Lemma log_slice_typed s a b l : core_typed s -> log_slice s a b = Done l -> Forall entry_typed l.
Proof.
  intros Hs H. unfold log_slice in H. case_match; [by injection H as <-|].
  apply vec_slice_Done in H as [_ ->]. by apply Forall_take, Forall_drop, ct_log.
Qed.

Lemma build_append_typed s p a :
  core_typed s -> is_u64 p -> build_append_entries_for_peer s p = Done a -> action_typed a.
Proof.
  intros Hs Hp H. unfold build_append_entries_for_peer in H. case_match eqn:Ht; exec_inv; typed_tac.
  - case_match; auto with typed.
  - by eapply log_term_typed.
  - by eapply log_slice_typed.
Qed.

Lemma append_entries_typed s acts :
  core_typed s -> append_entries s = Done acts -> Forall action_typed acts.
Proof.
  intros Hs. pose proof (ct_peers _ Hs) as Hp. unfold append_entries. revert acts.
  induction Hp as [|p ps Hp Hps IH]; intros acts H; cbn in H; exec_inv; typed_tac.
  by eapply build_append_typed.
Qed.

Lemma apply_actions_typed base entries : Forall action_typed (apply_actions base entries).
Proof.
  apply Forall_forall. intros a Ha. unfold apply_actions in Ha. apply list_elem_of_lookup in Ha as (k & Hk).
  rewrite list_lookup_imap in Hk. apply fmap_Some in Hk as (e & _ & ->). cbn. auto with typed.
Qed.

#[export] Hint Resolve log_term_typed log_slice_typed build_append_typed append_entries_typed : typed.
#[export] Hint Resolve apply_actions_typed : typed.

(** ** The handlers, for draws that are u64 *)
Section handlers.
Context (g : Rng) (Hg : forall k lo hi, is_u64 (g k lo hi)).

Lemma reset_typed k s s' : core_typed s -> reset_election_timeout g k s = Done s' -> core_typed s'.
Proof. intros Hs [-> _]%reset_election_timeout_Done. typed_tac. Qed.

Lemma check_typed s t s1 o :
  core_typed s -> is_u64 t -> check_msg_term g s t = Done (s1, o) ->
  core_typed s1 /\ Forall action_typed (default [] o).
Proof.
  intros Hs Ht H. unfold check_msg_term in H. case_match; [|injection H as <- <-; by typed_tac].
  apply exec_bind_Done in H as (s2 & H2 & H). injection H as <- <-.
  apply reset_typed in H2; [|by typed_tac]. cbn. typed_tac.
Qed.

Lemma heartbeat_typed s r : core_typed s -> heartbeat s = Done r -> result_typed r.
Proof. intros Hs H. unfold heartbeat in H. case_match; exec_inv; typed_tac. Qed.

Lemma election_timeout_typed s r : core_typed s -> on_election_timeout g s = Done r -> result_typed r.
Proof.
  intros Hs H. unfold on_election_timeout in H. case_match; [|exec_inv; by typed_tac].
  apply exec_bind_Done in H as (s1 & H1 & H). apply reset_typed in H1; [|by typed_tac].
  apply exec_bind_Done in H as (lt & Hlt%unwrap_Done & H). exec_inv. typed_tac.
  apply Forall_fmap. eapply Forall_impl; [by apply ct_peers|]. intros p Hp. cbn. typed_tac.
Qed.

Lemma tick_typed s r : core_typed s -> tick g s = Done r -> result_typed r.
Proof.
  intros Hs H. unfold tick in H.
  assert (core_typed (s <| ticks_since_last_heartbeat := ticks_since_last_heartbeat s +! 1 |>)) by typed_tac.
  case_match; eauto using heartbeat_typed, election_timeout_typed.
Qed.

Lemma request_vote_typed s req r :
  core_typed s -> message_typed (RequestVote req) -> handle_request_vote g s req = Done r -> result_typed r.
Proof.
  intros Hs (Ht & Hc & _) H. unfold handle_request_vote in H.
  apply exec_bind_Done in H as ([s1 o] & [H1 Ho]%check_typed & H); [|done..].
  case_match; [exec_inv; by typed_tac|]. apply exec_bind_Done in H as (lt & _ & H).
  case_match; exec_inv; [|by typed_tac]. apply reset_typed in Hx; [|done]. typed_tac.
Qed.

Lemma initialize_leader_typed s r :
  core_typed s -> initialize_leader_state s = Done r -> core_typed r.1 /\ action_typed r.2.
Proof.
  intros Hs H. unfold initialize_leader_state in H. apply exec_bind_Done in H as (es & Hes & H).
  match type of Hes with log_slice ?s1 _ _ = _ => assert (core_typed s1) as H1 end.
  - apply foldl_typed; [intros s1 p H1 Hp; by typed_tac|cbn; by apply ct_peers|].
    typed_tac. by apply ct_term.
  - injection H as <-. by typed_tac.
Qed.

Lemma vote_response_typed s resp r :
  core_typed s -> message_typed (RequestVoteResponse resp) ->
  handle_request_vote_response g s resp = Done r -> result_typed r.
Proof.
  intros Hs (Hi & Ht) H. unfold handle_request_vote_response in H.
  apply exec_bind_Done in H as ([s1 o] & [H1 Ho]%check_typed & H); [|done..].
  repeat case_match; try (exec_inv; by typed_tac).
  apply exec_bind_Done in H as ([s2 persist] & [Hs2 Ha]%initialize_leader_typed & H); [|by typed_tac].
  apply exec_bind_Done in H as (s3 & Hs3%reset_typed & H); [|done]. exec_inv. typed_tac.
Qed.

Lemma find_conflicting_typed s t n : opt_typed (find_conflicting_index s t n).
Proof. induction n as [|n IH]; cbn; [|case_match]; auto with typed. Qed.

Lemma append_loop_typed s i entries s' :
  core_typed s -> Forall entry_typed entries -> append_loop s i entries = Done s' -> core_typed s'.
Proof.
  intros Hs He. revert s i Hs. induction He as [|e rest He Hrest IH]; intros s i Hs H; cbn [append_loop] in H.
  { by injection H as <-. }
  repeat case_match; exec_inv; repeat case_match; (eapply IH; [|exact H]); auto; typed_tac; cbn; typed_tac.
  unfold vec_truncate. case_match; [apply Forall_take|]; by apply ct_log.
Qed.

Lemma follower_commit_typed s c r : core_typed s -> is_u64 c -> follower_commit s c = Done r -> result_typed r.
Proof.
  intros Hs Hc H. destruct r as [s' acts].
  assert (is_u64 (Z.min c (last_log_index s))).
  { pose proof (last_log_index_typed s). unfold is_u64 in *. lia. }
  apply follower_commit_Done in H as [(_ & -> & ->)|(es & _ & _ & -> & ->)]; typed_tac.
Qed.

Lemma append_checked_typed s req actions response r :
  core_typed s -> message_typed (AppendEntries req) -> Forall action_typed actions ->
  (forall i t, opt_typed i -> opt_typed t -> message_typed (AppendEntriesResponse (response i t))) ->
  append_checked s req actions response = Done r -> result_typed r.
Proof.
  intros Hs (Ht & Hl & Hpi & Hpt & He & Hc) Ha Hr H. unfold append_checked in H. case_match.
  - case_match; exec_inv; typed_tac; apply Hr; auto using find_conflicting_typed, default_term_typed with typed.
  - apply exec_bind_Done in H as (s1 & Hs1%append_loop_typed & H); [|done|by case_match].
    apply exec_bind_Done in H as (persist & Hp & H).
    assert (Forall action_typed persist) by (case_match; exec_inv; typed_tac).
    apply exec_bind_Done in H as ([s2 applies] & [Hs2 Hap]%follower_commit_typed & H); [|done..].
    exec_inv. cbn in *. typed_tac.
Qed.

Lemma step_aside_typed s (b : bool) :
  core_typed s -> core_typed (if b then s <| state := Follower |> else s).
Proof. intros Hs. destruct b; typed_tac. Qed.

Lemma handle_append_typed s req r :
  core_typed s -> message_typed (AppendEntries req) -> handle_append_entries g s req = Done r -> result_typed r.
Proof.
  intros Hs Hm H. pose proof Hm as (Ht & Hl & _). unfold handle_append_entries in H.
  apply exec_bind_Done in H as ([s1 o] & [H1 Ho]%check_typed & H); [|done..].
  pose proof (step_aside_typed s1 ((ae_term req =? current_term s1) && bool_decide (state s1 = Candidate)) H1) as Hs2.
  revert H Hs2. generalize (if (ae_term req =? current_term s1) && bool_decide (state s1 = Candidate)
    then s1 <| state := Follower |> else s1). intros s2 H Hs2.
  case_match; [exec_inv; by typed_tac|]. case_match; [exec_inv; by typed_tac|].
  apply exec_bind_Done in H as (s3 & Hs3%reset_typed & H); [|done].
  eapply append_checked_typed; [|exact Hm|exact Ho| |exact H]; [by typed_tac|].
  intros. cbn. typed_tac.
Qed.

Lemma advance_commit_typed s i n c c' :
  is_u64 i -> is_u64 c -> advance_commit s i n c = Done c' -> is_u64 c'.
Proof.
  revert i c. induction n as [|n IH]; intros i c Hi Hc H; cbn in H; [by injection H as <-|].
  exec_inv. eapply IH; [..|exact H]; [by auto with typed|]. by case_match.
Qed.

Lemma leader_commit_typed s r : core_typed s -> leader_commit s = Done r -> result_typed r.
Proof.
  intros Hs H. destruct r as [s' acts]. apply leader_commit_Done in H as (k & n & es & _ & Hn & _ & -> & ->).
  apply advance_commit_typed in Hn; [|by auto with typed..]. typed_tac.
Qed.

Lemma ready_barriers_typed s : core_typed s -> result_typed (ready_barriers s).
Proof.
  intros Hs. unfold ready_barriers. typed_tac. apply Forall_fmap, Forall_forall. intros [k v] Hkv.
  apply elem_of_map_to_list, map_lookup_filter_Some in Hkv as [Hkv _]. by apply (ct_barriers _ Hs k v).
Qed.

Lemma append_response_typed s resp r :
  core_typed s -> message_typed (AppendEntriesResponse resp) ->
  handle_append_entries_response g s resp = Done r -> result_typed r.
Proof.
  intros Hs (Hi & Ht & Hm & Hci & Hct) H. unfold handle_append_entries_response in H.
  apply exec_bind_Done in H as ([s1 o] & [H1 Ho]%check_typed & H); [|done..]. case_match.
  - apply exec_bind_Done in H as ([s2 applies] & [Hs2 Ha]%leader_commit_typed & H); [|by typed_tac].
    pose proof (ready_barriers_typed s2 Hs2) as [Hs3 Hr]. destruct (ready_barriers s2) as [s3 ready].
    exec_inv. cbn in *. typed_tac.
  - apply exec_bind_Done in H as (a & Ha%build_append_typed & H); [|case_match; by typed_tac|done].
    exec_inv. case_match; typed_tac.
Qed.

Lemma install_snapshot_typed s req r :
  core_typed s -> message_typed (InstallSnapshotMsg req) ->
  handle_install_snapshot g s req = Done r -> result_typed r.
Proof.
  intros Hs (Ht & Hl & Hi & Hit) H. unfold handle_install_snapshot in H.
  apply exec_bind_Done in H as ([s1 o] & [H1 Ho]%check_typed & H); [|done..].
  case_match; [exec_inv; by typed_tac|].
  apply exec_bind_Done in H as (s2 & Hs2%reset_typed & H); [|by apply step_aside_typed].
  repeat case_match; exec_inv; typed_tac.
Qed.

Lemma snapshot_response_typed s resp r :
  core_typed s -> message_typed (InstallSnapshotResponse resp) ->
  handle_install_snapshot_response g s resp = Done r -> result_typed r.
Proof.
  intros Hs (Hi & Ht & Hli) H. unfold handle_install_snapshot_response in H.
  apply exec_bind_Done in H as ([s1 o] & [H1 Ho]%check_typed & H); [|done..].
  case_match; exec_inv; typed_tac.
Qed.

Lemma propose_typed s cmd s' o :
  core_typed s -> propose s cmd = Done (s', o) -> result_typed (s', default [] o).
Proof.
  intros Hs [(_ & -> & ->)|(_ & Heq & es & appends & Ha & Hl & ->)]%propose_Done; [by typed_tac|].
  assert (core_typed s') by (rewrite Heq; typed_tac; by apply ct_term).
  split; [done|]. cbn. typed_tac.
Qed.

Lemma take_snapshot_typed s md s' :
  core_typed s -> prepare_snapshot s = Done md -> complete_snapshot s md = Done s' -> core_typed s'.
Proof.
  intros Hs Hp H. unfold prepare_snapshot, complete_snapshot, vec_drain_to in *.
  exec_inv. repeat case_match; exec_inv; cbn; typed_tac. by apply Forall_drop, ct_log.
Qed.
End handlers.

