(* ===== verification/CoreExamples.v ===== *)
(** Concrete nodes at which the theorems on one node apply. *)

From S2P Require Import Prelude Types RaftCore CoreLog CoreFrame CoreReplication CoreElection.
From S2P Require Import CoreInvariant CoreCommit CoreTotal CoreTiming CoreHandlers.
From S2P Require Import ReplicationSafety CatchUp CoreEffects CoreTyped.
From Stdlib Require Import Strings.Byte.

(** Every draw at its lower bound. *)
Definition low_rng : Rng := fun _ lo _ => lo.

Definition node (me : NodeId) (others : list NodeId) (role : RaftState) (term : Z)
    (entries : list LogEntry) (commit : Z) (matches : gmap Z Z) : RaftCore :=
  mkRaftCore me others role term None entries commit commit None (Z.succ <$> matches) matches ∅
    0 0 0 (15, 31) 15 5 0 0 ∅.

Lemma node_wf me others role term entries commit matches :
  0 <= term -> len entries + 2 < U64 -> 0 <= commit <= len entries ->
  map_Forall (fun n v => n ∈ others /\ 0 <= v <= len entries) matches ->
  core_wf (node me others role term entries commit matches).
Proof.
  intros Ht Hl Hc Hm. assert (map_Forall (fun _ v => is_u64 v) (Z.succ <$> matches)) as Hn.
  { intros n v Hv. rewrite lookup_fmap in Hv. apply fmap_Some in Hv as (w & Hw & ->).
    destruct (Hm n w Hw). unfold is_u64. lia. }
  split; cbn; try done; try lia.
  - intros n v Hv. by destruct (Hm n v Hv).
  - intros _ n v Hv. by destruct (Hm n v Hv).
Qed.

Definition entry (term : Z) (command : bytes) : LogEntry := mkLogEntry term command.

(** A follower of term 1: a no-op, a committed command, and one more. *)
Definition follower : RaftCore :=
  node 2 [1; 3] Follower 1 [entry 1 []; entry 1 [x61]; entry 1 [x62]] 2 ∅.

Lemma follower_wf : core_wf follower.
Proof. apply node_wf; unfold len; cbn; [lia..|by apply map_Forall_empty]. Qed.

(** Leader 1 of term 2 replaces the follower's third entry. *)
Definition overwrite : AppendEntriesRPC :=
  mkAppendEntriesRPC 2 1 2 1 [entry 2 [x63]; entry 2 [x64]] 3.

Lemma overwrite_ok : append_ok follower overwrite.
Proof.
  unfold append_ok, room, is_u64, len. split_and!; [cbn; lia..|].
  intros _. split; [cbn; lia|]. intros j e He Hj. cbn in Hj. lia.
Qed.

Lemma overwrite_accepted : accepts follower overwrite.
Proof. split; [left; reflexivity|reflexivity]. Qed.

(** The same leader probing beyond the follower's log. *)
Definition probe : AppendEntriesRPC := mkAppendEntriesRPC 2 1 3 2 [] 3.

(** A leader of term 2 in a cluster of three; nothing is replicated yet. *)
Definition leader : RaftCore :=
  node 1 [2; 3] Leader 2 [entry 1 []; entry 2 []; entry 2 [x65]] 1 {[2 := 0; 3 := 0]}.

Lemma leader_wf : core_wf leader.
Proof.
  apply node_wf; unfold len; cbn; [lia..|].
  intros n v [[<- <-]|[_ [<- <-]%lookup_singleton_Some]]%lookup_insert_Some; split; try lia; set_solver.
Qed.

Definition ack : AppendEntriesResponseRPC := mkAppendEntriesResponseRPC 2 2 3 true None None.

Lemma ack_ok : append_response_ok leader ack.
Proof. cbn. split_and!; try done. set_solver. Qed.

(** ** Witnesses *)
Lemma core_input_total_witness :
  returns (core_inputs follower [(low_rng, InMessage (AppendEntries overwrite)); (low_rng, InTick)])
    core_wf.
Proof.
  apply (core_input_total [(low_rng, InMessage (AppendEntries overwrite)); (low_rng, InTick)] follower);
    [apply follower_wf|].
  split; [apply overwrite_ok|]. destruct (core_input _ _ _) as [[s acts]|]; [|exact I].
  split; [exact I|]. destruct (core_input _ _ _) as [[s1 acts1]|]; exact I.
Defined.

Definition compacted : RaftCore :=
  follower <| log := [entry 1 [x62]] |> <| last_included_index := 2 |> <| last_included_term := 1 |>.

Lemma snapshot_transparent_witness :
  core_input low_rng follower InSnapshot = Done (compacted, [])
  /\ log_entry_at compacted 3 = log_entry_at follower 3.
Proof.
  assert (core_input low_rng follower InSnapshot = Done (compacted, [])) as H by (vm_compute; reflexivity).
  split; [exact H|].
  refine (proj2 (proj2 (proj2 (snapshot_transparent low_rng follower compacted [] follower_wf H))) 3 _).
  vm_compute. split; reflexivity.
Defined.

Lemma append_entries_accept_witness :
  exists s', log s' = [entry 1 []; entry 1 [x61]; entry 2 [x63]; entry 2 [x64]]
    /\ current_term s' = 2 /\ state s' = Follower.
Proof.
  destruct (append_entries_accept low_rng follower overwrite follower_wf overwrite_ok overwrite_accepted)
    as (s' & Hl & Ht & Hs & _).
  exists s'. split; [rewrite Hl; reflexivity|]. split; [exact Ht|exact Hs].
Defined.

Lemma append_entries_matching_witness :
  exists s' acts, handle_append_entries low_rng follower overwrite = Done (s', acts)
    /\ log_entry_at s' 2 = log_entry_at follower 2.
Proof.
  destruct (handle_append_entries low_rng follower overwrite) as [[s' acts]|] eqn:H;
    [|vm_compute in H; discriminate H].
  exists s', acts. split; [reflexivity|].
  refine (proj1 (append_entries_matching low_rng follower overwrite s' acts follower_wf overwrite_ok
            overwrite_accepted H) 2 _). vm_compute. discriminate.
Defined.



Definition overwrite_run : list (Rng * Input) :=
  [(low_rng, InMessage (AppendEntries overwrite)); (low_rng, InTick)].

Lemma overwrite_run_ok : inputs_ok follower overwrite_run.
Proof.
  split; [apply overwrite_ok|]. destruct (core_input _ _ _) as [[s acts]|]; [|exact I].
  split; [exact I|]. destruct (core_input _ _ _) as [[s1 acts1]|]; exact I.
Qed.

Lemma actions_durable_witness :
  exists s' acts, core_trace follower overwrite_run = Done (s', acts)
    /\ exec_durables (durable_of follower) acts = Some (durable_of s').
Proof.
  destruct (core_trace follower overwrite_run) as [[s' acts]|] eqn:H; [|vm_compute in H; discriminate H].
  exists s', acts. split; [reflexivity|].
  refine (actions_durable overwrite_run follower s' acts follower_wf overwrite_run_ok _ H).
  repeat constructor.
Defined.

Lemma applies_in_order_witness :
  exists s' acts, core_input low_rng leader (InMessage (AppendEntriesResponse ack)) = Done (s', acts)
    /\ (omap apply_of acts = commands s' 1 (last_applied s')
        \/ exists req, InMessage (AppendEntriesResponse ack) = InMessage (InstallSnapshotMsg req)
             /\ omap apply_of acts = [] /\ last_applied s' = is_last_included_index req
             /\ ActInstallSnapshot (is_last_included_index req) (is_last_included_term req)
                  (is_data req) ∈ acts).
Proof.
  destruct (core_input low_rng leader (InMessage (AppendEntriesResponse ack))) as [[s' acts]|] eqn:H;
    [|vm_compute in H; discriminate H].
  exists s', acts. split; [reflexivity|].
  exact (applies_in_order low_rng leader (InMessage (AppendEntriesResponse ack)) s' acts leader_wf ack_ok H).
Defined.

Lemma election_starts_witness :
  exists s' t, ticks low_rng 15 follower =
    Done (s', PersistMetadata 2 (Some 2)
              :: ((fun p => SendMessage p (RequestVote (mkRequestVoteRPC 2 2 3 t))) <$> [1; 3]))
    /\ state s' = Candidate.
Proof.
  destruct (election_starts low_rng follower 14 follower_wf) as (s' & t & H & _ & Hs & _).
  - discriminate.
  - cbn. lia.
  - cbn. lia.
  - reflexivity.
  - exists s', t. split; [exact H|exact Hs].
Defined.

Lemma heartbeats_sent_witness :
  exists acts, ticks low_rng 5 leader = Done (leader <| ticks_since_last_heartbeat := 0 |>, acts)
    /\ Forall2 (fun p a => build_append_entries_for_peer leader p = Done a) [2; 3] acts.
Proof.
  refine (heartbeats_sent low_rng leader 4 leader_wf eq_refl _ _ eq_refl).
  - cbn. lia.
  - cbn. lia.
Defined.

Lemma append_request_faithful_witness :
  next_index leader !! 2 = Some 1 /\
  exists a, build_append_entries_for_peer leader 2 = Done a.
Proof.
  assert (next_index leader !! 2 = Some 1) as H by (vm_compute; reflexivity).
  split; [exact H|].
  destruct (append_request_faithful leader 2 1 leader_wf H) as [(_ & req & Hb & _)|[_ Hb]].
  - vm_compute. split; discriminate.
  - exists (SendMessage 2 (AppendEntries req)). exact Hb.
  - eexists. exact Hb.
Defined.

(** The leader with a read waiting since its first response count. *)
Definition reading : RaftCore := leader <| read_barriers := {[7 := 0]} |>.

Lemma reading_wf : core_wf reading.
Proof. eapply core_wf_same_data; [|exact leader_wf]. same_data_tac. Qed.

Lemma read_barriers_confirmed_witness :
  exists s' acts, handle_append_entries_response low_rng reading ack = Done (s', acts)
    /\ ReadBarrierReady 7 ∈ acts.
Proof.
  destruct (read_barriers_confirmed low_rng reading ack reading_wf ack_ok eq_refl)
    as (s' & acts & H & Hready & _).
  exists s', acts. split; [exact H|]. apply Hready. exists 0. split; [reflexivity|].
  vm_compute. discriminate.
Defined.

(** A candidate with a longer log of a newer term. *)
Definition ballot : RequestVoteRPC := mkRequestVoteRPC 5 3 4 2.

Lemma request_vote_spec_witness :
  exists s', handle_request_vote low_rng follower ballot =
    Done (s', [PersistMetadata 5 None; PersistMetadata 5 (Some 3);
               SendMessage 3 (RequestVoteResponse (mkRequestVoteResponseRPC 2 5 true))]).
Proof.
  destruct (request_vote_spec low_rng follower ballot follower_wf) as (s' & b & H & Hb & _).
  assert (b = true) as ->.
  { apply Hb. split; [left; reflexivity|]. exists 1. split; [vm_compute; reflexivity|left; reflexivity]. }
  exists s'. exact H.
Defined.

Definition far_snapshot : InstallSnapshotRPC := mkInstallSnapshotRPC 2 1 9 2 [x61].

Lemma install_snapshot_spec_witness :
  exists s' acts, handle_install_snapshot low_rng follower far_snapshot = Done (s', acts)
    /\ log s' = [] /\ last_included_index s' = 9.
Proof.
  destruct (install_snapshot_spec low_rng follower far_snapshot follower_wf) as (s' & acts & H & Hcase).
  exists s', acts. split; [exact H|].
  change (is_term far_snapshot <? current_term follower) with false in Hcase.
  change (is_last_included_index far_snapshot <=? last_included_index follower) with false in Hcase.
  cbn -[log_term_at] in Hcase. destruct Hcase as (_ & _ & Hcase).
  rewrite bool_decide_false in Hcase by (vm_compute; discriminate).
  split; [apply Hcase|apply Hcase].
Defined.

(** A follower of the leader's term that lacks the last two entries. *)
Definition behind : RaftCore := node 2 [1; 3] Follower 2 [entry 1 []] 1 ∅.

Definition aiming : RaftCore := aim leader 2 4.

Lemma behind_wf : core_wf behind.
Proof. apply node_wf; unfold len; cbn; [lia..|by apply map_Forall_empty]. Qed.

Lemma aiming_wf : core_wf aiming.
Proof.
  destruct leader_wf as [W1 W2 W3 W4 W5 W6 W7 W8]. split; try done. cbn.
  apply map_Forall_insert_2; [by vm_compute|exact W6].
Qed.

Lemma aiming_serves : serves aiming behind 4.
Proof.
  intros nx' req Hn Hb.
  assert (nx' = 0 \/ nx' = 1 \/ nx' = 2 \/ nx' = 3 \/ nx' = 4) as Hcases by lia.
  assert (ae_prev_log_index req = Z.max 0 (nx' - 1) /\ len (ae_entries req) <= 3
    /\ ae_leader_commit req = 1
    /\ forall e, ae_entries req !! 0%nat = Some e -> nx' = 1 -> e_term e = 1) as (H1 & H2 & H3 & H4).
  { destruct Hcases as [->|[->|[->|[->| ->]]]]; vm_compute in Hb; injection Hb as <-;
      (split_and!; [reflexivity|vm_compute; discriminate|reflexivity|]); intros e [= <-] Hx;
      (reflexivity || discriminate Hx). }
  unfold append_ok, room, is_u64. rewrite H1, H3. cbn -[Z.max len]. change (len [entry 1 []]) with 1.
  split_and!; [lia..|]. intros _. split; [lia|]. intros j e He Hj. cbn -[Z.max] in Hj. rewrite H1 in Hj.
  assert (j = 0%nat) as -> by lia. rewrite H1.
  destruct (Z.eq_dec nx' 1) as [->|Hne].
  - rewrite (H4 e He eq_refl). reflexivity.
  - assert (nx' = 0) as -> by lia. vm_compute in Hb. injection Hb as <-. discriminate He.
Qed.

Lemma catch_up_terminates_witness :
  exists r, catch_up low_rng 5 aiming behind = Done (Some r).
Proof.
  destruct (catch_up_terminates low_rng aiming behind 4 aiming_wf behind_wf) as (r & H & _).
  - reflexivity.
  - discriminate.
  - vm_compute. reflexivity.
  - vm_compute. split; discriminate.
  - apply aiming_serves.
  - exists r. exact H.
Defined.

(** Every draw the same. *)
Definition steady_rng : Rng := fun _ _ _ => 15.

Lemma follower_typed : core_typed follower.
Proof. by split; try apply map_Forall_empty; try (by intros x); repeat constructor. Qed.

(** A message of the last term there is. *)
Definition last_call : AppendEntriesRPC :=
  mkAppendEntriesRPC (U64 - 1) 1 3 1 [entry (U64 - 1) [x64]] (U64 - 1).

