(* ===== verification/ElectionSafety.v ===== *)
(** Cluster-level theorems about votes and leaders. *)

From S2P Require Import Prelude Types RaftCore CoreLog CoreFrame CoreElection Cluster.

(** ** Quorums *)
(** Two majorities of the same node set meet. *)
Lemma quorums_meet (all : list Z) (Q1 Q2 : gset Z) :
  (forall v, v ∈ Q1 -> v ∈ all) -> (forall v, v ∈ Q2 -> v ∈ all) ->
  len all / 2 < Z.of_nat (size Q1) -> len all / 2 < Z.of_nat (size Q2) ->
  exists v, v ∈ Q1 /\ v ∈ Q2.
Proof.
  intros H1 H2 Hs1 Hs2. apply (sets_meet all); [done..|]. Z.div_mod_to_equations. lia.
Qed.

Lemma leader_backed cfg w n s :
  NoDup (cfg_nodes cfg) -> len (cfg_nodes cfg) < U64 ->
  safe cfg w -> nodes w !! n = Some s -> state s = Leader ->
  len (cfg_nodes cfg) / 2 < Z.of_nat (size (votes_received s))
  /\ forall v, v ∈ votes_received s ->
       v ∈ cfg_nodes cfg /\ (voted (network w) v (current_term s) n \/ cfg_nodes cfg = [n]).
Proof.
  intros Hnd Hlen [[Hnodes Hvotes] Hrole] Hn Hl.
  destruct (Hnodes n s Hn) as [Hid Hmem Hpeers _ _].
  destruct (Hrole n s Hn) as [_ Ha Hc Hq].
  specialize (Ha ltac:(congruence)). specialize (Hc ltac:(congruence)). specialize (Hq Hl).
  pose proof (peers_length n _ Hnd Hmem) as Hpl. split.
  { unfold has_quorum in Hq. rewrite Hpeers in Hq. unfold len in *.
    rewrite u64_add_small in Hq by lia. by replace (Z.of_nat _) with
      (Z.of_nat (length (filter (fun x => x ≠ n) (cfg_nodes cfg))) + 1) by lia. }
  intros v Hv. destruct (Hc v Hv) as [->|Hg].
  - rewrite Hid. split; [done|].
    destruct (filter (fun x => x ≠ n) (cfg_nodes cfg)) as [|p ps] eqn:Hf.
    + right. destruct (cfg_nodes cfg) as [|x [|y l]]; cbn in Hpl; try lia. by apply list_elem_of_singleton in Hmem as ->.
    + left. right. split; [done|]. destruct (Ha p) as (req & ? & ? & ?); [rewrite Hpeers; left|].
      exists p, req. split_and!; congruence.
  - rewrite Hid in Hg. assert (voted (network w) v (current_term s) n) as Hvote by by left.
    split; [|by left]. destruct (vo_voter _ Hvotes _ _ _ Hvote) as (sv & Hsv & _).
    by destruct (Hnodes v sv Hsv).
Qed.

Lemma voted_mono net net' v t c : net `prefix_of` net' -> voted net v t c -> voted net' v t c.
Proof. intros [k ->] Hv. apply voted_app. by left. Qed.

(** ** Executable schedules *)

(** One step of a schedule: node, input and the random draw it sees. *)
Definition exec_step (ok : RaftCore -> Message -> bool) (w : Cluster) (ni : NodeId * Input)
    : option Cluster :=
  let '(n, i) := ni in
  match nodes w !! n with
  | None => None
  | Some s =>
      if (current_term s + 1 <? U64)
         && (match i with
             | InMessage m => bool_decide ((n, m) ∈ network w) && ok s m
             | _ => true
             end)
      then match core_input (fun _ lo _ => lo) s i with
           | Done (s', acts) => Some (perform w n s' [] acts)
           | Panic => None
           end
      else None
  end.

Definition run (ok : RaftCore -> Message -> bool) (w : Cluster) (sched : list (NodeId * Input))
    : option Cluster :=
  foldl (fun w ni => w ← w; exec_step ok w ni) (Some w) sched.

Lemma exec_step_sound cfg deliverable ok w ni w' :
  (forall s m, ok s m = true -> deliverable s m) ->
  exec_step ok w ni = Some w' -> cluster_step cfg deliverable w w'.
Proof.
  intros Hok H. destruct ni as [n i]. unfold exec_step in H.
  destruct (nodes w !! n) as [s|] eqn:Hs; [|done].
  destruct (Z.ltb_spec (current_term s + 1) U64); [|done]. cbn [andb] in H.
  case_match eqn:Hadm; [|done].
  destruct (core_input _ s i) as [[s' acts]|] eqn:Hi; [|done]. injection H as <-.
  eapply step_input; try done. destruct i; cbn in *; try done.
  apply andb_prop in Hadm as [Hin%bool_decide_eq_true ?]. auto.
Qed.

Lemma run_sound cfg deliverable ok w sched w' :
  (forall s m, ok s m = true -> deliverable s m) ->
  run ok w sched = Some w' -> steps cfg deliverable w w'.
Proof.
  intros Hok. revert w. induction sched as [|ni sched IH]; intros w H; cbn in H.
  - injection H as <-. apply rtc_refl.
  - destruct (exec_step ok w ni) as [w1|] eqn:He.
    + eapply rtc_l; [by eapply exec_step_sound|]. by apply IH.
    + exfalso. clear -H. induction sched; done.
Qed.

(** A fresh cluster of [cfg], every random draw at its lower bound. *)
Definition fresh_nodes (cfg : Config) : gmap Z RaftCore :=
  list_to_map (omap (fun n =>
    match new (fun _ lo _ => lo) n (cfg_nodes cfg) (cfg_heartbeat cfg) (cfg_range cfg) with
    | Done s => Some (n, s)
    | Panic => None
    end) (cfg_nodes cfg)).

Definition fresh_cluster (cfg : Config) : Cluster := mkCluster (fresh_nodes cfg) ∅ [].

Lemma fresh_cluster_initial cfg : initial cfg (fresh_cluster cfg).
Proof.
  split_and!; [done..|]. intros n s H. cbn in H.
  apply elem_of_list_to_map_2, list_elem_of_omap in H as (x & Hx & Hm).
  destruct (new _ x _ _ _) as [s'|] eqn:Hn; [|done]. injection Hm as -> ->.
  split; [done|]. by exists (fun _ lo _ => lo), None, None.
Qed.

(** ** Theorems *)

(** C9: one vote per node and term.  Over any network (loss, delay,
    duplication, reordering) and with crashes between any two actions, a node
    that granted its vote at some term to two candidates granted it to one. *)
Theorem vote_unique cfg deliverable w v t c c' :
  reachable cfg deliverable w ->
  (c, RequestVoteResponse (mkRequestVoteResponseRPC v t true)) ∈ network w ->
  (c', RequestVoteResponse (mkRequestVoteResponseRPC v t true)) ∈ network w ->
  c = c'.
Proof.
  intros Hr H H'. destruct (reachable_ok _ _ _ Hr) as [_ Hv].
  by apply (vo_unique _ Hv v t); left.
Qed.

(** C8: election safety.  On a network that drops vote responses of past
    terms, two nodes that lead the same term, possibly at different times of
    one execution, are the same node. *)
Theorem election_safety cfg w1 w2 n1 n2 s1 s2 :
  NoDup (cfg_nodes cfg) -> len (cfg_nodes cfg) < U64 ->
  reachable cfg fresh_votes w1 -> steps cfg fresh_votes w1 w2 ->
  nodes w1 !! n1 = Some s1 -> state s1 = Leader ->
  nodes w2 !! n2 = Some s2 -> state s2 = Leader ->
  current_term s1 = current_term s2 -> n1 = n2.
Proof.
  intros Hnd Hlen Hr Hs Hn1 Hl1 Hn2 Hl2 Hterm.
  pose proof (reachable_safe _ _ Hr) as Hsafe1. pose proof (steps_safe _ _ _ Hsafe1 Hs) as Hsafe2.
  destruct (leader_backed _ _ _ _ Hnd Hlen Hsafe1 Hn1 Hl1) as [Hq1 Hb1].
  destruct (leader_backed _ _ _ _ Hnd Hlen Hsafe2 Hn2 Hl2) as [Hq2 Hb2].
  destruct (quorums_meet (cfg_nodes cfg) (votes_received s1) (votes_received s2)) as (v & Hv1 & Hv2);
    [naive_solver..|]. 
  destruct (proj1 (proj1 Hsafe1) n1 s1 Hn1) as [_ Hm1 _ _ _].
  destruct (proj1 (proj1 Hsafe2) n2 s2 Hn2) as [_ Hm2 _ _ _].
  destruct (Hb1 v Hv1) as [_ [Hvote1|Hone]];
    [|rewrite Hone in Hm2; by apply list_elem_of_singleton in Hm2].
  destruct (Hb2 v Hv2) as [_ [Hvote2|Hone]];
    [|rewrite Hone in Hm1; by apply list_elem_of_singleton in Hm1].
  eapply (vo_unique _ (proj2 (proj1 Hsafe2)) v (current_term s2)); [|done].
  rewrite <- Hterm. eapply voted_mono; [by eapply steps_network|done].
Qed.

(** ** Concrete executions *)

(** Three nodes that time out after one tick. *)
Definition demo : Config := mkConfig [1; 2; 3] None (1, 2).

Definition request (candidate term : Z) : Input :=
  InMessage (RequestVote (mkRequestVoteRPC term candidate 0 0)).

Definition grant (voter term : Z) : Input :=
  InMessage (RequestVoteResponse (mkRequestVoteResponseRPC voter term true)).

Definition fresh_votesb (s : RaftCore) (m : Message) : bool :=
  match m with
  | RequestVoteResponse resp => current_term s <=? rvr_term resp
  | _ => true
  end.

Lemma fresh_votesb_sound s m : fresh_votesb s m = true -> fresh_votes s m.
Proof. destruct m; cbn; auto. apply Z.leb_le. Qed.

(** Node 1 is elected at term 1 by node 2; node 3 hears of it later. *)
Definition election_schedule : list (NodeId * Input) :=
  [(1, InTick); (2, request 1 1); (1, grant 2 1)].

Definition later_schedule : list (NodeId * Input) := [(1, InTick); (3, request 1 1)].

Definition elected : Cluster :=
  default (fresh_cluster demo)
    (run fresh_votesb (fresh_cluster demo) election_schedule).

Definition elected_later : Cluster :=
  default (fresh_cluster demo) (run fresh_votesb elected later_schedule).

Definition node_of (w : Cluster) (n : NodeId) : option (RaftState * Z) :=
  (fun s => (state s, current_term s)) <$> nodes w !! n.

Lemma elected_reachable : reachable demo fresh_votes elected.
Proof.
  exists (fresh_cluster demo). split; [apply fresh_cluster_initial|].
  apply (run_sound _ _ fresh_votesb _ election_schedule); [apply fresh_votesb_sound|].
  vm_compute. reflexivity.
Qed.

Lemma elected_steps : steps demo fresh_votes elected elected_later.
Proof.
  apply (run_sound _ _ fresh_votesb _ later_schedule); [apply fresh_votesb_sound|].
  vm_compute. reflexivity.
Qed.

Lemma node_of_Some w n r : node_of w n = Some r ->
  exists s, nodes w !! n = Some s /\ state s = r.1 /\ current_term s = r.2.
Proof. intros H. apply fmap_Some in H as (s & Hs & ->). by exists s. Qed.

Lemma vote_unique_witness :
  exists c, (c, RequestVoteResponse (mkRequestVoteResponseRPC 2 1 true)) ∈ network elected /\ c = 1.
Proof.
  exists 1. split; [by apply (bool_decide_unpack _); vm_compute|].
  apply (vote_unique demo fresh_votes elected 2 1);
    [apply elected_reachable|by apply (bool_decide_unpack _); vm_compute..].
Defined.

Lemma election_safety_witness :
  node_of elected 1 = Some (Leader, 1) /\ node_of elected_later 1 = Some (Leader, 1) /\ 1 = 1.
Proof.
  assert (node_of elected 1 = Some (Leader, 1)) as H1 by (vm_compute; reflexivity).
  assert (node_of elected_later 1 = Some (Leader, 1)) as H2 by (vm_compute; reflexivity).
  split; [exact H1|]. split; [exact H2|].
  destruct (node_of_Some _ _ _ H1) as (s1 & Hn1 & Hl1 & Ht1).
  destruct (node_of_Some _ _ _ H2) as (s2 & Hn2 & Hl2 & Ht2).
  refine (election_safety demo elected elected_later 1 1 s1 s2 _ _
            elected_reachable elected_steps Hn1 Hl1 Hn2 Hl2 _).
  - apply (bool_decide_unpack _). vm_compute. exact I.
  - reflexivity.
  - by rewrite Ht1, Ht2.
Defined.

(** ** The stale vote *)

(** Node 1 asks for votes at term 1 and again at term 2; node 2 votes for it at
    term 1 and for node 3 at term 2.  The term-1 vote arrives last. *)
Definition stale_vote_schedule : list (NodeId * Input) :=
  [(1, InTick); (2, request 1 1); (1, InTick);
   (3, InTick); (3, InTick); (2, request 3 2); (3, grant 2 2); (1, grant 2 1)].

Definition split_brain : Cluster :=
  default (fresh_cluster demo) (run (fun _ _ => true) (fresh_cluster demo) stale_vote_schedule).

(** The freshness of votes is needed.  On a network that may delay a vote
    response beyond its term, the code elects two leaders for one term: the
    response's term is compared with the node's only to step down. *)
Lemma stale_vote_two_leaders :
  reachable demo (fun _ _ => True) split_brain
  /\ node_of split_brain 1 = Some (Leader, 2) /\ node_of split_brain 3 = Some (Leader, 2).
Proof.
  split_and!; [|vm_compute; reflexivity..].
  exists (fresh_cluster demo). split; [apply fresh_cluster_initial|].
  apply (run_sound _ _ (fun _ _ => true) _ stale_vote_schedule); [done|]. vm_compute. reflexivity.
Qed.

(** ** A deposed leader that keeps replicating *)
Definition write_A : bytes := [x41].
Definition write_B : bytes := [x42].

Definition deliver (n : NodeId) (m : Message) : NodeId * Input := (n, InMessage m).

Definition appends (term sender prev prev_term : Z) (entries : list LogEntry) (commit : Z) : Message :=
  AppendEntries (mkAppendEntriesRPC term sender prev prev_term entries commit).

Definition append_reply (sender term last : Z) (ok : bool) (index cterm : option Z) : Message :=
  AppendEntriesResponse (mkAppendEntriesResponseRPC sender term last ok index cterm).

(** Node 3 leads term 1 and takes A, which reaches nobody; node 1 leads term 2
    and commits B with node 2; node 3 learns of term 2, asks for votes at term
    3 and so rejects a term 2 append; its rejection deposes node 1, which
    answers it with an append at term 3. *)
Definition deposed_schedule : list (NodeId * Input) :=
  let noop2 := mkLogEntry 2 [] in
  let b2 := mkLogEntry 2 write_B in
  [(3, InTick); (2, request 3 1); (3, grant 2 1); (3, InPropose write_A);
   (1, InTick); (1, InTick); (2, request 1 2); (1, grant 2 2); (1, InPropose write_B);
   deliver 2 (appends 2 1 1 2 [b2] 0); deliver 1 (append_reply 2 2 0 false (Some 1) None);
   deliver 2 (appends 2 1 0 0 [noop2; b2] 0); deliver 1 (append_reply 2 2 2 true None None);
   (3, request 1 2); (3, InTick);
   deliver 3 (appends 2 1 1 2 [] 0); deliver 1 (append_reply 3 3 2 false None None);
   deliver 3 (appends 3 1 0 0 [] 2)].

Definition diverged : Cluster :=
  default (fresh_cluster demo) (run fresh_votesb (fresh_cluster demo) deposed_schedule).

(** The role, the applied index and the command at index 2 of a node. *)
Definition applied_of (w : Cluster) (n : NodeId) : option (RaftState * Z * option bytes) :=
  (fun s => (state s, last_applied s, e_command <$> log_entry_at s 2)) <$> nodes w !! n.

(** An append from a node that does not lead.  A rejection with a newer
    term makes a leader step down, and the same handler then sends the peer an
    append under that newer term, which the node never won.  The peer accepts
    it and commits its own log up to the old leader's commit index: two nodes
    apply different commands at index 2.  Elections are safe in this run (no
    stale vote is delivered). *)
Lemma deposed_leader_diverges :
  reachable demo fresh_votes diverged
  /\ applied_of diverged 1 = Some (Follower, 2, Some write_B)
  /\ applied_of diverged 3 = Some (Follower, 2, Some write_A).
Proof.
  split_and!; [|vm_compute; reflexivity..].
  exists (fresh_cluster demo). split; [apply fresh_cluster_initial|].
  apply (run_sound _ _ fresh_votesb _ deposed_schedule); [apply fresh_votesb_sound|].
  vm_compute. reflexivity.
Qed.

(** ** Reads *)

(** Leader 1 of term 1 replicates its no-op to nodes 2 and 3; the answer of
    node 2 stays in the network.  Nodes 2 and 3 move on to term 2, where node 3
    commits B.  Node 1, which has not heard of it, takes a read. *)
Definition read_schedule : list (NodeId * Input) :=
  let noop1 := mkLogEntry 1 [] in
  let noop2 := mkLogEntry 2 [] in
  let b2 := mkLogEntry 2 write_B in
  [(1, InTick); (2, request 1 1); (1, grant 2 1);
   deliver 2 (appends 1 1 1 1 [] 0); deliver 1 (append_reply 2 1 0 false (Some 1) None);
   deliver 2 (appends 1 1 0 0 [noop1] 0);
   deliver 3 (appends 1 1 1 1 [] 0); deliver 1 (append_reply 3 1 0 false (Some 1) None);
   deliver 3 (appends 1 1 0 0 [noop1] 0);
   (3, InTick); deliver 2 (RequestVote (mkRequestVoteRPC 2 3 1 1)); (3, grant 2 2);
   (3, InPropose write_B);
   deliver 2 (appends 2 3 2 2 [b2] 0); deliver 3 (append_reply 2 2 1 false (Some 2) None);
   deliver 2 (appends 2 3 1 1 [noop2; b2] 0); deliver 3 (append_reply 2 2 3 true None None);
   (1, InRead)].

Definition old_answer : Message := append_reply 2 1 1 true None None.

Definition before_read : Cluster :=
  default (fresh_cluster demo) (run fresh_votesb (fresh_cluster demo) read_schedule).

(** The read barriers that delivering [m] to node [n] confirms. *)
Definition confirmed_reads (w : Cluster) (n : NodeId) (m : Message) : option (list Z) :=
  s ← nodes w !! n;
  match core_input (fun _ lo _ => lo) s (InMessage m) with
  | Done (_, acts) => Some (omap (fun a => match a with ReadBarrierReady b => Some b | _ => None end) acts)
  | Panic => None
  end.

(** An old answer confirms a read.  A read barrier counts successful
    responses, not the appends they answer: a response to an append sent before
    the read confirms it.  Here it confirms a read on a deposed leader, after
    the new leader has committed and applied a write that the old one has not. *)
Lemma old_answer_confirms_read :
  reachable demo fresh_votes before_read
  /\ (1, old_answer) ∈ network before_read
  /\ confirmed_reads before_read 1 old_answer = Some [1]
  /\ node_of before_read 3 = Some (Leader, 2)
  /\ (last_applied <$> nodes before_read !! 3) = Some 3
  /\ (last_applied <$> nodes before_read !! 1) = Some 0.
Proof.
  split_and!; [|by apply (bool_decide_unpack _); vm_compute|vm_compute; reflexivity..].
  exists (fresh_cluster demo). split; [apply fresh_cluster_initial|].
  apply (run_sound _ _ fresh_votesb _ read_schedule); [apply fresh_votesb_sound|].
  vm_compute. reflexivity.
Qed.
