(* ===== verification/RaftSpec.v ===== *)
(** An abstract specification of Raft.

    A replica is its term, vote, log, role and commit index.  The network is
    replaced by what was ever said on it: the vote requests with the whole log
    of the candidate, the votes, the appends with the whole log of the leader,
    and the acknowledgements.  Three more records, of the leader of each term,
    of its log when it was elected and of its log so far, and the list of the
    committed indices, have no counterpart in the code; they are what the
    argument for safety is about. *)

From stdpp Require Import functions.
From S2P Require Import Prelude Types.
#[local] Open Scope Z_scope.

(** ** State *)
Record Replica := mkReplica {
  r_term : Z;
  r_vote : option NodeId;
  r_log : list LogEntry;
  r_role : RaftState;
  r_commit : nat;
}.

#[export] Instance eta_Replica : Eta Replica := fun r =>
  mkReplica (r_term r) (r_vote r) (r_log r) (r_role r) (r_commit r).
#[export] Instance field_r_term : Field r_term := ltac:(solve_field).
#[export] Instance field_r_vote : Field r_vote := ltac:(solve_field).
#[export] Instance field_r_log : Field r_log := ltac:(solve_field).
#[export] Instance field_r_role : Field r_role := ltac:(solve_field).
#[export] Instance field_r_commit : Field r_commit := ltac:(solve_field).

Record World := mkWorld {
  replica : Z -> Replica;
  leads : gmap Z NodeId;                        (* the leader of a term *)
  base : gmap Z (list LogEntry);                (* its log when it was elected *)
  hist : gmap Z (list LogEntry);                (* its log so far *)
  reqs : list (Z * NodeId * list LogEntry);     (* term, candidate, its log *)
  votes : list (NodeId * Z * NodeId);           (* voter, term, candidate *)
  appends : list (Z * list LogEntry * nat);     (* term, leader's log, its commit index *)
  acks : list (NodeId * Z * nat);               (* replica, term, length of its log *)
  commits : list (Z * nat);                     (* term, index *)
  applied : list (nat * LogEntry);              (* index, entry *)
}.

#[export] Instance eta_World : Eta World := fun w =>
  mkWorld (replica w) (leads w) (base w) (hist w) (reqs w) (votes w) (appends w) (acks w)
    (commits w) (applied w).
#[export] Instance field_replica : Field replica := ltac:(solve_field).
#[export] Instance field_leads : Field leads := ltac:(solve_field).
#[export] Instance field_base : Field base := ltac:(solve_field).
#[export] Instance field_hist : Field hist := ltac:(solve_field).
#[export] Instance field_reqs : Field reqs := ltac:(solve_field).
#[export] Instance field_votes : Field votes := ltac:(solve_field).
#[export] Instance field_appends : Field appends := ltac:(solve_field).
#[export] Instance field_acks : Field acks := ltac:(solve_field).
#[export] Instance field_commits : Field commits := ltac:(solve_field).
#[export] Instance field_applied : Field applied := ltac:(solve_field).

(** ** Logs *)
Definition last_term (l : list LogEntry) : Z := default 0 (e_term <$> last l).

(** A candidate with log [l] is at least as up to date as a voter with [k]. *)
Definition as_recent (l k : list LogEntry) : Prop :=
  last_term k < last_term l \/ (last_term l = last_term k /\ (length k <= length l)%nat).

(** The entries with indices above [lo] up to [hi], with their indices. *)
Definition indexed (l : list LogEntry) (lo hi : nat) : list (nat * LogEntry) :=
  imap (fun k e => (lo + 1 + k, e)%nat) (drop lo (take hi l)).

Section spec.
Context (all : list NodeId).

Definition quorum (Q : gset NodeId) : Prop :=
  (forall v, v ∈ Q -> v ∈ all) /\ len all / 2 < Z.of_nat (size Q).

(** A set that has a member in every quorum. *)
Definition meets_quorums (P : NodeId -> Prop) : Prop :=
  forall Q, quorum Q -> exists v, v ∈ Q /\ P v.

(** ** Steps of the replica [v] *)
Definition set (w : World) (v : NodeId) (r : Replica) : World :=
  w <| replica := <[v := r]> (replica w) |>.

Inductive spec_step (v : NodeId) (w : World) : World -> Prop :=
| spec_new_term t :
    let r := replica w v in
    r_term r < t ->
    spec_step v w (set w v (r <| r_term := t |> <| r_vote := None |> <| r_role := Follower |>))
| spec_demote :
    let r := replica w v in
    spec_step v w (set w v (r <| r_role := Follower |>))
| spec_timeout :
    let r := replica w v in
    let t := r_term r + 1 in
    spec_step v w
      (set w v (r <| r_term := t |> <| r_vote := Some v |> <| r_role := Candidate |>)
         <| reqs := (t, v, r_log r) :: reqs w |> <| votes := (v, t, v) :: votes w |>)
| spec_grant c l :
    let r := replica w v in
    (r_term r, c, l) ∈ reqs w -> r_vote r = None \/ r_vote r = Some c -> as_recent l (r_log r) ->
    spec_step v w
      (set w v (r <| r_vote := Some c |>) <| votes := (v, r_term r, c) :: votes w |>)
| spec_elect Q :
    let r := replica w v in
    let t := r_term r in
    let log := r_log r ++ [mkLogEntry t []] in
    r_role r = Candidate -> quorum Q -> (forall u, u ∈ Q -> (u, t, v) ∈ votes w) ->
    spec_step v w
      (set w v (r <| r_role := Leader |> <| r_log := log |>)
         <| leads := <[t := v]> (leads w) |> <| base := <[t := r_log r]> (base w) |>
         <| hist := <[t := log]> (hist w) |>)
| spec_propose cmd :
    let r := replica w v in
    let log := r_log r ++ [mkLogEntry (r_term r) cmd] in
    r_role r = Leader ->
    spec_step v w (set w v (r <| r_log := log |>) <| hist := <[r_term r := log]> (hist w) |>)
| spec_send :
    let r := replica w v in
    r_role r = Leader ->
    spec_step v w (w <| appends := (r_term r, r_log r, r_commit r) :: appends w |>)
| spec_accept l c :
    let r := replica w v in
    let log := if decide (l `prefix_of` r_log r) then r_log r else l in
    (r_term r, l, c) ∈ appends w -> r_role r = Follower ->
    spec_step v w
      (set w v (r <| r_log := log |>) <| acks := (v, r_term r, length log) :: acks w |>)
| spec_leader_commit i :
    let r := replica w v in
    r_role r = Leader -> (r_commit r <= i)%nat -> (e_term <$> r_log r !! pred i) = Some (r_term r) ->
    (0 < i)%nat ->
    meets_quorums (fun u => u = v \/ exists m, (i <= m)%nat /\ (u, r_term r, m) ∈ acks w) ->
    spec_step v w
      (set w v (r <| r_commit := i |>)
         <| acks := (v, r_term r, length (r_log r)) :: acks w |>
         <| commits := (r_term r, i) :: commits w |>
         <| applied := indexed (r_log r) (r_commit r) i ++ applied w |>)
| spec_follower_commit l c :
    let r := replica w v in
    (r_term r, l, c) ∈ appends w -> r_role r = Follower -> l `prefix_of` r_log r ->
    (r_commit r <= c)%nat ->
    spec_step v w
      (set w v (r <| r_commit := c |>)
         <| applied := indexed (r_log r) (r_commit r) c ++ applied w |>)
| spec_crash :
    let r := replica w v in
    spec_step v w (set w v (r <| r_role := Follower |> <| r_commit := 0%nat |>)).

(** Steps of one replica, and of any. *)
Definition spec_steps (v : NodeId) : World -> World -> Prop := rtc (spec_step v).

Definition spec_next (w w' : World) : Prop := exists v, v ∈ all /\ spec_step v w w'.

Definition spec_initial : World :=
  mkWorld (fun _ => mkReplica 0 None [] Follower 0) ∅ ∅ ∅ [] [] [] [] [] [].

Definition spec_reachable (w : World) : Prop := rtc spec_next spec_initial w.
End spec.
