(* ===== verification/RaftSpecSafety.v ===== *)
(** Safety of the abstract specification: its invariant, and leader
    completeness. *)

From stdpp Require Import functions.
From S2P Require Import Prelude Types RaftSpec.
#[local] Open Scope Z_scope.

(** ** Prefixes *)
Lemma prefix_take_le {A} (l k : list A) n : l `prefix_of` k -> (length l <= n)%nat -> l `prefix_of` take n k.
Proof.
  intros [m ->] Hn. rewrite take_app_ge by done. by apply prefix_app_r.
Qed.

Lemma prefix_take_both {A} (l k : list A) n : l `prefix_of` k -> take n l `prefix_of` take n k.
Proof.
  intros Hp. apply prefix_take_le; [|rewrite length_take; lia]. etrans; [apply prefix_take|done].
Qed.

Lemma prefix_take_mono {A} (l : list A) n m : (n <= m)%nat -> take n l `prefix_of` take m l.
Proof. intros. apply prefix_take_le; [apply prefix_take|]. rewrite length_take. lia. Qed.

Lemma prefix_take_eq {A} (l k : list A) n : l `prefix_of` k -> (n <= length l)%nat -> take n l = take n k.
Proof. intros [m ->] Hn. by rewrite take_app_le. Qed.

Lemma prefix_comparable {A} (l k m : list A) :
  l `prefix_of` m -> k `prefix_of` m -> (length l <= length k)%nat -> l `prefix_of` k.
Proof. intros Hl Hk Hle. destruct (prefix_weak_total l k m Hl Hk) as [?|Hkl]; [done|].
  by rewrite (prefix_length_eq _ _ Hkl Hle). Qed.

Lemma prefix_total {A} (l k m : list A) :
  l `prefix_of` m -> k `prefix_of` m -> l `prefix_of` k \/ k `prefix_of` l.
Proof. apply prefix_weak_total. Qed.

(** ** Logs and their histories *)

(** Histories only grow. *)
Definition extends (h h' : gmap Z (list LogEntry)) : Prop :=
  forall t l, h !! t = Some l -> exists l', h' !! t = Some l' /\ l `prefix_of` l'.

(** Every entry comes with the history of its term up to it. *)
Definition traced (h : gmap Z (list LogEntry)) (l : list LogEntry) : Prop :=
  forall i e, l !! i = Some e -> exists k, h !! e_term e = Some k /\ take (S i) l `prefix_of` k.

Definition terms_sorted (l : list LogEntry) : Prop :=
  forall i j a b, (i <= j)%nat -> l !! i = Some a -> l !! j = Some b -> e_term a <= e_term b.

Record log_ok (h : gmap Z (list LogEntry)) (t : Z) (l : list LogEntry) : Prop := {
  lo_traced : traced h l;
  lo_sorted : terms_sorted l;
  lo_terms : forall e, e ∈ l -> 0 < e_term e <= t;
}.

(** Log matching: an entry determines everything before it. *)
Lemma traced_match h l1 l2 i e1 e2 :
  traced h l1 -> traced h l2 -> l1 !! i = Some e1 -> l2 !! i = Some e2 -> e_term e1 = e_term e2 ->
  take (S i) l1 = take (S i) l2.
Proof.
  intros T1 T2 H1 H2 Ht. destruct (T1 _ _ H1) as (k1 & Hk1 & Hp1). destruct (T2 _ _ H2) as (k2 & Hk2 & Hp2).
  rewrite Ht, Hk2 in Hk1. injection Hk1 as ->. apply lookup_lt_Some in H1, H2.
  assert (forall l k : list LogEntry, (i < length l)%nat -> take (S i) l `prefix_of` k ->
    take (S i) l = take (S i) k) as Heq.
  { intros l k Hl Hp. rewrite <- (prefix_take_eq _ _ (S i) Hp) by (rewrite length_take; lia).
    by rewrite take_take, Nat.min_id. }
  rewrite (Heq _ _ H1 Hp1), (Heq _ _ H2 Hp2). done.
Qed.

#[export] Instance extends_preorder : PreOrder extends.
Proof.
  split; [intros h t l Hl; by exists l|]. intros h1 h2 h3 H12 H23 t l Hl.
  destruct (H12 t l Hl) as (l2 & Hl2 & ?). destruct (H23 t l2 Hl2) as (l3 & ? & ?).
  exists l3. split; [done|]. by etrans.
Qed.

Lemma extends_insert h t l l' :
  h !! t = None \/ (h !! t = Some l /\ l `prefix_of` l') -> extends h (<[t := l']> h).
Proof.
  intros Ht t' k Hk. destruct (decide (t = t')) as [->|].
  - rewrite lookup_insert_eq. exists l'. split; [done|]. by destruct Ht as [|[? ?]]; simplify_eq.
  - exists k. by rewrite lookup_insert_ne.
Qed.

Lemma log_ok_mono h h' t t' l : extends h h' -> t <= t' -> log_ok h t l -> log_ok h' t' l.
Proof.
  intros Hex Ht [Htr Hs Hb]. split; [|done|].
  - intros i e He. destruct (Htr i e He) as (k & Hk & Hp). destruct (Hex _ _ Hk) as (k' & Hk' & ?).
    exists k'. split; [done|]. by etrans.
  - intros e He. specialize (Hb e He). lia.
Qed.

Lemma log_ok_prefix h t l k : k `prefix_of` l -> log_ok h t l -> log_ok h t k.
Proof.
  intros Hp [Htr Hs Hb]. split.
  - intros i e He. pose proof (prefix_lookup_Some _ _ _ _ He Hp) as Hl.
    destruct (Htr i e Hl) as (m & Hm & ?). exists m. split; [done|].
    apply lookup_lt_Some in He. by rewrite (prefix_take_eq k l (S i)) by (done || lia).
  - intros i j a b Hij Ha Hb'. eapply Hs; [done|by eapply prefix_lookup_Some..].
  - intros e He. apply Hb. destruct Hp as [m ->]. set_solver.
Qed.

Lemma log_ok_nil h t : log_ok h t [].
Proof. split; [by intros i e He|by intros i j a b _ He|]. intros e []%not_elem_of_nil. Qed.

(** One more entry of term [t], which is at least every term so far. *)
Lemma log_ok_snoc h t l c :
  0 < t -> log_ok h t l -> h !! t = Some (l ++ [mkLogEntry t c]) -> log_ok h t (l ++ [mkLogEntry t c]).
Proof.
  intros Ht [Htr Hs Hb] Hh. split.
  - intros i e [He|[Hi He]]%lookup_app_Some.
    + destruct (Htr i e He) as (k & Hk & Hp). exists k. split; [done|].
      apply lookup_lt_Some in He. by rewrite take_app_le by lia.
    + apply list_lookup_singleton_Some in He as [Hi0 <-]. exists (l ++ [mkLogEntry t c]).
      split; [done|]. apply prefix_take.
  - intros i j a b Hij [Ha|[Hi Ha]]%lookup_app_Some [Hb'|[Hj Hb']]%lookup_app_Some.
    + by eapply Hs.
    + apply list_lookup_singleton_Some in Hb' as [_ <-]. apply list_elem_of_lookup_2, Hb in Ha. cbn. lia.
    + apply lookup_lt_Some in Hb'. lia.
    + apply list_lookup_singleton_Some in Ha as [_ <-], Hb' as [_ <-]. done.
  - intros e [He|He%list_elem_of_singleton]%elem_of_app; [by apply Hb|]. subst. cbn. lia.
Qed.

(** A log with an entry of term [t], and none of a later term, is a part of the
    history of [t] from that entry on: all of it. *)
Lemma log_ok_whole h t l i e k :
  log_ok h t l -> l !! i = Some e -> e_term e = t -> h !! t = Some k -> l `prefix_of` k.
Proof.
  intros [Htr Hs Hb] He Het Hk. destruct (last l) as [e'|] eqn:Hl.
  - rewrite last_lookup in Hl. destruct (Htr _ _ Hl) as (k' & Hk' & Hp).
    assert (e_term e' = t) as Ht'.
    { pose proof (Hb _ (list_elem_of_lookup_2 _ _ _ Hl)).
      apply lookup_lt_Some in He as Hi.
      pose proof (Hs i (pred (length l)) e e' ltac:(lia) He Hl). lia. }
    rewrite Ht' in Hk'. simplify_eq. apply lookup_lt_Some in He. by rewrite take_ge in Hp by lia.
  - apply last_None in Hl as ->. done.
Qed.

Lemma last_term_lookup l e : last l = Some e -> last_term l = e_term e.
Proof. unfold last_term. by intros ->. Qed.

(** A prefix is never ahead. *)
Lemma as_recent_prefix h t l p :
  log_ok h t l -> p `prefix_of` l -> last_term p <= last_term l.
Proof.
  intros [_ Hs Hb] Hp. destruct (last p) as [e|] eqn:He.
  - rewrite (last_term_lookup _ _ He). rewrite last_lookup in He.
    pose proof (prefix_lookup_Some _ _ _ _ He Hp) as Hle. pose proof (prefix_length _ _ Hp).
    destruct (last l) as [e'|] eqn:He'; [|apply last_None in He' as ->; done].
    rewrite (last_term_lookup _ _ He'). rewrite last_lookup in He'. eapply Hs; [|done..]. lia.
  - unfold last_term at 1. rewrite He. cbn. unfold last_term.
    destruct (last l) as [e'|] eqn:He'; [|done]. cbn. apply last_Some_elem_of, Hb in He'. lia.
Qed.

Lemma as_recent_trans h t l k p :
  log_ok h t k -> p `prefix_of` k -> as_recent l k -> as_recent l p.
Proof.
  intros Hok Hp Hu. pose proof (as_recent_prefix _ _ _ _ Hok Hp). pose proof (prefix_length _ _ Hp).
  unfold as_recent in *. lia.
Qed.

(** ** The invariant *)

(** A leader elected after [t], up to [T], started without [p]. *)
Definition diverged (w : World) (t T : Z) (p : list LogEntry) : Prop :=
  exists t' b, t < t' <= T /\ base w !! t' = Some b /\ ~ p `prefix_of` b.

(** [v] has stored the part [p] of the history of term [t] during that term. *)
Definition acked (w : World) (v : NodeId) (t : Z) (p : list LogEntry) : Prop :=
  exists m h, (v, t, m) ∈ acks w /\ hist w !! t = Some h /\ p `prefix_of` h /\ (length p <= m)%nat.

(** [l] is part of what was committed at a term up to [T]. *)
Definition commit_prefix (w : World) (T : Z) (l : list LogEntry) : Prop :=
  l = [] \/ exists t i h, t <= T /\ (t, i) ∈ commits w /\ hist w !! t = Some h
    /\ l `prefix_of` h /\ (length l <= i)%nat.

Section safety.
Context (all : list NodeId).

Record term_ok (w : World) (t : Z) (h : list LogEntry) (v : NodeId) (b : list LogEntry) (Q : gset NodeId)
    : Prop := {
  tk_leads : leads w !! t = Some v;
  tk_base : base w !! t = Some b;
  tk_first : b ++ [mkLogEntry t []] `prefix_of` h;
  tk_pos : 0 < t;
  tk_base_ok : log_ok (hist w) (t - 1) b;
  tk_hist_ok : log_ok (hist w) t h;
  tk_quorum : quorum all Q;
  tk_votes : forall u, u ∈ Q -> (u, t, v) ∈ votes w;
  tk_promise : forall u t0 p, u ∈ Q -> acked w u t0 p -> t0 < t ->
    as_recent b p \/ diverged w t0 (t - 1) p;
  tk_leader : t <= r_term (replica w v);
  tk_done : r_term (replica w v) = t -> r_role (replica w v) <> Candidate;
}.

Record invariant (w : World) : Prop := {
  iv_term : forall v, 0 <= r_term (replica w v);
  iv_log : forall v, log_ok (hist w) (r_term (replica w v)) (r_log (replica w v));
  iv_req : forall t c l, (t, c, l) ∈ reqs w ->
    0 < t <= r_term (replica w c) /\ log_ok (hist w) (t - 1) l;
  iv_req_unique : forall t c l l', (t, c, l) ∈ reqs w -> (t, c, l') ∈ reqs w -> l = l';
  iv_candidate : forall c, r_role (replica w c) = Candidate ->
    (r_term (replica w c), c, r_log (replica w c)) ∈ reqs w;
  iv_vote : forall v t c, (v, t, c) ∈ votes w ->
    t <= r_term (replica w v) /\ (t = r_term (replica w v) -> r_vote (replica w v) = Some c)
    /\ exists l, (t, c, l) ∈ reqs w;
  iv_vote_unique : forall v t c c', (v, t, c) ∈ votes w -> (v, t, c') ∈ votes w -> c = c';
  iv_promise : forall v t c l t0 p, (v, t, c) ∈ votes w -> (t, c, l) ∈ reqs w -> acked w v t0 p ->
    t0 < t -> as_recent l p \/ diverged w t0 t p;
  iv_hist : forall t h, hist w !! t = Some h -> exists v b Q, term_ok w t h v b Q;
  iv_base : forall t, is_Some (base w !! t) -> is_Some (hist w !! t);
  iv_leads : forall t, is_Some (leads w !! t) -> is_Some (hist w !! t);
  iv_leader : forall v, r_role (replica w v) = Leader ->
    leads w !! r_term (replica w v) = Some v /\ hist w !! r_term (replica w v) = Some (r_log (replica w v));
  iv_append : forall t l c, (t, l, c) ∈ appends w -> exists h b, hist w !! t = Some h
    /\ base w !! t = Some b /\ l `prefix_of` h /\ (length b < length l)%nat /\ (c <= length l)%nat
    /\ commit_prefix w t (take c l);
  iv_ack : forall v t m, (v, t, m) ∈ acks w -> t <= r_term (replica w v)
    /\ exists h, hist w !! t = Some h /\ (m <= length h)%nat;
  iv_retain : forall v t p, acked w v t p ->
    p `prefix_of` r_log (replica w v) \/ diverged w t (r_term (replica w v)) p;
  iv_commit : forall t i, (t, i) ∈ commits w -> exists h, hist w !! t = Some h
    /\ (0 < i <= length h)%nat /\ (e_term <$> h !! pred i) = Some t
    /\ meets_quorums all (fun u => acked w u t (take i h));
  iv_node_commit : forall v, (r_commit (replica w v) <= length (r_log (replica w v)))%nat
    /\ commit_prefix w (r_term (replica w v)) (take (r_commit (replica w v)) (r_log (replica w v)));
  iv_applied : forall k e, (k, e) ∈ applied w -> exists t i h, (t, i) ∈ commits w
    /\ hist w !! t = Some h /\ (0 < k <= i)%nat /\ h !! pred k = Some e;
}.

(** ** Leader completeness *)

(** What is committed at [t] is in the log of every later leader when it is
    elected: its voters meet those that stored the entries, and its log is at
    least as up to date as theirs. *)
Lemma leader_complete w t i h t' b :
  invariant w -> (t, i) ∈ commits w -> hist w !! t = Some h -> t < t' -> base w !! t' = Some b ->
  take i h `prefix_of` b.
Proof.
  intros Hinv Hc Hh. revert b. induction t' as [t' IH] using (well_founded_ind (Z.lt_wf t)). intros b Hlt Hb.
  destruct (iv_base _ Hinv t') as [h' Hh']; [by eexists|].
  destruct (iv_hist _ Hinv _ _ Hh') as (v & b' & Q & [_ Hb' _ _ Hbok _ HQ _ Hpr _ _]). simplify_eq.
  destruct (iv_commit _ Hinv _ _ Hc) as (h1 & Hh1 & Hi & Hterm & Hmeets). simplify_eq.
  destruct (Hmeets Q HQ) as (u & Hu & Hack).
  assert (last_term (take i h) = t) as Hlast.
  { destruct (h !! pred i) as [e|] eqn:He; [|done]. injection Hterm as <-.
    apply last_term_lookup. rewrite last_lookup, length_take, Nat.min_l by lia.
    by rewrite lookup_take_lt by lia. }
  destruct (Hpr u t _ Hu Hack Hlt) as [Hutd|(t2 & b2 & Ht2 & Hb2 & Hnot)].
  2: { destruct Hnot. apply (IH t2); [lia|lia|done]. }
  unfold as_recent in Hutd. rewrite Hlast, length_take, Nat.min_l in Hutd by lia.
  destruct (last b) as [e|] eqn:He.
  2: { unfold last_term in Hutd. rewrite He in Hutd. cbn in Hutd.
       destruct (iv_hist _ Hinv _ _ Hh) as (? & ? & ? & [_ _ _ Hpos _ _ _ _ _ _ _]). lia. }
  rewrite (last_term_lookup _ _ He) in Hutd. pose proof He as Hel. rewrite last_lookup in Hel.
  destruct (lo_traced _ _ _ Hbok _ _ Hel) as (k & Hk & Hp).
  pose proof (lo_terms _ _ _ Hbok _ (last_Some_elem_of _ _ He)) as Hbe.
  apply lookup_lt_Some in Hel as Hlen. rewrite take_ge in Hp by lia.
  destruct Hutd as [Hlt'|[Heq Hle]].
  - destruct (iv_hist _ Hinv _ _ Hk) as (? & b2 & ? & [_ Hb2 Hfirst _ _ _ _ _ _ _ _]).
    assert (take i h `prefix_of` b2) as Hpre by (apply (IH (e_term e)); [lia|lia|done]).
    destruct (iv_hist _ Hinv _ _ Hk) as (? & b3 & ? & [_ Hb3 _ _ Hb3ok _ _ _ _ _ _]). simplify_eq.
    assert (b2 `prefix_of` k) as Hb2k by (etrans; [by eexists|done]).
    destruct (prefix_total b2 b k Hb2k Hp) as [?|Hbb]; [by etrans|].
    exfalso. pose proof (prefix_lookup_Some _ _ _ _ Hel Hbb) as Hin.
    pose proof (lo_terms _ _ _ Hb3ok _ (list_elem_of_lookup_2 _ _ _ Hin)). lia.
  - rewrite Heq, Hh in Hk. injection Hk as <-. apply (prefix_comparable _ _ h); [apply prefix_take|done|].
    rewrite length_take. lia.
Qed.
End safety.
