(* ===== verification/RaftSpecInv.v ===== *)
(** Every step of the specification keeps its invariant. *)

From stdpp Require Import functions.
From S2P Require Import Prelude Types RaftSpec RaftSpecSafety.
#[local] Open Scope Z_scope.

(** The replicas after an update of [v]. *)
Lemma insert_replica (f : Z -> Replica) v r u : (<[v := r]> f) u = if decide (u = v) then r else f u.
Proof.
  destruct (decide (u = v)) as [->|]; [apply fn_lookup_insert|by apply fn_lookup_insert_ne].
Qed.

(** ** Growth of the records *)
Record grows (w w' : World) : Prop := {
  gr_hist : extends (hist w) (hist w');
  gr_base : base w ⊆ base w';
  gr_leads : leads w ⊆ leads w';
  gr_reqs : forall x, x ∈ reqs w -> x ∈ reqs w';
  gr_votes : forall x, x ∈ votes w -> x ∈ votes w';
  gr_appends : forall x, x ∈ appends w -> x ∈ appends w';
  gr_acks : forall x, x ∈ acks w -> x ∈ acks w';
  gr_commits : forall x, x ∈ commits w -> x ∈ commits w';
  gr_applied : forall x, x ∈ applied w -> x ∈ applied w';
}.

Lemma diverged_mono w w' t T T' p : grows w w' -> T <= T' -> diverged w t T p -> diverged w' t T' p.
Proof.
  intros Hg HT (t' & b & Ht & Hb & Hn). exists t', b. split_and!; [lia..| |done].
  eapply lookup_weaken; [done|by destruct Hg].
Qed.

Lemma commit_prefix_mono w w' T T' l :
  grows w w' -> T <= T' -> commit_prefix w T l -> commit_prefix w' T' l.
Proof.
  intros Hg HT [->|(t & i & h & Ht & Hc & Hh & Hp & Hl)]; [by left|right].
  destruct (gr_hist _ _ Hg _ _ Hh) as (h' & Hh' & Hhh). exists t, i, h'.
  split_and!; [lia|by apply Hg|done|by etrans|done].
Qed.

Lemma commit_prefix_sub w T l k : k `prefix_of` l -> commit_prefix w T l -> commit_prefix w T k.
Proof.
  intros Hk [->|(t & i & h & Ht & Hc & Hh & Hp & Hl)].
  - left. by apply prefix_nil_inv.
  - right. exists t, i, h. pose proof (prefix_length _ _ Hk). split_and!; try done; [by etrans|lia].
Qed.

Section preserve.
Context (all : list NodeId).

(** What was acknowledged before is acknowledged as the same prefix. *)
Lemma acked_back w w' v t p :
  invariant all w -> grows w w' -> acked w' v t p ->
  acked w v t p \/ exists m h, (v, t, m) ∉ acks w /\ (v, t, m) ∈ acks w' /\ hist w' !! t = Some h
    /\ p `prefix_of` h /\ (length p <= m)%nat.
Proof.
  intros Hinv Hg (m & h' & Hm & Hh' & Hp & Hl). destruct (decide ((v, t, m) ∈ acks w)) as [Hin|Hin].
  - left. destruct (iv_ack _ _ Hinv _ _ _ Hin) as (_ & h & Hh & Hmh).
    exists m, h. split_and!; try done. destruct (gr_hist _ _ Hg _ _ Hh) as (h2 & Hh2 & Hpre).
    simplify_eq. eapply prefix_comparable; [done|done|lia].
  - right. by exists m, h'.
Qed.

Lemma acked_mono w w' v t p : grows w w' -> acked w v t p -> acked w' v t p.
Proof.
  intros Hg (m & h & Hm & Hh & Hp & Hl). destruct (gr_hist _ _ Hg _ _ Hh) as (h2 & Hh2 & Hpre).
  exists m, h2. split_and!; [by apply Hg|done|by etrans|done].
Qed.

(** ** One step of one replica

    What a step of [v] to the state [r'] has to establish; the invariant of
    everything else follows. *)
Record local_step (w : World) (v : NodeId) (r' : Replica) (w' : World) : Prop := {
  ls_replica : forall u, replica w' u = if decide (u = v) then r' else replica w u;
  ls_grows : grows w w';
  ls_term : r_term (replica w v) <= r_term r';
  ls_vote : forall c, r_term r' = r_term (replica w v) -> r_vote (replica w v) = Some c -> r_vote r' = Some c;
  ls_log : log_ok (hist w') (r_term r') (r_log r');
  ls_reqs : forall t c l, (t, c, l) ∈ reqs w' -> (t, c, l) ∈ reqs w
    \/ (c = v /\ t = r_term r' /\ r_term (replica w v) < t /\ l = r_log (replica w v)
        /\ log_ok (hist w') (t - 1) l);
  ls_candidate : r_role r' = Candidate ->
    (r_term r', v, r_log r') ∈ reqs w'
    /\ (r_term (replica w v) = r_term r' -> r_role (replica w v) = Candidate);
  ls_votes : forall u t c, (u, t, c) ∈ votes w' -> (u, t, c) ∈ votes w
    \/ (u = v /\ t = r_term r' /\ r_vote r' = Some c /\ exists l, (t, c, l) ∈ reqs w'
        /\ as_recent l (r_log r'));
  ls_hist : forall t h, hist w' !! t = Some h -> hist w !! t = Some h
    \/ (is_Some (hist w !! t) /\ log_ok (hist w') t h) \/ exists u b Q, term_ok all w' t h u b Q;
  ls_base : forall t, is_Some (base w' !! t) -> is_Some (base w !! t) \/ is_Some (hist w' !! t);
  ls_leads : forall t, is_Some (leads w' !! t) -> is_Some (leads w !! t) \/ is_Some (hist w' !! t);
  ls_own : forall t h, hist w !! t = Some h -> hist w' !! t = Some h \/ leads w !! t = Some v;
  ls_leader : r_role r' = Leader -> leads w' !! r_term r' = Some v /\ hist w' !! r_term r' = Some (r_log r');
  ls_appends : forall t l c, (t, l, c) ∈ appends w' -> (t, l, c) ∈ appends w \/ exists h b, hist w' !! t = Some h
    /\ base w' !! t = Some b /\ l `prefix_of` h /\ (length b < length l)%nat /\ (c <= length l)%nat
    /\ commit_prefix w' t (take c l);
  ls_acks : forall u t m, (u, t, m) ∈ acks w' -> (u, t, m) ∈ acks w
    \/ (u = v /\ t = r_term (replica w v) /\ exists h, hist w' !! t = Some h /\ (m <= length h)%nat);
  ls_retain : forall t p, acked w' v t p -> p `prefix_of` r_log r' \/ diverged w' t (r_term r') p;
  ls_commits : forall t i, (t, i) ∈ commits w' -> (t, i) ∈ commits w \/ exists h, hist w' !! t = Some h
    /\ (0 < i <= length h)%nat /\ (e_term <$> h !! pred i) = Some t
    /\ meets_quorums all (fun u => acked w' u t (take i h));
  ls_commit : (r_commit r' <= length (r_log r'))%nat
    /\ commit_prefix w' (r_term r') (take (r_commit r') (r_log r'));
  ls_applied : forall k e, (k, e) ∈ applied w' -> (k, e) ∈ applied w \/ exists t i h, (t, i) ∈ commits w'
    /\ hist w' !! t = Some h /\ (0 < k <= i)%nat /\ h !! pred k = Some e;
}.

Section local.
Context (w : World) (v : NodeId) (r' : Replica) (w' : World).
Context (Hinv : invariant all w) (Hls : local_step w v r' w').

Lemma local_acked u t p :
  acked w' u t p -> acked w u t p \/ (u = v /\ t = r_term (replica w v)).
Proof.
  intros Ha. destruct (acked_back _ _ _ _ _ Hinv (ls_grows _ _ _ _ Hls) Ha) as [?|(m & h & Hn & Hin & _)]; [by left|].
  destruct (ls_acks _ _ _ _ Hls _ _ _ Hin) as [?|(-> & -> & _)]; [done|]. by right.
Qed.

(** A voter of term [t] acknowledges no earlier term any more. *)
Lemma local_acked_voter u t c t0 p :
  (u, t, c) ∈ votes w -> acked w' u t0 p -> t0 < t -> acked w u t0 p.
Proof.
  intros Hv Ha Ht. destruct (local_acked _ _ _ Ha) as [?|[-> ->]]; [done|].
  destruct (iv_vote _ _ Hinv _ _ _ Hv) as (? & _). lia.
Qed.

Lemma local_replica u : replica w' u = if decide (u = v) then r' else replica w u.
Proof. apply Hls. Qed.

Lemma local_term u : r_term (replica w u) <= r_term (replica w' u).
Proof. rewrite local_replica. case_decide as Hd; [|done]. subst. apply Hls. Qed.

Lemma local_term_ok t h u b Q h' :
  term_ok all w t h u b Q -> h `prefix_of` h' -> log_ok (hist w') t h' -> term_ok all w' t h' u b Q.
Proof.
  intros [H1 H2 H3 H4 H5 H6 H7 H8 H9 H10 H11] Hh Hlog. pose proof (ls_grows _ _ _ _ Hls) as Hg.
  pose proof (local_term u) as Ht. split; try done.
  - eapply lookup_weaken; [done|by destruct Hg].
  - eapply lookup_weaken; [done|by destruct Hg].
  - by etrans.
  - eapply log_ok_mono; [by destruct Hg|done|done].
  - intros x Hx. by apply Hg, H8.
  - intros x t0 p Hx Ha Ht0. destruct (H9 x t0 p Hx) as [?|Hd]; [|done|by left|].
    + eapply local_acked_voter; [by apply H8|done..].
    + right. by eapply diverged_mono.
  - lia.
  - rewrite local_replica in *. case_decide as Hd; [|done]. subst. intros Hr' Hc.
    destruct (ls_candidate _ _ _ _ Hls Hc) as [_ Hr]. apply H11; [lia|]. apply Hr. lia.
Qed.

Lemma local_req_unique t c l l' : (t, c, l) ∈ reqs w' -> (t, c, l') ∈ reqs w' -> l = l'.
Proof.
  assert (forall k, (r_term r', v, k) ∈ reqs w -> r_term (replica w v) < r_term r' -> False) as Hnew.
  { intros k Hk Hlt. destruct (iv_req _ _ Hinv _ _ _ Hk). lia. }
  intros [H|(-> & -> & Hlt & -> & _)]%(ls_reqs _ _ _ _ Hls) [H'|(? & ? & Hlt' & ? & _)]%(ls_reqs _ _ _ _ Hls).
  - by eapply iv_req_unique.
  - subst. exfalso. eauto.
  - exfalso. eauto.
  - congruence.
Qed.

Lemma local_promise u t c l t0 p :
  (u, t, c) ∈ votes w' -> (t, c, l) ∈ reqs w' -> acked w' u t0 p -> t0 < t ->
  as_recent l p \/ diverged w' t0 t p.
Proof.
  intros Hv Hr Ha Ht. pose proof (ls_grows _ _ _ _ Hls) as Hg.
  destruct (ls_votes _ _ _ _ Hls _ _ _ Hv) as [Hv0|(-> & -> & _ & l1 & Hl1 & Hu)].
  - destruct (ls_reqs _ _ _ _ Hls _ _ _ Hr) as [Hr0|(-> & -> & Hlt & _)].
    + pose proof (local_acked_voter _ _ _ _ _ Hv0 Ha Ht) as Ha0.
      destruct (iv_promise _ _ Hinv _ _ _ _ _ _ Hv0 Hr0 Ha0 Ht); [by left|right].
      by eapply diverged_mono.
    + destruct (iv_vote _ _ Hinv _ _ _ Hv0) as (_ & _ & k & Hk).
      destruct (iv_req _ _ Hinv _ _ _ Hk). lia.
  - rewrite (local_req_unique _ _ _ _ Hr Hl1).
    destruct (ls_retain _ _ _ _ Hls _ _ Ha) as [Hp|?]; [left|by right].
    eapply as_recent_trans; [apply Hls|done..].
Qed.

Lemma local_vote u t c :
  (u, t, c) ∈ votes w' ->
  t <= r_term (replica w' u) /\ (t = r_term (replica w' u) -> r_vote (replica w' u) = Some c)
  /\ exists l, (t, c, l) ∈ reqs w'.
Proof.
  intros Hv. destruct (ls_votes _ _ _ _ Hls _ _ _ Hv) as [Hv0|(-> & -> & Hvt & l1 & Hl1 & Hu)].
  - destruct (iv_vote _ _ Hinv _ _ _ Hv0) as (H1 & H2 & l & Hl). pose proof (local_term u) as Hle.
    split_and!; [lia| |exists l; by apply Hls].
    rewrite local_replica in *. case_decide as Hd; [|done]. subst. intros ->.
    apply Hls; [lia|]. apply H2. lia.
  - rewrite local_replica, decide_True by done. split_and!; [done..|]. by exists l1.
Qed.

Lemma local_vote_unique u t c c' : (u, t, c) ∈ votes w' -> (u, t, c') ∈ votes w' -> c = c'.
Proof.
  intros Hv Hv'. destruct (ls_votes _ _ _ _ Hls _ _ _ Hv) as [Hv0|(-> & -> & Hc & _)].
  - destruct (ls_votes _ _ _ _ Hls _ _ _ Hv') as [Hv0'|(-> & -> & Hc' & _)].
    + by eapply iv_vote_unique.
    + destruct (local_vote _ _ _ Hv) as (_ & Hx & _). rewrite local_replica, decide_True in Hx by done.
      specialize (Hx eq_refl). congruence.
  - destruct (local_vote _ _ _ Hv') as (_ & Hx & _). rewrite local_replica, decide_True in Hx by done.
    specialize (Hx eq_refl). congruence.
Qed.

Lemma local_hist t h : hist w' !! t = Some h -> exists u b Q, term_ok all w' t h u b Q.
Proof.
  intros Hh. pose proof (ls_grows _ _ _ _ Hls) as Hg.
  assert (forall h0, hist w !! t = Some h0 -> h0 `prefix_of` h) as Hpre.
  { intros h0 H0. destruct (gr_hist _ _ Hg _ _ H0) as (k & Hk & ?). by simplify_eq. }
  destruct (ls_hist _ _ _ _ Hls _ _ Hh) as [H0|[[[h0 H0] Hok]|?]]; [| |done];
    destruct (iv_hist _ _ Hinv _ _ H0) as (u & b & Q & Ht); exists u, b, Q.
  - eapply local_term_ok; [done|done|]. eapply log_ok_mono; [by destruct Hg|done|by destruct Ht].
  - eapply local_term_ok; [done|by apply Hpre|done].
Qed.

Lemma local_commit t i :
  (t, i) ∈ commits w' -> exists h, hist w' !! t = Some h /\ (0 < i <= length h)%nat
    /\ (e_term <$> h !! pred i) = Some t /\ meets_quorums all (fun u => acked w' u t (take i h)).
Proof.
  intros Hc. pose proof (ls_grows _ _ _ _ Hls) as Hg.
  destruct (ls_commits _ _ _ _ Hls _ _ Hc) as [H0|?]; [|done].
  destruct (iv_commit _ _ Hinv _ _ H0) as (h & Hh & Hi & Ht & Hm).
  destruct (gr_hist _ _ Hg _ _ Hh) as (h' & Hh' & Hp). exists h'. pose proof (prefix_length _ _ Hp).
  split_and!; [done|lia|lia| |].
  - destruct (h !! pred i) as [e|] eqn:He; [|done]. by rewrite (prefix_lookup_Some _ _ _ _ He Hp).
  - intros Q HQ. destruct (Hm Q HQ) as (u & Hu & Ha). exists u. split; [done|].
    rewrite <- (prefix_take_eq h h' i) by (done || lia). by eapply acked_mono.
Qed.

Lemma local_leader u :
  r_role (replica w' u) = Leader ->
  leads w' !! r_term (replica w' u) = Some u /\ hist w' !! r_term (replica w' u) = Some (r_log (replica w' u)).
Proof.
  pose proof (ls_grows _ _ _ _ Hls) as Hg. rewrite local_replica. case_decide as Hd; [subst; apply Hls|].
  intros Hr. destruct (iv_leader _ _ Hinv u Hr) as [H1 H2]. split.
  - eapply lookup_weaken; [done|by destruct Hg].
  - destruct (ls_own _ _ _ _ Hls _ _ H2) as [?|?]; [done|]. congruence.
Qed.

Lemma local_appends t l c :
  (t, l, c) ∈ appends w' -> exists h b, hist w' !! t = Some h
    /\ base w' !! t = Some b /\ l `prefix_of` h /\ (length b < length l)%nat /\ (c <= length l)%nat
    /\ commit_prefix w' t (take c l).
Proof.
  pose proof (ls_grows _ _ _ _ Hls) as Hg. intros [H|?]%(ls_appends _ _ _ _ Hls); [|done].
  destruct (iv_append _ _ Hinv _ _ _ H) as (h & b & Hh & Hb & Hp & Hlb & Hcl & Hcp).
  destruct (gr_hist _ _ Hg _ _ Hh) as (h' & Hh' & Hp'). exists h', b. split_and!; try done.
  - eapply lookup_weaken; [done|by destruct Hg].
  - by etrans.
  - by eapply commit_prefix_mono.
Qed.

Lemma local_invariant : invariant all w'.
Proof.
  pose proof (ls_grows _ _ _ _ Hls) as Hg. split; eauto using local_req_unique, local_vote, local_vote_unique,
    local_promise, local_hist, local_commit, local_leader, local_appends.
  - intros u. pose proof (iv_term _ _ Hinv u). pose proof (local_term u). lia.
  - intros u. rewrite local_replica. case_decide as Hd; [apply Hls|].
    eapply log_ok_mono; [by destruct Hg|done|by eapply iv_log].
  - intros t c l [H|(-> & -> & Hlt & _ & Hok)]%(ls_reqs _ _ _ _ Hls).
    + destruct (iv_req _ _ Hinv _ _ _ H) as [H1 H2]. pose proof (local_term c). split; [lia|].
      eapply log_ok_mono; [by destruct Hg|done|done].
    + rewrite local_replica, decide_True by done. pose proof (iv_term _ _ Hinv v). split; [lia|done].
  - intros u. rewrite local_replica. case_decide as Hd; [subst; intros Hc; by apply (ls_candidate _ _ _ _ Hls)|].
    intros Hc. by apply Hg, (iv_candidate _ _ Hinv).
  - intros t [Hb|?]%(ls_base _ _ _ _ Hls); [|done]. destruct (iv_base _ _ Hinv _ Hb) as [h Hh].
    destruct (gr_hist _ _ Hg _ _ Hh) as (? & ? & _). by eexists.
  - intros t [Hb|?]%(ls_leads _ _ _ _ Hls); [|done]. destruct (iv_leads _ _ Hinv _ Hb) as [h Hh].
    destruct (gr_hist _ _ Hg _ _ Hh) as (? & ? & _). by eexists.
  - intros u t m [H|(-> & -> & h & Hh)]%(ls_acks _ _ _ _ Hls).
    + destruct (iv_ack _ _ Hinv _ _ _ H) as (H1 & h & Hh & Hm). pose proof (local_term u). split; [lia|].
      destruct (gr_hist _ _ Hg _ _ Hh) as (h' & Hh' & Hp%prefix_length). exists h'. split; [done|lia].
    + split; [apply local_term|]. by exists h.
  - intros u t p Ha. rewrite local_replica. case_decide as Hd; [subst; by apply Hls|].
    destruct (local_acked _ _ _ Ha) as [Ha0|[-> _]]; [|done].
    destruct (iv_retain _ _ Hinv _ _ _ Ha0); [by left|right]. by eapply diverged_mono.
  - intros u. rewrite local_replica. case_decide as Hd; [apply Hls|].
    destruct (iv_node_commit _ _ Hinv u). split; [done|]. by eapply commit_prefix_mono.
  - intros k e [H|?]%(ls_applied _ _ _ _ Hls); [|done].
    destruct (iv_applied _ _ Hinv _ _ H) as (t & i & h & Hc & Hh & Hk & He).
    destruct (gr_hist _ _ Hg _ _ Hh) as (h' & Hh' & Hp). exists t, i, h'.
    split_and!; [by apply Hg|done|lia|lia|by eapply prefix_lookup_Some].
Qed.
End local.
End preserve.
