(* ===== verification/RaftSpecSteps.v ===== *)
(** The steps of the specification, one by one, and its theorems. *)

From stdpp Require Import functions.
From S2P Require Import Prelude Types RaftSpec RaftSpecSafety RaftSpecInv.
#[local] Open Scope Z_scope.

Ltac grows_tac := split; cbn; try done; try (intros; by apply list_elem_of_further).

(** The fields of [local_step] about records that the step does not touch. *)
Ltac local_tac := split; cbn; try done; try (intros; by left); try (intros; by auto); try (intros ?; apply insert_replica).

Section steps.
Context (all : list NodeId).
Implicit Types w : World.

Lemma grows_replica w f : grows w (w <| replica := f |>).
Proof. grows_tac. Qed.

(** A replica that follows, with the log it had. *)
Lemma follow_invariant w v r' :
  invariant all w -> r_term (replica w v) <= r_term r' ->
  (forall c, r_term r' = r_term (replica w v) -> r_vote (replica w v) = Some c -> r_vote r' = Some c) ->
  r_log r' = r_log (replica w v) -> r_role r' = Follower -> (r_commit r' <= r_commit (replica w v))%nat ->
  invariant all (set w v r').
Proof.
  intros Hinv Hterm Hvote Hlog Hrole Hcommit.
  pose proof (grows_replica w (<[v := r']> (replica w))) as Hg.
  apply (local_invariant all w v r'); [done|]. local_tac.
  - rewrite Hlog. eapply log_ok_mono; [done|done|by eapply iv_log].
  - congruence.
  - congruence.
  - intros t p Ha. rewrite Hlog. destruct (iv_retain _ _ Hinv v t p Ha); [by left|right].
    by eapply diverged_mono.
  - destruct (iv_node_commit _ _ Hinv v) as [H1 H2]. rewrite Hlog. split; [lia|].
    eapply commit_prefix_mono; [done|done|]. eapply commit_prefix_sub; [|done].
    by apply prefix_take_mono.
Qed.

Lemma timeout_invariant w v :
  invariant all w ->
  let r := replica w v in
  let t := r_term r + 1 in
  invariant all (set w v (r <| r_term := t |> <| r_vote := Some v |> <| r_role := Candidate |>)
    <| reqs := (t, v, r_log r) :: reqs w |> <| votes := (v, t, v) :: votes w |>).
Proof.
  intros Hinv r t. subst r t. set (r := replica w v).
  set (w' := _ <| reqs := _ |> <| votes := _ |>).
  assert (grows w w') as Hg by grows_tac.
  pose proof (iv_log _ _ Hinv v) as Hlog. fold r in Hlog.
  apply (local_invariant all w v (r <| r_term := r_term r + 1 |> <| r_vote := Some v |> <| r_role := Candidate |>));
    [exact Hinv|]. unfold w'. local_tac.
  - fold r. lia.
  - intros c Heq. fold r in Heq. lia.
  - eapply log_ok_mono; [done| |exact Hlog]. lia.
  - intros t c l [Heq|Hin]%elem_of_cons; [|by left]. injection Heq as -> -> ->. right.
    split_and!; try done; [fold r; lia|]. by replace (r_term r + 1 - 1) with (r_term r) by lia.
  - intros _. split; [apply elem_of_cons; by left|]. fold r. lia.
  - intros u t c [Heq|Hin]%elem_of_cons; [|by left]. injection Heq as -> -> ->. right.
    split_and!; try done. exists (r_log r). split; [apply elem_of_cons; by left|]. right. done.
  - intros t p Ha. destruct (iv_retain _ _ Hinv v t p Ha); [by left|right].
    eapply (diverged_mono w w'); [done| |done]. fold r. lia.
  - destruct (iv_node_commit _ _ Hinv v) as [H1 H2]. split; [done|].
    eapply (commit_prefix_mono w w'); [done| |done]. fold r. lia.
Qed.

Lemma grant_invariant w v c l :
  invariant all w ->
  let r := replica w v in
  (r_term r, c, l) ∈ reqs w -> r_vote r = None \/ r_vote r = Some c -> as_recent l (r_log r) ->
  invariant all (set w v (r <| r_vote := Some c |>) <| votes := (v, r_term r, c) :: votes w |>).
Proof.
  intros Hinv r Hreq Hvote Hutd. subst r. set (r := replica w v) in *. set (w' := _ <| votes := _ |>).
  assert (grows w w') as Hg by grows_tac.
  apply (local_invariant all w v (r <| r_vote := Some c |>)); [exact Hinv|]. unfold w'. local_tac.
  - intros c' _ Hc'. fold r in Hc'. destruct Hvote; congruence.
  - by eapply iv_log.
  - intros Hr. split; [by apply (iv_candidate _ _ Hinv)|done].
  - intros u t c' [Heq|Hin]%elem_of_cons; [|by left]. injection Heq as -> -> ->. right.
    split_and!; try done. by exists l.
  - intros Hr. by apply (iv_leader _ _ Hinv).
  - apply (iv_retain _ _ Hinv).
  - apply (iv_node_commit _ _ Hinv).
Qed.

Lemma send_invariant w v :
  invariant all w -> r_role (replica w v) = Leader ->
  invariant all (w <| appends := (r_term (replica w v), r_log (replica w v), r_commit (replica w v)) :: appends w |>).
Proof.
  intros Hinv Hr. set (r := replica w v) in *. set (w' := _ <| appends := _ |>).
  assert (grows w w') as Hg by grows_tac.
  apply (local_invariant all w v r); [exact Hinv|]. unfold w'. local_tac.
  - intros u. by case_decide; subst.
  - by eapply iv_log.
  - intros Hc. split; [by apply (iv_candidate _ _ Hinv)|done].
  - intros _. by apply (iv_leader _ _ Hinv).
  - intros t l c [Heq|Hin]%elem_of_cons; [|by left]. injection Heq as -> -> ->. right.
    destruct (iv_leader _ _ Hinv v Hr) as [Hl Hh]. fold r in Hl, Hh.
    destruct (iv_hist _ _ Hinv _ _ Hh) as (u & b & Q & [_ Hb Hfirst _ _ _ _ _ _ _ _]).
    destruct (iv_node_commit _ _ Hinv v) as [H1 H2].
    exists (r_log r), b. split_and!; try done.
    apply prefix_length in Hfirst. rewrite length_app in Hfirst. cbn in Hfirst. lia.
  - apply (iv_retain _ _ Hinv).
  - apply (iv_node_commit _ _ Hinv).
Qed.

(** ** Elections *)

(** The term of a candidate with a quorum of votes has no leader yet. *)
Lemma elect_fresh w v Q :
  invariant all w -> r_role (replica w v) = Candidate -> quorum all Q ->
  (forall u, u ∈ Q -> (u, r_term (replica w v), v) ∈ votes w) ->
  hist w !! r_term (replica w v) = None.
Proof.
  intros Hinv Hc HQ Hv. destruct (hist w !! _) as [h|] eqn:Hh; [exfalso|done].
  destruct (iv_hist _ _ Hinv _ _ Hh) as (v0 & b & Q0 & [_ _ _ _ _ _ HQ0 Hv0 _ _ Hdone]).
  destruct (sets_meet all Q Q0) as (u & Hu & Hu0); [apply HQ|apply HQ0| |].
  { destruct HQ as [_ HQ], HQ0 as [_ HQ0]. Z.div_mod_to_equations. lia. }
  assert (v = v0) as <- by (eapply iv_vote_unique; [done|by apply Hv|by apply Hv0]).
  by apply Hdone.
Qed.

Lemma elect_invariant w v Q :
  invariant all w ->
  let r := replica w v in
  let t := r_term r in
  let log := r_log r ++ [mkLogEntry t []] in
  r_role r = Candidate -> quorum all Q -> (forall u, u ∈ Q -> (u, t, v) ∈ votes w) ->
  invariant all (set w v (r <| r_role := Leader |> <| r_log := log |>)
    <| leads := <[t := v]> (leads w) |> <| base := <[t := r_log r]> (base w) |>
    <| hist := <[t := log]> (hist w) |>).
Proof.
  intros Hinv r t log Hrole HQ Hv. subst r t log. set (r := replica w v) in *.
  set (t := r_term r) in *. set (log := r_log r ++ [mkLogEntry t []]).
  set (w' := _ <| leads := _ |> <| base := _ |> <| hist := _ |>).
  pose proof (elect_fresh w v Q Hinv Hrole HQ Hv) as Hnone. fold r t in Hnone.
  assert (base w !! t = None) as Hbnone.
  { destruct (base w !! t) eqn:Hb; [|done]. destruct (iv_base _ _ Hinv t) as [? ?]; [by eexists|congruence]. }
  assert (leads w !! t = None) as Hlnone.
  { destruct (leads w !! t) eqn:Hb; [|done]. destruct (iv_leads _ _ Hinv t) as [? ?]; [by eexists|congruence]. }
  pose proof (iv_candidate _ _ Hinv v Hrole) as Hreq. fold r t in Hreq.
  destruct (iv_req _ _ Hinv _ _ _ Hreq) as [[Hpos _] Hbok].
  assert (extends (hist w) (<[t := log]> (hist w))) as Hex by (apply (extends_insert _ _ log); by left).
  assert (grows w w') as Hg.
  { split; cbn; try done; by apply insert_subseteq. }
  assert (log_ok (<[t := log]> (hist w)) t log) as Hlogok.
  { apply log_ok_snoc; [done| |by rewrite lookup_insert_eq].
    eapply log_ok_mono; [done| |exact Hbok]. lia. }
  assert (forall u t0 p, u ∈ Q -> acked w' u t0 p -> t0 < t -> acked w u t0 p) as Hack.
  { intros u t0 p _ Ha _. destruct (acked_back _ _ _ _ _ _ Hinv Hg Ha) as [?|(m & h & Hn & Hin & _)]; done. }
  apply (local_invariant all w v (r <| r_role := Leader |> <| r_log := log |>)); [exact Hinv|].
  unfold w'. local_tac; fold w'.
  - intros t' h Hh. destruct (decide (t = t')) as [<-|Hne].
    + rewrite lookup_insert_eq in Hh. injection Hh as <-. right. right. exists v, (r_log r), Q.
      split; cbn; rewrite ?lookup_insert_eq, ?insert_replica, ?decide_True by done; try done.
      * eapply log_ok_mono; [exact Hex|done|exact Hbok].
      * intros u t0 p Hu Ha Ht. pose proof (Hack u t0 p Hu Ha Ht) as Ha0.
        destruct (iv_promise _ _ Hinv _ _ _ _ _ _ (Hv u Hu) Hreq Ha0 Ht) as [?|(t2 & b2 & Ht2 & Hb2 & Hn)]; [by left|].
        right. exists t2, b2. assert (t2 <> t) by congruence. split_and!; [lia..| |done].
        cbn. by rewrite lookup_insert_ne.
    + rewrite lookup_insert_ne in Hh by done. by left.
  - intros t' Hb. destruct (decide (t = t')) as [<-|Hne].
    + right. rewrite lookup_insert_eq. by eexists.
    + left. by rewrite lookup_insert_ne in Hb.
  - intros t' Hb. destruct (decide (t = t')) as [<-|Hne].
    + right. rewrite lookup_insert_eq. by eexists.
    + left. by rewrite lookup_insert_ne in Hb.
  - intros t' h Hh. left. rewrite lookup_insert_ne; [done|]. congruence.
  - intros _. by rewrite !lookup_insert_eq.
  - intros t0 p Ha. destruct (acked_back _ _ _ _ _ _ Hinv Hg Ha) as [Ha0|(m & h & Hn & Hin & _)]; [|done].
    destruct (iv_retain _ _ Hinv _ _ _ Ha0).
    + left. etrans; [done|]. by eexists.
    + right. by eapply (diverged_mono w w').
  - destruct (iv_node_commit _ _ Hinv v) as [H1 H2]. fold r in H1, H2. unfold log. rewrite length_app.
    split; [cbn; lia|]. rewrite take_app_le by done. by eapply (commit_prefix_mono w w').
Qed.

Lemma propose_invariant w v cmd :
  invariant all w ->
  let r := replica w v in
  let log := r_log r ++ [mkLogEntry (r_term r) cmd] in
  r_role r = Leader ->
  invariant all (set w v (r <| r_log := log |>) <| hist := <[r_term r := log]> (hist w) |>).
Proof.
  intros Hinv r log Hrole. subst r log. set (r := replica w v) in *.
  set (log := r_log r ++ [mkLogEntry (r_term r) cmd]). set (w' := _ <| hist := _ |>).
  destruct (iv_leader _ _ Hinv v Hrole) as [Hl Hh]. fold r in Hl, Hh.
  assert (extends (hist w) (<[r_term r := log]> (hist w))) as Hex.
  { eapply extends_insert. right. split; [done|]. by eexists. }
  assert (grows w w') as Hg by (split; cbn; done).
  destruct (iv_hist _ _ Hinv _ _ Hh) as (? & ? & ? & [_ _ _ Hpos _ _ _ _ _ _ _]).
  assert (log_ok (<[r_term r := log]> (hist w)) (r_term r) log) as Hlogok.
  { apply log_ok_snoc; [done| |by rewrite lookup_insert_eq].
    eapply log_ok_mono; [done|done|by eapply iv_log]. }
  apply (local_invariant all w v (r <| r_log := log |>)); [exact Hinv|].
  unfold w'. local_tac; fold w'.
  - congruence.
  - intros t h Ht. destruct (decide (r_term r = t)) as [<-|Hne].
    + rewrite lookup_insert_eq in Ht. injection Ht as <-. right. left. split; [by eexists|done].
    + rewrite lookup_insert_ne in Ht by done. by left.
  - intros t h Ht. destruct (decide (r_term r = t)) as [<-|Hne]; [by right|left].
    by rewrite lookup_insert_ne.
  - intros _. by rewrite lookup_insert_eq.
  - intros t0 p Ha. destruct (acked_back _ _ _ _ _ _ Hinv Hg Ha) as [Ha0|(m & h & Hn & Hin & _)]; [|done].
    destruct (iv_retain _ _ Hinv _ _ _ Ha0).
    + left. etrans; [done|]. by eexists.
    + right. by eapply (diverged_mono w w').
  - destruct (iv_node_commit _ _ Hinv v) as [H1 H2]. fold r in H1, H2. unfold log. rewrite length_app.
    split; [cbn; lia|]. rewrite take_app_le by done. by eapply (commit_prefix_mono w w').
Qed.

(** ** Appends *)

(** A log that extends a leader's log of the replica's own term is part of that
    term's history. *)
Lemma extended_history w v t l c :
  invariant all w -> (t, l, c) ∈ appends w -> r_term (replica w v) = t ->
  l `prefix_of` r_log (replica w v) ->
  exists h, hist w !! t = Some h /\ r_log (replica w v) `prefix_of` h.
Proof.
  intros Hinv Hin Ht Hp. destruct (iv_append _ _ Hinv _ _ _ Hin) as (h & b & Hh & Hb & Hlh & Hlen & _).
  destruct (iv_hist _ _ Hinv _ _ Hh) as (u & b' & Q & [_ Hb' Hfirst _ _ _ _ _ _ _ _]). simplify_eq.
  exists h. split; [done|].
  assert (l !! length b = Some (mkLogEntry (r_term (replica w v)) [])) as Hl.
  { assert (b ++ [mkLogEntry (r_term (replica w v)) []] `prefix_of` l) as Hbl.
    { eapply prefix_comparable; [exact Hfirst|exact Hlh|]. rewrite length_app. cbn. lia. }
    eapply prefix_lookup_Some; [|exact Hbl]. by rewrite lookup_app_r, Nat.sub_diag by done. }
  eapply log_ok_whole; [by eapply iv_log|by eapply prefix_lookup_Some|done|done].
Qed.

(** The committed part of a log is part of every log of its term's leader
    that replaces it. *)
Lemma commit_prefix_kept w T l c h b :
  invariant all w -> commit_prefix w T l -> hist w !! T = Some h -> base w !! T = Some b ->
  b `prefix_of` c -> c `prefix_of` h -> (length l <= length c)%nat \/ ~ c `prefix_of` l -> l `prefix_of` c.
Proof.
  intros Hinv [->|(t & i & h0 & Ht & Hc & Hh0 & Hp & Hl)] Hh Hb Hbc Hch Hlen; [apply prefix_nil|].
  destruct (decide (t = T)) as [->|Hne].
  - assert (h0 = h) as -> by congruence. destruct Hlen as [Hlen|Hn]; [by eapply prefix_comparable|].
    by destruct (prefix_total l c h Hp Hch).
  - etrans; [|exact Hbc]. etrans; [by apply (prefix_take_le _ _ i Hp)|].
    eapply leader_complete; [done|done|done| |done]. lia.
Qed.

Lemma accept_invariant w v l c :
  invariant all w ->
  let r := replica w v in
  let log := if decide (l `prefix_of` r_log r) then r_log r else l in
  (r_term r, l, c) ∈ appends w -> r_role r = Follower ->
  invariant all (set w v (r <| r_log := log |>) <| acks := (v, r_term r, length log) :: acks w |>).
Proof.
  intros Hinv r log Hin Hrole. subst r log. set (r := replica w v) in *.
  set (log := if decide _ then _ else _). set (w' := _ <| acks := _ |>).
  destruct (iv_append _ _ Hinv _ _ _ Hin) as (h & b & Hh & Hb & Hlh & Hlen & _).
  destruct (iv_hist _ _ Hinv _ _ Hh) as (u & b' & Q & Htk). pose proof (tk_base _ _ _ _ _ _ _ Htk).
  simplify_eq. pose proof (tk_first _ _ _ _ _ _ _ Htk) as Hfirst.
  assert (b `prefix_of` l) as Hbl.
  { eapply prefix_comparable; [|exact Hlh|lia]. etrans; [by eexists|exact Hfirst]. }
  assert (log `prefix_of` h) as Hlogh.
  { unfold log. case_decide as Hd; [|done].
    destruct (extended_history _ _ _ _ _ Hinv Hin eq_refl Hd) as (h' & Hh' & ?). fold r in Hh'. by simplify_eq. }
  assert (grows w w') as Hg by grows_tac.
  apply (local_invariant all w v (r <| r_log := log |>)); [exact Hinv|].
  unfold w'. local_tac; fold w'.
  - eapply log_ok_prefix; [exact Hlogh|]. apply Htk.
  - congruence.
  - congruence.
  - intros u' t m [Heq|?]%elem_of_cons; [|by left]. injection Heq as -> -> ->. right.
    split_and!; try done. exists h. split; [done|by apply prefix_length].
  - intros t p Ha. destruct (acked_back _ _ _ _ _ _ Hinv Hg Ha) as [Ha0|(m & h' & Hn & Hm & Hh' & Hp & Hpl)].
    + destruct (iv_retain _ _ Hinv _ _ _ Ha0) as [Hp|?]; [|right; by eapply (diverged_mono w w')].
      fold r in Hp. unfold log. case_decide as Hd; [by left|].
      destruct Ha0 as (m & h' & Hm & Hh' & Hph & _). destruct (iv_ack _ _ Hinv _ _ _ Hm) as [Ht _].
      fold r in Ht. destruct (decide (t = r_term r)) as [->|Hne].
      * assert (h' = h) as -> by congruence. destruct (prefix_total p l h Hph Hlh) as [?|Hlp]; [by left|].
        destruct Hd. by etrans.
      * destruct (decide (p `prefix_of` l)) as [?|Hnp]; [by left|]. right.
        exists (r_term r), b. split_and!; [lia..|done|]. intros Hpb. destruct Hnp. by etrans.
    + cbn in Hm, Hh'. apply elem_of_cons in Hm as [Heq|]; [|done]. injection Heq as -> ->.
      assert (h' = h) as -> by congruence. left. by eapply prefix_comparable.
  - destruct (iv_node_commit _ _ Hinv v) as [H1 H2]. fold r in H1, H2.
    assert (take (r_commit r) (r_log r) `prefix_of` log) as Hp.
    { unfold log. case_decide as Hd; [apply prefix_take|].
      eapply commit_prefix_kept; [done..|]. right. intros Hx. destruct Hd.
      etrans; [exact Hx|apply prefix_take]. }
    pose proof (prefix_length _ _ Hp) as Hpl. rewrite length_take in Hpl. split; [lia|].
    replace (take (r_commit r) log) with (take (r_commit r) (r_log r)); [by eapply (commit_prefix_mono w w')|].
    rewrite <- (prefix_take_eq _ _ (r_commit r) Hp) by (rewrite length_take; lia).
    by rewrite take_take, Nat.min_id.
Qed.

(** ** Commits *)
Lemma elem_of_indexed l lo hi k e :
  (k, e) ∈ indexed l lo hi <-> (lo < k <= hi)%nat /\ l !! pred k = Some e.
Proof.
  unfold indexed. rewrite list_elem_of_lookup. split.
  - intros [j Hj]. rewrite list_lookup_imap, lookup_drop in Hj.
    apply fmap_Some in Hj as (e' & He & [= -> ->]). apply lookup_take_Some in He as [He Hlt].
    split; [lia|]. by replace (pred (lo + 1 + j)) with (lo + j)%nat by lia.
  - intros [Hk He]. exists (k - lo - 1)%nat. rewrite list_lookup_imap, lookup_drop, lookup_take_lt by lia.
    replace (lo + (k - lo - 1))%nat with (pred k) by lia. rewrite He. cbn. repeat f_equal. lia.
Qed.

(** The entries that a commit at [i] applies are committed. *)
Lemma commit_applies w T log lo i k e :
  commit_prefix w T (take i log) -> (k, e) ∈ indexed log lo i ->
  exists t j h, (t, j) ∈ commits w /\ hist w !! t = Some h /\ (0 < k <= j)%nat /\ h !! pred k = Some e.
Proof.
  intros Hc [Hk He]%elem_of_indexed.
  assert (take i log !! pred k = Some e) as Ht by (rewrite lookup_take_lt; [done|lia]).
  destruct Hc as [Hnil|(t & j & h & _ & Hin & Hh & Hp & Hl)]; [by rewrite Hnil in Ht|].
  exists t, j, h. apply lookup_lt_Some in Ht as Hlt.
  split_and!; [done|done|lia|lia|by eapply prefix_lookup_Some].
Qed.

Lemma leader_commit_invariant w v i :
  invariant all w ->
  let r := replica w v in
  r_role r = Leader -> (r_commit r <= i)%nat -> (e_term <$> r_log r !! pred i) = Some (r_term r) ->
  (0 < i)%nat ->
  meets_quorums all (fun u => u = v \/ exists m, (i <= m)%nat /\ (u, r_term r, m) ∈ acks w) ->
  invariant all (set w v (r <| r_commit := i |>)
    <| acks := (v, r_term r, length (r_log r)) :: acks w |>
    <| commits := (r_term r, i) :: commits w |>
    <| applied := indexed (r_log r) (r_commit r) i ++ applied w |>).
Proof.
  intros Hinv r Hrole Hle Hterm Hpos Hmeets. subst r. set (r := replica w v) in *.
  set (w' := _ <| applied := _ |>). destruct (iv_leader _ _ Hinv v Hrole) as [Hl Hh]. fold r in Hl, Hh.
  assert (i <= length (r_log r))%nat as Hil.
  { destruct (r_log r !! pred i) eqn:He; [|done]. apply lookup_lt_Some in He. lia. }
  assert (grows w w') as Hg by (grows_tac; intros; apply elem_of_app; by right).
  assert (commit_prefix w' (r_term r) (take i (r_log r))) as Hcp.
  { right. exists (r_term r), i, (r_log r). rewrite length_take.
    split_and!; [done|apply elem_of_cons; by left|done|apply prefix_take|lia]. }
  apply (local_invariant all w v (r <| r_commit := i |>)); [exact Hinv|].
  unfold w'. local_tac; fold w'.
  - by eapply iv_log.
  - congruence.
  - intros u t m [Heq|?]%elem_of_cons; [|by left]. injection Heq as -> -> ->. right. eauto.
  - intros t p Ha. destruct (acked_back _ _ _ _ _ _ Hinv Hg Ha) as [Ha0|(m & h' & Hn & Hm & Hh' & Hp & Hpl)].
    + destruct (iv_retain _ _ Hinv _ _ _ Ha0); [by left|right]. by eapply (diverged_mono w w').
    + cbn in Hm, Hh'. apply elem_of_cons in Hm as [Heq|]; [|done]. injection Heq as -> ->.
      left. fold r. by simplify_eq.
  - intros t j [Heq|?]%elem_of_cons; [|by left]. injection Heq as -> ->. right. exists (r_log r).
    split_and!; try done. intros Q HQ. destruct (Hmeets Q HQ) as (u & Hu & Hack). exists u. split; [done|].
    destruct Hack as [->|(m & Hm & Hin)].
    + exists (length (r_log r)), (r_log r). cbn. rewrite length_take.
      split_and!; [apply elem_of_cons; by left|done|apply prefix_take|lia].
    + exists m, (r_log r). cbn. rewrite length_take.
      split_and!; [apply elem_of_cons; by right|done|apply prefix_take|lia].
  - intros k e [Hin|?]%elem_of_app; [|by left]. right. by eapply (commit_applies w').
Qed.

Lemma follower_commit_invariant w v l c :
  invariant all w ->
  let r := replica w v in
  (r_term r, l, c) ∈ appends w -> r_role r = Follower -> l `prefix_of` r_log r -> (r_commit r <= c)%nat ->
  invariant all (set w v (r <| r_commit := c |>)
    <| applied := indexed (r_log r) (r_commit r) c ++ applied w |>).
Proof.
  intros Hinv r Hin Hrole Hp Hle. subst r. set (r := replica w v) in *. set (w' := _ <| applied := _ |>).
  destruct (iv_append _ _ Hinv _ _ _ Hin) as (h & b & Hh & Hb & _ & _ & Hcl & Hcp).
  rewrite (prefix_take_eq _ _ c Hp Hcl) in Hcp. pose proof (prefix_length _ _ Hp) as Hlen.
  assert (grows w w') as Hg by (grows_tac; intros; apply elem_of_app; by right).
  apply (local_invariant all w v (r <| r_commit := c |>)); [exact Hinv|].
  unfold w'. local_tac; fold w'.
  - by eapply iv_log.
  - congruence.
  - congruence.
  - apply (iv_retain _ _ Hinv).
  - split; [fold r; lia|done].
  - intros k e [Hk|?]%elem_of_app; [|by left]. right. by eapply (commit_applies w).
Qed.

Lemma spec_step_invariant v w w' : invariant all w -> spec_step all v w w' -> invariant all w'.
Proof.
  intros Hinv []; try subst r; try subst t; try subst log.
  - apply follow_invariant; cbn; try done; lia.
  - apply follow_invariant; cbn; done.
  - by apply timeout_invariant.
  - by eapply grant_invariant.
  - by eapply elect_invariant.
  - by apply propose_invariant.
  - by apply send_invariant.
  - by eapply accept_invariant.
  - by apply leader_commit_invariant.
  - by eapply follower_commit_invariant.
  - apply follow_invariant; cbn; try done. lia.
Qed.

Lemma spec_initial_invariant : invariant all spec_initial.
Proof.
  split; cbn; try done; try (intros; exfalso; by eapply not_elem_of_nil); try by intros ? [].
  - intros _. apply log_ok_nil.
  - intros v t p (m & h & []%not_elem_of_nil & _).
  - intros v. split; [done|by left].
Qed.

Lemma spec_reachable_invariant w : spec_reachable all w -> invariant all w.
Proof.
  revert w. unfold spec_reachable. apply rtc_ind_r; [apply spec_initial_invariant|].
  intros w1 w2 _ (v & _ & Hs) IH. by eapply spec_step_invariant.
Qed.

(** ** What the invariant gives *)

(** Two committed positions of the same index are the same entry. *)
Lemma committed_agree w t1 i1 h1 t2 i2 h2 k e1 e2 :
  invariant all w -> (t1, i1) ∈ commits w -> (t2, i2) ∈ commits w ->
  hist w !! t1 = Some h1 -> hist w !! t2 = Some h2 -> (k < i1)%nat -> (k < i2)%nat ->
  h1 !! k = Some e1 -> h2 !! k = Some e2 -> e1 = e2.
Proof.
  intros Hinv. assert (forall t1 i1 h1 t2 h2 e1 e2, (t1, i1) ∈ commits w -> hist w !! t1 = Some h1 ->
    hist w !! t2 = Some h2 -> t1 <= t2 -> (k < i1)%nat -> h1 !! k = Some e1 -> h2 !! k = Some e2 -> e1 = e2) as Hle.
  { clear - Hinv. intros t1 i1 h1 t2 h2 e1 e2 Hc1 Hh1 Hh2 Ht Hk H1 H2.
    destruct (decide (t1 = t2)) as [->|Hne]; [congruence|].
    destruct (iv_hist _ _ Hinv _ _ Hh2) as (u & b & Q & Htk).
    pose proof (leader_complete all w t1 i1 h1 t2 b Hinv Hc1 Hh1 ltac:(lia) (tk_base _ _ _ _ _ _ _ Htk)) as Hp.
    assert (take i1 h1 !! k = Some e1) as H1' by (rewrite lookup_take_lt; done).
    pose proof (prefix_lookup_Some _ _ _ _ H1' Hp) as Hb.
    pose proof (prefix_lookup_Some _ _ _ _ (lookup_app_l_Some _ [mkLogEntry t2 []] _ _ Hb)
      (tk_first _ _ _ _ _ _ _ Htk)). congruence. }
  intros Hc1 Hc2 Hh1 Hh2 Hk1 Hk2 H1 H2.
  destruct (Z.le_ge_cases t1 t2); [by eapply (Hle t1 i1 h1 t2 h2)|]. symmetry. by eapply (Hle t2 i2 h2 t1 h1).
Qed.

Lemma applied_agree w k e1 e2 :
  invariant all w -> (k, e1) ∈ applied w -> (k, e2) ∈ applied w -> e1 = e2.
Proof.
  intros Hinv H1 H2. destruct (iv_applied _ _ Hinv _ _ H1) as (t1 & i1 & h1 & Hc1 & Hh1 & Hk1 & He1).
  destruct (iv_applied _ _ Hinv _ _ H2) as (t2 & i2 & h2 & Hc2 & Hh2 & Hk2 & He2).
  eapply (committed_agree w t1 i1 h1 t2 i2 h2 (pred k)); [done..|lia|lia|done|done].
Qed.

(** Two logs with the same term at an index agree up to it. *)
Lemma logs_match w v1 v2 i e1 e2 :
  invariant all w -> r_log (replica w v1) !! i = Some e1 -> r_log (replica w v2) !! i = Some e2 ->
  e_term e1 = e_term e2 -> take (S i) (r_log (replica w v1)) = take (S i) (r_log (replica w v2)).
Proof. intros Hinv. apply (traced_match (hist w)); apply (iv_log _ _ Hinv). Qed.
End steps.
