(* ===== verification/Replicas.v ===== *)
(** A cluster of nodes with their disks.

    As in [Cluster], messages can be lost, duplicated, delayed and reordered,
    and a node can crash between any two of its actions; here a disk also holds
    the log, a node boots from its own disk, and what every node applies to its
    state machine is recorded.  No node takes a snapshot, and no crash falls
    inside a write: [Limits] and [ReplicaRuns] show what the code does there. *)

From S2P Require Import Prelude Types RaftCore CoreLog CoreFrame CoreElection CoreInvariant.
From S2P Require Import CoreEffects Cluster.

(** ** Disks *)
Record Disk := mkDisk {
  dk_snapshot : option (Z * Z);
  dk_meta : option metadata;
  dk_log : list LogEntry;
}.

Definition empty_disk : Disk := mkDisk None None [].

(** What an action leaves on disk; entries above the snapshot are stored from
    their start index on. *)
Definition disk_exec (d : Disk) (a : Action) : Disk :=
  match a with
  | PersistMetadata t v => mkDisk (dk_snapshot d) (Some (t, v)) (dk_log d)
  | PersistLogEntries start entries =>
      let base := default 0 (fst <$> dk_snapshot d) in
      mkDisk (dk_snapshot d) (dk_meta d) (write_entries base (dk_log d) start entries)
  | ActInstallSnapshot index term _ => mkDisk (Some (index, term)) (dk_meta d) []
  | _ => d
  end.

(** ** The system *)
Record System := mkSystem {
  sys_nodes : gmap Z RaftCore;
  sys_disks : gmap Z Disk;
  sys_network : list (NodeId * Message);
  sys_applied : list (NodeId * (Z * bytes));
}.

Definition disk_of (y : System) (n : NodeId) : Disk := default empty_disk (sys_disks y !! n).

(** Node [n] is now [s], after the actions [acts] took effect. *)
Definition sys_perform (y : System) (n : NodeId) (s : RaftCore) (data : bytes) (acts : list Action)
    : System :=
  {| sys_nodes := <[n := s]> (sys_nodes y);
     sys_disks := <[n := foldl disk_exec (disk_of y n) acts]> (sys_disks y);
     sys_network := sys_network y ++ (acts ≫= sent n data);
     sys_applied := sys_applied y ++ (pair n <$> omap apply_of acts) |}.

Section system.
Context (cfg : Config).

(** The node that [RaftDriver::new] makes of the disk [d]. *)
Definition sys_booted (n : NodeId) (d : Disk) (s : RaftCore) : Prop :=
  exists g, boot_core g n (cfg_nodes cfg) (cfg_heartbeat cfg) (cfg_range cfg)
              (dk_snapshot d) (dk_meta d) (Some (dk_log d)) = Done s.

Definition sys_initial (y : System) : Prop :=
  sys_disks y = ∅ /\ sys_network y = [] /\ sys_applied y = []
  /\ forall n s, sys_nodes y !! n = Some s -> n ∈ cfg_nodes cfg /\ sys_booted n empty_disk s.

(** Which messages the network may deliver to a node in which state. *)
Context (deliverable : RaftCore -> Message -> Prop).

(** Terms and log indices stay within 64 bits, in memory and on disk. *)
Definition disk_fits (d : Disk) : Prop := len (dk_log d) + 2 < U64.

Definition within_bounds (s : RaftCore) (i : Input) : Prop :=
  term_room s /\
  match i with
  | InPropose _ | InMessage (RequestVoteResponse _) => room s 1
  | InMessage (AppendEntries req) =>
      room s (len (ae_entries req)) /\ ae_prev_log_index req + len (ae_entries req) + 2 < U64
  | _ => True
  end.

Definition sys_admissible (y : System) (n : NodeId) (s : RaftCore) (i : Input) : Prop :=
  within_bounds s i /\
  match i with
  | InMessage m => (n, m) ∈ sys_network y /\ deliverable s m
  | InSnapshot => False
  | _ => True
  end.

Inductive sys_step (y : System) : System -> Prop :=
| sys_input n s i g data s' acts :
    sys_nodes y !! n = Some s -> sys_admissible y n s i -> core_input g s i = Done (s', acts) ->
    sys_step y (sys_perform y n s' data acts)
| sys_crash n s i g data s' acts done_acts s0 :
    sys_nodes y !! n = Some s -> sys_admissible y n s i -> core_input g s i = Done (s', acts) ->
    done_acts `prefix_of` acts -> disk_fits (foldl disk_exec (disk_of y n) done_acts) ->
    sys_booted n (foldl disk_exec (disk_of y n) done_acts) s0 ->
    sys_step y (sys_perform y n s0 data done_acts).

Definition sys_reachable (y : System) : Prop := exists y0, sys_initial y0 /\ rtc sys_step y0 y.
End system.

(** ** The responses that may be delivered

    The handlers of the two responses do not check that the response belongs to
    what the node is doing, and neither does the transport.  [guarded] is a
    condition on the network in their place: a vote of an earlier term is not
    delivered; the response to an append is delivered only to a leader, only if
    it is not of an earlier term, and a rejection only if it names a conflict
    (those of a newer term name none).  [ReplicaRuns.conditions_needed] shows
    that the code is not safe without any one of the four. *)
Definition guarded (s : RaftCore) (m : Message) : Prop :=
  match m with
  | RequestVoteResponse resp => current_term s <= rvr_term resp
  | AppendEntriesResponse resp =>
      state s = Leader /\ current_term s <= aer_term resp
      /\ (aer_success resp = false -> aer_first_conflicting_index resp <> None)
  | _ => True
  end.
