(* ===== verification/Refinement.v ===== *)
(** The cluster against the specification: the relation between their states,
    and how the actions of a node are steps of its replica. *)

From stdpp Require Import functions.
From S2P Require Import Prelude Types RaftCore CoreLog CoreFrame CoreReplication CoreElection.
From S2P Require Import CoreInvariant CoreEffects Cluster.
From S2P Require Import RaftSpec RaftSpecSafety RaftSpecInv RaftSpecSteps Replicas.
#[local] Open Scope Z_scope.

(** ** Growth along steps *)
Section growth.
Context (all : list NodeId).

Lemma spec_step_grows v w w' : invariant all w -> spec_step all v w w' -> grows w w'.
Proof.
  intros Hinv []; try subst r; try subst t; try subst log; try solve [grows_tac].
  - pose proof (elect_fresh all w v Q Hinv ltac:(done) ltac:(done) ltac:(done)) as Hn.
    split; cbn; try done.
    + apply (extends_insert _ _ []). by left.
    + apply insert_subseteq. destruct (base w !! _) eqn:Hb; [|done].
      destruct (iv_base _ _ Hinv (r_term (replica w v))); [by eexists|congruence].
    + apply insert_subseteq. destruct (leads w !! _) eqn:Hb; [|done].
      destruct (iv_leads _ _ Hinv (r_term (replica w v))); [by eexists|congruence].
  - destruct (iv_leader _ _ Hinv v ltac:(done)) as [_ Hh]. split; cbn; try done.
    eapply extends_insert. right. split; [exact Hh|]. by eexists.
  - grows_tac. intros; apply elem_of_app; by right.
  - grows_tac. intros; apply elem_of_app; by right.
Qed.

Lemma spec_step_other v w w' u : spec_step all v w w' -> u <> v -> replica w' u = replica w u.
Proof. intros [] Hne; cbn; try done; by apply fn_lookup_insert_ne. Qed.

Lemma grows_refl w : grows w w.
Proof. by split. Qed.

Lemma grows_trans w1 w2 w3 : grows w1 w2 -> grows w2 w3 -> grows w1 w3.
Proof.
  intros [A1 A2 A3 A4 A5 A6 A7 A8 A9] [B1 B2 B3 B4 B5 B6 B7 B8 B9]. split; auto; by etrans.
Qed.

(** Steps of one replica: the invariant, growth, and the others untouched. *)
Record evolves (v : NodeId) (w w' : World) : Prop := {
  ev_steps : spec_steps all v w w';
  ev_invariant : invariant all w';
  ev_grows : grows w w';
  ev_other : forall u, u <> v -> replica w' u = replica w u;
}.

Lemma evolves_refl v w : invariant all w -> evolves v w w.
Proof. intros Hinv. split; [apply rtc_refl|done|apply grows_refl|done]. Qed.

Lemma evolves_trans v w1 w2 w3 : evolves v w1 w2 -> evolves v w2 w3 -> evolves v w1 w3.
Proof.
  intros [A1 A2 A3 A4] [B1 B2 B3 B4]. split; [by etrans|done|by eapply grows_trans|].
  intros u Hu. rewrite B4, A4 by done. done.
Qed.

Lemma evolves_step v w w' : invariant all w -> spec_step all v w w' -> evolves v w w'.
Proof.
  intros Hinv Hs. split; [by apply rtc_once|by eapply spec_step_invariant|by eapply spec_step_grows|].
  intros u Hu. by eapply spec_step_other.
Qed.

Lemma evolves_l v w1 w2 w3 :
  invariant all w1 -> spec_step all v w1 w2 -> (invariant all w2 -> evolves v w2 w3) -> evolves v w1 w3.
Proof.
  intros Hinv Hs H. pose proof (evolves_step _ _ _ Hinv Hs) as Hev.
  eapply evolves_trans; [exact Hev|]. apply H, Hev.
Qed.
End growth.

(** ** Messages *)

(** An append is a part of a leader's log, up to its end. *)
Definition append_of (a : World) (req : AppendEntriesRPC) : Prop :=
  exists l c prev, (ae_term req, l, c) ∈ appends a /\ ae_prev_log_index req = Z.of_nat prev
    /\ (prev <= length l)%nat /\ ae_prev_log_term req = last_term (take prev l)
    /\ ae_entries req = drop prev l /\ ae_leader_commit req = Z.of_nat c.

Section relation.
Context (all : list NodeId).

Definition msg_ok (a : World) (pm : NodeId * Message) : Prop :=
  match pm.2 with
  | RequestVote req => exists l, (rv_term req, rv_candidate_id req, l) ∈ reqs a
      /\ rv_last_log_index req = len l /\ rv_last_log_term req = last_term l
  | RequestVoteResponse resp => rvr_vote_granted resp = true ->
      rvr_id resp ∈ all /\ (rvr_id resp, rvr_term resp, pm.1) ∈ votes a
  | AppendEntries req => pm.1 ∈ all /\ ae_leader_id req <> pm.1
      /\ leads a !! ae_term req = Some (ae_leader_id req) /\ append_of a req
  | AppendEntriesResponse resp => aer_id resp ∈ all /\ aer_id resp <> pm.1 /\
      if aer_success resp then leads a !! aer_term resp = Some pm.1
        /\ exists m, aer_match_index resp = Z.of_nat m /\ (aer_id resp, aer_term resp, m) ∈ acks a
      else forall k, aer_first_conflicting_index resp = Some k ->
        leads a !! aer_term resp = Some pm.1
        /\ 1 <= k /\ exists h, hist a !! aer_term resp = Some h /\ k <= len h + 1
  | InstallSnapshotMsg _ | InstallSnapshotResponse _ => False
  end.

Definition applied_ok (a : World) (nic : NodeId * (Z * bytes)) : Prop :=
  exists k e, nic.2.1 = Z.of_nat k /\ (k, e) ∈ applied a /\ e_command e = nic.2.2.

(** What an action shows to the others. *)
Definition out_ok (a : World) (n : NodeId) (x : Action) : Prop :=
  match x with
  | SendMessage p m => msg_ok a (p, m)
  | ApplyToStateMachine i c => applied_ok a (n, (i, c))
  | SendInstallSnapshot _ _ _ _ | ActInstallSnapshot _ _ _ => False
  | _ => True
  end.

Lemma msg_ok_mono a a' pm : grows a a' -> msg_ok a pm -> msg_ok a' pm.
Proof.
  intros Hg. destruct pm as [p []]; cbn; try done.
  - intros (l & Hl & ?). exists l. split; [by apply Hg|done].
  - intros H Hv. destruct (H Hv). split; [done|by apply Hg].
  - intros (? & ? & ? & l & c & prev & Hl & ?). split_and!; try done; [by eapply lookup_weaken; [|apply Hg]|].
    exists l, c, prev. split; [by apply Hg|done].
  - intros (? & ? & H). split_and!; try done. case_match.
    + destruct H as (? & m & ? & ?). split; [by eapply lookup_weaken; [|apply Hg]|].
      exists m. split; [done|by apply Hg].
    + intros k Hk. destruct (H k Hk) as (? & ? & h & Hh & Hle). split_and!; [by eapply lookup_weaken; [|apply Hg]|done|].
      destruct (gr_hist _ _ Hg _ _ Hh) as (h' & Hh' & Hp%prefix_length). exists h'.
      split; [done|]. unfold len in *. lia.
Qed.

Lemma applied_ok_mono a a' x : grows a a' -> applied_ok a x -> applied_ok a' x.
Proof. intros Hg (k & e & ? & ? & ?). exists k, e. split_and!; [done|by apply Hg|done]. Qed.

Lemma out_ok_mono a a' n x : grows a a' -> out_ok a n x -> out_ok a' n x.
Proof.
  intros Hg. destruct x; cbn; try done; [by apply msg_ok_mono|by apply applied_ok_mono].
Qed.

(** ** Disks and actions *)
Definition disk_rel (d : Disk) (r : Replica) : Prop :=
  dk_snapshot d = None /\ disk_meta (dk_meta d) = (r_term r, r_vote r) /\ dk_log d = r_log r.

(** The actions of node [n], one after the other, as steps of its replica: after
    each of them the disk is that of the replica. *)
Inductive acts_sim (n : NodeId) : World -> Disk -> list Action -> World -> Prop :=
| sim_nil a d : acts_sim n a d [] a
| sim_steps a a' d acts b :
    evolves all n a a' -> disk_rel d (replica a' n) -> acts_sim n a' d acts b ->
    acts_sim n a d acts b
| sim_act a a' d x acts b :
    evolves all n a a' -> disk_rel (disk_exec d x) (replica a' n) -> out_ok a' n x ->
    acts_sim n a' (disk_exec d x) acts b -> acts_sim n a d (x :: acts) b.

Lemma acts_sim_app n a d acts a1 acts' b :
  acts_sim n a d acts a1 -> acts_sim n a1 (foldl disk_exec d acts) acts' b ->
  acts_sim n a d (acts ++ acts') b.
Proof. induction 1; intros; [done|by eapply sim_steps; eauto|by eapply sim_act; eauto]. Qed.

(** Actions that only show something that already holds. *)
Lemma acts_sim_out n a d acts :
  invariant all a -> disk_rel d (replica a n) ->
  Forall (fun x => out_ok a n x /\ forall d, disk_exec d x = d) acts -> acts_sim n a d acts a.
Proof.
  intros Hinv Hd Hall. induction Hall as [|x acts [Hx Hdx] _ IH]; [constructor|].
  eapply sim_act; [by apply evolves_refl| |done|]; by rewrite Hdx.
Qed.

Definition shown (n : NodeId) (data : bytes) (a : World) (acts : list Action) : Prop :=
  Forall (msg_ok a) (acts ≫= sent n data) /\ Forall (applied_ok a) (pair n <$> omap apply_of acts).

Lemma shown_cons n data a x acts : out_ok a n x -> shown n data a acts -> shown n data a (x :: acts).
Proof.
  intros Hx [H1 H2]. split.
  - cbn. apply Forall_app. split; [|done]. destruct x; cbn in *; try done; by constructor.
  - destruct x; cbn in *; try done. by constructor.
Qed.

Lemma shown_mono n data a a' acts : grows a a' -> shown n data a acts -> shown n data a' acts.
Proof.
  intros Hg [H1 H2]. split; (eapply Forall_impl; [done|]);
    eauto using msg_ok_mono, applied_ok_mono.
Qed.

(** After any part of the actions. *)
Lemma acts_sim_prefix n data a d acts b pre :
  acts_sim n a d acts b -> invariant all a -> disk_rel d (replica a n) -> pre `prefix_of` acts ->
  exists a', evolves all n a a' /\ disk_rel (foldl disk_exec d pre) (replica a' n) /\ shown n data a' pre
    /\ (pre = acts -> a' = b).
Proof.
  intros Hs. revert pre. induction Hs as [a d|a a' d acts b Hev Hd' Hs IH|a a' d x acts b Hev Hd' Hx Hs IH];
    intros pre Hinv Hd Hpre.
  - apply prefix_nil_inv in Hpre as ->. exists a. split_and!; [by apply evolves_refl|done|by split|done].
  - destruct (IH pre (ev_invariant _ _ _ _ Hev) Hd' Hpre) as (a2 & Hev2 & ? & ? & ?).
    exists a2. split_and!; try done. by eapply evolves_trans.
  - destruct pre as [|y pre].
    { exists a. split_and!; [by apply evolves_refl|done|by split|done]. }
    apply prefix_cons_inv_1 in Hpre as Heq. subst y. apply prefix_cons_inv_2 in Hpre.
    destruct (IH pre (ev_invariant _ _ _ _ Hev) Hd' Hpre) as (a2 & Hev2 & Hd2 & Hsh & Hfull).
    exists a2. split_and!; [by eapply evolves_trans|done| |].
    + apply shown_cons; [|done]. eapply out_ok_mono; [|done]. apply Hev2.
    + intros [= ->]. by apply Hfull.
Qed.
End relation.
