(* ===== verification/NodeSim.v ===== *)
(** The handlers of a node simulate steps of its replica. *)

From stdpp Require Import functions.
From S2P Require Import Prelude Types RaftCore CoreLog CoreFrame CoreReplication CoreElection.
From S2P Require Import CoreInvariant CoreCommit CoreTotal ReplicationSafety CoreEffects Cluster.
From S2P Require Import RaftSpec RaftSpecSafety RaftSpecInv RaftSpecSteps Replicas Refinement.
#[local] Open Scope Z_scope.

Ltac keeps_tac := split; cbn; done || (intros; split_and!; try done; lia) || idtac.

(** ** The node and its replica *)
Definition abs_replica (s : RaftCore) : Replica :=
  mkReplica (current_term s) (voted_for s) (log s) (state s) (Z.to_nat (commit_index s)).

Section node.
Context (all : list NodeId).

Record node_view (a : World) (n : NodeId) (s : RaftCore) : Prop := {
  nv_id : id s = n;
  nv_member : n ∈ all;
  nv_peers : peers s = filter (fun x => x ≠ n) all;
  nv_snapshot : last_included_index s = 0 /\ last_included_term s = 0;
  nv_replica : replica a n = abs_replica s;
  nv_votes : state s = Candidate -> forall v, v ∈ votes_received s ->
    v ∈ all /\ (v, current_term s, n) ∈ votes a;
  nv_next : state s = Leader -> forall p x, p ∈ peers s -> next_index s !! p = Some x ->
    1 <= x <= len (log s) + 1;
  nv_match : state s = Leader -> forall p, p ∈ peers s -> exists m, match_index s !! p = Some m
    /\ (m = 0 \/ exists k, m = Z.of_nat k /\ (p, current_term s, k) ∈ acks a);
}.

(** The node [s] and its disk [d] against the replica. *)
Record simulates (a : World) (n : NodeId) (d : Disk) (s : RaftCore) : Prop := {
  sm_invariant : invariant all a;
  sm_view : node_view a n s;
  sm_disk : disk_rel d (replica a n);
  sm_wf : core_wf s;
}.

(** The actions of a handler are steps to a state where the node is [s']. *)
Definition sim_result (a : World) (n : NodeId) (d : Disk) (acts : list Action) (s' : RaftCore) : Prop :=
  exists b, acts_sim all n a d acts b /\ node_view b n s'.

Lemma acts_sim_final a n d acts b :
  acts_sim all n a d acts b -> invariant all a -> disk_rel d (replica a n) ->
  evolves all n a b /\ disk_rel (foldl disk_exec d acts) (replica b n).
Proof.
  intros Hs Hinv Hd.
  destruct (acts_sim_prefix _ _ [] _ _ _ _ acts Hs Hinv Hd) as (a' & Hev & Hd' & _ & Heq); [done|].
  by rewrite <- Heq by done.
Qed.

(** One part of a handler after the other. *)
Lemma sim_app a n d acts s1 rest s' :
  invariant all a -> disk_rel d (replica a n) -> core_wf s1 -> sim_result a n d acts s1 ->
  (forall b, grows a b -> simulates b n (foldl disk_exec d acts) s1 ->
     sim_result b n (foldl disk_exec d acts) rest s') ->
  sim_result a n d (acts ++ rest) s'.
Proof.
  intros Hinv Hd Hwf (a1 & Hs & Hv) Hrest.
  destruct (acts_sim_final _ _ _ _ _ Hs Hinv Hd) as [Hev Hd1].
  destruct (Hrest a1 (ev_grows _ _ _ _ Hev)) as (b & Hs' & Hv'); [by split; try apply Hev|].
  exists b. split; [by eapply acts_sim_app|done].
Qed.

(** A step before the next action, and a step with it. *)
Lemma sim_step a n d a1 acts s' :
  invariant all a -> spec_step all n a a1 -> disk_rel d (replica a1 n) ->
  (invariant all a1 -> grows a a1 -> sim_result a1 n d acts s') -> sim_result a n d acts s'.
Proof.
  intros Hinv Hs Hd H. pose proof (evolves_step _ _ _ _ Hinv Hs) as Hev.
  destruct (H (ev_invariant _ _ _ _ Hev) (ev_grows _ _ _ _ Hev)) as (b & Hb & Hv).
  exists b. split; [by eapply sim_steps|done].
Qed.

Lemma sim_action a n d x a1 acts s' :
  invariant all a -> spec_step all n a a1 -> disk_rel (disk_exec d x) (replica a1 n) -> out_ok all a1 n x ->
  (invariant all a1 -> grows a a1 -> sim_result a1 n (disk_exec d x) acts s') ->
  sim_result a n d (x :: acts) s'.
Proof.
  intros Hinv Hs Hd Hx H. pose proof (evolves_step _ _ _ _ Hinv Hs) as Hev.
  destruct (H (ev_invariant _ _ _ _ Hev) (ev_grows _ _ _ _ Hev)) as (b & Hb & Hv).
  exists b. split; [by eapply sim_act|done].
Qed.

(** Actions that leave nothing on disk and show what already holds. *)
Definition shows (a : World) (n : NodeId) (x : Action) : Prop :=
  out_ok all a n x /\ forall d, disk_exec d x = d.

Lemma sim_shows a n d acts s' :
  invariant all a -> disk_rel d (replica a n) -> Forall (shows a n) acts -> node_view a n s' ->
  sim_result a n d acts s'.
Proof. intros. exists a. split; [by apply acts_sim_out|done]. Qed.

Lemma replica_set a n r : replica (set a n r) n = r.
Proof. apply fn_lookup_insert. Qed.

(** What the view of a node depends on. *)
Record keeps (s s' : RaftCore) : Prop := {
  kp_id : id s' = id s;
  kp_peers : peers s' = peers s;
  kp_snapshot : last_included_index s' = last_included_index s
                /\ last_included_term s' = last_included_term s;
  kp_candidate : state s' = Candidate -> state s = Candidate /\ current_term s' = current_term s
    /\ votes_received s' = votes_received s;
  kp_leader : state s' = Leader -> state s = Leader /\ current_term s' = current_term s
    /\ next_index s' = next_index s /\ match_index s' = match_index s /\ len (log s) <= len (log s');
}.

Lemma node_view_keeps a b n s s' :
  node_view a n s -> grows a b -> keeps s s' -> replica b n = abs_replica s' -> node_view b n s'.
Proof.
  intros [V1 V0 V2 [V3 V3'] V4 V5 V6 V7] Hg [K1 K2 [K3 K3'] K4 K5] Hr.
  split; [congruence|done|congruence|split; congruence|done|..].
  - intros Hst v Hv. destruct (K4 Hst) as (Hst' & -> & Heq). rewrite Heq in Hv.
    destruct (V5 Hst' v Hv). split; [done|by apply Hg].
  - intros Hst p x. destruct (K5 Hst) as (Hst' & _ & -> & _ & Hle). rewrite K2. intros Hp Hx.
    specialize (V6 Hst' p x Hp Hx). lia.
  - intros Hst p Hp. destruct (K5 Hst) as (Hst' & -> & _ & -> & _). rewrite K2 in Hp.
    destruct (V7 Hst' p Hp) as (m & Hm & Hack). exists m. split; [done|].
    destruct Hack as [|(k & ? & ?)]; [by left|right]. exists k. split; [done|by apply Hg].
Qed.

Lemma view_same a n s s' :
  node_view a n s -> keeps s s' -> abs_replica s' = abs_replica s -> node_view a n s'.
Proof.
  intros Hv Hk Hr. eapply node_view_keeps; [done|apply grows_refl|done|]. by rewrite Hr, (nv_replica _ _ _ Hv).
Qed.

(** ** The log without a snapshot *)
Lemma view_last a n s : node_view a n s -> core_wf s -> last_log_index s = len (log s).
Proof. intros Hv Hwf. rewrite last_log_index_eq by apply Hwf. destruct (nv_snapshot _ _ _ Hv). lia. Qed.

Lemma last_take (l : list LogEntry) k :
  (0 < k <= length l)%nat -> last (take k l) = l !! pred k.
Proof.
  intros Hk. rewrite last_lookup, length_take, Nat.min_l by lia. by rewrite lookup_take_lt by lia.
Qed.

Lemma view_term_at a n s k :
  node_view a n s -> core_wf s -> (k <= length (log s))%nat ->
  log_term_at s (Z.of_nat k) = Some (last_term (take k (log s))).
Proof.
  intros Hv Hwf Hk. destruct (nv_snapshot _ _ _ Hv) as [Hi Ht]. pose proof (wf_fits _ Hwf) as [_ Hfit].
  destruct k as [|k].
  - rewrite take_0. replace (Z.of_nat 0) with (last_included_index s) by lia.
    rewrite log_term_at_snapshot. by rewrite Ht.
  - rewrite log_term_at_above; [|apply Hwf|unfold len in *; lia].
    unfold last_term. rewrite last_take by lia. rewrite Hi.
    replace (Z.to_nat _) with (pred (S k)) by lia.
    by destruct (lookup_lt_is_Some_2 (log s) (pred (S k))) as [e ->]; [lia|].
Qed.

Lemma view_commit a n s :
  node_view a n s -> core_wf s -> 0 <= commit_index s <= len (log s).
Proof. intros Hv Hwf. destruct (nv_snapshot _ _ _ Hv) as [Hi _]. pose proof (wf_commit _ Hwf). lia. Qed.

(** ** What a leader sends *)
Lemma build_append a n s p :
  node_view a n s -> core_wf s -> p ∈ peers s -> (0 < length (log s))%nat ->
  (forall x, next_index s !! p = Some x -> 1 <= x <= len (log s) + 1) ->
  exists prev, (prev <= length (log s))%nat /\ build_append_entries_for_peer s p =
    Done (SendMessage p (AppendEntries (mkAppendEntriesRPC (current_term s) n (Z.of_nat prev)
      (last_term (take prev (log s))) (drop prev (log s)) (commit_index s)))).
Proof.
  intros Hv Hwf Hp Hpos Hnx. pose proof (view_last _ _ _ Hv Hwf) as Hl.
  destruct (nv_snapshot _ _ _ Hv) as [Hi _]. pose proof (wf_fits _ Hwf) as [_ Hfit].
  unfold build_append_entries_for_peer.
  set (nx := default (last_log_index s) (next_index s !! p)).
  assert (1 <= nx <= len (log s) + 1) as Hb.
  { unfold nx. destruct (next_index s !! p) as [x|]; [by apply Hnx|]. cbn. unfold len in *. lia. }
  clearbody nx. cbv zeta. destruct (Z.ltb_spec 0 nx); [|lia]. rewrite u64_sub_small by lia.
  exists (Z.to_nat (nx - 1)). split; [unfold len in *; lia|].
  replace (nx - 1) with (Z.of_nat (Z.to_nat (nx - 1))) at 1 by lia.
  rewrite (view_term_at a n) by (done || (unfold len in *; lia)).
  rewrite log_slice_suffix by (apply Hwf || lia). cbn [mbind exec_bind].
  rewrite (nv_id _ _ _ Hv), Hi. repeat f_equal; lia.
Qed.

Lemma mapM_exec_Forall {X Y} (f : X -> exec Y) (P : Y -> Prop) l k :
  (forall x y, x ∈ l -> f x = Done y -> P y) -> mapM f l = Done k -> Forall P k.
Proof.
  revert k. induction l as [|x l IH]; intros k Hf H; cbn in H; exec_inv; [done|].
  constructor; [eapply Hf; [left|done]|]. apply IH; [|done]. intros z y Hz. apply Hf. by right.
Qed.

Lemma peers_member a n s p : node_view a n s -> p ∈ peers s -> p ∈ all /\ n <> p.
Proof. intros Hv Hp. rewrite (nv_peers _ _ _ Hv) in Hp. apply list_elem_of_filter in Hp as [? ?]. auto. Qed.

(** The appends a leader builds are shown, once its log was announced. *)
Lemma append_shown a n s p x :
  node_view a n s -> core_wf s -> (0 < length (log s))%nat -> p ∈ peers s ->
  (forall x, next_index s !! p = Some x -> 1 <= x <= len (log s) + 1) ->
  leads a !! current_term s = Some n ->
  (current_term s, log s, Z.to_nat (commit_index s)) ∈ appends a ->
  build_append_entries_for_peer s p = Done x -> shows a n x.
Proof.
  intros Hv Hwf Hpos Hp Hnx Hlead Hin H.
  destruct (build_append a n s p Hv Hwf Hp Hpos Hnx) as (prev & Hprev & Heq).
  rewrite H in Heq. injection Heq as ->. destruct (peers_member _ _ _ _ Hv Hp).
  split; [|done]. cbn. split_and!; [done..|]. exists (log s), (Z.to_nat (commit_index s)), prev.
  split_and!; try done. cbn. destruct (view_commit _ _ _ Hv Hwf). lia.
Qed.

Lemma appends_shown a n s acts :
  node_view a n s -> core_wf s -> (0 < length (log s))%nat ->
  (forall p x, p ∈ peers s -> next_index s !! p = Some x -> 1 <= x <= len (log s) + 1) ->
  leads a !! current_term s = Some n ->
  (current_term s, log s, Z.to_nat (commit_index s)) ∈ appends a ->
  append_entries s = Done acts -> Forall (shows a n) acts.
Proof.
  intros Hv Hwf Hpos Hnx Hlead Hin H. eapply mapM_exec_Forall; [|exact H]. intros p x Hp Hx.
  eapply append_shown; eauto.
Qed.

(** A leader is the leader of its term, and of no later one. *)
Lemma leader_leads a n s :
  invariant all a -> node_view a n s -> state s = Leader -> leads a !! current_term s = Some n.
Proof.
  intros Hinv Hv Hst. pose proof (nv_replica _ _ _ Hv) as Hr.
  destruct (iv_leader _ _ Hinv n) as [Hl _]; [by rewrite Hr|]. by rewrite Hr in Hl.
Qed.

Lemma led_term a n s t : invariant all a -> node_view a n s -> leads a !! t = Some n -> t <= current_term s.
Proof.
  intros Hinv Hv Hl. destruct (iv_leads _ _ Hinv t) as [h Hh]; [by eexists|].
  destruct (iv_hist _ _ Hinv t h Hh) as (v & ? & ? & Hk). pose proof (tk_leads _ _ _ _ _ _ _ Hk).
  pose proof (tk_leader _ _ _ _ _ _ _ Hk) as Ht. simplify_eq. by rewrite (nv_replica _ _ _ Hv) in Ht.
Qed.

(** A leader announces its log, then sends it. *)
Lemma leader_log a n s : invariant all a -> node_view a n s -> state s = Leader -> (0 < length (log s))%nat.
Proof.
  intros Hinv Hv Hst. pose proof (nv_replica _ _ _ Hv) as Hr.
  destruct (iv_leader _ _ Hinv n) as [_ Hh]; [by rewrite Hr|].
  destruct (iv_hist _ _ Hinv _ _ Hh) as (? & ? & ? & [_ _ Hfirst _ _ _ _ _ _ _ _]).
  apply prefix_length in Hfirst. rewrite Hr, length_app in Hfirst. cbn in Hfirst. lia.
Qed.

Lemma leader_sends a n d s acts :
  simulates a n d s -> state s = Leader -> append_entries s = Done acts -> sim_result a n d acts s.
Proof.
  intros [Hinv Hv Hd Hwf] Hst Ha. pose proof (nv_replica _ _ _ Hv) as Hr.
  eapply sim_step; [done|apply spec_send; by rewrite Hr|done|]. intros Hinv' Hg.
  apply sim_shows; [done..| |].
  - apply (appends_shown _ n s); try done.
    + eapply node_view_keeps; [done|done|by split|done].
    + by apply (leader_log a n).
    + intros p x Hp Hx. by apply (nv_next _ _ _ Hv Hst p x).
    + by apply (leader_leads a n s).
    + cbn. rewrite Hr. left.
  - eapply node_view_keeps; [done|done|by split|done].
Qed.
End node.
