(* ===== verification/SimElection.v ===== *)
(** The election of a node as steps of its replica: the term check, the timer
    and the votes. *)

From stdpp Require Import functions.
From S2P Require Import Prelude Types RaftCore CoreLog CoreFrame CoreReplication CoreElection.
From S2P Require Import CoreInvariant CoreCommit CoreTotal ReplicationSafety CoreEffects Cluster.
From S2P Require Import RaftSpec RaftSpecSafety RaftSpecInv RaftSpecSteps Replicas Refinement NodeSim.
#[local] Open Scope Z_scope.

Section election.
Context (all : list NodeId).
Notation simulates := (simulates all).
Notation sim_result := (sim_result all).

(** A message of a later term. *)
Lemma check_sim a n d g s t s1 o :
  simulates a n d s -> check_msg_term g s t = Done (s1, o) -> sim_result a n d (default [] o) s1.
Proof.
  intros [Hinv Hv Hd Hwf] [(_ & -> & ->)|(Hlt & -> & to & ->)]%check_msg_term_Done.
  { by apply sim_shows. }
  pose proof (nv_replica _ _ _ _ Hv) as Hr. destruct Hd as (Hs & Hm & Hl).
  eapply sim_action; [done|apply (spec_new_term _ _ _ t); by rewrite Hr|..|intros Hinv' Hg].
  - by rewrite replica_set.
  - done.
  - apply sim_shows; [done|by rewrite replica_set|done|].
    eapply node_view_keeps; [done|done| |by rewrite replica_set, Hr]. by keeps_tac.
Qed.

Lemma checked_sim a n d g s t s1 o rest s' :
  simulates a n d s -> check_msg_term g s t = Done (s1, o) ->
  (forall b d', grows a b -> simulates b n d' s1 -> sim_result b n d' rest s') ->
  sim_result a n d (default [] o ++ rest) s'.
Proof.
  intros Hsim Hc Hrest. apply (sim_app all a n d _ s1); [apply Hsim|apply Hsim| |by eapply check_sim|auto].
  destruct (check_returns g s t (sm_wf _ _ _ _ _ Hsim)) as (? & ? & Hc' & Hwf1 & _).
  rewrite Hc in Hc'. by injection Hc' as <- <-.
Qed.

(** ** The timer *)
Lemma view_last_term a n s :
  node_view all a n s -> core_wf s -> last_log_term s = Done (last_term (log s)).
Proof.
  intros Hv Hwf. unfold last_log_term. rewrite (view_last _ _ _ _ Hv Hwf).
  unfold len. rewrite (view_term_at all a n) by done. by rewrite take_ge.
Qed.

Lemma heartbeat_sim a n d s s' acts :
  simulates a n d s -> state s = Leader -> heartbeat s = Done (s', acts) -> sim_result a n d acts s'.
Proof.
  intros Hsim Hst. unfold heartbeat. intros H. case_match; exec_inv; [|by apply sim_shows; try apply Hsim].
  destruct (leader_sends _ _ _ _ _ _ Hsim Hst Hx) as (b & Hb & Hv). exists b. split; [done|].
  eapply view_same; [done|by keeps_tac|done].
Qed.

Lemma timeout_sim a n d g s s' acts :
  simulates a n d s -> term_room s -> on_election_timeout g s = Done (s', acts) -> sim_result a n d acts s'.
Proof.
  intros Hsim Hroom. unfold on_election_timeout. intros H.
  case_match; [|exec_inv; by apply sim_shows; try apply Hsim].
  destruct Hsim as [Hinv Hv (Hs & Hm & Hl) Hwf].
  set (s1 := s <| current_term := _ |> <| state := _ |> <| current_leader := _ |>
               <| votes_received := _ |> <| voted_for := _ |> <| votes_received := _ |>) in H.
  apply exec_bind_Done in H as (s2 & [-> _]%reset_election_timeout_Done & H).
  apply exec_bind_Done in H as (lt & Hlt & H). injection H as <- <-.
  change (last_log_term s = Done lt) in Hlt. rewrite (view_last_term _ _ _ Hv Hwf) in Hlt.
  injection Hlt as <-. pose proof (nv_replica _ _ _ _ Hv) as Hr. pose proof (nv_id _ _ _ _ Hv) as Hid.
  assert (current_term s +! 1 = current_term s + 1) as Ht
    by (apply u64_add_small; pose proof (wf_term _ Hwf); unfold term_room in *; lia).
  eapply sim_action; [done|apply spec_timeout|..|intros Hinv' Hg].
  - cbn. rewrite fn_lookup_insert, Hr, Ht, Hid. split_and!; [done|done|]. by rewrite Hl, Hr.
  - done.
  - apply sim_shows; [done|..].
    + cbn. rewrite fn_lookup_insert, Hr, Ht, Hid. split_and!; [done|done|]. by rewrite Hl, Hr.
    + apply Forall_fmap, Forall_true. intros p. split; [|done]. cbn. exists (log s).
      rewrite Ht, Hid, Hr. split_and!; [left|exact (view_last all a n s Hv Hwf)|done].
    + split; cbn; try done.
      * apply Hv.
      * apply Hv.
      * apply Hv.
      * rewrite fn_lookup_insert, Hr. unfold abs_replica. cbn. by rewrite Ht, Hid.
      * intros _ v ->%elem_of_singleton. rewrite Hid, Ht, Hr. split; [apply Hv|left].
Qed.

Lemma tick_sim a n d g s s' acts :
  simulates a n d s -> term_room s -> tick g s = Done (s', acts) -> sim_result a n d acts s'.
Proof.
  intros Hsim Hroom H. unfold tick in H.
  set (s1 := s <| ticks_since_last_heartbeat := _ |>) in H. cbv zeta in H.
  assert (simulates a n d s1) as Hsim1.
  { destruct Hsim as [Hinv Hv Hd Hwf]. split; [done| |done|].
    - eapply view_same; [done|by keeps_tac|done].
    - eapply core_wf_same_data; [|exact Hwf]. same_data_tac. apply Hwf. }
  destruct (state s1) eqn:Hst; [by eapply heartbeat_sim|by eapply timeout_sim|by eapply timeout_sim].
Qed.

(** ** Votes *)
Lemma refuse_sim a n d s c :
  simulates a n d s -> sim_result a n d [vote_response s c false] s.
Proof. intros Hsim. apply sim_shows; try apply Hsim. by repeat constructor. Qed.

(** The check of the candidate's log. *)
Lemma recent_spec l index term k t i :
  index = len l -> term = last_term l -> t = last_term k -> i = len k ->
  (t <? term) || ((term =? t) && (i <=? index)) = true -> as_recent l k.
Proof.
  intros -> -> -> ->. rewrite orb_true_iff, andb_true_iff, Z.ltb_lt, Z.eqb_eq, Z.leb_le.
  unfold as_recent, len. lia.
Qed.

Lemma request_vote_sim a n d g s req s' acts :
  simulates a n d s -> msg_ok all a (n, RequestVote req) ->
  handle_request_vote g s req = Done (s', acts) -> sim_result a n d acts s'.
Proof.
  intros Hsim (l & Hreq & Hidx & Hterm). unfold handle_request_vote. intros H.
  apply exec_bind_Done in H as ([s1 o] & Hc & H).
  pose proof Hc as Hcases. apply check_msg_term_Done in Hcases.
  assert (rv_term req <= current_term s1) as Hge
    by (destruct Hcases as [(? & -> & _)|(? & _ & ? & ->)]; cbn; lia). clear Hcases.
  destruct (Z.ltb_spec (rv_term req) (current_term s1)) as [|Hge'].
  { injection H as <- <-. eapply checked_sim; [done..|]. intros. by apply refuse_sim. }
  apply exec_bind_Done in H as (lt & Hlt & H). cbv zeta in H.
  destruct (can_vote s1 _ && _) eqn:Hvote; exec_inv.
  2: { eapply checked_sim; [done..|]. intros. by apply refuse_sim. }
  apply andb_true_iff in Hvote as [Hcan Hlog]. apply reset_election_timeout_Done in Hx as [-> _].
  eapply checked_sim; [done..|]. intros b d' Hg [Hinv Hv (Hs & Hm & Hl) Hwf].
  rewrite (view_last_term _ _ _ Hv Hwf) in Hlt. injection Hlt as <-.
  pose proof (nv_replica _ _ _ _ Hv) as Hr. pose proof (nv_id _ _ _ _ Hv) as Hid.
  eapply sim_action; [done|apply (spec_grant _ _ _ (rv_candidate_id req) l)|..|intros Hinv' Hg'].
  - rewrite Hr. cbn. apply Hg. by replace (current_term s1) with (rv_term req) by lia.
  - rewrite Hr. cbn. unfold can_vote in Hcan. destruct (voted_for s1); [|by left].
    apply Z.eqb_eq in Hcan as ->. by right.
  - rewrite Hr. cbn. eapply recent_spec; [done..| |exact Hlog]. by apply (view_last all b n).
  - cbn. rewrite fn_lookup_insert, Hr. split_and!; [done..|]. by rewrite Hl, Hr.
  - done.
  - apply sim_shows; [done|..].
    + cbn. rewrite fn_lookup_insert, Hr. split_and!; [done..|]. by rewrite Hl, Hr.
    + apply Forall_singleton. split; [|done]. intros _. cbn. rewrite Hid, Hr. split; [apply Hv|left].
    + eapply node_view_keeps; [done|done|by keeps_tac|]. cbn. by rewrite fn_lookup_insert, Hr.
Qed.

(** ** Winning an election *)
Lemma peers_count a n s :
  NoDup all -> node_view all a n s -> len (peers s) + 1 = len all.
Proof.
  intros Hnd Hv. rewrite (nv_peers _ _ _ _ Hv). unfold len.
  rewrite (peers_length n all) by first [done|apply Hv]. lia.
Qed.

(** The node has just become leader of its term, with the initial bookkeeping. *)
Definition new_leader (s : RaftCore) (ni mi : gmap Z Z) : RaftCore :=
  s <| state := Leader |> <| current_leader := Some (id s) |>
    <| log := log s ++ [mkLogEntry (current_term s) []] |>
    <| next_index := ni |> <| match_index := mi |>.

Lemma elect_sim a n d s ni mi appends :
  NoDup all -> len all < U64 -> simulates a n d s -> state s = Candidate ->
  (len (peers s) +! 1) / 2 < Z.of_nat (size (votes_received s)) ->
  (forall q, ni !! q = if decide (q ∈ peers s) then Some (len (log s) + 2) else next_index s !! q) ->
  (forall q, mi !! q = if decide (q ∈ peers s) then Some 0 else None) ->
  let s' := new_leader s ni mi in
  core_wf s' -> append_entries s' = Done appends ->
  sim_result a n d (PersistLogEntries (len (log s) + 1) [mkLogEntry (current_term s) []] :: appends) s'.
Proof.
  intros Hnd Hsize [Hinv Hv (Hs & Hm & Hl) Hwf] Hst Hmaj Hni Hmi s' Hwf' Ha.
  pose proof (nv_replica _ _ _ _ Hv) as Hr. pose proof (peers_count _ _ _ Hnd Hv) as Hlen.
  rewrite u64_add_small, Hlen in Hmaj by len_lia.
  assert (forall a', grows a a' -> replica a' n = abs_replica s' -> node_view all a' n s') as Hview.
  { intros a' Hg Hr'. split; cbn; try apply Hv; try done.
    - intros _ p x Hp. rewrite Hni, decide_True by done. intros [= <-]. len_lia.
    - intros _ p Hp. exists 0. rewrite Hmi, decide_True by done. auto. }
  change (?x :: appends) with ([x] ++ appends).
  eapply (sim_app _ _ _ _ _ s'); [done|done|done| |intros b Hg Hsim; by apply leader_sends].
  eapply sim_action; [done|apply (spec_elect _ _ _ (votes_received s))|..].
  - by rewrite Hr.
  - split; [|done]. intros v Hvr. by apply (nv_votes _ _ _ _ Hv Hst v).
  - intros v Hvr. rewrite Hr. by apply (nv_votes _ _ _ _ Hv Hst v).
  - cbn. rewrite fn_lookup_insert, Hr. split_and!; [done|rewrite Hr in Hm; exact Hm|].
    rewrite Hs, Hl, Hr. cbn. unfold write_entries. rewrite take_ge; [done|unfold len; lia].
  - done.
  - intros Hinv' Hg. eexists. split; [constructor|]. apply Hview; [done|].
    cbn. by rewrite fn_lookup_insert, Hr.
Qed.

Lemma vote_recorded a n d s v to :
  simulates a n d s -> state s = Candidate -> v ∈ all -> (v, current_term s, n) ∈ votes a ->
  simulates a n d (s <| votes_received := {[v]} ∪ votes_received s |> <| ticks_since_last_heartbeat := 0 |>
                     <| election_timeout := to |>)
  /\ node_view all a n (s <| votes_received := {[v]} ∪ votes_received s |>).
Proof.
  intros [Hinv Hv Hd Hwf] Hst Hin Hvote.
  assert (forall s', votes_received s' = {[v]} ∪ votes_received s -> state s' = Candidate ->
    keeps s (s' <| votes_received := votes_received s |>) -> abs_replica s' = abs_replica s ->
    node_view all a n s') as Hview.
  { intros s' Hvr Hst' [K1 K2 [K3 K3'] K4 K5] Hr. cbn in *.
    destruct Hv as [V1 V0 V2 [V3 V3'] V4 V5 V6 V7].
    split; [congruence|done|congruence|split; congruence|congruence| |congruence|congruence].
    rewrite Hvr. destruct (K4 Hst') as (_ & -> & _).
    intros _ u [->%elem_of_singleton|Hu]%elem_of_union; [done|by apply V5]. }
  split; [|by apply Hview; try done; split].
  split; [done| |done|].
  - by apply Hview; try done; split.
  - eapply core_wf_same_data; [|exact Hwf]. same_data_tac. apply Hwf.
Qed.

Lemma vote_response_sim a n d g s resp s' acts :
  NoDup all -> len all < U64 ->
  simulates a n d s -> room s 1 -> msg_ok all a (n, RequestVoteResponse resp) ->
  guarded s (RequestVoteResponse resp) ->
  handle_request_vote_response g s resp = Done (s', acts) -> sim_result a n d acts s'.
Proof.
  intros Hnd Hsize Hsim Hroom Hmsg Hguard H.
  pose proof (vote_response_wf g s resp (sm_wf _ _ _ _ _ Hsim) Hroom) as Hwf'. rewrite H in Hwf'.
  cbn in Hmsg, Hguard, Hwf'. unfold handle_request_vote_response in H.
  apply exec_bind_Done in H as ([s1 o] & Hc & H).
  case_bool_decide as Hcand; [injection H as <- <-; by eapply check_sim|].
  apply check_msg_term_Done in Hc as [(Hle & -> & ->)|(_ & _ & to & ->)]; [|done].
  destruct (rvr_vote_granted resp); [|injection H as <- <-; by apply sim_shows; try apply Hsim].
  destruct Hmsg as [Hin Hvote]; [done|]. replace (rvr_term resp) with (current_term s) in Hvote by lia.
  cbv zeta in H. case_match eqn:Hmaj; [apply Z.ltb_lt in Hmaj|].
  2: { injection H as <- <-. apply sim_shows; try apply Hsim; [done|].
       by apply (vote_recorded a n d s _ 0). }
  set (s2 := s <| votes_received := _ |>) in H.
  set (s3 := s2 <| state := Leader |> <| current_leader := _ |>) in H.
  destruct (initialize_leader_returns s3) as (ni & mi & Heq & Hni & Hmi); [apply Hsim|done|apply Hsim|].
  rewrite Heq in H. cbn [mbind exec_bind] in H. cbv zeta in Hni.
  apply exec_bind_Done in H as (s5 & [-> _]%reset_election_timeout_Done & H).
  apply exec_bind_Done in H as (appends & Ha & H). injection H as <- <-.
  destruct (nv_snapshot _ _ _ _ (sm_view _ _ _ _ _ Hsim)) as [Hi _].
  pose proof Hroom as Hroom'. unfold room in Hroom'. rewrite Hi in Hroom'.
  assert (last_log_index (s3 <| log := log s3 ++ [mkLogEntry (current_term s3) []] |>
    <| next_index := ni |> <| match_index := mi |>) = len (log s) + 1) as Hlast.
  { unfold last_log_index. cbn. rewrite Hi. autorewrite with len. rewrite u64_add_small; len_lia. }
  rewrite Hlast in Hni. change (log s3) with (log s) in Hlast. change (current_term s3) with (current_term s) in Hlast.
  rewrite Hlast. set (s4 := s2 <| ticks_since_last_heartbeat := 0 |> <| election_timeout :=
    g 1%nat (election_timeout_range s).1 (election_timeout_range s).2 |>).
  apply (elect_sim a n d s4 ni mi appends Hnd Hsize); try done.
  - by apply vote_recorded.
  - intros q. rewrite Hni. rewrite u64_add_small by len_lia.
    by replace (len (log s) + 1 + 1) with (len (log s) + 2) by lia.
Qed.
End election.
