(* ===== verification/SimReplication.v ===== *)
(** Replication as steps of the replica: proposals, appends and their
    responses. *)

From stdpp Require Import functions.
From S2P Require Import Prelude Types RaftCore CoreLog CoreFrame CoreReplication CoreElection.
From S2P Require Import CoreInvariant CoreCommit CoreTotal ReplicationSafety CoreEffects Cluster.
From S2P Require Import RaftSpec RaftSpecSafety RaftSpecInv RaftSpecSteps Replicas Refinement NodeSim.
From S2P Require Import SimElection.
#[local] Open Scope Z_scope.

Section replication.
Context (all : list NodeId).
Notation simulates := (simulates all).
Notation sim_result := (sim_result all).

(** ** The leader *)
Lemma propose_sim a n d s cmd s' o :
  simulates a n d s -> room s 1 -> propose s cmd = Done (s', o) -> sim_result a n d (default [] o) s'.
Proof.
  intros Hsim Hroom H. pose proof (propose_wf s cmd (sm_wf _ _ _ _ _ Hsim) Hroom) as Hwf'.
  rewrite H in Hwf'. cbn in Hwf'. destruct Hsim as [Hinv Hv (Hs & Hm & Hl) Hwf].
  apply propose_Done in H as [(_ & -> & ->)|(Hst & -> & entries & appends & Ha & Hsl & ->)].
  { by apply sim_shows. }
  pose proof (nv_replica _ _ _ _ Hv) as Hr. destruct (nv_snapshot _ _ _ _ Hv) as [Hi _].
  set (s' := s <| log := _ |> <| ticks_since_last_heartbeat := 0 |>) in *.
  assert (entries = [mkLogEntry (current_term s) cmd]) as ->.
  { pose proof (log_slice_pushed s (mkLogEntry (current_term s) cmd) (wf_fits _ Hwf')) as Hp.
    cbv zeta in Hp. change (log_slice (s <| log := _ |>)) with (log_slice s') in Hp.
    change (last_log_index (s <| log := _ |>)) with (last_log_index s') in Hp. congruence. }
  assert (last_log_index s' = len (log s) + 1) as ->
    by (rewrite last_log_index_eq by apply Hwf'; cbn; rewrite Hi; len_lia).
  cbn [default]. change (?x :: appends) with ([x] ++ appends).
  eapply (sim_app _ _ _ _ _ s'); [done|done|done| |intros b Hg Hsim; by apply leader_sends].
  eapply sim_action; [done|apply (spec_propose _ _ _ cmd); by rewrite Hr|..|intros Hinv' Hg].
  - cbn. rewrite fn_lookup_insert, Hr. split_and!; [done|rewrite Hr in Hm; exact Hm|].
    rewrite Hs, Hl, Hr. cbn. unfold write_entries. rewrite take_ge; [done|unfold len; lia].
  - done.
  - eexists. split; [constructor|]. eapply node_view_keeps; [done|done| |cbn; by rewrite fn_lookup_insert, Hr].
    split; cbn; try done. intros. split_and!; try done. len_lia.
Qed.

Lemma reject_response_sim a n d g s resp s' acts :
  simulates a n d s -> msg_ok all a (n, AppendEntriesResponse resp) ->
  guarded s (AppendEntriesResponse resp) -> aer_success resp = false ->
  handle_append_entries_response g s resp = Done (s', acts) -> sim_result a n d acts s'.
Proof.
  intros [Hinv Hv Hd Hwf] (Hin & Hne & Hmsg) (Hst & Hterm & Hhint) Hf H. cbn in Hin, Hne. rewrite Hf in Hmsg.
  destruct (aer_first_conflicting_index resp) as [k|] eqn:Hk; [|by destruct (Hhint Hf)].
  destruct (Hmsg k eq_refl) as (Hl & Hk1 & h & Hh & Hkh). apply (led_term all a n s _ Hinv Hv) in Hl.
  assert (aer_term resp = current_term s) as Heq by lia. rewrite Heq in Hh.
  pose proof (nv_replica _ _ _ _ Hv) as Hr. destruct (iv_leader _ _ Hinv n) as [_ Hlog]; [by rewrite Hr|].
  rewrite Hr in Hlog. cbn in Hlog. rewrite Hlog in Hh. injection Hh as <-.
  unfold handle_append_entries_response in H. apply exec_bind_Done in H as ([s1 o] & Hc & H).
  apply check_msg_term_Done in Hc as [(_ & -> & ->)|(? & _)]; [|lia]. rewrite Hf, Hk in H.
  apply exec_bind_Done in H as (x & Hx & H). injection H as <- <-. cbn [default app].
  set (s1 := s <| next_index := _ |>) in *.
  assert (aer_id resp ∈ peers s) as Hp.
  { rewrite (nv_peers _ _ _ _ Hv). apply list_elem_of_filter. auto. }
  assert (forall b, grows a b -> replica b n = replica a n -> node_view all b n s1) as Hview.
  { intros b Hg Hrb. destruct (node_view_keeps all a b n s s Hv Hg) as [V1 V0 V2 V3 V4 V5 V6 V7];
      [by split|congruence|]. split; try done.
    intros _ q v Hq. cbn. rewrite lookup_alter_Some. intros [(_ & ? & _ & ->)|[_ Hv']]; [lia|].
    by apply (V6 Hst q v). }
  eapply sim_step; [done|apply spec_send; by rewrite Hr|done|]. intros Hinv' Hg.
  apply sim_shows; [done|done| |by apply Hview]. apply Forall_singleton.
  assert (core_wf s1) as Hwf1.
  { destruct Hwf as [W1 W2 W3 W4 W5 W6 W7 W8]. split; try done.
    intros q v. cbn. rewrite lookup_alter_Some. intros [(_ & ? & _ & ->)|[_ Hv']]; [|by apply (W6 q v)].
    destruct W1 as [? ?]. unfold is_u64. len_lia. }
  eapply (append_shown all _ n s1); [by apply Hview|done|exact (leader_log all a n s Hinv Hv Hst)|done| |exact (leader_leads all a n s Hinv Hv Hst)|cbn; rewrite Hr; left|done].
  intros v Hvx. by apply (nv_next _ _ _ _ (Hview a (grows_refl a) eq_refl) Hst (aer_id resp) v Hp).
Qed.

(** ** Applying *)
Lemma newly_shown b n s s' :
  last_included_index s = 0 -> 0 <= commit_index s <= commit_index s' -> commit_index s' <= len (log s') ->
  len (log s') + 2 < U64 ->
  (forall x, x ∈ indexed (log s') (Z.to_nat (commit_index s)) (Z.to_nat (commit_index s')) ->
     x ∈ applied b) ->
  Forall (shows all b n) (apply_actions (commit_index s) (newly_committed s s')).
Proof.
  intros Hi Hc Hc' Hfit Hin. apply Forall_forall. intros x Hx. unfold apply_actions in Hx.
  apply list_elem_of_lookup in Hx as (k & Hk). rewrite list_lookup_imap in Hk.
  apply fmap_Some in Hk as (e & He & ->). unfold newly_committed in He.
  apply lookup_take_Some in He as [He Hlt]. rewrite lookup_drop in He.
  split; [|done]. exists (Z.to_nat (commit_index s) + 1 + k)%nat, e. split_and!; [| |done].
  - unfold len in *. rewrite (u64_add_small (Z.of_nat k)) by lia. rewrite u64_add_small by lia. cbn. lia.
  - apply Hin, elem_of_indexed. split; [lia|]. rewrite <- He. f_equal. lia.
Qed.

Lemma barriers_shown b n ready : Forall (shows all b n) (ReadBarrierReady <$> ready).
Proof. by apply Forall_fmap, Forall_true. Qed.

(** ** Successful responses *)
Lemma leader_match a n s :
  node_view all a n s -> core_wf s -> state s = Leader -> dom (match_index s) = list_to_set (peers s).
Proof.
  intros Hv Hwf Hst. apply set_eq. intros q. rewrite elem_of_dom, elem_of_list_to_set. split.
  - intros [m Hm]. by eapply (wf_match_dom _ Hwf).
  - intros Hq. destruct (nv_match _ _ _ _ Hv Hst q Hq) as (m & -> & _). by eexists.
Qed.

Lemma peers_nodup a n s : NoDup all -> node_view all a n s -> NoDup (id s :: peers s).
Proof.
  intros Hnd Hv. rewrite (nv_id _ _ _ _ Hv), (nv_peers _ _ _ _ Hv). constructor.
  - rewrite list_elem_of_filter. naive_solver.
  - by apply NoDup_filter.
Qed.

Lemma member_peers a n s v : node_view all a n s -> v ∈ all <-> v ∈ id s :: peers s.
Proof.
  intros Hv. pose proof (nv_member _ _ _ _ Hv).
  rewrite (nv_id _ _ _ _ Hv), (nv_peers _ _ _ _ Hv), elem_of_cons, list_elem_of_filter.
  destruct (decide (v = n)); naive_solver.
Qed.

(** What the leader takes from a response that reached it. *)
Lemma success_ok a n s resp :
  invariant all a -> node_view all a n s -> core_wf s -> msg_ok all a (n, AppendEntriesResponse resp) ->
  guarded s (AppendEntriesResponse resp) -> aer_success resp = true ->
  append_response_ok s resp /\ exists m, aer_match_index resp = Z.of_nat m
    /\ (aer_id resp, current_term s, m) ∈ acks a /\ (m <= length (log s))%nat.
Proof.
  intros Hinv Hv Hwf (Hin & Hne & Hmsg) (Hst & Hterm & _) Hs. cbn in Hin, Hne.
  unfold append_response_ok. rewrite Hs in *. destruct Hmsg as (Hl & m & Hm & Hack).
  apply (led_term all a n s _ Hinv Hv) in Hl. assert (aer_term resp = current_term s) as Heq by lia.
  rewrite Heq in Hack. destruct (iv_ack _ _ Hinv _ _ _ Hack) as (_ & h & Hh & Hmh).
  pose proof (nv_replica _ _ _ _ Hv) as Hr. destruct (iv_leader _ _ Hinv n) as [_ Hlog]; [by rewrite Hr|].
  rewrite Hr in Hlog. cbn in Hlog. rewrite Hlog in Hh. injection Hh as <-.
  split; [|by exists m]. rewrite (view_last _ _ _ _ Hv Hwf). unfold len. split_and!; [done|lia| |lia|lia].
  rewrite (nv_peers _ _ _ _ Hv). apply list_elem_of_filter. auto.
Qed.

Lemma holders_acked a n s v c :
  node_view all a n s -> state s = Leader -> 0 < c -> v ∈ holders s c ->
  (forall q m, match_index s !! q = Some m -> q ∈ peers s) ->
  v = n \/ exists m, (Z.to_nat c <= m)%nat /\ (v, current_term s, m) ∈ acks a.
Proof.
  unfold holders. intros Hv Hst Hc [->%elem_of_singleton|Hd]%elem_of_union Hdom; [left; apply Hv|right].
  apply elem_of_dom in Hd as [m [Hm Hle]%map_lookup_filter_Some]. cbn in Hle.
  destruct (nv_match _ _ _ _ Hv Hst v) as (m' & Hm' & Hack); [by eapply Hdom|].
  rewrite Hm in Hm'. injection Hm' as <-. destruct Hack as [->|(k & -> & Hack)]; [lia|].
  exists k. split; [lia|done].
Qed.

Lemma recorded_view a b n s resp m s' :
  node_view all a n s -> core_wf s -> state s = Leader -> grows a b -> replica b n = abs_replica s' ->
  aer_match_index resp = Z.of_nat m -> (aer_id resp, current_term s, m) ∈ acks a -> (m <= length (log s))%nat ->
  keeps (record_match s resp) s' -> len (log s') = len (log s) -> node_view all b n s'.
Proof.
  intros Hv Hwf Hst Hg Hr Hm Hack Hlen [K1 K2 [K3 K3'] K4 K5] Hl.
  destruct Hv as [V1 V0 V2 [V3 V3'] V4 V5 V6 V7]. cbn in *. pose proof (wf_fits _ Hwf) as [_ Hfit].
  split; [congruence|done|congruence|split; congruence|done| |..].
  - intros Hc. destruct (K4 Hc). congruence.
  - intros Hst' p x Hp. destruct (K5 Hst') as (_ & _ & -> & _). rewrite Hl, K2 in *.
    intros [[_ <-]|[_ Hx]]%lookup_insert_Some; [|by apply (V6 Hst p x)].
    rewrite Hm. unfold len in *. rewrite u64_add_small by lia. lia.
  - intros Hst' p Hp. destruct (K5 Hst') as (_ & -> & _ & -> & _). rewrite K2 in Hp.
    destruct (decide (p = aer_id resp)) as [->|Hne].
    + exists (Z.of_nat m). rewrite lookup_insert_eq, Hm. split; [done|]. right. exists m.
      split; [done|by apply Hg].
    + rewrite lookup_insert_ne by done. destruct (V7 Hst p Hp) as (m' & Hm' & Hk). exists m'. split; [done|].
      destruct Hk as [|(k & ? & ?)]; [by left|right]. exists k. split; [done|by apply Hg].
Qed.

Lemma success_response_sim a n d g s resp s' acts :
  NoDup all ->
  simulates a n d s -> msg_ok all a (n, AppendEntriesResponse resp) ->
  guarded s (AppendEntriesResponse resp) -> aer_success resp = true ->
  handle_append_entries_response g s resp = Done (s', acts) -> sim_result a n d acts s'.
Proof.
  intros Hnd [Hinv Hv Hd Hwf] Hmsg Hguard Hs H. pose proof Hguard as (Hst & Hterm & _).
  destruct (success_ok a n s resp Hinv Hv Hwf Hmsg Hguard Hs) as (Hok & m & Hm & Hack & Hml).
  destruct (commit_rule g s resp Hwf Hok Hs) as (c & rb & ready & Heq & Hc & Hq & _);
    [by eapply peers_nodup|by eapply leader_match|]. cbv zeta in Heq, Hq.
  rewrite H in Heq. injection Heq as -> ->. rewrite (view_last _ _ _ _ Hv Hwf) in Hc.
  pose proof (nv_replica _ _ _ _ Hv) as Hr. destruct (nv_snapshot _ _ _ _ Hv) as [Hi _].
  pose proof (view_commit _ _ _ _ Hv Hwf) as Hcb. pose proof (wf_fits _ Hwf) as [_ Hfit]. rewrite Hi in Hfit.
  set (s1 := record_match s resp) in *.
  assert (forall b, grows a b -> replica b n = abs_replica (s <| commit_index := c |>) ->
    node_view all b n (s1 <| commit_index := c |> <| last_applied := c |> <| read_barriers := rb |>)) as Hview.
  { intros b Hg Hrb. eapply (recorded_view a b n s resp m); try done. }
  destruct (Z.eq_dec c (commit_index s)) as [->|Hmoves].
  { apply sim_shows; [done|done| |apply Hview; [apply grows_refl|done]].
    unfold newly_committed. cbn. rewrite Z.sub_diag. apply barriers_shown. }
  destruct (Hq ltac:(lia)) as [Ht HQ].
  eapply sim_step; [done|apply (spec_leader_commit _ _ _ (Z.to_nat c))|..|intros Hinv' Hg].
  - by rewrite Hr.
  - rewrite Hr. cbn. lia.
  - rewrite Hr. cbn. rewrite log_term_at_above in Ht by (first [apply Hwf|lia]). rewrite <- Ht.
    do 2 f_equal. lia.
  - lia.
  - intros Q [HQin HQsize]. rewrite Hr. cbn.
    destruct (HQ Q) as (v & HvQ & Hvh).
    + intros v Hin. apply (member_peers a n s v Hv). auto.
    + rewrite len_cons, Z.add_comm, (peers_count _ _ _ _ Hnd Hv). done.
    + exists v. split; [done|]. eapply (holders_acked a n s1 v c); try done; [|lia|].
      * eapply (recorded_view a a n s resp m); try done.
      * cbn. intros q m' [[<- _]|[_ Hm']]%lookup_insert_Some; [|by eapply (wf_match_dom _ Hwf)].
        unfold append_response_ok in Hok. rewrite Hs in Hok. apply Hok.
  - cbn. by rewrite fn_lookup_insert.
  - apply sim_shows; [done|cbn; by rewrite fn_lookup_insert| |apply Hview; [done|]].
    + apply Forall_app. split; [|apply barriers_shown].
      apply newly_shown; cbn; try done; try lia. rewrite Hr. cbn. intros x Hx. apply elem_of_app. by left.
    + cbn. by rewrite fn_lookup_insert, Hr.
Qed.
End replication.
