(* ===== verification/SimAppend.v ===== *)
(** A follower takes the leader's entries as a step of its replica. *)

From stdpp Require Import functions.
From S2P Require Import Prelude Types RaftCore CoreLog CoreFrame CoreReplication CoreElection.
From S2P Require Import CoreInvariant CoreCommit CoreTotal ReplicationSafety CoreEffects Cluster.
From S2P Require Import RaftSpec RaftSpecSafety RaftSpecInv RaftSpecSteps Replicas Refinement NodeSim.
From S2P Require Import SimElection SimReplication.
#[local] Open Scope Z_scope.

Section append.
Context (all : list NodeId).
Notation simulates := (simulates all).
Notation sim_result := (sim_result all).

(** ** The leader's log and the follower's *)
Section logs.
Context (a : World) (n : NodeId) (s : RaftCore) (req : AppendEntriesRPC).
Context (l : list LogEntry) (c prev : nat).
Context (Hinv : invariant all a) (Hv : node_view all a n s) (Hwf : core_wf s).
Context (Hin : (ae_term req, l, c) ∈ appends a).
Context (Hprev : ae_prev_log_index req = Z.of_nat prev) (Hple : (prev <= length l)%nat).
Context (Hpt : ae_prev_log_term req = last_term (take prev l)).
Context (Hent : ae_entries req = drop prev l) (Hlc : ae_leader_commit req = Z.of_nat c).

Lemma leader_log_ok : log_ok (hist a) (ae_term req) l.
Proof.
  destruct (iv_append _ _ Hinv _ _ _ Hin) as (h & b & Hh & _ & Hp & _).
  destruct (iv_hist _ _ Hinv _ _ Hh) as (? & ? & ? & [_ _ _ _ _ Hok _ _ _ _ _]).
  by eapply log_ok_prefix.
Qed.

Lemma follower_log_ok : log_ok (hist a) (current_term s) (log s).
Proof. pose proof (iv_log _ _ Hinv n) as H. by rewrite (nv_replica _ _ _ _ Hv) in H. Qed.

(** What the follower has committed is in the leader's log, as far as that goes. *)
Lemma committed_sent i e :
  current_term s <= ae_term req -> (i < Z.to_nat (commit_index s))%nat -> l !! i = Some e ->
  log s !! i = Some e.
Proof.
  intros Ht Hi He. destruct (iv_node_commit _ _ Hinv n) as [_ Hc].
  rewrite (nv_replica _ _ _ _ Hv) in Hc. cbn in Hc.
  destruct (iv_append _ _ Hinv _ _ _ Hin) as (h & b & Hh & Hb & Hp & Hlen & _).
  destruct (iv_hist _ _ Hinv _ _ Hh) as (? & b' & ? & [_ Hb' Hfirst _ _ _ _ _ _ _ _]). simplify_eq.
  apply (commit_prefix_mono _ _ _ (ae_term req) _ (grows_refl a)) in Hc; [|done].
  destruct (decide (l `prefix_of` take (Z.to_nat (commit_index s)) (log s))) as [Hpre|Hnot].
  - eapply prefix_lookup_Some, lookup_take_Some in Hpre as [? _]; done.
  - assert (take (Z.to_nat (commit_index s)) (log s) `prefix_of` l) as Hpre.
    { eapply commit_prefix_kept; [done|done|done|done| |done|by right].
      apply (prefix_comparable _ _ h); [|done|lia]. etrans; [by eexists|done]. }
    destruct (log s !! i) as [e'|] eqn:He'.
    + rewrite <- He. symmetry. eapply prefix_lookup_Some; [|exact Hpre].
      apply lookup_take_Some. done.
    + apply lookup_ge_None in He'. destruct (view_commit _ _ _ _ Hv Hwf). unfold len in *. lia.
Qed.

Lemma prev_matches :
  prev_log_valid s req = true -> (prev <= length (log s))%nat /\ take prev (log s) = take prev l.
Proof.
  unfold prev_log_valid. rewrite Hprev, (view_last _ _ _ _ Hv Hwf). unfold len.
  intros [H0%Z.eqb_eq|[Hle%Z.leb_le Ht%bool_decide_eq_true]%andb_true_iff]%orb_true_iff.
  { assert (prev = 0%nat) as -> by lia. split; [lia|done]. }
  split; [lia|]. destruct prev as [|k] eqn:Hk; [done|].
  rewrite (view_term_at all a n) in Ht by (done || lia). rewrite Hpt in Ht. injection Ht as Ht.
  unfold last_term in Ht. rewrite !last_take in Ht by lia. cbn in Ht.
  destruct (lookup_lt_is_Some_2 (log s) k ltac:(lia)) as [o Ho].
  destruct (lookup_lt_is_Some_2 l k ltac:(lia)) as [e He]. rewrite Ho, He in Ht.
  eapply (traced_match (hist a)); [apply follower_log_ok|apply leader_log_ok|done..].
Qed.

Lemma merged_eq :
  prev_log_valid s req = true ->
  merged_log s req = if decide (l `prefix_of` log s) then log s else l.
Proof.
  intros [Hle Htake]%prev_matches. unfold merged_log. destruct (nv_snapshot _ _ _ _ Hv) as [-> _].
  rewrite Hprev, Z.sub_0_r, Nat2Z.id, Hent, merge_entries_whole.
  - destruct (decide (l `prefix_of` log s)) as [[k Hk]|Hn].
    + rewrite decide_True; [apply take_drop|]. rewrite Hk, drop_app_le by done. by eexists.
    + rewrite decide_False; [by rewrite Htake, take_drop|]. intros [k Hk]. destruct Hn. exists k.
      rewrite <- (take_drop prev (log s)), Hk, Htake, app_assoc. by rewrite take_drop.
  - intros j o e Ho He Ht. rewrite lookup_drop in Ho, He.
    assert (take (S (prev + j)) (log s) = take (S (prev + j)) l) as Heq.
    { eapply (traced_match (hist a)); [apply follower_log_ok|apply leader_log_ok|done..]. }
    apply (f_equal (fun k => k !! (prev + j)%nat)) in Heq.
    rewrite !lookup_take_lt in Heq by lia. congruence.
Qed.

Lemma append_request_ok : within_bounds s (InMessage (AppendEntries req)) -> append_ok s req.
Proof.
  intros (_ & Hroom & Hend). unfold append_ok. destruct (nv_snapshot _ _ _ _ Hv) as [Hi _].
  destruct (iv_append _ _ Hinv _ _ _ Hin) as (h & b & Hh & Hb & Hp & Hlen & Hcl & _).
  split_and!; try done; try lia.
  - rewrite Hlc. unfold is_u64. rewrite Hent, Hprev in Hend. unfold len in Hend.
    rewrite length_drop in Hend. lia.
  - intros [Hta Hval]. split; [lia|]. intros j e He Hj. rewrite Hent, lookup_drop in He.
    destruct (view_commit _ _ _ _ Hv Hwf). pose proof (wf_fits _ Hwf) as [_ ?].
    rewrite Hprev in Hj |- *. rewrite log_term_at_above by (apply Hwf || lia).
    rewrite Hi. replace (Z.to_nat _) with (prev + j)%nat by lia.
    rewrite (committed_sent _ e); [done|destruct Hta as [|[? _]]; lia|lia|done].
Qed.
End logs.

(** ** Following the leader *)

(** The replica of [s] once it follows the leader of term [t]. *)
Definition followed (s : RaftCore) (t : Z) : Replica :=
  mkReplica t (stepped_meta s t).2 (log s) Follower (Z.to_nat (commit_index s)).

Lemma follow_sim a n d s req rest s' :
  simulates a n d s -> term_accepted s req ->
  (forall b d', grows a b -> invariant all b -> replica b n = followed s (ae_term req) ->
     disk_rel d' (replica b n) -> sim_result b n d' rest s') ->
  sim_result a n d (step_down_write s (ae_term req) ++ rest) s'.
Proof.
  intros [Hinv Hv (Hs & Hm & Hl) Hwf] Hacc Hrest. pose proof (nv_replica _ _ _ _ Hv) as Hr.
  unfold followed, step_down_write, stepped_meta in *.
  destruct (Z.ltb_spec (current_term s) (ae_term req)) as [Hlt|Hge]; cbn [app].
  - assert (disk_rel (disk_exec d (PersistMetadata (ae_term req) None)) (replica (set a n (replica a n
      <| r_term := ae_term req |> <| r_vote := None |> <| r_role := Follower |>)) n)) as Hd'
      by (by rewrite replica_set).
    eapply sim_action; [done|apply (spec_new_term _ _ _ (ae_term req)); by rewrite Hr|done|done|].
    intros Hinv' Hg. apply Hrest; [done..| |done]. by rewrite replica_set, Hr.
  - destruct Hacc as [?|[Heq _]]; [lia|].
    assert (disk_rel d (replica (set a n (replica a n <| r_role := Follower |>)) n)) as Hd'
      by (by rewrite replica_set).
    eapply sim_step; [done|apply spec_demote|done|]. intros Hinv' Hg.
    apply Hrest; [done..| |done]. by rewrite replica_set, Hr, Heq.
Qed.

Lemma follower_view a b n s s' :
  node_view all a n s -> grows a b -> id s' = id s -> peers s' = peers s ->
  last_included_index s' = last_included_index s -> last_included_term s' = last_included_term s ->
  state s' = Follower -> replica b n = abs_replica s' -> node_view all b n s'.
Proof.
  intros Hv Hg K1 K2 K3 K4 Hst Hr. eapply node_view_keeps; [done|done| |done]. split; congruence || done.
Qed.

(** The entries on disk, or none to write. *)
Lemma write_sim b n d s req l c prev rest s' :
  invariant all b -> replica b n = followed s (ae_term req) -> disk_rel d (replica b n) ->
  last_included_index s = 0 -> (ae_term req, l, c) ∈ appends b ->
  ae_prev_log_index req = Z.of_nat prev -> ae_entries req = drop prev l ->
  (prev <= length (log s))%nat -> take prev (log s) = take prev l -> (prev <= length l)%nat ->
  merged_log s req = (if decide (l `prefix_of` log s) then log s else l) ->
  (forall b1 d1, grows b b1 -> invariant all b1 ->
     replica b1 n = followed s (ae_term req) <| r_log := merged_log s req |> ->
     disk_rel d1 (replica b1 n) -> (n, ae_term req, length (merged_log s req)) ∈ acks b1 ->
     sim_result b1 n d1 rest s') ->
  sim_result b n d (merged_write s req ++ rest) s'.
Proof.
  intros Hinv Hr (Hs & Hm & Hl) Hi Hin Hprev Hent Hple Htake Hpl Hmerged Hrest.
  pose proof (spec_accept all n b l c) as Hstep. cbv zeta in Hstep.
  rewrite Hr in Hstep, Hl, Hm. cbn in Hstep, Hl. rewrite <- Hmerged in Hstep.
  specialize (Hstep Hin eq_refl).
  set (b1 := set b n _ <| acks := _ |>) in Hstep.
  assert (replica b1 n = followed s (ae_term req) <| r_log := merged_log s req |>) as Hr1
    by (apply fn_lookup_insert).
  assert ((n, ae_term req, length (merged_log s req)) ∈ acks b1) as Hack by left.
  assert (take prev (merged_log s req) = take prev (log s)) as Htm.
  { rewrite Hmerged. case_decide; congruence. }
  unfold merged_write. destruct (ae_entries req) as [|e es] eqn:He; cbn [app].
  - assert (disk_rel d (replica b1 n)) as Hd1.
    { rewrite Hr1. split_and!; [done..|]. cbn. rewrite Hmerged, Hl.
      rewrite decide_True; [done|]. symmetry in Hent. rewrite <- (take_drop prev l), Hent, app_nil_r, <- Htake.
      apply prefix_take. }
    eapply sim_step; [done|exact Hstep|done|]. auto.
  - assert (disk_rel (disk_exec d (PersistLogEntries (ae_prev_log_index req + 1)
      (drop (Z.to_nat (ae_prev_log_index req - last_included_index s)) (merged_log s req)))) (replica b1 n)) as Hd1.
    { rewrite Hr1. split_and!; [done|exact Hm|]. cbn. rewrite Hs, Hl, Hprev, Hi. unfold write_entries. cbn.
      replace (Z.to_nat (Z.of_nat prev + 1 - 0 - 1)) with prev by lia.
      replace (Z.to_nat (Z.of_nat prev - 0)) with prev by lia. rewrite <- Htm. apply take_drop. }
    eapply sim_action; [done|exact Hstep|done|done|]. auto.
Qed.

(** The commit index of the leader. *)
Lemma follower_commit_sim b n d (r : Replica) t l c rest s' :
  invariant all b -> replica b n = r -> disk_rel d r -> r_role r = Follower -> r_term r = t ->
  (t, l, c) ∈ appends b -> l `prefix_of` r_log r ->
  (forall b1, grows b b1 -> invariant all b1 ->
     replica b1 n = r <| r_commit := Nat.max (r_commit r) c |> ->
     (forall x, x ∈ indexed (r_log r) (r_commit r) (Nat.max (r_commit r) c) -> x ∈ applied b1) ->
     sim_result b1 n d rest s') ->
  sim_result b n d rest s'.
Proof.
  intros Hinv Hr Hd Hrole Ht Hin Hp Hrest. destruct (decide (r_commit r <= c)%nat) as [Hle|Hgt].
  - rewrite Nat.max_r in Hrest by done.
    eapply sim_step; [done|apply (spec_follower_commit _ _ _ l c); by rewrite Hr, ?Ht| |].
    + cbn. by rewrite fn_lookup_insert, Hr.
    + intros Hinv' Hg. apply Hrest; [done..| |].
      * cbn. by rewrite fn_lookup_insert, Hr.
      * cbn. rewrite Hr. intros x Hx. apply elem_of_app. by left.
  - rewrite Nat.max_l in Hrest by lia. apply Hrest; [apply grows_refl|done|by destruct r|].
    intros [k e] [? _]%elem_of_indexed. lia.
Qed.

(** ** The handler *)
Lemma stale_sim a n d s req :
  simulates a n d s -> msg_ok all a (n, AppendEntries req) ->
  sim_result a n d [append_response req (false_append_response s None None)] s.
Proof.
  intros Hsim (Hn & Hne & _). cbn in Hn, Hne. apply sim_shows; try apply Hsim.
  apply Forall_singleton. split; [|done]. cbn.
  rewrite (nv_id _ _ _ _ (sm_view _ _ _ _ _ Hsim)). by split_and!.
Qed.

Lemma reject_sim a n d g s req s' acts :
  simulates a n d s -> msg_ok all a (n, AppendEntries req) -> is_u64 (ae_prev_log_index req) ->
  term_accepted s req -> prev_log_valid s req = false ->
  handle_append_entries g s req = Done (s', acts) -> sim_result a n d acts s'.
Proof.
  intros Hsim (Hn & Hne & Hled & l & c & prev & Hin & Hprev & Hple & _) Hu Hacc Hv H. cbn in Hn, Hne.
  pose proof Hsim as [Hinv Hview _ Hwf].
  destruct (append_entries_rejected g s req Hwf Hu Hacc Hv)
    as (s1 & i & ct & Heq & Hsd & Ht & Hst & Hid & Hm & _ & Hi).
  rewrite H in Heq. injection Heq as -> ->. apply follow_sim; [done..|].
  intros b d' Hg Hinv' Hr Hd. apply sim_shows; [done..| |].
  - apply Forall_singleton. split; [|done]. cbn. rewrite Hid, (nv_id _ _ _ _ Hview).
    split_and!; [done..|]. intros k ->. destruct Hi as [Hk _]. rewrite Ht.
    split_and!; [by eapply lookup_weaken; [|apply Hg]|lia|].
    destruct (iv_append _ _ Hinv' (ae_term req) l c) as (h & _ & Hh & _ & Hp%prefix_length & _); [by apply Hg|].
    exists h. split; [done|]. unfold len. lia.
  - destruct (sd_log _ _ Hsd) as (Hlog & Hlii & Hlit).
    eapply follower_view; [done|done|done|apply Hsd|done..|].
    rewrite Hr. unfold followed, abs_replica, meta in *. rewrite <- Hm, Ht, Hst, Hlog, (sd_commit _ _ Hsd). done.
Qed.

Lemma accept_sim a n d g s req s' acts :
  simulates a n d s -> msg_ok all a (n, AppendEntries req) ->
  within_bounds s (InMessage (AppendEntries req)) -> accepts s req ->
  handle_append_entries g s req = Done (s', acts) -> sim_result a n d acts s'.
Proof.
  intros Hsim (Hn & Hne & Hled & l & c & prev & Hin & Hprev & Hple & Hpt & Hent & Hlc) Hb Hacc H. cbn in Hn, Hne.
  pose proof Hsim as [Hinv Hview _ Hwf]. destruct (nv_snapshot _ _ _ _ Hview) as [Hi _].
  pose proof (append_request_ok a n s req l c prev Hinv Hview Hwf Hin Hprev Hple Hent Hlc Hb) as Hok.
  destruct (append_entries_accepted g s req Hwf Hok Hacc)
    as (s1 & Hwf1 & [Hid Hpeers] & Hlog & Hlii & Hlit & Hm & Ht & Hst & _ & Hc & Heq).
  rewrite H in Heq. injection Heq as -> ->. destruct Hacc as [Hta Hval].
  destruct (prev_matches a n s req l c prev Hinv Hview Hwf Hin Hprev Hple Hpt Hent Hval) as [Hps Htake].
  pose proof (merged_eq a n s req l c prev Hinv Hview Hwf Hin Hprev Hple Hpt Hent Hval) as Hmerged.
  assert (l `prefix_of` log s1) as Hpre by (rewrite Hlog, Hmerged; by case_decide).
  assert ((c <= length l)%nat) as Hcl
    by (by destruct (iv_append _ _ Hinv _ _ _ Hin) as (? & ? & _ & _ & _ & _ & ? & _)).
  pose proof (prefix_length _ _ Hpre) as Hpl. pose proof (view_commit _ _ _ _ Hview Hwf) as Hcb.
  assert (last_log_index s1 = len (log s1)) as Hlast by (rewrite last_log_index_eq by apply Hwf1; lia).
  rewrite Hlast in *. rewrite Hlc in Hc. pose proof (wf_fits _ Hwf1) as [_ Hfit]. pose proof (wf_commit _ Hwf1).
  apply follow_sim; [done..|]. intros b d' Hg Hinv' Hr Hd.
  eapply write_sim; try done; [by apply Hg|]. intros b1 d1 Hg1 Hinv1 Hr1 Hd1 Hack. rewrite Hr1, <- Hlog in *.
  eapply (follower_commit_sim b1 n d1 _ (ae_term req) l c); [done..|by apply Hg1, Hg|done|].
  intros b2 Hg2 Hinv2 Hr2 Happ. cbn in Hr2, Happ.
  assert (Nat.max (Z.to_nat (commit_index s)) c = Z.to_nat (commit_index s1)) as Hmax
    by (unfold len in *; lia). rewrite Hmax in *.
  apply sim_shows; [done|by rewrite Hr2| |].
  - apply Forall_app. split; [apply newly_shown; try done; lia|]. apply Forall_singleton. split; [|done].
    cbn. rewrite (nv_id _ _ _ _ Hview). split_and!; [done..| |].
    + eapply lookup_weaken; [done|]. etrans; [apply Hg|]. etrans; [apply Hg1|apply Hg2].
    + eexists. split; [done|by apply Hg2].
  - eapply follower_view; [done|by do 2 (eapply grows_trans; [done|])|done..|].
    rewrite Hr2. unfold followed, abs_replica, meta in *. by rewrite <- Hm, Ht, Hst.
Qed.
End append.
