(* ===== verification/ClusterSafety.v ===== *)
(** The cluster implements the specification of Raft: log matching, leader
    completeness and the safety of the state machines. *)

From stdpp Require Import functions.
From S2P Require Import Prelude Types RaftCore CoreLog CoreFrame CoreReplication CoreElection.
From S2P Require Import CoreInvariant CoreCommit CoreTotal ReplicationSafety CoreEffects Cluster.
From S2P Require Import RaftSpec RaftSpecSafety RaftSpecInv RaftSpecSteps Replicas Refinement NodeSim.
From S2P Require Import SimElection SimReplication SimAppend.
#[local] Open Scope Z_scope.

Section inputs.
Context (all : list NodeId) (Hnodup : NoDup all) (Hsize : len all < U64).
Notation simulates := (simulates all).
Notation sim_result := (sim_result all).

(** ** One input *)

(** What a node can be given. *)
Definition input_from (a : World) (n : NodeId) (s : RaftCore) (i : Input) : Prop :=
  within_bounds s i /\
  match i with
  | InMessage m => msg_ok all a (n, m) /\ guarded s m
  | InSnapshot => False
  | _ => True
  end.

(** It respects the contract of the core. *)
Lemma input_from_ok a n d s i : simulates a n d s -> input_from a n s i -> input_ok s i.
Proof.
  intros [Hinv Hv Hd Hwf] [Hb Hi]. destruct i as [|m|cmd| |]; try done; [|apply Hb].
  destruct Hi as [Hm Hg]. destruct m as [| |req|resp| |]; cbn in Hm; try done; [apply Hb|..].
  - destruct Hm as (_ & _ & _ & l & c & prev & Hin & Hprev & Hple & _ & Hent & Hlc).
    by apply (append_request_ok all a n s req l c prev).
  - destruct (aer_success resp) eqn:Hs; cbn.
    + by apply (success_ok all a n s resp); try done; cbn; rewrite Hs.
    + unfold append_response_ok. rewrite Hs. destruct Hm as (_ & _ & Hm). intros k Hk.
      destruct (Hm k Hk) as (Hl & H1 & h & Hh & Hle), Hg as (Hst & Hge & _).
      apply (led_term all a n s _ Hinv Hv) in Hl. assert (aer_term resp = current_term s) as Ht by lia.
      destruct (iv_leader _ _ Hinv n) as [_ Hlog]; rewrite (nv_replica _ _ _ _ Hv) in *; [done|].
      cbn in Hlog. rewrite Ht, Hlog in Hh. injection Hh as <-.
      destruct (wf_fits _ Hwf), (nv_snapshot _ _ _ _ Hv). unfold is_u64. lia.
Qed.

Lemma input_sim a n d g s i s' acts :
  simulates a n d s -> input_from a n s i -> core_input g s i = Done (s', acts) ->
  sim_result a n d acts s' /\ core_wf s'.
Proof.
  intros Hsim Hfrom H. split.
  2: { pose proof (core_input_wf g s i (sm_wf _ _ _ _ _ Hsim) (input_from_ok _ _ _ _ _ Hsim Hfrom)) as Hw.
       by rewrite H in Hw. }
  destruct Hfrom as [Hb Hi]. destruct i as [|m|cmd| |]; cbn in H; try done.
  - eapply tick_sim; [done|apply Hb|done].
  - destruct Hi as [Hm Hg]. destruct m as [| |req|resp| |]; cbn in H; try done.
    + by eapply request_vote_sim.
    + eapply vote_response_sim; try done. apply Hb.
    + destruct (decide (term_accepted s req)) as [Hacc|Hn].
      * destruct (prev_log_valid s req) eqn:Hv; [by eapply accept_sim|].
        eapply reject_sim; try done. destruct Hm as (_ & _ & _ & l & c & prev & _ & Hprev & _), Hb as (_ & _ & Hb).
        rewrite Hprev in *. unfold is_u64. len_lia.
      * rewrite append_entries_stale in H by (done || apply Hsim). injection H as <- <-. by apply stale_sim.
    + destruct (aer_success resp) eqn:Hs; [by eapply success_response_sim|by eapply reject_response_sim].
  - apply exec_bind_Done in H as ([s1 o] & Hp & H). injection H as <- <-.
    eapply propose_sim; [done|apply Hb|done].
  - destruct Hsim as [Hinv Hv Hd Hwf]. unfold request_read_barrier in H.
    case_bool_decide; injection H as <- <-; apply sim_shows; try done.
    eapply view_same; [done|by keeps_tac|done].
Qed.
End inputs.

(** ** The cluster *)
Section cluster.
Context (cfg : Config).
Context (Hnodup : NoDup (cfg_nodes cfg)) (Hsize : len (cfg_nodes cfg) < U64).
Notation all := (cfg_nodes cfg).

(** The nodes, the network and the applied commands of a cluster are those of
    the specification's state [a]. *)
Record sys_rel (a : World) (y : System) : Prop := {
  sr_invariant : invariant all a;
  sr_nodes : forall n s, sys_nodes y !! n = Some s -> simulates all a n (disk_of y n) s;
  sr_network : Forall (msg_ok all a) (sys_network y);
  sr_applied : Forall (applied_ok a) (sys_applied y);
}.

(** A node that boots follows, with the term, the vote and the log of its disk. *)
Lemma booted_view a n d s :
  invariant all a -> n ∈ all -> disk_rel d (replica a n) -> disk_fits d -> sys_booted cfg n d s ->
  r_role (replica a n) = Follower -> r_commit (replica a n) = 0%nat ->
  simulates all a n d s.
Proof.
  intros Hinv Hn Hd Hfit (g & H) Hrole Hcom. pose proof Hd as (Hs & Hm & Hl). rewrite Hs in H. cbn in H.
  assert (replica a n = mkReplica (r_term (replica a n)) (r_vote (replica a n)) (dk_log d) Follower 0) as Hr.
  { rewrite Hl. destruct (replica a n); cbn in *; congruence. }
  pose proof (iv_term _ _ Hinv n) as Hterm.
  assert (exists to, s = mkRaftCore n (filter (fun x => x ≠ n) all) Follower (r_term (replica a n))
    (r_vote (replica a n)) (dk_log d) 0 0 None ∅ ∅ ∅ 0 0 0 (cfg_range cfg) to
    (default DEFAULT_HEARTBEAT (cfg_heartbeat cfg)) 0 0 ∅ /\ (cfg_range cfg).1 < (cfg_range cfg).2) as (to & -> & Hrange).
  { assert (dk_meta d = None -> dk_log d = []) as Hnone.
    { intros Hmeta. rewrite Hmeta in Hm. injection Hm as Ht _. rewrite Hl.
      destruct (r_log (replica a n)) as [|e k] eqn:He; [done|exfalso].
      destruct (lo_terms _ _ _ (iv_log _ _ Hinv n) e); [rewrite He; left|]. lia. }
    destruct (dk_meta d) as [[t v]|]; cbn in Hm; injection Hm as <- <-;
      unfold restore, new, random_range in H; destruct (Z.ltb_spec (cfg_range cfg).1 (cfg_range cfg).2);
      try done; injection H as <-; [by eexists|]. rewrite Hnone by done. by eexists. }
  split; [done| |done|].
  - by split.
  - unfold disk_fits in Hfit. split; cbn; try done; split; cbn; len_lia.
Qed.

Lemma simulates_grows a b n d s :
  simulates all a n d s -> invariant all b -> grows a b -> replica b n = replica a n -> simulates all b n d s.
Proof.
  intros [Hinv Hv Hd Hwf] Hinv' Hg Hr. split; [done| |by rewrite Hr|done].
  eapply node_view_keeps; [done|done|by split|]. by rewrite Hr, (nv_replica _ _ _ _ Hv).
Qed.

Lemma disk_of_perform y n s data acts m :
  disk_of (sys_perform y n s data acts) m
  = if decide (m = n) then foldl disk_exec (disk_of y n) acts else disk_of y m.
Proof.
  unfold disk_of at 1. cbn. case_decide; subst; [by rewrite lookup_insert_eq|by rewrite lookup_insert_ne].
Qed.

(** Node [n] has become [s] after [acts], which are steps of its replica. *)
Lemma perform_rel a b y n s data acts :
  sys_rel a y -> evolves all n a b -> shown all n data b acts ->
  simulates all b n (foldl disk_exec (disk_of y n) acts) s -> sys_rel b (sys_perform y n s data acts).
Proof.
  intros [Hinv Hnodes Hnet Happ] [_ Hinv' Hg Hother] [Hsent Happ'] Hsim. split; [done|..].
  - intros m s'. cbn. rewrite disk_of_perform. intros [[<- <-]|[Hne Hm]]%lookup_insert_Some.
    + by rewrite decide_True.
    + rewrite decide_False by done. eapply simulates_grows; [by apply Hnodes|done..|]. by apply Hother.
  - apply Forall_app. split; [|done]. eapply Forall_impl; [done|]. eauto using msg_ok_mono.
  - apply Forall_app. split; [|done]. eapply Forall_impl; [done|]. eauto using applied_ok_mono.
Qed.

Lemma admissible_from a y n s i :
  sys_rel a y -> sys_admissible guarded y n s i -> input_from all a n s i.
Proof.
  intros Hrel [Hb Hi]. split; [done|]. destruct i; try done. destruct Hi as [Hin Hg]. split; [|done].
  pose proof (sr_network _ _ Hrel) as Hnet. rewrite Forall_forall in Hnet. by apply Hnet in Hin.
Qed.

(** Every step of the cluster is steps of one replica. *)
Lemma sys_step_sim a y y' :
  sys_rel a y -> sys_step cfg guarded y y' -> exists n b, n ∈ all /\ spec_steps all n a b /\ sys_rel b y'.
Proof.
  intros Hrel Hstep. assert (forall n s i g s' acts pre data, sys_nodes y !! n = Some s ->
    sys_admissible guarded y n s i -> core_input g s i = Done (s', acts) -> pre `prefix_of` acts ->
    n ∈ all /\ core_wf s' /\ exists b, evolves all n a b
      /\ disk_rel (foldl disk_exec (disk_of y n) pre) (replica b n)
      /\ shown all n data b pre /\ (pre = acts -> node_view all b n s')) as Hpre.
  { intros n s i g s' acts pre data Hn Hadm H Hp. pose proof (sr_nodes _ _ Hrel n s Hn) as Hsim.
    destruct (input_sim all Hnodup Hsize a n _ g s i s' acts Hsim) as [(b & Hs & Hv) Hwf];
      [by apply (admissible_from a y)|done|].
    split_and!; [apply Hsim|done|].
    destruct (acts_sim_prefix _ _ data _ _ _ _ pre Hs) as (b' & Hev & Hd & Hsh & Heq); [apply Hsim..|done|].
    exists b'. split_and!; try done. intros ->. by rewrite Heq. }
  destruct Hstep as [n s i g data s' acts Hn Hadm H|n s i g data s' acts pre s0 Hn Hadm H Hp Hfit Hboot].
  - destruct (Hpre n s i g s' acts acts data Hn Hadm H) as (Hin & Hwf & b & Hev & Hd & Hsh & Hv); [done|].
    exists n, b. split_and!; [done|apply Hev|]. eapply perform_rel; [done..|].
    split; [apply Hev|by apply Hv|done|done].
  - destruct (Hpre n s i g s' acts pre data Hn Hadm H Hp) as (Hin & _ & b & Hev & Hd & Hsh & _).
    pose proof (evolves_step all n _ _ (ev_invariant _ _ _ _ Hev) (spec_crash all n b)) as Hev'.
    eexists n, _. split_and!; [done|etrans; [apply Hev|apply Hev']|].
    eapply perform_rel; [done|by eapply evolves_trans| |].
    + eapply shown_mono; [apply Hev'|done].
    + eapply booted_view; [apply Hev'|done|by rewrite replica_set|done|done|by rewrite replica_set..].
Qed.

Lemma sys_initial_rel y : sys_initial cfg y -> sys_rel spec_initial y.
Proof.
  intros (Hd & Hnet & Happ & Hn). split.
  - apply spec_initial_invariant.
  - intros n s Hs. destruct (Hn n s Hs) as [Hin Hboot]. unfold disk_of. rewrite Hd, lookup_empty.
    by apply booted_view; [apply spec_initial_invariant|..].
  - by rewrite Hnet.
  - by rewrite Happ.
Qed.

Lemma spec_steps_next n a b : n ∈ all -> spec_steps all n a b -> rtc (spec_next all) a b.
Proof. intros Hn. apply rtc_subrel. intros w w' Hs. by exists n. Qed.

Lemma sys_reachable_rel y :
  sys_reachable cfg guarded y -> exists a, spec_reachable all a /\ sys_rel a y.
Proof.
  intros (y0 & Hinit & Hsteps). revert y Hsteps. apply rtc_ind_r.
  - exists spec_initial. split; [apply rtc_refl|by apply sys_initial_rel].
  - intros y1 y2 _ Hstep (a & Hreach & Hrel). destruct (sys_step_sim a y1 y2 Hrel Hstep) as (n & b & Hn & Hst & Hrel').
    exists b. split; [|done]. unfold spec_reachable in *. etrans; [exact Hreach|by eapply spec_steps_next].
Qed.

(** A leader's log extends what was committed up to its term. *)
Lemma leader_extends a n T l :
  invariant all a -> r_role (replica a n) = Leader -> commit_prefix a T l -> T <= r_term (replica a n) ->
  l `prefix_of` r_log (replica a n).
Proof.
  intros Hinv Hrole [->|(t & i & h & Ht & Hc & Hh & Hp & Hlen)] HT; [apply prefix_nil|].
  destruct (iv_leader _ _ Hinv n Hrole) as [_ Hlog].
  destruct (decide (t = r_term (replica a n))) as [->|Hne]; [congruence|].
  destruct (iv_hist _ _ Hinv _ _ Hlog) as (? & b & ? & [_ Hb Hfirst _ _ _ _ _ _ _ _]).
  assert (take i h `prefix_of` b) as Hib by (eapply leader_complete; try done; lia).
  etrans; [by apply (prefix_take_le _ h i)|]. etrans; [exact Hib|]. etrans; [by eexists|exact Hfirst].
Qed.

(** ** Theorems *)

(** C5: the cluster implements the specification. In a cluster that keeps the
    conditions of [sys_reachable] and [guarded] (terms and indices within 64
    bits; no node takes or is sent a snapshot; crashes between two actions and
    not inside a write; votes of an earlier term are dropped, and append
    responses unless they reach a leader, are not of an earlier term and, if
    they reject, name a conflict; so rejections of a newer term are dropped
    too), over a network that otherwise loses, duplicates, delays and reorders
    messages, every state that nodes reach is related to a state that the
    abstract specification of Raft reaches: each node has the term, vote, log,
    role and commit index of its replica, its disk the durable ones, every
    message on the network is one the replicas have sent, and every applied
    command one they have committed. *)
Theorem cluster_refines_raft y :
  sys_reachable cfg guarded y -> exists a, spec_reachable all a /\ sys_rel a y.
Proof. apply sys_reachable_rel. Qed.

(** C7: log matching. In a cluster that keeps the conditions of
    [sys_reachable] and [guarded] (terms and indices within 64 bits; no node
    takes or is sent a snapshot; crashes between two actions and not inside a
    write; votes of an earlier term are dropped, and append responses unless
    they reach a leader, are not of an earlier term and, if they reject, name
    a conflict; so rejections of a newer term are dropped too), if the logs of
    two nodes hold an entry of the same term at an index, they are the same up
    to that index. *)
Theorem log_matching y n1 n2 s1 s2 k e1 e2 :
  sys_reachable cfg guarded y -> sys_nodes y !! n1 = Some s1 -> sys_nodes y !! n2 = Some s2 ->
  log s1 !! k = Some e1 -> log s2 !! k = Some e2 -> e_term e1 = e_term e2 ->
  take (S k) (log s1) = take (S k) (log s2).
Proof.
  intros (a & _ & Hrel)%sys_reachable_rel H1 H2 He1 He2 Ht.
  pose proof (nv_replica _ _ _ _ (sm_view _ _ _ _ _ (sr_nodes _ _ Hrel n1 s1 H1))) as R1.
  pose proof (nv_replica _ _ _ _ (sm_view _ _ _ _ _ (sr_nodes _ _ Hrel n2 s2 H2))) as R2.
  pose proof (logs_match all a n1 n2 k e1 e2 (sr_invariant _ _ Hrel)) as Hm.
  rewrite R1, R2 in Hm. by apply Hm.
Qed.

(** C6: leader completeness. In a cluster that keeps the conditions of
    [sys_reachable] and [guarded] (terms and indices within 64 bits; no node
    takes or is sent a snapshot; crashes between two actions and not inside a
    write; votes of an earlier term are dropped, and append responses unless
    they reach a leader, are not of an earlier term and, if they reject, name
    a conflict; so rejections of a newer term are dropped too), the log of a
    leader holds everything that a node of its term or of an earlier one has
    committed. *)
Theorem leader_completeness y n1 n2 s1 s2 :
  sys_reachable cfg guarded y -> sys_nodes y !! n1 = Some s1 -> sys_nodes y !! n2 = Some s2 ->
  state s2 = Leader -> current_term s1 <= current_term s2 ->
  take (Z.to_nat (commit_index s1)) (log s1) `prefix_of` log s2.
Proof.
  intros (a & _ & Hrel)%sys_reachable_rel H1 H2 Hst Ht. pose proof (sr_invariant _ _ Hrel) as Hinv.
  pose proof (nv_replica _ _ _ _ (sm_view _ _ _ _ _ (sr_nodes _ _ Hrel n1 s1 H1))) as R1.
  pose proof (nv_replica _ _ _ _ (sm_view _ _ _ _ _ (sr_nodes _ _ Hrel n2 s2 H2))) as R2.
  destruct (iv_node_commit _ _ Hinv n1) as [_ Hc]. rewrite R1 in Hc.
  eapply (leader_extends a n2) in Hc; rewrite ?R2 in *; done.
Qed.

(** C1: state machine safety. In a cluster that keeps the conditions of
    [sys_reachable] and [guarded] (terms and indices within 64 bits; no node
    takes or is sent a snapshot; crashes between two actions and not inside a
    write; votes of an earlier term are dropped, and append responses unless
    they reach a leader, are not of an earlier term and, if they reject, name
    a conflict; so rejections of a newer term are dropped too), if two nodes
    apply a command at an index, before or after crashes, they apply the same
    one. *)
Theorem state_machine_safety y n1 n2 i c1 c2 :
  sys_reachable cfg guarded y -> (n1, (i, c1)) ∈ sys_applied y -> (n2, (i, c2)) ∈ sys_applied y -> c1 = c2.
Proof.
  intros (a & _ & Hrel)%sys_reachable_rel H1 H2. pose proof (sr_applied _ _ Hrel) as Happ.
  rewrite Forall_forall in Happ. destruct (Happ _ H1) as (k1 & e1 & Hk1 & Ha1 & Hc1).
  destruct (Happ _ H2) as (k2 & e2 & Hk2 & Ha2 & Hc2). cbn in *.
  assert (k2 = k1) as -> by lia. rewrite <- Hc1, <- Hc2. f_equal.
  by eapply applied_agree; [apply Hrel|..].
Qed.
End cluster.
