(* ===== verification/ClusterCommits.v ===== *)
(** What a cluster has committed: the committed logs of two nodes agree, and a
    committed entry stays with every later leader. *)

From stdpp Require Import functions.
From S2P Require Import Prelude Types RaftCore CoreLog CoreFrame CoreElection CoreInvariant.
From S2P Require Import CoreEffects CorePersists Cluster.
From S2P Require Import RaftSpec RaftSpecSafety RaftSpecInv RaftSpecSteps Replicas Refinement NodeSim.
From S2P Require Import ClusterSafety.
#[local] Open Scope Z_scope.

(** ** The specification *)
Section spec.
Context (all : list NodeId).

Lemma commit_prefix_lookup w T l k e :
  commit_prefix w T l -> l !! k = Some e ->
  exists t i h, (t, i) ∈ commits w /\ hist w !! t = Some h /\ (k < i)%nat /\ h !! k = Some e.
Proof.
  intros [->|(t & i & h & _ & Hc & Hh & Hp & Hle)] Hk; [done|]. exists t, i, h.
  apply lookup_lt_Some in Hk as Hlt. split_and!; [done..|lia|]. by eapply prefix_lookup_Some.
Qed.

(** Two committed logs agree as far as both go. *)
Lemma commit_prefix_agree w T1 T2 l1 l2 :
  invariant all w -> commit_prefix w T1 l1 -> commit_prefix w T2 l2 -> (length l1 <= length l2)%nat ->
  l1 `prefix_of` l2.
Proof.
  intros Hinv H1 H2 Hle.
  assert (l1 = take (length l1) l2) as ->; [|apply prefix_take].
  apply list_eq_same_length with (length l1); [rewrite length_take; lia|done|].
  intros k e1 e2 Hk He1 He2. rewrite lookup_take_lt in He2 by done.
  destruct (commit_prefix_lookup _ _ _ _ _ H1 He1) as (t1 & i1 & h1 & C1 & A1 & L1 & E1).
  destruct (commit_prefix_lookup _ _ _ _ _ H2 He2) as (t2 & i2 & h2 & C2 & A2 & L2 & E2).
  by eapply (committed_agree all w t1 i1 h1 t2 i2 h2 k).
Qed.

Lemma spec_steps_grow v w w' : invariant all w -> spec_steps all v w w' -> grows w w' /\ invariant all w'.
Proof.
  intros Hinv H. induction H as [w|w w1 w' Hs _ IH]; [by split; [apply grows_refl|]|].
  destruct IH as [Hg Hinv']; [by eapply spec_step_invariant|].
  split; [|done]. eapply grows_trans; [by eapply spec_step_grows|done].
Qed.
End spec.

(** No snapshot is sent or installed by the action. *)
Definition no_snapshot (a : Action) : Prop :=
  match a with SendInstallSnapshot _ _ _ _ | ActInstallSnapshot _ _ _ => False | _ => True end.

Lemma acts_sim_no_snapshot all n a d acts b : acts_sim all n a d acts b -> Forall no_snapshot acts.
Proof. induction 1 as [| |a a' d x acts b _ _ Hx _ IH]; [constructor|done|]. constructor; [by destruct x|done]. Qed.

(** The disk and the durable state of the core say the same of the log. *)
Definition same_disk (k : Disk) (dur : Durable) : Prop :=
  dk_snapshot k = None /\ (du_base dur).1 = 0 /\ dk_log k = du_log dur.

(** ** The cluster *)
Section cluster.
Context (cfg : Config).
Context (Hnodup : NoDup (cfg_nodes cfg)) (Hsize : len (cfg_nodes cfg) < U64).
Notation all := (cfg_nodes cfg).

Lemma sys_rel_commit a y n s :
  sys_rel cfg a y -> sys_nodes y !! n = Some s ->
  commit_prefix a (current_term s) (take (Z.to_nat (commit_index s)) (log s)).
Proof.
  intros Hrel Hn. pose proof (nv_replica _ _ _ _ (sm_view _ _ _ _ _ (sr_nodes _ _ _ Hrel n s Hn))) as R.
  destruct (iv_node_commit _ _ (sr_invariant _ _ _ Hrel) n) as [_ H]. by rewrite R in H.
Qed.

Lemma sys_rel_wf a y n s : sys_rel cfg a y -> sys_nodes y !! n = Some s -> core_wf s.
Proof. intros Hrel Hn. apply (sm_wf _ _ _ _ _ (sr_nodes _ _ _ Hrel n s Hn)). Qed.

Lemma commit_in_log a y n s :
  sys_rel cfg a y -> sys_nodes y !! n = Some s ->
  0 <= commit_index s /\ (Z.to_nat (commit_index s) <= length (log s))%nat.
Proof.
  intros Hrel Hn. pose proof (nv_replica _ _ _ _ (sm_view _ _ _ _ _ (sr_nodes _ _ _ Hrel n s Hn))) as R.
  destruct (iv_node_commit _ _ (sr_invariant _ _ _ Hrel) n) as [H _]. rewrite R in H.
  pose proof (wf_commit _ (sys_rel_wf _ _ _ _ Hrel Hn)). destruct (wf_fits _ (sys_rel_wf _ _ _ _ Hrel Hn)).
  split; [lia|done].
Qed.

Lemma committed_comparable y n1 n2 s1 s2 :
  sys_reachable cfg guarded y -> sys_nodes y !! n1 = Some s1 -> sys_nodes y !! n2 = Some s2 ->
  commit_index s1 <= commit_index s2 ->
  take (Z.to_nat (commit_index s1)) (log s1) `prefix_of` take (Z.to_nat (commit_index s2)) (log s2).
Proof.
  intros (a & _ & Hrel)%(sys_reachable_rel cfg Hnodup Hsize) H1 H2 Hle.
  eapply (commit_prefix_agree all a); [apply Hrel|by eapply sys_rel_commit..|].
  rewrite !length_take. destruct (commit_in_log _ _ _ _ Hrel H1), (commit_in_log _ _ _ _ Hrel H2). lia.
Qed.

(** A step keeps what was committed, and so do many. *)
Lemma sys_steps_grow a y y' :
  sys_rel cfg a y -> rtc (sys_step cfg guarded) y y' -> exists b, grows a b /\ sys_rel cfg b y'.
Proof.
  intros Hrel H. revert a Hrel. induction H as [y|y y1 y' Hs _ IH]; intros a Hrel.
  { exists a. split; [apply grows_refl|done]. }
  destruct (sys_step_sim cfg Hnodup Hsize a y y1 Hrel Hs) as (n & b & _ & Hst & Hrel1).
  destruct (spec_steps_grow all n a b (sr_invariant _ _ _ Hrel) Hst) as [Hg _].
  destruct (IH b Hrel1) as (c & Hgc & Hrelc). exists c. split; [by eapply grows_trans|done].
Qed.

Lemma leader_keeps_committed y y' n1 n2 s1 s2 :
  sys_reachable cfg guarded y -> sys_nodes y !! n1 = Some s1 ->
  rtc (sys_step cfg guarded) y y' -> sys_nodes y' !! n2 = Some s2 -> state s2 = Leader ->
  current_term s1 <= current_term s2 ->
  take (Z.to_nat (commit_index s1)) (log s1) `prefix_of` log s2.
Proof.
  intros (a & _ & Hrel)%(sys_reachable_rel cfg Hnodup Hsize) H1 Hsteps H2 Hst Ht.
  destruct (sys_steps_grow a y y' Hrel Hsteps) as (b & Hg & Hrel').
  pose proof (sys_rel_commit _ _ _ _ Hrel H1) as Hc.
  pose proof (nv_replica _ _ _ _ (sm_view _ _ _ _ _ (sr_nodes _ _ _ Hrel' n2 s2 H2))) as R2.
  eapply commit_prefix_mono in Hc; [|exact Hg|exact Ht].
  eapply (leader_extends cfg b n2) in Hc; rewrite ?R2 in *; [done|apply Hrel'|done|done].
Qed.

(** ** One input of a node of a reachable cluster *)
Lemma committed_kept y n s i g s' acts :
  sys_reachable cfg guarded y -> sys_nodes y !! n = Some s -> sys_admissible guarded y n s i ->
  core_input g s i = Done (s', acts) -> commit_index s <= commit_index s' ->
  take (Z.to_nat (commit_index s)) (log s) `prefix_of` take (Z.to_nat (commit_index s')) (log s').
Proof.
  intros Hreach Hn Hadm H Hle. pose proof Hreach as (a & _ & Hrel)%(sys_reachable_rel cfg Hnodup Hsize).
  pose proof (sys_input cfg guarded y n s i g [] s' acts Hn Hadm H) as Hstep.
  destruct (sys_steps_grow a y _ Hrel (rtc_once _ _ Hstep)) as (b & Hg & Hrel').
  assert (sys_nodes (sys_perform y n s' [] acts) !! n = Some s') as Hn' by apply lookup_insert_eq.
  pose proof (commit_prefix_mono _ _ _ _ _ Hg (Z.le_refl _) (sys_rel_commit _ _ _ _ Hrel Hn)) as Hc.
  eapply (commit_prefix_agree all b); [apply Hrel'|exact Hc|by eapply sys_rel_commit|].
  rewrite !length_take. destruct (commit_in_log _ _ _ _ Hrel Hn), (commit_in_log _ _ _ _ Hrel' Hn'). lia.
Qed.

Record input_facts (k : Disk) (s : RaftCore) (acts : list Action) (s' : RaftCore) : Prop := {
  if_acts : Forall no_snapshot acts;
  if_disk : same_disk k (durable_of s);
  if_fits : disk_fits k;
  if_durable : exec_durables (durable_of s) acts = Some (durable_of s');
  if_applies : omap apply_of acts = commands s' (last_applied s) (last_applied s');
  if_applied : 0 <= last_applied s <= last_applied s';
  if_logs : last_applied s <= len (log s) /\ last_applied s' <= len (log s');
  if_base : last_included_index s' = 0;
  if_prefix : take (Z.to_nat (last_applied s)) (log s) `prefix_of` log s';
}.

Lemma admissible_no_install y n s i req :
  sys_reachable cfg guarded y -> sys_admissible guarded y n s i -> i <> InMessage (InstallSnapshotMsg req).
Proof.
  intros (a & _ & Hrel)%(sys_reachable_rel cfg Hnodup Hsize) Hadm ->.
  by destruct (admissible_from cfg a y n s _ Hrel Hadm) as (_ & Hm & _).
Qed.

Lemma sys_input_facts y n s i g s' acts :
  sys_reachable cfg guarded y -> sys_nodes y !! n = Some s -> sys_admissible guarded y n s i ->
  core_input g s i = Done (s', acts) -> input_facts (disk_of y n) s acts s'.
Proof.
  intros Hreach Hn Hadm H. pose proof Hreach as (a & _ & Hrel)%(sys_reachable_rel cfg Hnodup Hsize).
  pose proof (sr_nodes _ _ _ Hrel n s Hn) as Hsim.
  pose proof (admissible_from cfg a y n s i Hrel Hadm) as Hfrom.
  pose proof (input_from_ok all a n _ s i Hsim Hfrom) as Hok.
  destruct (input_sim all Hnodup Hsize a n _ g s i s' acts Hsim Hfrom H) as [(b & Hs & Hv) Hwf'].
  destruct Hsim as [Hinv Hview (Hd1 & Hd2 & Hd3) Hwf]. destruct (nv_snapshot _ _ _ _ Hview) as [Hb0 _].
  assert (forall req, i <> InMessage (InstallSnapshotMsg req)) as Hni
    by (intros req; by eapply admissible_no_install).
  destruct (nv_snapshot _ _ _ _ Hv) as [Hb0' _]. destruct (wf_fits _ Hwf) as [_ Hfit].
  pose proof (core_input_commit g s i s' acts Hwf Hok Hni H) as Hle.
  pose proof (wf_commit _ Hwf). pose proof (wf_commit _ Hwf').
  rewrite (nv_replica _ _ _ _ Hview) in Hd3.
  split; try done; rewrite ?(wf_applied _ Hwf), ?(wf_applied _ Hwf') in *.
  - by eapply acts_sim_no_snapshot.
  - unfold disk_fits. rewrite Hd3. cbn. lia.
  - apply (core_input_durable g s i); try done. destruct i; try done. by destruct Hadm.
  - destruct (core_input_applies g s i s' acts Hwf Hok H) as [Ha|(req & -> & _)]; [|by destruct (Hni req)].
    by rewrite !(wf_applied _ Hwf), (wf_applied _ Hwf') in Ha.
  - lia.
  - lia.
  - etrans; [eapply (committed_kept y n s i g s' acts); done|]. apply prefix_take.
Qed.
End cluster.
