(* ===== verification/ReplicaRuns.v ===== *)
(** Executions of the cluster, with crashes: what [guarded] rules out, and
    concrete states for the theorems of [ClusterSafety]. *)

From S2P Require Import Prelude Types RaftCore CoreLog CoreFrame CoreElection CoreInvariant.
From S2P Require Import CoreEffects Cluster ElectionSafety.
From S2P Require Import Replicas ClusterSafety.
#[local] Open Scope Z_scope.

(** ** Executable schedules *)
#[export] Instance within_bounds_dec s i : Decision (within_bounds s i).
Proof. unfold within_bounds, term_room, room. destruct i as [|[]| | |]; apply _. Defined.

#[export] Instance guarded_dec s m : Decision (guarded s m).
Proof. destruct m; cbn; apply _. Defined.

(** One turn of a node: an input, and after how many of its actions the node
    crashes, if it does. *)
Record Turn := mkTurn { tu_node : NodeId; tu_input : Input; tu_crash : option nat }.

Section runs.
Context (cfg : Config) (deliverable : RaftCore -> Message -> Prop).
Context `{forall s m, Decision (deliverable s m)}.

#[export] Instance sys_admissible_dec y n s i : Decision (sys_admissible deliverable y n s i).
Proof. unfold sys_admissible. destruct i; apply _. Defined.

Definition draw : Rng := fun _ lo _ => lo.

Definition sys_turn (y : System) (u : Turn) : option System :=
  let n := tu_node u in
  s ← sys_nodes y !! n;
  if decide (sys_admissible deliverable y n s (tu_input u)) then
    match core_input draw s (tu_input u), tu_crash u with
    | Done (s', acts), None => Some (sys_perform y n s' [] acts)
    | Done (_, acts), Some k =>
        let d := foldl disk_exec (disk_of y n) (take k acts) in
        if decide (len (dk_log d) + 2 < U64) then
          match boot_core draw n (cfg_nodes cfg) (cfg_heartbeat cfg) (cfg_range cfg)
                  (dk_snapshot d) (dk_meta d) (Some (dk_log d)) with
          | Done s0 => Some (sys_perform y n s0 [] (take k acts))
          | Panic => None
          end
        else None
    | Panic, _ => None
    end
  else None.

Fixpoint sys_run (y : System) (us : list Turn) : option System :=
  match us with
  | [] => Some y
  | u :: us => y ← sys_turn y u; sys_run y us
  end.

Lemma sys_turn_sound y u y' : sys_turn y u = Some y' -> sys_step cfg deliverable y y'.
Proof.
  unfold sys_turn. intros (s & Hs & H')%bind_Some. case_decide as Hadm; [|done].
  destruct (core_input draw s (tu_input u)) as [[s' acts]|] eqn:Hi; [|done].
  destruct (tu_crash u) as [k|]; [|injection H' as <-; by eapply sys_input].
  case_decide as Hfit; [|done]. case_match eqn:Hb; [|done]. injection H' as <-.
  eapply sys_crash; [done..|apply prefix_take|done|]. by eexists.
Qed.

Lemma sys_run_sound y us y' : sys_run y us = Some y' -> rtc (sys_step cfg deliverable) y y'.
Proof.
  revert y. induction us as [|u us IH]; intros y H'; cbn in H'.
  - injection H' as <-. apply rtc_refl.
  - apply bind_Some in H' as (y1 & Hu%sys_turn_sound & H'). eapply rtc_l; [done|]. by apply IH.
Qed.

Definition fresh_system : System := mkSystem (fresh_nodes cfg) ∅ [] [].

Lemma fresh_system_initial : sys_initial cfg fresh_system.
Proof.
  split_and!; [done..|]. intros n s H'. cbn in H'.
  apply elem_of_list_to_map_2, list_elem_of_omap in H' as (x & Hx & Hm).
  destruct (new _ x _ _ _) as [s'|] eqn:Hn; [|done]. injection Hm as -> ->.
  split; [done|]. by exists (fun _ lo _ => lo).
Qed.

(** The state a schedule leads to. *)
Definition sys_after (us : list Turn) : System := default fresh_system (sys_run fresh_system us).

Lemma sys_after_reachable us : is_Some (sys_run fresh_system us) -> sys_reachable cfg deliverable (sys_after us).
Proof.
  intros [y Hy]. unfold sys_after. rewrite Hy. exists fresh_system.
  split; [apply fresh_system_initial|]. by eapply sys_run_sound.
Qed.
End runs.

(** Two nodes apply different commands at index [i]. *)
Definition applied_differ (y : System) (i : Z) : Prop :=
  exists n1 n2 c1 c2, (n1, (i, c1)) ∈ sys_applied y /\ (n2, (i, c2)) ∈ sys_applied y /\ c1 <> c2.

(** ** What each part of [guarded] rules out *)
Definition turn (ni : NodeId * Input) : Turn := mkTurn ni.1 ni.2 None.

(** The checks [guarded] is made of. *)
Inductive Check := FreshVote | ToLeader | FreshResponse | NamesConflict.

#[export] Instance Check_eq_dec : EqDecision Check.
Proof. solve_decision. Defined.

Definition passes (c : Check) (s : RaftCore) (m : Message) : Prop :=
  match c, m with
  | FreshVote, RequestVoteResponse resp => current_term s <= rvr_term resp
  | ToLeader, AppendEntriesResponse resp => state s = Leader
  | FreshResponse, AppendEntriesResponse resp => current_term s <= aer_term resp
  | NamesConflict, AppendEntriesResponse resp =>
      aer_success resp = false -> aer_first_conflicting_index resp <> None
  | _, _ => True
  end.

Definition checks : list Check := [FreshVote; ToLeader; FreshResponse; NamesConflict].

Lemma guarded_checks s m : guarded s m <-> Forall (fun c => passes c s m) checks.
Proof.
  unfold checks. rewrite !Forall_cons. destruct m; cbn; intuition constructor.
Qed.

(** Everything is checked but [c]. *)
Definition without (c : Check) (s : RaftCore) (m : Message) : Prop :=
  Forall (fun c' => passes c' s m) (filter (fun c' => c' <> c) checks).

#[export] Instance passes_dec c s m : Decision (passes c s m).
Proof. destruct c, m; cbn; apply _. Defined.

#[export] Instance without_dec c s m : Decision (without c s m).
Proof. unfold without. apply _. Defined.

(** A schedule whose run shows two different commands at index [i]. *)
Lemma differ_reachable cfg deliverable (Hdec : forall s m, Decision (deliverable s m)) us i n1 n2 c1 c2 :
  (y ← sys_run cfg deliverable (fresh_system cfg) us;
   mret (bool_decide ((n1, (i, c1)) ∈ sys_applied y /\ (n2, (i, c2)) ∈ sys_applied y /\ c1 <> c2)))
  = Some true ->
  exists y, sys_reachable cfg deliverable y /\ applied_differ y i.
Proof.
  intros (y & Hy & [= Hd%bool_decide_eq_true])%bind_Some. exists y. split.
  - exists (fresh_system cfg). split; [apply fresh_system_initial|]. by eapply sys_run_sound.
  - by exists n1, n2, c1, c2.
Qed.

(** Node 3 leads term 1 and keeps A to itself; node 1 commits B at term 2, is
    deposed and elected again at term 4.  Its first append of term 2 reaches
    node 3 now; the rejection has no hint, and node 1 answers it with an append
    from the start of the log that carries no entries. *)
Definition blank_append_run : list Turn :=
  let noop2 := mkLogEntry 2 [] in
  let b2 := mkLogEntry 2 write_B in
  turn <$> [(3, InTick); (2, request 3 1); (3, grant 2 1); (3, InPropose write_A);
   (1, InTick); (1, InTick); (2, request 1 2); (1, grant 2 2); (1, InPropose write_B);
   deliver 2 (appends 2 1 1 2 [b2] 0); deliver 1 (append_reply 2 2 0 false (Some 1) None);
   deliver 2 (appends 2 1 0 0 [noop2; b2] 0); deliver 1 (append_reply 2 2 2 true None None);
   (2, InTick); deliver 1 (RequestVote (mkRequestVoteRPC 3 2 2 2));
   (1, InTick); deliver 3 (RequestVote (mkRequestVoteRPC 4 1 2 2)); (1, grant 3 4);
   deliver 3 (appends 2 1 1 2 [] 0); deliver 1 (append_reply 3 4 2 false None None);
   deliver 3 (appends 4 1 0 0 [] 2)].

Lemma blank_append_diverges : exists y, sys_reachable demo (without NamesConflict) y /\ applied_differ y 2.
Proof.
  apply (differ_reachable demo (without NamesConflict) (without_dec NamesConflict) blank_append_run 2 1 3 write_B write_A).
  vm_compute. reflexivity.
Qed.

(** Leader 1 of term 1 has written A to its own disk when it crashes.  It boots
    as a follower of the same term, and the answer of node 2 to its first append
    arrives: with one match index on record, node 1 commits its whole log.
    Nodes 2 and 3 go on without A. *)
Definition restarted_leader_run : list Turn :=
  let noop1 := mkLogEntry 1 [] in
  let noop2 := mkLogEntry 2 [] in
  (turn <$> [(1, InTick); (2, request 1 1); (1, grant 2 1);
     deliver 2 (appends 1 1 1 1 [] 0); deliver 1 (append_reply 2 1 0 false (Some 1) None);
     deliver 2 (appends 1 1 0 0 [noop1] 0)])
  ++ [mkTurn 1 (InPropose write_A) (Some 1%nat)]
  ++ (turn <$> [deliver 1 (append_reply 2 1 1 true None None);
     (2, InTick); deliver 3 (RequestVote (mkRequestVoteRPC 2 2 1 1)); (2, grant 3 2);
     deliver 3 (appends 2 2 2 2 [] 0); deliver 2 (append_reply 3 2 0 false (Some 1) None);
     deliver 3 (appends 2 2 0 0 [noop1; noop2] 0); deliver 2 (append_reply 3 2 2 true None None)]).

Lemma restarted_leader_diverges : exists y, sys_reachable demo (without ToLeader) y /\ applied_differ y 2.
Proof.
  apply (differ_reachable demo (without ToLeader) (without_dec ToLeader) restarted_leader_run 2 1 2 write_A []).
  vm_compute. reflexivity.
Qed.

(** Five nodes.  Node 2 stores three entries of leader 1 at term 1; its answer
    stays in the network.  Leader 3 of term 2 replaces the logs of nodes 1 and
    2.  Node 1 leads again at term 3; with node 4, and with the old answer of
    node 2, it commits A at index 3.  Nodes 2, 3 and 5 commit B there. *)
Definition demo5 : Config := mkConfig [1; 2; 3; 4; 5] None (1, 2).

Definition old_success_run : list Turn :=
  let noop t := mkLogEntry t [] in
  let a1 := mkLogEntry 1 write_A in
  let a3 := mkLogEntry 3 write_A in
  let b4 := mkLogEntry 4 write_B in
  let ask n t i c := deliver n (RequestVote (mkRequestVoteRPC t c i 2)) in
  turn <$>
   [(1, InTick); (2, request 1 1); (3, request 1 1); (1, grant 2 1); (1, grant 3 1);
    (1, InPropose write_A); (1, InPropose write_A);
    deliver 2 (appends 1 1 1 1 [a1; a1] 0); deliver 1 (append_reply 2 1 0 false (Some 1) None);
    deliver 2 (appends 1 1 0 0 [noop 1; a1; a1] 0);
    (3, InTick); (4, request 3 2); (5, request 3 2); (3, grant 4 2); (3, grant 5 2);
    deliver 1 (appends 2 3 1 2 [] 0); deliver 3 (append_reply 1 2 3 false (Some 1) (Some 1));
    deliver 1 (appends 2 3 0 0 [noop 2] 0);
    deliver 2 (appends 2 3 1 2 [] 0); deliver 3 (append_reply 2 2 3 false (Some 1) (Some 1));
    deliver 2 (appends 2 3 0 0 [noop 2] 0);
    (1, InTick); ask 4 3 1 1; ask 5 3 1 1; (1, grant 4 3); (1, grant 5 3); (1, InPropose write_A);
    deliver 4 (appends 3 1 2 3 [a3] 0); deliver 1 (append_reply 4 3 0 false (Some 1) None);
    deliver 4 (appends 3 1 0 0 [noop 2; noop 3; a3] 0); deliver 1 (append_reply 4 3 3 true None None);
    deliver 1 (append_reply 2 1 3 true None None);
    (2, InTick); (2, InTick); ask 3 4 1 2; ask 5 4 1 2; (2, grant 3 4); (2, grant 5 4); (2, InPropose write_B);
    deliver 3 (appends 4 2 2 4 [b4] 0); deliver 2 (append_reply 3 4 1 false (Some 2) None);
    deliver 3 (appends 4 2 1 2 [noop 4; b4] 0); deliver 2 (append_reply 3 4 3 true None None);
    deliver 5 (appends 4 2 2 4 [b4] 0); deliver 2 (append_reply 5 4 0 false (Some 1) None);
    deliver 5 (appends 4 2 0 0 [noop 2; noop 4; b4] 0); deliver 2 (append_reply 5 4 3 true None None)].

Lemma old_success_diverges : exists y, sys_reachable demo5 (without FreshResponse) y /\ applied_differ y 3.
Proof.
  apply (differ_reachable demo5 (without FreshResponse) (without_dec FreshResponse) old_success_run 3 1 2 write_A write_B).
  vm_compute. reflexivity.
Qed.

(** Node 1 asks for votes at term 1 and again at term 2; node 2 votes for it at
    term 1 and for node 3 at term 2.  The term-1 vote arrives last: nodes 1 and 3
    both lead term 2.  Node 2 stores A for node 1, and holds it to be the entry
    of the same term that node 3 has in its place. *)
Definition stale_vote_run : list Turn :=
  let noop2 := mkLogEntry 2 [] in
  let a2 := mkLogEntry 2 write_A in
  turn <$> stale_vote_schedule ++
   [(1, InPropose write_A); (3, InPropose write_B);
    deliver 2 (appends 2 1 1 2 [a2] 0); deliver 1 (append_reply 2 2 0 false (Some 1) None);
    deliver 2 (appends 2 1 0 0 [noop2; a2] 0); deliver 1 (append_reply 2 2 2 true None None);
    deliver 2 (appends 2 3 1 2 [mkLogEntry 2 write_B] 0); deliver 3 (append_reply 2 2 2 true None None)].

Lemma stale_vote_diverges : exists y, sys_reachable demo (without FreshVote) y /\ applied_differ y 2.
Proof.
  apply (differ_reachable demo (without FreshVote) (without_dec FreshVote) stale_vote_run 2 1 3 write_A write_B).
  vm_compute. reflexivity.
Qed.

(** ** Crashes inside a write

    The steps of the cluster, and a crash during the write of log entries: the
    entries before the first of them are stored, and some of the new ones (what
    [StorageTheorems.store_log_crash] shows of the files). *)
Inductive torn_step (cfg : Config) (y : System) : System -> Prop :=
| torn_whole y' : sys_step cfg guarded y y' -> torn_step cfg y y'
| torn_crash n s i g s' pre start entries post k s0 :
    let done_acts := pre ++ [PersistLogEntries start (take k entries)] in
    sys_nodes y !! n = Some s -> sys_admissible guarded y n s i ->
    core_input g s i = Done (s', pre ++ PersistLogEntries start entries :: post) ->
    sys_booted cfg n (foldl disk_exec (disk_of y n) done_acts) s0 ->
    torn_step cfg y (sys_perform y n s0 [] done_acts).

(** Leader 1 commits A with node 2.  The append is delivered to node 2 again;
    the node dies when it has cut its log and not yet written the entries again.
    It votes for node 3, which has none of them and commits B. *)
Definition committed_run : list Turn :=
  let noop1 := mkLogEntry 1 [] in
  let a1 := mkLogEntry 1 write_A in
  turn <$> [(1, InTick); (2, request 1 1); (1, grant 2 1); (1, InPropose write_A);
    deliver 2 (appends 1 1 1 1 [a1] 0); deliver 1 (append_reply 2 1 0 false (Some 1) None);
    deliver 2 (appends 1 1 0 0 [noop1; a1] 0); deliver 1 (append_reply 2 1 2 true None None)].

Definition repeated_append : Input :=
  (deliver 2 (appends 1 1 0 0 [mkLogEntry 1 []; mkLogEntry 1 write_A] 0)).2.

Definition successor_run : list Turn :=
  let noop2 := mkLogEntry 2 [] in
  let b2 := mkLogEntry 2 write_B in
  turn <$> [(3, InTick); (3, InTick); (2, request 3 2); (3, grant 2 2); (3, InPropose write_B);
    deliver 2 (appends 2 3 1 2 [b2] 0); deliver 3 (append_reply 2 2 0 false (Some 1) None);
    deliver 2 (appends 2 3 0 0 [noop2; b2] 0); deliver 3 (append_reply 2 2 2 true None None)].

(** The first write of the turn is cut short to [k] entries. *)
Definition torn_turn (cfg : Config) (y : System) (n : NodeId) (i : Input) (k : nat) : option System :=
  s ← sys_nodes y !! n;
  if decide (sys_admissible guarded y n s i) then
    match core_input draw s i with
    | Done (_, PersistLogEntries start entries :: _) =>
        let acts := [PersistLogEntries start (take k entries)] in
        let d := foldl disk_exec (disk_of y n) acts in
        match boot_core draw n (cfg_nodes cfg) (cfg_heartbeat cfg) (cfg_range cfg)
                (dk_snapshot d) (dk_meta d) (Some (dk_log d)) with
        | Done s0 => Some (sys_perform y n s0 [] acts)
        | Panic => None
        end
    | _ => None
    end
  else None.

Lemma torn_turn_sound cfg y n i k y' : torn_turn cfg y n i k = Some y' -> torn_step cfg y y'.
Proof.
  unfold torn_turn. intros (s & Hs & H')%bind_Some. case_decide as Hadm; [|done].
  destruct (core_input draw s i) as [[s' [|[] acts]]|] eqn:Hi; try done.
  case_match eqn:Hb; [|done]. injection H' as <-.
  eapply (torn_crash cfg y n s i draw s' []); [done..|]. by eexists.
Qed.

Lemma torn_write_diverges : exists y0 y, sys_initial demo y0 /\ rtc (torn_step demo) y0 y /\ applied_differ y 2.
Proof.
  assert ((y1 ← sys_run demo guarded (fresh_system demo) committed_run;
           y2 ← torn_turn demo y1 2 repeated_append 0;
           y3 ← sys_run demo guarded y2 successor_run;
           mret (bool_decide ((1, (2, write_A)) ∈ sys_applied y3 /\ (3, (2, write_B)) ∈ sys_applied y3)))
          = Some true) as H by (vm_compute; reflexivity).
  apply bind_Some in H as (y1 & H1%sys_run_sound & H). apply bind_Some in H as (y2 & H2%torn_turn_sound & H).
  apply bind_Some in H as (y3 & H3%sys_run_sound & [= [Ha Hb]%bool_decide_eq_true]).
  exists (fresh_system demo), y3. split_and!; [apply fresh_system_initial| |by exists 1, 3, write_A, write_B].
  etrans; [by eapply rtc_subrel; [apply torn_whole|]|]. eapply rtc_l; [done|].
  by eapply rtc_subrel; [apply torn_whole|].
Qed.

(** C39: none of the checks that [guarded] makes on responses can be left out.
    They are: a vote is not of an earlier term than the node's, the response to
    an append reaches a leader, it is not of an earlier term, and a rejection
    names a conflict.  For each of them there is a cluster that delivers what
    passes the other three, crashes between two actions and takes no snapshot,
    and reaches a state where two nodes have applied different commands at one
    index.  So there is with all four checks, if a node can die inside the
    write of entries to its log. *)
Theorem conditions_needed :
  (forall s m, guarded s m <-> Forall (fun c => passes c s m) checks)
  /\ (forall c, c ∈ checks /\ exists cfg y i, NoDup (cfg_nodes cfg) /\ sys_reachable cfg (without c) y /\ applied_differ y i)
  /\ exists cfg y0 y i, NoDup (cfg_nodes cfg) /\ sys_initial cfg y0 /\ rtc (torn_step cfg) y0 y /\ applied_differ y i.
Proof.
  split_and!; [apply guarded_checks| |].
  2: { destruct torn_write_diverges as (y0 & y & ?). exists demo, y0, y, 2. split; [|done].
       by apply (bool_decide_unpack _). }
  intros []; (split; [apply (bool_decide_unpack _); vm_compute; exact I|]).
  - destruct stale_vote_diverges as (y & ?). exists demo, y, 2. split; [|done]. by apply (bool_decide_unpack _).
  - destruct restarted_leader_diverges as (y & ?). exists demo, y, 2. split; [|done]. by apply (bool_decide_unpack _).
  - destruct old_success_diverges as (y & ?). exists demo5, y, 3. split; [|done]. by apply (bool_decide_unpack _).
  - destruct blank_append_diverges as (y & ?). exists demo, y, 2. split; [|done]. by apply (bool_decide_unpack _).
Qed.

(** ** A guarded run

    Leader 1 commits A with node 2; node 2 learns of it, crashes after it has
    applied the first entry, and hears it again. *)
Definition guarded_run : list Turn :=
  let noop1 := mkLogEntry 1 [] in
  let a1 := mkLogEntry 1 write_A in
  let heartbeat := deliver 2 (appends 1 1 2 1 [] 2) in
  (turn <$> [(1, InTick); (2, request 1 1); (1, grant 2 1); (1, InPropose write_A);
     deliver 2 (appends 1 1 1 1 [a1] 0); deliver 1 (append_reply 2 1 0 false (Some 1) None);
     deliver 2 (appends 1 1 0 0 [noop1; a1] 0); deliver 1 (append_reply 2 1 2 true None None);
     (1, InTick); (1, InTick); (1, InTick); (1, InTick); (1, InTick)])
  ++ [mkTurn 2 heartbeat.2 (Some 1%nat); turn heartbeat].

Definition guarded_state : System := sys_after demo guarded guarded_run.

Lemma guarded_state_reachable : sys_reachable demo guarded guarded_state.
Proof.
  apply sys_after_reachable, (bool_decide_unpack _). vm_compute. exact I.
Qed.

(** The log, the role and the commit index of a node. *)
Definition glimpse (y : System) (n : NodeId) : option (list LogEntry * RaftState * Z * Z) :=
  (fun s => (log s, state s, current_term s, commit_index s)) <$> sys_nodes y !! n.

Lemma glimpse_Some y n l r t c : glimpse y n = Some (l, r, t, c) ->
  exists s, sys_nodes y !! n = Some s /\ log s = l /\ state s = r /\ current_term s = t /\ commit_index s = c.
Proof. intros (s & Hs & [= -> -> -> ->])%fmap_Some. by exists s. Qed.
