(* ===== verification/SafetyWitnesses.v ===== *)
(** The safety theorems of the cluster at a concrete state: a leader that has
    committed an entry with a follower, which crashed and caught up. *)

From S2P Require Import Prelude Types RaftCore CoreElection CoreInvariant CoreEffects Cluster.
From S2P Require Import ElectionSafety RaftSpec Replicas ClusterSafety ReplicaRuns.
#[local] Open Scope Z_scope.

Lemma demo_nodes : NoDup (cfg_nodes demo) /\ len (cfg_nodes demo) < U64.
Proof. split; [|done]. apply (bool_decide_unpack _). vm_compute. exact I. Qed.

Definition leader_log : list LogEntry := [mkLogEntry 1 []; mkLogEntry 1 write_A].

Lemma leader_glimpse : glimpse guarded_state 1 = Some (leader_log, Leader, 1, 2).
Proof. vm_compute. reflexivity. Qed.

Lemma follower_glimpse : glimpse guarded_state 2 = Some (leader_log, Follower, 1, 2).
Proof. vm_compute. reflexivity. Qed.

Lemma cluster_refines_raft_witness :
  sys_applied guarded_state = [(1, (1, [])); (1, (2, write_A)); (2, (1, [])); (2, (1, [])); (2, (2, write_A))]
  /\ exists a, spec_reachable (cfg_nodes demo) a /\ sys_rel demo a guarded_state.
Proof.
  split; [vm_compute; reflexivity|].
  apply (cluster_refines_raft demo); [apply demo_nodes..|apply guarded_state_reachable].
Defined.

Lemma state_machine_safety_witness : exists c1 c2,
  (1, (2, c1)) ∈ sys_applied guarded_state /\ (2, (2, c2)) ∈ sys_applied guarded_state /\ c1 = c2.
Proof.
  assert ((1, (2, write_A)) ∈ sys_applied guarded_state) as H1
    by (apply (bool_decide_unpack _); vm_compute; exact I).
  assert ((2, (2, write_A)) ∈ sys_applied guarded_state) as H2
    by (apply (bool_decide_unpack _); vm_compute; exact I).
  exists write_A, write_A. split; [done|]. split; [done|].
  exact (state_machine_safety demo (proj1 demo_nodes) (proj2 demo_nodes) guarded_state 1 2 2 _ _
    guarded_state_reachable H1 H2).
Defined.

Lemma log_matching_witness : exists s1 s2, sys_nodes guarded_state !! 1 = Some s1
  /\ sys_nodes guarded_state !! 2 = Some s2 /\ take 2 (log s1) = take 2 (log s2).
Proof.
  destruct (glimpse_Some _ _ _ _ _ _ leader_glimpse) as (s1 & H1 & L1 & _).
  destruct (glimpse_Some _ _ _ _ _ _ follower_glimpse) as (s2 & H2 & L2 & _).
  exists s1, s2. split; [done|]. split; [done|].
  refine (log_matching demo (proj1 demo_nodes) (proj2 demo_nodes) guarded_state 1 2 s1 s2 1
    (mkLogEntry 1 write_A) (mkLogEntry 1 write_A) guarded_state_reachable H1 H2 _ _ eq_refl);
    [by rewrite L1|by rewrite L2].
Defined.

Lemma leader_completeness_witness : exists s1 s2, sys_nodes guarded_state !! 2 = Some s1
  /\ sys_nodes guarded_state !! 1 = Some s2 /\ commit_index s1 = 2
  /\ take (Z.to_nat (commit_index s1)) (log s1) `prefix_of` log s2.
Proof.
  destruct (glimpse_Some _ _ _ _ _ _ follower_glimpse) as (s1 & H1 & _ & _ & T1 & C1).
  destruct (glimpse_Some _ _ _ _ _ _ leader_glimpse) as (s2 & H2 & _ & R2 & T2 & _).
  exists s1, s2. split_and!; [done..|].
  apply (leader_completeness demo (proj1 demo_nodes) (proj2 demo_nodes) guarded_state 2 1);
    [apply guarded_state_reachable|done..|]. by rewrite T1, T2.
Defined.
