(* ===== verification/TestHarness.v ===== *)
(** The helpers of the core's unit tests: crates/raftcore/src/lib.rs, the test
    module up to its first test, and the helpers between the tests.

    A test changes nodes and a queue of messages and panics when an assertion
    fails: it is a program in a state monad over [exec].  The state is the
    [TestCluster] of the source; the tests that keep their nodes in local
    variables keep them in its map, node [n] at key [n]. *)

From S2P Require Import Prelude Types RaftCore.
From Stdlib Require Import Strings.Byte.

(** ** Tests *)
Record TestCluster := mkTestCluster {
  tc_nodes : gmap Z RaftCore;
  pending_messages : list (NodeId * NodeId * Message);
  partitioned : gset Z;
  tc_leader : option NodeId;
}.

#[export] Instance eta_TestCluster : Eta TestCluster := fun c =>
  mkTestCluster (tc_nodes c) (pending_messages c) (partitioned c) (tc_leader c).
#[export] Instance field_tc_nodes : Field tc_nodes := ltac:(solve_field).
#[export] Instance field_pending : Field pending_messages := ltac:(solve_field).
#[export] Instance field_partitioned : Field partitioned := ltac:(solve_field).
#[export] Instance field_tc_leader : Field tc_leader := ltac:(solve_field).

Definition scenario (A : Type) : Type := TestCluster -> exec (TestCluster * A).

#[export] Instance scenario_ret : MRet scenario := fun A a c => Done (c, a).
#[export] Instance scenario_bind : MBind scenario := fun A B f m c =>
  '(c, a) ← m c; f a c.

Definition get {A} (f : TestCluster -> A) : scenario A := fun c => Done (c, f c).
Definition put (f : TestCluster -> TestCluster) : scenario () := fun c => Done (f c, ()).
Definition lift {A} (m : exec A) : scenario A := fun c => a ← m; Done (c, a).

#[export] Instance exec_eq_decision `{EqDecision A} : EqDecision (exec A).
Proof. solve_decision. Defined.

(** [assert!] and [assert_eq!]; [panic!] is [lift Panic]. *)
Definition check (b : bool) : exec () := if b then Done () else Panic.
Definition check_eq {A} `{EqDecision A} (a b : A) : exec () := check (bool_decide (a = b)).
Definition assert (b : bool) : scenario () := lift (check b).
Definition assert_eq {A} `{EqDecision A} (a b : A) : scenario () := assert (bool_decide (a = b)).

Fixpoint for_each {A} (l : list A) (body : A -> scenario ()) : scenario () :=
  match l with
  | [] => mret ()
  | a :: l => body a;; for_each l body
  end.

Fixpoint times (n : nat) (body : scenario ()) : scenario () :=
  match n with O => mret () | S n => body;; times n body end.

(** [v[i]] *)
Definition at_index {A} (l : list A) (i : nat) : scenario A := lift (unwrap (l !! i)).

Definition first_where {A} (p : A -> bool) (l : list A) : option A := head (filter p l).

Definition count {A} (p : A -> bool) (l : list A) : nat := length (filter p l).

(** ** Nodes *)
Definition tc_node (n : NodeId) : scenario RaftCore :=
  c ← get tc_nodes; lift (unwrap (c !! n)).

(** A method that takes [&mut self], on node [n]. *)
Definition call {A} (n : NodeId) (f : RaftCore -> exec (RaftCore * A)) : scenario A :=
  s ← tc_node n;
  '(s, a) ← lift (f s);
  put (fun c => c <| tc_nodes := <[n := s]> (tc_nodes c) |>);;
  mret a.

(** An assignment to fields of node [n]. *)
Definition update (n : NodeId) (f : RaftCore -> RaftCore) : scenario () :=
  call n (fun s => Done (f s, ())).

Definition push_log (n : NodeId) (entries : list LogEntry) : scenario () :=
  update n (fun s => s <| log := log s ++ entries |>).

Definition assert_node {A} `{EqDecision A} (n : NodeId) (f : RaftCore -> A) (a : A) : scenario () :=
  s ← tc_node n; assert_eq (f s) a.

(** ** Actions *)
Definition is_send (a : Action) : bool :=
  match a with SendMessage _ _ => true | _ => false end.

Definition is_persist_log (a : Action) : bool :=
  match a with PersistLogEntries _ _ => true | _ => false end.

Definition is_apply (a : Action) : bool :=
  match a with ApplyToStateMachine _ _ => true | _ => false end.

Definition sends (a : Action) : option (NodeId * Message) :=
  match a with SendMessage target message => Some (target, message) | _ => None end.

Definition extract_request_votes (actions : list Action) : list (NodeId * RequestVoteRPC) :=
  omap (fun a => match a with
                 | SendMessage target (RequestVote req) => Some (target, req)
                 | _ => None
                 end) actions.

Definition extract_request_vote_responses (actions : list Action)
    : list (NodeId * RequestVoteResponseRPC) :=
  omap (fun a => match a with
                 | SendMessage target (RequestVoteResponse resp) => Some (target, resp)
                 | _ => None
                 end) actions.

Definition extract_append_entries (actions : list Action) : list (NodeId * AppendEntriesRPC) :=
  omap (fun a => match a with
                 | SendMessage target (AppendEntries req) => Some (target, req)
                 | _ => None
                 end) actions.

Definition extract_append_entries_responses (actions : list Action)
    : list (NodeId * AppendEntriesResponseRPC) :=
  omap (fun a => match a with
                 | SendMessage target (AppendEntriesResponse resp) => Some (target, resp)
                 | _ => None
                 end) actions.

Section harness.
Context (g : Rng).

(** ** The test cluster *)
Definition test_range : Z * Z := (15, 31).

Definition tc_new (node_ids : list NodeId) : exec TestCluster :=
  nodes ← mapM (fun n => s ← new g n node_ids None test_range; Done (n, s)) node_ids;
  Done (mkTestCluster (foldl (fun m kv => <[kv.1 := kv.2]> m) ∅ nodes) [] ∅ None).

Definition tc_tick_node (n : NodeId) : scenario (list Action) := call n (tick g).

(** [for _ in 0..node.election_timeout - 1 { node.tick(); }] *)
Definition tick_until_candidate (n : NodeId) : scenario () :=
  s ← tc_node n;
  times (Z.to_nat (election_timeout s -! 1)) (tc_tick_node n;; mret ()).

Definition tick_until_heartbeat (n : NodeId) : scenario () :=
  s ← tc_node n;
  times (Z.to_nat (heartbeat_interval s -! 1)) (tc_tick_node n;; mret ()).

Definition collect_actions (from : NodeId) (actions : list Action)
    : scenario (gmap Z (list Action)) :=
  let messages := omap sends actions in
  let other := filter (fun a => negb (is_send a)) actions in
  cut ← get partitioned;
  if bool_decide (from ∈ cut) then mret {[from := other]}
  else
    put (fun c => c <| pending_messages := pending_messages c
                        ++ ((fun tm => (from, tm.1, tm.2)) <$> messages) |>);;
    mret {[from := other]}.

(** One message of the loops of [deliver_all] and [deliver_to]. *)
Definition deliver_one (results : gmap Z (list Action)) (p : NodeId * NodeId * Message)
    : scenario (gmap Z (list Action)) :=
  let '(_, recipient, msg) := p in
  cut ← get partitioned;
  if bool_decide (recipient ∈ cut) then mret results
  else
    actions ← call recipient (fun s => handle_message g s msg);
    new_actions ← collect_actions recipient actions;
    mret (<[recipient := default [] (results !! recipient) ++ default [] (new_actions !! recipient)]>
            results).

Fixpoint deliver_each (results : gmap Z (list Action)) (l : list (NodeId * NodeId * Message))
    : scenario (gmap Z (list Action)) :=
  match l with
  | [] => mret results
  | p :: l => results ← deliver_one results p; deliver_each results l
  end.

Definition deliver_all : scenario (gmap Z (list Action)) :=
  queue ← get pending_messages;
  let n := if 50 <? len queue then 50%nat else length queue in
  put (fun c => c <| pending_messages := drop n queue |>);;
  deliver_each ∅ (take n queue).

Definition deliver_to (target : NodeId) : scenario (gmap Z (list Action)) :=
  queue ← get pending_messages;
  put (fun c => c <| pending_messages := filter (fun p => p.1.2 <> target) queue |>);;
  deliver_each {[target := []]} (filter (fun p => p.1.2 = target) queue).

(** [node.append_entries()], into the queue. *)
Definition send_appends (n : NodeId) : scenario () :=
  s ← tc_node n;
  actions ← lift (append_entries s);
  collect_actions n actions;;
  mret ().

Definition elect_leader (n : NodeId) : scenario () :=
  tick_until_candidate n;;
  actions ← tc_tick_node n;
  collect_actions n actions;;
  deliver_all;; deliver_all;;
  assert_node n state Leader;;
  put (fun c => c <| tc_leader := Some n |>);;
  deliver_all;; deliver_all;;
  deliver_all;; deliver_all;;
  assert_node n commit_index 1;;
  send_appends n;;
  deliver_all;; deliver_all;;
  ids ← get (fun c => (map_to_list (tc_nodes c)).*1);
  for_each ids (fun i => assert_node i commit_index 1).

(** A test that starts with a cluster, and one that starts with its leader
    elected. *)
Definition with_cluster {A} (node_ids : list NodeId) (body : scenario A) : exec A :=
  c ← tc_new node_ids; '(_, a) ← body c; Done a.

Definition tc_new_with_leader {A} (node_ids : list NodeId) (leader_id : NodeId) (body : scenario A)
    : exec A :=
  with_cluster node_ids (elect_leader leader_id;; body).

Definition the_leader : scenario NodeId := l ← get tc_leader; lift (unwrap l).

(** [node.propose(command).unwrap()] *)
Definition node_propose (n : NodeId) (command : bytes) : scenario (list Action) :=
  actions ← call n (fun s => propose s command);
  lift (unwrap actions).

Definition tc_propose (command : bytes) : scenario (list Action) :=
  leader_id ← the_leader;
  actions ← node_propose leader_id command;
  results ← collect_actions leader_id actions;
  mret (default [] (results !! leader_id)).

Definition propose_and_sync (command : bytes) : scenario (gmap Z (list Action)) :=
  leader_id ← the_leader;
  actions ← node_propose leader_id command;
  collect_actions leader_id actions;;
  deliver_all;;
  leader_actions ← deliver_all;
  send_appends leader_id;;
  follower_actions ← deliver_all;
  mret (follower_actions ∪ {[leader_id := default [] (leader_actions !! leader_id)]}).

Definition partition (n : NodeId) : scenario () :=
  put (fun c => c <| partitioned := {[n]} ∪ partitioned c |>).

Definition heal (n : NodeId) : scenario bool :=
  cut ← get partitioned;
  put (fun c => c <| partitioned := partitioned c ∖ {[n]} |>);;
  mret (bool_decide (n ∈ cut)).

(** ** Tests without the queue: messages are handed over by hand *)

(** The loop over [messages] that hands each to the node it names, when that is
    one of [nodes], and gathers what [extract] finds in its answer. *)
Fixpoint deliver_by {M R} (nodes : list NodeId) (handle : RaftCore -> M -> exec (RaftCore * list Action))
    (extract : list Action -> list R) (messages : list (NodeId * M)) : scenario (list R) :=
  match messages with
  | [] => mret []
  | (n, msg) :: messages =>
      responses ← (if bool_decide (n ∈ nodes)
                   then actions ← call n (fun s => handle s msg); mret (extract actions)
                   else mret []);
      rest ← deliver_by nodes handle extract messages;
      mret (responses ++ rest)
  end.

Definition deliver_request_votes (nodes : list NodeId) (messages : list (NodeId * RequestVoteRPC))
    : scenario (list (NodeId * RequestVoteResponseRPC)) :=
  deliver_by nodes (handle_request_vote g) extract_request_vote_responses messages.

(** The messages for [n], which is the candidate's id, with all their actions. *)
Definition deliver_request_vote_responses_with_actions (n : NodeId)
    (messages : list (NodeId * RequestVoteResponseRPC)) : scenario (list Action) :=
  deliver_by [n] (handle_request_vote_response g) (fun actions => actions) messages.

Definition deliver_request_vote_responses (n : NodeId)
    (messages : list (NodeId * RequestVoteResponseRPC)) : scenario () :=
  deliver_request_vote_responses_with_actions n messages;; mret ().

Definition deliver_append_entries (nodes : list NodeId) (messages : list (NodeId * AppendEntriesRPC))
    : scenario (list (NodeId * AppendEntriesResponseRPC)) :=
  deliver_by nodes (handle_append_entries g) extract_append_entries_responses messages.

Definition deliver_append_entries_responses (n : NodeId)
    (messages : list (NodeId * AppendEntriesResponseRPC)) : scenario () :=
  deliver_by [n] (handle_append_entries_response g) (fun actions => actions) messages;; mret ().

Definition append_entries_loop (leader : NodeId) (nodes : list NodeId) (actions : list Action)
    : scenario () :=
  responses ← deliver_append_entries nodes (extract_append_entries actions);
  deliver_append_entries_responses leader responses.

(** The ticks that make [n] a candidate, with its vote requests. *)
Definition request_votes_of (n : NodeId) : scenario (list (NodeId * RequestVoteRPC)) :=
  tick_until_candidate n;;
  actions ← tc_tick_node n;
  mret (extract_request_votes actions).

Definition make_leader_with_actions (leader : NodeId) (nodes : list NodeId) : scenario (list Action) :=
  vote_requests ← request_votes_of leader;
  responses ← deliver_request_votes nodes vote_requests;
  actions ← deliver_request_vote_responses_with_actions leader responses;
  assert_node leader state Leader;;
  mret actions.

Definition make_leader (leader : NodeId) (nodes : list NodeId) : scenario () :=
  make_leader_with_actions leader nodes;; mret ().

Definition all_follow (node_ids : list NodeId) : scenario () :=
  for_each node_ids (fun n => assert_node n state Follower).

Definition init_three_node_noop_cluster {A} (body : scenario A) : exec A :=
  with_cluster [1; 2; 3] (all_follow [1; 2; 3];; body).

Definition init_five_node_noop_cluster {A} (body : scenario A) : exec A :=
  with_cluster [1; 2; 3; 4; 5] (all_follow [1; 2; 3; 4; 5];; body).

(** ** Single nodes *)
Definition DUMMY : bytes := [x44; x55; x4d; x4d; x59; x5f; x43; x4f; x4d; x4d; x41; x4e; x44].

Definition dummy (term : Z) : LogEntry := mkLogEntry term DUMMY.

Definition fresh_node : exec RaftCore := new g 1 [1; 2; 3] None test_range.

Definition node_with_no_snapshot : exec RaftCore :=
  s ← new g 1 [1; 2; 3] None test_range;
  Done (s <| log := log s ++ [dummy 1; dummy 1; dummy 2] |>).

Definition node_with_snapshot_no_additional : exec RaftCore :=
  s ← new g 1 [1; 2; 3] None test_range;
  Done (s <| last_included_index := 100 |> <| last_included_term := 2 |>).

Definition node_with_snapshot_and_additional : exec RaftCore :=
  s ← new g 1 [1; 2; 3] None test_range;
  Done (s <| last_included_index := 100 |> <| last_included_term := 2 |>
          <| log := log s ++ [dummy 2; dummy 3] |>).

(** A test on one node, which is node 1. *)
Definition with_node {A} (node : exec RaftCore) (body : scenario A) : exec A :=
  s ← node; '(_, a) ← body (mkTestCluster {[1 := s]} [] ∅ None); Done a.
End harness.
