(* ===== verification/ElectionTests.v ===== *)
(** The unit tests of the core on elections: crates/raftcore/src/lib.rs, tests
    module.  Every test is a program that panics when an assertion fails. *)

From S2P Require Import Prelude Types RaftCore TestHarness.

Section tests.
Context (g : Rng).
Notation three := (init_three_node_noop_cluster g).
Notation with_leader := (tc_new_with_leader g).

Definition create_new_raft_core : exec () :=
  node ← new g 1 [1; 2; 3] None test_range;
  check_eq (id node) 1.

Definition raft_initial_election : exec () :=
  with_leader [1; 2; 3] 1
    (assert_node 1 state Leader;;
     assert_node 1 current_term 1;;
     assert_node 2 state Follower;;
     assert_node 3 state Follower;;
     assert_node 2 current_term 1;;
     assert_node 3 current_term 1;;
     assert_node 1 current_leader (Some 1);;
     assert_node 2 current_leader (Some 1);;
     assert_node 3 current_leader (Some 1)).

Definition request_vote_correct_log_info : exec () :=
  three
    (push_log 1 [dummy 1];;
     push_log 1 [dummy 2];;
     vote_requests ← request_votes_of g 1;
     assert_eq (count (fun tr => rv_last_log_index tr.2 =? 2) vote_requests) 2%nat;;
     assert_eq (count (fun tr => rv_last_log_term tr.2 =? 2) vote_requests) 2%nat).

Definition test_simultaneous_election : exec () :=
  three
    (tick_until_candidate g 1;;
     tick_until_candidate g 2;;
     node1_actions ← tc_tick_node g 1;
     node2_actions ← tc_tick_node g 2;
     let node1_msgs := extract_request_votes node1_actions in
     let node2_msgs := extract_request_votes node2_actions in
     responses_for_node1 ← deliver_request_votes g [2; 3] node1_msgs;
     responses_for_node2 ← deliver_request_votes g [1; 3] node2_msgs;
     deliver_request_vote_responses g 1 responses_for_node1;;
     assert_node 1 state Leader;;
     for_each responses_for_node2 (fun im =>
       if im.1 =? 3 then assert (negb (rvr_vote_granted im.2)) else mret ());;
     assert_node 3 voted_for (Some 1);;
     deliver_request_vote_responses g 2 responses_for_node2;;
     assert_node 2 state Candidate;;
     assert_node 2 (fun s => size (votes_received s)) 1%nat).

Definition node_receives_request_vote_lower_term : exec () :=
  three
    (update 1 (fun s => s <| current_term := 2 |>);;
     update 2 (fun s => s <| current_term := 2 |>);;
     update 3 (fun s => s <| current_term := 2 |>);;
     node2_actions ← call 2 (fun s => handle_request_vote g s (mkRequestVoteRPC 1 1 0 0));
     first ← at_index node2_actions 0;
     match first with
     | SendMessage target (RequestVoteResponse response) =>
         assert_eq target 1;; assert (negb (rvr_vote_granted response))
     | _ => lift Panic
     end).

Definition candidate_steps_down_with_higher_term_request_vote : exec () :=
  three
    (tick_until_candidate g 1;;
     tc_tick_node g 1;;
     assert_node 1 state Candidate;;
     node1 ← tc_node 1;
     let next_term := current_term node1 +! 1 in
     node1_actions ← call 1 (fun s => handle_request_vote g s (mkRequestVoteRPC next_term 2 0 0));
     assert_node 1 state Follower;;
     assert_node 1 voted_for (Some 2);;
     assert_node 1 current_leader None;;
     assert_node 1 current_term next_term;;
     first ← at_index node1_actions 0;
     match first with
     | SendMessage _ (RequestVoteResponse response) => assert (rvr_vote_granted response)
     | _ => mret ()
     end).

Definition candidate_hits_election_timeout : exec () :=
  three
    (tick_until_candidate g 1;;
     actions ← tc_tick_node g 1;
     assert_node 1 state Candidate;;
     assert_node 1 current_leader None;;
     assert_node 1 current_term 1;;
     deliver_request_votes g [2; 3] (extract_request_votes actions);;
     assert_node 2 current_term 1;;
     assert_node 2 voted_for (Some 1);;
     assert_node 3 current_term 1;;
     assert_node 3 voted_for (Some 1);;
     tick_until_candidate g 1;;
     actions ← tc_tick_node g 1;
     assert_node 1 state Candidate;;
     assert_node 1 current_term 2;;
     responses ← deliver_request_votes g [2; 3] (extract_request_votes actions);
     assert_node 2 current_term 2;;
     assert_node 2 voted_for (Some 1);;
     assert_node 3 current_term 2;;
     assert_node 3 voted_for (Some 1);;
     deliver_request_vote_responses g 1 responses;;
     assert_node 1 state Leader;;
     assert_node 1 current_term 2).

Definition candidate_receives_higher_term_response : exec () :=
  three
    (tick_until_candidate g 1;;
     tc_tick_node g 1;;
     node1 ← tc_node 1;
     let next_term := current_term node1 +! 1 in
     call 1 (fun s => handle_request_vote_response g s (mkRequestVoteResponseRPC 2 next_term false));;
     assert_node 1 state Follower;;
     assert_node 1 current_term next_term).

Definition candidate_receives_duplicate_vote : exec () :=
  init_five_node_noop_cluster g
    (vote_requests ← request_votes_of g 1;
     responses ← deliver_request_votes g [2; 3; 4; 5] vote_requests;
     '(_, node2_resp) ← lift (unwrap (first_where (fun ir => rvr_id ir.2 =? 2) responses));
     assert_node 1 state Candidate;;
     call 1 (fun s => handle_request_vote_response g s node2_resp);;
     assert_node 1 (fun s => size (votes_received s)) 2%nat;;
     call 1 (fun s => handle_request_vote_response g s node2_resp);;
     assert_node 1 state Candidate;;
     assert_node 1 (fun s => size (votes_received s)) 2%nat).

Definition leader_steps_down : exec () :=
  three
    (tick_until_candidate g 1;;
     assert_node 1 state Follower;;
     actions ← tc_tick_node g 1;
     assert_node 1 state Candidate;;
     assert (negb (bool_decide (actions = [])));;
     responses ← deliver_request_votes g [2; 3] (extract_request_votes actions);
     deliver_request_vote_responses g 1 responses;;
     assert_node 1 state Leader;;
     assert_node 1 current_term 1;;
     vote_requests ← request_votes_of g 2;
     deliver_request_votes g [1; 3] vote_requests;;
     assert_node 1 state Follower;;
     assert_node 1 current_leader None).

(** ** Logs in elections *)
Definition granted_by (n : NodeId) (granted : bool) (responses : list (NodeId * RequestVoteResponseRPC)) : nat :=
  count (fun tr => (rvr_id tr.2 =? n) && Bool.eqb granted (rvr_vote_granted tr.2)) responses.

Definition reject_vote_candidate_log_behind : exec () :=
  three
    (push_log 2 [dummy 2];;
     vote_requests ← request_votes_of g 1;
     responses ← deliver_request_votes g [2; 3] vote_requests;
     assert_eq (granted_by 2 false responses) 1%nat).

Definition reject_vote_same_last_term_shorter_log : exec () :=
  three
    (push_log 1 [dummy 1];;
     push_log 3 [dummy 1];;
     push_log 2 [dummy 1];;
     push_log 2 [dummy 1];;
     vote_requests ← request_votes_of g 1;
     responses ← deliver_request_votes g [2; 3] vote_requests;
     assert_eq (granted_by 2 false responses) 1%nat;;
     assert_eq (granted_by 3 true responses) 1%nat).

Definition grant_vote_candidate_higher_last_term : exec () :=
  three
    (push_log 2 [dummy 1; dummy 1; dummy 1];;
     push_log 1 [dummy 2];;
     vote_requests ← request_votes_of g 1;
     responses ← deliver_request_votes g [2; 3] vote_requests;
     assert_eq (granted_by 2 true responses) 1%nat).

Definition assert_metadata (a : Action) (term : Z) (vote : option NodeId) : scenario () :=
  match a with
  | PersistMetadata t v => assert_eq t term;; assert_eq v vote
  | _ => lift Panic
  end.

Definition election_emits_persist_metadata : exec () :=
  with_cluster g [1; 2; 3]
    (tick_until_candidate g 1;;
     actions ← tc_tick_node g 1;
     first ← at_index actions 0;
     assert_metadata first 1 (Some 1)).

Definition grant_vote_emits_persist_metadata : exec () :=
  with_cluster g [1; 2; 3]
    (tick_until_candidate g 1;;
     actions ← tc_tick_node g 1;
     node2_act ← lift (unwrap (first_where (fun a =>
       match a with SendMessage target _ => target =? 2 | _ => false end) actions));
     match node2_act with
     | SendMessage _ (RequestVote node2_msg) =>
         node2_actions ← call 2 (fun s => handle_request_vote g s node2_msg);
         first ← at_index node2_actions 0;
         assert_metadata first 1 None;;
         second ← at_index node2_actions 1;
         assert_metadata second 1 (Some 1)
     | _ => lift Panic
     end).

Definition election_tests : list (exec ()) :=
  [create_new_raft_core; raft_initial_election; request_vote_correct_log_info; test_simultaneous_election;
   node_receives_request_vote_lower_term; candidate_steps_down_with_higher_term_request_vote;
   candidate_hits_election_timeout; candidate_receives_higher_term_response;
   candidate_receives_duplicate_vote; leader_steps_down; reject_vote_candidate_log_behind;
   reject_vote_same_last_term_shorter_log; grant_vote_candidate_higher_last_term;
   election_emits_persist_metadata; grant_vote_emits_persist_metadata].
End tests.
