(* ===== verification/ReplicationTests.v ===== *)
(** The unit tests of the core on replication: crates/raftcore/src/lib.rs,
    tests module. *)

From S2P Require Import Prelude Types RaftCore TestHarness.
From Stdlib Require Import Strings.Byte.

Section tests.
Context (g : Rng).
Notation three := (init_three_node_noop_cluster g).
Notation with_leader := (tc_new_with_leader g).

(** How many queued messages satisfy [p]. *)
Definition assert_pending (p : NodeId -> NodeId -> Message -> bool) (n : nat) : scenario () :=
  queue ← get pending_messages;
  assert_eq (count (fun ftm => p ftm.1.1 ftm.1.2 ftm.2) queue) n.

Definition heartbeat_of (n : NodeId) : scenario (list Action) :=
  tick_until_heartbeat g n;; tc_tick_node g n.

Definition leader_sends_heartbeat_at_interval : exec () :=
  with_leader [1; 2; 3] 1
    (hb_actions ← heartbeat_of 1;
     collect_actions 1 hb_actions;;
     queue ← get pending_messages;
     assert_eq (length queue) 2%nat;;
     assert_pending (fun _ _ msg => match msg with
       | AppendEntries req => bool_decide (ae_entries req = [])
       | _ => false
       end) 2).

Definition succeeded (msg : Message) : bool :=
  match msg with AppendEntriesResponse resp => aer_success resp | _ => false end.

Definition failed (msg : Message) : bool :=
  match msg with AppendEntriesResponse resp => negb (aer_success resp) | _ => false end.

Definition failed_at (k : Z) (msg : Message) : bool :=
  match msg with
  | AppendEntriesResponse resp =>
      negb (aer_success resp) && bool_decide (aer_first_conflicting_index resp = Some k)
  | _ => false
  end.

Definition append_of_length (n : nat) (msg : Message) : bool :=
  match msg with AppendEntries req => bool_decide (length (ae_entries req) = n) | _ => false end.

Definition append_from (prev : Z) (n : nat) (msg : Message) : bool :=
  match msg with
  | AppendEntries req => (ae_prev_log_index req =? prev) && bool_decide (length (ae_entries req) = n)
  | _ => false
  end.

Definition follower_resets_election_timeout : exec () :=
  with_leader [1; 2; 3] 1
    (actions ← heartbeat_of 1;
     collect_actions 1 actions;;
     tc_tick_node g 2;;
     tc_tick_node g 3;;
     assert_node 2 (fun s => 0 <? ticks_since_last_heartbeat s) true;;
     assert_node 3 (fun s => 0 <? ticks_since_last_heartbeat s) true;;
     deliver_all g;;
     assert_node 2 ticks_since_last_heartbeat 0;;
     assert_node 3 ticks_since_last_heartbeat 0;;
     assert_pending (fun _ _ msg => succeeded msg) 2).

Definition assert_answer (actions : list Action) (success : bool) : scenario () :=
  first ← at_index actions 0;
  match first with
  | SendMessage _ (AppendEntriesResponse resp) => assert_eq (aer_success resp) success
  | _ => lift Panic
  end.

Definition follower_rejects_heartbeat_with_lower_term : exec () :=
  three
    (make_leader g 1 [2; 3];;
     assert_node 1 current_term 1;;
     assert_node 2 current_term 1;;
     assert_node 3 current_term 1;;
     node1 ← tc_node 1;
     action ← call 2 (fun s => handle_append_entries g s (mkAppendEntriesRPC 0 (id node1) 0 0 [] 0));
     assert_eq (length action) 1%nat;;
     assert_node 2 current_leader None;;
     assert_answer action false).

Definition candidate_steps_down_with_equal_term_append_entries : exec () :=
  three
    (tick_until_candidate g 1;;
     tc_tick_node g 1;;
     assert_node 1 state Candidate;;
     node1 ← tc_node 1;
     node1_actions ← call 1 (fun s =>
       handle_append_entries g s (mkAppendEntriesRPC (current_term node1) 2 0 0 [] 0));
     assert_node 1 state Follower;;
     assert_answer node1_actions true).

Definition candidate_steps_down_with_higher_term_append_entries : exec () :=
  three
    (tick_until_candidate g 1;;
     tc_tick_node g 1;;
     assert_node 1 state Candidate;;
     node1 ← tc_node 1;
     let next_term := current_term node1 +! 1 in
     node1_actions ← call 1 (fun s =>
       handle_append_entries g s (mkAppendEntriesRPC next_term 2 0 0 [] 0));
     assert_node 1 state Follower;;
     assert_node 1 current_term next_term;;
     assert_eq (count (fun a => match a with SendMessage _ m => succeeded m | _ => false end)
                  node1_actions) 1%nat).

Definition correct_next_match_index : exec () :=
  three
    (make_leader g 1 [2; 3];;
     for_each [2; 3] (fun n =>
       assert_node 1 (fun s => next_index s !! n) (Some 2);;
       assert_node 1 (fun s => match_index s !! n) (Some 0))).

(** ** Proposals *)
Definition last_entry (s : RaftCore) : option LogEntry := last (log s).

Definition basic_propose_test : exec () :=
  with_leader [1; 2; 3] 1
    (tc_propose DUMMY;;
     node1 ← tc_node 1;
     assert_eq (current_term node1) 1;;
     assert_eq (e_term <$> last_entry node1) (Some (current_term node1));;
     assert_eq (e_command <$> last_entry node1) (Some DUMMY);;
     assert_pending (fun _ _ msg => match msg with AppendEntries _ => true | _ => false end) 2).

Definition followers_append_entries : exec () :=
  with_leader [1; 2; 3] 1
    (tc_propose DUMMY;;
     deliver_all g;;
     assert_node 2 (fun s => e_term <$> last_entry s) (Some 1);;
     assert_node 2 (fun s => e_command <$> last_entry s) (Some DUMMY);;
     assert_node 3 (fun s => e_term <$> last_entry s) (Some 1);;
     assert_node 3 (fun s => e_command <$> last_entry s) (Some DUMMY)).

(** [n] got exactly one action, and it applies an entry. *)
Definition assert_one_apply (actions : gmap Z (list Action)) (n : NodeId) : scenario () :=
  node_actions ← lift (unwrap (actions !! n));
  assert_eq (length node_actions) 1%nat;;
  first ← at_index node_actions 0;
  assert (is_apply first).

Definition full_append_entries_message : exec () :=
  with_leader [1; 2; 3] 1
    (actions ← propose_and_sync g DUMMY;
     leader ← the_leader;
     assert_node leader (fun s => next_index s !! 2) (Some 3);;
     assert_node leader (fun s => match_index s !! 2) (Some 2);;
     assert_node leader (fun s => next_index s !! 3) (Some 3);;
     assert_node leader (fun s => match_index s !! 3) (Some 2);;
     assert_node leader commit_index 2;;
     assert_one_apply actions leader).

Definition follower_commit_advancement : exec () :=
  with_leader [1; 2; 3] 1
    (actions ← propose_and_sync g DUMMY;
     assert_node 2 commit_index 2;;
     assert_one_apply actions 2;;
     assert_node 3 commit_index 2;;
     assert_one_apply actions 3).

Definition leader_commit_three_node_cluster : exec () :=
  with_leader [1; 2; 3] 1
    (partition 3;;
     actions ← propose_and_sync g DUMMY;
     leader ← the_leader;
     assert_one_apply actions leader;;
     assert_node leader commit_index 2;;
     assert_node 2 commit_index 2;;
     assert_node 3 commit_index 1).

Definition leader_commit_five_node_cluster : exec () :=
  with_leader [1; 2; 3; 4; 5] 1
    (partition 4;;
     partition 5;;
     actions ← propose_and_sync g DUMMY;
     leader ← the_leader;
     assert_one_apply actions leader;;
     assert_node leader commit_index 2;;
     assert_node 2 commit_index 2;;
     assert_node 3 commit_index 2;;
     assert_node 4 commit_index 1;;
     assert_node 5 commit_index 1).

Definition SECOND : bytes := DUMMY ++ [x32].

(** The loop that looks for both commands among the actions of a node. *)
Fixpoint both_applied (actions : list Action) (cmd1 cmd2 : bool) : exec (bool * bool) :=
  match actions with
  | [] => Done (cmd1, cmd2)
  | ApplyToStateMachine index command :: actions =>
      b ← unwrap (last command);
      if bool_decide (b = x44) then both_applied actions (index =? 2) cmd2
      else if bool_decide (b = x32) then both_applied actions cmd1 (index =? 3)
      else both_applied actions cmd1 cmd2
  | _ :: actions => both_applied actions cmd1 cmd2
  end.

Definition multiple_entries_applied : exec () :=
  with_leader [1; 2; 3] 1
    (partition 2;;
     partition 3;;
     propose_and_sync g DUMMY;;
     heal 2;;
     heal 3;;
     tc_propose SECOND;;
     assert_pending (fun _ _ msg => append_of_length 2 msg) 2;;
     leader_id ← the_leader;
     deliver_all g;;
     deliver_all g;;
     assert_node leader_id commit_index 3;;
     send_appends leader_id;;
     follower_actions ← deliver_all g;
     deliver_all g;;
     assert_node 2 commit_index 3;;
     assert_node 3 commit_index 3;;
     for_each (map_to_list follower_actions) (fun ia =>
       assert_eq (length ia.2) 2%nat;;
       '(cmd1, cmd2) ← lift (both_applied ia.2 false false);
       assert (cmd1 && cmd2))).

Definition OVERWRITE_ME : bytes := [x4f; x56; x45; x52; x57; x52; x49; x54; x45; x20; x4d; x45].

Definition follower_conflicting_entry : exec () :=
  three
    (actions ← make_leader_with_actions g 1 [2; 3];
     append_entries_loop g 1 [2; 3] actions;;
     node1 ← tc_node 1;
     actions ← lift (append_entries node1);
     append_entries_loop g 1 [2; 3] actions;;
     actions ← node_propose 1 DUMMY;
     push_log 2 [mkLogEntry 0 OVERWRITE_ME];;
     responses ← deliver_append_entries g [2; 3] (extract_append_entries actions);
     assert_eq (count (fun tr => aer_success tr.2) responses) 2%nat;;
     assert_node 2 (fun s => e_term <$> log s !! 1%nat) (Some 1)).

(** ** Catching up *)
Definition catch_up_follower : exec () :=
  with_leader [1; 2; 3] 1
    (partition 3;;
     propose_and_sync g DUMMY;;
     heal 3;;
     tc_propose SECOND;;
     assert_pending (fun _ to msg => (to =? 3) && append_of_length 2 msg) 1;;
     deliver_all g;;
     deliver_all g;;
     assert_node 3 (fun s => length (log s)) 3%nat;;
     assert_node 3 last_log_index 3;;
     assert_node 3 (fun s => e_command <$> log s !! 1%nat) (Some DUMMY);;
     assert_node 3 (fun s => e_command <$> log s !! 2%nat) (Some SECOND);;
     leader ← the_leader;
     assert_node leader (fun s => next_index s !! 3) (Some 4)).

(** [node.next_index.entry(peer).and_modify(|v| *v = next)] *)
Definition set_next (n peer : NodeId) (next : Z) : scenario () :=
  update n (fun s => s <| next_index := alter (fun _ => next) peer (next_index s) |>).

Definition same_terms (n m : NodeId) : scenario () :=
  a ← tc_node n; b ← tc_node m; assert_eq (e_term <$> log a) (e_term <$> log b).

Definition follower_well_behind : exec () :=
  with_leader [1; 2; 3] 1
    (push_log 1 [dummy 1; dummy 1; dummy 1];;
     push_log 3 [dummy 1; dummy 1; dummy 1];;
     set_next 1 2 5;;
     update 2 (fun s => s <| current_leader := None |>);;
     set_next 1 3 5;;
     actions ← heartbeat_of 1;
     collect_actions 1 actions;;
     deliver_all g;;
     assert_pending (fun from _ msg => (from =? 2) && failed_at 2 msg) 1;;
     deliver_all g;;
     assert_node 1 (fun s => next_index s !! 2) (Some 2);;
     assert_pending (fun from to msg => (from =? 1) && (to =? 2) && append_from 1 3 msg) 1;;
     deliver_all g;;
     assert_pending (fun from _ msg => (from =? 2) && succeeded msg) 1;;
     same_terms 1 2;;
     assert_node 2 current_leader (Some 1)).

Definition follower_ahead : exec () :=
  with_leader [1; 2; 3] 1
    (push_log 1 [dummy 1];;
     push_log 3 [dummy 1];;
     push_log 2 [dummy 0; dummy 0; dummy 0];;
     set_next 1 2 3;;
     set_next 1 3 3;;
     actions ← heartbeat_of 1;
     collect_actions 1 actions;;
     deliver_all g;;
     assert_pending (fun from _ msg => (from =? 2) && failed_at 2 msg) 1;;
     deliver_all g;;
     assert_node 1 (fun s => next_index s !! 2) (Some 2);;
     assert_pending (fun from to msg => (from =? 1) && (to =? 2) && append_from 1 1 msg) 1;;
     deliver_all g;;
     assert_pending (fun _ to msg => (to =? 1) && succeeded msg) 1;;
     same_terms 1 2).

Definition mix_and_matched_logs : exec () :=
  with_leader [1; 2; 3] 1
    (push_log 1 [dummy 1; dummy 1];;
     push_log 2 [dummy 1; dummy 1];;
     push_log 3 [dummy 1];;
     push_log 3 [dummy 2];;
     set_next 1 2 4;;
     set_next 1 3 4;;
     actions ← heartbeat_of 1;
     collect_actions 1 actions;;
     deliver_all g;;
     assert_pending (fun from _ msg => (from =? 3) && failed msg) 1;;
     deliver_all g;;
     assert_node 1 (fun s => next_index s !! 3) (Some 3);;
     queue ← get pending_messages;
     assert (negb (bool_decide (queue = [])));;
     deliver_all g;;
     assert_pending (fun from _ msg => (from =? 3) && succeeded msg) 1;;
     same_terms 1 3).

(** ** Persistence *)
Definition assert_persists (actions : list Action) (start : Z) (entries : list LogEntry) : scenario () :=
  first ← at_index actions 0;
  match first with
  | PersistLogEntries start_index es => assert_eq start_index start;; assert_eq es entries
  | _ => lift Panic
  end.

Definition propose_emits_persist_log : exec () :=
  with_leader [1; 2; 3] 1
    (actions ← node_propose 1 DUMMY;
     assert_persists actions 2 [dummy 1]).

(** The first append to [n] among the actions. *)
Definition append_to (n : NodeId) (actions : list Action) : scenario AppendEntriesRPC :=
  lift (unwrap (snd <$> first_where (fun tr => tr.1 =? n) (extract_append_entries actions))).

Definition follower_append_emits_persist_log : exec () :=
  with_leader [1; 2; 3] 1
    (actions ← node_propose 1 DUMMY;
     node2_msg ← append_to 2 actions;
     node3_msg ← append_to 3 actions;
     node2_actions ← call 2 (fun s => handle_append_entries g s node2_msg);
     node3_actions ← call 3 (fun s => handle_append_entries g s node3_msg);
     assert_persists node2_actions 2 [dummy 1];;
     assert_persists node3_actions 2 [dummy 1]).

Definition heartbeat_no_persist : exec () :=
  with_leader [1; 2; 3] 1
    (actions ← heartbeat_of 1;
     assert_eq (count is_persist_log actions) 0%nat;;
     collect_actions 1 actions;;
     node_actions ← deliver_all g;
     for_each (map_to_list node_actions) (fun ia => assert_eq (count is_persist_log ia.2) 0%nat)).

Definition leader_election_emits_persist_log : exec () :=
  with_cluster g [1; 2; 3]
    (tick_until_candidate g 1;;
     actions ← tc_tick_node g 1;
     collect_actions 1 actions;;
     deliver_all g;;
     actions ← deliver_all g;
     leader_actions ← lift (unwrap (actions !! 1));
     assert_persists leader_actions 1 [mkLogEntry 1 []]).

Definition replication_tests : list (exec ()) :=
  [leader_sends_heartbeat_at_interval; follower_resets_election_timeout;
   follower_rejects_heartbeat_with_lower_term; candidate_steps_down_with_equal_term_append_entries;
   candidate_steps_down_with_higher_term_append_entries; correct_next_match_index; basic_propose_test;
   followers_append_entries; full_append_entries_message; follower_commit_advancement;
   leader_commit_three_node_cluster; leader_commit_five_node_cluster; multiple_entries_applied;
   follower_conflicting_entry; catch_up_follower; follower_well_behind; follower_ahead;
   mix_and_matched_logs; propose_emits_persist_log; follower_append_emits_persist_log;
   heartbeat_no_persist; leader_election_emits_persist_log].
End tests.
