(* ===== verification/SnapshotTests.v ===== *)
(** The unit tests of the core on logical indices and snapshots:
    crates/raftcore/src/lib.rs, tests module. *)

From S2P Require Import Prelude Types RaftCore TestHarness.
From Stdlib Require Import Strings.Byte.

Section tests.
Context (g : Rng).
Notation fresh := (fresh_node g).
Notation no_snapshot := (node_with_no_snapshot g).
Notation snapshot_no_additional := (node_with_snapshot_no_additional g).
Notation snapshot_and_additional := (node_with_snapshot_and_additional g).

(** ** Logical indices *)
Definition log_term_at_same_index : exec () :=
  node ← snapshot_no_additional;
  check_eq (log_term_at node (last_included_index node)) (Some (last_included_term node)).

Definition log_term_at_lower_index : exec () :=
  node ← snapshot_no_additional;
  check_eq (log_term_at node 2) None.

Definition log_term_at_index_in_physical_log_with_snapshot : exec () :=
  node ← snapshot_and_additional;
  check_eq (log_term_at node 101) (Some 2);;
  check_eq (log_term_at node 102) (Some 3).

Definition log_term_at_index_in_physical_log : exec () :=
  node ← no_snapshot;
  check_eq (log_term_at node 1) (Some 1);;
  check_eq (log_term_at node 3) (Some 2).

Definition log_term_at_index_beyond : exec () :=
  node ← no_snapshot;
  check_eq (log_term_at node 100) None;;
  node ← snapshot_no_additional;
  check_eq (log_term_at node 101) None;;
  node ← snapshot_and_additional;
  check_eq (log_term_at node 200) None.

Definition check_slice (node : RaftCore) (from to : Z) (entries : list LogEntry) : exec () :=
  slice ← log_slice node from to; check_eq slice entries.

Definition log_slice_no_snapshot : exec () :=
  node ← no_snapshot;
  check_slice node 1 1 [];;
  check_slice node 2 3 [dummy 1];;
  check_slice node 2 4 [dummy 1; dummy 2];;
  check_slice node 3 5 [dummy 2];;
  check_slice node (last_included_index node +! 1) (last_log_index node +! 1) [dummy 1; dummy 1; dummy 2].

Definition log_slice_snapshot_no_additional : exec () :=
  node ← snapshot_no_additional;
  check_slice node 100 100 [];;
  check_slice node 99 100 [];;
  check_slice node 100 101 [];;
  check_slice node 101 102 [];;
  check_slice node (last_included_index node +! 1) (last_log_index node +! 1) [].

Definition log_slice_snapshot : exec () :=
  node ← snapshot_and_additional;
  check_slice node 101 101 [];;
  check_slice node 101 102 [dummy 2];;
  check_slice node 101 103 [dummy 2; dummy 3];;
  check_slice node 99 103 [];;
  check_slice node 100 101 [];;
  check_slice node 101 (last_log_index node +! 5) [dummy 2; dummy 3];;
  check_slice node (last_included_index node +! 1) (last_log_index node +! 1) [dummy 2; dummy 3].

(** The test [last_log_index]. *)
Definition last_log_index_test : exec () :=
  node ← fresh;
  check_eq (last_log_index node) 0;;
  node ← no_snapshot;
  check_eq (last_log_index node) 3;;
  node ← snapshot_no_additional;
  check_eq (last_log_index node) 100;;
  node ← snapshot_and_additional;
  check_eq (last_log_index node) 102.

Definition check_last_term (node : RaftCore) (term : Z) : exec () :=
  t ← last_log_term node; check_eq t term.

(** The test [last_log_term]. *)
Definition last_log_term_test : exec () :=
  node ← fresh;
  check_last_term node 0;;
  node ← no_snapshot;
  check_last_term node 2;;
  node ← snapshot_no_additional;
  check_last_term node 2;;
  node ← snapshot_and_additional;
  check_last_term node 3.

(** ** Taking snapshots *)
Definition check_prepared (node : RaftCore) (index term : Z) : exec () :=
  snapshot ← prepare_snapshot node;
  check_eq (sm_last_applied snapshot) index;;
  check_eq (sm_last_applied_term snapshot) term.

Definition prepare_snapshot_test : exec () :=
  node ← fresh;
  check_prepared node 0 0;;
  node ← no_snapshot;
  check_prepared (node <| last_applied := 1 |>) 1 1;;
  node ← no_snapshot;
  check_prepared (node <| last_applied := 3 |>) 3 2;;
  node ← snapshot_and_additional;
  check_prepared (node <| last_applied := 101 |>) 101 2;;
  node ← snapshot_and_additional;
  check_prepared (node <| last_applied := 102 |>) 102 3.

Definition complete_snapshot_test : exec () :=
  node ← no_snapshot;
  node ← complete_snapshot node (mkSnapshotMetadata 2 1);
  check_eq (last_included_index node) 2;;
  check_eq (last_included_term node) 1;;
  check_eq (length (log node)) 1%nat;;
  check_eq (e_term <$> log node !! 0%nat) (Some 2);;
  node ← snapshot_and_additional;
  node ← complete_snapshot node (mkSnapshotMetadata 101 2);
  check_eq (last_included_index node) 101;;
  check_eq (last_included_term node) 2;;
  check_eq (length (log node)) 1%nat.

Definition complete_snapshot_bail : exec () :=
  node ← snapshot_and_additional;
  node ← complete_snapshot node (mkSnapshotMetadata 50 1);
  check_eq (last_included_index node) 100;;
  check_eq (last_included_term node) 2.

(** ** Sending and installing snapshots *)
Definition check_sends_snapshot (action : Action) : exec () :=
  match action with
  | SendInstallSnapshot target term index iterm =>
      check_eq target 2;; check_eq term 3;; check_eq index 100;; check_eq iterm 2
  | _ => Panic
  end.

Definition node_sends_snapshot : exec () :=
  leader ← snapshot_and_additional;
  let leader := leader <| current_term := 3 |> in
  let leader := leader <| next_index := <[2 := 3]> (next_index leader) |> in
  action ← build_append_entries_for_peer leader 2;
  check_sends_snapshot action;;
  let leader := leader <| next_index := <[2 := last_included_index leader +! 1]> (next_index leader) |> in
  action ← build_append_entries_for_peer leader 2;
  match action with
  | SendMessage target (AppendEntries req) =>
      check_eq target 2;; check_eq (length (ae_entries req)) 2%nat
  | _ => Panic
  end;;
  let leader := leader <| next_index := <[2 := 0]> (next_index leader) |> in
  action ← build_append_entries_for_peer leader 2;
  check_sends_snapshot action.

(** [map.entry(k).or_insert(v)] *)
Definition or_insert (m : gmap Z Z) (k v : Z) : gmap Z Z := <[k := default v (m !! k)]> m.

Definition test_install_snapshot_response : exec () :=
  node ← snapshot_and_additional;
  let node := node <| state := Leader |> <| current_term := 3 |> in
  let node := node <| next_index := or_insert (next_index node) 2 0 |>
                   <| match_index := or_insert (match_index node) 2 0 |> in
  '(node, actions) ← handle_install_snapshot_response g node (mkInstallSnapshotResponseRPC 2 3 100);
  check_eq actions [];;
  check_eq (next_index node !! 2) (Some (last_included_index node +! 1));;
  check_eq (match_index node !! 2) (Some (last_included_index node));;
  '(node, actions) ← handle_install_snapshot_response g node (mkInstallSnapshotResponseRPC 2 4 105);
  check (negb (bool_decide (actions = [])));;
  first ← unwrap (actions !! 0%nat);
  match first with
  | PersistMetadata term voted_for => check_eq term 4;; check_eq voted_for None
  | _ => Panic
  end.

(** The action is an answer to node 2 that names [index]. *)
Definition check_snapshot_answer (actions : list Action) (i : nat) (index : Z) : exec () :=
  action ← unwrap (actions !! i);
  match action with
  | SendMessage target (InstallSnapshotResponse resp) =>
      check_eq target 2;; check_eq (isr_last_included_index resp) index
  | _ => Panic
  end.

Definition test_handle_snapshot_bail : exec () :=
  node ← snapshot_and_additional;
  let node := node <| current_term := 2 |> in
  '(node, actions) ← handle_install_snapshot g node
    (mkInstallSnapshotRPC (current_term node -! 1) 2 100 1 []);
  check_eq (length actions) 1%nat;;
  check_eq (current_leader node) None;;
  check_snapshot_answer actions 0 100;;
  '(node, actions) ← handle_install_snapshot g node
    (mkInstallSnapshotRPC 2 2 (last_included_index node / 2) 1 []);
  check_eq (length actions) 1%nat;;
  check_eq (current_leader node) (Some 2);;
  check_snapshot_answer actions 0 100.

Definition test_snapshot_retention : exec () :=
  node ← snapshot_and_additional;
  let node := node <| current_term := 3 |> in
  '(node, actions) ← handle_install_snapshot g node (mkInstallSnapshotRPC 3 2 101 2 []);
  check_eq (length actions) 1%nat;;
  check_snapshot_answer actions 0 101;;
  check_eq (last_included_index node) 100;;
  check_eq (length (log node)) 2%nat;;
  check_eq (log_term_at node 101) (Some 2);;
  check_eq (log_term_at node 102) (Some 3).

Definition test_snapshot_install : exec () :=
  node ← no_snapshot;
  let node := node <| current_term := 2 |> <| commit_index := 3 |> <| last_included_index := 3 |> in
  '(node, actions) ← handle_install_snapshot g node (mkInstallSnapshotRPC 3 2 50 3 [x01; x02; x03]);
  check_eq (length actions) 3%nat;;
  first ← unwrap (actions !! 0%nat);
  match first with
  | PersistMetadata term voted_for => check_eq term 3;; check_eq voted_for None
  | _ => Panic
  end;;
  second ← unwrap (actions !! 1%nat);
  match second with
  | ActInstallSnapshot index term data =>
      check_eq index 50;; check_eq term 3;; check_eq data [x01; x02; x03]
  | _ => Panic
  end;;
  check_snapshot_answer actions 2 50;;
  check_eq (log node) [];;
  check_eq (last_included_index node) 50;;
  check_eq (last_included_term node) 3;;
  check_eq (last_applied node) 50;;
  check_eq (commit_index node) 50;;
  check_eq (current_leader node) (Some 2).

Definition test_candidate_step_down : exec () :=
  node ← no_snapshot;
  let node := node <| state := Candidate |> <| current_term := 2 |> in
  '(node, _) ← handle_install_snapshot g node (mkInstallSnapshotRPC 2 2 100 50 []);
  check_eq (state node) Follower.

Definition snapshot_tests : list (exec ()) :=
  [log_term_at_same_index; log_term_at_lower_index; log_term_at_index_in_physical_log_with_snapshot;
   log_term_at_index_in_physical_log; log_term_at_index_beyond; log_slice_no_snapshot;
   log_slice_snapshot_no_additional; log_slice_snapshot; last_log_index_test; last_log_term_test;
   prepare_snapshot_test; complete_snapshot_test; complete_snapshot_bail; node_sends_snapshot;
   test_install_snapshot_response; test_handle_snapshot_bail; test_snapshot_retention;
   test_snapshot_install; test_candidate_step_down].
End tests.
