(* ===== verification/Codec.v ===== *)
(** Big-endian integers and the frames of the log file: an index (u64), a
    length (u32) and that many bytes. *)

From S2P Require Import Prelude Types.
From Stdlib Require Import Strings.Byte.

(** ** Bytes *)
Definition byte_to_Z (b : byte) : Z := Z.of_N (Byte.to_N b).

Definition byte_of_Z (z : Z) : byte := default x00 (Byte.of_N (Z.to_N (z mod 256))).

Lemma byte_to_Z_range b : 0 <= byte_to_Z b < 256.
Proof. unfold byte_to_Z. pose proof (Byte.to_N_bounded b). lia. Qed.

Lemma byte_to_of_Z z : byte_to_Z (byte_of_Z z) = z mod 256.
Proof.
  unfold byte_to_Z, byte_of_Z. pose proof (Z.mod_pos_bound z 256 ltac:(lia)) as Hb.
  destruct (Byte.of_N (Z.to_N (z mod 256))) as [b|] eqn:Hof; cbn.
  - rewrite (Byte.to_of_N _ Hof). lia.
  - apply Byte.of_N_None_iff in Hof. lia.
Qed.

(** ** [to_be_bytes] and [from_be_bytes] for [n]-byte unsigned integers *)
Fixpoint be_bytes (n : nat) (z : Z) : bytes :=
  match n with
  | O => []
  | S n => byte_of_Z (z / 256 ^ Z.of_nat n) :: be_bytes n z
  end.

Definition be_value (l : bytes) : Z := foldl (fun acc b => acc * 256 + byte_to_Z b) 0 l.

Lemma length_be_bytes n z : length (be_bytes n z) = n.
Proof. induction n; cbn; lia. Qed.

Lemma be_value_acc l acc :
  foldl (fun acc b => acc * 256 + byte_to_Z b) acc l = acc * 256 ^ len l + be_value l.
Proof.
  unfold be_value. revert acc. induction l as [|b l IH]; intros acc; cbn [foldl].
  - rewrite len_nil. lia.
  - rewrite IH, (IH (0 * 256 + _)). rewrite len_cons, Z.pow_add_r by len_lia. lia.
Qed.

Lemma be_value_bytes n z : be_value (be_bytes n z) = z mod 256 ^ Z.of_nat n.
Proof.
  induction n as [|n IH]; [cbn; by rewrite Z.mod_1_r|].
  cbn [be_bytes]. unfold be_value. cbn [foldl]. rewrite be_value_acc, IH, byte_to_of_Z.
  unfold len. rewrite length_be_bytes. replace (Z.of_nat (S n)) with (Z.of_nat n + 1) by lia.
  rewrite Z.pow_add_r by lia. set (p := 256 ^ Z.of_nat n).
  assert (0 < p) by (apply Z.pow_pos_nonneg; lia).
  change (256 ^ 1) with 256. rewrite (Z.rem_mul_r z p 256) by lia. lia.
Qed.

(** Any eight (four) bytes are the encoding of their value. *)
Lemma be_bytes_small n z : 0 <= z < 256 ^ Z.of_nat n -> be_value (be_bytes n z) = z.
Proof. intros Hz. rewrite be_value_bytes. by apply Z.mod_small. Qed.

Lemma be_value_range l : 0 <= be_value l < 256 ^ len l.
Proof.
  induction l as [|b l IH]; [by split|]. unfold be_value. cbn [foldl]. rewrite be_value_acc, len_cons.
  rewrite Z.pow_add_r by len_lia. pose proof (byte_to_Z_range b).
  assert (0 < 256 ^ len l) by (apply Z.pow_pos_nonneg; len_lia). nia.
Qed.

(** ** Reading from a byte stream *)

(** [read_exact(n)]: an error when fewer bytes remain. *)
Definition read_exact (n : nat) (data : bytes) : option (bytes * bytes) :=
  if decide (n <= length data)%nat then Some (take n data, drop n data) else None.

(** [read_u64] and [read_u32]. *)
Definition read_uint (n : nat) (data : bytes) : option (Z * bytes) :=
  '(b, rest) ← read_exact n data; Some (be_value b, rest).

(** ** Frames *)
Definition frame (index : Z) (payload : bytes) : bytes :=
  be_bytes 8 index ++ be_bytes 4 (len payload) ++ payload.

Definition U32 : Z := 4294967296.

Lemma read_exact_app n a b : length a = n -> read_exact n (a ++ b) = Some (a, b).
Proof.
  intros <-. unfold read_exact. rewrite decide_True by (rewrite length_app; lia).
  by rewrite take_app_length, drop_app_length.
Qed.

Lemma read_exact_short n a : (length a < n)%nat -> read_exact n a = None.
Proof. intros H. unfold read_exact. by rewrite decide_False by lia. Qed.

Lemma read_uint_app n z rest :
  0 <= z < 256 ^ Z.of_nat n -> read_uint n (be_bytes n z ++ rest) = Some (z, rest).
Proof.
  intros Hz. unfold read_uint. rewrite read_exact_app by apply length_be_bytes. cbn.
  by rewrite be_bytes_small.
Qed.

Lemma read_uint_short n a : (length a < n)%nat -> read_uint n a = None.
Proof. intros H. unfold read_uint. by rewrite read_exact_short. Qed.

Lemma length_frame index payload : length (frame index payload) = (12 + length payload)%nat.
Proof. unfold frame. rewrite !length_app, !length_be_bytes. lia. Qed.

(** The header of a frame, then its payload. *)
Lemma read_frame index payload rest :
  is_u64 index -> len payload < U32 ->
  read_uint 8 (frame index payload ++ rest) = Some (index, be_bytes 4 (len payload) ++ payload ++ rest)
  /\ read_uint 4 (be_bytes 4 (len payload) ++ payload ++ rest) = Some (len payload, payload ++ rest)
  /\ read_exact (Z.to_nat (len payload)) (payload ++ rest) = Some (payload, rest).
Proof.
  intros Hi Hp. unfold frame. rewrite <- !app_assoc. split_and!.
  - apply read_uint_app. exact Hi.
  - apply read_uint_app. unfold U32 in Hp. change (256 ^ Z.of_nat 4) with 4294967296. len_lia.
  - apply read_exact_app. unfold len. lia.
Qed.
