(* ===== verification/Storage.v ===== *)
(** The storage interface between the event loop and its back ends:
    the [Storage] trait and its data (crates/raft-event-loop/src/types.rs), and
    what an implementation promises, against an abstract view of what is
    stored. *)

From S2P Require Import Prelude Types Codec.

(** ** I/O results *)
Inductive io_error : Type :=
| NotFound
| IoOther (message : string).

Inductive ioresult (A : Type) : Type :=
| Ok (a : A)
| Err (e : io_error).
Arguments Ok {A} a.
Arguments Err {A} e.

(** [result.expect(...)] *)
Definition expect {A} (r : ioresult A) : exec A :=
  match r with Ok a => Done a | Err _ => Panic end.

(** ** Stored data *)
Record PersistedMetadata := mkPersistedMetadata {
  pm_term : Z;
  pm_voted_for : option NodeId;
}.

Record PersistedLogAddendum := mkPersistedLogAddendum {
  pa_start_index : Z;
  pa_entries : list LogEntry;
}.

Record Snapshot := mkSnapshot {
  sn_last_included_index : Z;
  sn_last_included_term : Z;
  sn_data : bytes;
}.

(** ** Serialization

    postcard is a third-party crate: its two functions are parameters, one
    pair per serialized type, and [Postcard_ok] is the round trip the crate
    documents. *)
Class Postcard (T : Type) := {
  to_allocvec : T -> option bytes;
  from_bytes : bytes -> option T;
}.

Class Postcard_ok (T : Type) `{Postcard T} :=
  postcard_round_trip : forall v b, to_allocvec v = Some b -> from_bytes b = Some v.

(** ** The trait *)
Class Storage (S : Type) := {
  store_metadata : S -> PersistedMetadata -> exec (S * ioresult unit);
  restore_metadata : S -> ioresult (option PersistedMetadata);
  store_log_entries : S -> PersistedLogAddendum -> exec (S * ioresult unit);
  restore_log_entries : S -> ioresult (option (list LogEntry));
  store_snapshot : S -> Snapshot -> exec (S * ioresult unit);
  truncate_log : S -> exec (S * ioresult unit);
  retrieve_snapshot_bytes : S -> ioresult bytes;
  restore_snapshot : S -> ioresult (option Snapshot);
}.

(** ** The abstract view *)
Record View := mkView {
  v_metadata : option PersistedMetadata;
  v_log : list (Z * LogEntry);
  v_snapshot : option Snapshot;
}.

(** The entries in front of index [start]. *)
Fixpoint cut (start : Z) (l : list (Z * LogEntry)) : list (Z * LogEntry) :=
  match l with
  | [] => []
  | ie :: l => if ie.1 =? start then [] else ie :: cut start l
  end.

(** Entries numbered from [start]. *)
Fixpoint number (start : Z) (entries : list LogEntry) : list (Z * LogEntry) :=
  match entries with
  | [] => []
  | e :: entries => (start, e) :: number (start +! 1) entries
  end.

(** An implementation, through [represents], does what the view says.
    [storable] are the entries it can write. *)
Class StorageLaws (S : Type) `{Storage S} := {
  represents : S -> View -> Prop;
  storable : LogEntry -> Prop;
  storable_metadata : PersistedMetadata -> Prop;
  storable_snapshot : Snapshot -> Prop;
  law_store_metadata s v m :
    represents s v -> storable_metadata m ->
    exists s', store_metadata s m = Done (s', Ok tt)
      /\ represents s' (mkView (Some m) (v_log v) (v_snapshot v));
  law_restore_metadata s v :
    represents s v -> restore_metadata s = Ok (v_metadata v);
  law_store_log_entries s v start entries :
    represents s v -> is_u64 start -> Forall storable entries ->
    exists s', store_log_entries s (mkPersistedLogAddendum start entries) = Done (s', Ok tt)
      /\ represents s' (mkView (v_metadata v) (cut start (v_log v) ++ number start entries)
                          (v_snapshot v));
  law_restore_log_entries s v :
    represents s v ->
    exists o, restore_log_entries s = Ok o /\ default [] o = (v_log v).*2
      /\ (v_log v <> [] -> is_Some o);
  law_store_snapshot s v sn :
    represents s v -> storable_snapshot sn ->
    exists s', store_snapshot s sn = Done (s', Ok tt)
      /\ represents s' (mkView (v_metadata v) (v_log v) (Some sn));
  law_truncate_log s v :
    represents s v -> v_log v <> [] ->
    exists s', truncate_log s = Done (s', Ok tt)
      /\ represents s' (mkView (v_metadata v) [] (v_snapshot v));
  law_restore_snapshot s v :
    represents s v -> restore_snapshot s = Ok (v_snapshot v);
  law_retrieve_snapshot_bytes s v sn :
    represents s v -> v_snapshot v = Some sn -> retrieve_snapshot_bytes s = Ok (sn_data sn);
}.

(** ** Facts on views *)
Lemma number_snd start entries : (number start entries).*2 = entries.
Proof. revert start. induction entries as [|e es IH]; intros start; cbn; [done|]. by rewrite IH. Qed.

Lemma number_app start a b :
  is_u64 start -> number start (a ++ b) = number start a ++ number (start +! len a) b.
Proof.
  revert start. induction a as [|e a IH]; intros start Hs; cbn [app number].
  - rewrite len_nil. unfold u64_add. rewrite Z.add_0_r, wrap64_small by done. done.
  - rewrite IH by apply u64_add_range. do 3 f_equal. rewrite len_cons. unfold u64_add, wrap64.
    rewrite Zplus_mod_idemp_l. f_equal. lia.
Qed.

(** Cutting a numbered run at an index inside it, or just after it. *)
Lemma cut_number base entries k :
  is_u64 base -> base + len entries < U64 -> 0 <= k <= len entries ->
  cut (base + k) (number base entries) = number base (take (Z.to_nat k) entries).
Proof.
  revert base k. induction entries as [|e entries IH]; intros base k Hb Hl Hk; cbn [number cut].
  - by rewrite take_nil.
  - autorewrite with len in Hl, Hk. unfold is_u64 in Hb. cbn [fst].
    destruct (Z.eqb_spec base (base + k)).
    + replace k with 0 by lia. done.
    + rewrite u64_add_small by len_lia.
      replace (base + k) with (base + 1 + (k - 1)) by lia.
      rewrite IH by (unfold is_u64; len_lia).
      replace (Z.to_nat k) with (S (Z.to_nat (k - 1))) by lia. cbn.
      rewrite u64_add_small by len_lia. done.
Qed.

Lemma number_index start entries ie : ie ∈ number start entries -> is_u64 start -> is_u64 ie.1.
Proof.
  revert start. induction entries as [|e es IH]; intros start Hin Hs; cbn in Hin; [by apply not_elem_of_nil in Hin|].
  apply elem_of_cons in Hin as [->|Hin]; [done|]. eapply IH; [done|]. apply u64_add_range.
Qed.

Lemma cut_sub start l ie : ie ∈ cut start l -> ie ∈ l.
Proof.
  induction l as [|x l IH]; cbn; [done|]. case_match; [by intros ?%not_elem_of_nil|].
  intros [->|Hin]%elem_of_cons; [left|right; auto].
Qed.
