(* ===== verification/FileStorage.v ===== *)
(** The durable storage back end: crates/raft-file-storage/src/lib.rs.

    A directory is a map from file names to contents.  Each operation is the
    list of file-system steps it issues, in order; running them all is the call
    that returns, running a prefix of them (and a prefix of the bytes of one
    write) is the crash of the process during the call.  The steps themselves
    do not fail here: a full disk or a denied permission is outside the model. *)

From S2P Require Import Prelude Types Codec Storage.

Abbreviation Files := (gmap string bytes).

(** The files of the directory. *)
Definition METADATA : string := "metadata"%string.
Definition LOG : string := "log"%string.
Definition SNAPSHOT : string := "snapshot"%string.

(** ** File-system steps *)
Inductive FsOp : Type :=
| OpenCreate (path : string)               (* create(true), contents kept *)
| OpenTruncate (path : string)             (* create(true).truncate(true) *)
| SetLen (path : string) (n : nat)
| Append (path : string) (data : bytes)    (* writes at the end of the file *)
| Rename (from to : string).

Definition fs_exec (fs : Files) (op : FsOp) : Files :=
  match op with
  | OpenCreate p => <[p := default [] (fs !! p)]> fs
  | OpenTruncate p => <[p := []]> fs
  | SetLen p n => alter (take n) p fs
  | Append p data => alter (fun old => old ++ data) p fs
  | Rename p q => match fs !! p with Some data => <[q := data]> (delete p fs) | None => fs end
  end.

Definition fs_run (fs : Files) (ops : list FsOp) : Files := foldl fs_exec fs ops.

(** The directory a crash during [ops] can leave. *)
Inductive fs_crash (fs : Files) : list FsOp -> Files -> Prop :=
| crash_before ops : fs_crash fs ops fs
| crash_torn p data written ops :
    written `prefix_of` data -> fs_crash fs (Append p data :: ops) (fs_exec fs (Append p written))
| crash_after op ops fs' : fs_crash (fs_exec fs op) ops fs' -> fs_crash fs (op :: ops) fs'.

(** ** The log file *)

(** The scan of [store_log_entries]: the position of the first frame whose
    index is [start], or the end of the last whole frame. *)
Fixpoint scan_log (fuel : nat) (start : Z) (data : bytes) (pos : nat) : nat :=
  match fuel with
  | O => pos
  | S fuel =>
      match read_uint 8 data with
      | None => pos
      | Some (index, data) =>
          if index =? start then pos
          else
            match read_uint 4 data with
            | None => pos
            | Some (length, data) =>
                match read_exact (Z.to_nat length) data with
                | None => pos
                | Some (_, data) => scan_log fuel start data (pos + 12 + Z.to_nat length)
                end
            end
      end
  end.

Section file_storage.
Context `{Postcard PersistedMetadata} `{Postcard LogEntry} `{Postcard Snapshot}.

(** How many bytes of a buffered writer that is dropped before its flush have
    reached the file. *)
Context (spilled : bytes -> nat).

Definition tmp_name (path : string) : string := ("." ++ path ++ ".tmp")%string.

Definition atomic_serialize {T} `{Postcard T} (path : string) (data : T)
    : list FsOp * ioresult unit :=
  match to_allocvec data with
  | None => ([OpenTruncate (tmp_name path)], Err (IoOther "Unable to serialize data"%string))
  | Some serialized =>
      ([OpenTruncate (tmp_name path); Append (tmp_name path) serialized;
        Rename (tmp_name path) path], Ok tt)
  end.

Definition read_type {T} `{Postcard T} (fs : Files) (path : string) : ioresult (option T) :=
  match fs !! path with
  | None => Ok None
  | Some data =>
      match from_bytes data with
      | Some v => Ok (Some v)
      | None => Err (IoOther "Error deserializing data"%string)
      end
  end.

(** The frames written for [entries], and whether all could be serialized. *)
Fixpoint write_frames (index : Z) (entries : list LogEntry) : bytes * bool :=
  match entries with
  | [] => ([], true)
  | entry :: entries =>
      match to_allocvec entry with
      | None => ([], false)
      | Some serialized =>
          let '(rest, ok) := write_frames (index +! 1) entries in
          (frame index serialized ++ rest, ok)
      end
  end.

Definition file_store_log_entries (fs : Files) (addendum : PersistedLogAddendum)
    : list FsOp * ioresult unit :=
  let data := default [] (fs !! LOG) in
  let truncate_at := scan_log (S (length data)) (pa_start_index addendum) data 0 in
  let '(out, ok) := write_frames (pa_start_index addendum) (pa_entries addendum) in
  if ok : bool then
    ([OpenCreate LOG; SetLen LOG truncate_at; Append LOG out], Ok tt)
  else
    ([OpenCreate LOG; SetLen LOG truncate_at; Append LOG (take (spilled out) out)],
     Err (IoOther "Unable to serialize log entry"%string)).

(** The loop of [restore_log_entries]. *)
Fixpoint read_entries (fuel : nat) (data : bytes) : ioresult (list LogEntry) :=
  match fuel with
  | O => Ok []
  | S fuel =>
      match read_uint 8 data with
      | None => Ok []
      | Some (_, data) =>
          match read_uint 4 data with
          | None => Ok []
          | Some (length, data) =>
              match read_exact (Z.to_nat length) data with
              | None => Ok []
              | Some (buf, data) =>
                  match from_bytes buf with
                  | None => Err (IoOther "Deserialization error on LogEntry"%string)
                  | Some entry =>
                      match read_entries fuel data with
                      | Ok entries => Ok (entry :: entries)
                      | Err e => Err e
                      end
                  end
              end
          end
      end
  end.

Definition file_restore_log_entries (fs : Files) : ioresult (option (list LogEntry)) :=
  match fs !! LOG with
  | None => Ok None
  | Some data =>
      match read_entries (S (length data)) data with
      | Ok entries => Ok (Some entries)
      | Err e => Err e
      end
  end.

Definition file_truncate_log (fs : Files) : list FsOp * ioresult unit :=
  match fs !! LOG with
  | None => ([], Err NotFound)
  | Some _ => ([SetLen LOG 0], Ok tt)
  end.

Definition file_retrieve_snapshot_bytes (fs : Files) : ioresult bytes :=
  match read_type fs SNAPSHOT with
  | Err e => Err e
  | Ok None => Err NotFound
  | Ok (Some snapshot) => Ok (sn_data snapshot)
  end.

(** A call that returns: all its steps, then its result. *)
Definition complete (fs : Files) (call : list FsOp * ioresult unit)
    : exec (Files * ioresult unit) :=
  Done (fs_run fs call.1, call.2).

#[export] Instance file_storage : Storage Files := {|
  store_metadata fs m := complete fs (atomic_serialize METADATA m);
  restore_metadata fs := read_type fs METADATA;
  store_log_entries fs addendum := complete fs (file_store_log_entries fs addendum);
  restore_log_entries fs := file_restore_log_entries fs;
  store_snapshot fs snapshot := complete fs (atomic_serialize SNAPSHOT snapshot);
  truncate_log fs := complete fs (file_truncate_log fs);
  retrieve_snapshot_bytes fs := file_retrieve_snapshot_bytes fs;
  restore_snapshot fs := read_type fs SNAPSHOT;
|}.
End file_storage.
