(* ===== verification/FileStorageSpec.v ===== *)
(** The file storage implements the storage interface, also on a log file that
    ends in a torn write. *)

From S2P Require Import Prelude Types Codec Storage FileStorage.

(** ** Log files *)
Section log_file.
Context `{Postcard LogEntry} `{!Postcard_ok LogEntry}.

(** The bytes of a sequence of whole frames. *)
Inductive encoded : list (Z * LogEntry) -> bytes -> Prop :=
| encoded_nil : encoded [] []
| encoded_cons i e b l data :
    is_u64 i -> to_allocvec e = Some b -> len b < U32 -> encoded l data ->
    encoded ((i, e) :: l) (frame i b ++ data).

(** Bytes in which no whole frame can be read. *)
Definition torn (junk : bytes) : Prop :=
  match read_uint 8 junk with
  | None => True
  | Some (_, d) =>
      match read_uint 4 d with
      | None => True
      | Some (n, d) => read_exact (Z.to_nat n) d = None
      end
  end.

Lemma torn_nil : torn [].
Proof. done. Qed.

Lemma read_exact_rest n data a rest : read_exact n data = Some (a, rest) -> data = a ++ rest /\ length a = n.
Proof.
  unfold read_exact. case_decide; [|done]. intros [= <- <-].
  rewrite take_drop, length_take. split; [done|lia].
Qed.

Lemma read_uint_rest n data z rest :
  read_uint n data = Some (z, rest) -> exists a, data = a ++ rest /\ length a = n /\ z = be_value a.
Proof.
  unfold read_uint. destruct (read_exact n data) as [[a r]|] eqn:Hr; [|done]. cbn. intros [= <- <-].
  apply read_exact_rest in Hr as [-> ?]. by exists a.
Qed.

(** A proper prefix of a frame is torn. *)
Lemma frame_prefix_torn i b w : is_u64 i -> len b < U32 ->
  w `prefix_of` frame i b -> length w <> length (frame i b) -> torn w.
Proof.
  intros Hi Hb [k Hk] Hne. unfold torn.
  destruct (read_uint 8 w) as [[i' d]|] eqn:H8; [|done].
  destruct (read_uint 4 d) as [[n d']|] eqn:H4; [|done].
  apply read_uint_rest in H8 as (a & -> & Ha & _). apply read_uint_rest in H4 as (c & -> & Hc & Hn).
  unfold frame in Hk. rewrite <- !app_assoc in Hk.
  apply app_inj_1 in Hk as [_ Hk]; [|by rewrite length_be_bytes].
  apply app_inj_1 in Hk as [Hc' Hk]; [|by rewrite length_be_bytes]. subst c.
  rewrite be_bytes_small in Hn by (unfold U32 in Hb; change (256 ^ Z.of_nat 4) with 4294967296; len_lia).
  subst n. apply read_exact_short. rewrite length_frame in Hne.
  rewrite !length_app, !length_be_bytes in Hne.
  apply (f_equal length) in Hk. rewrite length_app in Hk. unfold len. lia.
Qed.

Lemma encoded_app l1 l2 d1 d2 : encoded l1 d1 -> encoded l2 d2 -> encoded (l1 ++ l2) (d1 ++ d2).
Proof. induction 1; intros Hl; [done|]. rewrite <- app_assoc. cbn. constructor; auto. Qed.

(** What is left of a sequence of frames when its last bytes are lost. *)
Lemma encoded_prefix l data w :
  encoded l data -> w `prefix_of` data ->
  exists k d junk, w = d ++ junk /\ encoded (take k l) d /\ torn junk.
Proof.
  intros Henc. revert w. induction Henc as [|i e b l data Hi He Hb Henc IH]; intros w Hw.
  - apply prefix_nil_inv in Hw as ->. exists 0%nat, [], []. split_and!; [done|constructor|done].
  - destruct (decide (length (frame i b) <= length w)%nat) as [Hle|Hgt].
    + destruct Hw as [rest Hrest].
      assert (exists w', w = frame i b ++ w' /\ w' `prefix_of` data) as (w' & -> & Hw').
      { apply app_eq_inv in Hrest as [(k & Hk1 & Hk2)|(k & Hk1 & Hk2)].
        - rewrite Hk1, length_app in Hle. destruct k; [|cbn in Hle; lia].
          rewrite app_nil_r in Hk1. exists []. rewrite app_nil_r. split; [done|apply prefix_nil].
        - exists k. split; [done|]. by exists rest. }
      destruct (IH w' Hw') as (k & d & junk & -> & Hd & Ht).
      exists (S k), (frame i b ++ d), junk. split_and!; [by rewrite app_assoc|by constructor|done].
    + exists 0%nat, [], w. split_and!; [done|constructor|].
      apply (frame_prefix_torn i b); try done; [|lia].
      destruct Hw as [rest Hrest]. apply app_eq_inv in Hrest as [(k & Hk1 & _)|(k & -> & _)].
      * by exists k.
      * rewrite length_app in Hgt. lia.
Qed.

(** ** Reading back *)
Lemma read_entries_torn fuel junk : torn junk -> read_entries (S fuel) junk = Ok [].
Proof.
  unfold torn. cbn [read_entries]. destruct (read_uint 8 junk) as [[i d]|]; [|done].
  destruct (read_uint 4 d) as [[n d']|]; [|done]. by intros ->.
Qed.

Lemma read_entries_encoded l data junk fuel :
  encoded l data -> torn junk -> (length (data ++ junk) < fuel)%nat ->
  read_entries fuel (data ++ junk) = Ok l.*2.
Proof.
  intros Henc Ht. revert fuel. induction Henc as [|i e b l data Hi He Hb Henc IH]; intros fuel Hf.
  - destruct fuel; [lia|]. by apply read_entries_torn.
  - destruct fuel as [|fuel]; [lia|]. cbn [read_entries]. rewrite <- app_assoc.
    destruct (read_frame i b (data ++ junk) Hi Hb) as (-> & -> & ->).
    rewrite (postcard_round_trip _ _ He), IH; [done|].
    rewrite <- app_assoc, length_app, length_frame in Hf. lia.
Qed.

Lemma scan_log_torn fuel start junk pos : torn junk -> scan_log (S fuel) start junk pos = pos.
Proof.
  unfold torn. cbn [scan_log]. destruct (read_uint 8 junk) as [[i d]|]; [|done].
  destruct (_ =? _); [done|]. destruct (read_uint 4 d) as [[n d']|]; [|done]. by intros ->.
Qed.

(** The scan stops at the end of the frames that stay. *)
Lemma scan_log_encoded l data junk start fuel pos :
  encoded l data -> torn junk -> (length (data ++ junk) < fuel)%nat ->
  exists d1 d2, data = d1 ++ d2 /\ encoded (cut start l) d1
    /\ scan_log fuel start (data ++ junk) pos = (pos + length d1)%nat.
Proof.
  intros Henc Ht. revert fuel pos. induction Henc as [|i e b l data Hi He Hb Henc IH]; intros fuel pos Hf.
  - exists [], []. split_and!; [done|constructor|]. destruct fuel; [lia|]. cbn [app].
    rewrite scan_log_torn by done. cbn. lia.
  - destruct fuel as [|fuel]; [lia|]. cbn [scan_log cut]. rewrite <- app_assoc.
    destruct (read_frame i b (data ++ junk) Hi Hb) as (-> & H4 & Hx). cbn [fst].
    destruct (Z.eqb_spec i start) as [->|Hne].
    + exists [], (frame start b ++ data). split_and!; [done|constructor|cbn; lia].
    + rewrite H4, Hx. rewrite <- app_assoc, length_app, length_frame in Hf.
      destruct (IH fuel (pos + 12 + Z.to_nat (len b))%nat ltac:(lia)) as (d1 & d2 & -> & Hd1 & ->).
      exists (frame i b ++ d1), d2. split_and!; [by rewrite app_assoc|by constructor|].
      rewrite length_app, length_frame. unfold len. lia.
Qed.

(** An entry the log file can hold. *)
Definition frame_fits (e : LogEntry) : Prop := exists b, to_allocvec e = Some b /\ len b < U32.

Lemma write_frames_encoded entries start :
  is_u64 start -> Forall frame_fits entries ->
  exists out, write_frames start entries = (out, true) /\ encoded (number start entries) out.
Proof.
  revert start. induction entries as [|e es IH]; intros start Hs Hall; [by exists []; split; [|constructor]|].
  apply Forall_cons in Hall as [(b & Hb & Hlen) Hall]. cbn [write_frames number]. rewrite Hb.
  destruct (IH (start +! 1) (u64_add_range _ _) Hall) as (out & -> & Henc).
  eexists. split; [done|]. by constructor.
Qed.
End log_file.

(** ** The interface *)
Section laws.
Context `{Postcard PersistedMetadata} `{!Postcard_ok PersistedMetadata}.
Context `{Postcard LogEntry} `{!Postcard_ok LogEntry}.
Context `{Postcard Snapshot} `{!Postcard_ok Snapshot}.
Context (spilled : bytes -> nat).

(** File [path] holds [v], and is missing when there is none. *)
Definition holds {T} `{Postcard T} (fs : Files) (path : string) (v : option T) : Prop :=
  match v with
  | None => fs !! path = None
  | Some v => exists b, fs !! path = Some b /\ from_bytes b = Some v
  end.

(** The log file holds the frames of [l], then possibly a torn one. *)
Definition holds_log (fs : Files) (l : list (Z * LogEntry)) : Prop :=
  match fs !! LOG with
  | None => l = []
  | Some content => exists data junk, content = data ++ junk /\ encoded l data /\ torn junk
  end.

Definition file_represents (fs : Files) (v : View) : Prop :=
  holds fs METADATA (v_metadata v) /\ holds_log fs (v_log v) /\ holds fs SNAPSHOT (v_snapshot v).

(** Representing depends on the three files only. *)
Lemma file_represents_ext fs fs' v :
  fs' !! METADATA = fs !! METADATA -> fs' !! LOG = fs !! LOG -> fs' !! SNAPSHOT = fs !! SNAPSHOT ->
  file_represents fs v -> file_represents fs' v.
Proof.
  unfold file_represents, holds, holds_log. intros -> -> ->. done.
Qed.

Lemma read_type_holds {T} `{Postcard T} fs path (v : option T) :
  holds fs path v -> read_type fs path = Ok v.
Proof.
  unfold holds, read_type. destruct v as [v|].
  - by intros (b & -> & ->).
  - by intros ->.
Qed.

(** The atomic write, complete: the target has the bytes, the temporary file
    is gone, nothing else changed. *)
Lemma atomic_serialize_run {T} `{Postcard T} fs path (v : T) b :
  to_allocvec v = Some b -> tmp_name path <> path ->
  exists fs', complete fs (atomic_serialize path v) = Done (fs', Ok tt)
    /\ fs' = <[path := b]> (delete (tmp_name path) fs).
Proof.
  intros Hb Hne. unfold atomic_serialize, complete. rewrite Hb. eexists. split; [done|].
  unfold fs_run. cbn [foldl fst fs_exec]. rewrite !alter_insert_eq, !lookup_insert_eq.
  by rewrite delete_insert_eq.
Qed.

Lemma holds_insert {T} `{Postcard T} `{!Postcard_ok T} (fs : Files) path (v : T) b :
  to_allocvec v = Some b -> holds (<[path := b]> fs) path (Some v).
Proof. intros Hb. exists b. rewrite lookup_insert_eq. split; [done|by apply postcard_round_trip]. Qed.

Lemma store_log_run fs v start entries :
  file_represents fs v -> is_u64 start -> Forall frame_fits entries ->
  exists d1 d2 junk out, default [] (fs !! LOG) = d1 ++ d2 ++ junk
    /\ encoded (v_log v) (d1 ++ d2) /\ encoded (cut start (v_log v)) d1
    /\ encoded (number start entries) out /\ torn junk
    /\ file_store_log_entries spilled fs (mkPersistedLogAddendum start entries) =
       ([OpenCreate LOG; SetLen LOG (length d1); Append LOG out], Ok tt).
Proof.
  intros (_ & Hlog & _) Hs Hall.
  assert (exists data junk, default [] (fs !! LOG) = data ++ junk /\ encoded (v_log v) data /\ torn junk)
    as (data & junk & Hdata & Henc & Ht).
  { unfold holds_log in Hlog. destruct (fs !! LOG) as [content|]; [done|]. rewrite Hlog.
    exists [], []. split_and!; [done|constructor|done]. }
  destruct (write_frames_encoded entries start Hs Hall) as (out & Hout & Hoenc).
  destruct (scan_log_encoded _ _ _ start (S (length (data ++ junk))) 0 Henc Ht ltac:(lia))
    as (d1 & d2 & -> & Hd1 & Hscan).
  exists d1, d2, junk, out. split_and!; try done; [by rewrite Hdata, <- app_assoc|].
  unfold file_store_log_entries. cbn [pa_start_index pa_entries]. rewrite Hout, Hdata, Hscan. done.
Qed.

(** The log file after the steps of [store_log_entries], [out] cut to [w]. *)
Lemma log_after fs d1 d2 w :
  default [] (fs !! LOG) = d1 ++ d2 ->
  fs_run fs [OpenCreate LOG; SetLen LOG (length d1); Append LOG w] = <[LOG := d1 ++ w]> fs.
Proof.
  intros Hd. unfold fs_run. cbn [foldl fs_exec]. rewrite Hd.
  rewrite !alter_insert_eq. by rewrite take_app_length.
Qed.

Ltac other_file := rewrite ?lookup_insert_ne, ?lookup_delete_ne by done.

#[export] Program Instance file_storage_laws : @StorageLaws Files (file_storage spilled) := {|
  represents := file_represents;
  storable := frame_fits;
  storable_metadata m := is_Some (to_allocvec m);
  storable_snapshot sn := is_Some (to_allocvec sn);
|}.
Next Obligation.
  intros fs v m (Hm & Hl & Hs) [b Hb]. cbn.
  destruct (atomic_serialize_run fs METADATA m b Hb) as (fs' & -> & ->); [done|].
  eexists. split; [done|]. split_and!.
  - by apply holds_insert.
  - unfold holds_log in *. by other_file.
  - unfold holds in *. by other_file.
Qed.
Next Obligation. intros fs v (Hm & _ & _). by apply read_type_holds. Qed.
Next Obligation.
  intros fs v start entries Hr Hs Hall. cbn.
  destruct (store_log_run fs v start entries Hr Hs Hall)
    as (d1 & d2 & junk & out & Hd & _ & He1 & Heo & Ht & ->).
  unfold complete. cbn [fst snd]. rewrite (log_after _ _ _ _ Hd). eexists. split; [done|].
  destruct Hr as (Hm & _ & Hsn). split_and!.
  - unfold holds in *. by other_file.
  - unfold holds_log. rewrite lookup_insert_eq. exists (d1 ++ out), [].
    split_and!; [by rewrite app_nil_r|by apply encoded_app|done].
  - unfold holds in *. by other_file.
Qed.
Next Obligation.
  intros fs v (_ & Hl & _). cbn. unfold holds_log, file_restore_log_entries in *.
  destruct (fs !! LOG) as [content|].
  - destruct Hl as (data & junk & -> & Henc & Ht).
    rewrite (read_entries_encoded _ _ _ _ Henc Ht) by lia. by eexists.
  - rewrite Hl. by exists None.
Qed.
Next Obligation.
  intros fs v sn (Hm & Hl & Hs) [b Hb]. cbn.
  destruct (atomic_serialize_run fs SNAPSHOT sn b Hb) as (fs' & -> & ->); [done|].
  eexists. split; [done|]. split_and!.
  - unfold holds in *. by other_file.
  - unfold holds_log in *. by other_file.
  - by apply holds_insert.
Qed.
Next Obligation.
  intros fs v (Hm & Hl & Hs) Hne. cbn. unfold holds_log, file_truncate_log in *.
  destruct (fs !! LOG) as [content|] eqn:Hlog; [|done].
  eexists. split; [done|]. unfold fs_run. cbn [foldl fst fs_exec]. split_and!.
  - unfold holds in *. cbn. by rewrite lookup_alter_ne.
  - unfold holds_log. rewrite lookup_alter_eq, Hlog. cbn. exists [], [].
    split_and!; [done|constructor|done].
  - unfold holds in *. cbn. by rewrite lookup_alter_ne.
Qed.
Next Obligation. intros fs v (_ & _ & Hs). by apply read_type_holds. Qed.
Next Obligation.
  intros fs v sn (_ & _ & Hs) Hsn. cbn. unfold file_retrieve_snapshot_bytes.
  rewrite (read_type_holds _ _ _ Hs), Hsn. done.
Qed.
End laws.
