(* ===== verification/MemStorage.v ===== *)
(** The in-memory storage of the test utilities
    (crates/raft-test-utils/src/lib.rs): the same interface over three byte
    buffers.  A mutex guards each buffer; no holder panics, so locking is the
    identity here. *)

From S2P Require Import Prelude Types Codec Storage FileStorage FileStorageSpec.

Record InMemoryStorage := mkInMemoryStorage {
  ms_metadata : bytes;
  ms_log_entries : bytes;
  ms_snapshot : bytes;
}.

Definition mem_new : InMemoryStorage := mkInMemoryStorage [] [] [].

(** The cursor loop of [store_log_entries]: where the frame of [start] begins,
    if there is one; a frame cut inside its length panics. *)
Fixpoint mem_scan (fuel : nat) (start : Z) (data : bytes) (pos : nat) : exec (option nat) :=
  match fuel with
  | O => Done None
  | S fuel =>
      match read_uint 8 data with
      | None => Done None
      | Some (i, data) =>
          if i =? start then Done (Some pos)
          else
            '(n, data) ← unwrap (read_uint 4 data);
            mem_scan fuel start (drop (Z.to_nat n) data) (pos + 12 + Z.to_nat n)
      end
  end.

Definition mem_frames (start : Z) (serialized : list bytes) : bytes :=
  (fix go index (l : list bytes) : bytes :=
     match l with [] => [] | s :: l => frame index s ++ go (index +! 1) l end) start serialized.

Section mem_storage.
Context `{Postcard PersistedMetadata} `{Postcard LogEntry} `{Postcard Snapshot}.

Definition get_snapshot (st : InMemoryStorage) : ioresult Snapshot :=
  match from_bytes (ms_snapshot st) with
  | Some sn => Ok sn
  | None => Err (IoOther "Unable to deserialize"%string)
  end.

Definition mem_store_metadata (st : InMemoryStorage) (m : PersistedMetadata)
    : exec (InMemoryStorage * ioresult unit) :=
  b ← unwrap (to_allocvec m);
  Done (mkInMemoryStorage b (ms_log_entries st) (ms_snapshot st), Ok tt).

Definition mem_restore_metadata (st : InMemoryStorage) : ioresult (option PersistedMetadata) :=
  match from_bytes (ms_metadata st) with
  | Some m => Ok (Some m)
  | None =>
      match ms_metadata st with
      | [] => Ok None
      | _ => Err (IoOther "No metadata"%string)
      end
  end.

Definition mem_store_log_entries (st : InMemoryStorage) (addendum : PersistedLogAddendum)
    : exec (InMemoryStorage * ioresult unit) :=
  match mapM to_allocvec (pa_entries addendum) with
  | None => Done (st, Err (IoOther "Could not serialize"%string))
  | Some serialized =>
      let buf := ms_log_entries st in
      truncate_at ← mem_scan (S (length buf)) (pa_start_index addendum) buf 0;
      let buf := match truncate_at with Some pos => take pos buf | None => buf end in
      Done (mkInMemoryStorage (ms_metadata st)
              (buf ++ mem_frames (pa_start_index addendum) serialized) (ms_snapshot st), Ok tt)
  end.

Definition mem_restore_log_entries (st : InMemoryStorage) : ioresult (option (list LogEntry)) :=
  match ms_log_entries st with
  | [] => Ok None
  | buf =>
      match read_entries (S (length buf)) buf with
      | Ok entries => Ok (Some entries)
      | Err _ => Err (IoOther "Unable to deserialize"%string)
      end
  end.

Definition mem_store_snapshot (st : InMemoryStorage) (sn : Snapshot)
    : exec (InMemoryStorage * ioresult unit) :=
  match to_allocvec sn with
  | None => Done (st, Err (IoOther "Could not serialize snapshot"%string))
  | Some b => Done (mkInMemoryStorage (ms_metadata st) (ms_log_entries st) b, Ok tt)
  end.

Definition mem_truncate_log (st : InMemoryStorage) : exec (InMemoryStorage * ioresult unit) :=
  Done (mkInMemoryStorage (ms_metadata st) [] (ms_snapshot st), Ok tt).

Definition mem_retrieve_snapshot_bytes (st : InMemoryStorage) : ioresult bytes :=
  match get_snapshot st with
  | Ok sn => Ok (sn_data sn)
  | Err _ => Err (IoOther "Unable to deserialize"%string)
  end.

Definition mem_restore_snapshot (st : InMemoryStorage) : ioresult (option Snapshot) :=
  match ms_snapshot st with
  | [] => Ok None
  | _ =>
      match get_snapshot st with
      | Ok sn => Ok (Some sn)
      | Err _ => Err (IoOther "Unable to deserialize"%string)
      end
  end.

#[export] Instance mem_storage : Storage InMemoryStorage := {|
  store_metadata := mem_store_metadata;
  restore_metadata := mem_restore_metadata;
  store_log_entries := mem_store_log_entries;
  restore_log_entries := mem_restore_log_entries;
  store_snapshot := mem_store_snapshot;
  truncate_log := mem_truncate_log;
  retrieve_snapshot_bytes := mem_retrieve_snapshot_bytes;
  restore_snapshot := mem_restore_snapshot;
|}.
End mem_storage.

(** ** The interface *)
Section laws.
Context `{Postcard PersistedMetadata} `{!Postcard_ok PersistedMetadata}.
Context `{Postcard LogEntry} `{!Postcard_ok LogEntry}.
Context `{Postcard Snapshot} `{!Postcard_ok Snapshot}.

(** postcard reports the end of input on an empty buffer. *)
Context (metadata_eof : from_bytes (T := PersistedMetadata) [] = None).
Context (snapshot_eof : from_bytes (T := Snapshot) [] = None).

Definition buffer_holds {T} `{Postcard T} (buf : bytes) (v : option T) : Prop :=
  match v with None => buf = [] | Some v => from_bytes buf = Some v end.

Definition mem_represents (st : InMemoryStorage) (v : View) : Prop :=
  buffer_holds (ms_metadata st) (v_metadata v)
  /\ encoded (v_log v) (ms_log_entries st)
  /\ buffer_holds (ms_snapshot st) (v_snapshot v).

Lemma mem_scan_encoded l data start fuel pos :
  encoded l data -> (length data < fuel)%nat ->
  exists d1 d2, data = d1 ++ d2 /\ encoded (cut start l) d1
    /\ (mem_scan fuel start data pos = Done (Some (pos + length d1)%nat)
        \/ (mem_scan fuel start data pos = Done None /\ d2 = [])).
Proof.
  intros Henc. revert fuel pos. induction Henc as [|i e b l data Hi He Hb Henc IH]; intros fuel pos Hf.
  - exists [], []. split_and!; [done|constructor|]. destruct fuel; by right.
  - destruct fuel as [|fuel]; [lia|]. cbn [mem_scan cut fst].
    destruct (read_frame i b data Hi Hb) as (-> & H4 & Hx).
    destruct (Z.eqb_spec i start) as [->|Hne].
    + exists [], (frame start b ++ data). split_and!; [done|constructor|left]. do 2 f_equal. cbn. lia.
    + rewrite H4. cbn [unwrap mbind exec_bind]. rewrite length_app, length_frame in Hf.
      replace (drop (Z.to_nat (len b)) (b ++ data)) with data
        by (unfold len; by rewrite Nat2Z.id, drop_app_length).
      destruct (IH fuel (pos + 12 + Z.to_nat (len b))%nat ltac:(lia)) as (d1 & d2 & -> & Hd1 & Hscan).
      exists (frame i b ++ d1), d2. split_and!; [by rewrite app_assoc|by constructor|].
      destruct Hscan as [-> |[-> ->]]; [left|by right]. do 2 f_equal.
      rewrite length_app, length_frame. unfold len. lia.
Qed.

Lemma mem_frames_encoded entries start :
  is_u64 start -> Forall frame_fits entries ->
  exists serialized, mapM to_allocvec entries = Some serialized
    /\ encoded (number start entries) (mem_frames start serialized).
Proof.
  revert start. induction entries as [|e es IH]; intros start Hs Hall;
    [by exists []; split; [|constructor]|].
  apply Forall_cons in Hall as [(b & Hb & Hlen) Hall].
  destruct (IH (start +! 1) (u64_add_range _ _) Hall) as (ser & Hser & Henc).
  exists (b :: ser). cbn. rewrite Hb. cbn. rewrite Hser. split; [done|]. by constructor.
Qed.

Lemma encoded_nil_inv l : encoded l [] -> l = [].
Proof. by inversion 1. Qed.

#[export] Program Instance mem_storage_laws : @StorageLaws InMemoryStorage mem_storage := {|
  represents := mem_represents;
  storable := frame_fits;
  storable_metadata m := is_Some (to_allocvec m);
  storable_snapshot sn := is_Some (to_allocvec sn);
|}.
Next Obligation.
  intros st v m (Hm & Hl & Hs) [b Hb]. cbn. unfold mem_store_metadata. rewrite Hb.
  eexists. split; [done|]. split_and!; [by apply postcard_round_trip|done..].
Qed.
Next Obligation.
  intros st v (Hm & _ & _). cbn. unfold mem_restore_metadata, buffer_holds in *.
  destruct (v_metadata v) as [m|]; rewrite Hm; [done|]. by rewrite metadata_eof.
Qed.
Next Obligation.
  intros st v start entries (Hm & Hl & Hs) Hstart Hall. cbn. unfold mem_store_log_entries.
  destruct (mem_frames_encoded entries start Hstart Hall) as (ser & Hser & Henc).
  cbn [pa_entries pa_start_index]. rewrite Hser.
  destruct (mem_scan_encoded _ _ start (S (length (ms_log_entries st))) 0 Hl ltac:(lia))
    as (d1 & d2 & Hd & Hd1 & [-> |[-> ->]]); cbn [mbind exec_bind]; (eexists; split; [done|]);
    (split_and!; [done| |done]); cbn; rewrite Hd.
  - rewrite take_app_length. by apply encoded_app.
  - rewrite app_nil_r. by apply encoded_app.
Qed.
Next Obligation.
  intros st v (_ & Hl & _). cbn. unfold mem_restore_log_entries.
  pose proof (read_entries_encoded _ _ [] (S (length (ms_log_entries st))) Hl torn_nil) as Hread.
  rewrite app_nil_r in Hread. specialize (Hread ltac:(lia)).
  destruct (ms_log_entries st) as [|x buf].
  - apply encoded_nil_inv in Hl as ->. by exists None.
  - rewrite Hread. by eexists.
Qed.
Next Obligation.
  intros st v sn (Hm & Hl & Hs) [b Hb]. cbn. unfold mem_store_snapshot. rewrite Hb.
  eexists. split; [done|]. split_and!; [done..|]. by apply postcard_round_trip.
Qed.
Next Obligation.
  intros st v (Hm & Hl & Hs) _. eexists. split; [done|]. split_and!; [done|constructor|done].
Qed.
Next Obligation.
  intros st v (_ & _ & Hs). cbn. unfold mem_restore_snapshot, get_snapshot, buffer_holds in *.
  destruct (v_snapshot v) as [sn|]; [|by rewrite Hs].
  destruct (ms_snapshot st) as [|x b] eqn:Hb; [by rewrite snapshot_eof in Hs|]. by rewrite Hs.
Qed.
Next Obligation.
  intros st v sn (_ & _ & Hs) Hsn. cbn. unfold mem_retrieve_snapshot_bytes, get_snapshot.
  rewrite Hsn in Hs. cbn in Hs. by rewrite Hs.
Qed.
End laws.
