(* ===== verification/StorageTheorems.v ===== *)
(** What the two storage back ends guarantee: they follow the abstract view
    through any sequence of calls they can serve, they agree with each other up
    to how an empty log is restored, and what a crash of the process during a
    call on files leaves. *)

From S2P Require Import Prelude Types Codec Storage FileStorage FileStorageSpec MemStorage.

(** ** Sequences of calls *)
Inductive StoreOp : Type :=
| OpMetadata (m : PersistedMetadata)
| OpLog (start : Z) (entries : list LogEntry)
| OpSnapshot (sn : Snapshot)
| OpTruncate.

Definition run_op {S} `{Storage S} (s : S) (op : StoreOp) : exec (S * ioresult unit) :=
  match op with
  | OpMetadata m => store_metadata s m
  | OpLog start entries => store_log_entries s (mkPersistedLogAddendum start entries)
  | OpSnapshot sn => store_snapshot s sn
  | OpTruncate => truncate_log s
  end.

(** The calls in order, each of which must succeed. *)
Fixpoint run_ops {S} `{Storage S} (s : S) (ops : list StoreOp) : exec S :=
  match ops with
  | [] => Done s
  | op :: ops => '(s, r) ← run_op s op; _ ← expect r; run_ops s ops
  end.

Definition view_op (v : View) (op : StoreOp) : View :=
  match op with
  | OpMetadata m => mkView (Some m) (v_log v) (v_snapshot v)
  | OpLog start entries =>
      mkView (v_metadata v) (cut start (v_log v) ++ number start entries) (v_snapshot v)
  | OpSnapshot sn => mkView (v_metadata v) (v_log v) (Some sn)
  | OpTruncate => mkView (v_metadata v) [] (v_snapshot v)
  end.

(** Calls the back ends can serve; the log is not cleared while it is empty. *)
Fixpoint ops_ok {S} `{StorageLaws S} (v : View) (ops : list StoreOp) : Prop :=
  match ops with
  | [] => True
  | op :: ops =>
      match op with
      | OpMetadata m => storable_metadata m
      | OpLog start entries => is_u64 start /\ Forall storable entries
      | OpSnapshot sn => storable_snapshot sn
      | OpTruncate => v_log v <> []
      end /\ ops_ok (view_op v op) ops
  end.

Lemma run_ops_represents {S} `{StorageLaws S} (s : S) (v : View) (ops : list StoreOp) :
  represents s v -> ops_ok v ops ->
  exists s', run_ops s ops = Done s' /\ represents s' (foldl view_op v ops).
Proof.
  revert s v. induction ops as [|op ops IH]; intros s v Hr Hok; [by exists s|].
  destruct Hok as [Hop Hok]. cbn [run_ops foldl].
  assert (exists s1, run_op s op = Done (s1, Ok tt) /\ represents s1 (view_op v op)) as (s1 & -> & Hr1).
  { destruct op; cbn in *.
    - by apply law_store_metadata.
    - apply law_store_log_entries; tauto.
    - by apply law_store_snapshot.
    - by apply law_truncate_log. }
  cbn. by apply IH.
Qed.

(** What a boot reads. *)
Definition restored {S} `{Storage S} (s : S)
    : ioresult (option PersistedMetadata) * ioresult (option Snapshot) :=
  (restore_metadata s, restore_snapshot s).

Definition view_empty : View := mkView None [] None.

Section theorems.
Context `{Postcard PersistedMetadata} `{!Postcard_ok PersistedMetadata}.
Context `{Postcard LogEntry} `{!Postcard_ok LogEntry}.
Context `{Postcard Snapshot} `{!Postcard_ok Snapshot}.
Context (spilled : bytes -> nat).

Existing Instance file_storage_laws.

Lemma file_empty : file_represents ∅ view_empty.
Proof. split_and!; by rewrite ?lookup_empty. Qed.

(** C23: the file storage refines the abstract view.  From an empty directory,
    through any sequence of calls with metadata, entries and snapshots that
    postcard serializes, each entry in less than 2^32 bytes, and in which the
    log is cleared only while it has entries, every call succeeds and the boot
    reads back the last metadata, the last snapshot and the entries of the view,
    where a write at [start] replaced everything from that index on. *)
Theorem file_storage_refines (ops : list StoreOp) :
  ops_ok (H0 := file_storage_laws spilled) view_empty ops ->
  exists fs, run_ops (H := file_storage spilled) ∅ ops = Done fs
    /\ read_type fs METADATA = Ok (v_metadata (foldl view_op view_empty ops))
    /\ read_type fs SNAPSHOT = Ok (v_snapshot (foldl view_op view_empty ops))
    /\ exists o, file_restore_log_entries fs = Ok o
         /\ default [] o = (v_log (foldl view_op view_empty ops)).*2.
Proof.
  intros Hok. destruct (run_ops_represents (H0 := file_storage_laws spilled) _ _ ops file_empty Hok)
    as (fs & Hrun & Hr).
  exists fs. split_and!; [done|by apply (law_restore_metadata _ _ Hr)|by apply (law_restore_snapshot _ _ Hr)|].
  destruct (law_restore_log_entries _ _ Hr) as (o & Ho & Hl & _). by exists o.
Qed.

(** The log file exists once entries were written, and from then on. *)
Definition writes_log (op : StoreOp) : bool := match op with OpLog _ _ => true | _ => false end.

Lemma atomic_serialize_log {T} `{Postcard T} (fs : Files) path (v : T) :
  LOG <> path -> LOG <> tmp_name path -> fs_run fs (atomic_serialize path v).1 !! LOG = fs !! LOG.
Proof.
  intros Hne Hne'. unfold atomic_serialize, fs_run. destruct (to_allocvec v) as [b|]; cbn.
  - rewrite !alter_insert_eq, lookup_insert_eq, lookup_insert_ne, lookup_delete_ne, lookup_insert_ne by done. done.
  - by rewrite lookup_insert_ne.
Qed.

Lemma file_log_exists ops : forall fs fs',
  run_ops (H := file_storage spilled) fs ops = Done fs' ->
  is_Some (fs' !! LOG) <-> is_Some (fs !! LOG) \/ existsb writes_log ops = true.
Proof.
  induction ops as [|op ops IH]; intros fs fs' Hrun; cbn in Hrun.
  - injection Hrun as ->. cbn. naive_solver.
  - apply exec_bind_Done in Hrun as ([fs1 r] & Hop & Hrun). apply exec_bind_Done in Hrun as (u & Hr & Hrun).
    rewrite (IH _ _ Hrun). clear IH Hrun. cbn [existsb]. rewrite orb_true_iff.
    destruct op as [m|start entries|sn|]; cbn in Hop; unfold complete in Hop; injection Hop as <- <-; cbn [writes_log].
    + rewrite atomic_serialize_log by done. naive_solver.
    + unfold file_store_log_entries, fs_run. cbn. destruct (write_frames _ _) as [out []]; cbn;
        rewrite !alter_insert_eq, lookup_insert_eq; naive_solver.
    + rewrite atomic_serialize_log by done. naive_solver.
    + unfold file_truncate_log in *. destruct (fs !! LOG) eqn:Hl; [|done]. unfold fs_run. cbn.
      rewrite lookup_alter_eq, Hl. naive_solver.
Qed.

(** C26: the two back ends agree, up to an empty log.  After the same sequence
    of calls, with data that postcard serializes, entries of less than 2^32
    bytes and the log cleared only while it has entries, both restore the same
    metadata and the same snapshot, and for the entries [l] of the view: the
    files [Some l] once entries were ever written and [None] before, the buffers
    [Some l] if [l] is not empty and [None] if it is. *)
Theorem file_memory_agree (ops : list StoreOp)
    (metadata_eof : from_bytes (T := PersistedMetadata) [] = None)
    (snapshot_eof : from_bytes (T := Snapshot) [] = None) :
  ops_ok (H0 := file_storage_laws spilled) view_empty ops ->
  let l := (v_log (foldl view_op view_empty ops)).*2 in
  exists fs st,
    run_ops (H := file_storage spilled) ∅ ops = Done fs /\ run_ops mem_new ops = Done st
    /\ read_type fs METADATA = mem_restore_metadata st
    /\ read_type fs SNAPSHOT = mem_restore_snapshot st
    /\ file_restore_log_entries fs = Ok (if existsb writes_log ops then Some l else None)
    /\ mem_restore_log_entries st = Ok (match l with [] => None | _ => Some l end).
Proof.
  intros Hok l. destruct (run_ops_represents (H0 := file_storage_laws spilled) _ _ ops file_empty Hok)
    as (fs & Hrun & Hr).
  assert (ops_ok (H0 := mem_storage_laws metadata_eof snapshot_eof) view_empty ops) as Hok'.
  { clear -Hok. revert Hok. generalize view_empty. induction ops as [|op ops IH]; intros v; [done|].
    intros [Hop Hok]. split; [by destruct op|by apply IH]. }
  destruct (run_ops_represents (H0 := mem_storage_laws metadata_eof snapshot_eof) mem_new view_empty ops)
    as (st & Hrun' & Hr'); [split_and!; done || constructor|done|].
  exists fs, st. split_and!; try done.
  - transitivity (Ok (v_metadata (foldl view_op view_empty ops)));
      [by apply (law_restore_metadata _ _ Hr)|symmetry; by apply (law_restore_metadata _ _ Hr')].
  - transitivity (Ok (v_snapshot (foldl view_op view_empty ops)));
      [by apply (law_restore_snapshot _ _ Hr)|symmetry; by apply (law_restore_snapshot _ _ Hr')].
  - destruct (law_restore_log_entries _ _ Hr) as (o & Ho & Hl & _). cbn in Ho. fold l in Hl.
    pose proof (file_log_exists ops ∅ fs Hrun) as Hex. rewrite lookup_empty in Hex.
    unfold file_restore_log_entries in *. destruct (fs !! LOG) as [content|].
    + destruct (proj1 Hex ltac:(by eexists)) as [Hn| ->]; [by destruct (is_Some_None Hn)|].
      rewrite Ho. destruct (read_entries _ _); [|done]. injection Ho as <-. by rewrite <- Hl.
    + destruct (existsb writes_log ops); [|done]. by destruct (proj2 Hex ltac:(by right)).
  - unfold l. clear -Hr'. destruct Hr' as (_ & He & _). unfold mem_restore_log_entries.
    pose proof (read_entries_encoded _ _ [] (S (length (ms_log_entries st))) He torn_nil) as Hread.
    rewrite app_nil_r in Hread. specialize (Hread ltac:(lia)).
    inversion He as [Hn Hd|i e b k data Hi Hb Hlen He' Hn Hd].
    + done.
    + assert (ms_log_entries st <> []) as Hne by (rewrite <- Hd; unfold frame; by destruct b).
      rewrite Hd, <- Hn in *. destruct (ms_log_entries st) eqn:Hm; [done|]. by rewrite Hread.
Qed.

(** ** Crashes *)

(** The crash points of the steps of [store_log_entries]. *)
Lemma store_log_crashes fs d1 d2 out fs' :
  default [] (fs !! LOG) = d1 ++ d2 ->
  fs_crash fs [OpenCreate LOG; SetLen LOG (length d1); Append LOG out] fs' ->
  fs' = fs \/ fs' = <[LOG := d1 ++ d2]> fs
  \/ exists w, w `prefix_of` out /\ fs' = <[LOG := d1 ++ w]> fs.
Proof.
  intros Hd Hc. inversion Hc as [|? ? ? ? ? |? ? ? Hc1]; subst; [by left|]. right.
  cbn in Hc1. rewrite Hd in Hc1.
  inversion Hc1 as [|? ? ? ? ? |? ? ? Hc2]; subst; [by left|]. right.
  cbn in Hc2. rewrite alter_insert_eq, take_app_length in Hc2.
  inversion Hc2 as [|? ? w ? Hw|? ? ? Hc3]; subst.
  - exists []. rewrite app_nil_r. split; [apply prefix_nil|done].
  - exists w. split; [done|]. cbn. by rewrite alter_insert_eq.
  - cbn in Hc3. rewrite alter_insert_eq in Hc3. inversion Hc3; subst. by exists out.
Qed.

(** C24: a crash while entries are written.  Wherever the process dies in
    [store_log_entries], also in the middle of a frame, what is restored is
    either the old log, or the entries before [start] followed by some first
    entries of the new ones; metadata and snapshot are untouched. *)
Theorem store_log_crash fs v start entries fs' :
  file_represents fs v -> is_u64 start -> Forall frame_fits entries ->
  fs_crash fs (file_store_log_entries spilled fs (mkPersistedLogAddendum start entries)).1 fs' ->
  exists l, file_represents fs' (mkView (v_metadata v) l (v_snapshot v))
    /\ (exists o, file_restore_log_entries fs' = Ok o /\ default [] o = l.*2)
    /\ (l = v_log v \/ exists k, l = cut start (v_log v) ++ take k (number start entries)).
Proof.
  intros Hr Hs Hall Hc.
  destruct (store_log_run spilled fs v start entries Hr Hs Hall)
    as (d1 & d2 & junk & out & Hd & Henc & He1 & Heo & Ht & Heq).
  rewrite Heq in Hc. cbn [fst] in Hc.
  assert (exists l, file_represents fs' (mkView (v_metadata v) l (v_snapshot v))
    /\ (l = v_log v \/ exists k, l = cut start (v_log v) ++ take k (number start entries)))
    as (l & Hl & Hcase).
  { assert (forall content, holds (<[LOG := content]> fs) METADATA (v_metadata v)
      /\ holds (<[LOG := content]> fs) SNAPSHOT (v_snapshot v)) as Hother.
    { intros content. destruct Hr as (Hm & _ & Hsn). unfold holds in *.
      by rewrite !lookup_insert_ne by done. }
    destruct (store_log_crashes _ _ _ _ _ Hd Hc) as [->|[->|(w & Hw & ->)]].
    - exists (v_log v). split; [by destruct v|by left].
    - exists (v_log v). split; [|by left]. split_and!; [apply Hother| |apply Hother].
      unfold holds_log. rewrite lookup_insert_eq. exists (d1 ++ d2), junk. by rewrite <- app_assoc.
    - destruct (encoded_prefix _ _ _ Heo Hw) as (k & d & j & -> & Hk & Hj).
      exists (cut start (v_log v) ++ take k (number start entries)).
      split; [|right; by exists k]. split_and!; [apply Hother| |apply Hother].
      unfold holds_log. rewrite lookup_insert_eq. exists (d1 ++ d), j.
      split_and!; [by rewrite app_assoc|by apply encoded_app|done]. }
  exists l. split_and!; [done| |done].
  destruct (law_restore_log_entries (StorageLaws := file_storage_laws spilled) _ _ Hl) as (o & Ho & Hd' & _).
  by exists o.
Qed.

(** C25: the atomic replacement.  A crash anywhere in the write of a metadata
    or snapshot file leaves the file with its old value or with the new one,
    never a mix and never nothing. *)
Theorem atomic_serialize_crash {T} `{Postcard T} `{!Postcard_ok T} fs path (old : option T) (v : T) fs' :
  tmp_name path <> path -> holds fs path old ->
  fs_crash fs (atomic_serialize path v).1 fs' ->
  read_type fs' path = Ok old \/ read_type fs' path = Ok (Some v).
Proof.
  intros Hne Hold Hc.
  assert (forall fs1 : Files, fs1 !! path = fs !! path -> read_type fs1 path = Ok old) as Hsame.
  { intros fs1 Hp. apply read_type_holds. unfold holds in *. by rewrite Hp. }
  unfold atomic_serialize in Hc. destruct (to_allocvec v) as [b|] eqn:Hb; cbn [fst] in Hc.
  - inversion Hc as [|? ? ? ? ? |? ? ? Hc1]; subst; [left; by apply Hsame|]. cbn in Hc1.
    inversion Hc1 as [|? ? w ? Hw|? ? ? Hc2]; subst;
      [left; apply Hsame; by rewrite lookup_insert_ne| |].
    + left. apply Hsame. cbn. by rewrite alter_insert_eq, lookup_insert_ne.
    + cbn in Hc2. rewrite alter_insert_eq in Hc2.
      inversion Hc2 as [|? ? ? ? ? |? ? ? Hc3]; subst; [left; apply Hsame; by rewrite lookup_insert_ne|].
      cbn in Hc3. rewrite lookup_insert_eq in Hc3. inversion Hc3; subst. right.
      apply read_type_holds. by apply holds_insert.
  - inversion Hc as [|? ? ? ? ? |? ? ? Hc1]; subst; [left; by apply Hsame|]. cbn in Hc1.
    inversion Hc1; subst. left. apply Hsame. by rewrite lookup_insert_ne.
Qed.
End theorems.
