(* ===== verification/CoreLeader.v ===== *)
(** A leader that stays leader: its log only grows, and read barriers keep
    their numbers. *)

From S2P Require Import Prelude Types RaftCore CoreLog CoreFrame CoreReplication CoreElection.
From S2P Require Import CoreInvariant CoreCommit CoreTotal ReplicationSafety CoreEffects.

(** The log of [s'] starts with that of [s], over the same snapshot. *)
Definition log_extends (s s' : RaftCore) : Prop :=
  last_included_index s' = last_included_index s /\ log s `prefix_of` log s'.

Lemma log_extends_last s s' :
  core_wf s -> core_wf s' -> log_extends s s' -> last_log_index s <= last_log_index s'.
Proof.
  intros Hwf Hwf' [Hi Hp%prefix_length]. rewrite !last_log_index_eq by (apply Hwf || apply Hwf').
  unfold len. lia.
Qed.

(** [s'] counts read barriers as [s] does, and if both lead, its log extends
    that of [s]: a leader never overwrites its own entries. *)
Definition leader_step (s s' : RaftCore) : Prop :=
  next_read_barrier_id s' = next_read_barrier_id s
  /\ (state s = Leader -> state s' = Leader -> log_extends s s').

Lemma leader_step_same s s' :
  next_read_barrier_id s' = next_read_barrier_id s -> same_log s s' -> leader_step s s'.
Proof. intros H1 (H2 & H3 & _). split; [done|]. intros _ _. split; [done|]. by rewrite H2. Qed.

Lemma leader_step_follower s s' :
  next_read_barrier_id s' = next_read_barrier_id s -> state s' <> Leader -> leader_step s s'.
Proof. intros H1 H2. by split. Qed.

(** The term check: nothing changes, or the node steps down. *)
Lemma check_leader g s t s1 o :
  check_msg_term g s t = Done (s1, o) ->
  next_read_barrier_id s1 = next_read_barrier_id s /\ same_log s s1
  /\ (state s1 = Leader -> s1 = s /\ t <= current_term s).
Proof.
  intros [(? & -> & _)|(_ & _ & to & ->)]%check_msg_term_Done; split_and!; try done.
Qed.

Lemma election_timeout_leader g s s' acts :
  on_election_timeout g s = Done (s', acts) -> leader_step s s'.
Proof.
  unfold on_election_timeout. intros H. case_match; [|exec_inv; by apply leader_step_same].
  set (s1 := s <| current_term := _ |> <| state := _ |> <| current_leader := _ |>
               <| votes_received := _ |> <| voted_for := _ |> <| votes_received := _ |>) in H.
  assert (next_read_barrier_id s1 = next_read_barrier_id s /\ state s1 = Candidate) as [H1 H2] by done.
  clearbody s1. apply exec_bind_Done in H as (s2 & [-> _]%reset_election_timeout_Done & H).
  apply exec_bind_Done in H as (lt & _ & H). injection H as <- <-.
  apply leader_step_follower; cbn; congruence.
Qed.

Lemma tick_leader g s s' acts :
  tick g s = Done (s', acts) -> leader_step s s' /\ (state s = Leader -> state s' = Leader).
Proof.
  unfold tick. intros H. set (s1 := s <| ticks_since_last_heartbeat := _ |>) in H.
  assert (state s1 = state s /\ next_read_barrier_id s1 = next_read_barrier_id s /\ same_log s s1)
    as (Hst & Hr & Hl) by done.
  assert (forall s2, leader_step s1 s2 -> leader_step s s2) as Htr.
  { unfold leader_step, log_extends. intros s2. destruct Hl as (-> & -> & _). by rewrite Hst, Hr. }
  clearbody s1. rewrite <- Hst. destruct (state s1) eqn:Hs1.
  - unfold heartbeat in H. case_match; exec_inv; (split; [apply Htr; by apply leader_step_same|done]).
  - split; [|done]. by eapply Htr, election_timeout_leader.
  - split; [|done]. by eapply Htr, election_timeout_leader.
Qed.

Lemma request_vote_leader g s req s' acts :
  handle_request_vote g s req = Done (s', acts) -> leader_step s s'.
Proof.
  unfold handle_request_vote. intros H. apply exec_bind_Done in H as ([s1 o] & Hc & H).
  destruct (check_leader _ _ _ _ _ Hc) as (H1 & H2 & _).
  case_match; [injection H as <- <-; by apply leader_step_same|].
  apply exec_bind_Done in H as (lt & _ & H).
  case_match; [|injection H as <- <-; by apply leader_step_same].
  apply exec_bind_Done in H as (s2 & [-> _]%reset_election_timeout_Done & H). injection H as <- <-.
  by apply leader_step_same.
Qed.

Lemma vote_response_leader g s resp s' acts :
  handle_request_vote_response g s resp = Done (s', acts) -> leader_step s s'.
Proof.
  unfold handle_request_vote_response. intros H. apply exec_bind_Done in H as ([s1 o] & Hc & H).
  destruct (check_leader _ _ _ _ _ Hc) as (H1 & H2 & H3).
  case_bool_decide as Hst; [injection H as <- <-; by apply leader_step_same|].
  assert (state s <> Leader) as Hs.
  { intros Hl. apply check_msg_term_Done in Hc as [(_ & -> & _)|(_ & _ & to & ->)]; [|done].
    congruence. }
  case_match; [|injection H as <- <-; by apply leader_step_same].
  case_match; [|injection H as <- <-; by apply leader_step_same].
  apply exec_bind_Done in H as ([s3 a] & (ni & mi & es & -> & _)%initialize_leader_state_Done & H).
  apply exec_bind_Done in H as (s4 & [-> _]%reset_election_timeout_Done & H).
  apply exec_bind_Done in H as (appends & _ & H). injection H as <- <-. by split.
Qed.

Lemma append_entries_leader g s req s' acts :
  handle_append_entries g s req = Done (s', acts) -> leader_step s s'.
Proof.
  unfold handle_append_entries. intros H. apply exec_bind_Done in H as ([s1 o] & Hc & H).
  destruct (check_leader _ _ _ _ _ Hc) as (H1 & H2 & H3). cbv zeta in H.
  set (s2 := if (ae_term req =? current_term s1) && bool_decide (state s1 = Candidate)
             then s1 <| state := Follower |> else s1) in *.
  assert (next_read_barrier_id s2 = next_read_barrier_id s /\ same_log s s2) as [H4 H5]
    by (unfold s2; by destruct (_ && _)). clearbody s2.
  case_bool_decide as Hst; [injection H as <- <-; by apply leader_step_same|].
  case_match; [injection H as <- <-; by apply leader_step_same|].
  apply exec_bind_Done in H as (s3 & [-> _]%reset_election_timeout_Done & H).
  apply append_checked_Done in H as (l & c & a & rest & -> & _).
  apply leader_step_follower; [done|]. cbn. destruct (state s2); naive_solver.
Qed.

Lemma append_response_leader g s resp s' acts :
  handle_append_entries_response g s resp = Done (s', acts) -> leader_step s s'.
Proof.
  unfold handle_append_entries_response. intros H. apply exec_bind_Done in H as ([s1 o] & Hc & H).
  destruct (check_leader _ _ _ _ _ Hc) as (H1 & H2 & _). destruct (aer_success resp).
  - apply exec_bind_Done in H as ([s2 applies] & (r & n & es & _ & _ & _ & -> & _)%leader_commit_Done & H).
    destruct (ready_barriers _) as [s3 ready] eqn:Hrb. apply ready_barriers_quiet in Hrb as [[rb ->] _].
    injection H as <- <-. by apply leader_step_same.
  - apply exec_bind_Done in H as (a & _ & H). injection H as <- <-.
    destruct (aer_first_conflicting_index resp); by apply leader_step_same.
Qed.

(** A snapshot from the leader never finds the node leading: only the answer to
    a past leader leaves a leader in place. *)
Lemma install_snapshot_cases g s req s' acts :
  snapshot_ok s req -> handle_install_snapshot g s req = Done (s', acts) ->
  next_read_barrier_id s' = next_read_barrier_id s
  /\ (same_log s s' /\ last_applied s' = last_applied s \/ state s' <> Leader).
Proof.
  intros (_ & _ & Hlead & _). unfold handle_install_snapshot. intros H.
  apply exec_bind_Done in H as ([s1 o] & Hc & H).
  destruct (check_leader _ _ _ _ _ Hc) as (H1 & H2 & H3). cbv zeta in H.
  destruct (Z.ltb_spec (is_term req) (current_term s1)) as [|Hge].
  { injection H as <- <-. split; [done|]. left. split; [done|].
    by apply check_msg_term_Done in Hc as [(_ & -> & _)|(_ & _ & to & ->)]. }
  apply exec_bind_Done in H as (s3 & [-> _]%reset_election_timeout_Done & H).
  set (s2 := if (is_term req =? current_term s1) && bool_decide (state s1 = Candidate)
             then s1 <| state := Follower |> else s1) in *.
  assert (next_read_barrier_id s2 = next_read_barrier_id s
    /\ (state s2 = Leader -> state s1 = Leader)) as [H4 H6]
    by (unfold s2; by destruct (_ && _)). clearbody s2.
  assert (state s2 <> Leader) as Hs2.
  { intros Hl%H6. destruct (H3 Hl) as [-> Hle]. apply Hlead; [lia|done]. }
  repeat case_match; injection H as <- <-; auto.
Qed.

Lemma install_snapshot_leader g s req s' acts :
  snapshot_ok s req -> handle_install_snapshot g s req = Done (s', acts) -> leader_step s s'.
Proof.
  intros Hok H. destruct (install_snapshot_cases _ _ _ _ _ Hok H) as (Hr & [[Hl _]|Hn]).
  - by apply leader_step_same.
  - by apply leader_step_follower.
Qed.

Lemma install_snapshot_response_leader g s resp s' acts :
  handle_install_snapshot_response g s resp = Done (s', acts) -> leader_step s s'.
Proof.
  unfold handle_install_snapshot_response. intros H. apply exec_bind_Done in H as ([s1 o] & Hc & H).
  destruct (check_leader _ _ _ _ _ Hc) as (H1 & H2 & _).
  case_match; injection H as <- <-; by apply leader_step_same.
Qed.

Lemma message_leader g s m s' acts :
  input_ok s (InMessage m) -> RaftCore.handle_message g s m = Done (s', acts) -> leader_step s s'.
Proof.
  intros Hok H. destruct m; cbn in H.
  - by eapply request_vote_leader.
  - by eapply vote_response_leader.
  - by eapply append_entries_leader.
  - by eapply append_response_leader.
  - by eapply install_snapshot_leader.
  - by eapply install_snapshot_response_leader.
Qed.

(** What an input makes a node apply that leads after it. *)
Lemma leader_applies g s i s' acts :
  core_wf s -> input_ok s i -> core_input g s i = Done (s', acts) -> state s' = Leader ->
  omap apply_of acts = commands s' (last_applied s) (last_applied s').
Proof.
  intros Hwf Hok H Hl.
  destruct (core_input_applies _ _ _ _ _ Hwf Hok H) as [?|(req & -> & Ha & _)]; [done|].
  destruct (install_snapshot_cases _ _ _ _ _ Hok H) as (_ & [[_ ->]|Hn]); [|done].
  by rewrite Ha, commands_none.
Qed.
