(* ===== verification/EventLoop.v ===== *)
(** The event loop: crates/raft-event-loop/src/lib.rs, [RaftDriver].

    The driver owns the core, a storage and a transport, and talks to the
    application through a channel and to its clients through oneshot channels.
    A oneshot sender is a number; sending on it appends to [replies].  The
    application is a task of its own that handles the entries of its channel one
    by one, in order: [app] is its state once it has handled everything that was
    sent to it so far, which is what the answer to a snapshot request shows.  At
    a given moment the task may be behind ([Kv.apply_task]). *)

From S2P Require Import Prelude Types RaftCore Codec Storage.

(** ** Interfaces *)

(** The [Transport] trait: [recv] is [None] while no message is there. *)
Class Transport (T : Type) := {
  send : T -> NodeId -> Message -> T;
  recv : T -> option (Message * T);
}.

(** The receiver of the applied entries; a call that panics ends its task. *)
Class Application (A : Type) := {
  on_command : A -> bytes -> A;
  on_snapshot : A -> bytes -> exec A;
  on_snapshot_request : A -> exec bytes;
}.

(** What the channel of the application carries. *)
Inductive AppliedEntry : Type :=
| ACommand (cmd : bytes)
| ASnapshot (data : bytes)
| ASnapshotRequest.

#[export] Instance AppliedEntry_eq_decision : EqDecision AppliedEntry.
Proof. solve_decision. Defined.

Inductive ProposalError : Type :=
| FollowerNode (leader : option NodeId)
| LostLeadership
| OtherError.

(** The text a client can show: [Display] of [ProposalError]. *)
Definition ProposalError_fmt (e : ProposalError) : string :=
  match e with
  | FollowerNode leader =>
      "Node is not the leader and cannot propose commands (leader: " +:+
      match leader with
      | None => "None"
      | Some n => "Some(" +:+ pretty n +:+ ")"
      end +:+ ")"
  | LostLeadership => "Node lost its status as leader and cannot propose commands anymore"
  | OtherError => "An unknown error occurred"
  end%string.

(** A client waiting for its answer, and the answer. *)
Abbreviation Channel := Z.
Definition Reply : Type := option ProposalError.   (* None: Ok *)

Record RaftConfig (T S : Type) := mkRaftConfig {
  rc_id : NodeId;
  rc_nodes : list NodeId;
  rc_heartbeat_interval : option Z;
  rc_election_range : Z * Z;
  rc_snapshot_threshold : Z;
  rc_transport : T;
  rc_storage : S;
}.
Arguments rc_id {T S}.
Arguments rc_nodes {T S}.
Arguments rc_heartbeat_interval {T S}.
Arguments rc_election_range {T S}.
Arguments rc_snapshot_threshold {T S}.
Arguments rc_transport {T S}.
Arguments rc_storage {T S}.

(** ** The driver *)
Record RaftDriver (T S A : Type) := mkRaftDriver {
  node_id : NodeId;
  core : RaftCore;
  pending_proposals : gmap Z Channel;
  pending_reads : gmap Z Channel;
  num_entries : Z;
  snapshot_threshold : Z;
  transport : T;
  storage : S;
  app : A;
  replies : list (Channel * Reply);
}.
Arguments mkRaftDriver {T S A}.
Arguments node_id {T S A}.
Arguments core {T S A}.
Arguments pending_proposals {T S A}.
Arguments pending_reads {T S A}.
Arguments num_entries {T S A}.
Arguments snapshot_threshold {T S A}.
Arguments transport {T S A}.
Arguments storage {T S A}.
Arguments app {T S A}.
Arguments replies {T S A}.

Section driver.
Context {T S A : Type} `{Transport T} `{Storage S} `{Application A}.

#[export] Instance eta_RaftDriver : Eta (RaftDriver T S A) := fun d =>
  mkRaftDriver (node_id d) (core d) (pending_proposals d) (pending_reads d) (num_entries d)
    (snapshot_threshold d) (transport d) (storage d) (app d) (replies d).
#[export] Instance field_core : Field (@core T S A) := ltac:(solve_field).
#[export] Instance field_pending_proposals : Field (@pending_proposals T S A) := ltac:(solve_field).
#[export] Instance field_pending_reads : Field (@pending_reads T S A) := ltac:(solve_field).
#[export] Instance field_num_entries : Field (@num_entries T S A) := ltac:(solve_field).
#[export] Instance field_transport : Field (@transport T S A) := ltac:(solve_field).
#[export] Instance field_storage : Field (@storage T S A) := ltac:(solve_field).
#[export] Instance field_app : Field (@app T S A) := ltac:(solve_field).
#[export] Instance field_replies : Field (@replies T S A) := ltac:(solve_field).

Implicit Types d : RaftDriver T S A.

(** [channel.send(reply)] on a oneshot channel. *)
Definition respond d (c : Channel) (r : Reply) : RaftDriver T S A :=
  d <| replies := replies d ++ [(c, r)] |>.

(** A storage call whose error ends the task. *)
Definition stored d (call : exec (S * ioresult unit)) : exec (RaftDriver T S A) :=
  '(s, r) ← call;
  _ ← expect r;
  Done (d <| storage := s |>).

(** [RaftDriver::new]: [a] is the application as it starts. *)
Definition driver_new (g : Rng) (config : RaftConfig T S) (a : A) : exec (RaftDriver T S A) :=
  snapshot ← expect (restore_snapshot (rc_storage config));
  metadata ← expect (restore_metadata (rc_storage config));
  entries ← expect (restore_log_entries (rc_storage config));
  c ← boot_core g (rc_id config) (rc_nodes config) (rc_heartbeat_interval config)
           (rc_election_range config)
           ((fun sn => (sn_last_included_index sn, sn_last_included_term sn)) <$> snapshot)
           ((fun m => (pm_term m, pm_voted_for m)) <$> metadata) entries;
  Done {| node_id := rc_id config;
          core := c;
          pending_proposals := ∅;
          pending_reads := ∅;
          num_entries := 0;
          snapshot_threshold := rc_snapshot_threshold config;
          transport := rc_transport config;
          storage := rc_storage config;
          app := a;
          replies := [] |}.

(** The snapshot that [handle_action] takes when enough entries were applied. *)
Definition driver_snapshot d : exec (RaftDriver T S A) :=
  data ← on_snapshot_request (app d);
  metadata ← prepare_snapshot (core d);
  d ← stored d (store_snapshot (storage d)
        (mkSnapshot (sm_last_applied metadata) (sm_last_applied_term metadata) data));
  c ← complete_snapshot (core d) metadata;
  let d := d <| core := c |> in
  d ← stored d (truncate_log (storage d));
  Done (d <| num_entries := 0 |>).

Definition handle_action d (action : Action) : exec (RaftDriver T S A) :=
  match action with
  | SendMessage target message => Done (d <| transport := send (transport d) target message |>)
  | PersistMetadata term vote =>
      stored d (store_metadata (storage d) (mkPersistedMetadata term vote))
  | PersistLogEntries start_index entries =>
      stored d (store_log_entries (storage d) (mkPersistedLogAddendum start_index entries))
  | ActInstallSnapshot index term data =>
      d ← stored d (store_snapshot (storage d) (mkSnapshot index term data));
      a ← on_snapshot (app d) data;
      let d := d <| app := a |> in
      stored d (truncate_log (storage d))
  | SendInstallSnapshot target term index iterm =>
      data ← expect (retrieve_snapshot_bytes (storage d));
      Done (d <| transport := send (transport d) target (InstallSnapshotMsg
                   (mkInstallSnapshotRPC term (node_id d) index iterm data)) |>)
  | ApplyToStateMachine index command =>
      let d := match pending_proposals d !! index with
               | Some channel =>
                   respond (d <| pending_proposals := delete index (pending_proposals d) |>)
                     channel None
               | None => d
               end in
      match command with
      | [] => Done d
      | _ =>
          let d := d <| app := on_command (app d) command |> in
          let d := d <| num_entries := num_entries d +! 1 |> in
          if snapshot_threshold d <=? num_entries d then driver_snapshot d else Done d
      end
  | ReadBarrierReady rid =>
      match pending_reads d !! rid with
      | Some sender =>
          Done (respond (d <| pending_reads := delete rid (pending_reads d) |>) sender None)
      | None => Done d
      end
  end.

(** [for action in actions { self.handle_action(action).await }] *)
Fixpoint handle_actions d (actions : list Action) : exec (RaftDriver T S A) :=
  match actions with
  | [] => Done d
  | action :: actions => d ← handle_action d action; handle_actions d actions
  end.

(** [RaftDriver::handle_message] *)
Definition driver_message (g : Rng) d (msg : Message) : exec (RaftDriver T S A) :=
  '(c, actions) ← RaftCore.handle_message g (core d) msg;
  handle_actions (d <| core := c |>) actions.

(** Every waiting client of a map is answered. *)
Definition drain (m : gmap Z Channel) : list (Channel * Reply) :=
  (fun kv => (kv.2, Some LostLeadership)) <$> map_to_list m.

(** The index a proposal waits for: the first entries persisted. *)
Fixpoint first_persisted (actions : list Action) : option Z :=
  match actions with
  | [] => None
  | PersistLogEntries start_index _ :: _ => Some start_index
  | _ :: actions => first_persisted actions
  end.

(** ** One turn of the loop *)
Inductive Event : Type :=
| EvTick
| EvProposal (command : bytes) (client : Channel)
| EvRead (client : Channel)
| EvRecv.

Definition on_tick (g : Rng) d : exec (RaftDriver T S A) :=
  '(c, actions) ← tick g (core d);
  handle_actions (d <| core := c |>) actions.

Definition on_proposal d (command : bytes) (client : Channel) : exec (RaftDriver T S A) :=
  '(c, result) ← propose (core d) command;
  let d := d <| core := c |> in
  match result with
  | Some actions =>
      let d := match first_persisted actions with
               | Some index =>
                   d <| pending_proposals := <[index := client]> (pending_proposals d) |>
               | None => d
               end in
      handle_actions d actions
  | None => Done (respond d client (Some (FollowerNode (current_leader c))))
  end.

Definition on_read d (client : Channel) : exec (RaftDriver T S A) :=
  let '(c, result) := request_read_barrier (core d) in
  let d := d <| core := c |> in
  match result with
  | Some read_id => Done (d <| pending_reads := <[read_id := client]> (pending_reads d) |>)
  | None => Done (respond d client (Some (FollowerNode (current_leader c))))
  end.

Definition on_message (g : Rng) d (msg : Message) : exec (RaftDriver T S A) :=
  let before := is_leader (core d) in
  d ← driver_message g d msg;
  let after := is_leader (core d) in
  if before && negb after then
    Done (d <| replies := replies d ++ drain (pending_proposals d) ++ drain (pending_reads d) |>
            <| pending_proposals := ∅ |> <| pending_reads := ∅ |>)
  else Done d.

(** The arms of [select!]; with no message to receive, the loop waits. *)
Definition event_loop_turn (g : Rng) d (ev : Event) : exec (RaftDriver T S A) :=
  match ev with
  | EvTick => on_tick g d
  | EvProposal command client => on_proposal d command client
  | EvRead client => on_read d client
  | EvRecv =>
      match recv (transport d) with
      | Some (msg, t) => on_message g (d <| transport := t |>) msg
      | None => Done d
      end
  end.

(** The loop over a sequence of events, each with its random draws. *)
Fixpoint event_loop d (events : list (Rng * Event)) : exec (RaftDriver T S A) :=
  match events with
  | [] => Done d
  | (g, ev) :: events => d ← event_loop_turn g d ev; event_loop d events
  end.
End driver.
