(* ===== verification/EventLoopFrame.v ===== *)
(** What executing actions changes in the driver. *)

From S2P Require Import Prelude Types RaftCore CoreLog CoreFrame CoreReplication CoreElection.
From S2P Require Import CoreInvariant CoreCommit CoreTotal ReplicationSafety CoreEffects Codec.
From S2P Require Import Storage EventLoop.

Section frame.
Context {T S A : Type} `{HT : Transport T} `{HS : Storage S} `{HA : Application A}.
Implicit Types d : RaftDriver T S A.

Lemma stored_Done d call d' :
  stored d call = Done d' -> exists s, d' = d <| storage := s |> /\ call = Done (s, Ok tt).
Proof.
  unfold stored. intros H'. apply exec_bind_Done in H' as ([s r] & -> & H').
  apply exec_bind_Done in H' as (u & Hu & H'). destruct r as [[]|]; [|done].
  injection H' as <-. by exists s.
Qed.

Lemma driver_snapshot_Done d d' :
  driver_snapshot d = Done d' ->
  exists c s, core_input (fun _ lo _ => lo) (core d) InSnapshot = Done (c, [])
    /\ d' = d <| core := c |> <| storage := s |> <| num_entries := 0 |>.
Proof.
  unfold driver_snapshot. intros H'. apply exec_bind_Done in H' as (data & _ & H').
  apply exec_bind_Done in H' as (md & Hmd & H'). apply exec_bind_Done in H' as (d1 & H1 & H').
  apply stored_Done in H1 as (s1 & -> & _). apply exec_bind_Done in H' as (c & Hc & H').
  apply exec_bind_Done in H' as (d2 & H2 & H'). apply stored_Done in H2 as (s2 & -> & _).
  injection H' as <-. exists c, s2. split; [|done]. cbn. rewrite Hmd. cbn in Hc |- *. by rewrite Hc.
Qed.

(** The clients an action answers. *)
Definition answered d (a : Action) : list (Channel * Reply) :=
  match a with
  | ApplyToStateMachine index _ =>
      match pending_proposals d !! index with Some c => [(c, None)] | None => [] end
  | ReadBarrierReady rid =>
      match pending_reads d !! rid with Some c => [(c, None)] | None => [] end
  | _ => []
  end.

Definition answered_proposals (a : Action) (m : gmap Z Channel) : gmap Z Channel :=
  match a with ApplyToStateMachine index _ => delete index m | _ => m end.

Definition answered_reads (a : Action) (m : gmap Z Channel) : gmap Z Channel :=
  match a with ReadBarrierReady rid => delete rid m | _ => m end.

(** The client side of an action, and what it may do to the core: nothing, or
    a snapshot. *)
Lemma handle_action_Done d a d' :
  handle_action d a = Done d' ->
  replies d' = replies d ++ answered d a
  /\ pending_proposals d' = answered_proposals a (pending_proposals d)
  /\ pending_reads d' = answered_reads a (pending_reads d)
  /\ (core d' = core d
      \/ core_input (fun _ lo _ => lo) (core d) InSnapshot = Done (core d', [])).
Proof.
  intros H'. destruct a; cbn in H' |- *.
  - injection H' as <-. rewrite app_nil_r. auto.
  - set (d1 := match pending_proposals d !! index with Some _ => _ | None => _ end) in *.
    assert (replies d1 = replies d ++ match pending_proposals d !! index with
                                      | Some c => [(c, None)] | None => [] end
      /\ pending_proposals d1 = delete index (pending_proposals d)
      /\ pending_reads d1 = pending_reads d /\ core d1 = core d) as (H2 & H3 & H4 & H5).
    { unfold d1. destruct (pending_proposals d !! index) eqn:Hp; [done|].
      rewrite app_nil_r, delete_id by done. done. }
    clearbody d1. destruct command as [|b bs]; [injection H' as <-; split_and!; auto|].
    destruct (snapshot_threshold _ <=? _).
    + apply driver_snapshot_Done in H' as (c & s & Hc & ->). cbn in *. rewrite H5 in Hc. split_and!; auto.
    + injection H' as <-. cbn. split_and!; auto.
  - apply stored_Done in H' as (s & -> & _). rewrite app_nil_r. auto.
  - apply stored_Done in H' as (s & -> & _). rewrite app_nil_r. auto.
  - apply exec_bind_Done in H' as (data & _ & H'). injection H' as <-. rewrite app_nil_r. auto.
  - apply exec_bind_Done in H' as (d1 & H1' & H'). apply stored_Done in H1' as (s & -> & _).
    apply exec_bind_Done in H' as (a & _ & H'). apply stored_Done in H' as (s' & -> & _).
    rewrite app_nil_r. auto.
  - destruct (pending_reads d !! _) as [c|] eqn:Hp; injection H' as <-; [auto|].
    rewrite app_nil_r, delete_id by done. auto.
Qed.
End frame.
