(* ===== verification/EventLoopTheorems.v ===== *)
(** The driver's clients: every proposal and every read is answered once, and
    nobody waits on a node that is not the leader. *)

From S2P Require Import Prelude Types RaftCore CoreLog CoreFrame CoreReplication CoreElection.
From S2P Require Import CoreInvariant CoreCommit CoreTotal ReplicationSafety CoreEffects.
From S2P Require Import CoreLeader Codec Storage EventLoop EventLoopFrame.

(** A snapshot keeps the role, the last index and the read barriers. *)
Lemma snapshot_keeps g s s' acts :
  core_wf s -> core_input g s InSnapshot = Done (s', acts) ->
  core_wf s' /\ state s' = state s /\ last_log_index s' = last_log_index s
  /\ next_read_barrier_id s' = next_read_barrier_id s.
Proof.
  intros Hwf H. pose proof (snapshot_wf g s Hwf) as Hwf'. rewrite H in Hwf'. cbn in Hwf'.
  destruct (snapshot_returns g s Hwf) as (t & _ & Heq). rewrite H in Heq. injection Heq as -> ->.
  destruct (Z.leb_spec (last_applied s) (last_included_index s)); [done|].
  destruct (wf_commit _ Hwf). pose proof (wf_applied _ Hwf).
  split_and!; try done. rewrite !last_log_index_eq by (apply Hwf || apply Hwf'). cbn.
  rewrite len_drop by lia. lia.
Qed.

Section clients.
Context {T S A : Type} `{HT : Transport T} `{HS : Storage S} `{HA : Application A}.
Implicit Types d : RaftDriver T S A.

(** Everyone who waits or was answered. *)
Definition clients d : list Channel :=
  (map_to_list (pending_proposals d)).*2 ++ (map_to_list (pending_reads d)).*2 ++ (replies d).*1.

(** The invariant of the loop. *)
Record driver_ok d : Prop := {
  dk_wf : core_wf (core d);
  dk_waiting : state (core d) <> Leader -> pending_proposals d = ∅ /\ pending_reads d = ∅;
  dk_proposals : map_Forall (fun i _ => i <= last_log_index (core d)) (pending_proposals d);
  dk_reads : map_Forall (fun i _ => i <= next_read_barrier_id (core d)) (pending_reads d);
}.

(** The contract of an event. *)
Definition event_ok d (ev : Event) : Prop :=
  match ev with
  | EvTick => True
  | EvProposal _ _ => room (core d) 1
  | EvRead _ => 0 <= next_read_barrier_id (core d) /\ next_read_barrier_id (core d) + 1 < U64
  | EvRecv => forall msg t, recv (transport d) = Some (msg, t) -> input_ok (core d) (InMessage msg)
  end.

Definition new_clients (ev : Event) : list Channel :=
  match ev with EvProposal _ c => [c] | EvRead c => [c] | _ => [] end.

Lemma delete_values (m : gmap Z Channel) i c :
  m !! i = Some c -> (map_to_list m).*2 ≡ₚ c :: (map_to_list (delete i m)).*2.
Proof. intros Hi. by rewrite <- (map_to_list_delete m i c Hi). Qed.

Lemma insert_values (m : gmap Z Channel) i c :
  m !! i = None -> (map_to_list (<[i := c]> m)).*2 ≡ₚ c :: (map_to_list m).*2.
Proof. intros Hi. by rewrite map_to_list_insert. Qed.

Lemma handle_action_clients d a d' : handle_action d a = Done d' -> clients d' ≡ₚ clients d.
Proof.
  intros (Hr & Hp & Hq & _)%handle_action_Done. unfold clients. rewrite Hr, Hp, Hq.
  destruct a as [|i cmd| | | | |i]; cbn; rewrite ?app_nil_r; try done.
  - destruct (pending_proposals d !! i) as [c|] eqn:Hi.
    + rewrite (delete_values _ _ _ Hi), fmap_app. cbn. solve_Permutation.
    + by rewrite delete_id, app_nil_r.
  - destruct (pending_reads d !! i) as [c|] eqn:Hi.
    + rewrite (delete_values _ _ _ Hi), fmap_app. cbn. solve_Permutation.
    + by rewrite delete_id, app_nil_r.
Qed.

Lemma answered_sub a (m : gmap Z Channel) : answered_proposals a m ⊆ m /\ answered_reads a m ⊆ m.
Proof. split; destruct a; cbn; try done; apply delete_subseteq. Qed.

Lemma handle_action_ok d a d' :
  driver_ok d -> handle_action d a = Done d' -> driver_ok d' /\ state (core d') = state (core d).
Proof.
  intros [Hwf Hw Hp Hr] (_ & Hp' & Hr' & Hc)%handle_action_Done.
  assert (core_wf (core d') /\ state (core d') = state (core d)
    /\ last_log_index (core d') = last_log_index (core d)
    /\ next_read_barrier_id (core d') = next_read_barrier_id (core d)) as (H1 & H2 & H3 & H4).
  { destruct Hc as [->|Hc]; [done|]. by apply snapshot_keeps in Hc. }
  split; [|done]. destruct (answered_sub a (pending_proposals d)) as [Hs1 _].
  destruct (answered_sub a (pending_reads d)) as [_ Hs2]. split; [done| | |].
  - rewrite H2, Hp', Hr'. intros [Hn1 Hn2]%Hw. rewrite Hn1, Hn2.
    destruct a; cbn; by rewrite ?delete_empty.
  - rewrite Hp', H3. intros i c Hi. by eapply Hp, lookup_weaken.
  - rewrite Hr', H4. intros i c Hi. by eapply Hr, lookup_weaken.
Qed.

(** Without the client part of the invariant. *)
Lemma handle_actions_lost d acts d' :
  core_wf (core d) -> handle_actions d acts = Done d' ->
  core_wf (core d') /\ state (core d') = state (core d) /\ clients d' ≡ₚ clients d.
Proof.
  revert d. induction acts as [|a acts IH]; intros d Hwf H; cbn in H; [by injection H as <-|].
  apply exec_bind_Done in H as (d1 & Ha & H).
  assert (core_wf (core d1) /\ state (core d1) = state (core d)) as [Hwf1 Hs1].
  { pose proof Ha as (_ & _ & _ & [->|Hc])%handle_action_Done; [done|].
    by apply snapshot_keeps in Hc as (? & ? & _). }
  destruct (IH d1 Hwf1 H) as (? & ? & Hc). split_and!; [done|congruence|].
  by rewrite Hc, (handle_action_clients _ _ _ Ha).
Qed.

Lemma handle_actions_state d acts d' :
  core_wf (core d) -> handle_actions d acts = Done d' -> state (core d') = state (core d).
Proof. intros Hwf H. by destruct (handle_actions_lost _ _ _ Hwf H) as (_ & ? & _). Qed.

Lemma handle_actions_ok d acts d' :
  driver_ok d -> handle_actions d acts = Done d' ->
  driver_ok d' /\ state (core d') = state (core d) /\ clients d' ≡ₚ clients d.
Proof.
  revert d. induction acts as [|a acts IH]; intros d Hok H; cbn in H; [by injection H as <-|].
  apply exec_bind_Done in H as (d1 & Ha & H). destruct (handle_action_ok _ _ _ Hok Ha) as [Hok1 Hs1].
  destruct (IH d1 Hok1 H) as (? & ? & Hc). split_and!; [done|congruence|].
  by rewrite Hc, (handle_action_clients _ _ _ Ha).
Qed.

(** A turn that runs the core on [s] from [d] and then the actions. *)
Lemma run_actions_ok d s acts d' :
  driver_ok d -> core_wf s -> leader_step (core d) s -> (state (core d) = Leader -> state s = Leader) ->
  handle_actions (d <| core := s |>) acts = Done d' ->
  driver_ok d' /\ clients d' ≡ₚ clients d.
Proof.
  intros [Hwf Hw Hp Hr] Hwf' [Hid Hlog] Hst H. apply handle_actions_ok in H as (H1 & _ & H2); [done|].
  destruct (decide (state (core d) = Leader)) as [Hl|Hl]; split; cbn; try done.
  - intros Hn. by destruct Hn; apply Hst.
  - intros i c Hi. specialize (Hp i c Hi). cbn in Hp. pose proof (log_extends_last _ _ Hwf Hwf' (Hlog Hl (Hst Hl))). lia.
  - by rewrite Hid.
  - intros _. by apply Hw.
  - destruct (Hw Hl) as [-> _]. apply map_Forall_empty.
  - destruct (Hw Hl) as [_ ->]. apply map_Forall_empty.
Qed.

Lemma on_tick_ok g d d' :
  driver_ok d -> on_tick g d = Done d' -> driver_ok d' /\ clients d' ≡ₚ clients d.
Proof.
  intros Hok H. unfold on_tick in H. apply exec_bind_Done in H as ([s acts] & Ht & H).
  destruct (tick_leader _ _ _ _ Ht) as [Hl Hst].
  pose proof (tick_wf g (core d) (dk_wf _ Hok)) as Hwf. rewrite Ht in Hwf.
  by eapply run_actions_ok.
Qed.

Lemma on_proposal_ok d cmd c d' :
  driver_ok d -> room (core d) 1 -> on_proposal d cmd c = Done d' ->
  driver_ok d' /\ clients d' ≡ₚ c :: clients d.
Proof.
  intros Hok Hroom H. pose proof Hok as [Hwf Hw Hp Hr]. unfold on_proposal in H.
  apply exec_bind_Done in H as ([s o] & Hpr & H).
  pose proof (propose_wf (core d) cmd Hwf Hroom) as Hwf'. rewrite Hpr in Hwf'. cbn in Hwf'.
  destruct (propose_Done _ _ _ _ Hpr) as [(_ & -> & ->)|(Hl & Hs & es & aps & _ & _ & ->)].
  - injection H as <-. split; [by split|].
    unfold clients. cbn. rewrite fmap_app. cbn. solve_Permutation.
  - cbn [first_persisted] in H.
    assert (last_log_index s = last_log_index (core d) + 1) as Hlast.
    { rewrite !last_log_index_eq by (apply Hwf || apply Hwf'). rewrite Hs. cbn. len_lia. }
    assert (pending_proposals d !! last_log_index s = None) as Hfresh.
    { destruct (pending_proposals d !! last_log_index s) eqn:Hi; [|done].
      specialize (Hp _ _ Hi). cbn in Hp. lia. }
    apply handle_actions_ok in H as (H1 & _ & H2).
    + split; [done|]. rewrite H2. unfold clients. cbn. by rewrite insert_values.
    + split; cbn; [done| | |].
      * intros Hn. destruct Hn. by rewrite Hs.
      * apply map_Forall_insert_2; [lia|]. eapply map_Forall_impl; [exact Hp|]. cbn. intros. lia.
      * by rewrite Hs.
Qed.

Lemma on_read_ok d c d' :
  driver_ok d -> event_ok d (EvRead c) -> on_read d c = Done d' ->
  driver_ok d' /\ clients d' ≡ₚ c :: clients d.
Proof.
  intros [Hwf Hw Hp Hr] [Hn0 Hn1] H. unfold on_read, request_read_barrier in H.
  case_bool_decide as Hst.
  - injection H as <-. split; [by split|]. unfold clients. cbn. rewrite fmap_app. cbn. solve_Permutation.
  - cbn in H. injection H as <-. rewrite u64_add_small by lia. split.
    + split; cbn; [|tauto|done|].
      * eapply core_wf_same_data; [|exact Hwf]. same_data_tac. apply Hwf.
      * apply map_Forall_insert_2; [lia|].
        eapply map_Forall_impl; [exact Hr|]. cbn. intros. lia.
    + unfold clients. cbn. rewrite insert_values; [solve_Permutation|].
      destruct (pending_reads d !! _) eqn:Hi; [|done]. specialize (Hr _ _ Hi). cbn in Hr. lia.
Qed.

Lemma drain_clients (m : gmap Z Channel) : (drain m).*1 = (map_to_list m).*2.
Proof. unfold drain. by rewrite <- list_fmap_compose. Qed.

Lemma on_message_ok g d msg d' :
  driver_ok d -> input_ok (core d) (InMessage msg) -> on_message g d msg = Done d' ->
  driver_ok d' /\ clients d' ≡ₚ clients d.
Proof.
  intros Hok Hin H. pose proof Hok as [Hwf Hw Hp Hr]. unfold on_message in H.
  apply exec_bind_Done in H as (d1 & H1 & H). unfold driver_message in H1.
  apply exec_bind_Done in H1 as ([s acts] & Hm & H1).
  pose proof (core_input_wf g (core d) (InMessage msg) Hwf Hin) as Hwf'.
  cbn [core_input] in Hwf'. rewrite Hm in Hwf'. cbn in Hwf'.
  pose proof (message_leader _ _ _ _ _ Hin Hm) as Hls.
  destruct (decide (state (core d) = Leader /\ state s <> Leader)) as [[Hl Hn]|Hkeep].
  - apply handle_actions_lost in H1 as (Hwf1 & Hs1 & Hc1); [|exact Hwf'].
    cbn in Hs1. unfold is_leader in H. rewrite bool_decide_true, bool_decide_false in H by congruence.
    cbn in H. injection H as <-. split.
    + split; cbn; try done; apply map_Forall_empty.
    + etrans; [|exact Hc1]. unfold clients. cbn.
      rewrite map_to_list_empty. cbn. rewrite !fmap_app, !drain_clients. solve_Permutation.
  - assert (state (core d) = Leader -> state s = Leader) as Hst.
    { intros Hl. destruct (decide (state s = Leader)); [done|]. by destruct Hkeep. }
    destruct (run_actions_ok _ _ _ _ Hok Hwf' Hls Hst H1) as [Hok1 Hc1].
    assert (state (core d1) = state s) as Hs1 by (by eapply handle_actions_state in H1).
    unfold is_leader in H. case_match eqn:Hb; [|injection H as <-; done].
    apply andb_prop in Hb as [Hb1%bool_decide_eq_true Hb2%negb_true_iff%bool_decide_eq_false].
    destruct Hb2. rewrite Hs1. auto.
Qed.
Lemma event_loop_turn_ok g d ev d' :
  driver_ok d -> event_ok d ev -> event_loop_turn g d ev = Done d' ->
  driver_ok d' /\ clients d' ≡ₚ new_clients ev ++ clients d.
Proof.
  intros Hok Hev H. destruct ev as [|cmd c|c|]; cbn in H |- *.
  - by eapply on_tick_ok.
  - by eapply on_proposal_ok.
  - by eapply on_read_ok.
  - destruct (recv (transport d)) as [[msg t]|] eqn:Hr; [|injection H as <-; done].
    eapply on_message_ok in H; [exact H| |by eapply Hev].
    destruct Hok. by split.
Qed.

(** The contract along a run of the loop. *)
Fixpoint events_ok d (events : list (Rng * Event)) : Prop :=
  match events with
  | [] => True
  | (g, ev) :: events =>
      event_ok d ev /\
      match event_loop_turn g d ev with Done d => events_ok d events | Panic => True end
  end.

Lemma event_loop_ok events d d' :
  driver_ok d -> events_ok d events -> event_loop d events = Done d' ->
  driver_ok d' /\ clients d' ≡ₚ (events ≫= fun e => new_clients e.2) ++ clients d.
Proof.
  revert d. induction events as [|[g ev] events IH]; intros d Hok Hev H; cbn in H; [by injection H as <-|].
  destruct Hev as [Hev Hrest]. destruct (event_loop_turn g d ev) as [d1|] eqn:Ht; [|done]. cbn in H.
  destruct (event_loop_turn_ok _ _ _ _ Hok Hev Ht) as [Hok1 Hc1].
  destruct (IH d1 Hok1 Hrest H) as [? Hc]. split; [done|]. rewrite Hc, Hc1. cbn. solve_Permutation.
Qed.

(** ** Theorems *)


(** C21: nobody waits on a follower.  Through any run of the event loop from a
    freshly booted driver, a node that is not the leader has no waiting client:
    whoever asked it has its answer. *)
Theorem no_client_waits_on_follower g config a d0 events d' :
  driver_new g config a = Done d0 -> core_wf (core d0) -> events_ok d0 events ->
  event_loop d0 events = Done d' -> is_leader (core d') = false ->
  pending_proposals d' = ∅ /\ pending_reads d' = ∅
  /\ (replies d').*1 ≡ₚ events ≫= fun e => new_clients e.2.
Proof.
  intros Hn Hwf Hev H Hl%bool_decide_eq_false. unfold driver_new in Hn. exec_inv.
  destruct (event_loop_ok events _ _ ltac:(by split) Hev H) as [[_ Hw _ _] Hc].
  destruct (Hw Hl) as [Hp Hr]. split_and!; [done..|]. unfold clients in Hc.
  rewrite Hp, Hr, map_to_list_empty in Hc. cbn in Hc. by rewrite app_nil_r in Hc.
Qed.
End clients.
