(* ===== verification/NodeHandle.v ===== *)
(** The handle of a node: crates/raft-event-loop/src/lib.rs, [RaftNode].

    The handle sends proposals and reads into two bounded channels and waits on
    a oneshot channel of its own; the event loop runs as a task that takes the
    next element of a channel whenever [select!] picks that arm.  A call is the
    number of its oneshot channel, given out in order. *)

From S2P Require Import Prelude Types RaftCore CoreElection CoreInvariant CoreEffects CoreLeader.
From S2P Require Import Codec Storage EventLoop EventLoopFrame EventLoopTheorems.

Section handle.
Context {T S A : Type} `{HT : Transport T} `{HS : Storage S} `{HA : Application A}.
Implicit Types d : RaftDriver T S A.

(** ** State *)

(** The spawned task: it runs, or it has panicked, which drops the receivers of
    both channels and the oneshot senders it held; what it had sent before can
    still be received. *)
Inductive Task : Type :=
| Running (d : RaftDriver T S A)
| Stopped (sent : list (Channel * Reply)).

Record RaftNode := mkRaftNode {
  proposal : list (bytes * Channel);
  read : list Channel;
  task : Task;
  next_call : Channel;
}.

#[local] Instance eta_RaftNode : Eta RaftNode := fun n =>
  mkRaftNode (proposal n) (read n) (task n) (next_call n).
#[local] Instance field_proposal : Field proposal := ltac:(solve_field).
#[local] Instance field_read : Field read := ltac:(solve_field).
#[local] Instance field_task : Field task := ltac:(solve_field).
#[local] Instance field_next_call : Field next_call := ltac:(solve_field).

Definition CHANNEL_BUFFER : nat := 1024.

Definition node_new (g : Rng) (config : RaftConfig T S) (a : A) : exec RaftNode :=
  d ← driver_new g config a;
  Done (mkRaftNode [] [] (Running d) 0).

(** ** Calls *)

(** The first half of [propose], up to the [send]: the call's oneshot channel
    and the queued proposal; [None] while the channel is full.  Sending to a
    task that is gone is an [expect]. *)
Definition send_proposal (n : RaftNode) (command : bytes) : exec (option (RaftNode * Channel)) :=
  match task n with
  | Stopped _ => Panic
  | Running _ =>
      if (length (proposal n) <? CHANNEL_BUFFER)%nat
      then Done (Some (n <| proposal := proposal n ++ [(command, next_call n)] |>
                         <| next_call := next_call n + 1 |>, next_call n))
      else Done None
  end.

(** The first half of [read_request]. *)
Definition send_read (n : RaftNode) : exec (option (RaftNode * Channel)) :=
  match task n with
  | Stopped _ => Panic
  | Running _ =>
      if (length (read n) <? CHANNEL_BUFFER)%nat
      then Done (Some (n <| read := read n ++ [next_call n] |>
                         <| next_call := next_call n + 1 |>, next_call n))
      else Done None
  end.

(** What was sent on the oneshot channels. *)
Definition answers (n : RaftNode) : list (Channel * Reply) :=
  match task n with Running d => replies d | Stopped sent => sent end.

Fixpoint answer_of (l : list (Channel * Reply)) (c : Channel) : option Reply :=
  match l with
  | [] => None
  | (c', r) :: l => if c' =? c then Some r else answer_of l c
  end.

(** [rx.await], the second half of both calls: the answer, [None] while there
    is none; when the sender is gone, [expect] panics. *)
Definition poll (n : RaftNode) (c : Channel) : exec (option Reply) :=
  match answer_of (answers n) c with
  | Some r => Done (Some r)
  | None => match task n with Running _ => Done None | Stopped _ => Panic end
  end.

(** ** The task *)
Inductive Arm : Type := ArmTick | ArmProposal | ArmRead | ArmMessage.

(** The event of the arm [select!] picked, taken from its channel. *)
Definition take_event (n : RaftNode) (arm : Arm) : option (Event * RaftNode) :=
  match arm with
  | ArmTick => Some (EvTick, n)
  | ArmMessage => Some (EvRecv, n)
  | ArmProposal =>
      match proposal n with
      | [] => None
      | (command, c) :: rest => Some (EvProposal command c, n <| proposal := rest |>)
      end
  | ArmRead =>
      match read n with
      | [] => None
      | c :: rest => Some (EvRead c, n <| read := rest |>)
      end
  end.

(** A turn that returns, and one that panics; the latter may have answered
    some of those it found waiting, each at most once, since sending consumes
    the oneshot sender. *)
Inductive node_step (n : RaftNode) : RaftNode -> Prop :=
| step_propose command n' c : send_proposal n command = Done (Some (n', c)) -> node_step n n'
| step_read n' c : send_read n = Done (Some (n', c)) -> node_step n n'
| step_turn d g arm ev n1 d' :
    task n = Running d -> take_event n arm = Some (ev, n1) -> event_ok d ev ->
    event_loop_turn g d ev = Done d' -> node_step n (n1 <| task := Running d' |>)
| step_panic d g arm ev n1 sent :
    task n = Running d -> take_event n arm = Some (ev, n1) ->
    event_loop_turn g d ev = Panic ->
    (replies d ++ sent).*1 ⊆+ new_clients ev ++ clients d ->
    node_step n (n1 <| task := Stopped (replies d ++ sent) |>).

(** ** Answers are sent once *)
Lemma answer_of_app l k c r : answer_of l c = Some r -> answer_of (l ++ k) c = Some r.
Proof. induction l as [|[c' r'] l IH]; cbn; [done|]. by destruct (c' =? c). Qed.

Lemma answer_of_elem l c r : NoDup l.*1 -> (c, r) ∈ l <-> answer_of l c = Some r.
Proof.
  induction l as [|[c' r'] l IH]; cbn; intros Hnd.
  { split; [by intros Hin%not_elem_of_nil|done]. }
  apply NoDup_cons in Hnd as [Hc Hnd]. rewrite elem_of_cons. destruct (Z.eqb_spec c' c) as [->|Hne].
  - split; [|intros [= ->]; by left]. intros [[= ->]|Hin]; [done|]. destruct Hc.
    apply list_elem_of_fmap. by exists (c, r).
  - rewrite <- IH by done. naive_solver.
Qed.

Lemma handle_actions_replies d acts d' :
  handle_actions d acts = Done d' -> exists l, replies d' = replies d ++ l.
Proof.
  revert d. induction acts as [|a acts IH]; intros d H; cbn in H.
  { injection H as <-. exists []. by rewrite app_nil_r. }
  apply exec_bind_Done in H as (d1 & (Hr & _)%handle_action_Done & (l & ->)%IH).
  rewrite Hr, <- app_assoc. by eexists.
Qed.

Lemma turn_replies g d ev d' : event_loop_turn g d ev = Done d' -> exists l, replies d' = replies d ++ l.
Proof.
  assert (forall s acts d', handle_actions (d <| core := s |>) acts = Done d' ->
    exists l, replies d' = replies d ++ l) as Hacts.
  { intros s acts d2 [l Hl]%handle_actions_replies. by exists l. }
  destruct ev as [|cmd c|c|]; cbn; unfold on_tick, on_proposal, on_read, on_message, driver_message; intros H.
  - exec_inv. by eapply Hacts.
  - apply exec_bind_Done in H as ([s o] & _ & H). destruct o as [acts|].
    + apply handle_actions_replies in H as [l ->]. exists l. by case_match.
    + injection H as <-. by eexists.
  - destruct (request_read_barrier _) as [s [i|]]; injection H as <-; [|by eexists].
    exists []. by rewrite app_nil_r.
  - destruct (recv _) as [[msg t]|]; [|injection H as <-; exists []; by rewrite app_nil_r].
    apply exec_bind_Done in H as (d1 & H1 & H). apply exec_bind_Done in H1 as ([s acts] & _ & H1).
    apply handle_actions_replies in H1 as [l Hl]. cbn in Hl.
    destruct (_ && _); injection H as <-; [|by exists l]. cbn. rewrite Hl, <- app_assoc. by eexists.
Qed.

(** ** The invariant *)

(** Everyone whose call is in a channel, waits in the driver or was answered. *)
Definition calls (n : RaftNode) : list Channel :=
  (proposal n).*2 ++ read n ++ match task n with Running d => clients d | Stopped sent => sent.*1 end.

Record node_ok (n : RaftNode) : Prop := {
  no_calls : calls n ⊆+ seqZ 0 (next_call n);
  no_running : forall d, task n = Running d -> driver_ok d /\ calls n ≡ₚ seqZ 0 (next_call n);
  no_next : 0 <= next_call n;
  no_proposals : (length (proposal n) <= CHANNEL_BUFFER)%nat;
  no_reads : (length (read n) <= CHANNEL_BUFFER)%nat;
}.

Lemma node_new_ok g config a n :
  node_new g config a = Done n -> (forall d, task n = Running d -> core_wf (core d)) -> node_ok n.
Proof.
  unfold node_new. intros H Hwf. apply exec_bind_Done in H as (d & Hd & H). injection H as <-.
  specialize (Hwf d eq_refl). unfold driver_new in Hd. exec_inv.
  split; cbn; unfold CHANNEL_BUFFER; try lia; [done|]. intros d [= <-]. split; [|done]. by split.
Qed.

Lemma send_proposal_Done n command n' c :
  send_proposal n command = Done (Some (n', c)) ->
  (exists d, task n = Running d) /\ c = next_call n /\ (length (proposal n) < CHANNEL_BUFFER)%nat
  /\ n' = n <| proposal := proposal n ++ [(command, c)] |> <| next_call := c + 1 |>.
Proof.
  unfold send_proposal. destruct (task n) as [d|]; [|done].
  destruct (Nat.ltb_spec (length (proposal n)) CHANNEL_BUFFER); [|done].
  intros [= <- <-]. eauto.
Qed.

Lemma send_read_Done n n' c :
  send_read n = Done (Some (n', c)) ->
  (exists d, task n = Running d) /\ c = next_call n /\ (length (read n) < CHANNEL_BUFFER)%nat
  /\ n' = n <| read := read n ++ [c] |> <| next_call := c + 1 |>.
Proof.
  unfold send_read. destruct (task n) as [d|]; [|done].
  destruct (Nat.ltb_spec (length (read n)) CHANNEL_BUFFER); [|done].
  intros [= <- <-]. eauto.
Qed.

(** A call that joins. *)
Lemma call_ok n n' d :
  node_ok n -> task n = Running d -> task n' = Running d -> next_call n' = next_call n + 1 ->
  calls n' ≡ₚ next_call n :: calls n ->
  (length (proposal n') <= CHANNEL_BUFFER)%nat -> (length (read n') <= CHANNEL_BUFFER)%nat -> node_ok n'.
Proof.
  intros [_ Hr Hn _ _] Hd Hd' Hnext Hc Hp Hrd. destruct (Hr d Hd) as [Hok Hcalls].
  assert (calls n' ≡ₚ seqZ 0 (next_call n')) as Hall.
  { rewrite Hc, Hnext, Hcalls, seqZ_app by lia. cbn. solve_Permutation. }
  split; try done; [by rewrite Hall| |lia]. intros d1 Hd1. split; [|done]. congruence.
Qed.

(** The queue part of a turn: the event's client left its channel. *)
Lemma take_event_calls n arm ev n1 d :
  take_event n arm = Some (ev, n1) -> task n = Running d ->
  calls n ≡ₚ (proposal n1).*2 ++ read n1 ++ new_clients ev ++ clients d
  /\ next_call n1 = next_call n
  /\ (length (proposal n1) <= length (proposal n))%nat /\ (length (read n1) <= length (read n))%nat.
Proof.
  intros H Hd. unfold calls. rewrite Hd.
  destruct arm; cbn in H; [by injection H as <- <-| | |by injection H as <- <-].
  - destruct (proposal n) as [|[cmd c] rest]; [done|]. injection H as <- <-. cbn.
    split_and!; [solve_Permutation|done|lia..].
  - destruct (read n) as [|c rest]; [done|]. injection H as <- <-. cbn.
    split_and!; [solve_Permutation|done|lia..].
Qed.

Lemma node_step_ok n n' : node_ok n -> node_step n n' -> node_ok n'.
Proof.
  intros Hok [cmd n1 c Hs|n1 c Hs|d g arm ev n1 d' Hd He Hev Ht|d g arm ev n1 sent Hd He Ht Hsub].
  - apply send_proposal_Done in Hs as ((d & Hd) & -> & Hl & ->).
    apply (call_ok n _ d); cbn; try done; [|by rewrite length_app; cbn; lia|by apply Hok].
    unfold calls. cbn. rewrite fmap_app. cbn. solve_Permutation.
  - apply send_read_Done in Hs as ((d & Hd) & -> & Hl & ->).
    apply (call_ok n _ d); cbn; try done; [|by apply Hok|by rewrite length_app; cbn; lia].
    unfold calls. cbn. solve_Permutation.
  - destruct (take_event_calls _ _ _ _ _ He Hd) as (Hc & Hn & Hp & Hr).
    destruct Hok as [_ Hrun Hn0 Hp0 Hr0]. destruct (Hrun d Hd) as [Hdok Hall].
    destruct (event_loop_turn_ok _ _ _ _ Hdok Hev Ht) as [Hdok' Hcl].
    assert (calls (n1 <| task := Running d' |>) ≡ₚ seqZ 0 (next_call n)) as Hall'.
    { unfold calls. cbn. by rewrite Hcl, <- Hc. }
    split; cbn; rewrite ?Hn; [by rewrite Hall'| |done|lia..]. intros d1 [= <-]. done.
  - destruct (take_event_calls _ _ _ _ _ He Hd) as (Hc & Hn & Hp & Hr).
    destruct Hok as [Hcalls _ Hn0 Hp0 Hr0]. split; cbn; rewrite ?Hn; [|done|done|lia..].
    etrans; [|exact Hcalls]. rewrite Hc. unfold calls. cbn. by apply submseteq_app, submseteq_app.
Qed.

Lemma nodes_ok n n' : node_ok n -> rtc node_step n n' -> node_ok n'.
Proof. intros Hok H. induction H; eauto using node_step_ok. Qed.

(** ** Answers stay *)
Lemma poll_answered n c r : poll n c = Done (Some r) <-> answer_of (answers n) c = Some r.
Proof. unfold poll. destruct (answer_of (answers n) c); [naive_solver|]. destruct (task n); naive_solver. Qed.

Lemma step_answers n n' : node_step n n' -> exists l, answers n' = answers n ++ l.
Proof.
  unfold answers.
  intros [cmd n1 c Hs|n1 c Hs|d g arm ev n1 d' Hd He Hev Ht|d g arm ev n1 sent Hd He Ht Hsub].
  - apply send_proposal_Done in Hs as ((d & Hd) & -> & _ & ->). cbn. exists []. by rewrite app_nil_r.
  - apply send_read_Done in Hs as ((d & Hd) & -> & _ & ->). cbn. exists []. by rewrite app_nil_r.
  - rewrite Hd. cbn. by eapply turn_replies.
  - rewrite Hd. cbn. by eexists.
Qed.

Lemma poll_stays n n' c r : rtc node_step n n' -> poll n c = Done (Some r) -> poll n' c = Done (Some r).
Proof.
  intros H. induction H as [|n n1 n' Hs _ IH]; [done|]. intros Hp. apply IH.
  apply poll_answered in Hp. apply poll_answered. destruct (step_answers _ _ Hs) as [l ->].
  by apply answer_of_app.
Qed.

Lemma answers_once n : node_ok n -> NoDup (answers n).*1.
Proof.
  intros [Hc _ _ _ _].
  assert ((answers n).*1 ⊆+ calls n) as Hsub.
  { unfold calls, answers, clients. destruct (task n); by repeat apply submseteq_inserts_l. }
  destruct (submseteq_Permutation _ _ (transitivity Hsub Hc)) as [rest Hrest].
  pose proof (NoDup_seqZ 0 (next_call n)) as Hnd. rewrite Hrest in Hnd. by apply NoDup_app in Hnd as [? _].
Qed.

Lemma answer_of_None l c : c ∉ l.*1 -> answer_of l c = None.
Proof.
  induction l as [|[c' r] l IH]; cbn; [done|]. intros [Hne Hc]%not_elem_of_cons.
  destruct (Z.eqb_spec c' c); [congruence|auto].
Qed.

End handle.
