(* ===== verification/EventLoopReplies.v ===== *)
(** What a client's success means: its own command was handed to the
    application. *)

From S2P Require Import Prelude Types RaftCore CoreLog CoreFrame CoreReplication CoreElection.
From S2P Require Import CoreInvariant CoreCommit CoreTotal ReplicationSafety CoreEffects.
From S2P Require Import CoreLeader Codec Storage EventLoop EventLoopFrame EventLoopTheorems.

(** ** Commands of the log *)

(** The command at an index above the snapshot. *)
Definition command_at (s : RaftCore) (i : Z) : option bytes :=
  e_command <$> log s !! Z.to_nat (i - last_included_index s - 1).

Lemma commands_elem s lo hi i c :
  last_included_index s <= lo -> (i, c) ∈ commands s lo hi <-> lo < i <= hi /\ command_at s i = Some c.
Proof.
  intros Hlo. unfold commands, command_at. rewrite list_elem_of_lookup. split.
  - intros [k Hk]. rewrite list_lookup_imap in Hk. apply fmap_Some in Hk as (e & He & [= -> ->]).
    apply lookup_take_Some in He as [He Hlt]. rewrite lookup_drop in He.
    split; [lia|]. replace (Z.to_nat _) with (Z.to_nat (lo - last_included_index s) + k)%nat by lia.
    by rewrite He.
  - intros [Hi (e & He & ->)%fmap_Some]. exists (Z.to_nat (i - lo - 1)).
    rewrite list_lookup_imap, lookup_take_lt, lookup_drop by lia.
    replace (Z.to_nat (lo - _) + _)%nat with (Z.to_nat (i - last_included_index s - 1)) by lia.
    rewrite He. cbn. repeat f_equal. lia.
Qed.

Lemma command_at_extends s s' i c :
  log_extends s s' -> command_at s i = Some c -> command_at s' i = Some c.
Proof.
  intros [Hi Hp] (e & He & ->)%fmap_Some. unfold command_at. rewrite Hi.
  by rewrite (prefix_lookup_Some _ _ _ _ He Hp).
Qed.

(** The driver's snapshot keeps the commands that are not applied. *)
Lemma snapshot_commands g s s' acts :
  core_wf s -> core_input g s InSnapshot = Done (s', acts) ->
  last_applied s' = last_applied s
  /\ forall i, last_applied s < i -> command_at s' i = command_at s i.
Proof.
  intros Hwf H. destruct (snapshot_returns g s Hwf) as (t & _ & Heq). rewrite H in Heq.
  injection Heq as -> ->. destruct (Z.leb_spec (last_applied s) (last_included_index s)); [done|].
  split; [done|]. intros i Hi. unfold command_at. cbn. rewrite lookup_drop. do 2 f_equal. lia.
Qed.

(** An element of a duplicate-free concatenation comes from one place. *)
Lemma bind_NoDup_unique {X Y} (f : X -> list Y) (l : list X) y x1 x2 :
  NoDup (l ≫= f) -> x1 ∈ l -> x2 ∈ l -> y ∈ f x1 -> y ∈ f x2 -> x1 = x2.
Proof.
  induction l as [|x l IH]; [by intros _ []%not_elem_of_nil|]. cbn.
  intros (_ & Hdis & Hnd)%NoDup_app Hx1 Hx2 H1 H2.
  assert (forall z, z ∈ l -> y ∈ f z -> y ∈ l ≫= f) as Hb by (intros; apply list_elem_of_bind; eauto).
  apply elem_of_cons in Hx1 as [->|Hx1], Hx2 as [->|Hx2]; [done| | |eauto]; exfalso; eapply Hdis; eauto.
Qed.

(** ** An application with a record of its commands *)
Section replies.
Context {T S A : Type} `{HT : Transport T} `{HS : Storage S} `{HA : Application A}.

(** Any application, with the list of the commands it was given. *)
#[local] Instance recording : Application (A * list bytes) := {|
  on_command a c := (on_command a.1 c, a.2 ++ [c]);
  on_snapshot a data := (fun a' => (a', a.2)) <$> on_snapshot a.1 data;
  on_snapshot_request a := on_snapshot_request a.1;
|}.

Implicit Types d : RaftDriver T S (A * list bytes).

Definition history d : list bytes := (app d).2.

(** The entries that reach the application: the empty ones do not. *)
Definition handed (c : bytes) : Prop := c <> [].
#[local] Instance handed_dec c : Decision (handed c) := ltac:(unfold handed; apply _).

Lemma handle_action_history d a d' :
  handle_action d a = Done d' ->
  history d' = history d ++ filter handed (omap apply_of [a]).*2.
Proof.
  intros H'. destruct a; cbn -[driver_snapshot] in H' |- *; rewrite ?app_nil_r.
  - by injection H' as <-.
  - set (d1 := match pending_proposals d !! index with Some _ => _ | None => _ end) in *.
    assert (app d1 = app d) as Ha by (unfold d1; by destruct (pending_proposals d !! index)). clearbody d1.
    destruct command as [|b bs]; cbn -[driver_snapshot].
    + injection H' as <-. unfold history. by rewrite Ha, app_nil_r.
    + destruct (snapshot_threshold _ <=? _).
      * apply driver_snapshot_Done in H' as (c & s & _ & ->). unfold history. cbn. by rewrite Ha.
      * injection H' as <-. unfold history. cbn. by rewrite Ha.
  - by apply stored_Done in H' as (s & -> & _).
  - by apply stored_Done in H' as (s & -> & _).
  - apply exec_bind_Done in H' as (data & _ & H'). by injection H' as <-.
  - apply exec_bind_Done in H' as (d1 & H1' & H'). apply stored_Done in H1' as (s & -> & _).
    apply exec_bind_Done in H' as (a & Ha & H'). apply stored_Done in H' as (s' & -> & _). cbn in *.
    unfold history. cbn. destruct (on_snapshot _ _) in Ha; [|done]. by injection Ha as <-.
  - destruct (pending_reads d !! _); by injection H' as <-.
Qed.

(** ** One list of actions *)

(** [c] is answered with success because the action on which it waits is in
    [acts]. *)
Definition answered_by d (acts : list Action) (c : Channel) : Prop :=
  (exists i cmd, (i, cmd) ∈ omap apply_of acts /\ pending_proposals d !! i = Some c)
  \/ exists rid, pending_reads d !! rid = Some c.

Record acted d (acts : list Action) d' : Prop := {
  ac_replies : exists new, replies d' = replies d ++ new
    /\ forall c r, (c, r) ∈ new -> r = None /\ answered_by d acts c;
  ac_history : history d' = history d ++ filter handed (omap apply_of acts).*2;
  ac_proposals : forall i c, pending_proposals d' !! i = Some c ->
    pending_proposals d !! i = Some c /\ i ∉ (omap apply_of acts).*1;
  ac_reads : pending_reads d' ⊆ pending_reads d;
  ac_wf : core_wf (core d');
  ac_applied : last_applied (core d') = last_applied (core d);
  ac_commands : forall i, last_applied (core d) < i -> command_at (core d') i = command_at (core d) i;
}.

Lemma handle_action_acted d a d' :
  core_wf (core d) -> handle_action d a = Done d' -> acted d [a] d'.
Proof.
  intros Hwf H. pose proof (handle_action_history _ _ _ H) as Hh.
  apply handle_action_Done in H as (Hr & Hp & Hq & Hc).
  assert (core_wf (core d') /\ last_applied (core d') = last_applied (core d)
    /\ forall i, last_applied (core d) < i -> command_at (core d') i = command_at (core d) i)
    as (H1 & H2 & H3).
  { destruct Hc as [->|Hc]; [done|]. destruct (snapshot_commands _ _ _ _ Hwf Hc).
    by apply snapshot_keeps in Hc as [? _]. }
  split; try done.
  - exists (answered d a). split; [done|]. intros c r Hin. unfold answered_by.
    destruct a as [|i cmd| | | | |i]; cbn in Hin |- *; try by apply not_elem_of_nil in Hin.
    + destruct (pending_proposals d !! i) eqn:Hi; [|by apply not_elem_of_nil in Hin].
      apply list_elem_of_singleton in Hin as [= -> ->]. split; [done|]. left. exists i, cmd. set_solver.
    + destruct (pending_reads d !! i) eqn:Hi; [|by apply not_elem_of_nil in Hin].
      apply list_elem_of_singleton in Hin as [= -> ->]. eauto.
  - rewrite Hp. intros i c Hi. destruct a; cbn in Hi |- *; try (split; [done|apply not_elem_of_nil]).
    apply lookup_delete_Some in Hi as [Hne Hi]. set_solver.
  - rewrite Hq. apply answered_sub.
Qed.

Lemma acted_trans d d1 d' a acts :
  acted d [a] d1 -> acted d1 acts d' -> acted d (a :: acts) d'.
Proof.
  intros [(n1 & Hr1 & Hn1) Hh1 Hp1 Hq1 Hw1 Ha1 Hc1] [(n2 & Hr2 & Hn2) Hh2 Hp2 Hq2 Hw2 Ha2 Hc2].
  assert (omap apply_of (a :: acts) = omap apply_of [a] ++ omap apply_of acts) as Happ
    by (change (a :: acts) with ([a] ++ acts); apply omap_app).
  split; rewrite ?Happ; try done.
  - exists (n1 ++ n2). rewrite Hr2, Hr1, (assoc _). split; [done|].
    unfold answered_by in *. rewrite Happ. intros c r [Hin|Hin]%elem_of_app.
    + destruct (Hn1 c r Hin) as [? [(i & cmd & Hi & Hp)|Hp]]; (split; [done|]); [left|by right].
      exists i, cmd. split; [|done]. apply elem_of_app. by left.
    + destruct (Hn2 c r Hin) as [? [(i & cmd & Hi & Hp)|(rid & Hp)]]; (split; [done|]).
      * left. exists i, cmd. split; [apply elem_of_app; by right|]. by apply Hp1.
      * right. exists rid. by eapply lookup_weaken.
  - rewrite Hh2, Hh1, <- (assoc _), fmap_app, filter_app. done.
  - intros i c Hi. destruct (Hp2 _ _ Hi) as [Hi1 Hn]. destruct (Hp1 _ _ Hi1) as [Hi0 Hn0].
    split; [done|]. rewrite fmap_app. set_solver.
  - by etrans.
  - congruence.
  - intros i Hi. rewrite Hc2 by congruence. by apply Hc1.
Qed.

Lemma handle_actions_acted acts d d' :
  core_wf (core d) -> handle_actions d acts = Done d' -> acted d acts d'.
Proof.
  revert d. induction acts as [|a acts IH]; intros d Hwf H; cbn in H.
  - injection H as <-. split; try done.
    + exists []. rewrite app_nil_r. split; [done|]. intros c r []%not_elem_of_nil.
    + by rewrite app_nil_r.
    + intros i c Hi. split; [done|apply not_elem_of_nil].
  - apply exec_bind_Done in H as (d1 & Ha & H). pose proof (handle_action_acted _ _ _ Hwf Ha) as H1.
    eapply acted_trans; [done|]. apply IH; [by destruct H1|done].
Qed.

(** ** The invariant of the loop *)

(** After the events [evs], a waiting proposal is above the applied index and
    the log holds its command. *)
Definition waits_for (s : RaftCore) (evs : list Event) (lo i : Z) (c : Channel) : Prop :=
  lo < i /\ exists cmd, EvProposal cmd c ∈ evs /\ command_at s i = Some cmd.

Record waits d (evs : list Event) : Prop := {
  wt_proposals : forall i c, pending_proposals d !! i = Some c ->
    waits_for (core d) evs (last_applied (core d)) i c;
  wt_reads : forall i c, pending_reads d !! i = Some c -> EvRead c ∈ evs;
}.

(** The new successes between [d] and [d'] are those of reads, or of proposals
    whose command was handed over in between. *)
Definition answers d d' (evs : list Event) : Prop :=
  exists new cmds, replies d' = replies d ++ new /\ history d' = history d ++ cmds
    /\ forall c, (c, None) ∈ new ->
         EvRead c ∈ evs \/ exists cmd, EvProposal cmd c ∈ evs /\ (handed cmd -> cmd ∈ cmds).

Lemma waits_mono d evs ev : waits d evs -> waits d (evs ++ [ev]).
Proof.
  intros [Hp Hr]. split.
  - intros i c (Hlo & cmd & Hin & Hc)%Hp. split; [done|]. exists cmd. set_solver.
  - intros i c Hi%Hr. set_solver.
Qed.

(** The core has run; [lo] was its applied index before. *)
Lemma actions_answer d acts d' evs lo :
  core_wf (core d) ->
  (forall i c, pending_proposals d !! i = Some c -> waits_for (core d) evs lo i c
     /\ last_included_index (core d) <= lo
     /\ omap apply_of acts = commands (core d) lo (last_applied (core d))) ->
  (forall i c, pending_reads d !! i = Some c -> EvRead c ∈ evs) ->
  handle_actions d acts = Done d' -> waits d' evs /\ answers d d' evs.
Proof.
  intros Hwf Hp Hr H.
  destruct (handle_actions_acted _ _ _ Hwf H) as [(new & Hn & Hans) Hh Hp' Hq' _ Ha' Hc'].
  split; [split|].
  - intros i c Hi. destruct (Hp' i c Hi) as [Hi0 Hnot].
    destruct (Hp i c Hi0) as ((Hlt & cmd & Hin & Hcmd) & Hlo & Happ).
    assert (last_applied (core d) < i) as Hi'.
    { destruct (Z.lt_ge_cases (last_applied (core d)) i) as [?|Hge]; [done|]. destruct Hnot.
      apply list_elem_of_fmap. exists (i, cmd). split; [done|]. rewrite Happ. by apply commands_elem. }
    split; [congruence|]. exists cmd. split; [done|]. by rewrite Hc'.
  - intros i c Hi. eapply Hr, lookup_weaken; [exact Hi|done].
  - exists new, (filter handed (omap apply_of acts).*2). split_and!; [done..|].
    intros c Hc. destruct (Hans c None Hc) as [_ [(i & cmd & Hi & Hpi)|(rid & Hrid)]]; [|by left; eapply Hr].
    right. destruct (Hp i c Hpi) as ((Hlt & cmd' & Hin & Hcmd) & Hlo & Happ).
    exists cmd'. split; [done|]. intros Hne. apply list_elem_of_filter. split; [done|].
    apply list_elem_of_fmap. exists (i, cmd). split; [|done]. cbn.
    rewrite Happ in Hi. apply commands_elem in Hi as [_ Hi]; congruence.
Qed.

(** A turn on an input of the core that leaves a leader in place. *)
Lemma input_answers g d i s acts d' evs :
  driver_ok d -> waits d evs -> input_ok (core d) i -> core_input g (core d) i = Done (s, acts) ->
  (state (core d) = Leader -> state s = Leader /\ log_extends (core d) s) ->
  handle_actions (d <| core := s |>) acts = Done d' -> waits d' evs /\ answers d d' evs.
Proof.
  intros Hok [Hp Hr] Hin Hi Hst H. pose proof Hok as [Hwf Hw _ _].
  pose proof (core_input_wf g (core d) i Hwf Hin) as Hwf'. rewrite Hi in Hwf'. cbn in Hwf'.
  change (answers d d' evs) with (answers (d <| core := s |>) d' evs).
  apply (actions_answer _ acts d' evs (last_applied (core d))); [done| |done|done].
  cbn. intros j c Hj. destruct (decide (state (core d) = Leader)) as [Hl|Hn].
  - destruct (Hst Hl) as [Hl' Hext]. destruct (Hp j c Hj) as (Hlt & cmd & Hcin & Hcmd). split_and!.
    + split; [done|]. exists cmd. split; [done|]. by eapply command_at_extends.
    + destruct Hext as [-> _]. pose proof (wf_commit _ Hwf). pose proof (wf_applied _ Hwf). lia.
    + by eapply leader_applies.
  - destruct (Hw Hn) as [He _]. by rewrite He in Hj.
Qed.

Lemma answers_none d d' evs :
  history d' = history d -> (exists c e, replies d' = replies d ++ [(c, Some e)]) \/ replies d' = replies d ->
  answers d d' evs.
Proof.
  intros Hh [(c & e & Hr)|Hr]; [exists [(c, Some e)], []|exists [], []];
    rewrite Hr, ?app_nil_r; (split_and!; [done..|]).
  - intros c' Hin%list_elem_of_singleton. discriminate Hin.
  - intros c' []%not_elem_of_nil.
Qed.

Lemma on_tick_answers g d d' evs :
  driver_ok d -> waits d evs -> on_tick g d = Done d' -> waits d' evs /\ answers d d' evs.
Proof.
  intros Hok Hw H. unfold on_tick in H. apply exec_bind_Done in H as ([s acts] & Ht & H).
  destruct (tick_leader _ _ _ _ Ht) as [[_ Hext] Hst].
  eapply (input_answers g d InTick); eauto. done.
Qed.

Lemma on_proposal_answers d cmd c d' evs :
  driver_ok d -> waits d evs -> room (core d) 1 -> EvProposal cmd c ∈ evs ->
  on_proposal d cmd c = Done d' -> waits d' evs /\ answers d d' evs.
Proof.
  intros Hok [Hp Hr] Hroom Hev H. pose proof Hok as [Hwf _ Hle _]. unfold on_proposal in H.
  apply exec_bind_Done in H as ([s o] & Hpr & H).
  pose proof (propose_wf (core d) cmd Hwf Hroom) as Hwf'. rewrite Hpr in Hwf'. cbn in Hwf'.
  destruct (propose_Done _ _ _ _ Hpr) as [(_ & -> & ->)|(Hl & Hs & es & aps & Haps & _ & ->)].
  { injection H as <-. split; [by split|]. apply answers_none; [done|]. left. by eexists _, _. }
  cbn [first_persisted] in H.
  assert (last_applied s = last_applied (core d) /\ last_included_index s = last_included_index (core d)
    /\ log s = log (core d) ++ [mkLogEntry (current_term (core d)) cmd]) as (Hla & Hli & Hlog) by by rewrite Hs.
  pose proof (wf_commit _ Hwf) as [Hc1 Hc2]. pose proof (wf_applied _ Hwf).
  assert (omap apply_of (PersistLogEntries (last_log_index s) es :: aps)
          = commands s (last_applied (core d)) (last_applied s)) as Happ.
  { rewrite Hla, commands_none. cbn.
    by apply transient_applies, append_actions_transient, (append_entries_shape s). }
  set (d1 := d <| core := s |> <| pending_proposals := _ |>) in H.
  change (answers d d' evs) with (answers d1 d' evs).
  apply (actions_answer d1 _ d' evs (last_applied (core d))) in H; [done|done| |done].
  cbn. intros i ch Hi. split; [|split; [lia|done]].
  apply lookup_insert_Some in Hi as [[<- <-]|[_ Hi]].
  - rewrite last_log_index_eq, Hlog by apply Hwf'. rewrite len_app. split; [unfold len in *; cbn; lia|].
    exists cmd. split; [done|]. unfold command_at. rewrite Hli, Hlog.
    replace (Z.to_nat _) with (length (log (core d))) by (unfold len; cbn; lia).
    by rewrite lookup_app_r, Nat.sub_diag by done.
  - destruct (Hp i ch Hi) as (Hlt & cmd' & Hin & Hcmd). split; [done|]. exists cmd'. split; [done|].
    eapply command_at_extends; [|exact Hcmd]. split; [done|]. rewrite Hlog. by apply prefix_app_r.
Qed.

Lemma on_read_answers d c d' evs :
  waits d evs -> EvRead c ∈ evs -> on_read d c = Done d' -> waits d' evs /\ answers d d' evs.
Proof.
  intros [Hp Hr] Hev H. unfold on_read, request_read_barrier in H. case_bool_decide; injection H as <-.
  - split; [by split|]. apply answers_none; [done|]. left. by eexists _, _.
  - split; [split; cbn; [done|]|apply answers_none; auto].
    intros i ch [[_ <-]|[_ Hi]]%lookup_insert_Some; [done|by eapply Hr].
Qed.

Lemma on_message_answers g d msg d' evs :
  driver_ok d -> waits d evs -> input_ok (core d) (InMessage msg) -> on_message g d msg = Done d' ->
  waits d' evs /\ (is_leader (core d') = true -> answers d d' evs).
Proof.
  intros Hok Hw Hin H. pose proof Hok as [Hwf _ _ _]. unfold on_message in H.
  apply exec_bind_Done in H as (d1 & H1 & H). unfold driver_message in H1.
  apply exec_bind_Done in H1 as ([s acts] & Hm & H1).
  pose proof (core_input_wf g (core d) (InMessage msg) Hwf Hin) as Hwf'.
  cbn [core_input] in Hwf'. rewrite Hm in Hwf'. cbn in Hwf'.
  pose proof (handle_actions_state (d <| core := s |>) _ _ Hwf' H1) as Hs1. cbn in Hs1.
  destruct (is_leader (core d) && negb (is_leader (core d1))) eqn:Hlost; injection H as <-.
  - apply andb_prop in Hlost as [_ Hn%negb_true_iff]. split; [split|].
    + by intros i c Hi.
    + by intros i c Hi.
    + cbn. intros Hl. unfold is_leader in *. congruence.
  - pose proof (message_leader _ _ _ _ _ Hin Hm) as [_ Hext].
    assert (state (core d) = Leader -> state s = Leader) as Hst.
    { intros Hl. unfold is_leader in Hlost. rewrite Hl, Hs1 in Hlost.
      by destruct (state s). }
    destruct (input_answers g d (InMessage msg) s acts d1 evs Hok Hw Hin Hm) as [H2 H3]; auto.
Qed.

Lemma turn_answers g d ev d' evs :
  driver_ok d -> waits d evs -> event_ok d ev -> event_loop_turn g d ev = Done d' ->
  waits d' (evs ++ [ev]) /\ (is_leader (core d') = true -> answers d d' (evs ++ [ev])).
Proof.
  intros Hok Hw%(waits_mono _ _ ev) Hev H.
  assert (ev ∈ evs ++ [ev]) as Hin by set_solver.
  destruct ev as [|cmd c|c|]; cbn in H, Hev.
  - by destruct (on_tick_answers _ _ _ _ Hok Hw H).
  - by destruct (on_proposal_answers _ _ _ _ _ Hok Hw Hev Hin H).
  - by destruct (on_read_answers _ _ _ _ Hw Hin H).
  - destruct (recv (transport d)) as [[msg t]|] eqn:Hr.
    + destruct (on_message_answers g (d <| transport := t |>) msg d' (evs ++ [EvRecv])) as [H1 H2];
        [by destruct Hok|by destruct Hw|by eapply Hev|done|]. by split.
    + injection H as <-. split; [done|]. intros _. apply answers_none; auto.
Qed.

Lemma event_loop_waits events d d' evs :
  driver_ok d -> waits d evs -> events_ok d events -> event_loop d events = Done d' ->
  driver_ok d' /\ waits d' (evs ++ events.*2).
Proof.
  revert d evs. induction events as [|[g ev] events IH]; intros d evs Hok Hw Hev H; cbn in H.
  - injection H as <-. cbn. by rewrite app_nil_r.
  - destruct Hev as [Hev Hrest]. destruct (event_loop_turn g d ev) as [d1|] eqn:Ht; [|done]. cbn in H.
    destruct (event_loop_turn_ok _ _ _ _ Hok Hev Ht) as [Hok1 _].
    destruct (turn_answers _ _ _ _ _ Hok Hw Hev Ht) as [Hw1 _].
    destruct (IH d1 (evs ++ [ev]) Hok1 Hw1 Hrest H) as [? Hw']. by rewrite <- (assoc _) in Hw'.
Qed.

(** The proposal that a turn acknowledges was handed over. *)
Lemma success_handed d g ev d' evs client cmd :
  driver_ok d -> waits d evs -> event_ok d ev -> event_loop_turn g d ev = Done d' ->
  is_leader (core d') = true -> NoDup ((evs ++ [ev]) ≫= new_clients) ->
  EvProposal cmd client ∈ evs ++ [ev] -> cmd <> [] ->
  (client, None) ∈ replies d' -> (client, None) ∉ replies d ->
  exists cmds, history d' = history d ++ cmds /\ cmd ∈ cmds.
Proof.
  intros Hok Hw Hev Hturn Hl Hnd Hask Hne Hin Hnot.
  destruct (turn_answers _ _ _ _ _ Hok Hw Hev Hturn) as [_ (new & cmds & Hr & Hh & Hans)]; [done|].
  exists cmds. split; [done|]. rewrite Hr in Hin. apply elem_of_app in Hin as [?|Hin]; [done|].
  destruct (Hans client Hin) as [Hread|(cmd' & Hprop & Hcmds)].
  - by assert (EvProposal cmd client = EvRead client) by (by eapply (bind_NoDup_unique new_clients _ client);
      [|done|done|..]; [done|constructor..]).
  - assert (EvProposal cmd client = EvProposal cmd' client) as [= ->]
      by (by eapply (bind_NoDup_unique new_clients _ client); [|done|done|..]; [done|constructor..]).
    by apply Hcmds.
Qed.

Lemma events_ok_last d events d1 g ev :
  events_ok d (events ++ [(g, ev)]) -> event_loop d events = Done d1 ->
  events_ok d events /\ event_ok d1 ev.
Proof.
  revert d. induction events as [|[g' e] events IH]; intros d; cbn.
  - intros [? _] [= <-]. done.
  - intros [He Hrest] H. destruct (event_loop_turn g' d e) as [d2|]; [|done].
    destruct (IH d2 Hrest H). done.
Qed.

(** ** Theorem *)

(** What a success means.  In any run of the event loop from a freshly
    booted driver, with every client asking once: a proposal that is answered
    with success in a turn after which the node leads had exactly its own
    command handed to the application in that turn. *)
Theorem success_means_applied g config a d0 events d g' ev d' client cmd :
  driver_new g config (a, []) = Done d0 -> core_wf (core d0) ->
  events_ok d0 (events ++ [(g', ev)]) ->
  NoDup ((events.*2 ++ [ev]) ≫= new_clients) ->
  event_loop d0 events = Done d -> event_loop_turn g' d ev = Done d' ->
  is_leader (core d') = true ->
  EvProposal cmd client ∈ events.*2 ++ [ev] -> cmd <> [] ->
  (client, None) ∈ replies d' -> (client, None) ∉ replies d ->
  exists cmds, history d' = history d ++ cmds /\ cmd ∈ cmds.
Proof.
  intros Hn Hwf Hev Hnd Hrun Hturn Hl Hask Hne Hin Hnot.
  destruct (events_ok_last _ _ _ _ _ Hev Hrun) as [Hevs Hlast].
  assert (driver_ok d0 /\ waits d0 []) as [Hok0 Hw0] by (unfold driver_new in Hn; exec_inv; by split; split).
  destruct (event_loop_waits _ _ _ _ Hok0 Hw0 Hevs Hrun) as [Hok Hw].
  by eapply success_handed.
Qed.
End replies.
