(* ===== verification/EventLoopDurable.v ===== *)
(** The driver's storage against the core: after any prefix of the actions of
    a turn, a reboot finds exactly the durable state those actions describe. *)

From S2P Require Import Prelude Types RaftCore CoreLog CoreFrame CoreReplication CoreElection.
From S2P Require Import CoreInvariant CoreCommit CoreTotal ReplicationSafety CoreEffects.
From S2P Require Import CoreLeader Codec Storage EventLoop EventLoopFrame.

(** What is stored describes the durable state [dur]. *)
Definition view_durable (v : View) (dur : Durable) : Prop :=
  (fun m => (pm_term m, pm_voted_for m)) <$> v_metadata v = Some (du_meta dur)
  /\ v_log v = number ((du_base dur).1 + 1) (du_log dur)
  /\ default (0, 0) ((fun sn => (sn_last_included_index sn, sn_last_included_term sn)) <$> v_snapshot v)
     = du_base dur.

(** The log of [dur] and what may still be written fit the index space. *)
Definition durable_fits (dur : Durable) (acts : list Action) : Prop :=
  0 <= (du_base dur).1 /\ (du_base dur).1 + len (du_log dur) + 2 < U64
  /\ forall start entries, PersistLogEntries start entries ∈ acts -> start + len entries + 1 < U64.

Lemma number_write base l start entries :
  0 <= base -> base + len l + 2 < U64 -> base < start <= base + len l + 1 ->
  cut start (number (base + 1) l) ++ number start entries
  = number (base + 1) (write_entries base l start entries).
Proof.
  intros H0 H1 H2. unfold write_entries.
  assert (start = base + 1 + (start - base - 1)) as Hs by lia. rewrite Hs at 1.
  rewrite cut_number by (unfold is_u64; len_lia).
  rewrite number_app by (unfold is_u64; len_lia). f_equal. f_equal.
  rewrite len_take by lia. rewrite u64_add_small; len_lia.
Qed.

Section durable.
Context {T S A : Type} `{HT : Transport T} `{HS : Storage S} `{HL : !StorageLaws S} `{HA : Application A}.
Implicit Types d : RaftDriver T S A.

(** Actions the storage can serve while it holds snapshot [sn]. *)
Definition servable (sn : option Snapshot) (a : Action) : Prop :=
  match a with
  | PersistMetadata t v => storable_metadata (mkPersistedMetadata t v)
  | PersistLogEntries start entries => Forall storable entries
  | SendInstallSnapshot _ _ _ _ => is_Some sn
  | ActInstallSnapshot _ _ _ => False
  | _ => True
  end.

Definition is_command (a : Action) : bool :=
  match a with ApplyToStateMachine _ (_ :: _) => true | _ => false end.

Definition count_commands (acts : list Action) : Z := len (List.filter is_command acts).

(** The batch ends before the next snapshot is due. *)
Definition below_threshold d (acts : list Action) : Prop :=
  0 <= num_entries d /\ num_entries d + count_commands acts < snapshot_threshold d
  /\ snapshot_threshold d < U64.

Definition stored_as d (v : View) (dur : Durable) : Prop :=
  represents (storage d) v /\ view_durable v dur.

Lemma handle_action_durable d v dur a acts dur' :
  stored_as d v dur -> servable (v_snapshot v) a -> below_threshold d (a :: acts) ->
  durable_fits dur (a :: acts) -> exec_durable dur a = Some dur' ->
  exists d' v', handle_action d a = Done d' /\ stored_as d' v' dur'
    /\ v_snapshot v' = v_snapshot v /\ core d' = core d /\ below_threshold d' acts
    /\ durable_fits dur' acts.
Proof.
  intros [Hr (Hm & Hl & Hs)] Hsv Hb (Hf0 & Hf1 & Hf2) He.
  assert (below_threshold d acts) as Hb'.
  { destruct Hb as (? & Hc & ?). split_and!; try done. unfold count_commands in *. cbn in Hc.
    destruct (is_command a); len_lia. }
  assert (durable_fits dur acts) as Hfit by (split_and!; [done..|]; intros; apply Hf2; by right).
  destruct a as [p m|i cmd|t vt|st es|p t i it|i t data|rid]; cbn in He, Hsv |- *; try injection He as <-.
  - do 2 eexists. split; [reflexivity|]. split; [split; [exact Hr|]|]; done.
  - set (d1 := match pending_proposals d !! i with Some _ => _ | None => _ end).
    assert (storage d1 = storage d /\ core d1 = core d /\ num_entries d1 = num_entries d
      /\ snapshot_threshold d1 = snapshot_threshold d) as (E1 & E2 & E3 & E4)
      by (unfold d1; by destruct (_ !! _)).
    clearbody d1. unfold below_threshold, stored_as in *. destruct cmd as [|b bs].
    + exists d1, v. rewrite E1, E2, E3, E4. split_and!; try done; apply Hb'.
    + destruct Hb as (Hb0 & Hbc & Hb1). unfold count_commands in Hbc. cbn in Hbc. autorewrite with len in Hbc.
      cbn. rewrite E3, E4. rewrite u64_add_small by len_lia.
      destruct (Z.leb_spec (snapshot_threshold d) (num_entries d + 1)); [len_lia|].
      do 2 eexists. split; [reflexivity|]. cbn. rewrite E1, E2, E4.
      unfold count_commands. split_and!; try done; [len_lia..].
  - destruct (law_store_metadata _ v (mkPersistedMetadata t vt) Hr Hsv) as (s' & -> & Hr').
    do 2 eexists. split; [reflexivity|]. split; [split; [exact Hr'|]|]; done.
  - destruct (Z.ltb_spec (du_base dur).1 st); [|done].
    destruct (Z.leb_spec st ((du_base dur).1 + len (du_log dur) + 1)); [|done]. injection He as <-.
    specialize (Hf2 st es ltac:(by left)).
    destruct (law_store_log_entries _ v st es Hr ltac:(unfold is_u64; len_lia) Hsv) as (s' & -> & Hr').
    do 2 eexists. split; [reflexivity|]. split; [split; [exact Hr'|]|].
    + split_and!; [done| |done]. cbn. by rewrite Hl, number_write by lia.
    + split_and!; try done. split_and!; [done| |apply Hfit]. cbn. unfold write_entries.
      rewrite len_app, len_take by lia. lia.
  - destruct Hsv as [sn Hsn]. rewrite (law_retrieve_snapshot_bytes _ _ _ Hr Hsn). cbn.
    do 2 eexists. split; [reflexivity|]. split; [split; [exact Hr|]|]; done.
  - done.
  - destruct (pending_reads d !! rid); (do 2 eexists; split; [reflexivity|]);
      (split; [split; [exact Hr|]|]; done).
Qed.

Lemma handle_actions_durable acts : forall d v dur dur',
  stored_as d v dur -> Forall (servable (v_snapshot v)) acts -> below_threshold d acts ->
  durable_fits dur acts -> exec_durables dur acts = Some dur' ->
  exists d' v', handle_actions d acts = Done d' /\ stored_as d' v' dur' /\ core d' = core d
    /\ v_snapshot v' = v_snapshot v.
Proof.
  induction acts as [|a acts IH]; intros d v dur dur' Hst Hsv Hb Hf He.
  - injection He as <-. by exists d, v.
  - apply Forall_cons in Hsv as [Ha Hsv]. cbn in He.
    destruct (exec_durable dur a) as [dur1|] eqn:He1; [|done]. cbn in He.
    destruct (handle_action_durable _ _ _ _ _ _ Hst Ha Hb Hf He1)
      as (d1 & v1 & H1 & Hst1 & Hsn & Hc & Hb1 & Hf1).
    rewrite <- Hsn in Hsv. destruct (IH _ _ _ _ Hst1 Hsv Hb1 Hf1 He) as (d2 & v2 & H2 & Hst2 & Hc2 & Hsn2).
    exists d2, v2. cbn. rewrite H1. cbn. split_and!; try done; congruence.
Qed.

(** A prefix of meaningful actions is meaningful. *)
Lemma exec_durables_prefix dur pre acts dur' :
  pre `prefix_of` acts -> exec_durables dur acts = Some dur' ->
  exists dur1, exec_durables dur pre = Some dur1.
Proof.
  intros [k ->] H. rewrite exec_durables_app in H. destruct (exec_durables dur pre); [by eexists|done].
Qed.

(** ** Reboot *)

(** The same configuration on another storage. *)
Definition on_storage (config : RaftConfig T S) (s : S) : RaftConfig T S :=
  mkRaftConfig T S (rc_id config) (rc_nodes config) (rc_heartbeat_interval config)
    (rc_election_range config) (rc_snapshot_threshold config) (rc_transport config) s.

Lemma reboot_restores g config a v dur :
  represents (rc_storage config) v -> view_durable v dur ->
  (v_log v <> [] \/ v_snapshot v = None) ->
  (rc_election_range config).1 < (rc_election_range config).2 ->
  exists d, driver_new g config a = Done d /\ durable_of (core d) = dur
    /\ state (core d) = Follower /\ commit_index (core d) = (du_base dur).1
    /\ last_applied (core d) = (du_base dur).1.
Proof.
  intros Hr (Hm & Hl & Hs) Hsome Hrange. unfold driver_new.
  rewrite (law_restore_snapshot _ _ Hr), (law_restore_metadata _ _ Hr).
  destruct (law_restore_log_entries _ _ Hr) as (o & -> & Ho & Hos). cbn [expect mbind exec_bind].
  rewrite Hm, Hl, number_snd in *. destruct dur as [[t vt] base l]. cbn [du_meta du_base du_log fst] in *.
  unfold boot_core. destruct (v_snapshot v) as [sn|]; cbn [fmap option_fmap option_map] in *.
  - destruct Hsome as [Hne|]; [|done]. destruct (Hos Hne) as [es ->]. cbn in Ho, Hs |- *. subst l base.
    unfold restore_with_snapshot, restore, new, random_range.
    destruct (Z.ltb_spec (rc_election_range config).1 (rc_election_range config).2); [|lia].
    cbn. eexists. split; [reflexivity|]. done.
  - cbn in Hs. subst base. unfold restore, new, random_range.
    destruct (Z.ltb_spec (rc_election_range config).1 (rc_election_range config).2); [|lia].
    cbn. eexists. split; [reflexivity|]. split_and!; [|done..].
    unfold durable_of. cbn. by rewrite Ho.
Qed.

(** ** Theorem *)

(** C13: crash recovery. A node handles an input within the contract that is
    not the driver's own snapshot, whose actions install no snapshot, stay
    below the snapshot threshold and can be written by the storage; the
    process dies after any number of these actions (not inside one). Those
    actions were all executed without an error, and describe a durable state
    which after all of them is that of the core in memory; where no snapshot
    is stored, or entries lie above it, the driver booted on what they left
    holds exactly that term, vote, snapshot index and log. *)
Theorem crash_recovery g g' d v i c acts pre config a :
  stored_as d v (durable_of (core d)) -> core_wf (core d) -> input_ok (core d) i ->
  is_snapshot_input i = false -> core_input g (core d) i = Done (c, acts) ->
  Forall (servable (v_snapshot v)) acts -> below_threshold d acts -> durable_fits (durable_of (core d)) acts ->
  pre `prefix_of` acts -> (rc_election_range config).1 < (rc_election_range config).2 ->
  exists d0 dur, handle_actions (d <| core := c |>) pre = Done d0
    /\ exec_durables (durable_of (core d)) pre = Some dur
    /\ (pre = acts -> dur = durable_of c)
    /\ (v_snapshot v = None \/ du_log dur <> [] ->
        exists d1, driver_new g' (on_storage config (storage d0)) a = Done d1
          /\ durable_of (core d1) = dur).
Proof.
  intros Hst Hwf Hok Hi Hc Hsv Hb Hf Hpre Hrange.
  pose proof (core_input_durable _ _ _ _ _ Hwf Hok Hi Hc) as He.
  destruct (exec_durables_prefix _ _ _ _ Hpre He) as (dur & Hdur). pose proof Hpre as [k Hk].
  assert (stored_as (d <| core := c |>) v (durable_of (core d))) as Hst' by exact Hst.
  assert (Forall (servable (v_snapshot v)) pre) as Hsv'
    by (rewrite Hk in Hsv; by apply Forall_app in Hsv as [? _]).
  assert (below_threshold (d <| core := c |>) pre) as Hb'.
  { destruct Hb as (? & Hb & ?). split_and!; try done. cbn. rewrite Hk in Hb. unfold count_commands in *.
    rewrite List.filter_app in Hb. len_lia. }
  assert (durable_fits (durable_of (core d)) pre) as Hf'.
  { destruct Hf as (? & ? & Hf). split_and!; try done. intros st es Hin. apply Hf. rewrite Hk.
    apply elem_of_app. by left. }
  destruct (handle_actions_durable pre _ _ _ _ Hst' Hsv' Hb' Hf' Hdur)
    as (d0 & v0 & H0 & [Hr0 Hv0] & _ & Hsn0).
  exists d0, dur. split_and!; try done; [unfold durable_step in He; congruence|]. intros Hboot.
  destruct (reboot_restores g' (on_storage config (storage d0)) a v0 dur) as (d1 & H1 & Hd1 & _);
    [done..| |done|by exists d1].
  rewrite Hsn0. destruct Hboot as [|Hne]; [by right|left].
  destruct Hv0 as (_ & -> & _). by destruct (du_log dur).
Qed.
End durable.
