(* ===== verification/Limits.v ===== *)
(** What lies outside the conditions of the theorems on clusters and services,
    on any node: rejections that name no conflict, a crash inside the write of
    log entries, and snapshots. *)

From S2P Require Import Prelude Types RaftCore CoreLog CoreFrame CoreReplication CoreElection.
From S2P Require Import CoreInvariant CoreCommit CoreTotal CoreHandlers ReplicationSafety CoreEffects.
From S2P Require Import Codec Storage FileStorage FileStorageSpec StorageTheorems.
From S2P Require Import EventLoop EventLoopFrame EventLoopDurable.
#[local] Open Scope Z_scope.

(** ** Rejections that name no conflict *)

(** The append that answers them: from the start of the log, without entries. *)
Definition blank_append (s : RaftCore) (t : Z) : AppendEntriesRPC :=
  mkAppendEntriesRPC (Z.max (current_term s) t) (id s) 0 (last_included_term s) [] (commit_index s).

Lemma hintless_rejection_answer g s resp :
  core_wf s -> last_included_index s = 0 -> is_Some (next_index s !! aer_id resp) ->
  aer_success resp = false -> aer_first_conflicting_index resp = None ->
  exists s', handle_append_entries_response g s resp
      = Done (s', step_down_write s (aer_term resp)
                  ++ [SendMessage (aer_id resp) (AppendEntries (blank_append s (aer_term resp)))])
    /\ state s' = (if current_term s <? aer_term resp then Follower else state s).
Proof.
  intros Hwf Hlii [x Hx] Hf Hh. unfold handle_append_entries_response.
  destruct (check_msg_term g s (aer_term resp)) as [[s1 o]|] eqn:Hc.
  2: { by destruct (check_spec g s (aer_term resp) Hwf) as (? & ? & ? & _); congruence. }
  destruct (check_spec g s (aer_term resp) Hwf) as (s1' & o' & Hc' & _ & Hsd & Ho & Ht & Hid & _ & Hst).
  rewrite Hc in Hc'. injection Hc' as <- <-. cbn [mbind exec_bind]. rewrite Hf, Hh.
  destruct (sd_log _ _ Hsd) as (_ & Hl1 & Hl2). pose proof (sd_commit _ _ Hsd) as Hcm.
  assert (next_index s1 !! aer_id resp = Some x) as Hx1.
  { apply check_msg_term_Done in Hc as [(_ & -> & _)|(_ & _ & to & ->)]; done. }
  assert (last_included_index s1 = 0) as Hl0 by congruence.
  unfold build_append_entries_for_peer, log_term_at, log_slice. cbn.
  rewrite lookup_alter_eq, Hx1. cbn. rewrite Hl0. cbn. rewrite Ho, Ht, Hid.
  rewrite Hcm, <- Hl2. eexists. split; [reflexivity|exact Hst].
Qed.

(** Any peer that is not past the sender's term takes it, and commits its own
    log, whatever it holds, as far as the sender has committed. *)
Lemma blank_append_commits g s t f :
  core_wf f -> last_included_index f = 0 ->
  is_u64 (commit_index s) -> room f 0 ->
  current_term f < Z.max (current_term s) t \/ (Z.max (current_term s) t = current_term f /\ state f <> Leader) ->
  exists f' acts, handle_append_entries g f (blank_append s t) = Done (f', acts) /\ log f' = log f
    /\ commit_index f' = Z.max (commit_index f) (Z.min (commit_index s) (len (log f))).
Proof.
  intros Hwf Hi Hc Hroom Hterm.
  assert (accepts f (blank_append s t)) as Hacc.
  { by split. }
  destruct (append_entries_accepted g f (blank_append s t) Hwf) as (f' & Hwf' & _ & Hl & Hlii & _ & _ & _ & _ & _ & Hci & Heq).
  - split_and!; cbn; [lia|change U64 with 18446744073709551616; change (len []) with 0; lia|done|done|].
    intros _. split; [lia|]. by intros j e ?.
  - done.
  - exists f'. eexists. split; [exact Heq|]. assert (log f' = log f) as Hlog.
    { rewrite Hl. unfold merged_log. cbn. destruct (drop _ _) eqn:Hd; cbn; rewrite <- Hd; apply take_drop. }
    split; [done|]. rewrite Hci. cbn. rewrite last_log_index_eq by apply Hwf'. rewrite Hlii, Hi, Hlog. f_equal.
Qed.

(** A rejection that names no conflict lets the peer commit what it holds.  Any
    node without a snapshot, leader or not, answers such a rejection with an
    append from the start of the log without entries; if the rejection is of a
    newer term, the node steps down first and sends the append under that term,
    which it does not lead.  Any peer that is not past that term and does not
    lead it accepts the append and commits its own entries, whatever they are,
    up to the sender's commit index. *)
Lemma hintless_rejection_commits g g' s resp f :
  core_wf s -> last_included_index s = 0 -> is_Some (next_index s !! aer_id resp) ->
  aer_success resp = false -> aer_first_conflicting_index resp = None ->
  core_wf f -> last_included_index f = 0 -> is_u64 (commit_index s) -> room f 0 ->
  let blank := blank_append s (aer_term resp) in
  current_term f < ae_term blank \/ (ae_term blank = current_term f /\ state f <> Leader) ->
  exists s' f' acts, handle_append_entries_response g s resp
      = Done (s', step_down_write s (aer_term resp) ++ [SendMessage (aer_id resp) (AppendEntries blank)])
    /\ (current_term s < aer_term resp -> state s' = Follower)
    /\ handle_append_entries g' f blank = Done (f', acts) /\ log f' = log f
    /\ commit_index f' = Z.max (commit_index f) (Z.min (commit_index s) (len (log f))).
Proof.
  intros Hwf Hi Hn Hs Hh Hwf' Hi' Hc Hroom blank Ht.
  destruct (hintless_rejection_answer g s resp Hwf Hi Hn Hs Hh) as (s' & Heq & Hst).
  destruct (blank_append_commits g' s (aer_term resp) f Hwf' Hi' Hc Hroom Ht) as (f' & acts & Hf & Hl & Hci).
  exists s', f', acts. split_and!; try done. intros Hlt. rewrite Hst. by destruct (Z.ltb_spec (current_term s) (aer_term resp)); [|lia].
Qed.

(** ** A crash inside the write of entries *)
Section interrupted.
Context `{Postcard PersistedMetadata} `{!Postcard_ok PersistedMetadata}.
Context `{Postcard LogEntry} `{!Postcard_ok LogEntry}.
Context `{Postcard Snapshot} `{!Postcard_ok Snapshot}.
Context (spilled : bytes -> nat).

(** The process dies when the log file is cut and nothing is written yet. *)
Lemma cut_file fs v start entries :
  file_represents fs v -> is_u64 start -> Forall frame_fits entries ->
  exists fs', fs_crash fs (file_store_log_entries spilled fs (mkPersistedLogAddendum start entries)).1 fs'
    /\ file_restore_log_entries fs' = Ok (Some (cut start (v_log v)).*2).
Proof.
  intros Hr Hs Hall.
  destruct (store_log_run spilled fs v start entries Hr Hs Hall)
    as (d1 & d2 & junk & out & Hd & _ & He1 & _ & _ & ->).
  exists (<[LOG := d1]> fs). split.
  - replace (<[LOG := d1]> fs) with (fs_exec (fs_exec fs (OpenCreate LOG)) (SetLen LOG (length d1))).
    + cbn [fst]. apply crash_after, crash_after, crash_before.
    + cbn. rewrite alter_insert_eq, Hd. by rewrite take_app_length.
  - unfold file_restore_log_entries. rewrite lookup_insert_eq.
    pose proof (read_entries_encoded _ d1 [] (S (length d1)) He1 torn_nil) as Hread.
    rewrite app_nil_r in Hread. by rewrite Hread by lia.
Qed.

(** C38: a crash while entries are written loses entries that were stored. A
    well-formed node, on files that hold its log, accepts an append within the
    contract with entries that a file can hold. The write starts right after
    [prev_log_index], also where the log already holds those entries; if the
    process dies after the file is cut and before it is written, what is
    restored ends at [prev_log_index], whatever the node has acknowledged
    above it. *)
Theorem interrupted_write_loses g fs m sn s req s' acts :
  core_wf s -> append_ok s req -> accepts s req -> ae_entries req <> [] ->
  Forall frame_fits (merged_log s req) ->
  file_represents fs (mkView m (number (last_included_index s + 1) (log s)) sn) ->
  handle_append_entries g s req = Done (s', acts) ->
  let start := ae_prev_log_index req + 1 in
  exists pre entries post fs', acts = pre ++ PersistLogEntries start entries :: post
    /\ fs_crash fs (file_store_log_entries spilled fs (mkPersistedLogAddendum start entries)).1 fs'
    /\ file_restore_log_entries fs'
       = Ok (Some (take (Z.to_nat (ae_prev_log_index req - last_included_index s)) (log s))).
Proof.
  intros Hwf Hok Hacc Hne Hall Hr Hh start.
  destruct (append_entries_accepted g s req Hwf Hok Hacc) as (s1 & _ & _ & _ & _ & _ & _ & _ & _ & _ & _ & Heq).
  rewrite Hh in Heq. injection Heq as _ ->. destruct Hok as (Hprev & Hend & _ & _ & Ha).
  destruct (Ha Hacc) as [Hle _]. destruct Hacc as [_ Hval]. destruct (wf_fits _ Hwf) as [Hi Hfit].
  pose proof (prev_log_valid_range s req (wf_fits _ Hwf) ltac:(len_lia) Hval Hle) as Hin.
  assert (is_u64 start) as Hs by (unfold start, is_u64; len_lia).
  unfold merged_write. destruct (ae_entries req) as [|e es] eqn:He; [done|].
  set (entries := drop _ (merged_log s req)).
  destruct (cut_file fs _ start entries Hr Hs) as (fs' & Hcr & Hrest).
  { by apply Forall_drop. }
  eexists _, entries, _, fs'. split_and!; [reflexivity|done|].
  rewrite Hrest. cbn [v_log]. do 2 f_equal. unfold start.
  replace (ae_prev_log_index req + 1)
    with (last_included_index s + 1 + (ae_prev_log_index req - last_included_index s)) by lia.
  rewrite cut_number by (unfold is_u64; len_lia). apply number_snd.
Qed.
End interrupted.

(** ** Snapshots *)
Section snapshots.
Context {T S A : Type} `{HT : Transport T} `{HS : Storage S} `{HL : !StorageLaws S} `{HA : Application A}.
Implicit Types d : RaftDriver T S A.

(** The snapshot of a core counts everything it has applied. *)
Lemma core_snapshot (s : RaftCore) :
  core_wf s -> exists t c, log_term_at s (last_applied s) = Some t
    /\ prepare_snapshot s = Done (mkSnapshotMetadata (last_applied s) t)
    /\ complete_snapshot s (mkSnapshotMetadata (last_applied s) t) = Done c
    /\ log c = drop (Z.to_nat (last_applied s - last_included_index s)) (log s)
    /\ last_included_index c = last_applied s.
Proof.
  intros Hwf. destruct (wf_fits _ Hwf) as [Hi Hfit]. pose proof (wf_commit _ Hwf) as Hc.
  rewrite (wf_applied _ Hwf) in *. unfold prepare_snapshot, complete_snapshot. rewrite (wf_applied _ Hwf).
  assert (exists t, log_term_at s (commit_index s) = Some t) as [t Ht].
  { destruct (Z.eq_dec (commit_index s) (last_included_index s)) as [->|Hne];
      [rewrite log_term_at_snapshot; by eexists|].
    rewrite log_term_at_above by (apply Hwf || lia).
    destruct (lookup_lt_is_Some_2 (log s) (Z.to_nat (commit_index s - last_included_index s - 1))) as [e ->];
      [unfold len in *; lia|by eexists]. }
  exists t. rewrite Ht. cbn. destruct (Z.leb_spec (commit_index s) (last_included_index s)).
  - exists s. split_and!; try done; [|lia]. by replace (commit_index s - last_included_index s) with 0 by lia.
  - rewrite u64_sub_small by lia. unfold vec_drain_to. destruct (Z.leb_spec (commit_index s - last_included_index s) (len (log s))); [|lia].
    eexists. split_and!; done.
Qed.

(** A snapshot that falls due with the entry at [i]. *)
Lemma due_snapshot d v i cmd data :
  core_wf (core d) -> represents (storage d) v -> v_log v <> [] -> cmd <> [] ->
  snapshot_threshold d <= num_entries d +! 1 ->
  on_snapshot_request (on_command (app d) cmd) = Done data ->
  (forall t, log_term_at (core d) (last_applied (core d)) = Some t ->
     storable_snapshot (mkSnapshot (last_applied (core d)) t data)) ->
  exists d' t, handle_action d (ApplyToStateMachine i cmd) = Done d'
    /\ represents (storage d') (mkView (v_metadata v) [] (Some (mkSnapshot (last_applied (core d)) t data)))
    /\ log (core d') = drop (Z.to_nat (last_applied (core d) - last_included_index (core d))) (log (core d)).
Proof.
  intros Hwf Hr Hlog Hcmd Hth Hdata Hstor.
  destruct (core_snapshot (core d) Hwf) as (t & c & Ht & Hp & Hc & Hl & _).
  destruct (law_store_snapshot _ _ _ Hr (Hstor t Ht)) as (st1 & Hst1 & Hr1).
  destruct (law_truncate_log _ _ Hr1 Hlog) as (st2 & Hst2 & Hr2).
  destruct cmd as [|b bs]; [done|]. cbn [handle_action].
  set (d1 := match pending_proposals d !! i with Some _ => _ | None => _ end).
  assert (storage d1 = storage d /\ core d1 = core d /\ num_entries d1 = num_entries d
    /\ snapshot_threshold d1 = snapshot_threshold d /\ app d1 = app d) as (E1 & E2 & E3 & E4 & E5)
    by (unfold d1; by destruct (_ !! _)).
  clearbody d1. cbn. rewrite E3, E4. destruct (Z.leb_spec (snapshot_threshold d) (num_entries d +! 1)); [|lia].
  unfold driver_snapshot, stored. cbn. rewrite E5, Hdata. cbn. rewrite E2, Hp. cbn. rewrite E1, Hst1. cbn.
  rewrite E2, Hc. cbn. rewrite Hst2. cbn. by eexists _, t.
Qed.

(** A driver that boots beside a snapshot. *)
Lemma boot_beside_snapshot g config a d v sn :
  represents (rc_storage config) v -> v_snapshot v = Some sn -> driver_new g config a = Done d ->
  app d = a /\ last_applied (core d) = sn_last_included_index sn /\ log (core d) = (v_log v).*2.
Proof.
  intros Hr Hs H. unfold driver_new in H.
  rewrite (law_restore_snapshot _ _ Hr), (law_restore_metadata _ _ Hr), Hs in H.
  destruct (law_restore_log_entries _ _ Hr) as (o & Ho & Hd & _). rewrite Ho in H. cbn in H.
  destruct (v_metadata v) as [m|]; [|done]. cbn in H. destruct o as [es|]; [|done]. cbn in H, Hd.
  unfold restore_with_snapshot, restore, new, random_range in H. case_match; [|done]. cbn in H.
  injection H as <-. by split_and!.
Qed.

(** C40: what a snapshot that falls due in the middle of a batch leaves. A
    well-formed node, with entries in its stored log, applies the non-empty
    command at [i], with which the snapshot threshold is reached; the
    application answers the snapshot request and the storage can write the
    snapshot. (The core has moved its applied index to the end of the batch
    before the first entry of it is applied.) The snapshot that is stored
    carries the applied index of the core with the data of the application
    after [i], and the stored log is emptied while the core keeps the entries
    above the applied index. A driver that boots on that storage, with an
    application that starts as [a], counts everything up to that index as
    applied, has none of the entries above it, and leaves the application as
    it started. *)
Theorem snapshot_loses d v i cmd data :
  core_wf (core d) -> represents (storage d) v -> v_log v <> [] -> cmd <> [] ->
  snapshot_threshold d <= num_entries d +! 1 ->
  on_snapshot_request (on_command (app d) cmd) = Done data ->
  (forall t, log_term_at (core d) (last_applied (core d)) = Some t ->
     storable_snapshot (mkSnapshot (last_applied (core d)) t data)) ->
  exists d' t, handle_action d (ApplyToStateMachine i cmd) = Done d'
    /\ restore_snapshot (storage d') = Ok (Some (mkSnapshot (last_applied (core d)) t data))
    /\ log (core d') = drop (Z.to_nat (last_applied (core d) - last_included_index (core d))) (log (core d))
    /\ forall g config a d2, rc_storage config = storage d' -> driver_new g config a = Done d2 ->
         app d2 = a /\ last_applied (core d2) = last_applied (core d) /\ log (core d2) = [].
Proof.
  intros Hwf Hr Hlog Hcmd Hth Hdata Hstor.
  destruct (due_snapshot d v i cmd data Hwf Hr Hlog Hcmd Hth Hdata Hstor) as (d' & t & H1 & H2 & H3).
  exists d', t. split_and!; try done; [by rewrite (law_restore_snapshot _ _ H2)|].
  intros g config a d2 Hc Hb. rewrite <- Hc in H2. exact (boot_beside_snapshot g config a d2 _ _ H2 eq_refl Hb).
Qed.
End snapshots.

Section files.
Context {T A : Type} `{HT : Transport T} `{HA : Application A}.
Context `{Postcard PersistedMetadata} `{Postcard LogEntry} `{Postcard Snapshot}.
Context (spilled : bytes -> nat).
#[local] Instance limit_files : Storage Files := file_storage spilled.

(** A node without a log file cannot install a snapshot.  The message ends
    its event loop, since the file to be cleared is missing; and once the
    snapshot is written, every boot on those files fails too, whatever the
    configuration, the application and the random draws. *)
Lemma install_without_log (d : RaftDriver T Files A) index term data fs' :
  storage d !! LOG = None ->
  fs' = fs_run (storage d) (atomic_serialize SNAPSHOT (mkSnapshot index term data)).1 ->
  handle_action d (ActInstallSnapshot index term data) = Panic
  /\ (is_Some (to_allocvec (mkSnapshot index term data)) ->
      forall g (config : RaftConfig T Files) (a : A), rc_storage config = fs' -> driver_new g config a = Panic).
Proof.
  intros Hlog ->. split.
  - cbn. unfold stored, atomic_serialize. destruct (to_allocvec _) as [b|]; [|done]. cbn.
    rewrite !alter_insert_eq, lookup_insert_eq. destruct (on_snapshot (app d) data) as [a|]; [|done]. cbn.
    unfold file_truncate_log. rewrite lookup_insert_ne, lookup_delete_ne, lookup_insert_ne by done. by rewrite Hlog.
  - intros [b Hb] g config a Hc. unfold driver_new. rewrite Hc. unfold atomic_serialize. rewrite Hb.
    unfold fs_run. cbn. rewrite !alter_insert_eq, lookup_insert_eq.
    set (fs := <[SNAPSHOT := _]> _).
    assert (fs !! SNAPSHOT = Some b) as Hs by apply lookup_insert_eq.
    assert (fs !! LOG = None) as Hl
      by (unfold fs; by rewrite lookup_insert_ne, lookup_delete_ne, lookup_insert_ne).
    clearbody fs. unfold read_type, file_restore_log_entries. rewrite Hs, Hl.
    destruct (from_bytes b) as [sn|]; [|done]. cbn. destruct (fs !! METADATA) as [mb|]; [|done].
    by destruct (from_bytes mb).
Qed.
End files.
