(* ===== verification/Service.v ===== *)
(** A cluster of whole drivers: each with its storage, its transport and its
    application, over a network that loses, duplicates, delays and reorders
    messages, and with processes that die between any two actions and boot
    again from their storage. *)

From S2P Require Import Prelude Types RaftCore CoreLog CoreElection CoreInvariant CoreEffects.
From S2P Require Import Cluster Replicas Codec Storage EventLoop EventLoopFrame EventLoopDurable.

(** ** What a transport promises

    [inbox] are the messages that [recv] can still return, [outbox] those
    handed to [send] that may still leave; [local] is the node whose own queue
    the handle holds, if it can send to itself. *)
Class TransportLaws (T : Type) `{Transport T} := {
  inbox : T -> list Message;
  outbox : T -> list (NodeId * Message);
  local : T -> option NodeId;
  law_recv t m t' : recv t = Some (m, t') ->
    m ∈ inbox t /\ (forall x, x ∈ inbox t' -> x ∈ inbox t)
    /\ (forall x, x ∈ outbox t' -> x ∈ outbox t) /\ local t' = local t;
  law_send t p m :
    (forall x, x ∈ inbox (send t p m) -> x ∈ inbox t \/ (x = m /\ local t = Some p))
    /\ (forall x, x ∈ outbox (send t p m) -> x ∈ outbox t \/ x = (p, m))
    /\ local (send t p m) = local t;
}.

(** ** A turn, before and after its actions *)
Section turn.
Context {T S A : Type} `{HT : Transport T} `{HS : Storage S} `{HA : Application A}.
Implicit Types d : RaftDriver T S A.

(** The turn up to the loop over the actions. *)
Definition turn_start (g : Rng) d (ev : Event) : exec (RaftDriver T S A * list Action) :=
  match ev with
  | EvTick => '(c, actions) ← tick g (core d); Done (d <| core := c |>, actions)
  | EvProposal command client =>
      '(c, result) ← propose (core d) command;
      let d := d <| core := c |> in
      match result with
      | Some actions =>
          Done (match first_persisted actions with
                | Some index => d <| pending_proposals := <[index := client]> (pending_proposals d) |>
                | None => d
                end, actions)
      | None => Done (respond d client (Some (FollowerNode (current_leader c))), [])
      end
  | EvRead client => d ← on_read d client; Done (d, [])
  | EvRecv =>
      match recv (transport d) with
      | None => Done (d, [])
      | Some (msg, t) =>
          '(c, actions) ← handle_message g (core d) msg;
          Done (d <| transport := t |> <| core := c |>, actions)
      end
  end.

(** The rest of the turn: the clients of a node that lost the lead. *)
Definition turn_end d (ev : Event) (d' : RaftDriver T S A) : RaftDriver T S A :=
  match ev with
  | EvRecv =>
      if is_leader (core d) && negb (is_leader (core d')) then
        d' <| replies := replies d' ++ drain (pending_proposals d') ++ drain (pending_reads d') |>
           <| pending_proposals := ∅ |> <| pending_reads := ∅ |>
      else d'
  | _ => d'
  end.

Lemma turn_split g d ev :
  event_loop_turn g d ev =
  ('(d1, acts) ← turn_start g d ev; d2 ← handle_actions d1 acts; Done (turn_end d ev d2)).
Proof.
  destruct ev as [|cmd c|c|]; cbn.
  - unfold on_tick. destruct (tick g (core d)) as [[s acts]|]; [|done]. cbn.
    by destruct (handle_actions _ acts).
  - unfold on_proposal. destruct (propose (core d) cmd) as [[s [acts|]]|]; [|done..]. cbn.
    by destruct (handle_actions _ acts).
  - by destruct (on_read d c).
  - destruct (recv (transport d)) as [[msg t]|].
    + unfold on_message, driver_message. cbn. destruct (handle_message g (core d) msg) as [[s acts]|]; [|done].
      cbn. destruct (handle_actions _ acts) as [d2|]; [|done]. cbn. by destruct (_ && _).
    + cbn. by rewrite andb_negb_r.
Qed.

(** What the core is asked. *)
Definition event_input d (ev : Event) : option Input :=
  match ev with
  | EvTick => Some InTick
  | EvProposal command _ => Some (InPropose command)
  | EvRead _ => Some InRead
  | EvRecv => (fun mt => InMessage mt.1) <$> recv (transport d)
  end.

(** A turn runs one input of the core, or has nothing to receive; before the
    actions only the clients and the transport can have changed besides. *)
Lemma turn_start_Done g d ev d1 acts :
  turn_start g d ev = Done (d1, acts) ->
  match event_input d ev with
  | Some i => core_input g (core d) i = Done (core d1, acts)
  | None => d1 = d /\ acts = []
  end
  /\ storage d1 = storage d /\ app d1 = app d /\ num_entries d1 = num_entries d
  /\ snapshot_threshold d1 = snapshot_threshold d /\ node_id d1 = node_id d
  /\ (transport d1 = transport d \/ exists m, recv (transport d) = Some (m, transport d1)).
Proof.
  intros H. destruct ev as [|cmd c|c|]; cbn in H |- *.
  - exec_inv. rewrite Hx. cbn. auto 10.
  - apply exec_bind_Done in H as ([s o] & -> & H). destruct o as [acts'|]; injection H as <- <-; cbn.
    + case_match; cbn; auto 10.
    + auto 10.
  - apply exec_bind_Done in H as (d2 & H2 & H). injection H as <- <-. unfold on_read in H2.
    destruct (request_read_barrier (core d)) as [s [i|]]; injection H2 as <-; cbn; auto 10.
  - destruct (recv (transport d)) as [[msg t]|] eqn:Hr; cbn.
    + apply exec_bind_Done in H as ([s acts'] & -> & H). injection H as <- <-. cbn. split_and!; eauto.
    + injection H as <- <-. auto 10.
Qed.

Lemma turn_end_same d ev d' :
  let d2 := turn_end d ev d' in
  core d2 = core d' /\ storage d2 = storage d' /\ app d2 = app d' /\ transport d2 = transport d'.
Proof. destruct ev; cbn; try done. by destruct (_ && _). Qed.
End turn.

(** ** The service *)
Section service.
Context {T S A : Type} `{HT : Transport T} `{HTL : !TransportLaws T} `{HS : Storage S}
  `{HL : !StorageLaws S} `{HA : Application A}.
Context (cfg : Config) (threshold : Z) (a0 : A).
Implicit Types d : RaftDriver T S A.

Record Service := mkService {
  sv_drivers : gmap Z (RaftDriver T S A);
  sv_wire : list (NodeId * Message);      (* everything a transport has held *)
  sv_events : list (NodeId * Event);      (* the turns taken *)
}.

Definition node_config (n : NodeId) (s : S) (t : T) : RaftConfig T S :=
  mkRaftConfig T S n (cfg_nodes cfg) (cfg_heartbeat cfg) (cfg_range cfg) threshold t s.

(** What node [n]'s transport holds: to be sent, and to be received. *)
Definition held (n : NodeId) (t : T) : list (NodeId * Message) := outbox t ++ (pair n <$> inbox t).

(** A transport of node [n] holds only what was sent. *)
Definition from_wire (n : NodeId) (wire : list (NodeId * Message)) (t : T) : Prop :=
  (forall m, m ∈ inbox t -> (n, m) ∈ wire) /\ (forall x, x ∈ outbox t -> x ∈ wire)
  /\ (forall p, local t = Some p -> p = n).

(** What the storage can write. *)
Definition storable_action (a : Action) : Prop :=
  match a with
  | PersistMetadata t v => storable_metadata (mkPersistedMetadata t v)
  | PersistLogEntries _ entries => Forall storable entries
  | _ => True
  end.

(** The turns considered: within 64 bits, on responses as [guarded] says, with
    entries the storage can frame, and below the snapshot threshold.  The event
    loop itself ensures none of these. *)
Definition turn_ok (g : Rng) d (ev : Event) : Prop :=
  match event_input d ev with
  | None => True
  | Some i =>
      within_bounds (core d) i
      /\ match i with InMessage m => guarded (core d) m | _ => True end
      /\ match core_input g (core d) i with
         | Done (_, acts) => Forall storable_action acts /\ below_threshold d acts
         | Panic => True
         end
  end
  /\ match ev with
     | EvRead _ => 0 <= next_read_barrier_id (core d) /\ next_read_barrier_id (core d) + 1 < U64
     | _ => True
     end.

(** The log that a reboot reads leaves room in the index space. *)
Definition storage_fits (s : S) : Prop :=
  forall entries, restore_log_entries s = Ok (Some entries) -> len entries + 2 < U64.

Definition initial_service (w : Service) : Prop :=
  sv_wire w = [] /\ sv_events w = []
  /\ forall n d, sv_drivers w !! n = Some d -> n ∈ cfg_nodes cfg
       /\ exists g s t, represents s (mkView None [] None) /\ from_wire n [] t
            /\ driver_new g (node_config n s t) a0 = Done d.

(** A turn; the network moves messages, losing, repeating and reordering them;
    or a process dies somewhere in a turn and boots again (from what it had
    stored, and with the application as new). *)
Inductive service_step (w : Service) : Service -> Prop :=
| sv_turn n d g ev d' :
    sv_drivers w !! n = Some d -> turn_ok g d ev -> event_loop_turn g d ev = Done d' ->
    service_step w (mkService (<[n := d']> (sv_drivers w)) (sv_wire w ++ held n (transport d'))
                    (sv_events w ++ [(n, ev)]))
| sv_network n d t :
    sv_drivers w !! n = Some d -> from_wire n (sv_wire w) t ->
    service_step w (mkService (<[n := d <| transport := t |>]> (sv_drivers w)) (sv_wire w) (sv_events w))
| sv_crash n d g ev i d1 acts pre d2 t g' d0 :
    sv_drivers w !! n = Some d -> turn_ok g d ev -> event_input d ev = Some i ->
    turn_start g d ev = Done (d1, acts) ->
    pre `prefix_of` acts -> handle_actions d1 pre = Done d2 ->
    from_wire n (sv_wire w) t -> driver_new g' (node_config n (storage d2) t) a0 = Done d0 ->
    storage_fits (storage d2) ->
    service_step w (mkService (<[n := d0]> (sv_drivers w)) (sv_wire w ++ held n (transport d2))
                    (sv_events w)).

Definition service_reachable (w : Service) : Prop :=
  exists w0, initial_service w0 /\ rtc service_step w0 w.
End service.
