(* ===== verification/ServiceSim.v ===== *)
(** The cluster of drivers implements the cluster of nodes and disks: storages
    hold the disks, transports carry messages of the network, and applications
    are the replay of what was applied. *)

From S2P Require Import Prelude Types RaftCore CoreLog CoreFrame CoreReplication CoreElection.
From S2P Require Import CoreInvariant CoreCommit CoreTotal ReplicationSafety CoreEffects CorePersists.
From S2P Require Import Cluster RaftSpec RaftSpecSafety RaftSpecInv Replicas Refinement NodeSim.
From S2P Require Import ClusterSafety ClusterCommits.
From S2P Require Import Codec Storage EventLoop EventLoopFrame EventLoopDurable Service.
#[local] Open Scope Z_scope.

(** ** Applied commands *)

(** The commands the application sees: those of the leaders' first entries are
    empty and are not handed over. *)
Definition nonempty (c : bytes) : bool := match c with [] => false | _ => true end.

Definition visible (l : list LogEntry) : list bytes := List.filter nonempty (e_command <$> l).

Lemma visible_app l k : visible (l ++ k) = visible l ++ visible k.
Proof. unfold visible. by rewrite fmap_app, List.filter_app. Qed.

Definition commands_of (acts : list Action) : list bytes :=
  List.filter nonempty ((omap apply_of acts).*2).

Section actions.
Context {T S A : Type} `{HT : Transport T} `{HTL : !TransportLaws T} `{HS : Storage S}
  `{HL : !StorageLaws S} `{HA : Application A}.
Implicit Types d : RaftDriver T S A.

(** ** One action *)

(** The storage call of an action. *)
Definition storage_step (a : Action) (s s' : S) : Prop :=
  match a with
  | PersistMetadata t v => store_metadata s (mkPersistedMetadata t v) = Done (s', Ok tt)
  | PersistLogEntries start entries =>
      store_log_entries s (mkPersistedLogAddendum start entries) = Done (s', Ok tt)
  | _ => s' = s
  end.

Lemma below_threshold_tail d a acts :
  below_threshold d (a :: acts) -> below_threshold d acts.
Proof.
  intros (? & Hc & ?). split_and!; try done. unfold count_commands in *. cbn in Hc.
  destruct (is_command a); len_lia.
Qed.

Lemma action_frame d a acts d' :
  no_snapshot a -> below_threshold d (a :: acts) -> handle_action d a = Done d' ->
  core d' = core d /\ app d' = foldl on_command (app d) (commands_of [a])
  /\ transport d' = match a with SendMessage p m => send (transport d) p m | _ => transport d end
  /\ storage_step a (storage d) (storage d') /\ below_threshold d' acts.
Proof.
  intros Hns Hb H. pose proof (below_threshold_tail _ _ _ Hb) as Hb'.
  destruct a as [p m|i cmd|t vt|st es|p t i it|i t data|rid]; cbn in H, Hns; try done.
  - by injection H as <-.
  - set (d1 := match pending_proposals d !! i with Some _ => _ | None => _ end) in H.
    assert (storage d1 = storage d /\ core d1 = core d /\ num_entries d1 = num_entries d
      /\ snapshot_threshold d1 = snapshot_threshold d /\ app d1 = app d /\ transport d1 = transport d)
      as (E1 & E2 & E3 & E4 & E5 & E6) by (unfold d1; by destruct (_ !! _)).
    clearbody d1. unfold below_threshold in *. destruct cmd as [|b bs].
    + injection H as <-. cbn. by rewrite E1, E2, E3, E4, E5, E6.
    + destruct Hb as (Hb0 & Hbc & Hb1). unfold count_commands in Hbc. cbn in Hbc. autorewrite with len in Hbc.
      cbn in H. rewrite E3, E4 in H. rewrite u64_add_small in H by len_lia.
      destruct (Z.leb_spec (snapshot_threshold d) (num_entries d + 1)); [len_lia|].
      injection H as <-. cbn. rewrite E1, E2, E4, E5, E6. unfold count_commands.
      split_and!; try done; len_lia.
  - apply stored_Done in H as (s & -> & Hs). done.
  - apply stored_Done in H as (s & -> & Hs). done.
  - by destruct (pending_reads d !! rid); injection H as <-.
Qed.

(** ** Storages and disks *)
Definition holds (s : S) (k : Disk) : Prop :=
  dk_snapshot k = None
  /\ exists v, represents s v /\ (fun m => (pm_term m, pm_voted_for m)) <$> v_metadata v = dk_meta k
       /\ v_log v = number 1 (dk_log k) /\ v_snapshot v = None.

(** A log write that leaves no gap, on a disk that fits the index space. *)
Definition write_fits (k : Disk) (a : Action) : Prop :=
  match a with
  | PersistLogEntries start _ => disk_fits k /\ 0 < start <= len (dk_log k) + 1
  | _ => True
  end.

Lemma storage_step_holds s k a s' :
  holds s k -> no_snapshot a -> storable_action a -> write_fits k a -> storage_step a s s' ->
  holds s' (disk_exec k a).
Proof.
  intros (Hsn & v & Hr & Hm & Hl & Hs) Hns Hst Hw H.
  destruct a as [p m|i cmd|t vt|st es|p t i it|i t data|rid]; cbn in *; try done; subst;
    try (split; [done|]; by exists v).
  - destruct (law_store_metadata _ v (mkPersistedMetadata t vt) Hr Hst) as (s1 & Heq & Hr').
    rewrite H in Heq. injection Heq as ->. split; [done|]. by eexists.
  - destruct Hw as [Hf Hw]. unfold disk_fits in Hf. pose proof (len_nonneg (dk_log k)).
    destruct (law_store_log_entries _ v st es Hr ltac:(unfold is_u64; lia) Hst) as (s1 & Heq & Hr').
    rewrite H in Heq. injection Heq as ->. split; [done|]. eexists. split_and!; [exact Hr'|done| |done].
    cbn. rewrite Hsn. cbn. rewrite Hl. by apply (number_write 0); lia.
Qed.

(** ** All the actions of an input, or the first of them *)

Lemma exec_durable_disk k dur a dur' :
  same_disk k dur -> no_snapshot a -> exec_durable dur a = Some dur' ->
  same_disk (disk_exec k a) dur'
  /\ match a with PersistLogEntries start _ => 0 < start <= len (dk_log k) + 1 | _ => True end.
Proof.
  intros (H1 & H2 & H3) Hns H. destruct a; cbn in H, Hns |- *; try done; try (by injection H as <-).
  rewrite H2, <- H3 in H. destruct (Z.ltb_spec 0 start_index); [|done].
  destruct (Z.leb_spec start_index (0 + len (dk_log k) + 1)); [|done]. injection H as <-.
  split; [|lia]. by rewrite H1, H3.
Qed.

(** A batch of actions and the driver, disk and durable state it starts from. *)
Record action_batch (d : RaftDriver T S A) (k : Disk) (dur : Durable) (acts : list Action) (dur' : Durable) : Prop := {
  bt_actions : Forall no_snapshot acts;
  bt_storable : Forall storable_action acts;
  bt_threshold : below_threshold d acts;
  bt_holds : holds (storage d) k;
  bt_disk : same_disk k dur;
  bt_durable : exec_durables dur acts = Some dur';
  bt_writes : (log_writes acts <= 1)%nat;
  bt_fits : disk_fits k \/ log_writes acts = 0%nat;
}.

Lemma batch_first d k dur a acts dur' :
  action_batch d k dur (a :: acts) dur' -> no_snapshot a /\ storable_action a /\ write_fits k a.
Proof.
  intros [Hns Hst _ _ Hd He Hw Hf]. apply Forall_cons in Hns as [Hna _]. apply Forall_cons in Hst as [Hsa _].
  split_and!; [done..|]. cbn in He. destruct (exec_durable dur a) as [dur1|] eqn:He1; [|done].
  destruct (exec_durable_disk _ _ _ _ Hd Hna He1) as [_ Hrange]. rewrite log_writes_cons in Hf.
  destruct a; try done. cbn in Hf. split; [|done]. destruct Hf as [|]; [done|lia].
Qed.

Lemma batch_step d k dur a acts dur' d1 :
  action_batch d k dur (a :: acts) dur' -> handle_action d a = Done d1 ->
  core d1 = core d /\ app d1 = foldl on_command (app d) (commands_of [a])
  /\ exists dur1, action_batch d1 (disk_exec k a) dur1 acts dur'.
Proof.
  intros Hbt Ha. destruct (batch_first _ _ _ _ _ _ Hbt) as (Hna & Hsa & Hwf).
  destruct Hbt as [[_ Hns]%Forall_cons [_ Hst]%Forall_cons Hb Hh Hd He Hw Hf].
  destruct (action_frame _ _ _ _ Hna Hb Ha) as (E1 & E2 & _ & Hs & Hb1). split_and!; [done..|].
  cbn in He. destruct (exec_durable dur a) as [dur1|] eqn:He1; [|done]. exists dur1.
  destruct (exec_durable_disk _ _ _ _ Hd Hna He1) as [Hd1 _]. rewrite log_writes_cons in Hw, Hf.
  split; try done; [by eapply storage_step_holds|lia|].
  destruct a; cbn in Hf, Hw |- *; first [done|right; lia].
Qed.

Lemma actions_frame acts : forall d k dur dur' d',
  action_batch d k dur acts dur' -> handle_actions d acts = Done d' ->
  core d' = core d /\ app d' = foldl on_command (app d) (commands_of acts)
  /\ holds (storage d') (foldl disk_exec k acts).
Proof.
  induction acts as [|a acts IH]; intros d k dur dur' d' Hbt H.
  { injection H as <-. split_and!; [done..|apply Hbt]. }
  cbn in H. apply exec_bind_Done in H as (d1 & Ha & H).
  destruct (batch_step _ _ _ _ _ _ _ Hbt Ha) as (E1 & E2 & dur1 & Hbt1).
  destruct (IH d1 _ _ _ d' Hbt1 H) as (F1 & F2 & F3).
  split_and!; [congruence| |done]. rewrite F2, E2, <- foldl_app. f_equal.
  unfold commands_of. rewrite <- List.filter_app, <- fmap_app. do 2 f_equal. cbn. by destruct (apply_of a).
Qed.

(** A action_batch does not panic. *)
Lemma action_returns d k a acts :
  holds (storage d) k -> no_snapshot a -> storable_action a -> write_fits k a ->
  below_threshold d (a :: acts) -> exists d', handle_action d a = Done d'.
Proof.
  intros (Hsn & v & Hr & _) Hns Hst Hw Hb.
  destruct a as [p m|i cmd|t vt|st es|p t i it|i t data|rid]; cbn in *; try done.
  - by eexists.
  - set (d1 := match pending_proposals d !! i with Some _ => _ | None => _ end).
    assert (num_entries d1 = num_entries d /\ snapshot_threshold d1 = snapshot_threshold d) as [E1 E2]
      by (unfold d1; by destruct (_ !! _)). clearbody d1.
    destruct cmd as [|b bs]; [by eexists|]. destruct Hb as (Hb0 & Hbc & Hb1). unfold count_commands in Hbc.
    cbn in Hbc |- *. autorewrite with len in Hbc. rewrite E1, E2, u64_add_small by len_lia.
    destruct (Z.leb_spec (snapshot_threshold d) (num_entries d + 1)); [len_lia|]. by eexists.
  - destruct (law_store_metadata _ v (mkPersistedMetadata t vt) Hr Hst) as (s1 & Heq & _).
    unfold stored. rewrite Heq. by eexists.
  - destruct Hw as [Hf Hw]. unfold disk_fits in Hf. pose proof (len_nonneg (dk_log k)).
    destruct (law_store_log_entries _ v st es Hr ltac:(unfold is_u64; lia) Hst) as (s1 & Heq & _).
    unfold stored. rewrite Heq. by eexists.
  - destruct (pending_reads d !! rid); by eexists.
Qed.

Lemma actions_return acts : forall d k dur dur',
  action_batch d k dur acts dur' -> exists d', handle_actions d acts = Done d'.
Proof.
  induction acts as [|a acts IH]; intros d k dur dur' Hbt; [by exists d|].
  destruct (batch_first _ _ _ _ _ _ Hbt) as (Hna & Hsa & Hwf). cbn.
  destruct (action_returns d k a acts (bt_holds _ _ _ _ _ Hbt) Hna Hsa Hwf (bt_threshold _ _ _ _ _ Hbt))
    as [d1 Ha].
  destruct (batch_step _ _ _ _ _ _ _ Hbt Ha) as (_ & _ & dur1 & Hbt1). rewrite Ha. by eapply IH.
Qed.

(** ** Transports *)
Lemma sent_cons n a acts : (a :: acts) ≫= sent n [] = sent n [] a ++ (acts ≫= sent n []).
Proof. done. Qed.

Lemma actions_transport n acts : forall d d',
  Forall no_snapshot acts -> below_threshold d acts -> handle_actions d acts = Done d' ->
  local (transport d') = local (transport d)
  /\ (forall x, x ∈ outbox (transport d') -> x ∈ outbox (transport d) \/ x ∈ acts ≫= sent n [])
  /\ (forall x, x ∈ inbox (transport d') -> x ∈ inbox (transport d)
        \/ exists p, local (transport d) = Some p /\ (p, x) ∈ acts ≫= sent n []).
Proof.
  induction acts as [|a acts IH]; intros d d' Hns Hb H.
  { injection H as <-. auto. }
  apply Forall_cons in Hns as [Hna Hns]. cbn in H. apply exec_bind_Done in H as (d1 & Ha & H).
  destruct (action_frame _ _ _ _ Hna Hb Ha) as (_ & _ & E3 & _ & Hb1).
  destruct (IH d1 d' Hns Hb1 H) as (I1 & I2 & I3). rewrite sent_cons.
  destruct a as [p m| | | | | |]; try (rewrite E3 in *; by cbn).
  destruct (law_send (transport d) p m) as (L1 & L2 & L3). rewrite E3, L3 in *. split_and!; [done|..].
  - intros x [[Hx|Hx]%L2|Hx]%I2; [by left|right|right]; apply elem_of_app; [left|by right].
    subst x. by left.
  - intros x [[Hx|[-> Hp]]%L1|(q & Hq & Hx)]%I3; [by left|right|right].
    + exists p. split; [done|]. apply elem_of_app. left. by left.
    + exists q. split; [done|]. apply elem_of_app. by right.
Qed.
End actions.

(** ** The relation *)
Section simulation.
Context {T S A : Type} `{HT : Transport T} `{HTL : !TransportLaws T} `{HS : Storage S}
  `{HL : !StorageLaws S} `{HA : Application A}.
Context (cfg : Config) (threshold : Z) (a0 : A).
Context (Hnodup : NoDup (cfg_nodes cfg)) (Hsize : len (cfg_nodes cfg) < U64).
Notation all := (cfg_nodes cfg).
Implicit Types (d : RaftDriver T S A) (w : @Service T S A).

(** The application after what the node has applied. *)
Definition replay (s : RaftCore) : A :=
  foldl on_command a0 (visible (take (Z.to_nat (last_applied s)) (log s))).

Record service_rel w (y : System) : Prop := {
  sl_reachable : sys_reachable cfg guarded y;
  sl_nodes : forall n, sys_nodes y !! n = core <$> sv_drivers w !! n;
  sl_disk : forall n d, sv_drivers w !! n = Some d -> holds (storage d) (disk_of y n);
  sl_wire : forall x, x ∈ sv_wire w -> x ∈ sys_network y;
  sl_transport : forall n d, sv_drivers w !! n = Some d -> from_wire n (sv_wire w) (transport d);
  sl_app : forall n d, sv_drivers w !! n = Some d -> app d = replay (core d);
}.

Lemma from_wire_mono n wire wire' (t : T) :
  (forall x, x ∈ wire -> x ∈ wire') -> from_wire n wire t -> from_wire n wire' t.
Proof. intros H (H1 & H2 & H3). split_and!; auto. Qed.

(** The application advances by the commands of the input. *)
Lemma commands_visible k s acts s' :
  input_facts k s acts s' -> replay s' = foldl on_command (replay s) (commands_of acts).
Proof.
  intros [_ _ _ _ Ha Hle [Hlen Hlen'] Hb Hp]. unfold replay, commands_of. rewrite <- foldl_app. f_equal.
  rewrite Ha. unfold commands. rewrite Hb, Z.sub_0_r, fmap_imap.
  set (lo := last_applied s) in *. set (hi := last_applied s') in *.
  assert (take (Z.to_nat lo) (log s) = take (Z.to_nat lo) (log s')) as ->.
  { destruct Hp as [rest ->]. rewrite take_app_le by (rewrite length_take; unfold len in *; lia).
    by rewrite take_take, Nat.min_id. }
  unfold visible. rewrite <- List.filter_app. f_equal.
  rewrite (imap_ext _ (const e_command)) by done. rewrite imap_const, <- fmap_app. f_equal.
  rewrite <- (take_drop (Z.to_nat lo) (take (Z.to_nat hi) (log s'))). rewrite take_take, Nat.min_l by lia.
  f_equal. rewrite skipn_firstn_comm. f_equal. lia.
Qed.

(** ** Steps *)

(** The node behind a driver, and what it is asked. *)
Lemma turn_admissible w y n d g ev i :
  service_rel w y -> sv_drivers w !! n = Some d -> turn_ok g d ev -> event_input d ev = Some i ->
  sys_nodes y !! n = Some (core d) /\ sys_admissible guarded y n (core d) i.
Proof.
  intros Hrel Hd Hok Hi. split; [by rewrite (sl_nodes _ _ Hrel), Hd|].
  unfold turn_ok in Hok. rewrite Hi in Hok. destruct Hok as ((Hb & Hg & _) & _). split; [done|].
  destruct ev as [|cmd c|c|]; cbn in Hi; try (by injection Hi as <-).
  destruct (recv (transport d)) as [[m t]|] eqn:Hr; [|done]. injection Hi as <-. split; [|done].
  apply (sl_wire _ _ Hrel). apply (proj1 (sl_transport _ _ Hrel n d Hd)).
  apply (proj1 (law_recv _ _ _ Hr)).
Qed.

(** Part of the actions of a turn: the driver and the disk of its node. *)
Record turn_part (w : @Service T S A) (y : System) (n : NodeId) (pre : list Action) (c : RaftCore)
    (d2 : RaftDriver T S A) : Prop := {
  tp_core : core d2 = c;
  tp_disk : holds (storage d2) (foldl disk_exec (disk_of y n) pre);
  tp_local : forall p, local (transport d2) = Some p -> p = n;
  tp_out : forall x, x ∈ outbox (transport d2) -> x ∈ sv_wire w \/ x ∈ pre ≫= sent n [];
  tp_in : forall m, m ∈ inbox (transport d2) -> (n, m) ∈ sv_wire w \/ (n, m) ∈ pre ≫= sent n [];
}.

Lemma start_transport w y n d g ev d1 acts :
  service_rel w y -> sv_drivers w !! n = Some d -> turn_start g d ev = Done (d1, acts) ->
  from_wire n (sv_wire w) (transport d1).
Proof.
  intros Hrel Hd (_ & _ & _ & _ & _ & _ & Ht)%turn_start_Done.
  destruct (sl_transport _ _ Hrel n d Hd) as (H1 & H2 & H3).
  destruct Ht as [->|[m (L1 & L2 & L3 & L4)%law_recv]]; [done|]. split_and!; [auto..|]. by rewrite L4.
Qed.

(** The batch that a turn, or the part of it before a crash, executes. *)
Lemma turn_batch w y n d g ev i d1 acts pre :
  service_rel w y -> sv_drivers w !! n = Some d -> turn_ok g d ev -> event_input d ev = Some i ->
  turn_start g d ev = Done (d1, acts) -> pre `prefix_of` acts ->
  core_input g (core d) i = Done (core d1, acts) /\ input_facts (disk_of y n) (core d) acts (core d1)
  /\ exists dur, action_batch d1 (disk_of y n) (durable_of (core d)) pre dur.
Proof.
  intros Hrel Hd Hok Hi Hst Hpre. destruct (turn_admissible _ _ _ _ _ _ _ Hrel Hd Hok Hi) as [Hn Hadm].
  destruct (turn_start_Done _ _ _ _ _ Hst) as (Hc & E1 & _ & E3 & E4 & _ & _). rewrite Hi in Hc.
  pose proof (sys_input_facts cfg Hnodup Hsize y n _ i g _ acts (sl_reachable _ _ Hrel) Hn Hadm Hc) as Hf.
  split_and!; [done..|]. unfold turn_ok in Hok. rewrite Hi, Hc in Hok. destruct Hok as ((_ & _ & Hsa & Hb) & _).
  destruct (exec_durables_prefix _ _ _ _ Hpre (if_durable _ _ _ _ Hf)) as [dur Hdur]. exists dur.
  pose proof (if_acts _ _ _ _ Hf) as Hns. pose proof Hpre as [rest Hrest]. split; try done.
  - rewrite Hrest in Hns. by apply Forall_app in Hns as [? _].
  - rewrite Hrest in Hsa. by apply Forall_app in Hsa as [? _].
  - unfold below_threshold, count_commands in *. rewrite E3, E4. rewrite Hrest, List.filter_app in Hb.
    destruct Hb as (? & ? & ?). split_and!; try done. len_lia.
  - rewrite E1. by apply (sl_disk _ _ Hrel).
  - apply Hf.
  - etrans; [by apply log_writes_prefix|by eapply core_input_writes].
  - left. apply Hf.
Qed.

Lemma turn_part_done w y n d g ev i d1 acts pre d2 :
  service_rel w y -> sv_drivers w !! n = Some d -> turn_ok g d ev -> event_input d ev = Some i ->
  turn_start g d ev = Done (d1, acts) -> pre `prefix_of` acts -> handle_actions d1 pre = Done d2 ->
  core_input g (core d) i = Done (core d1, acts) /\ input_facts (disk_of y n) (core d) acts (core d1)
  /\ turn_part w y n pre (core d1) d2 /\ app d2 = foldl on_command (app d) (commands_of pre).
Proof.
  intros Hrel Hd Hok Hi Hst Hpre H2.
  pose proof (start_transport _ _ _ _ _ _ _ _ Hrel Hd Hst) as (W1 & W2 & W3).
  destruct (turn_start_Done _ _ _ _ _ Hst) as (_ & _ & E2 & _).
  destruct (turn_batch _ _ _ _ _ _ _ _ _ _ Hrel Hd Hok Hi Hst Hpre) as (Hc & Hf & dur & Hbt).
  destruct (actions_frame _ _ _ _ _ _ Hbt H2) as (F1 & F2 & F3).
  destruct (actions_transport n pre d1 d2 (bt_actions _ _ _ _ _ Hbt) (bt_threshold _ _ _ _ _ Hbt) H2)
    as (L1 & L2 & L3).
  split_and!; [done|done| |by rewrite F2, E2]. split; [done|done|by rewrite L1|..].
  - intros x [Hx|Hx]%L2; [left; by apply W2|by right].
  - intros m [Hm|(p & Hp & Hm)]%L3; [left; by apply W1|right]. pose proof (W3 p Hp). by subst p.
Qed.

(** The relation after a step of node [n] to driver [d2], which is [c]. *)
Lemma perform_service w y n pre c d2 wire' evs :
  service_rel w y -> sys_reachable cfg guarded (sys_perform y n c [] pre) -> core d2 = c ->
  holds (storage d2) (foldl disk_exec (disk_of y n) pre) ->
  (forall x, x ∈ sv_wire w -> x ∈ wire') -> (forall x, x ∈ wire' -> x ∈ sv_wire w \/ x ∈ pre ≫= sent n []) ->
  from_wire n wire' (transport d2) -> app d2 = replay c ->
  service_rel (mkService (<[n := d2]> (sv_drivers w)) wire' evs) (sys_perform y n c [] pre).
Proof.
  intros Hrel Hreach Hc Hh Hmono Hw Ht Happ. split; cbn; [done|..].
  - intros m. destruct (decide (m = n)) as [->|Hne]; [by rewrite !lookup_insert_eq, <- Hc|].
    rewrite !lookup_insert_ne by done. apply (sl_nodes _ _ Hrel).
  - intros m d. rewrite disk_of_perform. intros [[<- <-]|[Hne Hd]]%lookup_insert_Some.
    + by rewrite decide_True.
    + rewrite decide_False by done. by apply (sl_disk _ _ Hrel).
  - intros x [Hx|Hx]%Hw; apply elem_of_app; [left; by apply (sl_wire _ _ Hrel)|by right].
  - intros m d [[<- <-]|[Hne Hd]]%lookup_insert_Some; [done|].
    eapply from_wire_mono; [exact Hmono|]. by apply (sl_transport _ _ Hrel).
  - intros m d [[<- <-]|[Hne Hd]]%lookup_insert_Some; [by rewrite Happ, Hc|]. by apply (sl_app _ _ Hrel m).
Qed.

(** The same, for a turn that was executed up to [d2]. *)
Lemma wire_grows w y n pre c d2 :
  turn_part w y n pre c d2 ->
  forall x, x ∈ sv_wire w ++ held n (transport d2) -> x ∈ sv_wire w \/ x ∈ pre ≫= sent n [].
Proof.
  intros Htp x [Hx|[Hx|Hx]%elem_of_app]%elem_of_app; [by left|by apply (tp_out _ _ _ _ _ _ Htp)|].
  apply list_elem_of_fmap in Hx as (m & -> & Hm). by apply (tp_in _ _ _ _ _ _ Htp).
Qed.

Lemma held_from_wire w y n pre c d2 :
  turn_part w y n pre c d2 -> from_wire n (sv_wire w ++ held n (transport d2)) (transport d2).
Proof.
  intros Htp. split_and!; [| |apply (tp_local _ _ _ _ _ _ Htp)]; intros x Hx; apply elem_of_app; right;
    apply elem_of_app; [right; by apply list_elem_of_fmap_2|by left].
Qed.

Lemma held_old n wire (t : T) x : from_wire n wire t -> x ∈ wire ++ held n t -> x ∈ wire.
Proof.
  intros (H1 & H2 & _) [Hx|[Hx|Hx]%elem_of_app]%elem_of_app; [done|by apply H2|].
  apply list_elem_of_fmap in Hx as (m & -> & Hm). by apply H1.
Qed.

Lemma wire_kept (wire more : list (NodeId * Message)) x : x ∈ wire -> x ∈ wire ++ more.
Proof. intros. apply elem_of_app. by left. Qed.

Lemma step_reachable y y' :
  sys_reachable cfg guarded y -> sys_step cfg guarded y y' -> sys_reachable cfg guarded y'.
Proof. intros (y0 & H0 & H) Hs. exists y0. split; [done|]. by eapply rtc_r. Qed.

(** A driver that changed nothing the cluster sees. *)
Lemma same_service w y n d d' wire' evs :
  service_rel w y -> sv_drivers w !! n = Some d -> core d' = core d -> storage d' = storage d ->
  app d' = app d -> (forall x, x ∈ sv_wire w <-> x ∈ wire') -> from_wire n wire' (transport d') ->
  service_rel (mkService (<[n := d']> (sv_drivers w)) wire' evs) y.
Proof.
  intros Hrel Hd E1 E2 E3 Hw Ht. split; cbn.
  - apply Hrel.
  - intros m. rewrite (sl_nodes _ _ Hrel). destruct (decide (m = n)) as [->|Hne].
    + by rewrite lookup_insert_eq, Hd; cbn; rewrite E1.
    + by rewrite lookup_insert_ne.
  - intros m e [[<- <-]|[_ He]]%lookup_insert_Some; [rewrite E2|]; by apply (sl_disk _ _ Hrel).
  - intros x Hx%Hw. by apply (sl_wire _ _ Hrel).
  - intros m e [[<- <-]|[_ He]]%lookup_insert_Some; [done|].
    eapply from_wire_mono; [apply Hw|by apply (sl_transport _ _ Hrel)].
  - intros m e [[<- <-]|[_ He]]%lookup_insert_Some; [rewrite E1, E3|]; by eapply (sl_app _ _ Hrel).
Qed.

(** ** A boot *)

(** The driver that boots on a storage holds the node that boots on its disk. *)
Lemma boot_driver g n s t k d0 :
  holds s k -> driver_new g (node_config cfg threshold n s t) a0 = Done d0 ->
  sys_booted cfg n k (core d0) /\ storage d0 = s /\ transport d0 = t /\ app d0 = a0
  /\ last_applied (core d0) = 0.
Proof.
  intros (Hk & v & Hr & Hm & Hl & Hs) H. unfold driver_new in H. cbn [rc_storage node_config] in H.
  rewrite (law_restore_snapshot _ _ Hr), (law_restore_metadata _ _ Hr) in H.
  destruct (law_restore_log_entries _ _ Hr) as (o & Ho & Hod & _). rewrite Ho in H.
  cbn [expect mbind exec_bind] in H. rewrite Hm, Hs in H.
  apply exec_bind_Done in H as (c & Hc & H). injection H as <-. cbn.
  split_and!; [|done..|].
  - exists g. rewrite Hk. unfold boot_core in *. cbn in Hc |- *. rewrite Hod, Hl, number_snd in Hc. done.
  - unfold boot_core, restore, new in Hc. cbn in Hc.
    destruct (dk_meta k) as [[? ?]|], (random_range _ _ _); cbn in Hc; try done; by injection Hc as <-.
Qed.

Lemma holds_fits s k : holds s k -> storage_fits s -> disk_fits k.
Proof.
  intros (_ & v & Hr & _ & Hl & _) Hf. destruct (law_restore_log_entries _ _ Hr) as (o & Ho & Hod & Hne).
  unfold disk_fits. destruct (dk_log k) as [|e l] eqn:E; [done|]. rewrite Hl in Hod, Hne.
  destruct (Hne ltac:(done)) as [es ->]. apply Hf in Ho. rewrite number_snd in Hod. cbn in Hod. by subst es.
Qed.

(** ** The simulation *)

(** A turn is an input of the node, or changes nothing but clients. *)
Lemma turn_sim w y n d g ev d' :
  service_rel w y -> sv_drivers w !! n = Some d -> turn_ok g d ev -> event_loop_turn g d ev = Done d' ->
  let w' := mkService (<[n := d']> (sv_drivers w)) (sv_wire w ++ held n (transport d'))
              (sv_events w ++ [(n, ev)]) in
  exists y', rtc (sys_step cfg guarded) y y' /\ service_rel w' y'.
Proof.
  intros Hrel Hd Hok H. rewrite turn_split in H. apply exec_bind_Done in H as ([d1 acts] & Hst & H).
  apply exec_bind_Done in H as (d2 & H2 & H). injection H as <-.
  destruct (turn_end_same d ev d2) as (E1 & E2 & E3 & E4). cbn zeta.
  destruct (event_input d ev) as [i|] eqn:Hi.
  - destruct (turn_part_done _ _ _ _ _ _ _ _ _ _ _ Hrel Hd Hok Hi Hst (reflexivity acts) H2)
      as (Hc & Hf & Htp & Happ).
    destruct (turn_admissible _ _ _ _ _ _ _ Hrel Hd Hok Hi) as [Hn Hadm].
    pose proof (sys_input cfg guarded y n _ i g [] _ acts Hn Hadm Hc) as Hstep.
    exists (sys_perform y n (core d1) [] acts). split; [by apply rtc_once|].
    apply perform_service; rewrite ?E1, ?E2, ?E3, ?E4; try done.
    + by eapply step_reachable; [apply Hrel|].
    + apply Htp.
    + apply Htp.
    + intros x. apply wire_kept.
    + by eapply wire_grows.
    + by eapply held_from_wire.
    + rewrite Happ, (sl_app _ _ Hrel n d Hd). symmetry. by eapply commands_visible.
  - exists y. split; [apply rtc_refl|].
    destruct (turn_start_Done _ _ _ _ _ Hst) as (Hc & _). rewrite Hi in Hc. destruct Hc as [-> ->].
    injection H2 as <-. rewrite E4.
    apply (same_service w y n d); rewrite ?E1, ?E2, ?E3, ?E4; try done.
    + intros x. split; [apply wire_kept|]. by eapply held_old, (sl_transport _ _ Hrel).
    + eapply from_wire_mono; [intros x; apply wire_kept|by apply (sl_transport _ _ Hrel)].
Qed.

Lemma service_step_sim w y w' :
  service_rel w y -> service_step cfg threshold a0 w w' ->
  exists y', rtc (sys_step cfg guarded) y y' /\ service_rel w' y'.
Proof.
  intros Hrel Hstep. destruct Hstep as [n d g ev d' Hd Hok H|n d t Hd Ht
    |n d g ev i d1 acts pre d2 t g' d0 Hd Hok Hi Hst Hpre H2 Ht Hb Hf].
  - by eapply turn_sim.
  - exists y. split; [apply rtc_refl|]. by apply (same_service w y n d).
  - destruct (turn_part_done _ _ _ _ _ _ _ _ _ _ _ Hrel Hd Hok Hi Hst Hpre H2) as (Hc & _ & Htp & _).
    destruct (turn_admissible _ _ _ _ _ _ _ Hrel Hd Hok Hi) as [Hn Hadm].
    pose proof (tp_disk _ _ _ _ _ _ Htp) as Hh.
    destruct (boot_driver _ _ _ _ _ _ Hh Hb) as (Hboot & E1 & E2 & E3 & E4).
    pose proof (sys_crash cfg guarded y n _ i g [] _ acts pre _ Hn Hadm Hc Hpre (holds_fits _ _ Hh Hf) Hboot)
      as Hstep.
    exists (sys_perform y n (core d0) [] pre). split; [by apply rtc_once|].
    apply perform_service; rewrite ?E1, ?E2, ?E3; try done.
    + by eapply step_reachable; [apply Hrel|].
    + intros x. apply wire_kept.
    + by eapply wire_grows.
    + eapply from_wire_mono; [intros x; apply wire_kept|done].
    + unfold replay. by rewrite E4.
Qed.

(** ** Runs *)
Lemma initial_service_rel w :
  initial_service cfg threshold a0 w -> exists y, sys_initial cfg y /\ service_rel w y.
Proof.
  intros (Hw & _ & Hd). set (y := mkSystem (core <$> sv_drivers w) ∅ [] []).
  assert (forall n d, sv_drivers w !! n = Some d -> exists g s t, holds s empty_disk /\ from_wire n [] t
    /\ driver_new g (node_config cfg threshold n s t) a0 = Done d) as Hnew.
  { intros n d (_ & g & s & t & Hr & Ht & H)%Hd. exists g, s, t. split_and!; try done. split; [done|].
    by exists (mkView None [] None). }
  assert (sys_initial cfg y) as Hinit.
  { split_and!; try done. intros n s. cbn. rewrite lookup_fmap. intros (d & Hn & ->)%fmap_Some.
    split; [by eapply (Hd n d)|]. destruct (Hnew n d Hn) as (g & st & t & Hh & _ & Hb).
    apply (boot_driver _ _ _ _ _ _ Hh Hb). }
  exists y. split; [done|]. split.
  - exists y. split; [done|apply rtc_refl].
  - intros n. apply lookup_fmap.
  - intros n d (g & s & t & Hh & _ & (_ & -> & _)%(boot_driver _ _ _ _ _ _ Hh))%Hnew. done.
  - rewrite Hw. by intros x ?%not_elem_of_nil.
  - rewrite Hw. intros n d (g & s & t & Hh & Ht & (_ & _ & -> & _)%(boot_driver _ _ _ _ _ _ Hh))%Hnew. done.
  - intros n d (g & s & t & Hh & _ & (_ & _ & _ & E1 & E2)%(boot_driver _ _ _ _ _ _ Hh))%Hnew.
    unfold replay. by rewrite E1, E2.
Qed.

Lemma service_steps_sim w y w' :
  service_rel w y -> rtc (service_step cfg threshold a0) w w' ->
  exists y', rtc (sys_step cfg guarded) y y' /\ service_rel w' y'.
Proof.
  intros Hrel H. revert y Hrel. induction H as [w|w w1 w' Hs _ IH]; intros y Hrel; [by exists y|].
  destruct (service_step_sim _ _ _ Hrel Hs) as (y1 & H1 & Hrel1).
  destruct (IH y1 Hrel1) as (y' & H' & Hrel'). exists y'. split; [by etrans|done].
Qed.

Lemma service_reachable_rel w : service_reachable cfg threshold a0 w -> exists y, service_rel w y.
Proof.
  intros (w0 & (y0 & _ & Hrel)%initial_service_rel & Hsteps).
  destruct (service_steps_sim _ _ _ Hrel Hsteps) as (y & _ & Hy). by exists y.
Qed.
End simulation.
