(* ===== verification/ServiceSafety.v ===== *)
(** What the service promises under the conditions of [Service.turn_ok]: what is
    handed to the applications of any two nodes, at any two times, is one
    sequence of commands; no turn panics; and a write that was acknowledged is
    kept. *)

From S2P Require Import Prelude Types RaftCore CoreLog CoreFrame CoreReplication CoreElection.
From S2P Require Import CoreInvariant CoreCommit CoreTotal ReplicationSafety CoreEffects CorePersists.
From S2P Require Import Cluster RaftSpec RaftSpecSafety RaftSpecInv RaftSpecSteps Replicas Refinement NodeSim.
From S2P Require Import ClusterSafety ClusterCommits CoreLeader.
From S2P Require Import Codec Storage EventLoop EventLoopFrame EventLoopTheorems EventLoopReplies.
From S2P Require Import EventLoopDurable Service ServiceSim.
#[local] Open Scope Z_scope.

Section safety.
Context {T S A : Type} `{HT : Transport T} `{HTL : !TransportLaws T} `{HS : Storage S}
  `{HL : !StorageLaws S} `{HA : Application A}.
Context (cfg : Config) (threshold : Z) (a0 : A).
Context (Hnodup : NoDup (cfg_nodes cfg)) (Hsize : len (cfg_nodes cfg) < U64).
Notation all := (cfg_nodes cfg).
Implicit Types (d : RaftDriver T S A) (w : @Service T S A).

(** ** Nodes of a service *)
Lemma driver_node w y n d :
  service_rel cfg a0 w y -> sv_drivers w !! n = Some d -> sys_nodes y !! n = Some (core d).
Proof. intros Hrel Hd. by rewrite (sl_nodes _ _ _ _ Hrel), Hd. Qed.

Lemma driver_wf w y n d : service_rel cfg a0 w y -> sv_drivers w !! n = Some d -> core_wf (core d).
Proof.
  intros Hrel Hd. destruct (sys_reachable_rel cfg Hnodup Hsize y (sl_reachable _ _ _ _ Hrel)) as (a & _ & Ha).
  eapply sys_rel_wf; [exact Ha|]. by eapply driver_node.
Qed.

Lemma turn_input_ok w y n d g ev i :
  service_rel cfg a0 w y -> sv_drivers w !! n = Some d -> turn_ok g d ev -> event_input d ev = Some i ->
  input_ok (core d) i.
Proof.
  intros Hrel Hd Hok Hi. destruct (turn_admissible cfg a0 _ _ _ _ _ _ _ Hrel Hd Hok Hi) as [Hn Hadm].
  destruct (sys_reachable_rel cfg Hnodup Hsize y (sl_reachable _ _ _ _ Hrel)) as (a & _ & Ha).
  eapply input_from_ok; [by apply (sr_nodes _ _ _ Ha)|]. by eapply admissible_from.
Qed.

Lemma turn_event_ok w y n d g ev :
  service_rel cfg a0 w y -> sv_drivers w !! n = Some d -> turn_ok g d ev -> event_ok d ev.
Proof.
  intros Hrel Hd Hok. pose proof (fun i => turn_input_ok w y n d g ev i Hrel Hd Hok) as Hin.
  destruct ev as [|cmd c|c|]; cbn; [done| | |].
  - exact (Hin _ eq_refl).
  - by destruct Hok as [_ ?].
  - intros m t Hr. apply (Hin (InMessage m)). cbn. by rewrite Hr.
Qed.

(** ** One sequence of commands *)

(** What was applied then and what is applied now. *)
Lemma applied_prefix w y w' y' n1 n2 d1 d2 :
  service_rel cfg a0 w y -> rtc (sys_step cfg guarded) y y' -> service_rel cfg a0 w' y' ->
  sv_drivers w !! n1 = Some d1 -> sv_drivers w' !! n2 = Some d2 ->
  last_applied (core d1) <= last_applied (core d2) ->
  take (Z.to_nat (last_applied (core d1))) (log (core d1))
    `prefix_of` take (Z.to_nat (last_applied (core d2))) (log (core d2)).
Proof.
  intros Hrel Hsteps Hrel' H1 H2 Hle.
  pose proof (driver_wf _ _ _ _ Hrel H1) as Hwf1. pose proof (driver_wf _ _ _ _ Hrel' H2) as Hwf2.
  rewrite (wf_applied _ Hwf1), (wf_applied _ Hwf2) in *.
  apply (driver_node _ _ _ _ Hrel) in H1. apply (driver_node _ _ _ _ Hrel') in H2.
  destruct (sys_reachable_rel cfg Hnodup Hsize y (sl_reachable _ _ _ _ Hrel)) as (a & _ & Ha).
  destruct (sys_steps_grow cfg Hnodup Hsize a y y' Ha Hsteps) as (b & Hg & Hb).
  pose proof (commit_prefix_mono _ _ _ _ _ Hg (Z.le_refl _) (sys_rel_commit _ _ _ _ _ Ha H1)) as Hc.
  eapply (commit_prefix_agree all b); [apply Hb|exact Hc|by eapply sys_rel_commit|].
  rewrite !length_take. destruct (commit_in_log _ _ _ _ _ Ha H1), (commit_in_log _ _ _ _ _ Hb H2). lia.
Qed.

Lemma replay_prefix (s1 s2 : RaftCore) :
  take (Z.to_nat (last_applied s1)) (log s1) `prefix_of` take (Z.to_nat (last_applied s2)) (log s2) ->
  0 <= last_applied s1 <= len (log s1) ->
  replay a0 s2 = foldl on_command (replay a0 s1)
    (visible (drop (Z.to_nat (last_applied s1)) (take (Z.to_nat (last_applied s2)) (log s2)))).
Proof.
  intros [rest Hr] Hle. unfold replay. rewrite <- foldl_app, <- visible_app. do 2 f_equal.
  rewrite Hr, drop_app_le, drop_ge by (rewrite length_take; unfold len in *; lia). done.
Qed.

Lemma stores_continue w y w' y' n1 n2 d1 d2 :
  service_rel cfg a0 w y -> rtc (sys_step cfg guarded) y y' -> service_rel cfg a0 w' y' ->
  sv_drivers w !! n1 = Some d1 -> sv_drivers w' !! n2 = Some d2 ->
  last_applied (core d1) <= last_applied (core d2) ->
  app d2 = foldl on_command (app d1) (visible (drop (Z.to_nat (last_applied (core d1)))
             (take (Z.to_nat (last_applied (core d2))) (log (core d2))))).
Proof.
  intros Hrel Hsteps Hrel' H1 H2 Hle. pose proof (driver_wf _ _ _ _ Hrel H1) as Hwf.
  destruct (sys_reachable_rel cfg Hnodup Hsize y (sl_reachable _ _ _ _ Hrel)) as (a & _ & Ha).
  destruct (commit_in_log _ _ _ _ _ Ha (driver_node _ _ _ _ Hrel H1)).
  rewrite (sl_app _ _ _ _ Hrel n1 d1 H1), (sl_app _ _ _ _ Hrel' n2 d2 H2).
  apply replay_prefix; [exact (applied_prefix w y w' y' n1 n2 d1 d2 Hrel Hsteps Hrel' H1 H2 Hle)|]. rewrite (wf_applied _ Hwf). unfold len. lia.
Qed.

(** ** Turns return *)
Lemma turn_returns w y n d g ev :
  service_rel cfg a0 w y -> sv_drivers w !! n = Some d -> turn_ok g d ev ->
  exists d', event_loop_turn g d ev = Done d'.
Proof.
  intros Hrel Hd Hok. rewrite turn_split. pose proof (driver_wf _ _ _ _ Hrel Hd) as Hwf.
  assert (exists d1 acts, turn_start g d ev = Done (d1, acts)) as (d1 & acts & Hst).
  { pose proof (fun i => turn_input_ok w y n d g ev i Hrel Hd Hok) as Hin.
    destruct ev as [|cmd c|c|]; cbn in Hin |- *.
    - pose proof (core_input_wf g (core d) InTick Hwf ltac:(done)) as Hr. cbn in Hr.
      destruct (tick g (core d)) as [[]|]; [|done]. by do 2 eexists.
    - pose proof (core_input_wf g (core d) _ Hwf (Hin _ eq_refl)) as Hr. cbn in Hr.
      destruct (propose (core d) cmd) as [[s [acts|]]|]; [|by do 2 eexists|done]. by do 2 eexists.
    - unfold on_read. destruct (request_read_barrier (core d)) as [s [i|]]; by do 2 eexists.
    - destruct (recv (transport d)) as [[m t]|]; [|by do 2 eexists].
      pose proof (core_input_wf g (core d) _ Hwf (Hin _ eq_refl)) as Hr. cbn in Hr.
      destruct (handle_message g (core d) m) as [[]|]; [|done]. by do 2 eexists. }
  rewrite Hst. cbn. destruct (event_input d ev) as [i|] eqn:Hi.
  - destruct (turn_batch cfg a0 Hnodup Hsize _ _ _ _ _ _ _ _ _ acts Hrel Hd Hok Hi Hst (reflexivity acts))
      as (_ & _ & dur & Hbt).
    destruct (actions_return _ _ _ _ _ Hbt) as [d2 ->]. by eexists.
  - destruct (turn_start_Done _ _ _ _ _ Hst) as (Hc & _). rewrite Hi in Hc. destruct Hc as [-> ->]. by eexists.
Qed.

(** ** Theorems *)

(** C2: the cluster of drivers implements the cluster of nodes. In a service
    that keeps the conditions of [turn_ok] and [service_step] (terms, indices
    and read ids within 64 bits; every turn below the snapshot threshold, with
    metadata and entries the storage can write; responses received only as
    [guarded] says; crashes between two actions), over any transport and
    storage with their laws: whatever the drivers do from a reachable state
    on, nodes with disks do: the same cores, storages that hold the disks,
    transports that carry only messages the nodes sent, and, as what was
    handed to each application, the replay of what its node has applied. *)
Theorem service_refines w w' :
  service_reachable cfg threshold a0 w -> rtc (service_step cfg threshold a0) w w' ->
  exists y y', service_rel cfg a0 w y /\ rtc (sys_step cfg guarded) y y' /\ service_rel cfg a0 w' y'.
Proof.
  intros (y & Hrel)%service_reachable_rel Hsteps; [|done..].
  destruct (service_steps_sim cfg threshold a0 Hnodup Hsize w y w' Hrel Hsteps) as (y' & H & Hrel').
  by exists y, y'.
Qed.

(** C4: one store. In a service that keeps the conditions of [turn_ok] and
    [service_step] (terms, indices and read ids within 64 bits; every turn
    below the snapshot threshold, with metadata and entries the storage can
    write; responses received only as [guarded] says; crashes between two
    actions), take any node now, and any node now or later whose core has
    applied at least as much: the application of the second, once it has
    handled all it was handed, is that of the first after some more commands
    of the log, and the very same if both have applied equally much. *)
Theorem stores_agree w w' n1 n2 d1 d2 :
  service_reachable cfg threshold a0 w -> rtc (service_step cfg threshold a0) w w' ->
  sv_drivers w !! n1 = Some d1 -> sv_drivers w' !! n2 = Some d2 ->
  last_applied (core d1) <= last_applied (core d2) ->
  app d2 = foldl on_command (app d1) (visible (drop (Z.to_nat (last_applied (core d1)))
             (take (Z.to_nat (last_applied (core d2))) (log (core d2)))))
  /\ (last_applied (core d1) = last_applied (core d2) -> app d2 = app d1).
Proof.
  intros (y & Hrel)%service_reachable_rel Hsteps H1 H2 Hle; [|done..].
  destruct (service_steps_sim cfg threshold a0 Hnodup Hsize w y w' Hrel Hsteps) as (y' & Hy & Hrel').
  pose proof (stores_continue _ _ _ _ _ _ _ _ Hrel Hy Hrel' H1 H2 Hle) as Ha. split; [done|].
  intros Heq. rewrite Ha, Heq, drop_ge; [done|]. rewrite length_take. lia.
Qed.

(** C12: no turn panics. On a node of a service that was reached under the
    conditions of [turn_ok] and [service_step], a turn returns that keeps them
    too, that is: terms, indices and read ids within 64 bits, a received
    response as [guarded] says, metadata and entries the storage can write,
    and no snapshot due or installed. The core's unwraps and slices and the
    storage's expects all succeed. *)
Theorem service_turn_returns w n d g ev :
  service_reachable cfg threshold a0 w -> sv_drivers w !! n = Some d -> turn_ok g d ev ->
  exists d', event_loop_turn g d ev = Done d'.
Proof. intros (y & Hrel)%service_reachable_rel; [|done..]. by eapply turn_returns. Qed.
End safety.

(** ** Acknowledgements *)

(** The turns a node took. *)
Definition events_of (n : NodeId) (evs : list (NodeId * Event)) : list Event :=
  omap (fun e => if decide (e.1 = n) then Some e.2 else None) evs.

Lemma events_of_app n evs m ev :
  events_of n (evs ++ [(m, ev)]) = events_of n evs ++ (if decide (m = n) then [ev] else []).
Proof. unfold events_of. rewrite omap_app. cbn. by case_decide. Qed.

Section acknowledged.
Context {T S A : Type} `{HT : Transport T} `{HTL : !TransportLaws T} `{HS : Storage S}
  `{HL : !StorageLaws S} `{HA : Application A}.
Context (cfg : Config) (threshold : Z) (a : A).
Context (Hnodup : NoDup (cfg_nodes cfg)) (Hsize : len (cfg_nodes cfg) < U64).
Implicit Types (d : RaftDriver T S (A * list bytes)) (w : @Service T S (A * list bytes)).
#[local] Existing Instance recording.
Notation step := (service_step cfg threshold (a, [])).

(** Waiting clients are accounted for on every node. *)
Definition service_waits w : Prop :=
  forall n d, sv_drivers w !! n = Some d -> driver_ok d /\ waits d (events_of n (sv_events w)).

Lemma booted_waits g config d evs :
  driver_new g config (a, []) = Done d -> core_wf (core d) -> driver_ok d /\ waits d evs.
Proof. intros H Hwf. unfold driver_new in H. exec_inv. by split; split. Qed.

Lemma service_step_waits w y w' :
  service_rel cfg (a, []) w y -> service_waits w -> step w w' -> service_waits w'.
Proof.
  intros Hrel Hw Hstep. destruct (service_step_sim cfg threshold _ Hnodup Hsize _ _ _ Hrel Hstep) as (y' & _ & Hrel').
  destruct Hstep as [n d g ev d' Hd Hok H|n d t Hd Ht
    |n d g ev i d1 acts pre d2 t g' d0 Hd Hok Hi Hst Hpre H2 Ht Hb Hf]; intros m e He; cbn [sv_drivers sv_events] in He |- *;
    pose proof (driver_wf cfg _ Hnodup Hsize _ _ _ _ Hrel' He) as Hwf;
    apply lookup_insert_Some in He as [[<- <-]|[Hne He]].
  - destruct (Hw n d Hd) as [Hdok Hdw]. pose proof (turn_event_ok cfg _ Hnodup Hsize _ _ _ _ _ _ Hrel Hd Hok) as Hev.
    split; [by destruct (event_loop_turn_ok _ _ _ _ Hdok Hev H)|].
    rewrite events_of_app, decide_True by done. by destruct (turn_answers _ _ _ _ _ Hdok Hdw Hev H).
  - rewrite events_of_app, decide_False by done. rewrite app_nil_r. by apply Hw.
  - destruct (Hw n d Hd) as [[] []]. by split; split.
  - by apply Hw.
  - by eapply booted_waits.
  - by apply Hw.
Qed.

Lemma service_reachable_waits w :
  service_reachable cfg threshold (a, []) w -> exists y, service_rel cfg (a, []) w y /\ service_waits w.
Proof.
  intros (w0 & Hinit & Hsteps). revert w Hsteps. apply rtc_ind_r.
  - destruct (initial_service_rel cfg threshold _ _ Hinit) as (y & _ & Hrel). exists y. split; [done|].
    intros n d Hd. pose proof (driver_wf cfg _ Hnodup Hsize _ _ _ _ Hrel Hd).
    destruct Hinit as (_ & _ & Hnew). destruct (Hnew n d Hd) as (_ & g & s & t & _ & _ & Hb).
    by eapply booted_waits.
  - intros w w' _ Hstep (y & Hrel & Hw).
    destruct (service_step_sim cfg threshold _ Hnodup Hsize _ _ _ Hrel Hstep) as (y' & _ & Hrel').
    exists y'. split; [done|]. exact (service_step_waits w y w' Hrel Hw Hstep).
Qed.

Lemma recorded l (x : A * list bytes) : (foldl on_command x l).2 = x.2 ++ l.
Proof.
  revert x. induction l as [|c l IH]; intros x; cbn; [by rewrite app_nil_r|].
  rewrite IH. cbn. by rewrite <- (assoc _).
Qed.

Lemma recorded_app l (x : A * list bytes) : (foldl on_command x l).1 = foldl on_command x.1 l.
Proof. revert x. induction l as [|c l IH]; intros x; cbn; [done|]. apply IH. Qed.

Lemma acknowledged_kept w n d g ev d' client cmd w' m d2 :
  service_reachable cfg threshold (a, []) w -> sv_drivers w !! n = Some d ->
  turn_ok g d ev -> event_loop_turn g d ev = Done d' -> is_leader (core d') = true ->
  NoDup ((events_of n (sv_events w) ++ [ev]) ≫= new_clients) ->
  EvProposal cmd client ∈ events_of n (sv_events w) ++ [ev] -> cmd <> [] ->
  (client, None) ∈ replies d' -> (client, None) ∉ replies d ->
  rtc step (mkService (<[n := d']> (sv_drivers w)) (sv_wire w ++ held n (transport d'))
              (sv_events w ++ [(n, ev)])) w' ->
  sv_drivers w' !! m = Some d2 ->
  (last_applied (core d') <= last_applied (core d2) -> cmd ∈ history d2)
  /\ (is_leader (core d2) = true -> current_term (core d') <= current_term (core d2) ->
      cmd ∈ e_command <$> log (core d2)).
Proof.
  intros (y & Hrel & Hw)%service_reachable_waits Hd Hok Hturn Hl Hnd Hask Hne Hin Hnot Hsteps H2.
  destruct (Hw n d Hd) as [Hdok Hdw]. pose proof (turn_event_ok cfg _ Hnodup Hsize _ _ _ _ _ _ Hrel Hd Hok) as Hev.
  destruct (turn_sim cfg (a, []) Hnodup Hsize w y n d g ev d' Hrel Hd Hok Hturn) as (y1 & _ & Hrel1).
  destruct (service_steps_sim cfg threshold _ Hnodup Hsize _ y1 w' Hrel1 Hsteps) as (y' & Hy & Hrel').
  assert (cmd ∈ history d') as Hcmd.
  { destruct (success_handed _ _ _ _ _ _ _ Hdok Hdw Hev Hturn Hl Hnd Hask Hne Hin Hnot) as (cmds & -> & ?).
    apply elem_of_app. by right. }
  set (w1 := mkService _ _ _) in *.
  assert (sv_drivers w1 !! n = Some d') as Hd' by apply lookup_insert_eq. split.
  - intros Hle. pose proof (stores_continue cfg _ Hnodup Hsize _ _ _ _ _ _ _ _ Hrel1 Hy Hrel' Hd' H2 Hle) as Happ.
    unfold history. rewrite Happ, recorded. apply elem_of_app. by left.
  - intros Hl2 Ht. pose proof (driver_wf cfg _ Hnodup Hsize _ _ _ _ Hrel1 Hd') as Hwf'.
    unfold history in Hcmd. rewrite (sl_app _ _ _ _ Hrel1 n d' Hd') in Hcmd. unfold replay in Hcmd.
    rewrite recorded in Hcmd. cbn in Hcmd. unfold visible in Hcmd. apply list_elem_of_In, filter_In in Hcmd as [Hcmd _].
    apply list_elem_of_In, list_elem_of_fmap in Hcmd as (e & -> & He). apply list_elem_of_fmap_2.
    rewrite (wf_applied _ Hwf') in He. eapply elem_of_prefix; [exact He|].
    eapply (leader_keeps_committed cfg Hnodup Hsize y1 y' n m); try done.
    + apply Hrel1.
    + by eapply driver_node.
    + by eapply driver_node.
    + by apply bool_decide_eq_true in Hl2.
Qed.
(** The application of a node, from what it was given. *)
Lemma history_app w n d :
  service_reachable cfg threshold (a, []) w -> sv_drivers w !! n = Some d ->
  (app d).1 = foldl on_command a (history d).
Proof.
  intros (y & Hrel & _)%service_reachable_waits Hd. unfold history.
  rewrite (sl_app _ _ _ _ Hrel n d Hd). unfold replay. by rewrite recorded, recorded_app.
Qed.

(** C3: an acknowledged write is kept. In a service that keeps the conditions
    of [turn_ok] and [service_step] (terms, indices and read ids within 64
    bits; every turn below the snapshot threshold, with metadata and entries
    the storage can write; responses received only as [guarded] says; crashes
    between two actions): clients ask once each, and a proposal is answered
    with success in a turn after which the node leads. From that turn on,
    through further steps under the same conditions, every node that has
    applied as far has handed the command to its application, and every leader
    of that term or a later one has it in its log. *)
Theorem acknowledged_write_kept w n d g ev d' client cmd w' m d2 :
  service_reachable cfg threshold (a, []) w -> sv_drivers w !! n = Some d ->
  turn_ok g d ev -> event_loop_turn g d ev = Done d' -> is_leader (core d') = true ->
  NoDup ((events_of n (sv_events w) ++ [ev]) ≫= new_clients) ->
  EvProposal cmd client ∈ events_of n (sv_events w) ++ [ev] -> cmd <> [] ->
  (client, None) ∈ replies d' -> (client, None) ∉ replies d ->
  rtc step (mkService (<[n := d']> (sv_drivers w)) (sv_wire w ++ held n (transport d'))
              (sv_events w ++ [(n, ev)])) w' ->
  sv_drivers w' !! m = Some d2 ->
  (last_applied (core d') <= last_applied (core d2) -> cmd ∈ history d2)
  /\ (is_leader (core d2) = true -> current_term (core d') <= current_term (core d2) ->
      cmd ∈ e_command <$> log (core d2)).
Proof. apply acknowledged_kept. Qed.
End acknowledged.
