(* ===== verification/ServiceRuns.v ===== *)
(** Executable schedules of a service: each move that is checked and performed
    is a step of the service. *)

From S2P Require Import Prelude Types RaftCore CoreLog CoreElection CoreInvariant CoreEffects.
From S2P Require Import Cluster Replicas ReplicaRuns.
From S2P Require Import Codec Storage EventLoop EventLoopDurable Service.
#[local] Open Scope Z_scope.

Section runs.
Context {T S A : Type} `{HT : Transport T} `{HTL : !TransportLaws T} `{HS : Storage S}
  `{HL : !StorageLaws S} `{HA : Application A}.
Context `{Hse : !forall e, Decision (storable e)} `{Hsm : !forall m, Decision (storable_metadata m)}.
Context (cfg : Config) (threshold : Z) (a0 : A).
Implicit Types (d : RaftDriver T S A) (w : @Service T S A).

#[export] Instance storable_action_dec a : Decision (storable_action a).
Proof. destruct a; cbn; apply _. Defined.

#[export] Instance turn_ok_dec g d ev : Decision (turn_ok g d ev).
Proof.
  unfold turn_ok, below_threshold. refine (and_dec _ _); [|destruct ev; apply _].
  destruct (event_input d ev) as [i|]; [|apply _]. refine (and_dec _ (and_dec _ _)); [destruct i; apply _|].
  destruct (core_input g (core d) i) as [[]|]; apply _.
Defined.

(** [from_wire] and [storage_fits], as checks. *)
Definition holds_sent (n : NodeId) (wire : list (NodeId * Message)) (t : T) : bool :=
  forallb (fun m => bool_decide ((n, m) ∈ wire)) (inbox t)
  && forallb (fun x => bool_decide (x ∈ wire)) (outbox t)
  && match local t with Some p => p =? n | None => true end.

Lemma forallb_elem {X} (f : X -> bool) l x : forallb f l = true -> x ∈ l -> f x = true.
Proof. intros Hf Hx. rewrite forallb_forall in Hf. by apply Hf, list_elem_of_In. Qed.

Lemma holds_sent_ok n wire t : holds_sent n wire t = true -> from_wire n wire t.
Proof.
  intros [[H1 H2]%andb_prop H3]%andb_prop. split_and!.
  - intros m Hm. by apply (forallb_elem _ _ _ H1), bool_decide_eq_true in Hm.
  - intros x Hx. by apply (forallb_elem _ _ _ H2), bool_decide_eq_true in Hx.
  - intros p Hp. rewrite Hp in H3. by apply Z.eqb_eq.
Qed.

Definition log_room (s : S) : bool :=
  match restore_log_entries s with Ok (Some es) => len es + 2 <? U64 | _ => true end.

Lemma log_room_ok s : log_room s = true -> storage_fits s.
Proof. unfold log_room, storage_fits. intros H es He. rewrite He in H. lia. Qed.

(** ** Moves *)
Inductive Move : Type :=
| MvTurn (n : NodeId) (ev : Event)
| MvNetwork (n : NodeId) (t : list (NodeId * Message) -> T)      (* the transport, from the wire *)
| MvCrash (n : NodeId) (ev : Event) (k : nat) (t : list (NodeId * Message) -> T).

Definition service_move w (mv : Move) : option Service :=
  match mv with
  | MvTurn n ev =>
      d ← sv_drivers w !! n;
      if decide (turn_ok draw d ev) then
        match event_loop_turn draw d ev with
        | Done d' => Some (mkService (<[n := d']> (sv_drivers w)) (sv_wire w ++ held n (transport d'))
                             (sv_events w ++ [(n, ev)]))
        | Panic => None
        end
      else None
  | MvNetwork n t =>
      d ← sv_drivers w !! n;
      let t := t (sv_wire w) in
      if holds_sent n (sv_wire w) t
      then Some (mkService (<[n := d <| transport := t |>]> (sv_drivers w)) (sv_wire w) (sv_events w))
      else None
  | MvCrash n ev k t =>
      d ← sv_drivers w !! n;
      _ ← event_input d ev;
      let t := t (sv_wire w) in
      if decide (turn_ok draw d ev) then
        match turn_start draw d ev with
        | Done (d1, acts) =>
            match handle_actions d1 (take k acts) with
            | Done d2 =>
                match driver_new draw (node_config cfg threshold n (storage d2) t) a0 with
                | Done d0 =>
                    if holds_sent n (sv_wire w) t && log_room (storage d2) then
                      Some (mkService (<[n := d0]> (sv_drivers w)) (sv_wire w ++ held n (transport d2)) (sv_events w))
                    else None
                | Panic => None
                end
            | Panic => None
            end
        | Panic => None
        end
      else None
  end.

Fixpoint service_run w (mvs : list Move) : option Service :=
  match mvs with [] => Some w | mv :: mvs => w ← service_move w mv; service_run w mvs end.

Lemma service_move_sound w mv w' : service_move w mv = Some w' -> service_step cfg threshold a0 w w'.
Proof.
  destruct mv as [n ev|n t|n ev k t]; cbn -[turn_ok_dec]; intros (d & Hd & H)%bind_Some.
  - case_decide as Hok; [|done]. destruct (event_loop_turn draw d ev) as [d'|] eqn:Ht; [|done].
    injection H as <-. by eapply sv_turn.
  - destruct (holds_sent n (sv_wire w) (t (sv_wire w))) eqn:Hs; [|done]. injection H as <-.
    apply sv_network; [done|by apply holds_sent_ok].
  - apply bind_Some in H as (i & Hi & H). case_decide as Hok; [|done].
    destruct (turn_start draw d ev) as [[d1 acts]|] eqn:Hst; [|done].
    destruct (handle_actions d1 (take k acts)) as [d2|] eqn:Ha; [|done].
    destruct (driver_new _ _ _) as [d0|] eqn:Hb; [|done]. destruct (_ && _) eqn:Hc; [|done]. injection H as <-.
    apply andb_prop in Hc as [Hc1 Hc2].
    eapply sv_crash; [done..|apply prefix_take|exact Ha|by apply holds_sent_ok|exact Hb|by apply log_room_ok].
Qed.

Lemma service_run_sound w mvs w' : service_run w mvs = Some w' -> rtc (service_step cfg threshold a0) w w'.
Proof.
  revert w. induction mvs as [|mv mvs IH]; intros w H; cbn in H; [by injection H as <-|].
  apply bind_Some in H as (w1 & H1%service_move_sound & H). eapply rtc_l; [done|]. by apply IH.
Qed.
End runs.
