(* ===== verification/Transport.v ===== *)
(** The transports: crates/raft-tcp-transport/src/lib.rs (the task that sends
    to one peer, and the [Transport] methods) and the in-memory transport of
    crates/raft-test-utils/src/lib.rs. *)

From S2P Require Import Prelude Types RaftCore Codec Storage EventLoop.

(** ** The sender task of one peer

    One loop iteration at a time.  What the task cannot decide (which branch
    of [select!] is ready, whether a connect or a send succeeds, the time) is
    the iteration's input. *)
Definition MIN_BACKOFF : Z := 10.     (* milliseconds *)
Definition MAX_BACKOFF : Z := 100.
Definition CONNECT_TIMEOUT : Z := 10000.

Record Sender := mkSender {
  connected : bool;               (* stream.is_some() *)
  pending : option Message;
  backoff : Z;
  deadline : option Z;
  sent_frames : list Message;     (* messages sent on a stream without an error *)
  streams : list (list bytes);    (* the frames of each stream, the newest stream first *)
}.

#[export] Instance eta_Sender : Eta Sender := fun s =>
  mkSender (connected s) (pending s) (backoff s) (deadline s) (sent_frames s) (streams s).
#[export] Instance field_connected : Field connected := ltac:(solve_field).
#[export] Instance field_pending : Field pending := ltac:(solve_field).
#[export] Instance field_backoff : Field backoff := ltac:(solve_field).
#[export] Instance field_deadline : Field deadline := ltac:(solve_field).
#[export] Instance field_sent_frames : Field sent_frames := ltac:(solve_field).
#[export] Instance field_streams : Field streams := ltac:(solve_field).

Definition sender_init : Sender := mkSender false None MIN_BACKOFF None [] [].

(** The branch taken, with the time [now] at its end where the code asks. *)
Inductive Branch : Type :=
| RxMessage (m : Message)       (* rx.recv() returned a message *)
| RxClosed                      (* rx.recv() returned None *)
| Fired (connect : option Z)    (* sleep_until elapsed, then the connect *)
| PeerClosed                    (* s.next() returned: a FIN from the peer *)
| Waiting.                      (* nothing is ready yet *)

(** A connect that succeeds after so many milliseconds, under the timeout; it
    can also be refused. *)
Definition connects (connect : option Z) : bool :=
  match connect with Some ms => ms <=? CONNECT_TIMEOUT | None => false end.

(** A frame on the newest stream. *)
Definition write_frame (buf : bytes) (ss : list (list bytes)) : list (list bytes) :=
  match ss with [] => [] | s :: ss => (s ++ [buf]) :: ss end.

Record Iteration := mkIteration {
  it_now : Z;
  it_pending_ok : bool;         (* the send of the pending message succeeds *)
  it_branch : Branch;
  it_send_ok : bool;            (* the send of the received message succeeds *)
}.

Section sender.
Context `{Postcard Message}.

(** Serialize and send on the stream; a serialization failure drops the
    message, a send failure keeps it and drops the stream. *)
Definition send_frame (s : Sender) (m : Message) (ok : bool) : Sender :=
  match to_allocvec m with
  | None => s
  | Some buf =>
      if ok then s <| sent_frames := sent_frames s ++ [m] |> <| streams := write_frame buf (streams s) |>
      else s <| pending := Some m |> <| connected := false |>
  end.

(** Not connected: wait for a message or for the time to reconnect. *)
Definition disconnected_iteration (s : Sender) (it : Iteration) : option Sender :=
  let s := match deadline s with
           | None => s <| deadline := Some (it_now it + backoff s) |>
           | Some _ => s
           end in
  match it_branch it with
  | RxMessage m => Some (s <| pending := Some m |>)
  | RxClosed => None
  | Fired connect =>
      if connects connect then
        Some (s <| connected := true |> <| backoff := MIN_BACKOFF |> <| deadline := None |>
                <| streams := [] :: streams s |>)
      else
        let s := s <| backoff := Z.min (2 * backoff s) MAX_BACKOFF |> in
        Some (s <| deadline := Some (it_now it + backoff s) |>)
  | PeerClosed | Waiting => Some s      (* no FIN without a stream *)
  end.

(** Connected: first the pending message, then a new one or the peer's FIN. *)
Definition connected_iteration (s : Sender) (it : Iteration) : option Sender :=
  let '(s, again) :=
    match pending s with
    | None => (s, false)
    | Some m =>
        let s := s <| pending := None |> in
        match to_allocvec m with
        | None => (s, true)
        | Some _ => let s := send_frame s m (it_pending_ok it) in (s, negb (connected s))
        end
    end in
  if again : bool then Some s
  else
    match it_branch it with
    | RxMessage m => Some (send_frame s m (it_send_ok it))
    | RxClosed => None
    | PeerClosed => Some (s <| connected := false |>)
    | Fired _ | Waiting => Some s       (* no timer with a stream *)
    end.

(** [None]: the channel is closed and the task ends. *)
Definition sender_iteration (s : Sender) (it : Iteration) : option Sender :=
  if connected s then connected_iteration s it else disconnected_iteration s it.

Fixpoint sender_task (s : Sender) (its : list Iteration) : option Sender :=
  match its with
  | [] => Some s
  | it :: its => match sender_iteration s it with Some s => sender_task s its | None => None end
  end.

(** The message an iteration takes from the channel, if its branch runs. *)
Definition branch_runs (s : Sender) (it : Iteration) : bool :=
  if connected s then
    match pending s with
    | None => true
    | Some m => match to_allocvec m with None => false | Some _ => it_pending_ok it end
    end
  else true.

Definition received_message (s : Sender) (it : Iteration) : list Message :=
  if branch_runs s it then match it_branch it with RxMessage m => [m] | _ => [] end else [].

Fixpoint received_messages (s : Sender) (its : list Iteration) : list Message :=
  match its with
  | [] => []
  | it :: its =>
      received_message s it ++
      match sender_iteration s it with Some s => received_messages s its | None => [] end
  end.
End sender.

(** ** The transport handle *)
Record TcpTransport := mkTcpTransport {
  senders : gmap Z (list Message);     (* one unbounded channel per peer *)
  receiver_rx : list Message;
}.

(** [TcpTransport::new]: a sender for every node but this one, whose listener
    feeds [receiver_rx]. *)
Definition tcp_new (me : NodeId) (nodes : list NodeId) : TcpTransport :=
  mkTcpTransport (foldr (fun n m => if n =? me then m else <[n := []]> m) ∅ nodes) [].

Definition tcp_send (t : TcpTransport) (node : NodeId) (message : Message) : TcpTransport :=
  match senders t !! node with
  | None => t
  | Some queue => mkTcpTransport (<[node := queue ++ [message]]> (senders t)) (receiver_rx t)
  end.

Definition tcp_recv (t : TcpTransport) : option (Message * TcpTransport) :=
  match receiver_rx t with
  | [] => None
  | m :: rest => Some (m, mkTcpTransport (senders t) rest)
  end.

#[export] Instance tcp_transport : Transport TcpTransport := {| send := tcp_send; recv := tcp_recv |}.

(** ** The in-memory transport

    One queue per node, shared by all the handles; a full queue only delays
    the sender. *)
Record InMemoryTransport := mkInMemoryTransport {
  imt_node : NodeId;
  imt_queues : gmap Z (list Message);
}.

Definition build_in_memory_transport (nodes : list NodeId) : gmap Z InMemoryTransport :=
  let channels : gmap Z (list Message) := foldl (fun m node => <[node := []]> m) ∅ nodes in
  map_imap (fun node _ => Some (mkInMemoryTransport node channels)) channels.

Definition imt_send (t : InMemoryTransport) (node : NodeId) (message : Message) : InMemoryTransport :=
  match imt_queues t !! node with
  | Some queue => mkInMemoryTransport (imt_node t) (<[node := queue ++ [message]]> (imt_queues t))
  | None => t
  end.

Definition imt_recv (t : InMemoryTransport) : option (Message * InMemoryTransport) :=
  match imt_queues t !! imt_node t with
  | Some (m :: rest) => Some (m, mkInMemoryTransport (imt_node t) (<[imt_node t := rest]> (imt_queues t)))
  | _ => None
  end.

#[export] Instance in_memory_transport : Transport InMemoryTransport :=
  {| send := imt_send; recv := imt_recv |}.

(** ** The sender task delivers in order, keeps the newest, and backs off *)
Definition pending_list (s : Sender) : list Message :=
  match pending s with Some m => [m] | None => [] end.

(** Messages the task has taken and not lost. *)
Definition kept (s : Sender) : list Message := sent_frames s ++ pending_list s.

Definition backoff_ok (s : Sender) : Prop :=
  MIN_BACKOFF <= backoff s <= MAX_BACKOFF
  /\ (connected s = true -> backoff s = MIN_BACKOFF /\ deadline s = None).

Section sender_theorems.
Context `{Postcard Message}.

Lemma send_frame_Some s m ok b :
  to_allocvec m = Some b ->
  send_frame s m ok = if ok then s <| sent_frames := sent_frames s ++ [m] |>
                                   <| streams := write_frame b (streams s) |>
                      else s <| pending := Some m |> <| connected := false |>.
Proof. intros Hb. unfold send_frame. by rewrite Hb. Qed.

Lemma send_frame_kept s m ok :
  pending s = None -> kept (send_frame s m ok) `sublist_of` kept s ++ [m]
  /\ (is_Some (to_allocvec m) -> last (kept (send_frame s m ok)) = Some m).
Proof.
  intros Hp. unfold kept, send_frame, pending_list. destruct (to_allocvec m) as [b|].
  - destruct ok; cbn; rewrite Hp, ?app_nil_r; (split; [done|]); intros _; by rewrite last_snoc.
  - rewrite Hp, app_nil_r. split; [by apply sublist_inserts_r|by intros []].
Qed.

Lemma iteration_kept s it s' :
  sender_iteration s it = Some s' ->
  kept s' `sublist_of` kept s ++ received_message s it
  /\ ((forall m, is_Some (to_allocvec m)) ->
      last (kept s') = last (kept s ++ received_message s it)).
Proof.
  unfold sender_iteration, received_message, branch_runs. destruct (connected s) eqn:Hc.
  - unfold connected_iteration. destruct (pending s) as [m|] eqn:Hp.
    + assert (kept s = sent_frames s ++ [m]) as Hk by (unfold kept, pending_list; by rewrite Hp).
      destruct (to_allocvec m) as [b|] eqn:Hb.
      * rewrite (send_frame_Some _ _ _ b Hb). destruct (it_pending_ok it); cbn [negb connected modify
          field_pending field_sent_frames field_streams field_connected].
        -- set (s1 := s <| pending := None |> <| sent_frames := _ |> <| streams := _ |>).
           assert (pending s1 = None /\ kept s1 = kept s) as [Hp1 Hk1]
             by (split; [done|]; rewrite Hk; unfold kept, pending_list; cbn; by rewrite app_nil_r).
           change (connected s1) with (connected s). rewrite Hc. cbn [negb].
           destruct (it_branch it) as [m'| |ok| |]; intros [= <-]; rewrite ?app_nil_r.
           ++ rewrite <- Hk1. destruct (send_frame_kept s1 m' (it_send_ok it) Hp1) as [H1 H2].
              split; [done|]. intros Hall. by rewrite H2, last_snoc.
           ++ by rewrite Hk1.
           ++ unfold kept, pending_list in *. cbn in *. by rewrite Hk1.
           ++ by rewrite Hk1.
        -- intros [= <-]. rewrite app_nil_r. unfold kept, pending_list. cbn. by rewrite Hp.
      * intros [= <-]. rewrite app_nil_r, Hk. unfold kept, pending_list. cbn. rewrite app_nil_r. split.
        -- by apply sublist_inserts_r.
        -- intros Hall. destruct (Hall m). congruence.
    + destruct (it_branch it) as [m'| |ok| |]; intros [= <-]; rewrite ?app_nil_r.
      * destruct (send_frame_kept s m' (it_send_ok it) Hp) as [H1 H2].
        split; [done|]. intros Hall. by rewrite H2, last_snoc.
      * done.
      * done.
      * done.
  - unfold disconnected_iteration.
    set (s1 := match deadline s with None => _ | Some _ => _ end).
    assert (sent_frames s1 = sent_frames s /\ pending s1 = pending s) as [E1 E2]
      by (unfold s1; by destruct (deadline s)). clearbody s1.
    destruct (it_branch it) as [m'| |r| |]; [| |destruct (connects r)|..]; intros [= <-]; unfold kept, pending_list; cbn;
      rewrite ?E1, ?E2, ?app_nil_r; try done. split.
    + apply sublist_app; [|done]. by apply sublist_inserts_r.
    + intros _. by rewrite !last_snoc.
Qed.

Lemma sender_task_kept its : forall s s',
  sender_task s its = Some s' ->
  kept s' `sublist_of` kept s ++ received_messages s its
  /\ ((forall m, is_Some (to_allocvec m)) -> last (kept s') = last (kept s ++ received_messages s its)).
Proof.
  induction its as [|it its IH]; intros s s' H'; cbn in H' |- *.
  - injection H' as <-. by rewrite app_nil_r.
  - destruct (sender_iteration s it) as [s1|] eqn:Hit; [|done].
    destruct (iteration_kept _ _ _ Hit) as [Hs1 Hl1]. destruct (IH _ _ H') as [Hs Hl].
    rewrite app_assoc. split.
    + etrans; [exact Hs|]. by apply sublist_app.
    + intros Hall. rewrite (Hl Hall), !last_app. specialize (Hl1 Hall).
      rewrite last_app in Hl1. by rewrite Hl1.
Qed.

Lemma iteration_backoff s it s' :
  backoff_ok s -> sender_iteration s it = Some s' -> backoff_ok s'.
Proof.
  unfold backoff_ok, sender_iteration, MIN_BACKOFF, MAX_BACKOFF. intros [Hr Hc]. destruct (connected s) eqn:Hcs.
  - destruct (Hc eq_refl) as [Hb Hd]. unfold connected_iteration, send_frame. intros Hit.
    repeat case_match; simplify_eq; cbn in *; rewrite ?Hb, ?Hd; split; auto; lia.
  - unfold disconnected_iteration, MIN_BACKOFF, MAX_BACKOFF. intros Hit.
    destruct (deadline s) eqn:Hd; destruct (it_branch it) as [| |r| |]; try destruct (connects r); simplify_eq; cbn in *;
      split; try lia; try done; congruence.
Qed.

(** In order, at most once, newest kept.  The messages the task has sent,
    followed by the one it holds, form a subsequence of those it took from its
    channel; and if messages serialize, the newest one taken is the last one
    sent or the one held for the next connection, so a reconnect never loses
    it. *)
Theorem sender_delivers its s :
  sender_task sender_init its = Some s ->
  sent_frames s ++ pending_list s `sublist_of` received_messages sender_init its
  /\ ((forall m, is_Some (to_allocvec m)) ->
      last (sent_frames s ++ pending_list s) = last (received_messages sender_init its)).
Proof. apply (sender_task_kept its sender_init s). Qed.

(** C35: the backoff stays between its bounds, and is back at the minimum
    whenever the peer is connected. *)
Theorem sender_backoff its s :
  sender_task sender_init its = Some s ->
  MIN_BACKOFF <= backoff s <= MAX_BACKOFF
  /\ (connected s = true -> backoff s = MIN_BACKOFF /\ deadline s = None).
Proof.
  assert (forall s0, backoff_ok s0 -> sender_task s0 its = Some s -> backoff_ok s) as Hgen.
  { induction its as [|it its IH]; intros s0 Hok Ht; cbn in Ht; [by injection Ht as <-|].
    destruct (sender_iteration s0 it) as [s1|] eqn:Hit; [|done].
    eapply IH; [|exact Ht]. by eapply iteration_backoff. }
  apply Hgen. by vm_compute.
Qed.
End sender_theorems.
