(* ===== verification/ServiceTransports.v ===== *)
(** The two transports keep the promises that the service relies on. *)

From S2P Require Import Prelude Types RaftCore Codec Storage EventLoop Service Transport.

(** Everything queued, with its destination. *)
Definition queued (queues : gmap Z (list Message)) : list (NodeId * Message) :=
  map_to_list queues ≫= fun kv => pair kv.1 <$> kv.2.

Lemma queued_elem queues p m :
  (p, m) ∈ queued queues <-> exists q, queues !! p = Some q /\ m ∈ q.
Proof.
  unfold queued. rewrite list_elem_of_bind. split.
  - intros ([p' q] & Hm & Hq). apply list_elem_of_fmap in Hm as (m' & [= -> ->] & Hm).
    exists q. by rewrite <- elem_of_map_to_list.
  - intros (q & Hq & Hm). exists (p, q). rewrite elem_of_map_to_list. split; [|done].
    by apply list_elem_of_fmap_2.
Qed.

(** One more message in one queue. *)
Lemma queued_push queues p q m x :
  queues !! p = Some q -> x ∈ queued (<[p := q ++ [m]]> queues) -> x ∈ queued queues \/ x = (p, m).
Proof.
  destruct x as [p' m']. rewrite !queued_elem. intros Hq (q' & Hq' & Hm).
  apply lookup_insert_Some in Hq' as [[<- <-]|[Hne Hq']]; [|by left; exists q'].
  apply elem_of_app in Hm as [Hm|Hm%list_elem_of_singleton]; [left; by exists q|right; by subst m'].
Qed.

Lemma queued_pop queues p m q x :
  queues !! p = Some (m :: q) -> x ∈ queued (<[p := q]> queues) -> x ∈ queued queues.
Proof.
  destruct x as [p' m']. rewrite !queued_elem. intros Hq (q' & Hq' & Hm).
  apply lookup_insert_Some in Hq' as [[<- <-]|[Hne Hq']]; [|by exists q'].
  exists (m :: q). split; [done|]. by right.
Qed.

#[export] Program Instance tcp_laws : TransportLaws TcpTransport := {|
  inbox := receiver_rx;
  outbox t := queued (senders t);
  local _ := None;
|}.
Next Obligation.
  intros t m t' H. unfold recv in H. cbn in H. unfold tcp_recv in H.
  destruct (receiver_rx t) as [|m0 rest] eqn:Hq; [done|]. injection H as <- <-. cbn.
  split_and!; [left|by right|done|done].
Qed.
Next Obligation.
  intros t p m. unfold send. cbn. unfold tcp_send. destruct (senders t !! p) as [q|] eqn:Hq; cbn; [|auto].
  split_and!; [auto|intros x; by apply queued_push|done].
Qed.

#[export] Program Instance in_memory_laws : TransportLaws InMemoryTransport := {|
  inbox t := default [] (imt_queues t !! imt_node t);
  outbox t := queued (imt_queues t);
  local t := Some (imt_node t);
|}.
Next Obligation.
  intros t m t' H. unfold recv in H. cbn in H. unfold imt_recv in H.
  destruct (imt_queues t !! imt_node t) as [[|m0 rest]|] eqn:Hq; [done| |done]. injection H as <- <-. cbn.
  rewrite lookup_insert_eq, Hq. cbn. split_and!; [left|by right|intros x; by eapply queued_pop|done].
Qed.
Next Obligation.
  intros t p m. unfold send. cbn. unfold imt_send. destruct (imt_queues t !! p) as [q|] eqn:Hq; cbn; [|auto].
  split_and!; [|intros x; by apply queued_push|done]. intros x.
  destruct (decide (imt_node t = p)) as [<-|Hne]; [|rewrite lookup_insert_ne by done; by left].
  rewrite lookup_insert_eq, Hq. cbn. intros [Hx|Hx%list_elem_of_singleton]%elem_of_app; [by left|right; by subst x].
Qed.
