(* ===== verification/TcpNetwork.v ===== *)
(** The TCP transport with its tasks: crates/raft-tcp-transport/src/lib.rs.

    Every node has its handle, one sender task per peer, and a listener whose
    accepted connections are each read by a task of their own.  A connection is
    identified by the peer that opened it and by its number among that peer's
    streams to this node.  What tokio and the network decide (which task runs,
    which connects and sends fail, which frames arrive and when a stream ends,
    when a process dies and starts again) is the sequence of events; frames of
    one stream arrive in order. *)

From S2P Require Import Prelude Types RaftCore Codec Storage EventLoop Service Transport ServiceTransports.

#[local] Arguments reverse : simpl never.

(** ** State *)
Record Conn := mkConn {
  cn_arrived : list bytes;      (* frames that reached this side *)
  cn_read : nat;                (* how many of them the task has read *)
  cn_open : bool;
  cn_piped : list Message;      (* what it has put into the channel *)
}.

Definition new_conn : Conn := mkConn [] 0 true [].

Record TcpNode := mkTcpNode {
  tn_handle : TcpTransport;
  tn_tasks : gmap Z Sender;
  tn_conns : gmap (Z * nat) Conn;
}.

Abbreviation TcpNet := (gmap Z TcpNode).

(** [TcpTransport::new]: the handle, and the task spawned for each peer. *)
Definition tcp_start (nodes : list NodeId) (me : NodeId) : TcpNode :=
  mkTcpNode (tcp_new me nodes)
    (foldr (fun n m => if n =? me then m else <[n := sender_init]> m) ∅ nodes) ∅.

Definition net_start (nodes : list NodeId) : TcpNet :=
  list_to_map ((fun n => (n, tcp_start nodes n)) <$> nodes).

(** ** Steps *)

(** What a sender task's [select!] finds. *)
Inductive Ready : Type :=
| ReadyMessage                        (* a message in the channel *)
| ReadyTimer (connect : option Z)     (* the deadline, and how the connect ends *)
| ReadyFin
| NotReady.

Inductive NetEvent : Type :=
| NetSend (from to : NodeId) (m : Message)
| NetRecv (node : NodeId)
| NetTask (from to : NodeId) (now : Z) (pending_ok : bool) (ready : Ready) (send_ok : bool)
| NetAccept (node peer : NodeId) (k : nat)
| NetArrive (node peer : NodeId) (k : nat)
| NetRead (node peer : NodeId) (k : nat)
| NetEnd (node peer : NodeId) (k : nat)
| NetRestart (node : NodeId).

(** The process of a node dies and starts again: [TcpTransport::new] makes new
    channels and tasks, and the connections it had accepted are gone.  What its
    former tasks have written stays as their streams, and a new task's streams
    are numbered after them. *)
Definition restarted_task (s : Sender) : Sender :=
  sender_init <| sent_frames := sent_frames s |> <| streams := streams s |>.

Definition tcp_restart (N : TcpNode) : TcpNode :=
  mkTcpNode (mkTcpTransport ((fun _ => []) <$> senders (tn_handle N)) [])
    (restarted_task <$> tn_tasks N)
    ((fun c => mkConn (cn_arrived c) (cn_read c) false (cn_piped c)) <$> tn_conns N).

Section network.
Context `{Postcard Message}.

(** One iteration of a sender task on its channel. *)
Definition task_step (queue : list Message) (s : Sender) (now : Z) (pending_ok : bool) (ready : Ready)
    (send_ok : bool) : option (list Message * Sender) :=
  branch ← match ready, queue with
           | ReadyMessage, m :: _ => Some (RxMessage m)
           | ReadyMessage, [] => None
           | ReadyTimer connect, _ => Some (Fired connect)
           | ReadyFin, _ => Some PeerClosed
           | NotReady, _ => Some Waiting
           end;
  let it := mkIteration now pending_ok branch send_ok in
  s' ← sender_iteration s it;
  Some (drop (length (received_message s it)) queue, s').

(** A frame of a connection into the channel. *)
Definition pipe_frame (buf : bytes) : list Message :=
  match from_bytes buf with Some msg => [msg] | None => [] end.

(** The frames of the [k]-th stream of [from] to [to]. *)
Definition stream_of (net : TcpNet) (from to : NodeId) (k : nat) : option (list bytes) :=
  P ← net !! from; s ← tn_tasks P !! to; reverse (streams s) !! k.

Definition net_step (net : TcpNet) (ev : NetEvent) : option TcpNet :=
  match ev with
  | NetSend from to m =>
      P ← net !! from;
      Some (<[from := mkTcpNode (tcp_send (tn_handle P) to m) (tn_tasks P) (tn_conns P)]> net)
  | NetRecv node =>
      N ← net !! node;
      '(_, t) ← tcp_recv (tn_handle N);
      Some (<[node := mkTcpNode t (tn_tasks N) (tn_conns N)]> net)
  | NetTask from to now pending_ok ready send_ok =>
      P ← net !! from;
      queue ← senders (tn_handle P) !! to;
      s ← tn_tasks P !! to;
      '(queue, s) ← task_step queue s now pending_ok ready send_ok;
      Some (<[from := mkTcpNode (mkTcpTransport (<[to := queue]> (senders (tn_handle P))) (receiver_rx (tn_handle P)))
                        (<[to := s]> (tn_tasks P)) (tn_conns P)]> net)
  | NetAccept node peer k =>
      N ← net !! node;
      match tn_conns N !! (peer, k), stream_of net peer node k with
      | None, Some _ =>
          Some (<[node := mkTcpNode (tn_handle N) (tn_tasks N) (<[(peer, k) := new_conn]> (tn_conns N))]> net)
      | _, _ => None
      end
  | NetArrive node peer k =>
      N ← net !! node;
      c ← tn_conns N !! (peer, k);
      stream ← stream_of net peer node k;
      buf ← stream !! length (cn_arrived c);
      let c := mkConn (cn_arrived c ++ [buf]) (cn_read c) (cn_open c) (cn_piped c) in
      Some (<[node := mkTcpNode (tn_handle N) (tn_tasks N) (<[(peer, k) := c]> (tn_conns N))]> net)
  | NetRead node peer k =>
      N ← net !! node;
      c ← tn_conns N !! (peer, k);
      buf ← cn_arrived c !! cn_read c;
      if cn_open c then
        let c := mkConn (cn_arrived c) (S (cn_read c)) true (cn_piped c ++ pipe_frame buf) in
        let t := mkTcpTransport (senders (tn_handle N)) (receiver_rx (tn_handle N) ++ pipe_frame buf) in
        Some (<[node := mkTcpNode t (tn_tasks N) (<[(peer, k) := c]> (tn_conns N))]> net)
      else None
  | NetEnd node peer k =>
      N ← net !! node;
      c ← tn_conns N !! (peer, k);
      let c := mkConn (cn_arrived c) (cn_read c) false (cn_piped c) in
      Some (<[node := mkTcpNode (tn_handle N) (tn_tasks N) (<[(peer, k) := c]> (tn_conns N))]> net)
  | NetRestart node => N ← net !! node; Some (<[node := tcp_restart N]> net)
  end.

Fixpoint net_run (net : TcpNet) (evs : list NetEvent) : option TcpNet :=
  match evs with
  | [] => Some net
  | ev :: evs => net ← net_step net ev; net_run net evs
  end.
End network.

(** The messages handed to [from]'s transport for [to]. *)
Definition sends_to (from to : NodeId) (evs : list NetEvent) : list Message :=
  omap (fun ev => match ev with
                  | NetSend f t m => if decide (f = from /\ t = to) then Some m else None
                  | _ => None
                  end) evs.

(** ** The frames of a sender task *)
Section frames.
Context `{HP : Postcard Message} `{HPO : !Postcard_ok Message}.

(** What was written on the streams is what was sent; a connected task has a
    stream. *)
Definition frames_ok (s : Sender) : Prop :=
  mapM to_allocvec (sent_frames s) = Some (concat (reverse (streams s)))
  /\ (connected s = true -> streams s <> []).

(** Streams only grow, at the end. *)
Definition grown (ss ss' : list (list bytes)) : Prop :=
  forall k st, reverse ss !! k = Some st -> exists st', reverse ss' !! k = Some st' /\ st `prefix_of` st'.

Lemma grown_refl ss : grown ss ss.
Proof. intros k st Hk. by exists st. Qed.

Lemma grown_trans ss1 ss2 ss3 : grown ss1 ss2 -> grown ss2 ss3 -> grown ss1 ss3.
Proof.
  intros H1 H2 k st (st2 & Hk2 & Hp2)%H1. destruct (H2 k st2 Hk2) as (st3 & Hk3 & Hp3).
  exists st3. split; [done|by etrans].
Qed.

Lemma grown_cons ss st : grown ss (st :: ss).
Proof.
  intros k st' Hk. exists st'. split; [|done]. rewrite reverse_cons. by apply lookup_app_l_Some.
Qed.

Lemma grown_write buf ss : grown ss (write_frame buf ss).
Proof.
  destruct ss as [|s ss]; [apply grown_refl|]. intros k st. cbn. rewrite !reverse_cons.
  destruct (decide (k < length (reverse ss))%nat) as [Hlt|Hge].
  - rewrite !lookup_app_l by done. intros Hk. by exists st.
  - rewrite !lookup_app_r by lia. destruct (k - length (reverse ss))%nat as [|j]; [|by intros ?].
    intros [= <-]. cbn. eexists. split; [done|]. by apply prefix_app_r.
Qed.

Lemma mapM_snoc {X Y} (f : X -> option Y) l x ly y :
  mapM f l = Some ly -> f x = Some y -> mapM f (l ++ [x]) = Some (ly ++ [y]).
Proof. intros Hl Hx. rewrite mapM_Some in Hl |- *. apply Forall2_app; [done|]. by constructor. Qed.

Lemma send_frame_frames s m ok :
  frames_ok s -> connected s = true ->
  frames_ok (send_frame s m ok) /\ grown (streams s) (streams (send_frame s m ok)).
Proof.
  intros [Hm Hc] Hcon. unfold send_frame. destruct (to_allocvec m) as [buf|] eqn:Hb; [|by split; [|apply grown_refl]].
  destruct ok; cbn.
  - split; [|apply grown_write]. split; cbn; [|by destruct (streams s); [by destruct Hc|]].
    destruct (streams s) as [|st ss]; [by destruct (Hc Hcon)|]. cbn.
    rewrite reverse_cons, concat_app in Hm |- *. cbn in Hm |- *. rewrite app_nil_r in Hm |- *.
    rewrite (assoc _). by apply mapM_snoc.
  - split; [by split|apply grown_refl].
Qed.

Lemma iteration_frames s it s' :
  frames_ok s -> sender_iteration s it = Some s' -> frames_ok s' /\ grown (streams s) (streams s').
Proof.
  intros Hok. unfold sender_iteration. destruct (connected s) eqn:Hc.
  - unfold connected_iteration.
    set (p := match pending s with None => _ | Some _ => _ end).
    assert (frames_ok p.1 /\ grown (streams s) (streams p.1) /\ (p.2 = false -> connected p.1 = true)) as (H1 & H2 & H3).
    { unfold p. destruct (pending s) as [m|]; [|by split_and!; [|apply grown_refl|]].
      destruct (to_allocvec m) as [b|] eqn:Hb; [|split_and!; [done|apply grown_refl|done]].
      assert (frames_ok (s <| pending := None |>)) as Hok0 by exact Hok.
      destruct (send_frame_frames _ m (it_pending_ok it) Hok0 Hc) as [H1 H2].
      split; [exact H1|split; [exact H2|]]. by intros ?%negb_false_iff. }
    clearbody p. destruct p as [s1 again]. cbn in H1, H2, H3. destruct again; [by intros [= <-]|].
    specialize (H3 eq_refl). destruct (it_branch it) as [m| |r| |]; intros [= <-]; try done.
    + destruct (send_frame_frames s1 m (it_send_ok it) H1 H3) as [H4 H5].
      split; [done|by eapply grown_trans].
    + split; [|done]. split; cbn; [apply H1|done].
  - unfold disconnected_iteration. set (s1 := match deadline s with None => _ | Some _ => _ end).
    assert (frames_ok s1 /\ streams s1 = streams s /\ connected s1 = false) as (Hok1 & E1 & E2)
      by (unfold s1; by destruct (deadline s)). clearbody s1. rewrite <- E1.
    destruct (it_branch it) as [m| |r| |]; try done;
      try (intros [= <-]; split; [exact Hok1|apply grown_refl]).
    destruct (connects r); intros [= <-]; [|split; [exact Hok1|apply grown_refl]]. split; [|apply grown_cons].
    split; cbn; [|done]. destruct Hok1 as [Hm _]. by rewrite reverse_cons, concat_app, app_nil_r.
Qed.

Lemma mapM_decode l bufs :
  mapM to_allocvec l = Some bufs -> mapM (from_bytes (T := Message)) bufs = Some l.
Proof.
  rewrite !mapM_Some. intros Hf. apply Forall2_flip. eapply Forall2_impl; [exact Hf|].
  intros m b. apply postcard_round_trip.
Qed.
End frames.

(** ** The invariant of the network *)
Section invariant.
Context `{HP : Postcard Message} `{HPO : !Postcard_ok Message}.
Implicit Types (net : TcpNet) (evs : list NetEvent).

(** A connection holds a prefix of its stream, and has piped what it read. *)
Definition conn_ok (c : Conn) (stream : list bytes) : Prop :=
  cn_arrived c `prefix_of` stream /\ (cn_read c <= length (cn_arrived c))%nat
  /\ cn_piped c = take (cn_read c) (cn_arrived c) ≫= pipe_frame.

(** The task and the channel of [from] for [to]. *)
Definition task_ok evs (from to : NodeId) (queue : list Message) (s : Sender) : Prop :=
  frames_ok s /\ kept s ++ queue `sublist_of` sends_to from to evs.

Record node_ok evs net (n : NodeId) (N : TcpNode) : Prop := {
  no_tasks : forall p s, tn_tasks N !! p = Some s ->
    exists queue, senders (tn_handle N) !! p = Some queue /\ task_ok evs n p queue s;
  no_queues : forall p queue, senders (tn_handle N) !! p = Some queue -> is_Some (tn_tasks N !! p);
  no_conns : forall p k c, tn_conns N !! (p, k) = Some c ->
    exists stream, stream_of net p n k = Some stream /\ conn_ok c stream;
  no_rx : forall m, m ∈ receiver_rx (tn_handle N) ->
    exists p k c, tn_conns N !! (p, k) = Some c /\ m ∈ cn_piped c;
}.

Definition net_ok evs net : Prop := forall n N, net !! n = Some N -> node_ok evs net n N.

Lemma conn_ok_mono c st st' : conn_ok c st -> st `prefix_of` st' -> conn_ok c st'.
Proof. intros (H1 & H2 & H3) Hp. split_and!; [by etrans|done..]. Qed.

Lemma stream_of_mono net x X X' p n k st :
  net !! x = Some X ->
  (forall n s, tn_tasks X !! n = Some s -> exists s', tn_tasks X' !! n = Some s' /\ grown (streams s) (streams s')) ->
  stream_of net p n k = Some st ->
  exists st', stream_of (<[x := X']> net) p n k = Some st' /\ st `prefix_of` st'.
Proof.
  intros HX Hg. unfold stream_of. destruct (decide (p = x)) as [->|Hne].
  - rewrite lookup_insert_eq, HX. cbn. destruct (tn_tasks X !! n) as [s|] eqn:Hs; [|done]. cbn. intros Hk.
    destruct (Hg n s Hs) as (s' & -> & Hgr). by apply Hgr.
  - rewrite lookup_insert_ne by done. intros Hk. by exists st.
Qed.

Lemma sends_to_snoc from to evs ev :
  sends_to from to (evs ++ [ev]) = sends_to from to evs ++ sends_to from to [ev].
Proof. apply omap_app. Qed.

Lemma task_ok_snoc evs ev from to queue s : task_ok evs from to queue s -> task_ok (evs ++ [ev]) from to queue s.
Proof. intros [H1 H2]. split; [done|]. rewrite sends_to_snoc. by apply sublist_inserts_r. Qed.

(** One node changed, its tasks only forward. *)
Lemma net_update evs net ev x X X' :
  net_ok evs net -> net !! x = Some X ->
  (forall n s, tn_tasks X !! n = Some s -> exists s', tn_tasks X' !! n = Some s' /\ grown (streams s) (streams s')) ->
  node_ok (evs ++ [ev]) net x X' -> net_ok (evs ++ [ev]) (<[x := X']> net).
Proof.
  intros Hok HX Hg HX' n N HN.
  assert (node_ok (evs ++ [ev]) net n N) as [H1 H2 H3 H4].
  { apply lookup_insert_Some in HN as [[<- <-]|[_ HN]]; [done|].
    destruct (Hok n N HN) as [H1 H2 H3 H4]. split; [|done..]. intros p s (queue & Hq & Ht)%H1.
    exists queue. split; [done|by apply task_ok_snoc]. }
  split; [done..| |done]. intros p k c (st & Hst & Hc)%H3.
  destruct (stream_of_mono _ _ _ _ _ _ _ _ HX Hg Hst) as (st' & Hst' & Hp).
  exists st'. split; [done|by eapply conn_ok_mono].
Qed.

Lemma same_tasks (X X' : TcpNode) : tn_tasks X' = tn_tasks X ->
  forall n s, tn_tasks X !! n = Some s -> exists s', tn_tasks X' !! n = Some s' /\ grown (streams s) (streams s').
Proof. intros -> n s Hs. exists s. split; [done|apply grown_refl]. Qed.

Lemma task_step_ok evs from to queue s now pok ready sok queue' s' :
  task_ok evs from to queue s -> task_step queue s now pok ready sok = Some (queue', s') ->
  task_ok evs from to queue' s' /\ grown (streams s) (streams s').
Proof.
  intros [Hf Hs]. unfold task_step.
  assert (forall b, (forall m, b = RxMessage m -> exists rest, queue = m :: rest) ->
    (s0 ← sender_iteration s (mkIteration now pok b sok);
     Some (drop (length (received_message s (mkIteration now pok b sok))) queue, s0)) = Some (queue', s') ->
    task_ok evs from to queue' s' /\ grown (streams s) (streams s')) as Hgen.
  { intros b Hb H. set (it := mkIteration now pok b sok) in *.
    destruct (sender_iteration s it) as [s1|] eqn:Hit; [|done]. injection H as <- <-.
    destruct (iteration_frames _ _ _ Hf Hit) as [Hf' Hg]. split; [|done]. split; [done|].
    destruct (iteration_kept _ _ _ Hit) as [Hk _].
    assert (queue = received_message s it ++ drop (length (received_message s it)) queue) as Hq.
    { unfold received_message. destruct (branch_runs s it); [|done]. unfold it. cbn.
      destruct b as [m| | | |]; try done. by destruct (Hb m eq_refl) as [rest ->]. }
    etrans; [|exact Hs]. rewrite Hq at 2. rewrite (assoc _). by apply sublist_app. }
  destruct ready as [|r| |]; cbn; [destruct queue as [|m rest]; [done|]|..]; apply Hgen; try done.
  intros m' [= <-]. by exists rest.
Qed.

(** ** Each event *)
Lemma send_ok evs net from to m P :
  net_ok evs net -> net !! from = Some P ->
  node_ok (evs ++ [NetSend from to m]) net from
    (mkTcpNode (tcp_send (tn_handle P) to m) (tn_tasks P) (tn_conns P)).
Proof.
  intros Hok HP'. destruct (Hok from P HP') as [H1 H2 H3 H4]. unfold tcp_send.
  destruct (senders (tn_handle P) !! to) as [queue|] eqn:Hq; split; cbn; try done.
  - intros p s Hs. destruct (H1 p s Hs) as (q & Hq' & Hf & Hk). destruct (decide (p = to)) as [->|Hne].
    + rewrite lookup_insert_eq. exists (queue ++ [m]). split; [done|]. split; [done|].
      simplify_eq. rewrite sends_to_snoc, (assoc _). apply sublist_app; [done|]. cbn. by rewrite decide_True.
    + rewrite lookup_insert_ne by done. exists q. split; [done|]. by apply task_ok_snoc.
  - intros p q. destruct (decide (p = to)) as [->|Hne]; [intros _; by eapply H2|].
    rewrite lookup_insert_ne by done. apply H2.
  - intros p s (q & Hq' & Ht)%H1. exists q. split; [done|]. by apply task_ok_snoc.
Qed.

(** A node whose handle received more, or less, and whose connections changed. *)
Lemma listener_ok evs net ev n N rx conns :
  net_ok evs net -> net !! n = Some N ->
  (forall p k c, conns !! (p, k) = Some c ->
     tn_conns N !! (p, k) = Some c \/ exists stream, stream_of net p n k = Some stream /\ conn_ok c stream) ->
  (forall m, m ∈ rx -> exists p k c, conns !! (p, k) = Some c /\ m ∈ cn_piped c) ->
  node_ok (evs ++ [ev]) net n (mkTcpNode (mkTcpTransport (senders (tn_handle N)) rx) (tn_tasks N) conns).
Proof.
  intros Hok HN Hc Hrx. destruct (Hok n N HN) as [H1 H2 H3 H4]. split; cbn; try done.
  - intros p s (q & Hq' & Ht)%H1. exists q. split; [done|]. by apply task_ok_snoc.
  - intros p k c [Hold|Hnew]%Hc; [by apply H3|done].
Qed.

(** One connection replaced by one that has piped at least as much. *)
Lemma conn_update evs net ev n N p k c c' more :
  net_ok evs net -> net !! n = Some N -> tn_conns N !! (p, k) = c ->
  (exists stream, stream_of net p n k = Some stream /\ conn_ok c' stream) ->
  cn_piped c' = default [] (cn_piped <$> c) ++ more ->
  node_ok (evs ++ [ev]) net n (mkTcpNode (mkTcpTransport (senders (tn_handle N)) (receiver_rx (tn_handle N) ++ more))
    (tn_tasks N) (<[(p, k) := c']> (tn_conns N))).
Proof.
  intros Hok HN Hc Hst Hp. apply listener_ok; [done..| |].
  - intros q j e [[[= <- <-] <-]|[_ He]]%lookup_insert_Some; [by right|by left].
  - intros m [Hm|Hm]%elem_of_app.
    + destruct (no_rx _ _ _ _ (Hok n N HN) m Hm) as (q & j & e & He & Hme).
      destruct (decide ((q, j) = (p, k))) as [[= -> ->]|Hne].
      * exists p, k, c'. rewrite lookup_insert_eq, Hp, <- Hc, He. split; [done|]. apply elem_of_app. by left.
      * exists q, j, e. by rewrite lookup_insert_ne.
    + exists p, k, c'. rewrite lookup_insert_eq, Hp. split; [done|]. apply elem_of_app. by right.
Qed.

Lemma handle_eta (t : TcpTransport) : mkTcpTransport (senders t) (receiver_rx t ++ []) = t.
Proof. rewrite app_nil_r. by destruct t. Qed.

Lemma arrive_ok c stream buf :
  stream !! length (cn_arrived c) = Some buf -> conn_ok c stream ->
  conn_ok (mkConn (cn_arrived c ++ [buf]) (cn_read c) (cn_open c) (cn_piped c)) stream.
Proof.
  intros Hb ([rest ->] & Hr & Hp). rewrite lookup_app_r, Nat.sub_diag in Hb by done.
  destruct rest as [|b rest]; [done|]. injection Hb as ->. split_and!; cbn.
  - exists rest. by rewrite <- (assoc _).
  - rewrite length_app. lia.
  - by rewrite take_app_le.
Qed.

Lemma read_ok c stream buf :
  cn_arrived c !! cn_read c = Some buf -> conn_ok c stream ->
  conn_ok (mkConn (cn_arrived c) (S (cn_read c)) true (cn_piped c ++ pipe_frame buf)) stream.
Proof.
  intros Hb (Ha & Hr & Hp). apply lookup_lt_Some in Hb as Hlt. split_and!; cbn; [done|lia|].
  rewrite (take_S_r _ _ _ Hb), bind_app, Hp. cbn. by rewrite app_nil_r.
Qed.

Lemma task_event_ok evs net ev from to P queue s now pok ready sok queue' s' :
  net_ok evs net -> net !! from = Some P -> senders (tn_handle P) !! to = Some queue ->
  tn_tasks P !! to = Some s -> task_step queue s now pok ready sok = Some (queue', s') ->
  net_ok (evs ++ [ev]) (<[from := mkTcpNode
    (mkTcpTransport (<[to := queue']> (senders (tn_handle P))) (receiver_rx (tn_handle P)))
    (<[to := s']> (tn_tasks P)) (tn_conns P)]> net).
Proof.
  intros Hok HP' Hq Hs Ht. destruct (Hok from P HP') as [H1 H2 H3 H4].
  destruct (H1 to s Hs) as (q & Hq' & Hto). rewrite Hq in Hq'. injection Hq' as <-.
  destruct (task_step_ok _ _ _ _ _ _ _ _ _ _ _ Hto Ht) as [Hto' Hg]. eapply net_update; [done..| |].
  - intros n s0 Hs0. cbn. destruct (decide (n = to)) as [->|Hne].
    + rewrite lookup_insert_eq. exists s'. split; [done|]. by simplify_eq.
    + rewrite lookup_insert_ne by done. exists s0. split; [done|apply grown_refl].
  - split; cbn; try done.
    + intros p s0 [[<- <-]|[Hne Hs0]]%lookup_insert_Some.
      * exists queue'. rewrite lookup_insert_eq. split; [done|by apply task_ok_snoc].
      * destruct (H1 p s0 Hs0) as (q & Hq0 & Ht0). exists q. rewrite lookup_insert_ne by done.
        split; [done|by apply task_ok_snoc].
    + intros p q [[<- <-]|[Hne Hq0]]%lookup_insert_Some; [by rewrite lookup_insert_eq|].
      rewrite lookup_insert_ne by done. by eapply H2.
Qed.

Lemma restart_ok evs net ev n N :
  net_ok evs net -> net !! n = Some N -> node_ok (evs ++ [ev]) net n (tcp_restart N).
Proof.
  intros Hok HN. destruct (Hok n N HN) as [H1 H2 H3 H4]. split; cbn.
  - intros p s (s0 & <- & Hs)%lookup_fmap_Some. destruct (H1 p s0 Hs) as (q & Hq & [Hf _] & Hk).
    exists []. rewrite lookup_fmap, Hq. split; [done|]. apply task_ok_snoc. split; [by split|].
    unfold kept in *. cbn. rewrite !app_nil_r. etrans; [|exact Hk]. do 2 apply sublist_inserts_r. done.
  - intros p q. rewrite !lookup_fmap. destruct (senders (tn_handle N) !! p) as [q0|] eqn:Hq; [|done].
    intros _. destruct (H2 p q0 Hq) as [s ->]. by eexists.
  - intros p k c (c0 & <- & Hc)%lookup_fmap_Some. exact (H3 p k c0 Hc).
  - by intros m ?%not_elem_of_nil.
Qed.

Lemma net_step_ok evs net ev net' : net_ok evs net -> net_step net ev = Some net' -> net_ok (evs ++ [ev]) net'.
Proof.
  intros Hok H. destruct ev as [from to m|n|from to now pok ready sok|n p k|n p k|n p k|n p k|n]; cbn in H.
  - apply bind_Some in H as (P & HP' & [= <-]). eapply net_update; [done..|by apply same_tasks|by apply send_ok].
  - apply bind_Some in H as (N & HN & H). apply bind_Some in H as ([m t] & Hr & [= <-]).
    eapply net_update; [done..|by apply same_tasks|]. unfold tcp_recv in Hr.
    destruct (receiver_rx (tn_handle N)) as [|m0 rest] eqn:Hrx; [done|]. injection Hr as -> <-.
    apply listener_ok; [done..|by left|]. intros m' Hm'. apply (no_rx _ _ _ _ (Hok n N HN)). rewrite Hrx. by right.
  - apply bind_Some in H as (P & HP' & H). apply bind_Some in H as (queue & Hq & H).
    apply bind_Some in H as (s & Hs & H). apply bind_Some in H as ([queue' s'] & Ht & [= <-]).
    by eapply task_event_ok.
  - apply bind_Some in H as (N & HN & H). destruct (tn_conns N !! (p, k)) as [c|] eqn:Hc; [done|].
    destruct (stream_of net p n k) as [st|] eqn:Hst; [|done]. injection H as <-.
    eapply net_update; [done..|by apply same_tasks|]. rewrite <- (handle_eta (tn_handle N)).
    eapply conn_update; [done..| |done]. exists st. split; [done|]. split_and!; [apply prefix_nil|cbn; lia|done].
  - apply bind_Some in H as (N & HN & H). apply bind_Some in H as (c & Hc & H).
    apply bind_Some in H as (st & Hst & H). apply bind_Some in H as (buf & Hb & [= <-]).
    destruct (no_conns _ _ _ _ (Hok n N HN) p k c Hc) as (st' & Hst' & Hcok). simplify_eq.
    eapply net_update; [done..|by apply same_tasks|]. rewrite <- (handle_eta (tn_handle N)).
    eapply conn_update; [done..| |by rewrite app_nil_r]. exists st. split; [done|by apply arrive_ok].
  - apply bind_Some in H as (N & HN & H). apply bind_Some in H as (c & Hc & H).
    apply bind_Some in H as (buf & Hb & H). destruct (cn_open c); [|done]. injection H as <-.
    destruct (no_conns _ _ _ _ (Hok n N HN) p k c Hc) as (st & Hst & Hcok).
    eapply net_update; [done..|by apply same_tasks|].
    eapply conn_update; [done..| |done]. exists st. split; [done|by apply read_ok].
  - apply bind_Some in H as (N & HN & H). apply bind_Some in H as (c & Hc & [= <-]).
    destruct (no_conns _ _ _ _ (Hok n N HN) p k c Hc) as (st & Hst & Hcok).
    eapply net_update; [done..|by apply same_tasks|]. rewrite <- (handle_eta (tn_handle N)).
    eapply conn_update; [done..| |by rewrite app_nil_r]. exists st. split; [done|exact Hcok].
  - apply bind_Some in H as (N & HN & [= <-]). eapply net_update; [done..| |by apply restart_ok].
    intros p s Hs. cbn. rewrite lookup_fmap, Hs. eexists. split; [done|apply grown_refl].
Qed.

Lemma peer_channels {X} (x : X) me nodes n y :
  foldr (fun n (m : gmap Z X) => if n =? me then m else <[n := x]> m) ∅ nodes !! n = Some y ->
  y = x /\ n ∈ nodes /\ n <> me.
Proof.
  induction nodes as [|p nodes IH]; cbn; [done|]. destruct (Z.eqb_spec p me) as [->|Hne].
  - intros (-> & ? & ?)%IH. split_and!; [done|by right|done].
  - intros [[-> <-]|[_ (-> & ? & ?)%IH]]%lookup_insert_Some; split_and!; try done; [left|by right].
Qed.

Lemma peer_channel {X} (x : X) me nodes n :
  n ∈ nodes -> n <> me ->
  foldr (fun n (m : gmap Z X) => if n =? me then m else <[n := x]> m) ∅ nodes !! n = Some x.
Proof.
  induction nodes as [|p nodes IH]; cbn; [by intros ?%not_elem_of_nil|]. intros Hn Hne.
  destruct (decide (p = n)) as [->|Hpn].
  - destruct (Z.eqb_spec n me); [done|]. by rewrite lookup_insert_eq.
  - apply elem_of_cons in Hn as [->|Hn]; [done|]. destruct (Z.eqb_spec p me); [by apply IH|].
    rewrite lookup_insert_ne by done. by apply IH.
Qed.

Lemma net_start_ok nodes : net_ok [] (net_start nodes).
Proof.
  intros n N HN. apply elem_of_list_to_map_2, list_elem_of_fmap in HN as (n' & [= -> ->] & Hn).
  split; cbn; try done.
  - intros p s (-> & Hp & Hne)%peer_channels. exists []. split; [by apply peer_channel|].
    split; [split; [done|]; by intros ?|]. done.
  - intros p q (_ & Hp & Hne)%peer_channels. by rewrite peer_channel.
  - intros m ?%not_elem_of_nil. done.
Qed.

Lemma net_run_ok evs : forall done_evs net net',
  net_ok done_evs net -> net_run net evs = Some net' -> net_ok (done_evs ++ evs) net'.
Proof.
  induction evs as [|ev evs IH]; intros done_evs net net' Hok H; cbn in H.
  - injection H as <-. by rewrite app_nil_r.
  - apply bind_Some in H as (net1 & H1 & H). change (ev :: evs) with ([ev] ++ evs). rewrite (assoc _).
    eapply IH; [|exact H]. by eapply net_step_ok.
Qed.

(** ** Decoding *)
Lemma mapM_concat {X Y} (f : X -> option Y) (l : list (list X)) ys k x :
  mapM f (concat l) = Some ys -> l !! k = Some x ->
  exists zs, mapM f x = Some zs /\ forall z, z ∈ zs -> z ∈ ys.
Proof.
  intros H Hk. rewrite <- (take_drop_middle _ _ _ Hk), concat_app in H. cbn in H.
  apply mapM_Some in H. apply Forall2_app_inv_l in H as (y1 & y2 & _ & H & ->).
  apply Forall2_app_inv_l in H as (zs & y3 & H & _ & ->). exists zs. rewrite mapM_Some. split; [done|].
  set_solver.
Qed.

Lemma pipe_frames_decoded stream msgs r :
  mapM from_bytes stream = Some msgs -> take r stream ≫= pipe_frame = take r msgs.
Proof.
  intros H%mapM_Some. revert r. induction H as [|b m stream msgs Hb _ IH]; intros [|r]; try done.
  cbn. unfold pipe_frame at 1. rewrite Hb. cbn. by rewrite IH.
Qed.

(** A connection of a reachable network and the task at its other end. *)
Lemma conn_task evs net n N p k c :
  net_ok evs net -> net !! n = Some N -> tn_conns N !! (p, k) = Some c ->
  exists P s queue stream msgs, net !! p = Some P /\ tn_tasks P !! n = Some s
    /\ senders (tn_handle P) !! n = Some queue
    /\ reverse (streams s) !! k = Some stream /\ mapM from_bytes stream = Some msgs
    /\ (forall m, m ∈ msgs -> m ∈ sent_frames s)
    /\ mapM from_bytes (concat (reverse (streams s))) = Some (sent_frames s)
    /\ cn_piped c = take (cn_read c) msgs
    /\ kept s ++ queue `sublist_of` sends_to p n evs.
Proof.
  intros Hok HN Hc. destruct (no_conns _ _ _ _ (Hok n N HN) p k c Hc) as (st & Hst & Ha & Hr & Hp).
  unfold stream_of in Hst. apply bind_Some in Hst as (P & HP' & Hst). apply bind_Some in Hst as (s & Hs & Hst).
  destruct (no_tasks _ _ _ _ (Hok p P HP') n s Hs) as (queue & Hq & [Hf _] & Hk).
  apply mapM_decode in Hf. destruct (mapM_concat _ _ _ _ _ Hf Hst) as (msgs & Hm & Hsub).
  exists P, s, queue, st, msgs. split_and!; try done. rewrite Hp, <- (pipe_frames_decoded _ _ _ Hm).
  f_equal. destruct Ha as [rest ->]. by rewrite take_app_le.
Qed.

(** ** Theorems *)

(** C27: a connection is a faithful channel.  In every run of the transports
    with all their tasks, also when processes restart, a connection has piped, in order and each once, the
    first messages of those its stream carries, all of them once it has read
    the whole stream; and the streams of a sender task carry, one after the
    other, a subsequence of what was handed to [send] for that peer, followed
    by the pending message and the channel's content. *)
Theorem tcp_in_order nodes evs net n N p k c :
  net_run (net_start nodes) evs = Some net -> net !! n = Some N -> tn_conns N !! (p, k) = Some c ->
  exists P s queue stream msgs, net !! p = Some P /\ tn_tasks P !! n = Some s
    /\ senders (tn_handle P) !! n = Some queue
    /\ reverse (streams s) !! k = Some stream /\ mapM from_bytes stream = Some msgs
    /\ cn_piped c `prefix_of` msgs /\ (cn_read c = length stream -> cn_piped c = msgs)
    /\ mapM from_bytes (concat (reverse (streams s))) = Some (sent_frames s)
    /\ sent_frames s ++ pending_list s ++ queue `sublist_of` sends_to p n evs.
Proof.
  intros Hrun HN Hc. pose proof (net_run_ok _ _ _ _ (net_start_ok nodes) Hrun) as Hok.
  destruct (conn_task _ _ _ _ _ _ _ Hok HN Hc) as (P & s & q & st & ms & H1 & H2 & H3 & H4 & H5 & _ & H6 & H7 & H8).
  exists P, s, q, st, ms. unfold kept in H8. rewrite <- (assoc _) in H8. split_and!; try done.
  - rewrite H7. apply prefix_take.
  - intros Hl. rewrite H7, take_ge; [done|]. apply length_mapM in H5. lia.
Qed.

(** Everything handed to a transport, with its destination. *)
Definition wire_of (evs : list NetEvent) : list (NodeId * Message) :=
  omap (fun ev => match ev with NetSend _ to m => Some (to, m) | _ => None end) evs.

Lemma sends_wire p n evs m : m ∈ sends_to p n evs -> (n, m) ∈ wire_of evs.
Proof.
  unfold sends_to, wire_of. rewrite !list_elem_of_omap. intros (ev & Hin & Hev).
  exists ev. split; [done|]. destruct ev; try done. case_decide as Hd; [|done]. destruct Hd as [_ ->].
  by injection Hev as ->.
Qed.

(** C28: the TCP transport invents and misdirects nothing.  In every run of the
    transports with all their tasks, with failing connects and sends and with
    processes that restart, the handle of a node holds only messages that were
    handed to some transport: to be received, only those addressed to this node,
    and to be sent, only to where they were addressed.  This is what the service
    asks of its network ([from_wire]); that responses arrive as [guarded] says
    is not given by the transport. *)
Theorem tcp_from_wire nodes evs net n N :
  net_run (net_start nodes) evs = Some net -> net !! n = Some N ->
  from_wire n (wire_of evs) (tn_handle N).
Proof.
  intros Hrun HN. pose proof (net_run_ok _ _ _ _ (net_start_ok nodes) Hrun) as Hok. cbn in Hok.
  pose proof (Hok n N HN) as HNok. split_and!; [| |done].
  - intros m (p & k & c & Hc & Hm)%(no_rx _ _ _ _ HNok). apply (sends_wire p).
    destruct (conn_task _ _ _ _ _ _ _ Hok HN Hc) as (P & s & q & st & ms & _ & _ & _ & _ & _ & Hin & _ & Hp & Hsub).
    rewrite Hp in Hm. apply elem_of_prefix with (l2 := ms) in Hm; [|apply prefix_take].
    eapply elem_of_sublist; [|exact Hsub]. apply Hin in Hm. unfold kept. set_solver.
  - intros [p m] (queue & Hq & Hm)%queued_elem. destruct (no_queues _ _ _ _ HNok p queue Hq) as [s Hs].
    destruct (no_tasks _ _ _ _ HNok p s Hs) as (q & Hq' & _ & Hsub). rewrite Hq in Hq'. injection Hq' as <-.
    apply (sends_wire n). eapply elem_of_sublist; [|exact Hsub]. set_solver.
Qed.
End invariant.
