(* ===== verification/Kv.v ===== *)
(** The key-value service: crates/raft-kv/src/main.rs.  The configuration, the
    error mapping, the handlers up to the HTTP framework, and the task that
    applies committed entries to the store. *)

From S2P Require Import Prelude Types RaftCore Codec Storage EventLoop.
From Stdlib Require Import Strings.Ascii.

(** ** Strings *)

(** [s.rsplit_once(c)]: what is before and after the last [c]. *)
Fixpoint rsplit_once (c : ascii) (s : string) : option (string * string) :=
  match s with
  | EmptyString => None
  | String a r =>
      match rsplit_once c r with
      | Some (before, after) => Some (String a before, after)
      | None => if Ascii.eqb a c then Some (EmptyString, r) else None
      end
  end.

Definition digit (a : ascii) : option Z :=
  let n := Z.of_N (N_of_ascii a) in
  if (48 <=? n) && (n <=? 57) then Some (n - 48) else None.

(** The digits of a number below [max]; any other character, and an overflow,
    is an error. *)
Fixpoint parse_digits (max acc : Z) (s : string) : option Z :=
  match s with
  | EmptyString => Some acc
  | String a r =>
      v ← digit a;
      if acc * 10 + v <? max then parse_digits max (acc * 10 + v) r else None
  end.

(** [str::parse::<u64>] and [str::parse::<u16>]: an optional plus sign and at
    least one digit. *)
Definition parse_uint (max : Z) (s : string) : option Z :=
  match s with
  | EmptyString => None
  | String a r =>
      if Ascii.eqb a "+" then
        match r with EmptyString => None | _ => parse_digits max 0 r end
      else parse_digits max 0 s
  end.

(** ** Configuration *)

(** A result with an error text: [inl] is [Ok]. *)
Definition id_from_hostname (hostname : string) : NodeId + string :=
  match rsplit_once "-" hostname with
  | None => inr ("Hostname " +:+ hostname +:+ " has no final '-' with ID number")%string
  | Some (_, num) =>
      match parse_uint U64 num with
      | None => inr ("Invalid number for hostname: " +:+ num)%string
      | Some n =>
          if n + 1 <? U64 then inl (n + 1)
          else inr (pretty n +:+ " is not a valid number (try using something < 2^64)")%string
      end
  end.

Record Args := mkArgs {
  arg_nodes : list string;
  arg_http_nodes : option (list string);
  arg_id : option NodeId;
  arg_derive_id : bool;
  arg_http_port : Z;
  arg_bind_port : Z;
}.

(** [hostname] is the environment's HOSTNAME; other combinations of the two
    arguments are [unreachable!]. *)
Definition resolve_id (args : Args) (hostname : option string) : exec (NodeId + string) :=
  match arg_id args, arg_derive_id args with
  | Some i, false => Done (inl i)
  | None, true =>
      match hostname with
      | None => Done (inr "Attempted to derive node ID but HOSTNAME variable not set."%string)
      | Some h => Done (id_from_hostname h)
      end
  | _, _ => Panic
  end.

(** [enumerate()] with the 1-based ids of the nodes. *)
Definition numbered {B} (l : list B) : list (Z * B) := imap (fun k x => (Z.of_nat k + 1, x)) l.

Definition http_addrs (args : Args) : exec (gmap Z string) :=
  match arg_http_nodes args with
  | Some http_nodes => Done (list_to_map (numbered http_nodes))
  | None =>
      addrs ← mapM (fun s => '(ip, _) ← unwrap (rsplit_once ":" s);
                             Done (ip +:+ ":" +:+ pretty (arg_http_port args))%string)
                (arg_nodes args);
      Done (list_to_map (numbered addrs))
  end.

(** [build_config], without the storage and the transport it opens. *)
Definition build_config {T S} (node_id : NodeId) (args : Args) (t : T) (s : S) : RaftConfig T S :=
  {| rc_id := node_id;
     rc_nodes := (numbered (arg_nodes args)).*1;
     rc_heartbeat_interval := None;
     rc_election_range := (15, 31);
     rc_snapshot_threshold := 1024;
     rc_transport := t;
     rc_storage := s |}.

(** The checks of [main] up to the configuration; every [panic!] ends the
    program.  The last component is the mismatch warning. *)
Definition main_config (args : Args) (hostname : option string)
    : exec (NodeId * gmap Z string * bool) :=
  _ ← (match arg_http_nodes args with
       | Some http => if bool_decide (length http <> length (arg_nodes args)) then Panic else Done tt
       | None => Done tt
       end);
  addrs ← http_addrs args;
  r ← resolve_id args hostname;
  node_id ← (match r with inl i => Done i | inr _ => Panic end);
  if (node_id =? 0) || (len (arg_nodes args) <? node_id) then Panic
  else
    addr ← vec_index (arg_nodes args) (node_id - 1);
    '(_, advertised_port) ← unwrap (rsplit_once ":" addr);
    port ← unwrap (parse_uint 65536 advertised_port);
    Done (node_id, addrs, negb (port =? arg_bind_port args)).

(** ** Errors *)
Inductive KvError : Type :=
| Redirect (url : string)
| NoLeader
| Uncertain
| Internal.

(** Status code and headers. *)
Definition into_response (e : KvError) : Z * list (string * string) :=
  match e with
  | Redirect url => (307, [("location"%string, url)])
  | NoLeader | Uncertain => (503, [("retry-after"%string, "1"%string)])
  | Internal => (500, [])
  end.

(** ** Requests and responses *)
Record SetRequest := mkSetRequest { set_key : string; set_value : string }.
Record SetResponse := mkSetResponse { set_success : bool }.
Record GetResponse := mkGetResponse { get_value : option string }.
Record DeleteResponse := mkDeleteResponse { delete_success : bool }.

(** The status code of the health check. *)
Definition health : Z := 200.

(** ** Commands *)
Inductive KvCommand : Type :=
| Get (key : string)
| Set_ (key value : string)
| Delete (key : string).

Abbreviation Store := (gmap string string).

(** ** The state of the HTTP server, as one request sees it

    [as_propose] and [as_read] are the answers of the Raft node to the request's
    proposal or read; [as_store] is what the lock protects, [None] when a writer
    has panicked while it held it.  [ServiceKv.request_state] takes them from a
    driver and from the apply task. *)
Record AppState := mkAppState {
  as_propose : bytes -> Reply;
  as_read : Reply;
  as_store : option Store;
  as_http_addrs : gmap Z string;
}.

Definition map_proposal_error (st : AppState) (err : ProposalError) (path : string) : KvError :=
  match err with
  | FollowerNode (Some leader) =>
      match as_http_addrs st !! leader with
      | Some addr => Redirect ("http://" +:+ addr +:+ path)%string
      | None => NoLeader
      end
  | FollowerNode None => NoLeader
  | LostLeadership => Uncertain
  | OtherError => Internal
  end.

Section kv.
Context `{Postcard KvCommand} `{Postcard Store}.

(** [state.node.propose(command)] and the mapping of its error. *)
Definition propose_command (st : AppState) (path : string) (command : bytes) : unit + KvError :=
  match as_propose st command with
  | Some e => inr (map_proposal_error st e path)
  | None => inl tt
  end.

Definition set_handler (st : AppState) (path : string) (body : SetRequest) : SetResponse + KvError :=
  match to_allocvec (Set_ (set_key body) (set_value body)) with
  | None => inr Internal
  | Some command =>
      match propose_command st path command with
      | inr e => inr e
      | inl _ => inl (mkSetResponse true)
      end
  end.

Definition delete_handler (st : AppState) (path key : string) : DeleteResponse + KvError :=
  match to_allocvec (Delete key) with
  | None => inr Internal
  | Some command =>
      match propose_command st path command with
      | inr e => inr e
      | inl _ => inl (mkDeleteResponse true)
      end
  end.

(** The read barrier, then the local store. *)
Definition get_handler (st : AppState) (path key : string) : GetResponse + KvError :=
  match as_read st with
  | Some e => inr (map_proposal_error st e path)
  | None =>
      match as_store st with
      | None => inr Internal
      | Some store => inl (mkGetResponse (store !! key))
      end
  end.

(** ** The routes

    A request as axum has parsed it: its method, the segments of its path, and
    its body, if it is the JSON of a [SetRequest].  [None]: axum answers by
    itself.  A GET route also serves HEAD, with the headers of the GET and no
    body. *)
Inductive Method : Type := GET | HEAD | POST | DELETE | OtherMethod.

Inductive Body : Type :=
| SetBody (r : SetResponse)
| GetBody (r : GetResponse)
| DeleteBody (r : DeleteResponse)
| NoBody.

(** The status code, the headers and the body. *)
Definition respond_with {R} (json : R -> Body) (r : R + KvError) : Z * list (string * string) * Body :=
  match r with
  | inl r => (200, [], json r)
  | inr e => (into_response e, NoBody)
  end.

Definition router (st : AppState) (method : Method) (path : string) (segments : list string)
    (body : option SetRequest) : option (Z * list (string * string) * Body) :=
  match method, segments with
  | POST, ["key"] => b ← body; Some (respond_with SetBody (set_handler st path b))
  | GET, ["key"; name] => Some (respond_with GetBody (get_handler st path name))
  | HEAD, ["key"; name] => Some ((respond_with GetBody (get_handler st path name)).1, NoBody)
  | DELETE, ["key"; name] => Some (respond_with DeleteBody (delete_handler st path name))
  | (GET | HEAD), ["healthz"] => Some (health, [], NoBody)
  | _, _ => None
  end%string.

(** ** The apply task *)
Definition apply_command (store : Store) (c : KvCommand) : Store :=
  match c with
  | Get _ => store
  | Set_ key value => <[key := value]> store
  | Delete key => delete key store
  end.

Definition kv_command (store : Store) (cmd : bytes) : Store :=
  match from_bytes cmd with
  | None => store
  | Some c => apply_command store c
  end.

Definition kv_snapshot (store : Store) (data : bytes) : exec Store := unwrap (from_bytes data).

Definition kv_snapshot_request (store : Store) : exec bytes := unwrap (to_allocvec store).

#[export] Instance kv_application : Application Store := {|
  on_command := kv_command;
  on_snapshot := kv_snapshot;
  on_snapshot_request := kv_snapshot_request;
|}.

(** One entry; the answer to a snapshot request leaves the store alone. *)
Definition apply_entry (store : Store) (e : AppliedEntry) : exec Store :=
  match e with
  | ACommand cmd => Done (kv_command store cmd)
  | ASnapshot data => kv_snapshot store data
  | ASnapshotRequest => _ ← kv_snapshot_request store; Done store
  end.

(** The task on the channel into which [sent] went so far: how many entries it
    has handled, and the store. *)
Inductive apply_task (sent : list AppliedEntry) : nat -> Store -> Prop :=
| task_new : apply_task sent 0 ∅
| task_next k store e store' :
    apply_task sent k store -> sent !! k = Some e -> apply_entry store e = Done store' ->
    apply_task sent (S k) store'.
End kv.
