(* ===== verification/KvTheorems.v ===== *)
(** The key-value service: node ids and addresses agree across the cluster,
    and the store is the replay of the committed commands. *)

From S2P Require Import Prelude Types RaftCore Codec Storage EventLoop Kv.
From Stdlib Require Import Strings.Ascii DecimalString DecimalNat.

(** ** Splitting *)
Fixpoint occurs (c : ascii) (s : string) : bool :=
  match s with EmptyString => false | String a r => Ascii.eqb a c || occurs c r end.

Lemma rsplit_once_none c s : rsplit_once c s = None <-> occurs c s = false.
Proof.
  induction s as [|a r IH]; cbn; [done|].
  destruct (rsplit_once c r) as [[x y]|]; [|destruct (Ascii.eqb a c)]; destruct (occurs c r);
    rewrite ?orb_true_r; cbn; naive_solver.
Qed.

Lemma rsplit_once_app c p num :
  occurs c num = false -> rsplit_once c (p +:+ String c num) = Some (p, num).
Proof.
  intros Hn. induction p as [|a p IH].
  - change (EmptyString +:+ String c num) with (String c num). cbn [rsplit_once].
    rewrite (proj2 (rsplit_once_none c num) Hn), Ascii.eqb_refl. done.
  - change (String a p +:+ String c num) with (String a (p +:+ String c num)). cbn [rsplit_once].
    by rewrite IH.
Qed.

Lemma rsplit_once_Some c s p num :
  rsplit_once c s = Some (p, num) -> s = p +:+ String c num /\ occurs c num = false.
Proof.
  revert p. induction s as [|a r IH]; intros p H; cbn in H; [done|].
  destruct (rsplit_once c r) as [[x y]|] eqn:Hr.
  - injection H as <- <-. destruct (IH x eq_refl) as [-> ?]. done.
  - destruct (Ascii.eqb a c) eqn:Ha; [|done]. injection H as <- <-. apply Ascii.eqb_eq in Ha as ->.
    split; [done|]. by apply rsplit_once_none.
Qed.

(** ** Decimal numbers *)
Definition decimal (n : nat) : string := NilEmpty.string_of_uint (Nat.to_uint n).

Lemma parse_digits_uint max u acc :
  0 <= acc -> Z.of_nat (Nat.of_uint_acc u (Z.to_nat acc)) < max ->
  parse_digits max acc (NilEmpty.string_of_uint u) = Some (Z.of_nat (Nat.of_uint_acc u (Z.to_nat acc))).
Proof.
  assert (forall v k, (k <= Nat.of_uint_acc v k)%nat) as Hmono.
  { induction v as [|v IH|v IH|v IH|v IH|v IH|v IH|v IH|v IH|v IH|v IH]; intros k; cbn [Nat.of_uint_acc];
      [done|..]; rewrite ?Nat.tail_mul_spec; (etrans; [|apply IH]); lia. }
  revert acc. induction u as [|u IH|u IH|u IH|u IH|u IH|u IH|u IH|u IH|u IH|u IH];
    intros acc H0 Hmax; cbn [NilEmpty.string_of_uint parse_digits Nat.of_uint_acc] in *;
    [do 2 f_equal; lia|..]; rewrite Nat.tail_mul_spec in *;
    match goal with
    | |- context [digit ?a] => let v := eval vm_compute in (digit a) in
        change (digit a) with v; cbn [mbind option_bind]
    end;
    match goal with
    | |- context [if ?x <? max then _ else _] => remember x as nx eqn:Hnx
    end;
    match goal with
    | H : context [Nat.of_uint_acc u ?k] |- _ => replace k with (Z.to_nat nx) in * by (subst nx; lia)
    end;
    (destruct (Z.ltb_spec nx max) as [Hlt|Hge];
      [apply IH; [subst nx; lia|done] | pose proof (Hmono u (Z.to_nat nx)); lia]).
Qed.

Lemma decimal_cons n : exists a r, decimal n = String a r /\ Ascii.eqb a "+" = false.
Proof.
  unfold decimal. pose proof (Unsigned.of_to n) as Hn.
  destruct (Nat.to_uint n) eqn:Hu; [|by do 2 eexists..].
  cbn in Hn. subst n. by vm_compute in Hu.
Qed.

Lemma decimal_occurs n : occurs "-" (decimal n) = false.
Proof. unfold decimal. by induction (Nat.to_uint n). Qed.

Lemma parse_decimal max n : Z.of_nat n < max -> parse_uint max (decimal n) = Some (Z.of_nat n).
Proof.
  intros Hn. destruct (decimal_cons n) as (a & r & Hd & Ha). unfold parse_uint. rewrite Hd, Ha.
  rewrite <- Hd. unfold decimal.
  assert (Nat.of_uint_acc (Nat.to_uint n) (Z.to_nat 0) = n) as Hv by apply Unsigned.of_to.
  rewrite parse_digits_uint by (rewrite ?Hv; lia). by rewrite Hv.
Qed.

Lemma parse_digits_range max acc s n :
  0 <= acc < max -> parse_digits max acc s = Some n -> 0 <= n < max.
Proof.
  revert acc. induction s as [|a r IH]; intros acc Hacc H; cbn in H; [by injection H as <-|].
  unfold digit in H. destruct (Z.leb_spec 48 (Z.of_N (N_of_ascii a))); cbn in H; [|done].
  destruct (Z.of_N (N_of_ascii a) <=? 57); cbn in H; [|done].
  destruct (Z.ltb_spec (acc * 10 + (Z.of_N (N_of_ascii a) - 48)) max); [|done].
  eapply IH; [|exact H]. lia.
Qed.

Lemma parse_uint_range max s n : 0 < max -> parse_uint max s = Some n -> 0 <= n < max.
Proof.
  intros Hm. unfold parse_uint. destruct s as [|a r]; [done|].
  destruct (Ascii.eqb a "+"); [destruct r; [done|]|]; apply parse_digits_range; lia.
Qed.

(** ** Numbering *)
Lemma lookup_numbered {B} (l : list B) k : numbered l !! k = (fun x => (Z.of_nat k + 1, x)) <$> l !! k.
Proof. unfold numbered. by rewrite list_lookup_imap. Qed.

Lemma numbered_fst {B} (l : list B) : (numbered l).*1 = (fun k => Z.of_nat k + 1) <$> seq 0 (length l).
Proof.
  apply list_eq. intros k. rewrite !list_lookup_fmap, lookup_numbered.
  destruct (decide (k < length l)%nat).
  - rewrite lookup_seq_lt by done. destruct (lookup_lt_is_Some_2 l k) as [x ->]; [done|]. done.
  - rewrite lookup_seq_ge by lia. rewrite lookup_ge_None_2 by lia. done.
Qed.

Lemma numbered_NoDup {B} (l : list B) : NoDup (numbered l).*1.
Proof. rewrite numbered_fst. apply NoDup_fmap_2; [intros a b; lia|apply NoDup_seq]. Qed.

Lemma elem_of_numbered {B} (l : list B) i : i ∈ (numbered l).*1 <-> 1 <= i <= len l.
Proof.
  rewrite numbered_fst, list_elem_of_fmap. unfold len. split.
  - intros (k & -> & Hk%elem_of_seq). lia.
  - intros Hi. exists (Z.to_nat (i - 1)). rewrite elem_of_seq. lia.
Qed.

(** A map built from numbered values has exactly the numbers as keys. *)
Lemma numbered_lookup (l : list string) i :
  is_Some ((list_to_map (numbered l) : gmap Z string) !! i) <-> 1 <= i <= len l.
Proof.
  rewrite <- elem_of_numbered. rewrite <- (elem_of_dom (D := gset Z)), dom_list_to_map.
  rewrite elem_of_list_to_set. done.
Qed.

(** The arguments as clap parses them. *)
Definition args_ok (args : Args) : Prop := forall i, arg_id args = Some i -> is_u64 i.

Lemma resolve_id_range args hostname i :
  args_ok args -> resolve_id args hostname = Done (inl i) -> is_u64 i.
Proof.
  intros Hargs. unfold resolve_id. destruct (arg_id args) as [j|] eqn:Hid, (arg_derive_id args); try done.
  - intros [= <-]. by apply Hargs.
  - destruct hostname as [h|]; [|done]. unfold id_from_hostname.
    destruct (rsplit_once "-" h) as [[p num]|]; [|done].
    destruct (parse_uint U64 num) as [n|] eqn:Hp; [|done].
    pose proof (parse_uint_range U64 num n ltac:(lia) Hp).
    destruct (Z.ltb_spec (n + 1) U64); [|done]. intros [= <-]. unfold is_u64. lia.
Qed.

Lemma mapM_exec_length {X Y} (f : X -> exec Y) l k : mapM f l = Done k -> length k = length l.
Proof.
  revert k. induction l as [|x l IH]; intros k H; cbn in H; exec_inv; [done|]. cbn. f_equal. by apply IH.
Qed.

(** There are as many HTTP addresses as nodes. *)
Lemma http_addrs_keys args addrs :
  (match arg_http_nodes args with
   | Some http => if bool_decide (length http <> length (arg_nodes args)) then Panic else Done tt
   | None => Done tt
   end) = Done tt ->
  http_addrs args = Done addrs ->
  exists l, addrs = list_to_map (numbered l) /\ len (arg_nodes args) = len l.
Proof.
  unfold http_addrs. destruct (arg_http_nodes args) as [http|]; intros Hh Ha.
  - case_bool_decide as Hl; [done|]. injection Ha as <-. exists http. split; [done|]. unfold len.
    destruct (decide (length http = length (arg_nodes args))); [congruence|done].
  - apply exec_bind_Done in Ha as (l & Hl%mapM_exec_length & Ha). injection Ha as <-.
    exists l. split; [done|]. unfold len. congruence.
Qed.

Lemma main_config_consistent {T S} args hostname i addrs warn (t : T) (s : S) :
  args_ok args -> main_config args hostname = Done (i, addrs, warn) ->
  let config := build_config i args t s in
  NoDup (rc_nodes config) /\ i ∈ rc_nodes config
  /\ (forall n, n ∈ rc_nodes config <-> is_Some (addrs !! n)).
Proof.
  intros Hargs H. unfold main_config in H. apply exec_bind_Done in H as (u & Hhttp & H).
  apply exec_bind_Done in H as (addrs' & Ha & H). apply exec_bind_Done in H as (r & Hr & H).
  apply exec_bind_Done in H as (i' & Hi & H). destruct r as [j|]; [|done]. injection Hi as ->.
  destruct (Z.eqb_spec i' 0), (Z.ltb_spec (len (arg_nodes args)) i'); cbn [orb] in H; try done.
  apply exec_bind_Done in H as (addr & _ & H). apply exec_bind_Done in H as ([x port] & _ & H).
  apply exec_bind_Done in H as (p & _ & H). injection H as <- <- _.
  pose proof (resolve_id_range _ _ _ Hargs Hr) as Hu. unfold is_u64 in Hu. cbn. split_and!.
  - apply numbered_NoDup.
  - apply elem_of_numbered. lia.
  - intros m. rewrite elem_of_numbered. destruct u; destruct (http_addrs_keys _ _ Hhttp Ha) as (l & -> & ->).
    by rewrite numbered_lookup.
Qed.

(** ** Theorems *)

(** Ids from host names.  A host name ending in a dash and the decimal
    number [n] gives the id [n + 1], whatever precedes the dash; and every id
    that is returned is one more than the number after the last dash, never 0
    and within u64. *)
Theorem hostname_id :
  (forall prefix n, Z.of_nat n + 1 < U64 ->
     id_from_hostname (prefix +:+ String "-" (decimal n)) = inl (Z.of_nat n + 1))
  /\ (forall h i, id_from_hostname h = inl i -> exists prefix num,
        h = prefix +:+ String "-" num /\ occurs "-" num = false
        /\ parse_uint U64 num = Some (i - 1) /\ 1 <= i < U64).
Proof.
  unfold id_from_hostname. split.
  - intros prefix n Hn. rewrite rsplit_once_app by apply decimal_occurs.
    rewrite parse_decimal by lia. destruct (Z.ltb_spec (Z.of_nat n + 1) U64); [done|lia].
  - intros h i H. destruct (rsplit_once "-" h) as [[p num]|] eqn:Hs; [|done].
    apply rsplit_once_Some in Hs as [-> Hocc].
    destruct (parse_uint U64 num) as [n|] eqn:Hp; [|done].
    pose proof (parse_uint_range U64 num n ltac:(lia) Hp) as Hr.
    destruct (Z.ltb_spec (n + 1) U64); [|done]. injection H as <-.
    exists p, num. split_and!; try done; [|lia..]. rewrite Hp. f_equal. lia.
Qed.

(** A configuration that passes the checks.  The node's id is one of the
    configured ids, which are distinct, and every configured node, and no
    other, has an HTTP address to redirect to. *)
Theorem configuration_consistent {T S} args hostname i addrs warn (t : T) (s : S) :
  args_ok args -> main_config args hostname = Done (i, addrs, warn) ->
  let config := build_config i args t s in
  NoDup (rc_nodes config) /\ i ∈ rc_nodes config
  /\ (forall n, n ∈ rc_nodes config <-> is_Some (addrs !! n)).
Proof. apply main_config_consistent. Qed.

(** ** The store *)
Section store.
Context `{Postcard KvCommand} `{Postcard Store} `{!Postcard_ok KvCommand} `{!Postcard_ok Store}.

(** The value the last command on [key] leaves: the reference for a read. *)
Fixpoint last_write (key : string) (initial : option string) (cmds : list bytes) : option string :=
  match cmds with
  | [] => initial
  | cmd :: cmds =>
      last_write key
        (match from_bytes cmd with
         | Some (Set_ k v) => if decide (k = key) then Some v else initial
         | Some (Delete k) => if decide (k = key) then None else initial
         | _ => initial
         end) cmds
  end.

Lemma store_lookup (store : Store) cmds key :
  foldl kv_command store cmds !! key = last_write key (store !! key) cmds.
Proof.
  revert store. induction cmds as [|c cmds IH]; intros store; [done|]. cbn.
  rewrite IH. f_equal. unfold kv_command. destruct (from_bytes c) as [[k|k v|k]|]; cbn; try done.
  - destruct (decide (k = key)) as [->|]; [by rewrite lookup_insert_eq|by rewrite lookup_insert_ne].
  - destruct (decide (k = key)) as [->|]; [by rewrite lookup_delete_eq|by rewrite lookup_delete_ne].
Qed.

(** C36: the store is the replay of the commands.  After any sequence of
    applied commands, undecodable ones included, a key holds the value of the
    last command on it, and what a store that was snapshotted, installed
    elsewhere (over any previous contents) and fed the remaining commands holds
    is what a replay of the whole sequence holds. *)
Theorem store_replay (store other : Store) cmds1 cmds2 data :
  kv_snapshot_request (foldl kv_command store cmds1) = Done data ->
  exists installed, kv_snapshot other data = Done installed
    /\ foldl kv_command installed cmds2 = foldl kv_command store (cmds1 ++ cmds2)
    /\ forall key, foldl kv_command installed cmds2 !! key
                  = last_write key (store !! key) (cmds1 ++ cmds2).
Proof.
  intros Hd. unfold kv_snapshot_request in Hd. apply unwrap_Done in Hd.
  exists (foldl kv_command store cmds1). unfold kv_snapshot. rewrite (postcard_round_trip _ _ Hd).
  rewrite <- foldl_app. split_and!; [done..|]. intros key. apply store_lookup.
Qed.

(** ** The write handlers *)

(** The HTTP answer to a write whose proposal was answered with [reply]: a
    redirection to the leader, a request to retry, or an internal error. *)
Definition error_response (addrs : gmap Z string) (path : string) (reply : Reply) (e : KvError) : Prop :=
  match reply with
  | Some (FollowerNode (Some l)) =>
      exists addr, addrs !! l = Some addr
        /\ into_response e = (307, [("location", "http://" +:+ addr +:+ path)])%string
  | Some (FollowerNode None) | Some LostLeadership => into_response e = (503, [("retry-after", "1")])%string
  | Some OtherError | None => into_response e = (500, [])
  end.

Lemma propose_command_error st path command e :
  (forall l, as_propose st command = Some (FollowerNode (Some l)) -> is_Some (as_http_addrs st !! l)) ->
  propose_command st path command = inr e ->
  error_response (as_http_addrs st) path (as_propose st command) e.
Proof.
  unfold propose_command, error_response. intros Hl H'.
  destruct (as_propose st command) as [[[l|]| |]|]; [|injection H' as <-; done..|done].
  destruct (Hl l eq_refl) as [addr Ha]. injection H' as <-. cbn. rewrite Ha. by exists addr.
Qed.

Lemma propose_command_ok st path command u :
  propose_command st path command = inl u -> as_propose st command = None.
Proof. unfold propose_command. by destruct (as_propose st command). Qed.

(** C37: the answers to a write.  On a node whose configuration passed the
    checks, and whose Raft node names only configured nodes as leaders: a write
    is reported as done only if the Raft node accepted a command that, once
    applied to any store, has the effect the client asked for; a known leader
    is always answered with a redirection to its own address; in every other
    case the client is told to retry, or that the server failed. *)
Theorem write_outcome args hostname i warn st path key value (store : Store) :
  args_ok args -> main_config args hostname = Done (i, as_http_addrs st, warn) ->
  (forall c l, as_propose st c = Some (FollowerNode (Some l)) -> l ∈ rc_nodes (build_config i args tt tt)) ->
  match set_handler st path (mkSetRequest key value) with
  | inl resp => set_success resp = true
      /\ exists c, as_propose st c = None /\ kv_command store c = <[key := value]> store
  | inr e => error_response (as_http_addrs st) path (to_allocvec (Set_ key value) ≫= as_propose st) e
  end /\
  match delete_handler st path key with
  | inl resp => delete_success resp = true
      /\ exists c, as_propose st c = None /\ kv_command store c = delete key store
  | inr e => error_response (as_http_addrs st) path (to_allocvec (Delete key) ≫= as_propose st) e
  end.
Proof.
  intros Hargs Hm Hlead. destruct (main_config_consistent _ _ _ _ _ tt tt Hargs Hm) as (_ & _ & Hk).
  assert (forall c l, as_propose st c = Some (FollowerNode (Some l)) -> is_Some (as_http_addrs st !! l)) as Hl
    by (intros c l Hc; by eapply Hk, Hlead).
  unfold set_handler, delete_handler. cbn [set_key set_value]. split.
  - destruct (to_allocvec (Set_ key value)) as [c|] eqn:Hc; [|done]. cbn.
    destruct (propose_command _ _ _) eqn:Hp; [|by apply propose_command_error; [apply Hl|]].
    split; [done|]. exists c. split; [by eapply propose_command_ok|]. unfold kv_command. by rewrite (postcard_round_trip _ _ Hc).
  - destruct (to_allocvec (Delete key)) as [c|] eqn:Hc; [|done]. cbn.
    destruct (propose_command _ _ _) eqn:Hp; [|by apply propose_command_error; [apply Hl|]].
    split; [done|]. exists c. split; [by eapply propose_command_ok|]. unfold kv_command. by rewrite (postcard_round_trip _ _ Hc).
Qed.
End store.
