(* ===== verification/ServiceKv.v ===== *)
(** The key-value service as crates/raft-kv/src/main.rs starts it: the
    processes of one command line are a service, and what a client was told is
    stored can be read once the apply task has come as far. *)

From S2P Require Import Prelude Types RaftCore CoreElection Cluster Replicas.
From S2P Require Import Codec Storage FileStorage FileStorageSpec StorageTheorems.
From S2P Require Import EventLoop EventLoopFrame EventLoopTheorems NodeHandle EventLoopReplies.
From S2P Require Import Service ServiceSim ServiceSafety Transport ServiceTransports TcpNetwork Kv KvTheorems.
#[local] Open Scope Z_scope.

Section main.
Context `{Postcard PersistedMetadata} `{!Postcard_ok PersistedMetadata}.
Context `{Postcard LogEntry} `{!Postcard_ok LogEntry}.
Context `{Postcard Snapshot} `{!Postcard_ok Snapshot}.
Context `{Postcard KvCommand} `{Postcard Store}.
Context (spilled : bytes -> nat).
#[local] Instance main_files : Storage Files := file_storage spilled.
#[local] Instance main_laws : StorageLaws Files := file_storage_laws spilled.

Abbreviation KvDriver := (RaftDriver TcpTransport Files Store).

(** [main] up to the HTTP server: the checks, the configuration with its
    transport and the storage in directory [fs], the Raft node, and the empty
    store that the apply task fills. *)
Definition kv_main (g : Rng) (args : Args) (hostname : option string) (fs : Files)
    : exec (NodeId * gmap Z string * @RaftNode TcpTransport Files Store) :=
  '(node_id, addrs, _) ← main_config args hostname;
  let transport := tcp_new node_id (numbered (arg_nodes args)).*1 in
  node ← node_new g (build_config node_id args transport fs) (∅ : Store);
  Done (node_id, addrs, node).

(** The cluster that a list of addresses describes. *)
Definition main_cluster (nodes : list string) : Config := mkConfig (numbered nodes).*1 None (15, 31).

Lemma fresh_from_wire n nodes : from_wire n [] (tcp_new n nodes).
Proof.
  split_and!; [by intros m ?%not_elem_of_nil| |done]. intros [p m] (q & Hq & Hm)%queued_elem.
  unfold tcp_new in Hq. cbn in Hq. apply peer_channels in Hq as (-> & _). by apply not_elem_of_nil in Hm.
Qed.

(** C29: what [main] starts is a service.  Processes started with the same list
    of addresses, each on its own empty directory and with a valid id, form an
    initial state of the service, over distinct node ids and with the snapshot
    threshold of the configuration: the theorems on services apply to them. *)
Theorem main_starts_service (nodes : list string) (drivers : gmap Z KvDriver) :
  len nodes < U64 ->
  (forall n d, drivers !! n = Some d -> exists g args hostname addrs node,
     arg_nodes args = nodes /\ args_ok args
     /\ kv_main g args hostname ∅ = Done (n, addrs, node) /\ task node = Running d) ->
  initial_service (main_cluster nodes) 1024 (∅ : Store) (mkService drivers [] [])
  /\ NoDup (cfg_nodes (main_cluster nodes)) /\ len (cfg_nodes (main_cluster nodes)) < U64.
Proof.
  intros Hlen Hd. split; [split; [done|split; [done|]]|split; [apply numbered_NoDup|]]; cbn.
  - intros n d (g & args & hostname & addrs & node & <- & Hargs & Hm & Ht)%Hd. unfold kv_main in Hm.
    apply exec_bind_Done in Hm as ([[i addrs'] warn] & Hc & Hm). unfold node_new in Hm.
    apply exec_bind_Done in Hm as (nd & Hn & Hm). apply exec_bind_Done in Hn as (d' & Hd' & Hn).
    injection Hn as <-. injection Hm as -> -> <-. injection Ht as ->.
    destruct (main_config_consistent _ _ _ _ _ tt tt Hargs Hc) as (_ & Hin & _). split; [done|].
    exists g, ∅, (tcp_new n (numbered (arg_nodes args)).*1). split; [apply file_empty|].
    split; [apply fresh_from_wire|exact Hd'].
  - rewrite numbered_fst. unfold len in *. by rewrite length_fmap, length_seq.
Qed.
End main.

(** ** Reads *)
Section reads.
Context {T S : Type} `{HT : Transport T} `{HTL : !TransportLaws T} `{HS : Storage S} `{HL : !StorageLaws S}.
Context `{HC : Postcard KvCommand} `{HCO : !Postcard_ok KvCommand} `{HStore : Postcard Store}.
Context (cfg : Config) (threshold : Z).
Context (Hnodup : NoDup (cfg_nodes cfg)) (Hsize : len (cfg_nodes cfg) < U64).
Implicit Types (d : RaftDriver T S (Store * list bytes)) (w : @Service T S (Store * list bytes)).
#[local] Existing Instance recording.
Notation step := (service_step cfg threshold (∅, [])).

Lemma last_write_app key initial cmds cmds' :
  last_write key initial (cmds ++ cmds') = last_write key (last_write key initial cmds) cmds'.
Proof. revert initial. induction cmds as [|c cmds IH]; intros initial; [done|]. apply IH. Qed.

(** ** The apply task behind the channel

    Below the snapshot threshold the entries of the channel are the commands the
    driver has handed over. *)
Definition sent_entries d : list AppliedEntry := ACommand <$> history d.

(** The store of a task that has handled [k] of the commands [cmds], and that a
    task can be at any of them. *)
Lemma apply_task_commands cmds k store :
  apply_task (ACommand <$> cmds) k store
  <-> (k <= length cmds)%nat /\ store = foldl kv_command ∅ (take k cmds).
Proof.
  split.
  - induction 1 as [|k store e store' _ [Hk ->] He Happ]; [split; [lia|done]|].
    apply list_lookup_fmap_Some in He as (cmd & -> & He). injection Happ as <-.
    pose proof (lookup_lt_Some _ _ _ He). split; [lia|]. by rewrite (take_S_r _ _ _ He), foldl_app.
  - intros [Hk ->]. induction k as [|k IH]; [rewrite take_0; constructor|].
    destruct (lookup_lt_is_Some_2 cmds k) as [cmd Hc]; [lia|]. rewrite (take_S_r _ _ _ Hc), foldl_app.
    eapply (task_next _ _ _ (ACommand cmd)); [apply IH; lia| |done]. apply list_lookup_fmap_Some. eauto.
Qed.

(** ** A request

    The answer that the driver has given to a client, and the state that the
    client's request sees: that answer, to the one call its handler makes, and
    the store of the apply task. *)
Definition answer_to d (client : Channel) : option Reply :=
  snd <$> List.find (fun cr => cr.1 =? client) (replies d).

Definition request_state d (client : Channel) (store : Store) (addrs : gmap Z string) : option AppState :=
  (fun r => mkAppState (fun _ => r) r (Some store) addrs) <$> answer_to d client.

Lemma answer_to_elem d client r : answer_to d client = Some r -> (client, r) ∈ replies d.
Proof.
  unfold answer_to. intros ([c r'] & [Hin Heq]%find_some & [= ->])%fmap_Some.
  cbn in Heq. apply Z.eqb_eq in Heq as ->. by apply list_elem_of_In.
Qed.

Lemma answer_to_none d client r : answer_to d client = None -> (client, r) ∉ replies d.
Proof.
  unfold answer_to. intros Hn%fmap_None Hin%list_elem_of_In.
  pose proof (find_none _ _ Hn _ Hin) as Hc. cbn in Hc. by rewrite Z.eqb_refl in Hc.
Qed.

(** A node that has applied as far was handed everything the other was. *)
Lemma history_prefix w n d w' m d2 :
  service_reachable cfg threshold (∅, []) w -> rtc step w w' ->
  sv_drivers w !! n = Some d -> sv_drivers w' !! m = Some d2 ->
  last_applied (core d) <= last_applied (core d2) -> history d `prefix_of` history d2.
Proof.
  intros (y & Hrel)%service_reachable_rel Hsteps Hd H2 Hle; [|done..].
  destruct (service_steps_sim cfg threshold _ Hnodup Hsize w y w' Hrel Hsteps) as (y' & Hy & Hrel').
  unfold history.
  rewrite (stores_continue cfg _ Hnodup Hsize _ _ _ _ _ _ _ _ Hrel Hy Hrel' Hd H2 Hle), recorded.
  by eexists.
Qed.

(** C11: a write that a client was told is stored can be read.  A client's POST
    of a key and value is answered with 200, from the reply that the driver gave
    to its proposal in a turn after which the node leads.  After any further
    steps of the service (turns within 64 bits, on guarded messages, storable
    and below the snapshot threshold; crashes between two actions; any losses),
    take a node that has applied as far, whose apply task has handled at least
    as many entries as the first node had handed over by then.  A GET of the key
    there, whose read request the driver has answered, returns what was set, or
    what a command applied after it left; if the driver refused the read, it
    returns the error response of that refusal. *)
Theorem acknowledged_set_readable w n d g ev d' client key value cmd store addrs st path hs resp
    w' m d2 reader k store2 addrs2 st2 path2 body2 :
  to_allocvec (Set_ key value) = Some cmd -> cmd <> [] ->
  service_reachable cfg threshold (∅, []) w -> sv_drivers w !! n = Some d ->
  turn_ok g d ev -> event_loop_turn g d ev = Done d' -> is_leader (core d') = true ->
  NoDup ((events_of n (sv_events w) ++ [ev]) ≫= new_clients) ->
  EvProposal cmd client ∈ events_of n (sv_events w) ++ [ev] ->
  answer_to d client = None -> request_state d' client store addrs = Some st ->
  router st POST path ["key"%string] (Some (mkSetRequest key value)) = Some (200, hs, resp) ->
  rtc step (mkService (<[n := d']> (sv_drivers w)) (sv_wire w ++ held n (transport d'))
              (sv_events w ++ [(n, ev)])) w' ->
  sv_drivers w' !! m = Some d2 -> last_applied (core d') <= last_applied (core d2) ->
  apply_task (sent_entries d2) k store2 -> (length (sent_entries d') <= k)%nat ->
  request_state d2 reader store2 addrs2 = Some st2 ->
  exists before after rest, history d2 = before ++ cmd :: after ++ rest
    /\ k = length (before ++ cmd :: after)
    /\ router st2 GET path2 ["key"%string; key] body2
       = Some match as_read st2 with
              | None => (200, [], GetBody (mkGetResponse (last_write key (Some value) after)))
              | Some e => (into_response (map_proposal_error st2 e path2), NoBody)
              end.
Proof.
  intros Hcmd Hne Hreach Hd Hok Hturn Hl Hnd Hask Hnone Hst Hpost Hsteps H2 Hle Htask Hk Hst2.
  assert ((client, None) ∈ replies d') as Hin.
  { apply fmap_Some in Hst as (r & Hr & ->). apply answer_to_elem in Hr.
    cbn in Hpost. unfold set_handler, propose_command in Hpost. cbn in Hpost. rewrite Hcmd in Hpost.
    destruct r as [e|]; [|done]. cbn in Hpost. injection Hpost as He _. by destruct (map_proposal_error _ e _). }
  set (w1 := mkService _ _ _) in Hsteps.
  assert (service_reachable cfg threshold (∅, []) w1) as Hreach1.
  { destruct Hreach as (w0 & Hi & Hs). exists w0. split; [done|]. eapply rtc_r; [exact Hs|]. by eapply sv_turn. }
  assert (sv_drivers w1 !! n = Some d') as Hd1 by apply lookup_insert_eq.
  destruct (acknowledged_kept cfg threshold ∅ Hnodup Hsize _ _ _ _ _ _ _ _ _ _ _ Hreach Hd Hok Hturn Hl Hnd
    Hask Hne Hin (answer_to_none _ _ _ Hnone) (rtc_refl _ w1) Hd1) as [Hkept _].
  destruct (history_prefix _ _ _ _ _ _ Hreach1 Hsteps Hd1 H2 Hle) as [more Hmore].
  apply apply_task_commands in Htask as [Hk2 ->]. unfold sent_entries in Hk. rewrite length_fmap in Hk.
  apply list_elem_of_split in Hkept as (before & after & Hh); [|done].
  assert (take k (history d2) = history d' ++ take (k - length (history d')) more) as Htk
    by (by rewrite Hmore, take_app_ge).
  set (j := (k - length (history d'))%nat) in Htk. clearbody j. rewrite Hh, <- app_assoc in Htk. cbn [Datatypes.app] in Htk.
  exists before, (after ++ take j more), (drop j more). split_and!.
  - rewrite Hmore, Hh, <- app_assoc. cbn [Datatypes.app]. by rewrite <- app_assoc, take_drop.
  - rewrite <- Htk, length_take. lia.
  - apply fmap_Some in Hst2 as (r & _ & ->). cbn. unfold get_handler. cbn. destruct r as [e|]; [done|].
    cbn. rewrite store_lookup, Htk, last_write_app. cbn. by rewrite (postcard_round_trip _ _ Hcmd), decide_True.
Qed.

(** What a confirmed GET can return: the value after any first part of the
    commands handed over, since the handler reads the store whether or not the
    apply task has caught up. *)
Lemma confirmed_get_any d reader key path body k :
  answer_to d reader = Some None -> (k <= length (history d))%nat ->
  exists store st, apply_task (sent_entries d) k store /\ request_state d reader store ∅ = Some st
    /\ router st GET path ["key"%string; key] body
       = Some (200, [], GetBody (mkGetResponse (last_write key None (take k (history d))))).
Proof.
  intros Ha Hk. eexists _, _. split; [by apply apply_task_commands|].
  unfold request_state. rewrite Ha. split; [done|]. cbn. by rewrite store_lookup.
Qed.
End reads.
