(* ===== verification/ExampleCodec.v ===== *)
(** A concrete serialization with the round trip the storage and the service
    assume of postcard, at which their theorems can be applied.  It is not
    postcard's wire format. *)

From S2P Require Import Prelude Types Codec Storage Kv.
From Stdlib Require Import Strings.String.

Local Open Scope Z_scope.
Local Open Scope list_scope.

(** ** Building blocks *)
Definition put_u64 (z : Z) : option bytes :=
  if (0 <=? z) && (z <? U64) then Some (be_bytes 8 z) else None.

Definition get_u64 (b : bytes) : option (Z * bytes) := read_uint 8 b.

(** Bytes with their length in front. *)
Definition put_bytes (b : bytes) : option bytes :=
  if len b <? U32 then Some (be_bytes 4 (len b) ++ b) else None.

Definition get_bytes (b : bytes) : option (bytes * bytes) :=
  '(n, b) ← read_uint 4 b; read_exact (Z.to_nat n) b.

Lemma put_u64_get z b rest : put_u64 z = Some b -> get_u64 (b ++ rest) = Some (z, rest).
Proof.
  unfold put_u64, get_u64. destruct (Z.leb_spec 0 z), (Z.ltb_spec z U64); intros [= <-].
  apply (read_uint_app 8 z rest). done.
Qed.

Lemma put_bytes_get v b rest : put_bytes v = Some b -> get_bytes (b ++ rest) = Some (v, rest).
Proof.
  unfold put_bytes, get_bytes. destruct (Z.ltb_spec (len v) U32); [|done]. intros H'.
  injection H' as Hb. change (be_bytes 4 (len v) ++ v = b) in Hb. subst b.
  rewrite <- app_assoc, (read_uint_app 4 (len v) (v ++ rest))
    by (unfold U32 in *; change (256 ^ Z.of_nat 4) with 4294967296; len_lia).
  cbn. apply read_exact_app. unfold len. lia.
Qed.

(** ** The stored types *)
#[export] Instance entry_codec : Postcard LogEntry := {|
  to_allocvec e := t ← put_u64 (e_term e); Some (t ++ e_command e);
  from_bytes b := '(t, c) ← get_u64 b; Some (mkLogEntry t c);
|}.

#[export] Instance entry_codec_ok : Postcard_ok LogEntry.
Proof.
  intros [t c] b H. cbn in H. destruct (put_u64 t) as [bt|] eqn:Ht; [|done]. injection H as <-.
  cbn. by rewrite (put_u64_get _ _ _ Ht).
Qed.

#[export] Instance metadata_codec : Postcard PersistedMetadata := {|
  to_allocvec m :=
    t ← put_u64 (pm_term m);
    match pm_voted_for m with
    | None => Some (t ++ [x00])
    | Some v => v ← put_u64 v; Some (t ++ [x01] ++ v)
    end;
  from_bytes b :=
    '(t, b) ← get_u64 b;
    match b with
    | x00 :: _ => Some (mkPersistedMetadata t None)
    | x01 :: b => '(v, _) ← get_u64 b; Some (mkPersistedMetadata t (Some v))
    | _ => None
    end;
|}.

#[export] Instance metadata_codec_ok : Postcard_ok PersistedMetadata.
Proof.
  intros [t [v|]] b H; cbn in H; (destruct (put_u64 t) as [bt|] eqn:Ht; [|done]).
  - destruct (put_u64 v) as [bv|] eqn:Hv; [|done]. injection H as <-.
    cbn. rewrite (put_u64_get _ _ _ Ht). cbn.
    rewrite <- (app_nil_r bv), (put_u64_get _ _ _ Hv). done.
  - injection H as <-. cbn. by rewrite (put_u64_get _ _ _ Ht).
Qed.

#[export] Instance snapshot_codec : Postcard Snapshot := {|
  to_allocvec sn :=
    i ← put_u64 (sn_last_included_index sn);
    t ← put_u64 (sn_last_included_term sn);
    Some (i ++ t ++ sn_data sn);
  from_bytes b :=
    '(i, b) ← get_u64 b; '(t, data) ← get_u64 b; Some (mkSnapshot i t data);
|}.

#[export] Instance snapshot_codec_ok : Postcard_ok Snapshot.
Proof.
  intros [i t data] b H. cbn in H. destruct (put_u64 i) as [bi|] eqn:Hi; [|done]. cbn in H.
  destruct (put_u64 t) as [bt|] eqn:Ht; [|done]. injection H as <-.
  cbn. rewrite (put_u64_get _ _ _ Hi). cbn. by rewrite (put_u64_get _ _ _ Ht).
Qed.

(** ** The service's types *)
Definition put_string (s : string) : option bytes := put_bytes (list_byte_of_string s).

Definition get_string (b : bytes) : option (string * bytes) :=
  '(s, b) ← get_bytes b; Some (string_of_list_byte s, b).

Lemma put_string_get s b rest : put_string s = Some b -> get_string (b ++ rest) = Some (s, rest).
Proof.
  unfold put_string, get_string. intros Hb. rewrite (put_bytes_get _ _ _ Hb). cbn.
  by rewrite string_of_list_byte_of_string.
Qed.

#[export] Instance command_codec : Postcard KvCommand := {|
  to_allocvec c :=
    match c with
    | Get k => k ← put_string k; Some (x00 :: k)
    | Set_ k v => k ← put_string k; v ← put_string v; Some (x01 :: k ++ v)
    | Delete k => k ← put_string k; Some (x02 :: k)
    end;
  from_bytes b :=
    match b with
    | x00 :: b => '(k, _) ← get_string b; Some (Get k)
    | x01 :: b => '(k, b) ← get_string b; '(v, _) ← get_string b; Some (Set_ k v)
    | x02 :: b => '(k, _) ← get_string b; Some (Delete k)
    | _ => None
    end;
|}.

#[export] Instance command_codec_ok : Postcard_ok KvCommand.
Proof.
  intros [k|k v|k] b H; cbn in H; (destruct (put_string k) as [bk|] eqn:Hk; [|done]); cbn in H.
  - injection H as <-. cbn. rewrite <- (app_nil_r bk), (put_string_get _ _ _ Hk). done.
  - destruct (put_string v) as [bv|] eqn:Hv; [|done]. injection H as <-. cbn.
    rewrite (put_string_get _ _ _ Hk). cbn.
    rewrite <- (app_nil_r bv), (put_string_get _ _ _ Hv). done.
  - injection H as <-. cbn. rewrite <- (app_nil_r bk), (put_string_get _ _ _ Hk). done.
Qed.

Fixpoint put_pairs (l : list (string * string)) : option bytes :=
  match l with
  | [] => Some [x00]
  | (k, v) :: l => k ← put_string k; v ← put_string v; rest ← put_pairs l; Some (x01 :: k ++ v ++ rest)
  end.

Fixpoint get_pairs (fuel : nat) (b : bytes) : option (list (string * string)) :=
  match fuel, b with
  | S fuel, x01 :: b =>
      '(k, b) ← get_string b; '(v, b) ← get_string b; rest ← get_pairs fuel b; Some ((k, v) :: rest)
  | S _, x00 :: _ => Some []
  | _, _ => None
  end.

Lemma put_pairs_get l b fuel : put_pairs l = Some b -> (List.length b <= fuel)%nat -> get_pairs fuel b = Some l.
Proof.
  revert b fuel. induction l as [|[k v] l IH]; intros b fuel H Hf; cbn in H.
  - injection H as <-. by destruct fuel; cbn in Hf; [lia|].
  - destruct (put_string k) as [bk|] eqn:Hk; [|done]. cbn in H.
    destruct (put_string v) as [bv|] eqn:Hv; [|done]. cbn in H.
    destruct (put_pairs l) as [bl|] eqn:Hl; [|done]. injection H as <-.
    destruct fuel as [|fuel]; cbn in Hf; [lia|]. cbn.
    rewrite (put_string_get _ _ _ Hk). cbn. rewrite (put_string_get _ _ _ Hv). cbn.
    rewrite IH; [done..|]. rewrite !length_app in Hf. lia.
Qed.

#[export] Instance store_codec : Postcard Store := {|
  to_allocvec st := put_pairs (map_to_list st);
  from_bytes b := list_to_map <$> get_pairs (List.length b) b;
|}.

#[export] Instance store_codec_ok : Postcard_ok Store.
Proof.
  intros st b H. cbn in *. rewrite (put_pairs_get _ _ _ H) by lia. cbn. by rewrite list_to_map_to_list.
Qed.

(** ** Messages

    A message as its tag, its numbers and its byte strings. *)
Section list_codec.
Context {X : Type} (put : X -> option bytes) (get : bytes -> option (X * bytes)).
Context (Hput : forall x b rest, put x = Some b -> get (b ++ rest) = Some (x, rest)).

Fixpoint put_list (l : list X) : option bytes :=
  match l with
  | [] => Some [x00]
  | x :: l => b ← put x; rest ← put_list l; Some (x01 :: b ++ rest)
  end.

Fixpoint get_list (fuel : nat) (b : bytes) : option (list X * bytes) :=
  match fuel, b with
  | S fuel, x01 :: b => '(x, b) ← get b; '(l, b) ← get_list fuel b; Some (x :: l, b)
  | S _, x00 :: b => Some ([], b)
  | _, _ => None
  end.

Lemma put_list_get l b rest fuel :
  put_list l = Some b -> (List.length b <= fuel)%nat -> get_list fuel (b ++ rest) = Some (l, rest).
Proof.
  revert b fuel. induction l as [|x l IH]; intros b fuel H Hf; cbn in H.
  - injection H as <-. by destruct fuel; cbn in Hf; [lia|].
  - destruct (put x) as [bx|] eqn:Hx; [|done]. cbn in H. destruct (put_list l) as [bl|] eqn:Hl; [|done].
    injection H as <-. destruct fuel as [|fuel]; cbn in Hf; [lia|]. cbn. rewrite length_app in Hf.
    rewrite <- app_assoc, (Hput _ _ _ Hx). cbn. rewrite IH; [done..|]. lia.
Qed.
End list_codec.

Definition put_option (o : option Z) : list Z := match o with None => [0; 0] | Some z => [1; z] end.
Definition get_option (tag z : Z) : option Z := if tag =? 0 then None else Some z.

Definition put_message (m : Message) : Z * list Z * list bytes :=
  match m with
  | RequestVote (mkRequestVoteRPC a b c d) => (0, [a; b; c; d], [])
  | RequestVoteResponse (mkRequestVoteResponseRPC a b g) => (1, [a; b; Z.b2z g], [])
  | AppendEntries (mkAppendEntriesRPC a b c d es e) =>
      (2, a :: b :: c :: d :: e :: (e_term <$> es), e_command <$> es)
  | AppendEntriesResponse (mkAppendEntriesResponseRPC a b c g i t) =>
      (3, a :: b :: c :: Z.b2z g :: put_option i ++ put_option t, [])
  | InstallSnapshotMsg (mkInstallSnapshotRPC a b c d data) => (4, [a; b; c; d], [data])
  | InstallSnapshotResponse (mkInstallSnapshotResponseRPC a b c) => (5, [a; b; c], [])
  end.

Definition get_message (tag : Z) (zs : list Z) (bs : list bytes) : option Message :=
  match tag, zs, bs with
  | 0, [a; b; c; d], [] => Some (RequestVote (mkRequestVoteRPC a b c d))
  | 1, [a; b; g], [] => Some (RequestVoteResponse (mkRequestVoteResponseRPC a b (g =? 1)))
  | 2, a :: b :: c :: d :: e :: ts, _ =>
      Some (AppendEntries (mkAppendEntriesRPC a b c d (zip_with mkLogEntry ts bs) e))
  | 3, [a; b; c; g; si; i; st; t], [] =>
      Some (AppendEntriesResponse
        (mkAppendEntriesResponseRPC a b c (g =? 1) (get_option si i) (get_option st t)))
  | 4, [a; b; c; d], [data] => Some (InstallSnapshotMsg (mkInstallSnapshotRPC a b c d data))
  | 5, [a; b; c], [] => Some (InstallSnapshotResponse (mkInstallSnapshotResponseRPC a b c))
  | _, _, _ => None
  end.

Lemma put_message_get m : get_message (put_message m).1.1 (put_message m).1.2 (put_message m).2 = Some m.
Proof.
  destruct m as [[]|[? ? []]|[a b c d es e]|[? ? ? [] [?|] [?|]]|[]|[]]; try done. cbn. do 3 f_equal.
  induction es as [|[t c'] es IH]; [done|]. cbn. by rewrite IH.
Qed.

#[export] Instance message_codec : Postcard Message := {|
  to_allocvec m :=
    let '(tag, zs, bs) := put_message m in
    tag ← put_u64 tag; zs ← put_list put_u64 zs; bs ← put_list put_bytes bs; Some (tag ++ zs ++ bs);
  from_bytes b :=
    '(tag, b) ← get_u64 b;
    '(zs, b) ← get_list get_u64 (List.length b) b;
    '(bs, _) ← get_list get_bytes (List.length b) b;
    get_message tag zs bs;
|}.

#[export] Instance message_codec_ok : Postcard_ok Message.
Proof.
  intros m b H. pose proof (put_message_get m) as Hm. cbn in H |- *.
  destruct (put_message m) as [[tag zs] bs]. cbn in Hm.
  destruct (put_u64 tag) as [bt|] eqn:Ht; [|done]. cbn in H.
  destruct (put_list put_u64 zs) as [bz|] eqn:Hz; [|done]. cbn in H.
  destruct (put_list put_bytes bs) as [bb|] eqn:Hb; [|done]. injection H as <-.
  rewrite (put_u64_get _ _ _ Ht). cbn.
  rewrite (put_list_get _ _ put_u64_get _ _ _ _ Hz) by (rewrite length_app; lia). cbn.
  rewrite <- (app_nil_r bb), (put_list_get _ _ put_bytes_get _ _ _ _ Hb) by (rewrite ?length_app; cbn; lia).
  done.
Qed.
