(* ===== verification/TransportTests.v ===== *)
(** The tests of crates/raft-tcp-transport/src/lib.rs.  The tests wait on real
    sockets; here a test is a run of the transports with their tasks under a
    schedule, and its assertions are panics. *)

From S2P Require Import Prelude Types RaftCore Codec Storage EventLoop Service Transport.
From S2P Require Import ServiceTransports TcpNetwork ExampleCodec TestHarness.
#[local] Open Scope Z_scope.

(** The message of both tests. *)
Definition test_vote : Message := RequestVote (mkRequestVoteRPC 1 1 0 0).

(** [transport.send(to, m).await], then the given steps of the tasks. *)
Definition net_send (net : TcpNet) (from to : NodeId) (m : Message) (schedule : list NetEvent) : exec TcpNet :=
  unwrap (net_run net (NetSend from to m :: schedule)).

(** [transport.recv().await] *)
Definition net_recv (net : TcpNet) (n : NodeId) : exec (Message * TcpNet) :=
  N ← unwrap (net !! n);
  '(m, _) ← unwrap (tcp_recv (tn_handle N));
  net ← unwrap (net_step net (NetRecv n));
  Done (m, net).

(** How one message gets from [from] to [to]: the task connects and takes the
    message, in either order, possibly after refused connects; the other side
    accepts and reads. *)
Definition direct (from to : NodeId) : list NetEvent :=
  [NetTask from to 10 true (ReadyTimer (Some 1)) true; NetTask from to 11 true ReadyMessage true;
   NetAccept to from 0; NetArrive to from 0; NetRead to from 0].

Definition refused (from to : NodeId) : list NetEvent :=
  [NetTask from to 5 true ReadyMessage true; NetTask from to 10 true (ReadyTimer None) true;
   NetTask from to 30 true (ReadyTimer (Some 20000)) true; NetTask from to 80 true (ReadyTimer (Some 1)) true;
   NetTask from to 81 true NotReady true; NetAccept to from 0; NetArrive to from 0; NetRead to from 0].

(** The first send fails, and a second connection carries the message. *)
Definition reconnect (from to : NodeId) : list NetEvent :=
  [NetTask from to 10 true (ReadyTimer (Some 1)) true; NetTask from to 11 true ReadyMessage false;
   NetAccept to from 0; NetEnd to from 0;
   NetTask from to 25 true (ReadyTimer (Some 1)) true; NetTask from to 26 true NotReady true;
   NetAccept to from 1; NetArrive to from 1; NetRead to from 1].

Definition network_rt (there back : list NetEvent) : exec () :=
  let m := test_vote in
  let net := net_start [1; 2] in
  net ← net_send net 1 2 m there;
  '(compare, net) ← net_recv net 2;
  check_eq compare m;;
  net ← net_send net 2 1 m back;
  '(compare, _) ← net_recv net 1;
  check_eq compare m.

(** The test asserts only that the send to a node without a channel returns. *)
Definition failed_send : exec () :=
  _ ← net_send (net_start [1]) 1 2 test_vote [];
  Done ().

Definition transport_tests : list (exec ()) :=
  network_rt (direct 1 2) (direct 2 1) :: network_rt (refused 1 2) (reconnect 2 1) ::
  network_rt (reconnect 1 2) (refused 2 1) :: [failed_send].
