(* ===== verification/IntegrationTests.v ===== *)
(** The integration tests, crates/raft-event-loop/tests/cluster.rs: whole
    drivers over the in-memory storage and the shared in-memory transport.

    The tests run on timers; here time is a sequence of rounds, in each of
    which every node ticks once and then all messages are received.  A wait is
    a number of rounds with a bound that the runs never reach, and assertions
    are panics. *)

From S2P Require Import Prelude Types RaftCore Codec Storage MemStorage EventLoop Transport.
From S2P Require Import ExampleCodec TestHarness.
From Stdlib Require Import Strings.String.
#[local] Open Scope Z_scope.
#[local] Open Scope list_scope.

(** ** The application: what came out of the applied channel *)
(** Nobody answers a snapshot request. *)
#[local] Instance applied_channel : Application (list AppliedEntry) := {|
  on_command l cmd := l ++ [ACommand cmd];
  on_snapshot l data := Done (l ++ [ASnapshot data]);
  on_snapshot_request _ := Panic;
|}.

Abbreviation TestDriver := (RaftDriver InMemoryTransport InMemoryStorage (list AppliedEntry)).

(** ** The cluster: its nodes and the queues that their transports share *)
Record Cluster := mkCluster {
  cl_queues : gmap Z (list Message);
  cl_nodes : gmap Z TestDriver;
  cl_round : Z;
}.

Section tests.
(** The draws of each node, round by round. *)
Context (draws : Z -> NodeId -> Rng).

Definition node_turn (cl : Cluster) (n : NodeId) (ev : Event) : exec Cluster :=
  d ← unwrap (cl_nodes cl !! n);
  d ← event_loop_turn (draws (cl_round cl) n) (d <| transport := mkInMemoryTransport n (cl_queues cl) |>) ev;
  Done (mkCluster (imt_queues (transport d)) (<[n := d]> (cl_nodes cl)) (cl_round cl)).

Definition test_config (nodes : list NodeId) (n : NodeId) (t : InMemoryTransport) (s : InMemoryStorage)
    : RaftConfig InMemoryTransport InMemoryStorage :=
  mkRaftConfig _ _ n nodes None (15, 31) 100 t s.

(** [RaftNode::new] for every node, with its transport and storage. *)
Definition start_cluster (storages : list (NodeId * InMemoryStorage)) : exec Cluster :=
  let nodes := storages.*1 in
  let transports := build_in_memory_transport nodes in
  drivers ← mapM (fun ns : NodeId * InMemoryStorage =>
      t ← unwrap (transports !! ns.1);
      d ← driver_new (draws 0 ns.1) (test_config nodes ns.1 t ns.2) [];
      Done (ns.1, d)) storages;
  Done (mkCluster (list_to_map ((fun n => (n, [])) <$> nodes)) (list_to_map drivers) 0).

Fixpoint on_nodes (f : Cluster -> NodeId -> exec Cluster) (cl : Cluster) (ns : list NodeId) : exec Cluster :=
  match ns with [] => Done cl | n :: ns => cl ← f cl n; on_nodes f cl ns end.

(** All messages, the ones sent meanwhile too. *)
Fixpoint receive_all (fuel : nat) (ns : list NodeId) (cl : Cluster) : exec Cluster :=
  match fuel with
  | O => Done cl
  | S fuel =>
      if forallb (fun n => bool_decide (default [] (cl_queues cl !! n) = [])) ns then Done cl
      else cl ← on_nodes (fun cl n => node_turn cl n EvRecv) cl ns; receive_all fuel ns cl
  end.

Definition round (ns : list NodeId) (cl : Cluster) : exec Cluster :=
  cl ← on_nodes (fun cl n => node_turn cl n EvTick) cl ns;
  cl ← receive_all 50 ns cl;
  Done (mkCluster (cl_queues cl) (cl_nodes cl) (cl_round cl + 1)).

(** Rounds until [ready], at most [fuel]; a wait that has no timeout in the
    code does not end otherwise. *)
Fixpoint rounds_until (fuel : nat) (ns : list NodeId) (ready : Cluster -> bool) (cl : Cluster) : exec Cluster :=
  match fuel with
  | O => Done cl
  | S fuel => if ready cl then Done cl else cl ← round ns cl; rounds_until fuel ns ready cl
  end.

Definition wait (ns : list NodeId) (ready : Cluster -> bool) (cl : Cluster) : exec Cluster :=
  cl ← rounds_until 200 ns ready cl;
  check (ready cl);;
  Done cl.

(** The answer to a client, if it came. *)
Definition reply_of (cl : Cluster) (n : NodeId) (client : Channel) : option Reply :=
  d ← cl_nodes cl !! n;
  snd <$> List.find (fun cr => cr.1 =? client) (replies d).

Definition applied (cl : Cluster) (n : NodeId) : list AppliedEntry :=
  default [] (app <$> cl_nodes cl !! n).

Definition hello : bytes := list_byte_of_string "Hello, Raft".

(** ** The tests *)

(** Propose to each node in turn, with a timeout of three ticks, until one
    accepts. *)
Fixpoint find_leader (fuel : nat) (ns : list NodeId) (todo : list NodeId) (client : Channel) (cl : Cluster)
    : exec (NodeId * Cluster) :=
  match fuel with
  | O => Panic
  | S fuel =>
      match todo with
      | [] => find_leader fuel ns ns client cl
      | n :: todo =>
          cl ← node_turn cl n (EvProposal hello client);
          cl ← round ns cl;
          cl ← rounds_until 2 ns (fun cl => bool_decide (is_Some (reply_of cl n client))) cl;
          match reply_of cl n client with
          | Some None => Done (n, cl)
          | Some (Some (FollowerNode _)) => find_leader fuel ns todo (client + 1) cl
          | Some (Some _) => Panic
          | None => find_leader fuel ns todo (client + 1) cl
          end
      end
  end.

Definition init_three_node_cluster : exec (NodeId * Cluster) :=
  let ns := [1; 2; 3] in
  cl ← start_cluster ((fun n => (n, mem_new)) <$> ns);
  find_leader 200 ns ns 0 cl.

Definition basic_cluster : exec () :=
  let ns := [1; 2; 3] in
  '(_, cl) ← init_three_node_cluster;
  cl ← on_nodes (fun cl n =>
         cl ← wait ns (fun cl => bool_decide (applied cl n <> [])) cl;
         check_eq (head (applied cl n)) (Some (ACommand hello));;
         Done cl) cl ns;
  Done ().

Definition some_storage : exec InMemoryStorage :=
  '(s, _) ← store_metadata mem_new (mkPersistedMetadata 2 None);
  '(s, _) ← store_log_entries s (mkPersistedLogAddendum 3 [mkLogEntry 1 (list_byte_of_string "CMD3")]);
  '(s, _) ← store_snapshot s (mkSnapshot 2 1 (list_byte_of_string "CMD1/CMD2"));
  Done s.

Definition cluster_with_snapshot : exec () :=
  let ns := [1; 2] in
  s ← some_storage;
  cl ← start_cluster [(1, s); (2, mem_new)];
  cl ← wait ns (fun cl => bool_decide (applied cl 2 <> [])) cl;
  check (match head (applied cl 2) with Some (ASnapshot _) => true | _ => false end);;
  cl ← node_turn cl 1 (EvProposal hello 0);
  cl ← wait ns (fun cl => bool_decide (is_Some (reply_of cl 1 0))) cl;
  check (match reply_of cl 1 0 with Some None => true | _ => false end);;
  cl ← wait ns (fun cl => bool_decide (2 <= len (applied cl 1) /\ 3 <= len (applied cl 2))) cl;
  let cmd3 := ACommand (list_byte_of_string "CMD3") in
  check_eq (take 2 (applied cl 1)) [cmd3; ACommand hello];;
  check_eq (take 2 (drop 1 (applied cl 2))) [cmd3; ACommand hello].
End tests.

(** A sequence of draws in the range, by a linear congruence from [seed]. *)
Definition seeded (seed : Z) (r : Z) (n : NodeId) : Rng :=
  fun k _ _ => 15 + (((seed * 40503 + r * 30103 + n * 10007 + Z.of_nat k * 257) `mod` 65537) `mod` 16).

(** The integration tests, with the draws of [seed]. *)
Definition integration_tests (seed : Z) : list (exec ()) :=
  [basic_cluster (seeded seed); cluster_with_snapshot (seeded seed)].
