(* ===== verification/StorageTests.v ===== *)
(** The unit tests of the two storages, crates/raft-file-storage/src/lib.rs and
    crates/raft-test-utils/src/lib.rs, and of the ids of
    crates/raft-kv/src/main.rs; the list of all unit tests. *)

From S2P Require Import Prelude Types RaftCore Codec Storage FileStorage MemStorage Kv ExampleCodec.
From S2P Require Import TestHarness ElectionTests ReplicationTests SnapshotTests.
From Stdlib Require Import Strings.String.
#[local] Open Scope Z_scope.
#[local] Open Scope list_scope.

Section storage_tests.
Context `{Postcard PersistedMetadata} `{Postcard LogEntry} `{Postcard Snapshot}.
Context (spilled : bytes -> nat).

(** [call.await.unwrap()], of a call that stores and of one that restores. *)
Definition stored_ok {St} (call : exec (St * ioresult unit)) : exec St :=
  '(st, r) ← call; match r with Ok _ => Done st | Err _ => Panic end.

Definition restored_ok {A} (r : ioresult A) : exec A :=
  match r with Ok a => Done a | Err _ => Panic end.

Definition restored_some {A} (r : ioresult (option A)) : exec A :=
  o ← restored_ok r; unwrap o.

Definition is_err {A} (r : ioresult A) : bool := match r with Ok _ => false | Err _ => true end.

Definition make_log_entry (term : Z) (command : string) : LogEntry :=
  mkLogEntry term (list_byte_of_string command).

(** ** File storage *)
#[local] Instance files : Storage Files := file_storage spilled.

(** The directory [tempfile::tempdir()] gives. *)
Definition tmpdir : Files := ∅.

Definition file_exists_in_dir (s : Files) (filename : string) : bool := bool_decide (is_Some (s !! filename)).

Definition file_does_not_exist_in_dir (s : Files) (filename : string) : bool :=
  bool_decide (s !! filename = None).

Definition test_atomic_serialization : exec () :=
  s ← stored_ok (store_metadata tmpdir (mkPersistedMetadata 1 None));
  check (file_exists_in_dir s "metadata");;
  check (file_does_not_exist_in_dir s ".metadata.tmp");;
  m ← restored_some (restore_metadata s);
  check_eq 1 (pm_term m);;
  check_eq None (pm_voted_for m).

Definition test_entries_rt : exec () :=
  let entries := [make_log_entry 1 "CMD1"; make_log_entry 1 "CMD2"] in
  s ← stored_ok (store_log_entries tmpdir (mkPersistedLogAddendum 1 entries));
  check (file_exists_in_dir s "log");;
  check (file_does_not_exist_in_dir s ".log.tmp");;
  l ← restored_some (restore_log_entries s);
  check_eq l entries.

Definition test_overwrite_entries : exec () :=
  let orig_entries := [make_log_entry 1 "CMD1"; make_log_entry 1 "TMPCMD2"; make_log_entry 1 "TMPCMD3"] in
  s ← stored_ok (store_log_entries tmpdir (mkPersistedLogAddendum 1 orig_entries));
  let new_entries := [make_log_entry 1 "CMD2"; make_log_entry 1 "CMD3"; make_log_entry 1 "CMD4"] in
  s ← stored_ok (store_log_entries s (mkPersistedLogAddendum 2 new_entries));
  log_entries ← restored_some (restore_log_entries s);
  check_eq (take 1 log_entries) (take 1 orig_entries);;
  check_eq (drop 1 log_entries) new_entries.

Definition partial_frame : exec () :=
  let entries := [make_log_entry 1 "CMD1"] in
  s ← stored_ok (store_log_entries tmpdir (mkPersistedLogAddendum 1 entries));
  let s := alter (fun log => log ++ be_bytes 8 2) LOG s in
  let next := [make_log_entry 1 "CMD2"] in
  s ← stored_ok (store_log_entries s (mkPersistedLogAddendum 2 next));
  log ← restored_some (restore_log_entries s);
  check_eq (take 1 log) (take 1 entries);;
  check_eq (drop 1 log) next.

Definition restore_on_empty_dir : exec () :=
  m ← restored_ok (restore_metadata tmpdir);
  check (bool_decide (m = None));;
  l ← restored_ok (restore_log_entries tmpdir);
  check (bool_decide (l = None));;
  sn ← restored_ok (restore_snapshot tmpdir);
  check (match sn with None => true | Some _ => false end);;
  check (is_err (retrieve_snapshot_bytes tmpdir)).

Definition truncate_log_restore : exec () :=
  s ← stored_ok (store_log_entries tmpdir (mkPersistedLogAddendum 1 [make_log_entry 1 "CMD1"]));
  s ← stored_ok (truncate_log s);
  restored ← restored_some (restore_log_entries s);
  check_eq restored [].

Definition check_snapshot (a b : Snapshot) : exec () :=
  check_eq (sn_last_included_index a) (sn_last_included_index b);;
  check_eq (sn_last_included_term a) (sn_last_included_term b);;
  check_eq (sn_data a) (sn_data b).

Definition snapshot_rt : exec () :=
  let snapshot := mkSnapshot 100 2 (list_byte_of_string "SNAPSHOT") in
  s ← stored_ok (store_snapshot tmpdir snapshot);
  restored ← restored_some (restore_snapshot s);
  check_snapshot restored snapshot.

Definition file_storage_tests : list (exec ()) :=
  [test_atomic_serialization; test_entries_rt; test_overwrite_entries; partial_frame;
   restore_on_empty_dir; truncate_log_restore; snapshot_rt].

(** ** In-memory storage *)
#[local] Instance buffers : Storage InMemoryStorage := mem_storage.

Definition check_metadata (m : PersistedMetadata) (term : Z) (vote : option NodeId) : exec () :=
  check_eq (pm_term m) term;; check_eq (pm_voted_for m) vote.

Definition is_empty (b : bytes) : bool := bool_decide (b = []).

Definition test_store_metadata : exec () :=
  '(s, res) ← store_metadata mem_new (mkPersistedMetadata 1 (Some 1));
  check (negb (is_err res));;
  out ← unwrap (from_bytes (ms_metadata s));
  check_metadata out 1 (Some 1);;
  s ← stored_ok (store_metadata s (mkPersistedMetadata 2 None));
  out ← unwrap (from_bytes (ms_metadata s));
  check_metadata out 2 None.

Definition store_and_restore_metadata : exec () :=
  let metadata := mkPersistedMetadata 1 (Some 2) in
  s ← stored_ok (store_metadata mem_new metadata);
  compare ← restored_some (restore_metadata s);
  check_metadata compare (pm_term metadata) (pm_voted_for metadata).

Definition store_and_restore_log : exec () :=
  let entries := [make_log_entry 1 "CMD1"; make_log_entry 1 "CMD2"] in
  s ← stored_ok (store_log_entries mem_new (mkPersistedLogAddendum 1 entries));
  check (negb (is_empty (ms_log_entries s)));;
  compare ← restored_some (restore_log_entries s);
  check_eq compare entries.

Definition test_overwrite_log : exec () :=
  let initial_entries := [make_log_entry 1 "CMD1"; make_log_entry 1 "CMD2"; make_log_entry 1 "CMD3"] in
  s ← stored_ok (store_log_entries mem_new (mkPersistedLogAddendum 1 initial_entries));
  let overwrite := [make_log_entry 2 "CMD2_MOD"; make_log_entry 2 "CMD3_MOD"] in
  s ← stored_ok (store_log_entries s (mkPersistedLogAddendum 2 overwrite));
  out ← restored_some (restore_log_entries s);
  check_eq out [make_log_entry 1 "CMD1"; make_log_entry 2 "CMD2_MOD"; make_log_entry 2 "CMD3_MOD"].

Definition snapshot_bytes : Snapshot := mkSnapshot 100 2 (list_byte_of_string "SNAPSHOT BYTES").

Definition store_and_restore_snapshot : exec () :=
  s ← stored_ok (store_snapshot mem_new snapshot_bytes);
  check (negb (is_empty (ms_snapshot s)));;
  compare ← restored_some (restore_snapshot s);
  check_snapshot snapshot_bytes compare.

(** The test [retrieve_snapshot_bytes]. *)
Definition retrieve_snapshot_bytes_test : exec () :=
  s ← stored_ok (store_snapshot mem_new snapshot_bytes);
  bytes ← restored_ok (retrieve_snapshot_bytes s);
  check_eq bytes (list_byte_of_string "SNAPSHOT BYTES").

(** The test [truncate_log]. *)
Definition truncate_log_test : exec () :=
  let entries := [make_log_entry 1 "CMD1"; make_log_entry 1 "CMD2"] in
  s ← stored_ok (store_log_entries mem_new (mkPersistedLogAddendum 1 entries));
  check (negb (is_empty (ms_log_entries s)));;
  s ← stored_ok (truncate_log s);
  check (is_empty (ms_log_entries s)).

Definition test_on_empty : exec () :=
  m ← restored_ok (restore_metadata mem_new);
  check (bool_decide (m = None));;
  l ← restored_ok (restore_log_entries mem_new);
  check (bool_decide (l = None));;
  sn ← restored_ok (restore_snapshot mem_new);
  check (match sn with None => true | Some _ => false end).

Definition mem_storage_tests : list (exec ()) :=
  [test_store_metadata; store_and_restore_metadata; store_and_restore_log; test_overwrite_log;
   store_and_restore_snapshot; retrieve_snapshot_bytes_test; truncate_log_test; test_on_empty].
End storage_tests.

(** ** Ids of the service *)
Definition test_id_from_hostname : exec () :=
  check_eq (id_from_hostname "raft-kv-0") (inl 1);;
  check_eq (id_from_hostname "raft-kv-7d9f-x2k302") (inr "Invalid number for hostname: x2k302"%string);;
  check_eq (id_from_hostname "localhost") (inr "Hostname localhost has no final '-' with ID number"%string).

(** ** The suite *)

(** The draws of one call: [a] for its first, [b] for the others. *)
Definition drawing (a b : Z) : Rng := fun k _ _ => match k with O => a | S _ => b end.

Definition unit_tests (g : Rng) : list (exec ()) :=
  election_tests g ++ replication_tests g ++ snapshot_tests g
  ++ file_storage_tests (fun _ => 0%nat) ++ mem_storage_tests ++ [test_id_from_hostname].

(** Every value of the tests' timeout range, for the first draw and for the
    others, together and against each other. *)
Definition draws : list (Z * Z) :=
  a ← seqZ 15 16; [(a, a); (a, 45 - a)].
