(* ===== verification/Tests.v ===== *)
(** The model passes the tests of the repository. *)

From S2P Require Import Prelude Types RaftCore Storage TestHarness StorageTests TransportTests IntegrationTests.

Definition passes (tests : list (exec ())) : Prop := Forall (fun test => test = Done ()) tests.

(** A check of the translation, on fixed draws and schedules: the translated
    tests run to their end.  These are the 56 unit tests of the core, the 15 of
    the two storages and the one of the service's ids, each with 32 pairs of
    election timeouts from their range (the same for all nodes of a test); the
    two of the TCP transport, under three schedules with refused connects,
    failed sends and reconnects; and the two integration tests of whole
    clusters, for a hundred sequences of election timeouts. *)
Lemma tests_pass :
  Forall (fun ab => passes (unit_tests (drawing ab.1 ab.2))) draws
  /\ (forall g, len (unit_tests g) = 72)
  /\ passes transport_tests
  /\ Forall (fun seed => passes (integration_tests seed)) (seqZ 0 100).
Proof.
  split_and!; [|done|..]; unfold passes; apply (bool_decide_unpack _); vm_compute; exact I.
Qed.
