(* ===== verification/SystemExamples.v ===== *)
(** Concrete runs of the whole node (event loop, file storage, key-value
    store), and what the node does around snapshots and lost leadership. *)

From S2P Require Import Prelude Types RaftCore CoreLog CoreFrame CoreReplication CoreElection.
From S2P Require Import CoreInvariant CoreCommit CoreTotal ReplicationSafety CoreEffects.
From S2P Require Import CoreExamples CoreLeader Codec Storage FileStorage FileStorageSpec.
From S2P Require Import MemStorage StorageTheorems EventLoop EventLoopFrame EventLoopTheorems.
From S2P Require Import EventLoopDurable Transport Kv KvTheorems ExampleCodec.

(** ** A node on files *)
Definition unspilled : bytes -> nat := fun _ => 0%nat.

#[export] Instance node_files : Storage Files := file_storage unspilled.

Definition KvDriver : Type := RaftDriver TcpTransport Files Store.

Definition kv_config (threshold : Z) (fs : Files) (rx : list Message)
    : RaftConfig TcpTransport Files :=
  mkRaftConfig TcpTransport Files 2 [1; 2; 3] None (15, 31) threshold
    (mkTcpTransport (senders (tcp_new 2 [1; 2; 3])) rx) fs.

(** Boot on [fs], then handle the messages [rx] in order. *)
Definition kv_run (threshold : Z) (fs : Files) (rx : list Message) : exec KvDriver :=
  d ← driver_new low_rng (kv_config threshold fs rx) (∅ : Store);
  event_loop d ((fun _ => (low_rng, EvRecv)) <$> rx).

Definition set_bytes (k v : string) : bytes :=
  match to_allocvec (Set_ k v) with Some b => b | None => [] end.

Definition command_a : bytes := set_bytes "a" "1".
Definition command_b : bytes := set_bytes "b" "2".
Definition command_c : bytes := set_bytes "c" "3".

(** Leader 1 of term 1 sends a no-op and three writes, of which [commit] are
    committed. *)
Definition batch (commit : Z) : Message :=
  AppendEntries (mkAppendEntriesRPC 1 1 0 0
    [entry 1 []; entry 1 command_a; entry 1 command_b; entry 1 command_c] commit).

Definition store_ab : Store := <["a" := "1"]> (<["b" := "2"]> ∅).
Definition store_abc : Store := <["c" := "3"]> store_ab.

(** What a run leaves: the last index and the term of the core, the store, the
    snapshot on disk, and the index acknowledged to the leader. *)
Definition acknowledged (d : KvDriver) : list (Z * bool) :=
  omap (fun m => match m with
                 | AppendEntriesResponse r => Some (aer_match_index r, aer_success r)
                 | _ => None
                 end) (default [] (senders (transport d) !! 1)).

Definition disk_snapshot (d : KvDriver) : option (Z * option Store) :=
  match restore_snapshot (storage d) with
  | Ok (Some sn) => Some (sn_last_included_index sn, from_bytes (sn_data sn))
  | _ => None
  end.

Definition outcome (r : exec KvDriver) : option (Z * Store * option (Z * option Store) * list (Z * bool)) :=
  match r with
  | Done d => Some (last_log_index (core d), app d, disk_snapshot d, acknowledged d)
  | Panic => None
  end.

Definition reboot (threshold : Z) (r : exec KvDriver) : exec KvDriver :=
  d ← r; kv_run threshold (storage d) [].

(** Below the snapshot threshold the node stores what it acknowledges: after a
    reboot all four entries are back. *)
Lemma small_batch_survives :
  outcome (kv_run 100 ∅ [batch 3]) = Some (4, store_ab, None, [(4, true)])
  /\ outcome (reboot 100 (kv_run 100 ∅ [batch 3])) = Some (4, ∅, None, []).
Proof. split; vm_compute; reflexivity. Qed.

(** ** Snapshots: what the node does

    Runs of what [Limits.snapshot_loses] and [Limits.install_without_log] show. *)

(** A snapshot in the middle of a batch.  When the snapshot threshold is
    reached before the last entry of a committed batch, the snapshot stored on
    disk carries the index of the whole batch with the store as it was in the
    middle of it: index 4 is marked as included, and the write at index 4 is
    missing. *)
Lemma snapshot_inside_batch :
  (fun d => (disk_snapshot d, last_included_index (core d), app d)) <$> kv_run 2 ∅ [batch 4]
  = Done (Some (4, Some store_ab), 4, store_abc).
Proof. vm_compute. reflexivity. Qed.

(** A snapshot drops what is not applied yet.  With four entries stored
    and acknowledged and three of them applied, the snapshot at index 3 empties
    the log file, while the core keeps entry 4: after a reboot the acknowledged
    entry is gone. *)
Lemma snapshot_forgets_unapplied :
  (d ← kv_run 2 ∅ [batch 3]; d' ← reboot 2 (Done d);
   Done (acknowledged d, last_log_index (core d), last_log_index (core d')))
  = Done ([(4, true)], 4, 3).
Proof. vm_compute. reflexivity. Qed.

(** A reboot from a snapshot leaves the application empty.  The booted
    core counts the snapshot's entries as applied, but the snapshot is not
    handed to the application: the store is empty, and since the indices of
    the snapshot are never applied again, it stays without them. *)
Lemma reboot_empties_store :
  (d ← kv_run 2 ∅ [batch 3]; d' ← reboot 2 (Done d);
   Done (app d, disk_snapshot d', last_applied (core d'), app d'))
  = Done (store_ab, Some (3, Some store_ab), 3, ∅).
Proof. vm_compute. reflexivity. Qed.

(** A snapshot sent to a node that has nothing on disk. *)
Definition snapshot_message : Message :=
  InstallSnapshotMsg (mkInstallSnapshotRPC 1 1 3 1
    (match to_allocvec store_ab with Some b => b | None => [] end)).

(** The files after the actions of that message that ran. *)
Definition half_installed : Files :=
  match (d ← driver_new low_rng (kv_config 2 ∅ []) (∅ : Store);
         d ← handle_action d (PersistMetadata 1 None);
         stored d (store_snapshot (storage d)
           (mkSnapshot 3 1 (match to_allocvec store_ab with Some b => b | None => [] end)))) with
  | Done d => storage d
  | Panic => ∅
  end.

(** A new follower cannot install a snapshot.  On a node without a log
    file, the InstallSnapshot message ends the event loop: clearing the log
    fails because the file is missing.  By then the snapshot is on disk, and
    every later boot fails too, for lack of a log file beside it. *)
Lemma fresh_follower_install_panics :
  kv_run 2 ∅ [snapshot_message] = Panic /\ kv_run 2 half_installed [] = Panic
  /\ disk_snapshot (mkRaftDriver 2 follower ∅ ∅ 0 2 (tcp_new 2 []) half_installed ∅ [])
     = Some (3, Some store_ab).
Proof. split_and!; vm_compute; reflexivity. Qed.

(** ** A write that was overwritten *)

(** Node 2 becomes the leader of term 1 and takes the write of client 11, which
    no other node gets; then it handles [msg]. *)
Definition lead_and_write (msg : Message) : exec KvDriver :=
  d ← driver_new low_rng (kv_config 100 ∅
        [RequestVoteResponse (mkRequestVoteResponseRPC 1 1 true); msg]) (∅ : Store);
  event_loop d (replicate 15 (low_rng, EvTick)
                ++ [(low_rng, EvRecv); (low_rng, EvProposal command_a 11); (low_rng, EvRecv)]).

(** Node 3 leads term 2 without that write, and has committed another one at
    the same index. *)
Definition other_leader : Message :=
  AppendEntries (mkAppendEntriesRPC 2 3 0 0 [entry 2 []; entry 2 command_b] 2).

(** A lost write is acknowledged.  The message that deposes a leader may
    overwrite an entry a client waits for and apply the new one in the same
    turn.  The waiting clients are looked up by index and are drained only
    after the actions: the client of the overwritten write is told that it
    succeeded.  Here write [a] is in no log and never reaches the store. *)
Lemma overwritten_write_acknowledged :
  (fun d => (replies d, e_command <$> log (core d), app d)) <$> lead_and_write other_leader
  = Done ([(11, None)], [[]; command_b], <["b" := "2"]> ∅).
Proof. vm_compute. reflexivity. Qed.
