(* ===== verification/SystemWitnesses.v ===== *)
(** The theorems on the storage, the event loop, the transport and the service,
    applied at concrete inputs. *)

From S2P Require Import Prelude Types RaftCore CoreLog CoreFrame CoreReplication CoreElection.
From S2P Require Import CoreInvariant CoreCommit CoreTotal ReplicationSafety CoreEffects.
From S2P Require Import CoreExamples CoreLeader Codec Storage FileStorage FileStorageSpec.
From S2P Require Import MemStorage StorageTheorems EventLoop EventLoopFrame EventLoopTheorems.
From S2P Require Import EventLoopReplies EventLoopDurable Limits Transport Kv KvTheorems ExampleCodec.
From S2P Require Import NodeHandle SystemExamples.

(** ** Storage *)

(** A term, three entries, and an overwrite of the last two. *)
Definition some_ops : list StoreOp :=
  [OpMetadata (mkPersistedMetadata 1 (Some 2));
   OpLog 1 [entry 1 []; entry 1 command_a; entry 1 command_b];
   OpLog 2 [entry 2 command_c];
   OpSnapshot (mkSnapshot 1 1 [])].

Lemma entry_fits t c : is_Some (to_allocvec (mkLogEntry t c)) -> len c < 1000 -> frame_fits (mkLogEntry t c).
Proof.
  intros [b Hb] Hc. exists b. split; [done|]. cbn in Hb. unfold put_u64 in Hb.
  destruct ((0 <=? t) && (t <? U64)); [|done]. cbn in Hb. injection Hb as <-.
  unfold U32, len in *. cbn [length]. lia.
Qed.

Lemma some_ops_ok : ops_ok (H0 := file_storage_laws unspilled) view_empty some_ops.
Proof.
  split; [by eexists|]. split; [split; [done|]|].
  { repeat constructor; (apply entry_fits; [by eexists|vm_compute; reflexivity]). }
  split; [split; [done|]|].
  { repeat constructor; (apply entry_fits; [by eexists|vm_compute; reflexivity]). }
  split; [by eexists|done].
Qed.

Lemma file_storage_refines_witness :
  exists fs o, run_ops (H := file_storage unspilled) ∅ some_ops = Done fs
    /\ file_restore_log_entries fs = Ok o /\ default [] o = [entry 1 []; entry 2 command_c].
Proof.
  destruct (file_storage_refines unspilled some_ops some_ops_ok) as (fs & H & _ & _ & o & Ho & Hl).
  exists fs, o. split; [exact H|]. split; [exact Ho|]. rewrite Hl. vm_compute. reflexivity.
Defined.

Lemma file_memory_agree_witness :
  exists fs st, run_ops (H := file_storage unspilled) ∅ some_ops = Done fs
    /\ run_ops mem_new some_ops = Done st /\ read_type fs METADATA = mem_restore_metadata st.
Proof.
  assert (from_bytes (T := PersistedMetadata) [] = None) as Hm by reflexivity.
  assert (from_bytes (T := Snapshot) [] = None) as Hs by reflexivity.
  destruct (file_memory_agree unspilled some_ops Hm Hs some_ops_ok)
    as (fs & st & H1 & H2 & H3 & _).
  exists fs, st. split; [exact H1|]. split; [exact H2|exact H3].
Defined.

(** The process dies after nine bytes of the first frame. *)
Definition first_entries : list LogEntry := [entry 1 command_a].

Definition torn_files : Files :=
  {[LOG := take 9 (write_frames 1 first_entries).1]}.

Lemma torn_crash :
  fs_crash ∅ (file_store_log_entries unspilled ∅ (mkPersistedLogAddendum 1 first_entries)).1 torn_files.
Proof.
  change (file_store_log_entries _ _ _).1 with
    [OpenCreate LOG; SetLen LOG 0; Append LOG (write_frames 1 first_entries).1].
  apply crash_after, crash_after.
  replace torn_files with (fs_exec (fs_exec (fs_exec ∅ (OpenCreate LOG)) (SetLen LOG 0))
    (Append LOG (take 9 (write_frames 1 first_entries).1))) by (vm_compute; reflexivity).
  apply crash_torn. apply prefix_take.
Qed.

Lemma store_log_crash_witness :
  exists l, file_represents torn_files (mkView None l None)
    /\ (l = [] \/ exists k, l = take k (number 1 first_entries)).
Proof.
  destruct (store_log_crash unspilled ∅ view_empty 1 first_entries torn_files) as (l & Hr & _ & Hl).
  - apply file_empty.
  - vm_compute. split; [discriminate|reflexivity].
  - repeat constructor. apply entry_fits; [eexists; reflexivity|vm_compute; reflexivity].
  - apply torn_crash.
  - exists l. split; [exact Hr|exact Hl].
Defined.

(** The process dies in the middle of the temporary file. *)
Definition old_metadata : PersistedMetadata := mkPersistedMetadata 1 None.
Definition new_metadata : PersistedMetadata := mkPersistedMetadata 2 (Some 3).

Definition metadata_bytes (m : PersistedMetadata) : bytes := default [] (to_allocvec m).

Definition metadata_files : Files := {[METADATA := metadata_bytes old_metadata]}.

Definition half_written : Files :=
  fs_exec (fs_exec metadata_files (OpenTruncate (tmp_name METADATA)))
    (Append (tmp_name METADATA) (take 4 (metadata_bytes new_metadata))).

Lemma atomic_serialize_crash_witness :
  read_type half_written METADATA = Ok (Some old_metadata)
  \/ read_type half_written METADATA = Ok (Some new_metadata).
Proof.
  apply (atomic_serialize_crash metadata_files METADATA (Some old_metadata) new_metadata half_written).
  - discriminate.
  - exists (metadata_bytes old_metadata). split; reflexivity.
  - change (atomic_serialize METADATA new_metadata).1 with
      [OpenTruncate (tmp_name METADATA); Append (tmp_name METADATA) (metadata_bytes new_metadata);
       Rename (tmp_name METADATA) METADATA].
    apply crash_after, crash_torn, prefix_take.
Defined.

(** ** The event loop *)

(** A proposal on a node that is not the leader, then a tick. *)
Definition some_events : list (Rng * Event) :=
  [(low_rng, EvProposal command_a 11); (low_rng, EvTick)].

Definition booted_node : KvDriver :=
  match driver_new low_rng (kv_config 100 ∅ []) (∅ : Store) with
  | Done d => d
  | Panic => mkRaftDriver 0 follower ∅ ∅ 0 0 (tcp_new 0 []) ∅ ∅ []
  end.

Lemma booted_node_boots : driver_new low_rng (kv_config 100 ∅ []) (∅ : Store) = Done booted_node.
Proof. vm_compute. reflexivity. Qed.

Lemma booted_node_wf : core_wf (core booted_node).
Proof.
  assert (core booted_node = node 2 [1; 3] Follower 0 [] 0 ∅) as -> by (vm_compute; reflexivity).
  apply node_wf; unfold len; cbn; [lia..|by apply map_Forall_empty].
Qed.

Lemma some_events_ok : events_ok booted_node some_events.
Proof.
  split; [vm_compute; reflexivity|]. destruct (event_loop_turn _ _ _) as [d|]; [|exact I].
  split; [exact I|]. destruct (event_loop_turn _ _ _); exact I.
Qed.


Lemma no_client_waits_on_follower_witness :
  exists d', event_loop booted_node some_events = Done d' /\ (replies d').*1 ≡ₚ [11].
Proof.
  destruct (event_loop booted_node some_events) as [d'|] eqn:H; [|vm_compute in H; discriminate H].
  exists d'. split; [reflexivity|].
  assert (is_leader (core d') = false) as Hl.
  { assert ((is_leader ∘ core) <$> event_loop booted_node some_events = Done false) as Hc
      by (vm_compute; reflexivity). rewrite H in Hc. cbn in Hc. congruence. }
  exact (proj2 (proj2 (no_client_waits_on_follower low_rng (kv_config 100 ∅ []) (∅ : Store) booted_node
           some_events d' booted_node_boots booted_node_wf some_events_ok H Hl))).
Defined.

(** The handle of that node: a proposal, a read, and the turn that takes the
    proposal. *)
Definition handle0 := mkRaftNode [] [] (Running booted_node) 0.

Definition handle1 := mkRaftNode [(command_a, 0)] [1] (Running booted_node) 2.

Definition refused_node : KvDriver :=
  match event_loop_turn low_rng booted_node (EvProposal command_a 0) with
  | Done d => d
  | Panic => booted_node
  end.

Definition handle2 := mkRaftNode [] [1] (Running refused_node) 2.

Lemma handle_runs : rtc node_step handle0 handle2.
Proof.
  apply (rtc_l _ _ (mkRaftNode [(command_a, 0)] [] (Running booted_node) 1)).
  { by apply (step_propose _ command_a _ 0). }
  apply (rtc_l _ _ handle1); [by apply (step_read _ _ 1)|].
  apply rtc_once. change handle2 with (mkRaftNode [] [1] (Running refused_node) 2).
  apply (step_turn handle1 booted_node low_rng ArmProposal (EvProposal command_a 0)
           (mkRaftNode [] [1] (Running booted_node) 2) refused_node); [done|done| |].
  - vm_compute. reflexivity.
  - vm_compute. reflexivity.
Qed.


(** A leader of term 1 takes a write and hears that node 1 has it. *)
Definition write_answer : Message :=
  AppendEntriesResponse (mkAppendEntriesResponseRPC 1 1 2 true None None).

Definition RecordingDriver : Type := RaftDriver TcpTransport Files (Store * list bytes).

#[local] Existing Instance recording.

Definition write_config : RaftConfig TcpTransport Files :=
  kv_config 100 ∅ [RequestVoteResponse (mkRequestVoteResponseRPC 1 1 true); write_answer].

Definition no_driver : RecordingDriver := mkRaftDriver 0 follower ∅ ∅ 0 0 (tcp_new 0 []) ∅ (∅, []) [].

Definition or_none (r : exec RecordingDriver) : RecordingDriver :=
  match r with Done d => d | Panic => no_driver end.

Definition elapsed : list (Rng * Event) := replicate 15 (low_rng, EvTick).
Definition elected_events : list (Rng * Event) := elapsed ++ [(low_rng, EvRecv)].
Definition write_events : list (Rng * Event) := elected_events ++ [(low_rng, EvProposal command_a 11)].

Definition fresh_driver : RecordingDriver := or_none (driver_new low_rng write_config (∅, [])).
Definition candidate_driver : RecordingDriver := or_none (event_loop fresh_driver elapsed).
Definition elected_driver : RecordingDriver := or_none (event_loop fresh_driver elected_events).
Definition writing_driver : RecordingDriver := or_none (event_loop fresh_driver write_events).
Definition written_driver : RecordingDriver := or_none (event_loop_turn low_rng writing_driver EvRecv).

Definition is_done {X} (r : exec X) : bool :=
  match r with Done _ => true | Panic => false end.

Lemma or_none_Done (r : exec RecordingDriver) : is_done r = true -> r = Done (or_none r).
Proof. by destruct r. Qed.

Lemma events_ok_snoc (d d1 : RecordingDriver) events g ev :
  events_ok d events -> event_loop d events = Done d1 -> event_ok d1 ev ->
  events_ok d (events ++ [(g, ev)]).
Proof.
  revert d. induction events as [|[g' e] events IH]; intros d; cbn.
  - intros _ [= ->] He. split; [done|]. by case_match.
  - intros [He Hrest] H Hev. split; [done|]. destruct (event_loop_turn g' d e); [|done]. by apply IH.
Qed.

Lemma ticks_ok n (d : RecordingDriver) : events_ok d (replicate n (low_rng, EvTick)).
Proof. revert d. induction n; intros d; cbn; [done|]. split; [done|]. by case_match. Qed.

Lemma write_events_ok : events_ok fresh_driver (write_events ++ [(low_rng, EvRecv)]).
Proof.
  apply (events_ok_snoc _ writing_driver); [|apply or_none_Done; vm_compute; reflexivity|].
  - apply (events_ok_snoc _ elected_driver); [|apply or_none_Done; vm_compute; reflexivity|vm_compute; reflexivity].
    apply (events_ok_snoc _ candidate_driver); [apply ticks_ok|apply or_none_Done; vm_compute; reflexivity|].
    intros msg t Hr.
    assert (fst <$> recv (transport candidate_driver)
            = Some (RequestVoteResponse (mkRequestVoteResponseRPC 1 1 true))) as Hm by (vm_compute; reflexivity).
    rewrite Hr in Hm. injection Hm as ->. vm_compute. reflexivity.
  - intros msg t Hr.
    assert (fst <$> recv (transport writing_driver) = Some write_answer) as Hm by (vm_compute; reflexivity).
    rewrite Hr in Hm. injection Hm as ->. unfold input_ok, write_answer, append_response_ok. cbn [aer_success].
    split; [vm_compute; reflexivity|]. split; [vm_compute; discriminate|].
    assert (peers (core writing_driver) = [1; 3]) as -> by (vm_compute; reflexivity).
    assert (last_log_index (core writing_driver) = 2) as -> by (vm_compute; reflexivity).
    cbn. split; [apply elem_of_cons; by left|]. clear. lia.
Qed.

Lemma fresh_driver_wf : core_wf (core fresh_driver).
Proof.
  assert (core fresh_driver = node 2 [1; 3] Follower 0 [] 0 ∅) as -> by (vm_compute; reflexivity).
  apply node_wf; unfold len; cbn; [lia..|by apply map_Forall_empty].
Qed.

Lemma success_means_applied_witness :
  exists cmds, history written_driver = history writing_driver ++ cmds /\ command_a ∈ cmds.
Proof.
  apply (success_means_applied low_rng write_config (∅ : Store) fresh_driver write_events writing_driver
           low_rng EvRecv written_driver 11 command_a).
  - apply or_none_Done. vm_compute. reflexivity.
  - exact fresh_driver_wf.
  - exact write_events_ok.
  - change (NoDup [11]). apply NoDup_singleton.
  - apply or_none_Done. vm_compute. reflexivity.
  - apply or_none_Done. vm_compute. reflexivity.
  - vm_compute. reflexivity.
  - change (EvProposal command_a 11 ∈ (replicate 15 EvTick ++ [EvRecv; EvProposal command_a 11; EvRecv])).
    apply elem_of_app. right. apply elem_of_cons. right. apply elem_of_cons. left. reflexivity.
  - vm_compute. discriminate.
  - assert (replies written_driver = [(11, None)]) as -> by (vm_compute; reflexivity).
    apply elem_of_cons. left. reflexivity.
  - assert (replies writing_driver = []) as -> by (vm_compute; reflexivity). apply not_elem_of_nil.
Defined.

(** A follower of term 1 with its term on disk takes a batch, and dies after
    the entries are stored and before they are applied. *)
Definition quiet_core : RaftCore := node 2 [1; 3] Follower 1 [] 0 ∅.

Definition quiet_node : KvDriver :=
  mkRaftDriver 2 quiet_core ∅ ∅ 0 100 (tcp_new 2 [1; 2; 3]) metadata_files ∅ [].

Definition quiet_view : View := mkView (Some old_metadata) [] None.

Definition batch_result : RaftCore * list Action :=
  match core_input low_rng quiet_core (InMessage (batch 3)) with
  | Done r => r
  | Panic => (quiet_core, [])
  end.

Lemma quiet_core_wf : core_wf quiet_core.
Proof. apply node_wf; unfold len; cbn; [lia..|by apply map_Forall_empty]. Qed.

Lemma quiet_stored :
  stored_as (HL := file_storage_laws unspilled) quiet_node quiet_view (durable_of quiet_core).
Proof.
  split; [|by split_and!]. split_and!.
  - exists (metadata_bytes old_metadata). split; reflexivity.
  - done.
  - done.
Qed.

Lemma batch_ok : input_ok quiet_core (InMessage (batch 3)).
Proof.
  unfold input_ok, batch, append_ok, room, is_u64, len. split_and!; [cbn; lia..|].
  intros _. split; [cbn; lia|]. intros j e He Hj. cbn in Hj. lia.
Qed.

Lemma batch_actions :
  batch_result.2 =
  [PersistLogEntries 1 [entry 1 []; entry 1 command_a; entry 1 command_b; entry 1 command_c];
   ApplyToStateMachine 1 []; ApplyToStateMachine 2 command_a; ApplyToStateMachine 3 command_b;
   SendMessage 1 (AppendEntriesResponse (mkAppendEntriesResponseRPC 2 1 4 true None None))].
Proof. vm_compute. reflexivity. Qed.

Lemma crash_recovery_witness :
  exists d0 dur, handle_actions (quiet_node <| core := batch_result.1 |>) (take 1 batch_result.2) = Done d0
    /\ exec_durables (durable_of quiet_core) (take 1 batch_result.2) = Some dur.
Proof.
  destruct (crash_recovery (HL := file_storage_laws unspilled) low_rng low_rng quiet_node quiet_view
    (InMessage (batch 3)) batch_result.1 batch_result.2 (take 1 batch_result.2) (kv_config 100 ∅ []) ∅
    quiet_stored quiet_core_wf batch_ok eq_refl) as (d0 & dur & H1 & H2 & _).
  - vm_compute. reflexivity.
  - rewrite batch_actions. repeat constructor; (apply entry_fits; [eexists; reflexivity|vm_compute; reflexivity]).
  - rewrite batch_actions. vm_compute. split; [discriminate|split; reflexivity].
  - rewrite batch_actions. split; [discriminate|]. split; [reflexivity|].
    intros st es [Heq|Hin]%elem_of_cons; [injection Heq as -> ->; vm_compute; reflexivity|].
    exfalso. clear -Hin. repeat (apply elem_of_cons in Hin as [Hin|Hin]; [discriminate Hin|]).
    by apply not_elem_of_nil in Hin.
  - apply prefix_take.
  - cbn. lia.
  - exists d0, dur. split; [exact H1|exact H2].
Defined.

(** ** Limits *)

(** The append that node 2 has stored and answered arrives again. *)
Definition repeated : AppendEntriesRPC := mkAppendEntriesRPC 1 1 0 0 (log follower) 2.

Lemma repeated_ok : append_ok follower repeated.
Proof.
  unfold append_ok, room, is_u64, len. split_and!; [cbn; lia..|]. intros _. split; [cbn; lia|].
  intros j e He _. destruct j as [|[|[|j]]]; cbn in He; [injection He as <-; reflexivity..|done].
Qed.

Definition follower_ops : list StoreOp := [OpMetadata old_metadata; OpLog 1 (log follower)].

Definition ops_files (ops : list StoreOp) : Files :=
  match run_ops (H := file_storage unspilled) ∅ ops with Done fs => fs | Panic => ∅ end.

Lemma ops_files_represent ops :
  ops_ok (H0 := file_storage_laws unspilled) view_empty ops ->
  file_represents (ops_files ops) (foldl view_op view_empty ops).
Proof.
  intros Hok. destruct (run_ops_represents (H0 := file_storage_laws unspilled) _ _ ops (file_empty) Hok)
    as (fs & Hrun & Hr). unfold ops_files. rewrite Hrun. exact Hr.
Qed.

Lemma follower_fits : Forall frame_fits (log follower).
Proof. repeat constructor; (apply entry_fits; [by eexists|vm_compute; reflexivity]). Qed.

Lemma interrupted_write_loses_witness :
  exists s' acts pre entries post fs', handle_append_entries low_rng follower repeated = Done (s', acts)
    /\ acts = pre ++ PersistLogEntries 1 entries :: post
    /\ fs_crash (ops_files follower_ops) (file_store_log_entries unspilled (ops_files follower_ops)
         (mkPersistedLogAddendum 1 entries)).1 fs'
    /\ file_restore_log_entries (ops_files follower_ops) = Ok (Some (log follower))
    /\ file_restore_log_entries fs' = Ok (Some []).
Proof.
  destruct (handle_append_entries low_rng follower repeated) as [[s' acts]|] eqn:H;
    [|vm_compute in H; discriminate H].
  destruct (interrupted_write_loses unspilled low_rng (ops_files follower_ops) (Some old_metadata) None
    follower repeated s' acts follower_wf repeated_ok) as (pre & entries & post & fs' & H1 & H2 & H3).
  - split; [right; split; [reflexivity|discriminate]|reflexivity].
  - discriminate.
  - exact follower_fits.
  - apply (ops_files_represent follower_ops). split; [by eexists|]. split; [split; [done|exact follower_fits]|done].
  - exact H.
  - exists s', acts, pre, entries, post, fs'. split; [reflexivity|]. split; [exact H1|]. split; [exact H2|].
    split; [vm_compute; reflexivity|exact H3].
Defined.

(** Three of four entries are committed; the snapshot falls due with the second. *)
Definition batch_ops : list StoreOp :=
  [OpMetadata old_metadata; OpLog 1 [entry 1 []; entry 1 command_a; entry 1 command_b; entry 1 command_c]].

Definition due_node : KvDriver :=
  mkRaftDriver 2
    (node 2 [1; 3] Follower 1 [entry 1 []; entry 1 command_a; entry 1 command_b; entry 1 command_c] 3 ∅)
    ∅ ∅ 0 1 (tcp_new 2 [1; 2; 3]) (ops_files batch_ops) ∅ [].

Definition store_a_bytes : bytes := default [] (to_allocvec ({[ "a" := "1" ]}%string : Store)).

Lemma due_node_wf : core_wf (core due_node).
Proof. apply node_wf; unfold len; cbn; [lia..|by apply map_Forall_empty]. Qed.

Definition reboots (r : exec KvDriver) : bool :=
  match r with
  | Done d' => match driver_new low_rng (kv_config 1 (storage d') []) (∅ : Store) with Done _ => true | Panic => false end
  | Panic => false
  end.

Lemma due_reboots : reboots (handle_action due_node (ApplyToStateMachine 2 command_a)) = true.
Proof. vm_compute. reflexivity. Qed.

Lemma snapshot_loses_witness :
  exists d' t, handle_action due_node (ApplyToStateMachine 2 command_a) = Done d'
    /\ restore_snapshot (storage d') = Ok (Some (mkSnapshot 3 t store_a_bytes))
    /\ log (core d') = [entry 1 command_c]
    /\ exists d2, driver_new low_rng (kv_config 1 (storage d') []) (∅ : Store) = Done d2
         /\ app d2 = ∅ /\ last_applied (core d2) = 3 /\ log (core d2) = [].
Proof.
  destruct (snapshot_loses (HL := file_storage_laws unspilled) due_node
    (foldl view_op view_empty batch_ops) 2 command_a store_a_bytes due_node_wf) as (d' & t & H1 & H2 & H3 & H4).
  - apply (ops_files_represent batch_ops). split; [by eexists|]. split; [split; [done|]|done].
    repeat constructor; (apply entry_fits; [by eexists|vm_compute; reflexivity]).
  - discriminate.
  - discriminate.
  - vm_compute. discriminate.
  - vm_compute. reflexivity.
  - intros t Ht. vm_compute in Ht. injection Ht as <-. eexists. vm_compute. reflexivity.
  - exists d', t. split; [exact H1|]. split; [exact H2|]. split; [exact H3|].
    assert (reboots (Done d') = true) as Hb by (rewrite <- H1; exact due_reboots). unfold reboots in Hb.
    destruct (driver_new low_rng (kv_config 1 (storage d') []) (∅ : Store)) as [d2|] eqn:Hn; [|discriminate Hb].
    exists d2. split; [reflexivity|]. exact (H4 low_rng (kv_config 1 (storage d') []) ∅ d2 eq_refl Hn).
Defined.

(** ** The transport *)

(** Two messages while disconnected, a failed and a successful connect. *)
Definition some_iterations : list Iteration :=
  let m1 := RequestVoteResponse (mkRequestVoteResponseRPC 2 1 true) in
  let m2 := RequestVoteResponse (mkRequestVoteResponseRPC 2 2 false) in
  [mkIteration 0 true (RxMessage m1) true; mkIteration 10 true (Fired None) true;
   mkIteration 12 true (RxMessage m2) true; mkIteration 30 true (Fired (Some 5)) true;
   mkIteration 31 true PeerClosed true].

Definition sender_after : Sender :=
  default sender_init (sender_task sender_init some_iterations).

Lemma sender_after_eq : sender_task sender_init some_iterations = Some sender_after.
Proof. vm_compute. reflexivity. Qed.

Lemma sender_delivers_witness :
  sent_frames sender_after ++ pending_list sender_after
  `sublist_of` received_messages sender_init some_iterations.
Proof. exact (proj1 (sender_delivers some_iterations sender_after sender_after_eq)). Defined.

Lemma sender_backoff_witness : MIN_BACKOFF <= backoff sender_after <= MAX_BACKOFF.
Proof. exact (proj1 (sender_backoff some_iterations sender_after sender_after_eq)). Defined.

(** ** The service *)
Lemma hostname_id_witness : id_from_hostname "raft-node-2" = inl 3.
Proof. apply (proj1 hostname_id "raft-node" 2%nat). reflexivity. Defined.

Definition some_args : Args :=
  mkArgs ["10.0.0.1:9000"; "10.0.0.2:9000"; "10.0.0.3:9000"]%string None (Some 2) false 3000 9000.

Definition some_addrs : gmap Z string :=
  list_to_map [(1, "10.0.0.1:3000"); (2, "10.0.0.2:3000"); (3, "10.0.0.3:3000")]%string.

Lemma configuration_consistent_witness :
  main_config some_args None = Done (2, some_addrs, false)
  /\ 2 ∈ rc_nodes (build_config 2 some_args tt tt).
Proof.
  assert (main_config some_args None = Done (2, some_addrs, false)) as H by (vm_compute; reflexivity).
  split; [exact H|].
  refine (proj1 (proj2 (configuration_consistent some_args None 2 some_addrs false tt tt _ H))).
  intros i Hi. injection Hi as <-. vm_compute. split; [discriminate|reflexivity].
Defined.

(** The Raft node answers that node 3 leads. *)
Definition follower_state : AppState :=
  mkAppState (fun _ => Some (FollowerNode (Some 3))) (Some (FollowerNode (Some 3))) (Some ∅) some_addrs.

Lemma write_outcome_witness :
  set_handler follower_state "/kv" (mkSetRequest "a" "1") = inr (Redirect "http://10.0.0.3:3000/kv")
  /\ error_response some_addrs "/kv" (to_allocvec (Set_ "a" "1") ≫= as_propose follower_state)
       (Redirect "http://10.0.0.3:3000/kv").
Proof.
  assert (set_handler follower_state "/kv" (mkSetRequest "a" "1") = inr (Redirect "http://10.0.0.3:3000/kv")) as H
    by (vm_compute; reflexivity).
  split; [exact H|].
  assert (main_config some_args None = Done (2, as_http_addrs follower_state, false)) as Hm by (vm_compute; reflexivity).
  destruct (write_outcome some_args None 2 false follower_state "/kv" "a" "1" ∅) as [Hset _].
  - intros i Hi. injection Hi as <-. vm_compute. split; [discriminate|reflexivity].
  - exact Hm.
  - intros c l Hc. injection Hc as <-. change (3 ∈ [1; 2; 3]). do 2 (apply elem_of_cons; right).
    apply elem_of_cons. left. reflexivity.
  - rewrite H in Hset. exact Hset.
Defined.

Lemma store_replay_witness :
  exists data installed,
    kv_snapshot_request (foldl kv_command ∅ [command_a; command_b]) = Done data
    /\ kv_snapshot ∅ data = Done installed
    /\ foldl kv_command installed [command_c] = foldl kv_command ∅ [command_a; command_b; command_c].
Proof.
  destruct (kv_snapshot_request (foldl kv_command ∅ [command_a; command_b])) as [data|] eqn:H;
    [|vm_compute in H; discriminate H].
  destruct (store_replay ∅ ∅ [command_a; command_b] [command_c] data H) as (installed & H1 & H2 & _).
  exists data, installed. split; [reflexivity|]. split; [exact H1|exact H2].
Defined.
