(* ===== verification/ServiceWitnesses.v ===== *)
(** The theorems of the service at a concrete run: three key-value nodes on
    files, over TCP handles.  Node 1 is elected and a write is acknowledged;
    node 2 crashes in the middle of a turn, boots again and catches up. *)

From S2P Require Import Prelude Types RaftCore CoreLog CoreElection CoreInvariant CoreEffects.
From S2P Require Import Cluster Replicas ReplicaRuns.
From S2P Require Import Codec Storage FileStorage FileStorageSpec StorageTheorems.
From S2P Require Import EventLoop EventLoopFrame EventLoopTheorems EventLoopReplies EventLoopDurable.
From S2P Require Import Service ServiceSim ServiceSafety ServiceRuns Transport ServiceTransports TcpNetwork.
From S2P Require Import NodeHandle Kv KvTheorems ServiceKv ExampleCodec TransportTests SystemExamples SystemWitnesses.
#[local] Open Scope Z_scope.

Existing Instance recording.
#[local] Instance node_laws : StorageLaws Files := file_storage_laws unspilled.

#[local] Instance frame_fits_dec (e : LogEntry) : Decision (frame_fits e).
Proof.
  unfold frame_fits. destruct (to_allocvec e) as [b|]; [|right; by intros (b & H & _)].
  destruct (decide (len b < U32)) as [Hl|Hl]; [left; by exists b|right; intros (b' & [= <-] & H); lia].
Defined.

#[local] Instance file_storable_dec (e : LogEntry) : Decision (storable e) := frame_fits_dec e.
#[local] Instance file_metadata_dec (m : PersistedMetadata) : Decision (storable_metadata m).
Proof. cbn. apply _. Defined.

(** ** The service as it starts *)
Definition kv_cluster : Config := mkConfig [1; 2; 3] (Some 1) (1, 2).
Definition kv_start : Store * list bytes := (∅, []).

Abbreviation KvService := (@Service TcpTransport Files (Store * list bytes)).
Abbreviation KvNode := (RaftDriver TcpTransport Files (Store * list bytes)).

Definition boot_node (n : NodeId) : exec KvNode :=
  driver_new draw (node_config kv_cluster 100 n (∅ : Files) (tcp_new n [1; 2; 3])) kv_start.

Definition service_start : KvService :=
  mkService (list_to_map (omap (fun n => match boot_node n with Done d => Some (n, d) | Panic => None end) [1; 2; 3]))
    [] [].

Lemma service_start_initial : initial_service kv_cluster 100 kv_start service_start.
Proof.
  split_and!; [done..|]. intros n d Hd. cbn [sv_drivers service_start] in Hd.
  apply elem_of_list_to_map_2, list_elem_of_omap in Hd as (n' & Hin & Hd).
  destruct (boot_node n') as [d'|] eqn:Hb; [|done]. injection Hd as -> ->. split; [done|].
  exists draw, ∅, (tcp_new n [1; 2; 3]). split; [apply file_empty|]. split; [|exact Hb].
  apply holds_sent_ok. clear Hb. set_unfold in Hin. by destruct Hin as [->|[->|[->|[]]]].
Qed.

(** ** The run *)

(** The newest message to [n] is all that arrives. *)
Definition newest (n : NodeId) (wire : list (NodeId * Message)) : TcpTransport :=
  mkTcpTransport (senders (tcp_new n [1; 2; 3]))
    (match last (omap (fun x => if decide (x.1 = n) then Some x.2 else None) wire) with
     | Some m => [m] | None => [] end).

Definition receive (n : NodeId) : list Move := [MvNetwork n (newest n); MvTurn n EvRecv].

Definition until_write : list Move :=
  MvTurn 1 EvTick :: receive 2 ++ receive 1          (* node 1 is elected *)
  ++ receive 2 ++ receive 1 ++ receive 2 ++ receive 1  (* its first entry is committed *)
  ++ MvTurn 1 (EvProposal command_a 7) :: receive 2
  ++ [MvNetwork 1 (newest 1)].                       (* the response is there *)

(** Node 2 learns of the commit and crashes before it has answered, boots
    again and is told once more. *)
Definition after_write : list Move :=
  MvTurn 1 EvTick :: MvNetwork 2 (newest 2) :: MvCrash 2 EvRecv 1 (newest 2) :: MvTurn 2 EvRecv
  :: receive 1 ++ receive 2.

Abbreviation kv_step := (service_step kv_cluster 100 kv_start).
Abbreviation kv_reachable := (service_reachable kv_cluster 100 kv_start).

Definition service_after (w : KvService) (mvs : list Move) : KvService :=
  default service_start (service_run kv_cluster 100 kv_start w mvs).

Lemma service_after_steps w mvs :
  bool_decide (is_Some (service_run kv_cluster 100 kv_start w mvs)) = true -> rtc kv_step w (service_after w mvs).
Proof.
  intros [w' Hw]%bool_decide_eq_true. unfold service_after. rewrite Hw. by eapply service_run_sound.
Qed.

Definition no_node : KvNode := match boot_node 1 with Done d => d | Panic => no_driver end.
Definition node_of (w : KvService) (n : NodeId) : KvNode := default no_node (sv_drivers w !! n).

Lemma node_of_lookup w n : bool_decide (is_Some (sv_drivers w !! n)) = true -> sv_drivers w !! n = Some (node_of w n).
Proof. intros [d Hd]%bool_decide_eq_true. unfold node_of. by rewrite Hd. Qed.

(** Before the answer, the turn that answers, and after the crash of node 2. *)
Definition before_answer : KvService := service_after service_start until_write.
Definition asked_node : KvNode := node_of before_answer 1.
Definition answering_node : KvNode := or_none (event_loop_turn draw asked_node EvRecv).
Definition answered_service : KvService :=
  mkService (<[1 := answering_node]> (sv_drivers before_answer))
    (sv_wire before_answer ++ held 1 (transport answering_node)) (sv_events before_answer ++ [(1, EvRecv)]).
Definition later_service : KvService := service_after answered_service after_write.

Lemma before_answer_reachable : kv_reachable before_answer.
Proof.
  exists service_start. split; [apply service_start_initial|]. apply service_after_steps. vm_compute. reflexivity.
Qed.

Lemma answering_turn : sv_drivers before_answer !! 1 = Some asked_node /\ turn_ok draw asked_node EvRecv
  /\ event_loop_turn draw asked_node EvRecv = Done answering_node.
Proof.
  split; [apply node_of_lookup; vm_compute; reflexivity|].
  split; [apply (bool_decide_unpack _); vm_compute; exact I|]. vm_compute. reflexivity.
Qed.

Lemma later_steps : rtc kv_step answered_service later_service.
Proof. apply service_after_steps. vm_compute. reflexivity. Qed.

Lemma kv_cluster_nodes : NoDup (cfg_nodes kv_cluster) /\ len (cfg_nodes kv_cluster) < U64.
Proof. split; [|done]. apply (bool_decide_unpack _). vm_compute. exact I. Qed.

Lemma answered_reachable : kv_reachable answered_service.
Proof.
  destruct before_answer_reachable as (w0 & Hi & Hs). exists w0. split; [done|]. eapply rtc_r; [exact Hs|].
  exact (sv_turn kv_cluster 100 kv_start before_answer 1 asked_node draw EvRecv answering_node
    (proj1 answering_turn) (proj1 (proj2 answering_turn)) (proj2 (proj2 answering_turn))).
Qed.

(** ** Witnesses *)
Lemma service_refines_witness :
  exists y y', service_rel kv_cluster kv_start answered_service y
    /\ rtc (sys_step kv_cluster guarded) y y' /\ service_rel kv_cluster kv_start later_service y'.
Proof.
  apply (service_refines kv_cluster 100 kv_start (proj1 kv_cluster_nodes) (proj2 kv_cluster_nodes)).
  - apply answered_reachable.
  - apply later_steps.
Defined.

Lemma stores_agree_witness : (app (node_of later_service 2)).1 !! "a"%string = Some "1"%string
  /\ app (node_of later_service 2) = app (node_of answered_service 1).
Proof.
  split; [vm_compute; reflexivity|].
  refine (proj2 (stores_agree kv_cluster 100 kv_start (proj1 kv_cluster_nodes) (proj2 kv_cluster_nodes)
    answered_service later_service 1 2 _ _ answered_reachable later_steps _ _ _) _).
  - apply node_of_lookup. vm_compute. reflexivity.
  - apply node_of_lookup. vm_compute. reflexivity.
  - vm_compute. discriminate.
  - vm_compute. reflexivity.
Defined.

Lemma service_turn_returns_witness : exists d', event_loop_turn draw asked_node EvRecv = Done d'.
Proof.
  exact (service_turn_returns kv_cluster 100 kv_start (proj1 kv_cluster_nodes) (proj2 kv_cluster_nodes)
    before_answer 1 asked_node draw EvRecv before_answer_reachable (proj1 answering_turn)
    (proj1 (proj2 answering_turn))).
Defined.

(** Client 7 asked once, and gets its answer from a leader. *)
Lemma answer_given :
  is_leader (core answering_node) = true
  /\ NoDup ((events_of 1 (sv_events before_answer) ++ [EvRecv]) ≫= new_clients)
  /\ EvProposal command_a 7 ∈ events_of 1 (sv_events before_answer) ++ [EvRecv]
  /\ (7, None) ∈ replies answering_node /\ (7, None) ∉ replies asked_node.
Proof.
  split; [vm_compute; reflexivity|]. split; [apply (bool_decide_unpack _); vm_compute; exact I|].
  split; [vm_compute; repeat (apply elem_of_cons; first [left; reflexivity|right])|].
  split; [vm_compute; left|]. vm_compute. intros Hin. apply not_elem_of_nil in Hin. exact Hin.
Qed.

Lemma acknowledged_write_kept_witness :
  command_a ∈ history (node_of later_service 2) /\ command_a ∈ e_command <$> log (core (node_of later_service 1)).
Proof.
  assert (forall m, bool_decide (is_Some (sv_drivers later_service !! m)) = true ->
    (last_applied (core answering_node) <= last_applied (core (node_of later_service m)) ->
      command_a ∈ history (node_of later_service m))
    /\ (is_leader (core (node_of later_service m)) = true ->
        current_term (core answering_node) <= current_term (core (node_of later_service m)) ->
        command_a ∈ e_command <$> log (core (node_of later_service m)))) as Hkept.
  { intros m Hm.
    refine (acknowledged_write_kept kv_cluster 100 ∅ (proj1 kv_cluster_nodes) (proj2 kv_cluster_nodes)
      before_answer 1 asked_node draw EvRecv answering_node 7 command_a later_service m _
      before_answer_reachable (proj1 answering_turn) (proj1 (proj2 answering_turn))
      (proj2 (proj2 answering_turn)) _ _ _ _ _ _ later_steps (node_of_lookup _ _ Hm)).
    - exact (proj1 answer_given).
    - exact (proj1 (proj2 answer_given)).
    - exact (proj1 (proj2 (proj2 answer_given))).
    - discriminate.
    - exact (proj1 (proj2 (proj2 (proj2 answer_given)))).
    - exact (proj2 (proj2 (proj2 (proj2 answer_given)))). }
  split.
  - apply (proj1 (Hkept 2 ltac:(vm_compute; reflexivity))). vm_compute. discriminate.
  - apply (proj2 (Hkept 1 ltac:(vm_compute; reflexivity))); vm_compute; [reflexivity|discriminate].
Defined.

(** Client 9 asks node 1 to read, and node 2 answers the next heartbeat. *)
Definition read_service : KvService :=
  service_after later_service
    (MvTurn 1 (EvRead 9) :: MvTurn 1 EvTick :: receive 2 ++ receive 1).

Lemma read_steps : rtc kv_step answered_service read_service.
Proof. etrans; [exact later_steps|]. apply service_after_steps. vm_compute. reflexivity. Qed.

Definition write_state : AppState := mkAppState (fun _ => None) None (Some ∅) some_addrs.
Definition read_state : AppState := mkAppState (fun _ => None) None (Some {[ "a" := "1" ]}%string) some_addrs.

Lemma read_task : apply_task (sent_entries (node_of read_service 1)) 1 {[ "a" := "1" ]}%string.
Proof.
  eapply (task_next _ 0 ∅ (ACommand command_a)); [constructor|vm_compute; reflexivity..].
Qed.

Lemma acknowledged_set_readable_witness :
  router read_state GET "/key/a" ["key"; "a"]%string None = Some (200, [], GetBody (mkGetResponse (Some "1"%string)))
  /\ exists before after rest, history (node_of read_service 1) = before ++ command_a :: after ++ rest
       /\ router read_state GET "/key/a" ["key"; "a"]%string None
          = Some (200, [], GetBody (mkGetResponse (last_write "a" (Some "1"%string) after))).
Proof.
  split; [vm_compute; reflexivity|].
  destruct (acknowledged_set_readable kv_cluster 100 (proj1 kv_cluster_nodes) (proj2 kv_cluster_nodes)
    before_answer 1 asked_node draw EvRecv answering_node 7 "a" "1" command_a ∅ some_addrs write_state "/key" []
    (SetBody (mkSetResponse true)) read_service 1 (node_of read_service 1) 9 1 {[ "a" := "1" ]}%string some_addrs
    read_state "/key/a" None) as (before & after & rest & Hh & _ & Hr).
  - vm_compute. reflexivity.
  - discriminate.
  - exact before_answer_reachable.
  - exact (proj1 answering_turn).
  - exact (proj1 (proj2 answering_turn)).
  - exact (proj2 (proj2 answering_turn)).
  - exact (proj1 answer_given).
  - exact (proj1 (proj2 answer_given)).
  - exact (proj1 (proj2 (proj2 answer_given))).
  - vm_compute. reflexivity.
  - vm_compute. reflexivity.
  - vm_compute. reflexivity.
  - exact read_steps.
  - apply node_of_lookup. vm_compute. reflexivity.
  - vm_compute. discriminate.
  - exact read_task.
  - vm_compute. apply le_n.
  - vm_compute. reflexivity.
  - exists before, after, rest. split; [exact Hh|exact Hr].
Defined.

(** The same read while the apply task has not handled the write yet. *)
Lemma confirmed_get_any_witness :
  exists store st, apply_task (sent_entries (node_of read_service 1)) 0 store
    /\ request_state (node_of read_service 1) 9 store ∅ = Some st
    /\ router st GET "/key/a" ["key"; "a"]%string None = Some (200, [], GetBody (mkGetResponse None)).
Proof.
  refine (confirmed_get_any (node_of read_service 1) 9 "a" "/key/a" None 0 _ _); vm_compute; [reflexivity|].
  apply le_S, le_n.
Defined.

(** ** The process of [some_args] *)
Definition main_driver : RaftDriver TcpTransport Files Store :=
  match kv_main unspilled draw some_args None ∅ with
  | Done (_, _, node) => match task node with Running d => d | Stopped _ => booted_node end
  | Panic => booted_node
  end.

Lemma main_starts_service_witness :
  initial_service (main_cluster (arg_nodes some_args)) 1024 (∅ : Store) (mkService {[ 2 := main_driver ]} [] []).
Proof.
  refine (proj1 (main_starts_service unspilled (arg_nodes some_args) {[ 2 := main_driver ]} _ _)).
  - vm_compute. reflexivity.
  - intros n d Hd. apply lookup_singleton_Some in Hd as [<- <-].
    exists draw, some_args, None, some_addrs, (mkRaftNode [] [] (Running main_driver) 0).
    split; [reflexivity|]. split; [|split; vm_compute; reflexivity].
    intros i Hi. injection Hi as <-. vm_compute. split; [discriminate|reflexivity].
Defined.

(** ** The TCP network: a vote request that took two connections *)
Definition vote_events : list NetEvent := NetSend 1 2 test_vote :: reconnect 1 2.
Definition vote_net : TcpNet := default ∅ (net_run (net_start [1; 2]) vote_events).
Definition vote_node : TcpNode := default (tcp_start [] 2) (vote_net !! 2).
Definition vote_conn : Conn := default new_conn (tn_conns vote_node !! (1, 1%nat)).

Lemma vote_net_run : net_run (net_start [1; 2]) vote_events = Some vote_net /\ vote_net !! 2 = Some vote_node.
Proof. split; vm_compute; reflexivity. Qed.

Lemma tcp_in_order_witness :
  cn_piped vote_conn = [test_vote]
  /\ exists P s stream msgs, vote_net !! 1 = Some P /\ tn_tasks P !! 2 = Some s
       /\ reverse (streams s) !! 1%nat = Some stream /\ mapM from_bytes stream = Some msgs
       /\ cn_piped vote_conn `prefix_of` msgs.
Proof.
  split; [vm_compute; reflexivity|].
  destruct (tcp_in_order [1; 2] vote_events vote_net 2 vote_node 1 1 vote_conn) as
    (P & s & _ & stream & msgs & H1 & H2 & _ & H3 & H4 & H5 & _).
  - exact (proj1 vote_net_run).
  - exact (proj2 vote_net_run).
  - vm_compute. reflexivity.
  - exists P, s, stream, msgs. exact (conj H1 (conj H2 (conj H3 (conj H4 H5)))).
Defined.

Lemma tcp_from_wire_witness :
  receiver_rx (tn_handle vote_node) = [test_vote] /\ (2, test_vote) ∈ wire_of vote_events.
Proof.
  split; [vm_compute; reflexivity|].
  apply (proj1 (tcp_from_wire [1; 2] vote_events vote_net 2 vote_node (proj1 vote_net_run) (proj2 vote_net_run))).
  vm_compute. left.
Defined.
